(* ===== verification/_CoqProject ===== *)
-Q . S2P
Prelude.v
RustStd.v
TimeLib.v
Domain.v
Counter.v
Ports.v
Codec.v
FjallLib.v
Locks.v
Store.v
StoreSpec.v
StoreList.v
StoreRepo.v
StoreProps.v
Gc.v
Interleave.v
Linearize.v
KeyService.v
KeyProps.v
Concurrency.v
Auth.v
HttpBase.v
Denials.v
Serde.v
HttpRoutes.v
HttpBuckets.v
Bodies.v
HttpProps.v
Sessions.v
SessionProps.v
HttpListing.v
Credentials.v
PolicyRace.v
OsLib.v
Config.v
ConfigProps.v
Cli.v
Help.v
InstanceInit.v
Effects.v
Router.v
Routing.v
ServerProps.v
AdminSessions.v
Reference.v
Refine.v
Process.v
ProcessProps.v
Statuses.v
ApiDoc.v
Steps.v
MetricCatalogue.v
TestKit.v
TestKitProps.v
UnitTests.v
HttpTests.v
StoreTests.v
ConfigTests.v
