(* ===== verification/Prelude.v ===== *)
(** * keydock: a verified model of a multi-tenant key-value service

    keydock serves buckets of expiring, typed values over HTTP. A request passes through five
    layers, each a crate of the repository: the HTTP layer authenticates the caller against the
    policy of the bucket and checks a guard; a use case resolves TTLs, infers value types and
    applies the domain rules; the repository ports hide the storage; the Fjall adapter encodes
    keys, values and policies, takes striped write locks and commits batches to an embedded
    store; and a background sweeper collects what has expired through an ordered index. Around
    them, a route table and middleware bring requests in, and a process reads its command line
    and configuration, starts the server and shuts it down. This library models these parts and
    their composition, from the bytes of a request to the contents of the store and from the
    command line to the exit, and proves that together they do what they promise.

    ** Files

    Vocabulary
    - [Prelude] (this file): bytes, Rust's [Result], panics, stateful fallible code and its
      postconditions ([wp]), byte-string operations, lexicographic order, big-endian integers,
      and the tactics and hints the other files share.
    - [RustStd]: the standard library the program uses: UTF-8 and [trim], 64-bit integers,
      binary64 arithmetic with decimal parsing and shortest printing, [usize] bounds.
    - [TimeLib]: the interface of [time::OffsetDateTime] (a class with laws) and an instance
      that counts nanoseconds within the documented range.
    - [OsLib]: socket addresses, paths and [u64] parsing.

    Domain ([crates/keydock-domain])
    - [Domain]: identifiers, keys, values, permissions, policies, claims, errors.
    - [Counter]: the delta grammar and counter arithmetic ([counter.rs]).

    Use cases ([crates/keydock-usecase])
    - [Ports]: the traits [BucketRepository] and [KeyRepository] as classes, and their abstract
      contracts [BucketRepoSpec] and [KeyRepoSpec] over a view of the entries.
    - [KeyService]: get, list, set, increment, delete, [resolve_ttl], inference ([keys.rs],
      [txn.rs]); [KeyProps] has the theorems, for every repository with the contracts.
    - [Auth]: HMAC and constant-time equality, tokens and credential resolution ([auth.rs],
      [tokens.rs], [crypto.rs], [ct.rs]).

    Storage ([crates/keydock-fjall])
    - [Codec]: storage keys, the expiry index, entry and policy codecs ([repos.rs], [codec.rs]).
    - [FjallLib]: the interface of the Fjall database (operations and laws, any call may fail)
      and an instance with a schedule of faults.
    - [Locks]: the striped locks, and acquisition by concurrent threads as a step relation
      ([locks.rs]).
    - [Store]: every operation of [FjallStore] ([store.rs], [error.rs]), metrics included.
      [StoreSpec] and [StoreList] specify them, [StoreRepo] shows that the adapter satisfies
      the contracts of [Ports], [StoreProps] states the adapter's theorems.
    - [Gc]: the sweeper and its loop ([gc.rs]).
    - [Interleave]: the operations of [Store] and a sweeper step as programs of single backend
      calls, run by concurrent threads under the striped locks; [Linearize] relates their
      executions to a sequential specification, [Concurrency] has the theorems.

    HTTP ([crates/keydock-http])
    - [HttpBase]: error responses, credential extraction, the [BucketAuth] extractor and its
      guards ([error.rs], [auth.rs], [extract.rs], [blocking.rs]).
    - [HttpRoutes]: keys, transactions, tokens and health; [HttpBuckets]: buckets, policies and
      listings ([routes/]). [HttpProps] and [HttpListing] have the theorems. [PolicyRace]: two
      policy updates, or an update and a deletion, that interleave.
    - [Serde]: JSON trees and the rules of derived deserializers; [Bodies]: the request and
      response bodies of [routes/] over them, and which bodies are accepted.
    - [Sessions]: key requests from arrival to response, split at their storage task and
      interleaved with each other, the sweeper and policy changes; [SessionProps]: its theorem.
      [AdminSessions]: the administration requests, split likewise, among them.
    - [Credentials]: the credential of a request against a declarative specification of headers
      and query strings. [Denials]: the audit events of refusals, and redacted [Debug] output.
    - [Router]: the route table, the layers and the extractors of every handler, from a request
      to a response ([router.rs], [rate_limit.rs], [middleware/metrics.rs], [openapi.rs], and
      [AppState] of [crates/keydock-state]); [Routing]: the table as a function of the path.
    - [Effects]: footprints, a logic for what a computation may change; [ServerProps]: the
      theorems about whole requests.
    - [Reference]: the service over two finite maps; [Refine]: the server refines it.
    - [Statuses]: which statuses each handler may answer, a logic of outcomes over an interface of
      repository errors that the adapter discharges; [ApiDoc]: the API document (the attributes of
      [routes/] and [openapi.rs]) compared with them. [Steps]: relations every request follows
      because the repository operations do; [MetricCatalogue]: the described metrics
      ([metrics.rs]) compared with the samples recorded.

    Configuration ([crates/keydock-config])
    - [Config]: the layered loader and the root key; [ConfigProps]: its theorems.
    - [Cli]: the command line ([cli.rs]); [Help]: its help texts read back, and the redacted
      [Debug] of the configuration; [InstanceInit]: [keydock init] ([config/init.rs]).

    Process ([apps/keydock])
    - [Process]: [main], the start of the server and the running process as a step relation
      ([main.rs]); [ProcessProps]: its theorems.

    Test kit ([crates/keydock-testkit])
    - [TestKit]: setups, request builders, the application under test and its fault hooks, which
      drive the modelled server; [TestKitProps]: what the helpers guarantee to a test.
    - [UnitTests], [HttpTests], [StoreTests], [ConfigTests]: the unit tests inside the modules of
      the domain, use cases, HTTP layer, storage and configuration, run on the model.

    ** How state and effects are modelled

    Pure functions are functions; fallible ones return [result]; code that changes the store is
    [comp S A E], a state transformer that returns or panics. A [FjallStore] is a record of the
    database, the lock table, the fault flag of the test build and the list of metric samples
    it has emitted. Locks that a single call takes and releases are checked for poisoning; their
    interleaving is modelled in [Locks.Acquire] and, with the calls made under them, in
    [Interleave]. The clock is an argument wherever the code
    reads it, once per reading. Code outside the repository (the database, postcard, serde_json,
    HMAC, base64, percent decoding, TOML, the file system, the argument lexer, the web framework,
    sockets and runtime) is a class of operations; what the
    program relies on is a class of laws, and every law has an instance that computes, with
    which the witnesses run the whole stack on concrete requests. Of the log output the events of
    refusals are modelled ([Denials]); the rest is left out.

    ** What is proved

    - Storage: writes, increments, transactions and deletions act on the abstract map exactly as
      specified and atomically, under any pattern of backend failures; a listing is a page of
      the ordered reference listing; codecs round-trip; tenants cannot meet in one storage key;
      the expiry index sorts by time.
    - Concurrency: a batch holds exactly its stripes; threads that take stripes this way never
      deadlock; every interleaved execution of reads, writes, deletions, increments,
      transactions, listings and sweeper steps, over a backend that may fail, is linearizable and
      completes (a reverse listing with a window too large panics, outside any lock and without
      effect), and no increment is lost. Whole requests interleave likewise: each storage
      request was authorized by the policy its bucket had at an instant since it arrived, however
      policies change meanwhile, and each response is the handler's for the linearized outcome.
      With administration requests among them every change of a policy has an author: a creation,
      or an administrator by the policy the bucket had since the request arrived.
    - Sweeper: live entries are never lost, even over a failing backend; with a healthy one a
      sweep collects exactly the expired entries.
    - Use cases, against the contracts: write-then-read with TTLs, deletion, listings that agree
      with reads, transactions equal to their operations in sequence, increments that add up,
      inference that agrees with counters, no silent wrap-around.
    - Security: tokens verify only as minted, expire and can be revoked; credentials resolve to
      exactly the rights of the policy; guards accept exactly what is granted; a refused request
      changes nothing; issued tokens grant what was asked; policy patches keep their invariants;
      a scoped listing is the intersection of scopes; the credential of a request is the one the
      documented priority names; rotating the signing key through the API revokes every token
      issued before; a refusal is logged once, with its reason and without secrets.
    - HTTP: a [PUT] is read back by [GET] and [HEAD]; created buckets are usable; permission
      lists and text listings are unambiguous; the accepted transaction and patch bodies are
      characterised exactly, and the policy view hides the secrets.
    - The server as a whole: over a healthy backend it answers every sequence of requests as a
      pair of finite maps would; over any backend a request changes only what the identity its
      credential resolves to may change, buckets that are not addressed keep their policy and
      entries, safe methods change nothing and no panic escapes; the route table is unambiguous
      and equal to a function of the path, which decides the answer (the handler's, 405, or 404
      outside the documentation pages), and documented completely; requests are counted once.
    - Documentation: every response of the server is in the API document up to a table of
      omissions, each of which occurs; every metric sample is described with the right kind,
      unit and label values; the help texts list exactly the options and variables that are read.
    - Test kit: a setup creates the bucket it describes, injected faults are reported where the
      tests look for them, and the metrics recorder is installed once. The unit tests pass on the
      model.
    - Configuration: loading is exactly the documented layering and never yields a weak root
      key; disabling overrides isolates the process from its environment; the command line means
      what its options say, and a line outside their grammar exits with status 2; [init] replaces the configuration atomically and writes what [serve]
      loads.
    - Process: the start is ordered and fails fast, the address listened on is the one asked
      for, the state stays well formed as long as the process runs, and a shutdown signal ends
      it after a bounded number of steps with every accepted request answered.
    - Eight theorems state where the code falls short: a reverse listing can panic, a failing
      sweep can orphan a record, an unchecked JSON body breaks listings, enumeration shows
      values, a concurrent policy update can be lost, a concurrent update can bring a deleted
      bucket back, keys in paths are decoded twice, and paths outside the route table become
      metric labels.

    ** Bounds and fuel

    Integers keep their width: [i64] sums are checked, the signing-key generation wraps at 64
    bits, [usize] sums saturate, the expiry index uses 64-bit two's complement. Loops over lists
    are structural. Fuel appears in decimal printing ([Dec.show], one step per bit of the number,
    which is at least the number of digits), in the shortest float search (17 digits always
    suffice for the values [printable] accepts), in path trimming (one step per byte) and in the
    argument loops (more than the arguments left in the lexer, which is proved to be enough for
    every argument vector); the theorems about them are equalities with results, so running out
    would be visible.

    ** Not modelled

    Log output other than the events of refusals, and the TypeScript SDK, which only calls the
    service. Of the schemas in the API document the references are modelled, not the other
    fields. Route matching, reading JSON text into a tree, the decoding of query strings and
    forms, CORS, the documentation pages and the limiter's algorithm belong to the framework and
    are parameters. Of the ways an allocation fails the capacity overflow is modelled, a panic,
    and not the abort of a process that runs out of memory. In
    [Process] and in the histories of [ServerProps] and [Refine] requests follow one another;
    their interleaving is the subject of [Interleave], [Sessions], [AdminSessions] and
    [PolicyRace]. The tests of the system clock read the clock of the machine and are left out,
    as are the integration suites of [apps/keydock/tests]: the behaviour they sample is the
    subject of the theorems about whole requests, and the kit they use is [TestKit]. *)

From Stdlib Require Export ZArith Lia.
From Stdlib Require Import Strings.Byte.
From Stdlib Require Strings.String.
From stdpp Require Export base gmap list list_numbers strings sorting numbers.

Declare Scope keydock_scope.
Delimit Scope keydock_scope with kd.
#[global] Open Scope keydock_scope.
#[global] Open Scope Z_scope.

(** ** Bytes *)

Abbreviation byte := Init.Byte.byte.
Abbreviation bytes := (list Init.Byte.byte).

#[global] Instance byte_eq_decision : EqDecision byte := Byte.byte_eq_dec.

#[global] Instance byte_countable : Countable byte :=
  inj_countable Byte.to_N Byte.of_N Byte.of_to_N.

(** The unsigned value of a byte, and the byte of a (wrapped) integer. *)
Definition byte_Z (b : byte) : Z := Z.of_N (Byte.to_N b).

Definition byte_of_Z (z : Z) : byte :=
  default Byte.x00 (Byte.of_N (Z.to_N (z mod 256))).

(** A byte-string literal: [bs "abc"] is Rust's [b"abc"]. *)
Definition bs (s : String.string) : bytes := String.list_byte_of_string s.

Lemma byte_Z_range b : 0 <= byte_Z b < 256.
Proof. unfold byte_Z. pose proof (Byte.to_N_bounded b). lia. Qed.

Lemma byte_of_byte_Z b : byte_of_Z (byte_Z b) = b.
Proof.
  unfold byte_of_Z. rewrite Z.mod_small by apply byte_Z_range.
  unfold byte_Z. by rewrite N2Z.id, Byte.of_to_N.
Qed.

Lemma byte_Z_of_Z z : byte_Z (byte_of_Z z) = z mod 256.
Proof.
  unfold byte_of_Z, byte_Z.
  pose proof (Z.mod_pos_bound z 256 ltac:(lia)) as Hb.
  destruct (Byte.of_N (Z.to_N (z mod 256))) as [b|] eqn:E; simpl.
  - apply Byte.to_of_N in E. rewrite E. lia.
  - apply Byte.of_N_None_iff in E. lia.
Qed.

Lemma byte_Z_inj a b : byte_Z a = byte_Z b → a = b.
Proof. intros H. by rewrite <- (byte_of_byte_Z a), <- (byte_of_byte_Z b), H. Qed.

(** ** Results, panics and state *)

(** Rust's [Result<A, E>]. *)
Inductive result (A E : Type) : Type :=
| Ok (a : A)
| Err (e : E).
Arguments Ok {A E} _.
Arguments Err {A E} _.

#[global] Instance result_eq_dec `{EqDecision A, EqDecision E} : EqDecision (result A E).
Proof. solve_decision. Defined.

Definition is_ok {A E} (r : result A E) : bool :=
  match r with Ok _ => true | Err _ => false end.

Definition result_bind {A B E} (r : result A E) (f : A → result B E) : result B E :=
  match r with Ok a => f a | Err e => Err e end.

Definition map_err {A E F} (f : E → F) (r : result A E) : result A F :=
  match r with Ok a => Ok a | Err e => Err (f e) end.

Definition ok_or {A E} (e : E) (o : option A) : result A E :=
  match o with Some a => Ok a | None => Err e end.

Definition result_ok {A E} (r : result A E) : option A :=
  match r with Ok a => Some a | Err _ => None end.

(** The [?] operator: [let? x := r in k]. *)
Notation "'let?' x ':=' r 'in' k" := (result_bind r (λ x, k))
  (at level 10, x binder, r at level 100, k at level 200) : keydock_scope.

(** The outcome of running code that can unwind: it returns a value, or it panics. *)
Inductive exec (A : Type) : Type :=
| Ret (a : A)
| Panic.
Arguments Ret {A} _.
Arguments Panic {A}.

(** Stateful fallible code: it threads a state and returns a [Result], or panics. *)
Definition comp (S A E : Type) : Type := S → exec (result A E) * S.

Definition comp_ret {S A E} (a : A) : comp S A E := λ s, (Ret (Ok a), s).
Definition comp_err {S A E} (e : E) : comp S A E := λ s, (Ret (Err e), s).

Definition comp_bind {S A B E} (m : comp S A E) (f : A → comp S B E) : comp S B E :=
  λ s, match m s with
       | (Ret (Ok a), s') => f a s'
       | (Ret (Err e), s') => (Ret (Err e), s')
       | (Panic, s') => (Panic, s')
       end.

(** A pure [Result] inside stateful code. *)
Definition comp_lift {S A E} (r : result A E) : comp S A E := λ s, (Ret r, s).

(** [let! x := m in k] is [let x = m?; k] in stateful code. *)
Notation "'let!' x ':=' m 'in' k" := (comp_bind m (λ x, k))
  (at level 10, x binder, m at level 100, k at level 200) : keydock_scope.

Lemma pair_fst {A B} (p : A * B) a : p.1 = a → p = (a, p.2).
Proof. intros <-. by destruct p. Qed.

Lemma comp_bind_ok {S A B E} (m : comp S A E) (f : A → comp S B E) s a s' :
  m s = (Ret (Ok a), s') → comp_bind m f s = f a s'.
Proof. intros H. unfold comp_bind. by rewrite H. Qed.

Lemma comp_bind_err {S A B E} (m : comp S A E) (f : A → comp S B E) s e s' :
  m s = (Ret (Err e), s') → comp_bind m f s = (Ret (Err e), s').
Proof. intros H. unfold comp_bind. by rewrite H. Qed.

Lemma comp_bind_inv_ok {S A B E} (m : comp S A E) (f : A → comp S B E) s b s' :
  comp_bind m f s = (Ret (Ok b), s') →
  ∃ a s1, m s = (Ret (Ok a), s1) ∧ f a s1 = (Ret (Ok b), s').
Proof.
  unfold comp_bind. destruct (m s) as [[[a|e]|] s1] eqn:E'; intros H; simplify_eq.
  by exists a, s1.
Qed.

(** Postconditions of stateful code: [wp m s Q] says that running [m] from [s] ends in an outcome
    and a state that satisfy [Q]. *)
Definition wp {S A E} (m : comp S A E) (s : S) (Q : exec (result A E) → S → Prop) : Prop :=
  Q (m s).1 (m s).2.

Lemma wp_elim {S A E} (m : comp S A E) s Q r s' : wp m s Q → m s = (r, s') → Q r s'.
Proof. unfold wp. intros HQ H. by rewrite H in HQ. Qed.

Lemma wp_mono {S A E} (m : comp S A E) s (Q Q' : exec (result A E) → S → Prop) :
  wp m s Q → (∀ r s', Q r s' → Q' r s') → wp m s Q'.
Proof. unfold wp. auto. Qed.

Lemma wp_ret {S A E} (a : A) s (Q : exec (result A E) → S → Prop) :
  Q (Ret (Ok a)) s → wp (comp_ret a) s Q.
Proof. done. Qed.

Lemma wp_lift {S A E} (r : result A E) (s : S) (Q : exec (result A E) → S → Prop) :
  Q (Ret r) s → wp (comp_lift r) s Q.
Proof. done. Qed.

Lemma wp_bind {S A B E} (m : comp S A E) (f : A → comp S B E) s Q :
  wp m s (λ r s', match r with
                  | Ret (Ok a) => wp (f a) s' Q
                  | Ret (Err e) => Q (Ret (Err e)) s'
                  | Panic => Q Panic s'
                  end) →
  wp (comp_bind m f) s Q.
Proof. unfold wp, comp_bind. by destruct (m s) as [[[a|e]|] s']. Qed.

Lemma result_bind_ok {A B E} (r : result A E) (f : A → result B E) b :
  result_bind r f = Ok b → ∃ a, r = Ok a ∧ f a = Ok b.
Proof. destruct r; simpl; intros; simplify_eq; eauto. Qed.

(** ** Proof automation *)

(** Split every [match] of a hypothesis or of the goal, discarding the impossible branches. *)
Ltac split_matches :=
  repeat (case_match; simplify_eq/=; try done).

(** Decompose a successful [?]-chain [H : let? .. in .. = Ok _]. *)
Ltac res_inv H :=
  let a := fresh "v" in let E1 := fresh "E" in let E2 := fresh "E" in
  apply result_bind_ok in H as (a & E1 & H); simpl in H.

(** Closed equations by evaluation, without reading the values back. *)
Ltac vm_refl := match goal with |- ?a = ?b => exact (@eq_refl _ b <: a = b) end.

Create HintDb keydock discriminated.
Create Rewrite HintDb keydock.
#[export] Hint Resolve byte_Z_range byte_Z_inj : keydock.
#[export] Hint Rewrite byte_of_byte_Z byte_Z_of_Z : keydock.

(** ** Slices: prefixes, search, splitting

    Rust string operations with an ASCII needle act byte by byte on the UTF-8 text, so a
    [&str] is modelled by its bytes. *)

Definition starts_with (l p : bytes) : bool := bool_decide (p `prefix_of` l).

Fixpoint strip_prefix (p l : bytes) : option bytes :=
  match p, l with
  | [], _ => Some l
  | a :: p', b :: l' => if decide (a = b) then strip_prefix p' l' else None
  | _ :: _, [] => None
  end.

Definition ends_with (l p : bytes) : bool := bool_decide (p `suffix_of` l).

(** [l.contains(p)] for a byte-string needle. *)
Fixpoint contains (l p : bytes) : bool :=
  starts_with l p || match l with [] => false | _ :: l' => contains l' p end.

(** [l.split_once(c)] at the first occurrence of the byte [c]. *)
Fixpoint split_once (c : byte) (l : bytes) : option (bytes * bytes) :=
  match l with
  | [] => None
  | b :: l' => if decide (b = c) then Some ([], l')
               else match split_once c l' with
                    | Some (x, y) => Some (b :: x, y)
                    | None => None
                    end
  end.

(** [l.split(c)]: always at least one segment. *)
Fixpoint split (c : byte) (l : bytes) : list bytes :=
  match l with
  | [] => [[]]
  | b :: l' => if decide (b = c) then [] :: split c l'
               else match split c l' with
                    | x :: xs => (b :: x) :: xs
                    | [] => [[b]]
                    end
  end.

Definition to_ascii_lowercase (l : bytes) : bytes :=
  (λ b, if (65 <=? byte_Z b) && (byte_Z b <=? 90) then byte_of_Z (byte_Z b + 32) else b) <$> l.

Lemma strip_prefix_Some p l r : strip_prefix p l = Some r ↔ l = p ++ r.
Proof.
  revert l. induction p as [|a p IH]; intros l; simpl.
  - split; intros; simplify_eq; done.
  - destruct l as [|b l]; [split; done|]. case_decide; subst.
    + rewrite IH. split; [by intros ->|by intros [= ->]].
    + split; [done|]. intros [=]; congruence.
Qed.

Lemma strip_prefix_app p l : strip_prefix p (p ++ l) = Some l.
Proof. by apply strip_prefix_Some. Qed.

Lemma starts_with_true l p : starts_with l p = true ↔ ∃ r, l = p ++ r.
Proof. unfold starts_with. rewrite bool_decide_eq_true. done. Qed.

Lemma split_once_None c l : split_once c l = None ↔ c ∉ l.
Proof.
  induction l as [|b l IH]; simpl.
  - split; [intros _; apply not_elem_of_nil|done].
  - rewrite not_elem_of_cons. case_decide; subst; [split; [done|by intros [? _]]|].
    destruct (split_once c l) as [[x y]|] eqn:E.
    + split; [done|]. intros [_ Hn]. by apply IH in Hn.
    + split; [|done]. intros _. split; [congruence|by apply IH].
Qed.

Lemma split_once_Some c l x y : split_once c l = Some (x, y) ↔ l = x ++ c :: y ∧ c ∉ x.
Proof.
  revert x. induction l as [|b l IH]; intros x; simpl.
  - split; [done|]. intros [H _]. by destruct x.
  - case_decide as Hd; subst.
    + split; [intros [= <- <-]; split; [done|apply not_elem_of_nil]|].
      intros [H Hn]. destruct x as [|d x]; [by simplify_eq/=|].
      simplify_eq/=. by apply not_elem_of_cons in Hn as [? _].
    + destruct (split_once c l) as [[x' y']|] eqn:E.
      * split.
        -- intros [= <- <-]. destruct (proj1 (IH x') eq_refl) as [-> Hn].
           split; [done|]. apply not_elem_of_cons. split; congruence.
        -- intros [H Hn]. destruct x as [|d x]; simplify_eq/=.
           apply not_elem_of_cons in Hn as [_ Hn].
           assert (Some (x', y') = Some (x, y)) as Hs; [|by simplify_eq].
           apply IH. done.
      * split; [done|]. intros [H Hn]. destruct x as [|d x]; simplify_eq/=.
        apply split_once_None in E. exfalso. apply E.
        apply elem_of_app. right. apply elem_of_cons. by left.
Qed.

Lemma split_cons_inv c l x y ys :
  split c l = x :: y :: ys → ∃ r, l = x ++ c :: r ∧ split c r = y :: ys.
Proof.
  revert x. induction l as [|b l IH]; intros x; simpl; [done|].
  case_decide as Hb; [intros [= <- Hl]; subst; by exists l|].
  destruct (split c l) as [|z zs] eqn:E; [done|]. intros [= <- ->].
  destruct (IH z eq_refl) as (r & -> & Hr). by exists r.
Qed.

Lemma split_head c l x xs : split c l = x :: xs → ∃ r, l = x ++ r.
Proof.
  revert x xs. induction l as [|b l IH]; intros x xs; simpl; [intros [= <- _]; by exists []|].
  case_decide; [intros [= <- _]; by eexists|].
  destruct (split c l) as [|z zs] eqn:E; [intros [= <- _]; by eexists|]. intros [= <- _].
  destruct (IH z zs eq_refl) as [r ->]. by exists r.
Qed.

Lemma split_no_sep c l s : s ∈ split c l → c ∉ s.
Proof.
  revert s. induction l as [|b l IH]; intros s; simpl.
  - intros ->%list_elem_of_singleton. apply not_elem_of_nil.
  - case_decide as Hd.
    + intros [->|Hs]%elem_of_cons; [apply not_elem_of_nil|by apply IH].
    + destruct (split c l) as [|x xs] eqn:E.
      * intros ->%list_elem_of_singleton. rewrite list_elem_of_singleton. congruence.
      * intros [->|Hs]%elem_of_cons.
        -- rewrite not_elem_of_cons. split; [congruence|]. apply IH, elem_of_cons. by left.
        -- apply IH, elem_of_cons. by right.
Qed.

(** ** The lexicographic byte order (Rust's [Ord for [u8]], the key order of the store) *)

Fixpoint bytes_lt (l m : bytes) : Prop :=
  match l, m with
  | _, [] => False
  | [], _ :: _ => True
  | a :: l', b :: m' => byte_Z a < byte_Z b ∨ (a = b ∧ bytes_lt l' m')
  end.

Definition bytes_le (l m : bytes) : Prop := l = m ∨ bytes_lt l m.

#[global] Instance bytes_lt_dec : RelDecision bytes_lt.
Proof.
  intros l. induction l as [|a l IH]; intros [|b m]; simpl; apply _.
Defined.

#[global] Instance bytes_le_dec : RelDecision bytes_le.
Proof. intros l m. unfold bytes_le. apply _. Defined.

Lemma bytes_lt_irrefl l : ¬ bytes_lt l l.
Proof. induction l; simpl; [tauto|]. intros [?|[_ ?]]; [lia|done]. Qed.

#[global] Instance bytes_lt_trans : Transitive bytes_lt.
Proof.
  intros l. induction l as [|a l IH]; intros [|b m] [|c n]; simpl; try tauto.
  intros [?|[-> ?]] [?|[-> ?]]; [left; lia|by left|by left|right; eauto].
Qed.

Lemma bytes_lt_trichotomy l m : bytes_lt l m ∨ l = m ∨ bytes_lt m l.
Proof.
  revert m. induction l as [|a l IH]; intros [|b m]; simpl; auto.
  destruct (Z.lt_trichotomy (byte_Z a) (byte_Z b)) as [?|[?%byte_Z_inj|?]]; auto. subst.
  destruct (IH m) as [?|[->|?]]; auto.
Qed.

#[global] Instance bytes_le_trans : Transitive bytes_le.
Proof.
  intros l m n [->|?] [->|?]; unfold bytes_le; auto. right. by etrans.
Qed.

#[global] Instance bytes_le_total : Total bytes_le.
Proof. intros l m. unfold bytes_le. destruct (bytes_lt_trichotomy l m) as [?|[->|?]]; auto. Qed.

#[global] Instance bytes_le_antisymm : AntiSymm (=) bytes_le.
Proof.
  intros l m [Hlm|H1] [Hml|H2]; try done. exfalso. apply (bytes_lt_irrefl l). by trans m.
Qed.

(** A common prefix does not influence the order. *)
Lemma bytes_lt_app p l m : bytes_lt (p ++ l) (p ++ m) ↔ bytes_lt l m.
Proof.
  induction p as [|a p IH]; simpl; [done|]. rewrite IH.
  split; [intros [?|[_ ?]]; [lia|done]|tauto].
Qed.

(** Of two texts with equal-length heads, the heads decide unless they agree. *)
Lemma bytes_lt_app_head a b l m :
  length a = length b → bytes_lt a b → bytes_lt (a ++ l) (b ++ m).
Proof.
  revert b. induction a as [|x a IH]; intros [|y b]; simpl; try done.
  intros [= ?] [?|[-> ?]]; auto.
Qed.

(** ** Big-endian integers ([to_be_bytes] / [from_be_bytes] of an [n]-byte word) *)

Fixpoint be_bytes (n : nat) (z : Z) : bytes :=
  match n with
  | O => []
  | S n' => byte_of_Z (z / 256 ^ Z.of_nat n') :: be_bytes n' z
  end.

Fixpoint be_value (l : bytes) : Z :=
  match l with
  | [] => 0
  | b :: l' => byte_Z b * 256 ^ Z.of_nat (length l') + be_value l'
  end.

Lemma length_be_bytes n z : length (be_bytes n z) = n.
Proof. induction n; simpl; congruence. Qed.

Lemma pow256_pos (n : nat) : 0 < 256 ^ Z.of_nat n.
Proof. apply Z.pow_pos_nonneg; lia. Qed.

Lemma pow256_S (n : nat) : 256 ^ Z.of_nat (S n) = 256 * 256 ^ Z.of_nat n.
Proof. rewrite Nat2Z.inj_succ, Z.pow_succ_r by lia. done. Qed.

Lemma be_value_bytes n z : be_value (be_bytes n z) = z mod 256 ^ Z.of_nat n.
Proof.
  induction n as [|n IH]; simpl be_bytes; simpl be_value.
  - by rewrite Z.mod_1_r.
  - rewrite length_be_bytes, IH, byte_Z_of_Z, pow256_S, (Z.mul_comm 256).
    pose proof (pow256_pos n).
    rewrite (Z.rem_mul_r z (256 ^ Z.of_nat n) 256) by lia. lia.
Qed.

Lemma be_value_range l : 0 <= be_value l < 256 ^ Z.of_nat (length l).
Proof.
  induction l as [|b l IH]; [simpl; lia|]. cbn [be_value length]. rewrite pow256_S.
  pose proof (byte_Z_range b). pose proof (pow256_pos (length l)). nia.
Qed.

Lemma be_bytes_ext n z z' :
  z mod 256 ^ Z.of_nat n = z' mod 256 ^ Z.of_nat n → be_bytes n z = be_bytes n z'.
Proof.
  revert z z'. induction n as [|n IH]; intros z z'; [done|]. rewrite pow256_S.
  pose proof (pow256_pos n) as Hp. rewrite (Z.mul_comm 256). intros H. simpl. f_equal.
  - apply byte_Z_inj. rewrite !byte_Z_of_Z.
    assert (∀ x, (x mod (256 ^ Z.of_nat n * 256)) / 256 ^ Z.of_nat n
                 = (x / 256 ^ Z.of_nat n) mod 256) as Hd.
    { intros x. rewrite Z.rem_mul_r by lia.
      rewrite Z.add_comm, (Z.mul_comm (256 ^ _)), Z.div_add_l by lia.
      rewrite (Z.div_small (x mod _)) by (apply Z.mod_pos_bound; lia). lia. }
    by rewrite <- !Hd, H.
  - apply IH.
    assert (∀ x, (x mod (256 ^ Z.of_nat n * 256)) mod 256 ^ Z.of_nat n
                 = x mod 256 ^ Z.of_nat n) as Hm.
    { intros x. rewrite Z.rem_mul_r by lia.
      rewrite Z.add_comm, (Z.mul_comm (256 ^ _)), Z.add_comm, Z.mod_add by lia.
      by rewrite Z.mod_mod by lia. }
    by rewrite <- (Hm z), <- (Hm z'), H.
Qed.

Lemma be_bytes_value l : be_bytes (length l) (be_value l) = l.
Proof.
  induction l as [|b l IH]; [done|].
  pose proof (be_value_range l) as Hr. pose proof (pow256_pos (length l)) as Hp.
  cbn [length be_bytes be_value]. f_equal.
  - rewrite Z.div_add_l by lia. rewrite Z.div_small by lia.
    rewrite Z.add_0_r. apply byte_of_byte_Z.
  - trans (be_bytes (length l) (be_value l)); [|done]. apply be_bytes_ext.
    by rewrite Z.add_comm, Z.mod_add by lia.
Qed.

Lemma be_value_inj l m : length l = length m → be_value l = be_value m → l = m.
Proof.
  intros Hl Hv. rewrite <- (be_bytes_value l), <- (be_bytes_value m). congruence.
Qed.

(** Big-endian encoding turns the integer order into the lexicographic one. *)
Lemma be_value_lt l m :
  length l = length m → (bytes_lt l m ↔ be_value l < be_value m).
Proof.
  revert m. induction l as [|a l IH]; intros [|b m]; try done.
  intros [= Hl]. cbn [bytes_lt be_value]. rewrite (IH m Hl), Hl.
  pose proof (be_value_range l) as H1. pose proof (be_value_range m) as H2.
  rewrite Hl in H1. pose proof (pow256_pos (length m)).
  split.
  - intros [?|[-> ?]]; nia.
  - intros ?. destruct (Z.lt_trichotomy (byte_Z a) (byte_Z b)) as [?|[Heq|?]]; auto.
    + right. split; [by apply byte_Z_inj|]. nia.
    + exfalso. nia.
Qed.

(** ** Sorted lists *)

Lemma StronglySorted_app_inv {A} (R : relation A) l x m :
  StronglySorted R (l ++ x :: m) → Forall (λ y, R y x) l ∧ Forall (R x) m.
Proof.
  induction l as [|a l IH]; simpl; intros H; inversion H as [|? ? Hs Hf]; subst.
  - by split.
  - apply IH in Hs as [H1 H2]. split; [|done].
    apply list.Forall_cons. split; [|done]. rewrite list.Forall_forall in Hf. apply Hf. set_solver.
Qed.
