(* ===== verification/RustStd.v ===== *)
(** * The parts of Rust's standard library the program uses

    - [Utf8]: [str::from_utf8], [str::trim] and [char::is_whitespace];
    - [Int64]: [i64] ranges, [checked_add], [FromStr] and [Display] for [i64];
    - [Float64]: IEEE binary64 with the arithmetic of [SpecFloat], [FromStr] and [Display]
      for [f64] (correctly rounded decimal conversion, shortest round-trip printing);
    - [Usize]: 64-bit [usize] bounds and [saturating_add]. *)

From Stdlib Require Import Strings.Byte.
From Stdlib Require Import SpecFloat.
From S2P Require Import Prelude.

(** ** UTF-8 *)

Module Utf8.

Definition in_range (lo hi : Z) (b : byte) : bool := (lo <=? byte_Z b) && (byte_Z b <=? hi).

Definition cont (b : byte) : bool := in_range 0x80 0xBF b.

Definition bits6 (b : byte) : Z := byte_Z b - 0x80.

(** Decoding of well-formed UTF-8 (Unicode table 3-7) into scalar values. *)
Fixpoint decode (l : bytes) : option (list Z) :=
  match l with
  | [] => Some []
  | a :: l1 =>
    if in_range 0x00 0x7F a then cons (byte_Z a) <$> decode l1
    else match l1 with
    | [] => None
    | b :: l2 =>
      if in_range 0xC2 0xDF a && cont b
      then cons ((byte_Z a - 0xC0) * 64 + bits6 b) <$> decode l2
      else match l2 with
      | [] => None
      | c :: l3 =>
        if ((in_range 0xE0 0xE0 a && in_range 0xA0 0xBF b)
            || (in_range 0xE1 0xEC a && cont b)
            || (in_range 0xED 0xED a && in_range 0x80 0x9F b)
            || (in_range 0xEE 0xEF a && cont b)) && cont c
        then cons ((byte_Z a - 0xE0) * 4096 + bits6 b * 64 + bits6 c) <$> decode l3
        else match l3 with
        | [] => None
        | d :: l4 =>
          if ((in_range 0xF0 0xF0 a && in_range 0x90 0xBF b)
              || (in_range 0xF1 0xF3 a && cont b)
              || (in_range 0xF4 0xF4 a && in_range 0x80 0x8F b)) && cont c && cont d
          then cons ((byte_Z a - 0xF0) * 262144 + bits6 b * 4096 + bits6 c * 64 + bits6 d)
                 <$> decode l4
          else None
        end
      end
    end
  end.

(** [std::str::from_utf8(l).is_ok()]. *)
Definition from_utf8 (l : bytes) : bool := bool_decide (is_Some (decode l)).

(** U+FFFD. *)
Definition replacement : bytes := byte_of_Z <$> [0xEF; 0xBF; 0xBD].

(** The second byte of a three- or four-byte sequence. *)
Definition second3 (a b : byte) : bool :=
  (in_range 0xE0 0xE0 a && in_range 0xA0 0xBF b)
  || (in_range 0xE1 0xEC a && cont b)
  || (in_range 0xED 0xED a && in_range 0x80 0x9F b)
  || (in_range 0xEE 0xEF a && cont b).

Definition second4 (a b : byte) : bool :=
  (in_range 0xF0 0xF0 a && in_range 0x90 0xBF b)
  || (in_range 0xF1 0xF3 a && cont b)
  || (in_range 0xF4 0xF4 a && in_range 0x80 0x8F b).

(** [String::from_utf8_lossy]: every maximal invalid subsequence becomes one U+FFFD. *)
Fixpoint from_utf8_lossy (l : bytes) : bytes :=
  match l with
  | [] => []
  | a :: l1 =>
    if in_range 0x00 0x7F a then a :: from_utf8_lossy l1
    else match l1 with
    | [] => replacement
    | b :: l2 =>
      if in_range 0xC2 0xDF a && cont b then a :: b :: from_utf8_lossy l2
      else if second3 a b then
        match l2 with
        | [] => replacement
        | c :: l3 => if cont c then a :: b :: c :: from_utf8_lossy l3
                     else replacement ++ from_utf8_lossy l2
        end
      else if second4 a b then
        match l2 with
        | [] => replacement
        | c :: l3 =>
          if cont c then
            match l3 with
            | [] => replacement
            | d :: l4 => if cont d then a :: b :: c :: d :: from_utf8_lossy l4
                         else replacement ++ from_utf8_lossy l3
            end
          else replacement ++ from_utf8_lossy l2
        end
      else replacement ++ from_utf8_lossy l1
    end
  end.

Definition encode_char (c : Z) : bytes :=
  if c <? 0x80 then [byte_of_Z c]
  else if c <? 0x800 then [byte_of_Z (0xC0 + c / 64); byte_of_Z (0x80 + c mod 64)]
  else if c <? 0x10000 then
    [byte_of_Z (0xE0 + c / 4096); byte_of_Z (0x80 + (c / 64) mod 64);
     byte_of_Z (0x80 + c mod 64)]
  else [byte_of_Z (0xF0 + c / 262144); byte_of_Z (0x80 + (c / 4096) mod 64);
        byte_of_Z (0x80 + (c / 64) mod 64); byte_of_Z (0x80 + c mod 64)].

Definition encode (cs : list Z) : bytes := mjoin (encode_char <$> cs).

(** [char::is_whitespace]: the Unicode [White_Space] property. *)
Definition is_whitespace (c : Z) : bool :=
  ((0x09 <=? c) && (c <=? 0x0D)) || (c =? 0x20) || (c =? 0x85) || (c =? 0xA0)
  || (c =? 0x1680) || ((0x2000 <=? c) && (c <=? 0x200A)) || (c =? 0x2028) || (c =? 0x2029)
  || (c =? 0x202F) || (c =? 0x205F) || (c =? 0x3000).

Fixpoint drop_ws (cs : list Z) : list Z :=
  match cs with
  | [] => []
  | c :: cs' => if is_whitespace c then drop_ws cs' else cs
  end.

(** [str::trim] on the scalar values. *)
Definition trim_chars (cs : list Z) : list Z := reverse (drop_ws (reverse (drop_ws cs))).

(** [str::trim]; a [&str] always decodes, so the last branch is unreachable on one. *)
Definition trim (s : bytes) : bytes :=
  match decode s with
  | Some cs => encode (trim_chars cs)
  | None => s
  end.

(** The lossy conversion keeps well-formed text. *)
Lemma from_utf8_lossy_valid l : from_utf8 l = true → from_utf8_lossy l = l.
Proof.
  unfold from_utf8. rewrite bool_decide_eq_true.
  remember (length l) as n eqn:Hn. revert l Hn.
  induction (lt_wf n) as [n _ IH]. intros l ->.
  assert (∀ m (f : list Z → list Z), (length m < length l)%nat → is_Some (f <$> decode m) →
    from_utf8_lossy m = m) as Hrec.
  { intros m f Hm [x Hx]. eapply IH; [exact Hm|done|]. destruct (decode m); [by eexists|done]. }
  clear IH. destruct l as [|a l1]; [done|]. cbn [decode from_utf8_lossy].
  destruct (in_range 0x00 0x7F a); [intros H; by rewrite (Hrec l1 _ ltac:(simpl; lia) H)|].
  destruct l1 as [|b l2]; [by intros []|].
  destruct (in_range 0xC2 0xDF a && cont b); [intros H; by rewrite (Hrec l2 _ ltac:(simpl; lia) H)|].
  destruct l2 as [|c l3]; [by intros []|]. fold (second3 a b). fold (second4 a b).
  destruct (second3 a b) eqn:E3.
  - simpl. destruct (cont c); [intros H; by rewrite (Hrec l3 _ ltac:(simpl; lia) H)|].
    destruct l3 as [|d l4]; [by intros []|]. destruct (second4 a b); simpl; by intros [].
  - simpl. destruct l3 as [|d l4]; [by intros []|].
    destruct (second4 a b); simpl; [|by intros []].
    destruct (cont c); simpl; [|by intros []]. destruct (cont d); simpl; [|by intros []].
    intros H. by rewrite (Hrec l4 _ ltac:(simpl; lia) H).
Qed.

Lemma in_range_true lo hi b : in_range lo hi b = true ↔ lo <= byte_Z b <= hi.
Proof. unfold in_range. rewrite andb_true_iff, !Z.leb_le. lia. Qed.

(** An ASCII text decodes to its own byte values. *)
Definition ascii (l : bytes) : Prop := Forall (λ b, byte_Z b < 128) l.

#[global] Instance ascii_dec l : Decision (ascii l).
Proof. unfold ascii. apply _. Defined.

Lemma decode_ascii l : ascii l → decode l = Some (byte_Z <$> l).
Proof.
  induction 1 as [|b l Hb _ IH]; [done|]. simpl.
  replace (in_range 0 127 b) with true.
  - by rewrite IH.
  - symmetry. apply in_range_true. pose proof (byte_Z_range b). lia.
Qed.

Lemma encode_ascii l : ascii l → encode (byte_Z <$> l) = l.
Proof.
  induction 1 as [|b l Hb _ IH]; [done|].
  change (encode_char (byte_Z b) ++ encode (byte_Z <$> l) = b :: l). rewrite IH.
  unfold encode_char. replace (byte_Z b <? 128) with true by lia.
  by rewrite byte_of_byte_Z.
Qed.

Lemma drop_ws_noop cs : (∀ c, head cs = Some c → is_whitespace c = false) → drop_ws cs = cs.
Proof. destruct cs as [|c cs]; [done|]. simpl. intros H. by rewrite H. Qed.

(** A text of ASCII characters none of which is white space is its own trim. *)
Definition graphic (l : bytes) : Prop :=
  Forall (λ b, byte_Z b < 128 ∧ is_whitespace (byte_Z b) = false) l.

#[global] Instance graphic_dec l : Decision (graphic l).
Proof. unfold graphic. apply _. Defined.

Lemma graphic_ascii l : graphic l → ascii l.
Proof. intros H. eapply list.Forall_impl; [exact H|]. by intros b [? _]. Qed.

Lemma trim_graphic l : graphic l → trim l = l.
Proof.
  intros H. unfold trim. rewrite decode_ascii by by apply graphic_ascii.
  assert (∀ cs, Forall (λ c, is_whitespace c = false) cs → drop_ws cs = cs) as Hd.
  { intros cs Hcs. apply drop_ws_noop. intros c Hc. destruct Hcs; by simplify_eq/=. }
  assert (Forall (λ c, is_whitespace c = false) (byte_Z <$> l)) as Hl.
  { apply Forall_fmap. eapply list.Forall_impl; [exact H|]. by intros b [_ ?]. }
  unfold trim_chars. rewrite (Hd (byte_Z <$> l)) by done.
  rewrite Hd by by apply Forall_reverse. rewrite reverse_involutive.
  apply encode_ascii. by apply graphic_ascii.
Qed.

End Utf8.

(** ** 64-bit unsigned sizes *)

Module Usize.

Definition usize_max : N := 18446744073709551615.
Definition isize_max : N := 9223372036854775807.

Definition saturating_add (a b : N) : N := N.min (a + b) usize_max.

(** [VecDeque::with_capacity(n)] for elements of [size] bytes: the allocation size must not
    exceed [isize::MAX], otherwise the call panics ("capacity overflow"). *)
Definition with_capacity_panics (size n : N) : bool := (isize_max <? size * n)%N.

End Usize.

(** ** Decimal digits *)

Module Dec.

Definition is_digit (b : byte) : bool := (48 <=? byte_Z b) && (byte_Z b <=? 57).

Definition digit (d : Z) : byte := byte_of_Z (48 + d).

Definition digits_from (a : Z) (l : bytes) : Z :=
  fold_left (λ acc b, acc * 10 + (byte_Z b - 48)) l a.

(** The value of a digit string. *)
Definition digits_val (l : bytes) : Z := digits_from 0 l.

Fixpoint show_aux (fuel : nat) (n : Z) (acc : bytes) : bytes :=
  match fuel with
  | O => acc
  | S f => let acc' := digit (n mod 10) :: acc in
           if n / 10 =? 0 then acc' else show_aux f (n / 10) acc'
  end.

(** The decimal digits of a natural number, most significant first. *)
Definition show (n : Z) : bytes := show_aux (S (Z.to_nat (Z.log2 n))) n [].

Lemma digit_Z d : 0 <= d < 10 → byte_Z (digit d) = 48 + d.
Proof. intros H. unfold digit. rewrite byte_Z_of_Z, Z.mod_small; lia. Qed.

Lemma is_digit_digit d : 0 <= d < 10 → is_digit (digit d) = true.
Proof. intros H. unfold is_digit. rewrite digit_Z by lia. lia. Qed.

Lemma show_aux_app fuel n acc : show_aux fuel n acc = show_aux fuel n [] ++ acc.
Proof.
  revert n acc. induction fuel as [|f IH]; intros n acc; simpl; [done|].
  case_match; [done|]. rewrite IH, (IH _ [_]), <- app_assoc. done.
Qed.

Lemma digits_from_app a l m : digits_from a (l ++ m) = digits_from (digits_from a l) m.
Proof. unfold digits_from. by rewrite fold_left_app. Qed.

Lemma digits_from_pow a l : digits_from a l = a * 10 ^ Z.of_nat (length l) + digits_val l.
Proof.
  revert a. induction l as [|b l IH] using rev_ind; intros a.
  - change (a = a * 1 + 0). lia.
  - assert (∀ c, digits_from c (l ++ [b]) = digits_from c l * 10 + (byte_Z b - 48)) as Hs.
    { intros c. by rewrite digits_from_app. }
    unfold digits_val. rewrite !Hs, (IH a), length_app. change (digits_from 0 l) with (digits_val l).
    simpl length. rewrite Nat2Z.inj_add. change (Z.of_nat 1) with 1.
    rewrite Z.pow_add_r, Z.pow_1_r by lia. ring.
Qed.

Lemma digits_val_app l m :
  digits_val (l ++ m) = digits_val l * 10 ^ Z.of_nat (length m) + digits_val m.
Proof. unfold digits_val at 1. rewrite digits_from_app. apply digits_from_pow. Qed.

Lemma digits_val_zeros n : digits_val (replicate n (digit 0)) = 0.
Proof.
  induction n as [|n IH]; [done|].
  change (replicate (S n) (digit 0)) with ([digit 0] ++ replicate n (digit 0)).
  rewrite digits_val_app, IH. done.
Qed.

Lemma show_aux_digits fuel n acc :
  0 <= n → Forall (λ b, is_digit b = true) acc →
  Forall (λ b, is_digit b = true) (show_aux fuel n acc).
Proof.
  revert n acc. induction fuel as [|f IH]; intros n acc Hn Ha; simpl; [done|].
  assert (Forall (λ b, is_digit b = true) (digit (n mod 10) :: acc)).
  { constructor; [|done]. apply is_digit_digit, Z.mod_pos_bound. lia. }
  case_match; [done|]. apply IH; [|done]. apply Z.div_pos; lia.
Qed.

Lemma show_digits n : 0 <= n → Forall (λ b, is_digit b = true) (show n).
Proof. intros H. apply show_aux_digits; [done|constructor]. Qed.

Lemma show_aux_val fuel n :
  0 <= n < 2 ^ Z.of_nat fuel → digits_val (show_aux fuel n []) = n.
Proof.
  revert n. induction fuel as [|f IH]; intros n Hn.
  - simpl in *. change (2 ^ Z.of_nat 0) with 1 in Hn. unfold digits_val, digits_from. simpl. lia.
  - rewrite Nat2Z.inj_succ, Z.pow_succ_r in Hn by lia. simpl.
    pose proof (Z.div_mod n 10 ltac:(lia)). pose proof (Z.mod_pos_bound n 10 ltac:(lia)).
    assert (digits_val [digit (n mod 10)] = n mod 10) as H1.
    { unfold digits_val, digits_from. simpl. rewrite digit_Z by lia. lia. }
    destruct (Z.eqb_spec (n / 10) 0) as [E|E]; [rewrite H1; lia|].
    rewrite show_aux_app, digits_val_app, IH, H1 by lia. simpl length.
    rewrite Z.pow_1_r. lia.
Qed.

Lemma show_val n : 0 <= n → digits_val (show n) = n.
Proof.
  intros Hn. apply show_aux_val. split; [done|].
  destruct (Z.eq_dec n 0) as [->|]; [done|].
  rewrite Nat2Z.inj_succ, Z2Nat.id by apply Z.log2_nonneg.
  apply Z.log2_spec. lia.
Qed.

Lemma show_nonempty n : show n ≠ [].
Proof.
  unfold show. simpl. case_match; [done|]. rewrite show_aux_app. by destruct (show_aux _ _ []).
Qed.

Lemma show_aux_length fuel n k :
  0 <= n < 10 ^ Z.of_nat k → (0 < k)%nat → (length (show_aux fuel n []) <= k)%nat.
Proof.
  revert n k. induction fuel as [|f IH]; intros n k Hn Hk; simpl; [lia|].
  destruct (Z.eqb_spec (n / 10) 0) as [E|E]; [simpl; lia|].
  rewrite show_aux_app, length_app. simpl length.
  destruct k as [|k]; [lia|]. rewrite Nat2Z.inj_succ, Z.pow_succ_r in Hn by lia.
  assert (0 <= n / 10 < 10 ^ Z.of_nat k).
  { split; [apply Z.div_pos; lia|]. apply Z.div_lt_upper_bound; lia. }
  destruct k as [|k]; [change (10 ^ Z.of_nat 0) with 1 in *; lia|].
  pose proof (IH (n / 10) (S k) ltac:(lia) ltac:(lia)). lia.
Qed.

(** A number below [10^k] has at most [k] digits. *)
Lemma show_length n k : 0 <= n < 10 ^ Z.of_nat k → (0 < k)%nat → (length (show n) <= k)%nat.
Proof. intros. by apply show_aux_length. Qed.

End Dec.

(** ** [i64] *)

Module Int64.

Definition i64_min : Z := - 2 ^ 63.
Definition i64_max : Z := 2 ^ 63 - 1.
Definition in_i64 (z : Z) : bool := (i64_min <=? z) && (z <=? i64_max).

(** [i64::checked_add]. *)
Definition checked_add (a b : Z) : option Z := if in_i64 (a + b) then Some (a + b) else None.

(** [i64::try_from] of a [u64]. *)
Definition i64_try_from (n : N) : option Z := if in_i64 (Z.of_N n) then Some (Z.of_N n) else None.

(** [str::parse::<i64>]: an optional sign, at least one digit, and a value in range. *)
Definition parse_digits (neg : bool) (l : bytes) : option Z :=
  match l with
  | [] => None
  | _ =>
    if forallb Dec.is_digit l then
      let v := if neg then - Dec.digits_val l else Dec.digits_val l in
      if in_i64 v then Some v else None
    else None
  end.

Definition parse (l : bytes) : option Z :=
  match l with
  | [] => None
  | b :: l' =>
    if decide (b = "+"%byte) then parse_digits false l'
    else if decide (b = "-"%byte) then parse_digits true l'
    else parse_digits false l
  end.

(** [format!("{i}")]. *)
Definition to_string (i : Z) : bytes :=
  if i <? 0 then "-"%byte :: Dec.show (- i) else Dec.show i.

Lemma in_i64_spec z : in_i64 z = true ↔ i64_min <= z <= i64_max.
Proof. unfold in_i64. rewrite andb_true_iff, !Z.leb_le. done. Qed.

Lemma forallb_Forall' {A} (f : A → bool) l : forallb f l = true ↔ Forall (λ x, f x = true) l.
Proof.
  induction l as [|x l IH]; simpl; [split; [constructor|done]|].
  rewrite andb_true_iff, IH, list.Forall_cons. done.
Qed.

Lemma parse_digits_show (neg : bool) n :
  0 <= n → in_i64 (if neg then - n else n) = true →
  parse_digits neg (Dec.show n) = Some (if neg then - n else n).
Proof.
  intros Hn Hr. unfold parse_digits.
  destruct (Dec.show n) as [|b l] eqn:E; [by apply Dec.show_nonempty in E|].
  rewrite <- E.
  assert (forallb Dec.is_digit (Dec.show n) = true) as ->.
  { apply forallb_Forall'. by apply Dec.show_digits. }
  rewrite Dec.show_val by done. by rewrite Hr.
Qed.

Lemma show_head_digit n b l : 0 <= n → Dec.show n = b :: l → 48 <= byte_Z b <= 57.
Proof.
  intros Hn E. pose proof (Dec.show_digits n Hn) as H. rewrite E in H.
  apply list.Forall_cons in H as [H _]. unfold Dec.is_digit in H. lia.
Qed.

(** Printing then parsing an [i64] is the identity. *)
Lemma parse_to_string i : in_i64 i = true → parse (to_string i) = Some i.
Proof.
  intros Hi. unfold to_string. destruct (Z.ltb_spec i 0).
  - unfold parse. rewrite decide_False by done. rewrite decide_True by done.
    rewrite parse_digits_show; [f_equal; lia|lia|]. by rewrite Z.opp_involutive.
  - unfold parse. destruct (Dec.show i) as [|b l] eqn:E; [by apply Dec.show_nonempty in E|].
    pose proof (show_head_digit i b l ltac:(lia) E) as Hb.
    assert (byte_Z b ≠ byte_Z "+"%byte ∧ byte_Z b ≠ byte_Z "-"%byte) as [? ?].
    { change (byte_Z "+"%byte) with 43. change (byte_Z "-"%byte) with 45. lia. }
    rewrite !decide_False by congruence.
    rewrite <- E. by rewrite parse_digits_show by (done || lia).
Qed.

Lemma parse_range l i : parse l = Some i → in_i64 i = true.
Proof.
  assert (∀ neg m, parse_digits neg m = Some i → in_i64 i = true) as Hd.
  { intros neg m. unfold parse_digits. intros. by repeat case_match; simplify_eq. }
  unfold parse. intros. repeat case_match; simplify_eq; eauto.
Qed.

Lemma to_string_length i : in_i64 i = true → (length (to_string i) <= 20)%nat.
Proof.
  intros Hi%in_i64_spec. unfold i64_min, i64_max in Hi.
  unfold to_string. destruct (Z.ltb_spec i 0).
  - simpl. pose proof (Dec.show_length (- i) 19). change (10 ^ Z.of_nat 19) with 10000000000000000000 in *. lia.
  - pose proof (Dec.show_length i 19). change (10 ^ Z.of_nat 19) with 10000000000000000000 in *. lia.
Qed.

(** Digits and signs are ASCII and not white space. *)
Lemma digit_graphic b :
  Dec.is_digit b = true → byte_Z b < 128 ∧ Utf8.is_whitespace (byte_Z b) = false.
Proof.
  unfold Dec.is_digit. intros H. split; [lia|].
  unfold Utf8.is_whitespace. repeat (rewrite orb_false_iff || rewrite andb_false_iff || split); lia.
Qed.

Lemma digits_graphic l : Forall (λ b, Dec.is_digit b = true) l → Utf8.graphic l.
Proof. intros H. eapply list.Forall_impl; [exact H|]. intros b. apply digit_graphic. Qed.

Lemma to_string_graphic i : Utf8.graphic (to_string i).
Proof.
  unfold to_string. destruct (Z.ltb_spec i 0).
  - constructor; [done|]. apply digits_graphic, Dec.show_digits. lia.
  - apply digits_graphic, Dec.show_digits. lia.
Qed.

End Int64.

(** ** [f64] *)

Module Float64.

Abbreviation f64 := spec_float.

Definition prec : Z := 53.
Definition emax : Z := 1024.

#[global] Instance f64_eq_dec : EqDecision f64.
Proof. solve_decision. Defined.

Definition is_nan (f : f64) : bool := match f with S754_nan => true | _ => false end.
Definition is_infinite (f : f64) : bool := match f with S754_infinity _ => true | _ => false end.
Definition is_finite (f : f64) : bool := negb (is_nan f || is_infinite f).

(** [a + b], rounded to nearest, ties to even. *)
Definition add (a b : f64) : f64 := SFadd prec emax a b.

(** [z as f64] for an integer. *)
Definition of_int (z : Z) : f64 := binary_normalize prec emax z 0 false.

(** The binary64 nearest to [±m * 10^e]: the correctly rounded decimal conversion. *)
Definition of_decimal (neg : bool) (m e : Z) : f64 :=
  if m =? 0 then S754_zero neg
  else if 0 <=? e then
    binary_normalize prec emax (if neg then - (m * 10 ^ e) else m * 10 ^ e) 0 neg
  else
    let '(q, e', loc) := SFdiv_core_binary prec emax m 0 (10 ^ (- e)) 0 in
    binary_round_aux prec emax neg q e' loc.

(** *** [str::parse::<f64>] *)

Fixpoint take_digits (l : bytes) : bytes * bytes :=
  match l with
  | [] => ([], [])
  | b :: l' => if Dec.is_digit b then let '(d, r) := take_digits l' in (b :: d, r) else ([], l)
  end.

Definition parse_sign (l : bytes) : bool * bytes :=
  match l with
  | b :: l' => if decide (b = "-"%byte) then (true, l')
               else if decide (b = "+"%byte) then (false, l') else (false, l)
  | [] => (false, l)
  end.

(** The optional exponent part; it must use the rest of the text. *)
Definition parse_exp (l : bytes) : option Z :=
  match l with
  | [] => Some 0
  | b :: l' =>
    if bool_decide (b = "e"%byte) || bool_decide (b = "E"%byte) then
      let '(neg, r) := parse_sign l' in
      let '(d, r') := take_digits r in
      match d, r' with
      | _ :: _, [] => Some (if neg then - Dec.digits_val d else Dec.digits_val d)
      | _, _ => None
      end
    else None
  end.

(** [Digit+ | Digit+ '.' Digit* | Digit* '.' Digit+] and an exponent, as [mantissa * 10^e]. *)
Definition parse_number (l : bytes) : option (Z * Z) :=
  let '(ip, r) := take_digits l in
  let '(fp, r') := match r with
                   | b :: r1 => if decide (b = "."%byte) then take_digits r1 else ([], r)
                   | [] => ([], r)
                   end in
  match ip ++ fp with
  | [] => None
  | _ => (λ e, (Dec.digits_val (ip ++ fp), e - Z.of_nat (length fp))) <$> parse_exp r'
  end.

Definition parse (l : bytes) : option f64 :=
  let '(neg, r) := parse_sign l in
  match parse_number r with
  | Some (m, e) => Some (of_decimal neg m e)
  | None =>
    let low := to_ascii_lowercase r in
    if bool_decide (low = bs "inf") || bool_decide (low = bs "infinity") then Some (S754_infinity neg)
    else if decide (low = bs "nan") then Some S754_nan
    else None
  end.

(** *** [Display for f64]: the shortest digits that read back as the same number *)

(** [D * 10^x] in positional notation, without exponent. *)
Definition render (D x : Z) : bytes :=
  let ds := Dec.show D in
  if 0 <=? x then ds ++ replicate (Z.to_nat x) (Dec.digit 0)
  else let n := Z.to_nat (- x) in
       let L := length ds in
       if (n <? L)%nat then take (L - n) ds ++ "."%byte :: drop (L - n) ds
       else Dec.digit 0 :: "."%byte :: replicate (n - L) (Dec.digit 0) ++ ds.

(** The positive rational [m * 2^e * 10^j] as a fraction. *)
Definition scaled (m : positive) (e j : Z) : Z * Z :=
  (Z.pos m * 2 ^ Z.max e 0 * 10 ^ Z.max j 0, 2 ^ Z.max (- e) 0 * 10 ^ Z.max (- j) 0).

(** The number [k] of digits before the decimal point of [m * 2^e]: [10^(k-1) <= m*2^e < 10^k]. *)
Fixpoint leading_zeros (fuel : nat) (m : positive) (e j : Z) : Z :=
  match fuel with
  | O => j
  | S f => let '(n, d) := scaled m e j in
           if d <=? n then j else leading_zeros f m e (j + 1)
  end.

Definition point_position (m : positive) (e : Z) : Z :=
  let '(n, d) := scaled m e 0 in
  if d <=? n then Z.of_nat (length (Dec.show (n / d)))
  else 1 - leading_zeros 400 m e 1.

(** The [n]-digit candidates below and above the value; the one kept reads back as [f], and
    is the closer one when both do (the upper one on a tie). *)
Definition candidate (neg : bool) (m : positive) (e : Z) (n : Z) : option (Z * Z) :=
  let k := point_position m e in
  let '(num, den) := scaled m e (n - k) in
  let lo := num / den in
  let r := num mod den in
  let ok D := bool_decide (of_decimal neg D (k - n) = S754_finite neg m e) in
  match ok lo, ok (lo + 1) with
  | true, true => Some (if den <=? 2 * r then lo + 1 else lo, k - n)
  | true, false => Some (lo, k - n)
  | false, true => Some (lo + 1, k - n)
  | false, false => None
  end.

Fixpoint shortest_from (fuel : nat) (n : Z) (neg : bool) (m : positive) (e : Z) : option (Z * Z) :=
  match fuel with
  | O => None
  | S f => match candidate neg m e n with
           | Some r => Some r
           | None => shortest_from f (n + 1) neg m e
           end
  end.

(** Seventeen significant digits always identify a binary64. *)
Definition shortest (neg : bool) (m : positive) (e : Z) : option (Z * Z) :=
  shortest_from 17 1 neg m e.

(** [format!("{f}")]. *)
Definition to_string (f : f64) : bytes :=
  match f with
  | S754_nan => bs "NaN"
  | S754_infinity s => (if s then bs "-" else []) ++ bs "inf"
  | S754_zero s => (if s then bs "-" else []) ++ bs "0"
  | S754_finite s m e =>
    (if s then bs "-" else []) ++
    match shortest s m e with
    | Some (D, x) => render D x
    | None => let k := point_position m e in
              let '(num, den) := scaled m e (17 - k) in render (num / den) (k - 17)
    end
  end.

(** The numbers whose shortest digits are found by the search. *)
Definition printable (f : f64) : bool :=
  match f with
  | S754_nan | S754_infinity _ => false
  | S754_zero _ => true
  | S754_finite s m e => bool_decide (is_Some (shortest s m e))
  end.

(** *** Printing then parsing *)

Abbreviation all_digits l := (Forall (λ b, Dec.is_digit b = true) l).

Lemma take_digits_app d r :
  all_digits d → (∀ b, head r = Some b → Dec.is_digit b = false) →
  take_digits (d ++ r) = (d, r).
Proof.
  intros Hd Hr. induction Hd as [|b d Hb _ IH]; simpl.
  - destruct r as [|b r]; [done|]. simpl. by rewrite Hr.
  - by rewrite Hb, IH.
Qed.

Lemma zeros_digits n : all_digits (replicate n (Dec.digit 0)).
Proof. apply Forall_replicate. done. Qed.

Lemma of_decimal_shift neg D x : 0 <= x → of_decimal neg (D * 10 ^ x) 0 = of_decimal neg D x.
Proof.
  intros Hx. pose proof (Z.pow_pos_nonneg 10 x ltac:(lia) Hx). unfold of_decimal.
  destruct (Z.eqb_spec D 0) as [->|Hne]; [done|].
  rewrite (proj2 (Z.eqb_neq _ _)) by nia. rewrite (proj2 (Z.leb_le 0 x)) by done.
  simpl. by rewrite Z.mul_1_r.
Qed.

Lemma parse_number_digits ds : all_digits ds → ds ≠ [] → parse_number ds = Some (Dec.digits_val ds, 0).
Proof.
  intros Hd Hne. unfold parse_number.
  assert (take_digits ds = (ds, [])) as ->.
  { rewrite <- (app_nil_r ds) at 1. by apply take_digits_app. }
  simpl. rewrite app_nil_r. by destruct ds.
Qed.

Lemma parse_number_point ip fp :
  all_digits ip → all_digits fp → ip ≠ [] →
  parse_number (ip ++ "."%byte :: fp)
  = Some (Dec.digits_val (ip ++ fp), - Z.of_nat (length fp)).
Proof.
  intros Hi Hf Hne. unfold parse_number.
  rewrite take_digits_app; [|done|]; [|by intros ? [= <-]].
  rewrite decide_True by done.
  assert (take_digits fp = (fp, [])) as ->.
  { rewrite <- (app_nil_r fp) at 1. by apply take_digits_app. }
  by destruct ip.
Qed.

Lemma parse_number_render neg D x :
  0 <= D → ∃ m e, parse_number (render D x) = Some (m, e)
                  ∧ of_decimal neg m e = of_decimal neg D x.
Proof.
  intros HD. unfold render. pose proof (Dec.show_digits D HD) as Hds.
  pose proof (Dec.show_nonempty D) as Hne. pose proof (Dec.show_val D HD) as Hv.
  destruct (Z.leb_spec 0 x) as [Hx|Hx].
  - eexists _, _. split.
    + apply parse_number_digits; [by apply Forall_app_2, zeros_digits|].
      by destruct (Dec.show D).
    + rewrite Dec.digits_val_app, Dec.digits_val_zeros, Hv, length_replicate, Z2Nat.id by done.
      rewrite Z.add_0_r. by apply of_decimal_shift.
  - set (n := Z.to_nat (- x)). set (L := length (Dec.show D)).
    destruct (Nat.ltb_spec n L) as [Hn|Hn].
    + eexists _, _. split.
      * apply parse_number_point; [by apply Forall_take|by apply Forall_drop|].
        intros E. apply (f_equal length) in E. rewrite length_take in E. simpl in E. lia.
      * rewrite take_drop, Hv, length_drop. f_equal. lia.
    + eexists _, _. split.
      * apply (parse_number_point [Dec.digit 0] (replicate (n - L) (Dec.digit 0) ++ Dec.show D)); [|by apply Forall_app_2, Hds; apply zeros_digits|done].
        repeat constructor.
      * rewrite Dec.digits_val_app, Dec.digits_val_app, Dec.digits_val_zeros, Hv.
        change (Dec.digits_val [Dec.digit 0]) with 0.
        rewrite length_app, length_replicate. f_equal; lia.
Qed.

Lemma render_head D x : 0 <= D → ∃ b l, render D x = b :: l ∧ Dec.is_digit b = true.
Proof.
  intros HD. unfold render. pose proof (Dec.show_digits D HD) as Hds.
  destruct (Dec.show D) as [|b ds] eqn:E; [by apply Dec.show_nonempty in E|].
  apply list.Forall_cons in Hds as [Hb _].
  case_match; [by eexists _, _|]. case_match; [|by eexists _, _].
  destruct (length (b :: ds) - Z.to_nat (- x))%nat eqn:El; [|by eexists _, _].
  apply Nat.ltb_lt in H0. lia.
Qed.

Lemma parse_sign_render (neg : bool) D x :
  0 <= D → parse_sign ((if neg then bs "-" else []) ++ render D x) = (neg, render D x).
Proof.
  intros HD. destruct (render_head D x HD) as (b & l & -> & Hb). destruct neg; [done|].
  simpl. unfold parse_sign.
  rewrite !decide_False; [done| |]; intros ->; done.
Qed.

Lemma candidate_sound neg m e n D x :
  candidate neg m e n = Some (D, x) → 0 <= D ∧ of_decimal neg D x = S754_finite neg m e.
Proof.
  unfold candidate. destruct (scaled m e _) as [num den] eqn:Es. unfold scaled in Es.
  injection Es as <- <-.
  set (num := _ * _ * _). set (den := 2 ^ _ * _).
  assert (0 <= num) by (subst num; repeat apply Z.mul_nonneg_nonneg; try lia; apply Z.pow_nonneg; lia).
  assert (0 < den) by (subst den; apply Z.mul_pos_pos; apply Z.pow_pos_nonneg; lia).
  assert (0 <= num / den) by (apply Z.div_pos; lia).
  intros Hc. repeat case_match; simplify_eq; rewrite ?bool_decide_eq_true in *; (split; [lia|done]).
Qed.

Lemma shortest_sound neg m e D x :
  shortest neg m e = Some (D, x) → 0 <= D ∧ of_decimal neg D x = S754_finite neg m e.
Proof.
  unfold shortest. generalize 1 as n. generalize 17%nat as fuel.
  induction fuel as [|f IH]; intros n; [done|]. simpl. case_match; [|apply IH].
  intros [= ->]. by eapply candidate_sound.
Qed.

(** Printing then parsing gives the number back. *)
Lemma float_parse_to_string f : printable f = true → parse (to_string f) = Some f.
Proof.
  destruct f as [s|s| |s m e]; simpl; try done.
  { by destruct s. }
  rewrite bool_decide_eq_true. intros [[D x] Hs]. rewrite Hs.
  apply shortest_sound in Hs as [HD Hdec].
  unfold parse. rewrite parse_sign_render by done.
  destruct (parse_number_render s D x HD) as (m' & e' & -> & Heq).
  by rewrite Heq, Hdec.
Qed.

Lemma printable_finite f : printable f = true → is_finite f = true.
Proof. by destruct f. Qed.

(** *** The printed text is short *)

(** Significands below [2^53] and exponents up to 971: every finite binary64. *)
Definition in_f64 (f : f64) : bool :=
  match f with
  | S754_finite _ m e => (Z.pos m <? 2 ^ 53) && (e <=? 971)
  | _ => true
  end.

(** Comparing cross products: [a * y = b * x] and [x] positive order [a] against [b] as
    [x] against [y]. *)
Lemma cross_lt a b x y : 0 < x → 0 < y → a * y = b * x → x < y → a < b ∨ b <= 0.
Proof. intros. destruct (Z.lt_ge_cases a b); [by left|right; nia]. Qed.

Lemma scaled_pos m e j : 0 < (scaled m e j).1 ∧ 0 < (scaled m e j).2.
Proof.
  unfold scaled. simpl.
  split; repeat apply Z.mul_pos_pos; try lia; apply Z.pow_pos_nonneg; lia.
Qed.

Lemma scaled_add m e j i :
  0 <= i →
  (scaled m e (j + i)).1 * (scaled m e j).2 = (scaled m e j).1 * (scaled m e (j + i)).2 * 10 ^ i.
Proof.
  intros Hi. unfold scaled. simpl.
  assert (10 ^ Z.max (j + i) 0 * 10 ^ Z.max (- j) 0
          = 10 ^ Z.max j 0 * 10 ^ Z.max (- (j + i)) 0 * 10 ^ i) as H.
  { rewrite <- !Z.pow_add_r by lia. f_equal. lia. }
  nia.
Qed.

Lemma digits_val_bound l : all_digits l → 0 <= Dec.digits_val l < 10 ^ Z.of_nat (length l).
Proof.
  induction l as [|b l IH] using rev_ind; intros H; [done|].
  apply Forall_app in H as [Hl Hb]. apply list.Forall_cons in Hb as [Hb _].
  rewrite Dec.digits_val_app, length_app. simpl length.
  rewrite Nat2Z.inj_add. change (Z.of_nat 1) with 1. rewrite Z.pow_add_r, Z.pow_1_r by lia.
  pose proof (IH Hl). unfold Dec.is_digit in Hb.
  change (Dec.digits_val [b]) with (byte_Z b - 48). lia.
Qed.

Lemma leading_zeros_spec fuel m e j :
  (scaled m e (j - 1)).1 < (scaled m e (j - 1)).2 →
  j <= leading_zeros fuel m e j <= j + Z.of_nat fuel
  ∧ (scaled m e (leading_zeros fuel m e j - 1)).1 < (scaled m e (leading_zeros fuel m e j - 1)).2.
Proof.
  revert j. induction fuel as [|f IH]; intros j Hj; cbn [leading_zeros]; [split; [lia|done]|].
  destruct (scaled m e j) as [n d] eqn:Es. destruct (Z.leb_spec d n); [split; [lia|done]|].
  destruct (IH (j + 1)) as [H1 H2].
  { replace (j + 1 - 1) with j by lia. by rewrite Es. }
  split; [lia|done].
Qed.

Lemma point_position_spec m e :
  (scaled m e (- point_position m e)).1 < (scaled m e (- point_position m e)).2.
Proof.
  unfold point_position. destruct (scaled m e 0) as [n d] eqn:Es.
  destruct (Z.leb_spec d n) as [Hdn|Hdn].
  - set (k := Z.of_nat _). pose proof (scaled_pos m e 0) as [Hnp Hd]. rewrite Es in Hnp, Hd. simpl in Hnp, Hd.
    assert (0 <= n / d) as Hq by (apply Z.div_pos; lia).
    pose proof (digits_val_bound _ (Dec.show_digits _ Hq)) as Hb.
    rewrite Dec.show_val in Hb by done. fold k in Hb.
    assert (n < d * 10 ^ k) as Hn.
    { pose proof (Z.div_mod n d ltac:(lia)). pose proof (Z.mod_pos_bound n d ltac:(lia)). nia. }
    pose proof (scaled_add m e (- k) k ltac:(lia)) as Ha.
    replace (- k + k) with 0 in Ha by lia. rewrite Es in Ha. cbn [fst snd] in Ha.
    pose proof (scaled_pos m e (- k)) as [? ?].
    assert (0 < d * 10 ^ k) by lia.
    destruct (cross_lt (scaled m e (- k)).1 (scaled m e (- k)).2 n (d * 10 ^ k)) as [?|?];
      [done|done| |done|done|lia].
    rewrite Z.mul_assoc, <- Ha. ring.
  - replace (- (1 - leading_zeros 400 m e 1)) with (leading_zeros 400 m e 1 - 1) by lia.
    apply leading_zeros_spec. change (1 - 1) with 0. by rewrite Es.
Qed.

Lemma point_position_range m e :
  in_f64 (S754_finite false m e) = true → -400 <= point_position m e <= 309.
Proof.
  unfold in_f64. rewrite andb_true_iff, Z.ltb_lt, Z.leb_le. intros [Hm He].
  unfold point_position. destruct (scaled m e 0) as [n d] eqn:Es.
  destruct (Z.leb_spec d n) as [Hdn|Hdn].
  - split; [lia|]. apply (Nat2Z.inj_le _ 309), Dec.show_length; [|lia].
    pose proof (scaled_pos m e 0) as [Hp Hd]. rewrite Es in Hp, Hd. simpl in Hp, Hd.
    split; [apply Z.div_pos; lia|].
    apply Z.le_lt_trans with n; [apply Z.div_le_upper_bound; [done|]; nia|].
    unfold scaled in Es. injection Es as <- <-.
    change (10 ^ Z.max 0 0) with 1. rewrite Z.mul_1_r.
    apply Z.lt_le_trans with (2 ^ 53 * 2 ^ 971); [|by vm_compute].
    assert (2 ^ Z.max e 0 <= 2 ^ 971) by (apply Z.pow_le_mono_r; lia).
    assert (0 < 2 ^ Z.max e 0) by (apply Z.pow_pos_nonneg; lia). nia.
  - destruct (leading_zeros_spec 400 m e 1) as [H _]; [|lia].
    change (1 - 1) with 0. by rewrite Es.
Qed.

Lemma quotient_bound m e n :
  0 <= n → 0 <= (scaled m e (n - point_position m e)).1 / (scaled m e (n - point_position m e)).2
           < 10 ^ n.
Proof.
  intros Hn. set (k := point_position m e).
  pose proof (point_position_spec m e) as Hp. fold k in Hp.
  pose proof (scaled_add m e (- k) n Hn) as Ha. replace (- k + n) with (n - k) in Ha by lia.
  pose proof (scaled_pos m e (n - k)) as [? ?]. pose proof (scaled_pos m e (- k)) as [? ?].
  pose proof (Z.pow_pos_nonneg 10 n ltac:(lia) Hn).
  split; [apply Z.div_pos; lia|]. apply Z.div_lt_upper_bound; [done|]. nia.
Qed.

Lemma candidate_bound neg m e n D x :
  0 <= n → candidate neg m e n = Some (D, x) → 0 <= D <= 10 ^ n ∧ x = point_position m e - n.
Proof.
  intros Hn. unfold candidate. pose proof (quotient_bound m e n Hn) as Hq.
  destruct (scaled m e _) as [num den] eqn:Es. simpl in Hq.
  intros Hc. repeat case_match; simplify_eq; lia.
Qed.

Lemma shortest_bound neg m e D x :
  shortest neg m e = Some (D, x) →
  ∃ n, 1 <= n <= 17 ∧ 0 <= D <= 10 ^ n ∧ x = point_position m e - n.
Proof.
  unfold shortest.
  assert (∀ fuel n, 1 <= n → shortest_from fuel n neg m e = Some (D, x) →
    ∃ n', n <= n' < n + Z.of_nat fuel ∧ 0 <= D <= 10 ^ n' ∧ x = point_position m e - n') as H.
  { induction fuel as [|f IH]; intros n Hn; [done|]. simpl. case_match eqn:Ec.
    - intros [= ->]. apply candidate_bound in Ec; [|lia]. exists n. split; [lia|done].
    - intros Hs. destruct (IH (n + 1) ltac:(lia) Hs) as (n' & ? & ?). exists n'. split; [lia|done]. }
  intros Hs. destruct (H 17%nat 1 ltac:(lia) Hs) as (n & ? & ?). exists n. split; [lia|done].
Qed.

Lemma render_length D x :
  0 <= D <= 10 ^ 17 → (length (render D x) <= 18 + Z.to_nat (Z.abs x) + 2)%nat.
Proof.
  intros HD. assert (length (Dec.show D) <= 18)%nat.
  { apply Dec.show_length; [|lia]. change (10 ^ Z.of_nat 18) with (10 * 10 ^ 17). lia. }
  unfold render. destruct (Z.leb_spec 0 x).
  - rewrite length_app, length_replicate. lia.
  - case_match.
    + rewrite length_app. simpl. rewrite length_take, length_drop. lia.
    + simpl. rewrite length_app, length_replicate. lia.
Qed.

(** Every finite binary64 prints in at most 448 bytes. *)
Lemma float_to_string_length f : in_f64 f = true → (length (to_string f) <= 448)%nat.
Proof.
  intros Hf. destruct f as [s|s| |s m e]; try (destruct s; simpl; lia); [simpl; lia|].
  pose proof (point_position_range m e Hf) as Hk.
  assert (∀ l, (length l <= 447 → length ((if s then bs "-" else []) ++ l) <= 448)%nat) as Hs.
  { intros l Hl. rewrite length_app. destruct s; simpl; lia. }
  cbn [to_string]. apply Hs. destruct (shortest s m e) as [[D x]|] eqn:E.
  - apply shortest_bound in E as (n & Hn & HD & ->).
    assert (10 ^ n <= 10 ^ 17) by (apply Z.pow_le_mono_r; lia).
    pose proof (render_length D (point_position m e - n) ltac:(lia)). lia.
  - pose proof (quotient_bound m e 17 ltac:(lia)) as Hq.
    destruct (scaled m e _) as [num den]. cbn [fst snd] in Hq.
    pose proof (render_length (num / den) (point_position m e - 17) ltac:(lia)). lia.
Qed.

(** *** Every operation returns a binary64 *)

Lemma iter_pos_shr p r : 0 <= shr_m r → shr_m (SpecFloat.iter_pos shr_1 p r) = shr_m r / 2 ^ Z.pos p.
Proof.
  assert (∀ r, 0 <= shr_m r → shr_m (shr_1 r) = shr_m r / 2) as H1.
  { intros [m rr ss] Hm. cbn [shr_m] in *. rewrite <- Z.div2_div.
    by destruct m as [|[q|q|]|]. }
  assert (∀ p q m, m / 2 ^ Z.pos p / 2 ^ Z.pos q = m / 2 ^ (Z.pos p + Z.pos q)) as Hd.
  { intros p' q m. rewrite Z.div_div by (try apply Z.pow_pos_nonneg; lia).
    by rewrite <- Z.pow_add_r by lia. }
  revert r. induction p as [p IH|p IH|]; intros r Hr; simpl.
  - assert (0 <= shr_m (shr_1 r)) by (rewrite H1 by done; apply Z.div_pos; lia).
    rewrite IH; [rewrite IH by done|rewrite IH by done; apply Z.div_pos; [done|apply Z.pow_pos_nonneg; lia]].
    rewrite H1, Hd by done. change (shr_m r / 2) with (shr_m r / 2 ^ Z.pos 1).
    rewrite Z.div_div by (try apply Z.pow_pos_nonneg; lia). rewrite <- Z.pow_add_r by lia.
    f_equal. f_equal. lia.
  - rewrite IH; [rewrite IH by done|rewrite IH by done; apply Z.div_pos; [done|apply Z.pow_pos_nonneg; lia]].
    rewrite Hd. f_equal. f_equal. lia.
  - rewrite H1 by done. done.
Qed.

Lemma iter_pos_shr_neg p r : shr_m r <= 0 → shr_m (SpecFloat.iter_pos shr_1 p r) <= 0.
Proof.
  assert (∀ r, shr_m r <= 0 → shr_m (shr_1 r) <= 0) as H1.
  { intros [m rr ss] Hm. simpl in *. destruct m as [|[q|q|]|[q|q|]]; simpl; lia. }
  revert r. induction p as [p IH|p IH|]; intros r Hr; simpl; auto.
Qed.

Lemma digits2_bound p : Z.pos p < 2 ^ Z.pos (digits2_pos p).
Proof.
  induction p as [p IH|p IH|]; simpl digits2_pos; [| |done];
    rewrite Pos2Z.inj_succ, Z.pow_succ_r by lia; lia.
Qed.

Lemma shr_fexp_bound z e : shr_m (fst (shr_fexp prec emax z e loc_Exact)) < 2 ^ 53.
Proof.
  unfold shr_fexp, shr. set (s := _ - e).
  assert (Zdigits2 z - 53 <= s) as Hs by (subst s; unfold fexp, prec; lia).
  destruct (Z.le_gt_cases z 0) as [Hz|Hz].
  { apply Z.le_lt_trans with 0; [|done].
    destruct s; simpl; [done| |done]. by apply iter_pos_shr_neg. }
  destruct z as [|q|]; try lia. simpl Zdigits2 in Hs. pose proof (digits2_bound q) as Hq.
  assert (∀ k, k <= 53 → Z.pos (digits2_pos q) <= k → Z.pos q < 2 ^ 53) as Hk.
  { intros k Hk1 Hk2. eapply Z.lt_le_trans; [exact Hq|]. apply Z.pow_le_mono_r; lia. }
  destruct s as [|p|p] eqn:Es; simpl fst; cbn [shr_record_of_loc shr_m]; [apply (Hk 53); lia| |apply (Hk 53); lia].
  rewrite iter_pos_shr by (simpl; lia). cbn [shr_m].
  apply Z.div_lt_upper_bound; [apply Z.pow_pos_nonneg; lia|].
  rewrite <- Z.pow_add_r by lia. eapply Z.lt_le_trans; [exact Hq|]. apply Z.pow_le_mono_r; lia.
Qed.

Lemma in_f64_round_aux s mx ex l : in_f64 (binary_round_aux prec emax s mx ex l) = true.
Proof.
  unfold binary_round_aux. destruct (shr_fexp prec emax mx ex l) as [r e'].
  match goal with |- context [shr_fexp prec emax ?z e' loc_Exact] =>
    pose proof (shr_fexp_bound z e') as Hb; destruct (shr_fexp prec emax z e' loc_Exact) as [r' e''] end.
  simpl in Hb. destruct (shr_m r') as [|m|]; try done.
  destruct (Z.leb_spec e'' (emax - prec)) as [He|He]; [|done].
  unfold in_f64. unfold emax, prec in He. lia.
Qed.

Lemma in_f64_normalize m e s : in_f64 (binary_normalize prec emax m e s) = true.
Proof.
  destruct m as [|m|m]; [done| |]; simpl; unfold binary_round;
    destruct (shl_align _ _ _); apply in_f64_round_aux.
Qed.

Lemma in_f64_of_int z : in_f64 (of_int z) = true.
Proof. apply in_f64_normalize. Qed.

Lemma in_f64_of_decimal neg m e : in_f64 (of_decimal neg m e) = true.
Proof.
  unfold of_decimal. case_match; [done|]. case_match; [apply in_f64_normalize|].
  destruct (SFdiv_core_binary _ _ _ _ _ _) as [[q e'] loc]. apply in_f64_round_aux.
Qed.

Lemma in_f64_parse l f : parse l = Some f → in_f64 f = true.
Proof.
  unfold parse. destruct (parse_sign l) as [neg r]. destruct (parse_number r) as [[m e]|].
  - intros [= <-]. apply in_f64_of_decimal.
  - intros. by repeat case_match; simplify_eq.
Qed.

Lemma in_f64_add a b : in_f64 a = true → in_f64 b = true → in_f64 (add a b) = true.
Proof.
  intros Ha Hb. destruct a as [s|s| |s m e], b as [s'|s'| |s' m' e']; unfold add, SFadd; try done;
    try (by destruct s, s'). apply in_f64_normalize.
Qed.

Lemma float_to_string_graphic f : Utf8.graphic (to_string f).
Proof.
  assert (∀ (s : bool) l, Utf8.graphic l → Utf8.graphic ((if s then bs "-" else []) ++ l)) as Hs.
  { intros s l Hl. apply Forall_app_2; [|done]. destruct s; [by apply (bool_decide_unpack _)|constructor]. }
  assert (∀ D x, 0 <= D → Utf8.graphic (render D x)) as Hr.
  { intros D x HD. pose proof (Int64.digits_graphic _ (Dec.show_digits D HD)) as Hd.
    assert (∀ n, Utf8.graphic (replicate n (Dec.digit 0))) as Hz.
    { intros n. apply Int64.digits_graphic, zeros_digits. }
    assert (byte_Z "."%byte < 128 ∧ Utf8.is_whitespace (byte_Z "."%byte) = false) as Hp by done.
    unfold render. case_match; [apply Forall_app_2; [done|apply Hz]|]. case_match.
    - apply Forall_app_2; [by apply Forall_take|]. constructor; [done|by apply Forall_drop].
    - constructor; [done|]. constructor; [done|]. apply Forall_app_2; [apply Hz|done]. }
  destruct f as [s|s| |s m e]; cbn [to_string];
    [apply Hs; by apply (bool_decide_unpack _)|apply Hs; by apply (bool_decide_unpack _)
    |by apply (bool_decide_unpack _)|].
  apply Hs. destruct (shortest s m e) as [[D x]|] eqn:E.
  - apply shortest_sound in E as [HD _]. by apply Hr.
  - pose proof (quotient_bound m e 17 ltac:(lia)) as Hq.
    destruct (scaled m e _) as [num den]. cbn [fst snd] in Hq. apply Hr. lia.
Qed.

End Float64.
