(* ===== verification/TimeLib.v ===== *)
(** * The [time] crate, as an interface

    [time::OffsetDateTime] and the operations the program calls on it. The crate is not part of
    the repository, so it is a class: [TimeOps] has the operations, [TimeLaws] the documented
    behaviour the program relies on. [nano_time] is one instance, used to evaluate examples. *)

From S2P Require Import Prelude RustStd.

Ltac Zify.zify_post_hook ::= Z.to_euclidean_division_equations.

Definition NANOS : Z := 1000000000.

Class TimeOps : Type := {
  OffsetDateTime : Type;
  (** [unix_timestamp_nanos] *)
  unix_timestamp_nanos : OffsetDateTime → Z;
  (** [unix_timestamp] *)
  unix_timestamp : OffsetDateTime → Z;
  (** [from_unix_timestamp]: fails outside the supported range of dates; the error is its
      [Display] text *)
  from_unix_timestamp : Z → result OffsetDateTime bytes;
  (** [t.checked_add(Duration::seconds(s))] *)
  checked_add_seconds : OffsetDateTime → Z → option OffsetDateTime;
}.

Class TimeLaws (T : TimeOps) : Prop := {
  (** Whole seconds, rounded towards minus infinity. *)
  unix_timestamp_floor t : unix_timestamp t = unix_timestamp_nanos t / NANOS;
  (** The timestamp is an [i64]. *)
  unix_timestamp_i64 t : Int64.in_i64 (unix_timestamp t) = true;
  from_unix_timestamp_nanos ts t :
    from_unix_timestamp ts = Ok t → unix_timestamp_nanos t = ts * NANOS;
  (** The second an existing instant falls in is itself in range. *)
  from_unix_timestamp_total t : ∃ t', from_unix_timestamp (unix_timestamp t) = Ok t';
  checked_add_nanos t s t' :
    checked_add_seconds t s = Some t' →
    unix_timestamp_nanos t' = unix_timestamp_nanos t + s * NANOS;
}.

(** [a <= b] on instants ([PartialOrd for OffsetDateTime]). *)
Definition odt_leb {T : TimeOps} (a b : OffsetDateTime) : bool :=
  unix_timestamp_nanos a <=? unix_timestamp_nanos b.

Section Facts.
Context {T : TimeOps} {TL : TimeLaws T}.

Lemma unix_timestamp_from ts t : from_unix_timestamp ts = Ok t → unix_timestamp t = ts.
Proof.
  intros H%from_unix_timestamp_nanos. rewrite unix_timestamp_floor, H.
  by rewrite Z.div_mul.
Qed.

(** An instant on a whole second is at or before [now] exactly when its timestamp is at or
    before the timestamp of [now]. *)
Lemma whole_second_leb ts t now :
  from_unix_timestamp ts = Ok t → odt_leb t now = (ts <=? unix_timestamp now).
Proof.
  intros H%from_unix_timestamp_nanos. unfold odt_leb. rewrite H, unix_timestamp_floor.
  apply eq_true_iff_eq. rewrite !Z.leb_le. unfold NANOS. lia.
Qed.

End Facts.

(** Nanoseconds since the epoch as an [i128]-like integer, for the years -9999 to 9999. *)
Definition min_timestamp : Z := -377705116800.
Definition max_timestamp : Z := 253402300799.

Definition nano_ok (n : Z) : bool := (min_timestamp * NANOS <=? n) && (n <? (max_timestamp + 1) * NANOS).

Record nano_instant : Type := { nanos : Z; nanos_ok : Is_true (nano_ok nanos) }.

Definition nano_make (n : Z) : option nano_instant :=
  match decide (Is_true (nano_ok n)) with
  | left H => Some {| nanos := n; nanos_ok := H |}
  | right _ => None
  end.

#[global] Instance nano_time : TimeOps := {
  OffsetDateTime := nano_instant;
  unix_timestamp_nanos := nanos;
  unix_timestamp t := nanos t / NANOS;
  from_unix_timestamp ts := ok_or (bs "timestamp out of range") (nano_make (ts * NANOS));
  checked_add_seconds t s := nano_make (nanos t + s * NANOS);
}.

Lemma nano_make_Some n t : nano_make n = Some t → nanos t = n.
Proof. unfold nano_make. case_match; [by intros [= <-]|done]. Qed.

Lemma nano_ok_spec n :
  Is_true (nano_ok n) ↔ min_timestamp * NANOS <= n < (max_timestamp + 1) * NANOS.
Proof. unfold nano_ok. rewrite Is_true_true, andb_true_iff. lia. Qed.

#[global] Instance nano_time_laws : TimeLaws nano_time.
Proof.
  split; simpl.
  - done.
  - intros [n Hn]. pose proof (proj1 (nano_ok_spec n) Hn) as Hr. simpl. apply Int64.in_i64_spec.
    unfold min_timestamp, max_timestamp, NANOS, Int64.i64_min, Int64.i64_max in *. lia.
  - intros ts t. destruct (nano_make (ts * NANOS)) as [t'|] eqn:E; simpl; [|done].
    intros [= <-]. by apply nano_make_Some.
  - intros [n Hn]. simpl. unfold nano_make. case_decide as Hd; [by eexists|]. exfalso. apply Hd.
    apply nano_ok_spec. pose proof (proj1 (nano_ok_spec n) Hn).
    unfold min_timestamp, max_timestamp, NANOS in *. lia.
  - intros t s t'. apply nano_make_Some.
Qed.

(** Instants for examples. *)
Definition at_nanos (n : Z) : @OffsetDateTime nano_time :=
  default {| nanos := 0; nanos_ok := I |} (nano_make n).
