(* ===== verification/Domain.v ===== *)
(** * [keydock-domain]: identifiers, values, permissions, policies and counters

    One module per source file of [crates/keydock-domain/src]. Byte buffers ([Bytes], [Vec<u8>],
    [String]) are lists of bytes; [f64] and [i64] come from [RustStd]. *)

From Stdlib Require Import Strings.Byte SpecFloat.
From S2P Require Import Prelude RustStd TimeLib.

(** ** [error.rs] *)

Inductive DomainError : Type :=
| InvalidBucketId (msg : bytes)
| KeyTooLong (max got : N)
| ValueTooLong (max got : N)
| InvalidTtl (msg : bytes)
| InvalidCounterOp (msg : bytes).

#[global] Instance DomainError_eq_dec : EqDecision DomainError.
Proof. solve_decision. Defined.

(** [Display for DomainError] (the [#[error]] attributes). *)
Definition domain_error_display (e : DomainError) : bytes :=
  let show n := Dec.show (Z.of_N n) in
  match e with
  | InvalidBucketId m => bs "bucket id is invalid: " ++ m
  | KeyTooLong mx got =>
    bs "key exceeds maximum length of " ++ show mx ++ bs " bytes (got " ++ show got ++ bs ")"
  | ValueTooLong mx got =>
    bs "value exceeds maximum length of " ++ show mx ++ bs " bytes (got " ++ show got ++ bs ")"
  | InvalidTtl m => bs "TTL is invalid: " ++ m
  | InvalidCounterOp m => bs "counter operation invalid: " ++ m
  end.

(** [data.len()]. *)
Definition len (l : bytes) : N := N.of_nat (length l).

(** ** [bucket.rs] *)

Module Bucket.

Record BucketId : Type := mkBucketId { as_str : bytes }.

#[global] Instance BucketId_eq_dec : EqDecision BucketId.
Proof. solve_decision. Defined.

Definition new (raw : bytes) : result BucketId DomainError :=
  if bool_decide (raw = []) then Err (InvalidBucketId (bs "empty")) else Ok (mkBucketId raw).

End Bucket.
Export Bucket (BucketId, mkBucketId, as_str).

(** ** [key.rs] and [serde_bytes.rs] *)

Module Key.

Definition MAX_KEY_BYTES : N := 128.

Record Key : Type := mkKey { as_bytes : bytes }.

#[global] Instance Key_eq_dec : EqDecision Key.
Proof. solve_decision. Defined.

Definition from_bytes (data : bytes) : result Key DomainError :=
  if (MAX_KEY_BYTES <? len data)%N
  then Err (KeyTooLong MAX_KEY_BYTES (len data))
  else Ok (mkKey data).

(** [serde_bytes::deserialize_key], on the outcome of deserializing a [Vec<u8>]. *)
Definition deserialize_key {E : Type} (custom : bytes → E) (r : result bytes E) : result bytes E :=
  let? v := r in
  if (MAX_KEY_BYTES <? len v)%N then Err (custom (bs "key bytes exceed MAX_KEY_BYTES")) else Ok v.

Definition key_ok (k : Key) : Prop := (len (as_bytes k) <= MAX_KEY_BYTES)%N.

Lemma from_bytes_ok data k : from_bytes data = Ok k ↔ k = mkKey data ∧ key_ok k.
Proof.
  unfold from_bytes, key_ok. destruct (N.ltb_spec MAX_KEY_BYTES (len data)).
  - split; [done|]. intros [-> Hk]. simpl in Hk. lia.
  - split; [by intros [= <-]|by intros [-> _]].
Qed.

End Key.
Export Key (Key, mkKey, as_bytes).

(** ** [value.rs] *)

Module Value.

Definition MAX_VALUE_BYTES : N := 16 * 1024.

Inductive ValueKind : Type := Raw | Utf8 | Int64 | Float64 | Json.

#[global] Instance ValueKind_eq_dec : EqDecision ValueKind.
Proof. solve_decision. Defined.

Record StoredValue : Type := mkStored { payload : bytes; kind : ValueKind }.

#[global] Instance StoredValue_eq_dec : EqDecision StoredValue.
Proof. solve_decision. Defined.

Definition new (p : bytes) (k : ValueKind) : result StoredValue DomainError :=
  if (MAX_VALUE_BYTES <? len p)%N
  then Err (ValueTooLong MAX_VALUE_BYTES (len p))
  else Ok (mkStored p k).

(** [serde_bytes::deserialize_value]. *)
Definition deserialize_value {E : Type} (custom : bytes → E) (r : result bytes E) : result bytes E :=
  let? v := r in
  if (MAX_VALUE_BYTES <? len v)%N
  then Err (custom (bs "value bytes exceed MAX_VALUE_BYTES")) else Ok v.

Definition value_ok (v : StoredValue) : Prop := (len (payload v) <= MAX_VALUE_BYTES)%N.

Lemma new_ok p k v : new p k = Ok v ↔ v = mkStored p k ∧ value_ok v.
Proof.
  unfold new, value_ok. destruct (N.ltb_spec MAX_VALUE_BYTES (len p)).
  - split; [done|]. intros [-> Hk]. simpl in Hk. lia.
  - split; [by intros [= <-]|by intros [-> _]].
Qed.

Lemma new_value_ok v : value_ok v → new (payload v) (kind v) = Ok v.
Proof. intros H. apply new_ok. by destruct v. Qed.

End Value.
Export Value (ValueKind, StoredValue, mkStored, payload, kind).

(** ** [permission.rs] *)

Module Permission.

Record Permission : Type := new { read : bool; write : bool; enumerate : bool; delete : bool }.

#[global] Instance Permission_eq_dec : EqDecision Permission.
Proof. solve_decision. Defined.

Definition NONE : Permission := new false false false false.
Definition READ_ONLY : Permission := new true false false false.
Definition READ_ENUMERATE : Permission := new true false true false.
Definition WRITE_ONLY : Permission := new false true false false.
Definition ADMIN : Permission := new true true true true.

Definition anonymous_from_keys (has_secret has_read has_write : bool) : Permission :=
  new (negb has_read) (negb has_write) (negb has_read)
      (negb has_secret && negb has_read && negb has_write).

Definition union (p q : Permission) : Permission :=
  new (read p || read q) (write p || write q) (enumerate p || enumerate q)
      (delete p || delete q).

(** Capability inclusion. *)
Definition leb (p q : Permission) : bool :=
  implb (read p) (read q) && implb (write p) (write q)
  && implb (enumerate p) (enumerate q) && implb (delete p) (delete q).

Lemma leb_union p q r : leb (union p q) r = leb p r && leb q r.
Proof. by destruct p as [[] [] [] []], q as [[] [] [] []], r as [[] [] [] []]. Qed.

End Permission.
Export Permission (Permission).

(** ** [policy.rs] and [token.rs] *)

Module Policy.

(** [SigningKey = SecretBox<Vec<u8>>]. *)
Record SigningKey : Type := mkSigningKey { expose_secret : bytes }.

#[global] Instance SigningKey_eq_dec : EqDecision SigningKey.
Proof. solve_decision. Defined.

Record BucketPolicy : Type := mkPolicy {
  default_ttl_secs : option N;
  anonymous_access : Permission;
  secret_key_hash : option bytes;
  read_key_hash : option bytes;
  write_key_hash : option bytes;
  signing_key : option SigningKey;
  signing_key_generation : N;
}.

#[global] Instance BucketPolicy_eq_dec : EqDecision BucketPolicy.
Proof. solve_decision. Defined.

(** [impl Clone for BucketPolicy]: the signing key is copied byte by byte. *)
Definition clone (p : BucketPolicy) : BucketPolicy := {|
  default_ttl_secs := default_ttl_secs p;
  anonymous_access := anonymous_access p;
  secret_key_hash := secret_key_hash p;
  read_key_hash := read_key_hash p;
  write_key_hash := write_key_hash p;
  signing_key := (λ k, mkSigningKey (expose_secret k)) <$> signing_key p;
  signing_key_generation := signing_key_generation p;
|}.

Lemma clone_eq p : clone p = p.
Proof. by destruct p as [? ? ? ? ? [[?]|] ?]. Qed.

End Policy.
Export Policy (SigningKey, mkSigningKey, expose_secret, BucketPolicy, mkPolicy, default_ttl_secs,
  anonymous_access, secret_key_hash, read_key_hash, write_key_hash, signing_key,
  signing_key_generation).

Module Token.

(** [u8] version, [u64] generation. *)
Record TemporaryTokenClaims {T : TimeOps} : Type := mkClaims {
  version : N;
  bucket : BucketId;
  bucket_generation : N;
  allowed_prefix : bytes;
  permissions : Permission;
  iat : OffsetDateTime;
  exp : OffsetDateTime;
}.

End Token.
Export Token (TemporaryTokenClaims, mkClaims, version, bucket, bucket_generation, allowed_prefix,
  permissions, iat, exp).
