(* ===== verification/Counter.v ===== *)
(** * [keydock-domain/src/counter.rs]: counter deltas

    [CounterOp] and [CounterValue] with parsing, application and (de)serialization, and the
    properties of each branch: sign requirement, checked integer addition, promotion to float,
    finiteness of every float result, the 16 KiB bound, and the stored round trip. *)

From Stdlib Require Import Strings.Byte SpecFloat.
From S2P Require Import Prelude RustStd Domain.

Module Counter.

Inductive CounterOp : Type :=
| OpInt (i : Z)
| OpFloat (f : Float64.f64).

Inductive CounterValue : Type :=
| ValInt (i : Z)
| ValFloat (f : Float64.f64).

#[global] Instance CounterOp_eq_dec : EqDecision CounterOp.
Proof. solve_decision. Defined.

#[global] Instance CounterValue_eq_dec : EqDecision CounterValue.
Proof. solve_decision. Defined.

Definition bad {A : Type} (msg : String.string) : result A DomainError :=
  Err (InvalidCounterOp (bs msg)).

(** [CounterOp::parse]. The first [char] of the trimmed text is its first byte when that byte
    is ASCII, and a non-ASCII first [char] is neither sign. *)
Definition parse (body : bytes) : result CounterOp DomainError :=
  if negb (Utf8.from_utf8 body) then bad "body is not valid utf-8"
  else
    let t := Utf8.trim body in
    match t with
    | [] => bad "empty body"
    | first :: _ =>
      if negb (bool_decide (first = "+"%byte)) && negb (bool_decide (first = "-"%byte))
      then bad "missing +/- prefix"
      else match Int64.parse t with
      | Some i => Ok (OpInt i)
      | None =>
        match Float64.parse t with
        | Some f =>
          if Float64.is_nan f || Float64.is_infinite f then bad "invalid float"
          else Ok (OpFloat f)
        | None => bad "invalid number"
        end
      end
    end.

Definition float_result (nf : Float64.f64) : result CounterValue DomainError :=
  if Float64.is_nan nf || Float64.is_infinite nf then bad "invalid result"
  else Ok (ValFloat nf).

(** [CounterOp::apply]. *)
Definition apply (op : CounterOp) (current : CounterValue) : result CounterValue DomainError :=
  match op, current with
  | OpInt delta, ValInt v =>
    match Int64.checked_add v delta with
    | Some r => Ok (ValInt r)
    | None => bad "integer overflow"
    end
  | OpInt delta, ValFloat v => float_result (Float64.add v (Float64.of_int delta))
  | OpFloat delta, ValInt v => float_result (Float64.add (Float64.of_int v) delta)
  | OpFloat delta, ValFloat v => float_result (Float64.add v delta)
  end.

(** [CounterValue::from_stored]. *)
Definition from_stored (value : StoredValue) : result CounterValue DomainError :=
  match kind value with
  | Value.Int64 =>
    if negb (Utf8.from_utf8 (payload value)) then bad "stored int is not valid utf-8"
    else match Int64.parse (Utf8.trim (payload value)) with
         | Some i => Ok (ValInt i)
         | None => bad "stored int is not parseable"
         end
  | Value.Float64 =>
    if negb (Utf8.from_utf8 (payload value)) then bad "stored float is not valid utf-8"
    else match Float64.parse (Utf8.trim (payload value)) with
         | Some f =>
           if Float64.is_nan f || Float64.is_infinite f then bad "stored float is not finite"
           else Ok (ValFloat f)
         | None => bad "stored float is not parseable"
         end
  | _ => bad "value is not numeric"
  end.

(** [CounterValue::into_stored]. *)
Definition into_stored (v : CounterValue) : result StoredValue DomainError :=
  match v with
  | ValInt i => Value.new (Int64.to_string i) Value.Int64
  | ValFloat f => Value.new (Float64.to_string f) Value.Float64
  end.

(** A counter value as the Rust type holds it ([i64], or a binary64) and, for floats, finite:
    the values [from_stored] and [apply] produce. *)
Definition value_wf (v : CounterValue) : Prop :=
  match v with
  | ValInt i => Int64.in_i64 i = true
  | ValFloat f => Float64.in_f64 f = true ∧ Float64.is_finite f = true
  end.

Definition op_wf (op : CounterOp) : Prop :=
  match op with
  | OpInt i => Int64.in_i64 i = true
  | OpFloat f => Float64.in_f64 f = true ∧ Float64.is_finite f = true
  end.

Definition stored_kind (v : CounterValue) : ValueKind :=
  match v with ValInt _ => Value.Int64 | ValFloat _ => Value.Float64 end.

(** The text a counter value is stored as. *)
Definition text (v : CounterValue) : bytes :=
  match v with ValInt i => Int64.to_string i | ValFloat f => Float64.to_string f end.

(** The counter values whose text reads back (all integers; floats whose shortest digits exist). *)
Definition printable (v : CounterValue) : bool :=
  match v with ValInt _ => true | ValFloat f => Float64.printable f end.

Lemma finite_test f :
  Float64.is_nan f || Float64.is_infinite f = false ↔ Float64.is_finite f = true.
Proof. unfold Float64.is_finite. by destruct (_ || _). Qed.

Lemma text_graphic v : Utf8.graphic (text v).
Proof. destruct v; [apply Int64.to_string_graphic|apply Float64.float_to_string_graphic]. Qed.

Lemma graphic_from_utf8 l : Utf8.graphic l → Utf8.from_utf8 l = true.
Proof.
  intros H. apply bool_decide_eq_true. rewrite Utf8.decode_ascii by by apply Utf8.graphic_ascii.
  done.
Qed.

Lemma text_length v : value_wf v → (len (text v) <= 448)%N.
Proof.
  unfold len. destruct v as [i|f]; simpl.
  - intros H%Int64.to_string_length. lia.
  - intros [H%Float64.float_to_string_length _]. lia.
Qed.

Lemma into_stored_eq v :
  value_wf v → into_stored v = Ok (mkStored (text v) (stored_kind v)).
Proof.
  intros H. pose proof (text_length v H) as Hl.
  destruct v; simpl; apply Value.new_ok; (split; [done|]); unfold Value.value_ok, Value.MAX_VALUE_BYTES; simpl in *; lia.
Qed.

Lemma float_result_wf f v :
  Float64.in_f64 f = true → float_result f = Ok v → value_wf v.
Proof.
  unfold float_result. intros Hf. destruct (_ || _) eqn:E; [done|].
  intros [= <-]. split; [done|by apply finite_test].
Qed.

Lemma parse_wf body op : parse body = Ok op → op_wf op.
Proof.
  unfold parse. intros H. repeat case_match; simplify_eq; simpl.
  - by eapply Int64.parse_range.
  - split; [by eapply Float64.in_f64_parse|by apply finite_test].
Qed.

Lemma from_stored_wf sv v : from_stored sv = Ok v → value_wf v.
Proof.
  unfold from_stored. intros H. repeat case_match; simplify_eq; simpl.
  - by eapply Int64.parse_range.
  - split; [by eapply Float64.in_f64_parse|by apply finite_test].
Qed.

Lemma apply_wf op cur v : op_wf op → value_wf cur → apply op cur = Ok v → value_wf v.
Proof.
  destruct op as [d|d], cur as [c|c]; simpl; intros Ho Hc H.
  - unfold Int64.checked_add in H. repeat case_match; simplify_eq. done.
  - destruct Hc. eapply float_result_wf; [|exact H]. apply Float64.in_f64_add; [done|].
    apply Float64.in_f64_of_int.
  - destruct Ho. eapply float_result_wf; [|exact H]. apply Float64.in_f64_add; [|done].
    apply Float64.in_f64_of_int.
  - destruct Ho, Hc. eapply float_result_wf; [|exact H]. by apply Float64.in_f64_add.
Qed.

Lemma from_stored_text v :
  value_wf v → printable v = true → from_stored (mkStored (text v) (stored_kind v)) = Ok v.
Proof.
  intros Hw Hp. pose proof (text_graphic v) as Hg.
  unfold from_stored. destruct v as [i|f]; cbn [text stored_kind kind payload] in *;
    rewrite graphic_from_utf8, Utf8.trim_graphic by done; simpl.
  - by rewrite Int64.parse_to_string.
  - rewrite Float64.float_parse_to_string by done. destruct Hw as [_ Hf%finite_test]. by rewrite Hf.
Qed.

(** *** Runs of integer increments *)

(** Applying deltas one after the other, stopping at the first error. *)
Fixpoint apply_all (ops : list CounterOp) (cur : CounterValue) : result CounterValue DomainError :=
  match ops with
  | [] => Ok cur
  | op :: ops' => let? v := apply op cur in apply_all ops' v
  end.

(** Every partial sum of the run stays in the [i64] range. *)
Fixpoint prefix_sums_ok (v : Z) (ds : list Z) : bool :=
  match ds with
  | [] => true
  | d :: ds' => Int64.in_i64 (v + d) && prefix_sums_ok (v + d) ds'
  end.

Definition sum_Z (ds : list Z) : Z := foldr Z.add 0 ds.

(** integer deltas never wrap. A run of integer deltas applied to an integer counter ends
    with exactly the mathematical sum when every partial sum fits in [i64], and otherwise it
    fails with "integer overflow" (and nothing else). *)
Theorem integer_run_exact (ds : list Z) (v : Z) :
  apply_all (OpInt <$> ds) (ValInt v)
  = if prefix_sums_ok v ds then Ok (ValInt (v + sum_Z ds)) else bad "integer overflow".
Proof.
  revert v. induction ds as [|d ds IH]; intros v; simpl; [by rewrite Z.add_0_r|].
  unfold Int64.checked_add. destruct (Int64.in_i64 (v + d)); simpl; [|done].
  rewrite IH. by rewrite Z.add_assoc.
Qed.

(** every successful counter update can be stored. Whatever delta text and stored value it
    starts from, the result serializes without error, in at most 448 bytes (well under the
    16 KiB limit), as an integer exactly when both operands are integers and as a finite float
    otherwise. *)
Theorem counter_result_storable body sv op cur v :
  parse body = Ok op → from_stored sv = Ok cur → apply op cur = Ok v →
  ∃ sv', into_stored v = Ok sv'
         ∧ (len (payload sv') <= 448)%N ∧ Value.value_ok sv'
         ∧ kind sv' = match op, cur with
                      | OpInt _, ValInt _ => Value.Int64
                      | _, _ => Value.Float64
                      end
         ∧ value_wf v.
Proof.
  intros Hp Hf Ha. pose proof (apply_wf _ _ _ (parse_wf _ _ Hp) (from_stored_wf _ _ Hf) Ha) as Hw.
  exists (mkStored (text v) (stored_kind v)). split; [by apply into_stored_eq|].
  pose proof (text_length v Hw) as Hl.
  split; [done|]. split; [unfold Value.value_ok, Value.MAX_VALUE_BYTES; simpl; lia|].
  split; [|done]. destruct op, cur; simpl in Ha; unfold float_result in Ha;
    repeat case_match; by simplify_eq.
Qed.

Lemma counter_result_storable_witness :
  parse (bs " +1.5 ") = Ok (OpFloat (S754_finite false 6755399441055744 (-52)))
  ∧ ∃ sv', into_stored (ValFloat (S754_finite false 6473924464345088 (-49))) = Ok sv'
           ∧ kind sv' = Value.Float64.
Proof.
  split; [by vm_compute|].
  destruct (counter_result_storable (bs " +1.5 ") (mkStored (bs "10") Value.Int64)
              (OpFloat (S754_finite false 6755399441055744 (-52))) (ValInt 10)
              (ValFloat (S754_finite false 6473924464345088 (-49)))) as (sv' & H1 & _ & _ & H2 & _).
  - by vm_compute.
  - by vm_compute.
  - by vm_compute.
  - exists sv'. split; [exact H1|exact H2].
Defined.

(** reading back what a counter wrote. A counter value serializes to a stored value that
    fits, and interpreting that stored value as a counter gives the same number (integers of
    any size, and every float whose shortest decimal digits the printer finds). *)
Theorem counter_stored_roundtrip v :
  value_wf v → printable v = true →
  ∃ sv, into_stored v = Ok sv ∧ from_stored sv = Ok v.
Proof.
  intros Hw Hp. exists (mkStored (text v) (stored_kind v)).
  split; [by apply into_stored_eq|by apply from_stored_text].
Qed.

Lemma counter_stored_roundtrip_witness :
  ∃ sv, into_stored (ValFloat (S754_finite true 5404319552844596 (-54))) = Ok sv
        ∧ payload sv = bs "-0.30000000000000004"
        ∧ from_stored sv = Ok (ValFloat (S754_finite true 5404319552844596 (-54))).
Proof.
  destruct (counter_stored_roundtrip (ValFloat (S754_finite true 5404319552844596 (-54))))
    as (sv & H1 & H2).
  - by vm_compute.
  - by vm_compute.
  - exists sv. split; [exact H1|]. split; [|exact H2].
    vm_compute in H1. by injection H1 as <-.
Defined.

(** the delta grammar. A delta is accepted only when its trimmed text starts with a sign,
    and then the parsed operand is an [i64] or a finite float; conversely every signed integer
    literal in range is accepted with its exact value. *)
Theorem parse_sign_and_value :
  (∀ body op, parse body = Ok op →
     ∃ b t, Utf8.trim body = b :: t ∧ (b = "+"%byte ∨ b = "-"%byte) ∧ op_wf op)
  ∧ (∀ i, Int64.in_i64 i = true → i < 0 → parse (Int64.to_string i) = Ok (OpInt i))
  ∧ (∀ i, Int64.in_i64 i = true → 0 <= i → parse ("+"%byte :: Int64.to_string i) = Ok (OpInt i)).
Proof.
  split; [|split].
  - intros body op H. pose proof (parse_wf _ _ H) as Hw. unfold parse in H.
    destruct (negb (Utf8.from_utf8 body)); [done|].
    destruct (Utf8.trim body) as [|b t] eqn:Et; [done|].
    exists b, t. split; [done|]. split; [|done].
    destruct (decide (b = "+"%byte)); [by left|]. destruct (decide (b = "-"%byte)); [by right|].
    rewrite !bool_decide_eq_false_2 in H by done. done.
  - intros i Hi Hn. pose proof (Int64.to_string_graphic i) as Hg.
    unfold parse. rewrite graphic_from_utf8, Utf8.trim_graphic by done. simpl.
    pose proof (Int64.parse_to_string i Hi) as Hp. revert Hp.
    unfold Int64.to_string. rewrite (proj2 (Z.ltb_lt i 0)) by done. intros Hp. by rewrite Hp.
  - intros i Hi Hn. pose proof (Int64.to_string_graphic i) as Hg.
    assert (Utf8.graphic ("+"%byte :: Int64.to_string i)) as Hg' by (constructor; done).
    unfold parse. rewrite graphic_from_utf8, Utf8.trim_graphic by done. simpl.
    unfold Int64.to_string. rewrite (proj2 (Z.ltb_ge i 0)) by done.
    by rewrite Int64.parse_digits_show.
Qed.

End Counter.
