(* ===== verification/Ports.v ===== *)
(** * [keydock-usecase]: errors and ports

    The use-case error type, the data that crosses the ports, and the two persistence traits of
    [ports.rs] as classes over the state of an implementation. A method takes the state and
    returns a [Result] with the new state, or panics. [KeyRepoSpec] is the contract the use
    cases rely on; the Fjall adapter proves it. *)

From S2P Require Import Prelude RustStd TimeLib Domain Counter.

(** ** [error.rs] *)

Inductive UseCaseError : Type :=
| NotImplemented
| NotFound
| DomainErr (e : DomainError)
| Storage (msg : bytes).

#[global] Instance UseCaseError_eq_dec : EqDecision UseCaseError.
Proof. solve_decision. Defined.

Inductive AuthError : Type := InvalidCredential | InvalidKeyMaterial.

Inductive TokenError : Type :=
| InvalidFormat | InvalidSignature | Expired | BucketMismatch | GenerationMismatch
| NoSigningKey | Serialize.

#[global] Instance AuthError_eq_dec : EqDecision AuthError.
Proof. solve_decision. Defined.
#[global] Instance TokenError_eq_dec : EqDecision TokenError.
Proof. solve_decision. Defined.

(** [impl From<DomainError> for UseCaseError], applied by [?]. *)
Definition from_domain {A} (r : result A DomainError) : result A UseCaseError := map_err DomainErr r.

(** ** Data of [ports.rs] and [keys.rs] *)

Section Data.
Context {T : TimeOps}.

Record StoredEntry : Type := mkEntry { value : StoredValue; expires_at : option OffsetDateTime }.

Inductive TxnOp : Type :=
| TxnSet (key : Key) (value : StoredValue) (expires_at : option OffsetDateTime)
| TxnDelete (key : Key).

Record ListOpts : Type := mkListOpts {
  prefix : option bytes;
  limit : N;
  skip : N;
  reverse : bool;
  include_values : bool;
  expires_before : option OffsetDateTime;
}.

Record ListEntry : Type := mkListEntry { le_key : Key; le_value : option StoredValue }.

Definition txn_key (op : TxnOp) : Key := match op with TxnSet k _ _ => k | TxnDelete k => k end.

End Data.

Arguments TxnOp {T}.
Arguments ListOpts {T}.
Arguments StoredEntry {T}.

(** ** The traits *)

Class BucketRepository (S : Type) : Type := {
  ping_metadata : comp S unit UseCaseError;
  get_policy : BucketId → comp S (option BucketPolicy) UseCaseError;
  create_bucket : BucketId → BucketPolicy → comp S unit UseCaseError;
  delete_bucket : BucketId → comp S unit UseCaseError;
}.

(** [increment] also takes the instant the adapter reads from the system clock. *)
Class KeyRepository {T : TimeOps} (S : Type) : Type := {
  repo_get : BucketId → Key → comp S (option StoredEntry) UseCaseError;
  repo_set : BucketId → Key → StoredValue → option OffsetDateTime → comp S unit UseCaseError;
  repo_delete : BucketId → Key → comp S bool UseCaseError;
  repo_list : BucketId → ListOpts → comp S (list ListEntry) UseCaseError;
  repo_increment : OffsetDateTime → BucketId → Key → Counter.CounterOp → option OffsetDateTime →
                   comp S StoredValue UseCaseError;
  repo_apply_batch : BucketId → list TxnOp → comp S unit UseCaseError;
}.

(** ** The contract of a key repository

    [kr_view s b k] is the entry stored at [(b, k)]. Expiry instants are kept with a resolution
    of one second, so an entry written with expiry [e] is seen with [whole_second e]. *)

Section Contract.
Context {T : TimeOps}.

Definition whole_second (e : OffsetDateTime) : option OffsetDateTime :=
  result_ok (from_unix_timestamp (unix_timestamp e)).

(** The entry a write of [v] with expiry [e] leaves. *)
Definition written (v : StoredValue) (e : option OffsetDateTime) : StoredEntry :=
  mkEntry v (e ≫= whole_second).

(** The counter operand an entry stands for at instant [now]: absent and expired entries
    count from zero. *)
Definition counter_operand (now : OffsetDateTime) (e : option StoredEntry)
  : result Counter.CounterValue DomainError :=
  match e with
  | None => Ok (Counter.ValInt 0)
  | Some en =>
    match expires_at en with
    | Some exp => if odt_leb exp now then Ok (Counter.ValInt 0) else Counter.from_stored (value en)
    | None => Counter.from_stored (value en)
    end
  end.

(** The result of an increment, as a function of the entry found. *)
Definition incremented (now : OffsetDateTime) (e : option StoredEntry) (op : Counter.CounterOp)
  : result StoredValue DomainError :=
  let? cur := counter_operand now e in
  let? merged := Counter.apply op cur in
  Counter.into_stored merged.

(** The effect of one transaction step on the view of a bucket. *)
Definition txn_effect (k : Key) (o : option StoredEntry) (op : TxnOp) : option StoredEntry :=
  match op with
  | TxnSet k' v e => if decide (k' = k) then Some (written v e) else o
  | TxnDelete k' => if decide (k' = k) then None else o
  end.

Definition txn_result (k : Key) (o : option StoredEntry) (ops : list TxnOp) : option StoredEntry :=
  foldl (txn_effect k) o ops.

(** What a listing shows, for a bucket whose entries are [view]. *)
Definition expired_before (cutoff : option OffsetDateTime) (en : StoredEntry) : bool :=
  match cutoff, expires_at en with Some c, Some exp => odt_leb exp c | _, _ => false end.

Definition listed (view : Key → option StoredEntry) (opts : ListOpts) (k : Key) : Prop :=
  Key.key_ok k ∧ default [] (prefix opts) `prefix_of` as_bytes k
  ∧ ∃ en, view k = Some en ∧ expired_before (expires_before opts) en = false.

Definition list_row (view : Key → option StoredEntry) (opts : ListOpts) (k : Key) : ListEntry :=
  mkListEntry k (if include_values opts then value <$> view k else None).

Definition page {A} (opts : ListOpts) (l : list A) : list A :=
  take (N.to_nat (limit opts)) (drop (N.to_nat (skip opts))
    (if reverse opts then list.reverse l else l)).

Definition key_lt (k k' : Key) : Prop := bytes_lt (as_bytes k) (as_bytes k').

(** The writes of a transaction are storable. *)
Definition txn_ok (op : TxnOp) : Prop :=
  match op with TxnSet _ v _ => Value.value_ok v | TxnDelete _ => True end.

End Contract.

(** The contract of the bucket metadata: [br_policy s b] is the policy of bucket [b], if it is
    readable. *)
Class BucketRepoSpec (S : Type) {BR : BucketRepository S} : Type := {
  br_policy : S → BucketId → option BucketPolicy;
  br_storable : BucketPolicy → Prop;
  br_get s b r s' :
    get_policy b s = (Ret (Ok r), s') → r = br_policy s b ∧ ∀ b', br_policy s' b' = br_policy s b';
  br_create s b p s' :
    br_storable p → create_bucket b p s = (Ret (Ok tt), s') →
    ∀ b', br_policy s' b' = if decide (b' = b) then Some p else br_policy s b';
  br_delete s b s' :
    delete_bucket b s = (Ret (Ok tt), s') →
    ∀ b', br_policy s' b' = if decide (b' = b) then None else br_policy s b';
}.

(** [kr_inv] is the representation invariant; [kr_good] describes the states in which no
    operation can fail for reasons of its own. *)
Class KeyRepoSpec {T : TimeOps} (S : Type) {KR : KeyRepository S} : Type := {
  (** Bucket identifiers the contract covers. *)
  kr_bucket : BucketId → Prop;
  kr_view : S → BucketId → Key → option StoredEntry;
  kr_inv : S → Prop;
  kr_good : S → Prop;
  kr_good_inv s : kr_good s → kr_inv s;
  kr_get s b k r s' :
    repo_get b k s = (Ret (Ok r), s') →
    r = kr_view s b k ∧ ∀ b' k', kr_view s' b' k' = kr_view s b' k';
  kr_set s b k v e s' :
    kr_bucket b → Value.value_ok v → repo_set b k v e s = (Ret (Ok tt), s') →
    ∀ b' k', kr_bucket b' →
      kr_view s' b' k' = if decide ((b', k') = (b, k)) then Some (written v e)
                         else kr_view s b' k';
  kr_delete s b k existed s' :
    kr_bucket b → repo_delete b k s = (Ret (Ok existed), s') →
    (kr_inv s → existed = bool_decide (is_Some (kr_view s b k)))
    ∧ ∀ b' k', kr_bucket b' →
        kr_view s' b' k' = if decide ((b', k') = (b, k)) then None else kr_view s b' k';
  kr_list s b opts r s' :
    kr_bucket b → kr_inv s → repo_list b opts s = (Ret (Ok r), s') →
    (∃ ks, StronglySorted key_lt ks
       ∧ (∀ k, k ∈ ks ↔ listed (kr_view s b) opts k)
       ∧ r = page opts (list_row (kr_view s b) opts <$> ks))
    ∧ ∀ b' k', kr_view s' b' k' = kr_view s b' k';
  kr_increment s now b k op e v s' :
    kr_bucket b → repo_increment now b k op e s = (Ret (Ok v), s') →
    incremented now (kr_view s b k) op = Ok v
    ∧ ∀ b' k', kr_bucket b' →
        kr_view s' b' k' = if decide ((b', k') = (b, k)) then Some (written v e)
                           else kr_view s b' k';
  kr_apply_batch s b ops s' :
    kr_bucket b → Forall txn_ok ops → repo_apply_batch b ops s = (Ret (Ok tt), s') →
    ∀ b' k', kr_bucket b' →
      kr_view s' b' k' = if decide (b' = b) then txn_result k' (kr_view s b' k') ops
                         else kr_view s b' k';
  (** In a good state the operations answer, and leave a good state. *)
  kr_get_good s b k :
    kr_good s → ∃ s', repo_get b k s = (Ret (Ok (kr_view s b k)), s') ∧ kr_good s';
  kr_set_good s b k v e :
    kr_bucket b → kr_good s → Value.value_ok v → ∃ s', repo_set b k v e s = (Ret (Ok tt), s') ∧ kr_good s';
  kr_delete_good s b k :
    kr_bucket b → kr_good s → ∃ existed s', repo_delete b k s = (Ret (Ok existed), s') ∧ kr_good s';
  kr_increment_good s now b k op e :
    kr_bucket b → kr_good s →
    ∃ s', repo_increment now b k op e s
          = (Ret (from_domain (incremented now (kr_view s b k) op)), s') ∧ kr_good s';
  kr_apply_batch_good s b ops :
    kr_bucket b → kr_good s → Forall txn_ok ops →
    ∃ s', repo_apply_batch b ops s = (Ret (Ok tt), s') ∧ kr_good s';
}.
