(* ===== verification/Codec.v ===== *)
(** * [keydock-fjall/src/repos.rs] and [codec.rs]: storage layout and codecs

    - storage keys [bucket ':' key] and their parsing;
    - the postcard entry codec (the crate is the class [PostcardOps]);
    - the expiry-index key [ordered_i64(ts) ':' storage_key], whose byte order is the order of
      the timestamps;
    - the JSON mirror of a bucket policy (serde_json is the class [PolicyJsonOps]). *)

From Stdlib Require Import Strings.Byte.
From S2P Require Import Prelude RustStd TimeLib Domain Counter Ports.

(** ** [error.rs] of the adapter *)

Inductive FjallError (E : Type) : Type :=
| FjallBackend (e : E)
| Adapter (msg : bytes)
| Codec (msg : bytes).
Arguments FjallBackend {E} _.
Arguments Adapter {E} _.
Arguments Codec {E} _.

(** ** Storage keys *)

Module Layout.

Definition data_storage_key (b : BucketId) (k : Key) : bytes :=
  as_str b ++ ":"%byte :: as_bytes k.

Definition data_key_prefix (b : BucketId) (user_prefix : option bytes) : bytes :=
  as_str b ++ ":"%byte :: default [] user_prefix.

Definition user_key_from_storage_key (storage_key : bytes) (b : BucketId) : option Key :=
  rest ← strip_prefix (as_str b) storage_key;
  rest ← strip_prefix (bs ":") rest;
  result_ok (Key.from_bytes rest).

(** Bucket ids are UUIDs: they contain no [':'], so the separator is unambiguous. *)
Definition bucket_ok (b : BucketId) : Prop := ":"%byte ∉ as_str b.

#[global] Instance bucket_ok_dec b : Decision (bucket_ok b).
Proof. unfold bucket_ok. apply _. Defined.

Lemma app_sep_inj (c : byte) (x y u v : bytes) :
  c ∉ x → c ∉ y → x ++ c :: u = y ++ c :: v → x = y ∧ u = v.
Proof.
  intros Hx Hy H.
  assert (split_once c (x ++ c :: u) = Some (x, u)) as H1 by by apply split_once_Some.
  assert (split_once c (y ++ c :: v) = Some (y, v)) as H2 by by apply split_once_Some.
  rewrite H, H2 in H1. by injection H1.
Qed.

Lemma data_storage_key_inj b k b' k' :
  bucket_ok b → bucket_ok b' →
  data_storage_key b k = data_storage_key b' k' → b = b' ∧ k = k'.
Proof.
  intros Hb Hb' H. apply app_sep_inj in H as [H1 H2]; [|done|done].
  by destruct b, b', k, k'; simplify_eq/=.
Qed.

Lemma user_key_of_storage_key b k :
  Key.key_ok k → user_key_from_storage_key (data_storage_key b k) b = Some k.
Proof.
  intros Hk. unfold user_key_from_storage_key, data_storage_key.
  rewrite strip_prefix_app. simpl. rewrite (proj2 (Key.from_bytes_ok (as_bytes k) k)); [done|].
  by destruct k.
Qed.

Lemma user_key_inv sk b k :
  user_key_from_storage_key sk b = Some k → sk = data_storage_key b k ∧ Key.key_ok k.
Proof.
  unfold user_key_from_storage_key.
  destruct (strip_prefix (as_str b) sk) as [r|] eqn:E1; [|done]. simpl.
  destruct r as [|c r]; [done|]. simpl. case_decide as Hc; [|done]. simpl. subst c.
  apply strip_prefix_Some in E1 as ->.
  destruct (Key.from_bytes r) as [k'|] eqn:E2; simpl; [|done].
  intros [= ->]. apply Key.from_bytes_ok in E2 as [-> Hk]. done.
Qed.

(** A storage key starts with the scan prefix exactly when it belongs to the bucket and its
    user key starts with the requested prefix. *)
Lemma scan_prefix_iff b p b' k :
  bucket_ok b → bucket_ok b' →
  data_key_prefix b p `prefix_of` data_storage_key b' k
  ↔ b = b' ∧ default [] p `prefix_of` as_bytes k.
Proof.
  intros Hb Hb'. unfold data_key_prefix, data_storage_key. split.
  - intros [r Hr]. rewrite <- app_assoc in Hr. simpl in Hr.
    apply app_sep_inj in Hr as [H1 H2]; [|done|done].
    split; [by destruct b, b'; simplify_eq/=|]. by exists r.
  - intros [<- [r Hr]]. exists r. by rewrite Hr, <- app_assoc.
Qed.

(** Within a bucket the storage order is the user-key order. *)
Lemma data_storage_key_lt b k k' :
  bytes_lt (data_storage_key b k) (data_storage_key b k')
  ↔ bytes_lt (as_bytes k) (as_bytes k').
Proof.
  unfold data_storage_key. rewrite bytes_lt_app.
  change (?x :: ?l) with ([x] ++ l). apply bytes_lt_app.
Qed.

End Layout.

(** ** The expiry index *)

Module ExpiryIndex.

Definition EXPIRY_KEY_SEPARATOR : byte := ":"%byte.
Definition EXPIRY_KEY_HEADER_LEN : nat := 8 + 1.

Definition SIGN_BIT : Z := 0x8000000000000000.

(** [i64::from_be_bytes] read as two's complement. *)
Definition to_signed64 (z : Z) : Z := if z <? 2 ^ 63 then z else z - 2 ^ 64.

Definition encode_ordered_i64 (ts : Z) : bytes :=
  let bits := Z.lxor (be_value (be_bytes 8 ts)) SIGN_BIT in
  be_bytes 8 bits.

Definition decode_ordered_i64 (l : bytes) : Z :=
  let bits := Z.lxor (be_value l) SIGN_BIT in
  to_signed64 (be_value (be_bytes 8 bits)).

Definition expiry_index_key (expires_unix : Z) (storage_key : bytes) : bytes :=
  encode_ordered_i64 expires_unix ++ EXPIRY_KEY_SEPARATOR :: storage_key.

Definition parse_expiry_index_key (key : bytes) : option (Z * bytes) :=
  if (length key <=? EXPIRY_KEY_HEADER_LEN)%nat then None
  else
    let ts_bytes := take 8 key in
    sep ← key !! 8%nat;
    if bool_decide (sep ≠ EXPIRY_KEY_SEPARATOR) then None
    else Some (decode_ordered_i64 ts_bytes, drop EXPIRY_KEY_HEADER_LEN key).

Lemma pow256_8 : 256 ^ Z.of_nat 8 = 2 ^ 64.
Proof. done. Qed.

Lemma lxor_sign u :
  0 <= u < 2 ^ 64 → Z.lxor u SIGN_BIT = if u <? 2 ^ 63 then u + 2 ^ 63 else u - 2 ^ 63.
Proof.
  change SIGN_BIT with (2 ^ 63).
  assert (∀ v, 0 <= v < 2 ^ 63 → v + 2 ^ 63 = Z.lxor v (2 ^ 63)) as Hlow.
  { intros v Hv. apply Z.add_nocarry_lxor. apply Z.bits_inj'. intros n Hn.
    rewrite Z.land_spec, Z.bits_0, Z.pow2_bits_eqb by lia.
    destruct (Z.eqb_spec 63 n) as [<-|]; [|apply andb_false_r].
    rewrite andb_true_r. destruct (Z.eq_dec v 0) as [->|]; [done|].
    apply Z.bits_above_log2; [lia|]. apply Z.log2_lt_pow2; lia. }
  intros Hu. destruct (Z.ltb_spec u (2 ^ 63)); [symmetry; apply Hlow; lia|].
  assert (u = Z.lxor (u - 2 ^ 63) (2 ^ 63)) as Hx by (rewrite <- Hlow by lia; lia).
  rewrite Hx at 1. by rewrite Z.lxor_assoc, Z.lxor_nilpotent, Z.lxor_0_r.
Qed.

Lemma mod_signed ts :
  Int64.in_i64 ts = true → ts mod 2 ^ 64 = if ts <? 0 then ts + 2 ^ 64 else ts.
Proof.
  intros H%Int64.in_i64_spec. unfold Int64.i64_min, Int64.i64_max in H.
  destruct (Z.ltb_spec ts 0).
  - symmetry. apply Z.mod_unique with (-1); lia.
  - apply Z.mod_small. lia.
Qed.

Lemma length_encode_ordered ts : length (encode_ordered_i64 ts) = 8%nat.
Proof. apply length_be_bytes. Qed.

(** The encoded bytes are the timestamp shifted into [0, 2^64). *)
Lemma be_value_encode_ordered ts :
  Int64.in_i64 ts = true → be_value (encode_ordered_i64 ts) = ts + 2 ^ 63.
Proof.
  intros H. pose proof (proj1 (Int64.in_i64_spec ts) H) as Hr.
  unfold Int64.i64_min, Int64.i64_max in Hr.
  unfold encode_ordered_i64. rewrite !be_value_bytes, pow256_8.
  pose proof (mod_signed ts H) as Hm. rewrite Hm.
  rewrite lxor_sign by (destruct (Z.ltb_spec ts 0); lia).
  destruct (Z.ltb_spec ts 0).
  - rewrite (proj2 (Z.ltb_ge _ _)) by lia. rewrite Z.mod_small; lia.
  - rewrite (proj2 (Z.ltb_lt _ _)) by lia. rewrite Z.mod_small; lia.
Qed.

Lemma decode_ordered_range l : Int64.in_i64 (decode_ordered_i64 l) = true.
Proof.
  apply Int64.in_i64_spec. unfold decode_ordered_i64, to_signed64, Int64.i64_min, Int64.i64_max.
  rewrite be_value_bytes, pow256_8. pose proof (Z.mod_pos_bound (Z.lxor (be_value l) SIGN_BIT) (2 ^ 64)).
  destruct (Z.ltb_spec (Z.lxor (be_value l) SIGN_BIT mod 2 ^ 64) (2 ^ 63)); lia.
Qed.

Lemma decode_ordered_value l :
  length l = 8%nat → decode_ordered_i64 l = be_value l - 2 ^ 63.
Proof.
  intros Hl. pose proof (be_value_range l) as Hr. rewrite Hl, pow256_8 in Hr.
  unfold decode_ordered_i64, to_signed64. rewrite be_value_bytes, pow256_8, lxor_sign by done.
  destruct (Z.ltb_spec (be_value l) (2 ^ 63)); rewrite Z.mod_small by lia;
    case_match eqn:E; lia.
Qed.

Lemma decode_encode_ordered ts :
  Int64.in_i64 ts = true → decode_ordered_i64 (encode_ordered_i64 ts) = ts.
Proof.
  intros H. rewrite decode_ordered_value by apply length_encode_ordered.
  rewrite be_value_encode_ordered by done. lia.
Qed.

Lemma encode_decode_ordered l :
  length l = 8%nat → encode_ordered_i64 (decode_ordered_i64 l) = l.
Proof.
  intros Hl. apply be_value_inj; [by rewrite length_encode_ordered|].
  rewrite be_value_encode_ordered by apply decode_ordered_range.
  rewrite decode_ordered_value by done. lia.
Qed.

Lemma encode_ordered_lt ts ts' :
  Int64.in_i64 ts = true → Int64.in_i64 ts' = true →
  bytes_lt (encode_ordered_i64 ts) (encode_ordered_i64 ts') ↔ ts < ts'.
Proof.
  intros H H'. rewrite be_value_lt by by rewrite !length_encode_ordered.
  rewrite !be_value_encode_ordered by done. lia.
Qed.

Lemma expiry_index_key_lt ts ts' k k' :
  Int64.in_i64 ts = true → Int64.in_i64 ts' = true →
  bytes_lt (expiry_index_key ts k) (expiry_index_key ts' k')
  ↔ ts < ts' ∨ ts = ts' ∧ bytes_lt k k'.
Proof.
  intros H H'. unfold expiry_index_key.
  assert (∀ a b x y, a < b → Int64.in_i64 a = true → Int64.in_i64 b = true →
    bytes_lt (encode_ordered_i64 a ++ x) (encode_ordered_i64 b ++ y)) as Hlt.
  { intros a b x y Hab Ha Hb. apply bytes_lt_app_head; [by rewrite !length_encode_ordered|].
    by apply encode_ordered_lt. }
  destruct (Z.lt_trichotomy ts ts') as [Hc|[<-|Hc]].
  - split; [by left|]. intros _. by apply Hlt.
  - rewrite bytes_lt_app. change (?c :: ?l) with ([c] ++ l). rewrite bytes_lt_app.
    split; [by right|]. intros [?|[_ ?]]; [lia|done].
  - split; [|lia]. intros Hx. exfalso.
    apply (bytes_lt_irrefl (encode_ordered_i64 ts ++ EXPIRY_KEY_SEPARATOR :: k)).
    etrans; [exact Hx|]. by apply Hlt.
Qed.

Lemma parse_index_key_of ts k :
  Int64.in_i64 ts = true → k ≠ [] →
  parse_expiry_index_key (expiry_index_key ts k) = Some (ts, k).
Proof.
  intros Hts Hk. unfold parse_expiry_index_key, expiry_index_key.
  pose proof (length_encode_ordered ts) as Hl.
  rewrite length_app, Hl. simpl length. rewrite (proj2 (Nat.leb_gt _ _)); last first.
  { destruct k; [done|]. unfold EXPIRY_KEY_HEADER_LEN. simpl. lia. }
  rewrite (take_app_length' _ _ 8) by done.
  assert ((encode_ordered_i64 ts ++ EXPIRY_KEY_SEPARATOR :: k) !! 8%nat = Some EXPIRY_KEY_SEPARATOR)
    as -> by (rewrite lookup_app_r by lia; by rewrite Hl).
  assert (drop EXPIRY_KEY_HEADER_LEN (encode_ordered_i64 ts ++ EXPIRY_KEY_SEPARATOR :: k) = k)
    as -> by (unfold EXPIRY_KEY_HEADER_LEN; rewrite drop_app_ge by lia; by rewrite Hl).
  by rewrite decode_encode_ordered.
Qed.

Lemma parse_index_key_inv key ts k :
  parse_expiry_index_key key = Some (ts, k) →
  key = expiry_index_key ts k ∧ Int64.in_i64 ts = true ∧ k ≠ [].
Proof.
  unfold parse_expiry_index_key. destruct (Nat.leb_spec (length key) EXPIRY_KEY_HEADER_LEN); [done|].
  unfold EXPIRY_KEY_HEADER_LEN in *.
  destruct (key !! 8%nat) as [sep|] eqn:Es; [|done]. simpl. case_bool_decide as Hsep; [done|].
  intros [= <- <-]. split; [|split].
  - unfold expiry_index_key. rewrite encode_decode_ordered by (rewrite length_take; lia).
    assert (sep = EXPIRY_KEY_SEPARATOR) as <- by (destruct (decide (sep = EXPIRY_KEY_SEPARATOR)); tauto).
    rewrite <- (take_drop_middle key 8 sep) at 1 by done. done.
  - apply decode_ordered_range.
  - intros Hd. apply (f_equal length) in Hd. rewrite length_drop in Hd. simpl in Hd. lia.
Qed.

End ExpiryIndex.

(** ** Entry codec *)

Module Entry.

(** [struct EntryCodec] (and its borrowing twin [EntryCodecRef], which reads the same bytes). *)
Record EntryCodec : Type := mkCodec {
  ec_payload : bytes;
  ec_kind : ValueKind;
  ec_expires_unix : option Z;
}.

(** The values of the Rust type: the timestamp is an [i64]. *)
Definition codec_wf (c : EntryCodec) : Prop :=
  match ec_expires_unix c with Some ts => Int64.in_i64 ts = true | None => True end.

#[global] Instance codec_wf_dec c : Decision (codec_wf c).
Proof. unfold codec_wf. destruct (ec_expires_unix c); apply _. Defined.

(** [postcard::to_allocvec] and [postcard::from_bytes] at [EntryCodec]; errors are their
    [Display] texts. *)
Class PostcardOps : Type := {
  to_allocvec : EntryCodec → result bytes bytes;
  from_bytes : bytes → result EntryCodec bytes;
}.

Class PostcardLaws (P : PostcardOps) : Prop := {
  (** Serialization into a growing vector succeeds, and what it wrote is read back. *)
  postcard_roundtrip c : codec_wf c → ∃ l, to_allocvec c = Ok l ∧ from_bytes l = Ok c;
  postcard_typed l c : from_bytes l = Ok c → codec_wf c;
}.

Section Entry.
Context {T : TimeOps} {P : PostcardOps} {E : Type}.

Definition encode_entry (v : StoredValue) (expires_at : option OffsetDateTime)
  : result bytes (FjallError E) :=
  let expires_unix := unix_timestamp <$> expires_at in
  let codec := mkCodec (payload v) (kind v) expires_unix in
  map_err (λ e, Codec (bs "postcard encode: " ++ e)) (to_allocvec codec).

Definition expires_at_from_unix (ts : Z) : result OffsetDateTime (FjallError E) :=
  map_err Codec (from_unix_timestamp ts).

Definition decode_entry_expires_unix (l : bytes) : result (option Z) (FjallError E) :=
  let? codec := map_err (λ e, Codec (bs "postcard decode: " ++ e)) (from_bytes l) in
  Ok (ec_expires_unix codec).

Definition decode_entry (l : bytes) : result StoredEntry (FjallError E) :=
  let? codec := map_err (λ e, Codec (bs "postcard decode: " ++ e)) (from_bytes l) in
  let? v := map_err (λ e, Codec (domain_error_display e))
              (Value.new (ec_payload codec) (ec_kind codec)) in
  let? exp := match ec_expires_unix codec with
              | None => Ok None
              | Some ts => let? t := expires_at_from_unix ts in Ok (Some t)
              end in
  Ok (mkEntry v exp).

Context {TL : TimeLaws T} {PL : PostcardLaws P}.

Lemma whole_second_total e : ∃ e', whole_second e = Some e' ∧ unix_timestamp e' = unix_timestamp e.
Proof.
  unfold whole_second. destruct (from_unix_timestamp_total e) as [e' He]. rewrite He.
  exists e'. split; [done|]. by apply unix_timestamp_from.
Qed.

Lemma whole_second_bounds t t' :
  whole_second t = Some t' →
  unix_timestamp_nanos t - NANOS < unix_timestamp_nanos t' <= unix_timestamp_nanos t.
Proof.
  unfold whole_second. destruct (from_unix_timestamp _) as [x|] eqn:E1; simpl; [|done].
  intros [= <-]. apply from_unix_timestamp_nanos in E1. rewrite E1, unix_timestamp_floor.
  unfold NANOS. lia.
Qed.

(** What [encode_entry] wrote decodes to the entry with its expiry at whole seconds. *)
Lemma decode_encode v e :
  Value.value_ok v →
  ∃ l, encode_entry v e = Ok l ∧ decode_entry l = Ok (written v e)
       ∧ decode_entry_expires_unix l = Ok (unix_timestamp <$> e).
Proof.
  intros Hv. unfold encode_entry, decode_entry, decode_entry_expires_unix.
  destruct (postcard_roundtrip (mkCodec (payload v) (kind v) (unix_timestamp <$> e)))
    as (l & H1 & H2).
  { unfold codec_wf. destruct e; simpl; [apply unix_timestamp_i64|done]. }
  exists l. rewrite H1, H2. simpl. rewrite (Value.new_value_ok v Hv). simpl.
  split; [done|split; [|done]]. unfold written. destruct e as [e|]; simpl; [|done].
  unfold expires_at_from_unix, whole_second.
  destruct (from_unix_timestamp_total e) as [e' ->]. done.
Qed.

(** A decoded entry agrees with the raw timestamp the index and the sweeper use. *)
Lemma decode_entry_inv l en :
  decode_entry l = Ok en →
  Value.value_ok (value en)
  ∧ ∃ ts, decode_entry_expires_unix l = Ok ts
          ∧ match ts, expires_at en with
            | None, None => True
            | Some ts, Some t => from_unix_timestamp ts = Ok t ∧ Int64.in_i64 ts = true
            | _, _ => False
            end.
Proof.
  unfold decode_entry, decode_entry_expires_unix.
  destruct (from_bytes l) as [c|] eqn:Ec; simpl; [|done]. intros H.
  apply postcard_typed in Ec. unfold codec_wf in Ec.
  destruct (Value.new (ec_payload c) (ec_kind c)) as [v|] eqn:Ev; simpl in H; [|done].
  apply Value.new_ok in Ev as [-> Hv].
  destruct (ec_expires_unix c) as [ts|]; simpl in H;
    [|injection H as <-; split; [done|]; by exists None].
  unfold expires_at_from_unix in H. destruct (from_unix_timestamp ts) as [t|] eqn:Et;
    simpl in H; [|done].
  injection H as <-. split; [done|]. by exists (Some ts).
Qed.

End Entry.

End Entry.
Export Entry (PostcardOps, PostcardLaws, encode_entry, decode_entry, decode_entry_expires_unix).

(** ** [codec.rs]: policies *)

Module PolicyCodec.

Record StoredBucketPolicy : Type := mkStoredPolicy {
  sp_secret_key_hash : option bytes;
  sp_read_key_hash : option bytes;
  sp_write_key_hash : option bytes;
  sp_signing_key : option bytes;
  sp_signing_key_generation : N;
  sp_default_ttl_secs : option N;
  sp_anonymous_access : Permission;
}.

Definition from_policy (p : BucketPolicy) : StoredBucketPolicy := {|
  sp_secret_key_hash := secret_key_hash p;
  sp_read_key_hash := read_key_hash p;
  sp_write_key_hash := write_key_hash p;
  sp_signing_key := expose_secret <$> signing_key p;
  sp_signing_key_generation := signing_key_generation p;
  sp_default_ttl_secs := default_ttl_secs p;
  sp_anonymous_access := anonymous_access p;
|}.

Definition to_policy (s : StoredBucketPolicy) : BucketPolicy := {|
  default_ttl_secs := sp_default_ttl_secs s;
  anonymous_access := sp_anonymous_access s;
  secret_key_hash := sp_secret_key_hash s;
  read_key_hash := sp_read_key_hash s;
  write_key_hash := sp_write_key_hash s;
  signing_key := mkSigningKey <$> sp_signing_key s;
  signing_key_generation := sp_signing_key_generation s;
|}.

(** The values of the Rust types: the numeric fields are [u64]. *)
Definition policy_wf (p : BucketPolicy) : Prop :=
  (signing_key_generation p <= Usize.usize_max)%N
  ∧ match default_ttl_secs p with Some t => (t <= Usize.usize_max)%N | None => True end.

#[global] Instance policy_wf_dec p : Decision (policy_wf p).
Proof. unfold policy_wf. destruct (default_ttl_secs p); apply _. Defined.

(** [serde_json::to_vec] and [from_slice] at [StoredBucketPolicy]; errors as texts. *)
Class PolicyJsonOps : Type := {
  to_vec : StoredBucketPolicy → result bytes bytes;
  from_slice : bytes → result StoredBucketPolicy bytes;
}.

Class PolicyJsonLaws (J : PolicyJsonOps) : Prop := {
  policy_json_roundtrip s : policy_wf (to_policy s) → ∃ l, to_vec s = Ok l ∧ from_slice l = Ok s;
}.

(** [CodecError] has one variant; the error is its text. *)
Definition encode_policy `{PolicyJsonOps} (p : BucketPolicy) : result bytes bytes :=
  let stored := from_policy p in to_vec stored.

Definition decode_policy `{PolicyJsonOps} (l : bytes) : result BucketPolicy bytes :=
  let? stored := from_slice l in Ok (to_policy stored).

Lemma to_from_policy p : to_policy (from_policy p) = p.
Proof. by destruct p as [? ? ? ? ? [[?]|] ?]. Qed.

Lemma decode_encode_policy `{J : PolicyJsonOps} {JL : PolicyJsonLaws J} p :
  policy_wf p → ∃ l, encode_policy p = Ok l ∧ decode_policy l = Ok p.
Proof.
  intros Hp. unfold encode_policy, decode_policy.
  destruct (policy_json_roundtrip (from_policy p)) as (l & H1 & H2); [by rewrite to_from_policy|].
  exists l. rewrite H1, H2. simpl. by rewrite to_from_policy.
Qed.

End PolicyCodec.
Export PolicyCodec (PolicyJsonOps, PolicyJsonLaws, encode_policy, decode_policy).

(** ** Instances of the serializers

    Any injective encoding satisfies the laws; these go through [Countable] and write the code
    as one byte per bit. They evaluate examples and show that the laws can hold. *)

Section Bits.

Fixpoint pos_bits (p : positive) : bytes :=
  match p with
  | xH => []
  | xO q => "0"%byte :: pos_bits q
  | xI q => "1"%byte :: pos_bits q
  end.

Fixpoint bits_pos (l : bytes) : positive :=
  match l with
  | [] => xH
  | b :: l' => if decide (b = "1"%byte) then xI (bits_pos l') else xO (bits_pos l')
  end.

Lemma bits_pos_bits p : bits_pos (pos_bits p) = p.
Proof. induction p; simpl; congruence. Qed.

Context {A : Type} `{Countable A}.

Definition count_write (a : A) : bytes := pos_bits (encode a).

Definition count_read (l : bytes) : option A := decode (bits_pos l).

Lemma count_read_write a : count_read (count_write a) = Some a.
Proof. unfold count_read, count_write. by rewrite bits_pos_bits, decode_encode. Qed.

End Bits.

#[global] Instance ValueKind_countable : Countable ValueKind.
Proof.
  refine (inj_countable'
    (λ k, match k with Value.Raw => 0 | Value.Utf8 => 1 | Value.Int64 => 2 | Value.Float64 => 3
          | Value.Json => 4 end)
    (λ n, match n with 0 => Value.Raw | 1 => Value.Utf8 | 2 => Value.Int64 | 3 => Value.Float64
          | _ => Value.Json end) _).
  by intros [].
Defined.

#[global] Instance Permission_countable : Countable Permission.
Proof.
  refine (inj_countable'
    (λ p : Permission, (Permission.read p, Permission.write p, Permission.enumerate p,
                        Permission.delete p))
    (λ '(r, w, e, d), Permission.new r w e d) _).
  by intros [].
Defined.

#[global] Instance count_postcard : PostcardOps := {
  to_allocvec c := Ok (count_write (Entry.ec_payload c, Entry.ec_kind c, Entry.ec_expires_unix c));
  from_bytes l :=
    match count_read (A := bytes * ValueKind * option Z) l with
    | Some (p, k, e) =>
      let c := Entry.mkCodec p k e in
      if decide (Entry.codec_wf c) then Ok c else Err (bs "Bad encoding")
    | None => Err (bs "Bad encoding")
    end;
}.

#[global] Instance count_postcard_laws : PostcardLaws count_postcard.
Proof.
  split.
  - intros [p k e] Hc. eexists. split; [done|]. cbn -[count_read count_write].
    rewrite count_read_write. by rewrite decide_True.
  - intros l c. cbn -[count_read]. destruct (count_read l) as [[[p k] e]|]; [|done].
    case_decide; [|done]. by intros [= <-].
Qed.

#[global] Instance count_policy_json : PolicyJsonOps := {
  to_vec s := Ok (count_write
    (PolicyCodec.sp_secret_key_hash s, PolicyCodec.sp_read_key_hash s,
     PolicyCodec.sp_write_key_hash s, PolicyCodec.sp_signing_key s,
     PolicyCodec.sp_signing_key_generation s, PolicyCodec.sp_default_ttl_secs s,
     PolicyCodec.sp_anonymous_access s));
  from_slice l :=
    match count_read (A := option bytes * option bytes * option bytes * option bytes * N * option N
                           * Permission) l with
    | Some (a, b, c, d, g, t, p) => Ok (PolicyCodec.mkStoredPolicy a b c d g t p)
    | None => Err (bs "expected value")
    end;
}.

#[global] Instance count_policy_json_laws : PolicyJsonLaws count_policy_json.
Proof.
  split. intros [] _. eexists. split; [done|]. cbn -[count_read count_write].
  by rewrite count_read_write.
Qed.

(** ** Properties *)

(** Storage keys keep the tenants apart. For bucket ids without [':'] (bucket ids are UUIDs)
    two storage keys are equal only if bucket and key are, and the prefix the listing scans
    covers exactly the keys of that bucket that start with the requested user prefix; parsing a
    storage key of the bucket gives its user key back and any other storage key is refused. *)
Theorem storage_keys_isolated (b b' : BucketId) (k k' : Key) (p : option bytes) :
  Layout.bucket_ok b → Layout.bucket_ok b' → Key.key_ok k' →
  (Layout.data_storage_key b k = Layout.data_storage_key b' k' ↔ b = b' ∧ k = k')
  ∧ (Layout.data_key_prefix b p `prefix_of` Layout.data_storage_key b' k'
     ↔ b = b' ∧ default [] p `prefix_of` as_bytes k')
  ∧ Layout.user_key_from_storage_key (Layout.data_storage_key b' k') b
    = if decide (b = b') then Some k' else None.
Proof.
  intros Hb Hb' Hk. split; [|split; [by apply Layout.scan_prefix_iff|]].
  - split; [by apply Layout.data_storage_key_inj|by intros [-> ->]].
  - case_decide as Hd; [subst; by apply Layout.user_key_of_storage_key|].
    destruct (Layout.user_key_from_storage_key _ b) as [k0|] eqn:E; [|done].
    apply Layout.user_key_inv in E as [E _]. exfalso. apply Hd. symmetry.
    by apply Layout.data_storage_key_inj in E as [-> _].
Qed.

Lemma storage_keys_isolated_witness :
  Layout.user_key_from_storage_key
    (Layout.data_storage_key (mkBucketId (bs "a")) (mkKey (bs "x:y"))) (mkBucketId (bs "a"))
  = Some (mkKey (bs "x:y")).
Proof.
  refine (proj2 (proj2 (storage_keys_isolated (mkBucketId (bs "a")) (mkBucketId (bs "a"))
    (mkKey []) (mkKey (bs "x:y")) None _ _ _))).
  - by apply (bool_decide_unpack _).
  - by apply (bool_decide_unpack _).
  - unfold Key.key_ok. by vm_compute.
Defined.

(** C32: The byte order of expiry-index keys is the order of (timestamp, storage key), negative
    timestamps included, and parsing an index key returns the timestamp and the storage key it
    was built from. The sweeper's early exit relies on the first fact. *)
Theorem expiry_index_ordered (ts ts' : Z) (k k' : bytes) :
  Int64.in_i64 ts = true → Int64.in_i64 ts' = true → k ≠ [] →
  (bytes_lt (ExpiryIndex.expiry_index_key ts k) (ExpiryIndex.expiry_index_key ts' k')
   ↔ ts < ts' ∨ ts = ts' ∧ bytes_lt k k')
  ∧ ExpiryIndex.parse_expiry_index_key (ExpiryIndex.expiry_index_key ts k) = Some (ts, k).
Proof.
  intros H H' Hk. split; [by apply ExpiryIndex.expiry_index_key_lt|].
  by apply ExpiryIndex.parse_index_key_of.
Qed.

Lemma expiry_index_ordered_witness :
  ExpiryIndex.parse_expiry_index_key (ExpiryIndex.expiry_index_key (-7) (bs "b:k"))
  = Some (-7, bs "b:k")
  ∧ bytes_lt (ExpiryIndex.expiry_index_key (-7) (bs "b:k"))
             (ExpiryIndex.expiry_index_key 3 (bs "a")).
Proof.
  destruct (expiry_index_ordered (-7) 3 (bs "b:k") (bs "a")) as [H1 H2];
    [done|done|done|].
  split; [exact H2|]. apply H1. by left.
Defined.

(** C33: Encoding an entry never fails, and decoding the bytes returns the value with the expiry
    truncated to its whole second: never later than requested and less than one second
    earlier. *)
Theorem entry_codec_roundtrip {T : TimeOps} {TL : TimeLaws T} {P : PostcardOps}
    {PL : PostcardLaws P} {E : Type} (v : StoredValue) (e : option OffsetDateTime) :
  Value.value_ok v →
  ∃ l en, encode_entry (E := E) v e = Ok l ∧ decode_entry (E := E) l = Ok en ∧ value en = v
    ∧ match e, expires_at en with
      | None, None => True
      | Some t, Some t' =>
        unix_timestamp t' = unix_timestamp t
        ∧ unix_timestamp_nanos t - NANOS < unix_timestamp_nanos t' <= unix_timestamp_nanos t
      | _, _ => False
      end.
Proof.
  intros Hv. destruct (Entry.decode_encode (E := E) v e Hv) as (l & H1 & H2 & _).
  exists l, (written v e). split; [done|]. split; [done|]. split; [done|].
  destruct e as [t|]; simpl; [|done].
  destruct (Entry.whole_second_total t) as (t' & Ht & Hu). rewrite Ht. split; [done|].
  by apply Entry.whole_second_bounds.
Qed.

Lemma entry_codec_roundtrip_witness :
  ∃ l en, encode_entry (T := nano_time) (E := unit) (mkStored (bs "42") Value.Int64) (Some (at_nanos 1500000000))
          = Ok l
    ∧ decode_entry (T := nano_time) (E := unit) l = Ok en ∧ value en = mkStored (bs "42") Value.Int64.
Proof.
  destruct (entry_codec_roundtrip (T := nano_time) (E := unit) (mkStored (bs "42") Value.Int64)
    (Some (at_nanos 1500000000))) as (l & en & H1 & H2 & H3 & _).
  - unfold Value.value_ok. by vm_compute.
  - exists l, en. split; [exact H1|]. split; [exact H2|exact H3].
Defined.

(** The stored form of a bucket policy decodes to the policy that was encoded: hashes,
    signing key, generation, default TTL and anonymous permissions all survive. *)
Theorem policy_codec_roundtrip `{J : PolicyJsonOps} {JL : PolicyJsonLaws J} (p : BucketPolicy) :
  PolicyCodec.policy_wf p → ∃ l, encode_policy p = Ok l ∧ decode_policy l = Ok p.
Proof. apply PolicyCodec.decode_encode_policy. Qed.

Lemma policy_codec_roundtrip_witness :
  ∃ l, encode_policy (mkPolicy (Some 60%N) Permission.READ_ONLY (Some (bs "h")) None None
         (Some (mkSigningKey (bs "k"))) 3) = Ok l
     ∧ decode_policy l = Ok (mkPolicy (Some 60%N) Permission.READ_ONLY (Some (bs "h")) None None
         (Some (mkSigningKey (bs "k"))) 3).
Proof. apply policy_codec_roundtrip. by apply (bool_decide_unpack _). Defined.
