(* ===== verification/FjallLib.v ===== *)
(** * The [fjall] crate, as an interface

    The embedded store the adapter is written against: three keyspaces (ordered byte maps) with
    point operations, ordered scans and atomic write batches. The crate is not part of the
    repository, so it is a class. [contents] is the abstract value of a keyspace; [healthy]
    describes a database none of whose operations fails. [fault_fjall] is one instance: sorted
    maps with a schedule of injected faults. *)

From S2P Require Import Prelude.

Inductive keyspace : Type := Meta | Data | Expiry.

#[global] Instance keyspace_eq_dec : EqDecision keyspace.
Proof. solve_decision. Defined.

(** A write of [db.batch()]. *)
Inductive batch_op : Type :=
| BatchInsert (ks : keyspace) (k v : bytes)
| BatchRemove (ks : keyspace) (k : bytes).

Class FjallOps : Type := {
  Database : Type;
  fjall_error : Type;
  (** [Display for fjall::Error] *)
  fjall_display : fjall_error → bytes;
  ks_get : keyspace → bytes → Database → result (option bytes) fjall_error * Database;
  ks_contains_key : keyspace → bytes → Database → result bool fjall_error * Database;
  ks_insert : keyspace → bytes → bytes → Database → result unit fjall_error * Database;
  ks_remove : keyspace → bytes → Database → result unit fjall_error * Database;
  (** The guards yielded by a scan, each opened with [into_inner]. *)
  ks_prefix : keyspace → bytes → Database → list (result (bytes * bytes) fjall_error) * Database;
  ks_iter : keyspace → Database → list (result (bytes * bytes) fjall_error) * Database;
  batch_commit : list batch_op → Database → result unit fjall_error * Database;
  (** Abstract state *)
  contents : Database → keyspace → gmap bytes bytes;
  healthy : Database → Prop;
}.

(** The effect of a write on the contents. *)
Definition apply_write (m : keyspace → gmap bytes bytes) (w : batch_op)
  : keyspace → gmap bytes bytes :=
  λ ks, match w with
        | BatchInsert ks' k v => if decide (ks' = ks) then <[k := v]> (m ks) else m ks
        | BatchRemove ks' k => if decide (ks' = ks) then delete k (m ks) else m ks
        end.

Definition apply_writes (m : keyspace → gmap bytes bytes) (ws : list batch_op)
  : keyspace → gmap bytes bytes := foldl apply_write m ws.

(** [kvs] is the ordered list of the entries of [m] whose key starts with [p]. *)
Definition scan_of (m : gmap bytes bytes) (p : bytes) (kvs : list (bytes * bytes)) : Prop :=
  StronglySorted bytes_lt kvs.*1
  ∧ ∀ k v, (k, v) ∈ kvs ↔ m !! k = Some v ∧ p `prefix_of` k.

(** A scan yields, for each entry, the entry or an error. *)
Definition yields {E} (it : result (bytes * bytes) E) (kv : bytes * bytes) : Prop :=
  match it with Ok x => x = kv | Err _ => True end.

Section Laws.
Context {F : FjallOps}.

(** A read does not change the contents; if the database is healthy it succeeds. *)
Definition read_law {A} (op : Database → result A fjall_error * Database)
    (ans : (keyspace → gmap bytes bytes) → A) : Prop :=
  ∀ db r db', op db = (r, db') →
    (∀ ks, contents db' ks = contents db ks)
    ∧ match r with Ok a => a = ans (contents db) | Err _ => ¬ healthy db end
    ∧ (healthy db → healthy db').

(** A write takes effect as a whole when it succeeds; a failed one has either taken effect as a
    whole or not at all. *)
Definition write_law (op : Database → result unit fjall_error * Database)
    (ws : list batch_op) : Prop :=
  ∀ db r db', op db = (r, db') →
    match r with
    | Ok _ => ∀ ks, contents db' ks = apply_writes (contents db) ws ks
    | Err _ => ¬ healthy db
               ∧ ((∀ ks, contents db' ks = contents db ks)
                  ∨ ∀ ks, contents db' ks = apply_writes (contents db) ws ks)
    end
    ∧ (healthy db → healthy db').

(** A scan yields a snapshot of the keyspace in key order. *)
Definition scan_law (op : Database → list (result (bytes * bytes) fjall_error) * Database)
    (ks : keyspace) (p : bytes) : Prop :=
  ∀ db items db', op db = (items, db') →
    (∀ ks', contents db' ks' = contents db ks')
    ∧ (∃ kvs, scan_of (contents db ks) p kvs ∧ Forall2 yields items kvs)
    ∧ (healthy db → healthy db' ∧ Forall (λ it, is_ok it = true) items).

End Laws.

Class FjallLaws (F : FjallOps) : Prop := {
  get_law ks k : read_law (ks_get ks k) (λ m, m ks !! k);
  contains_key_law ks k : read_law (ks_contains_key ks k) (λ m, bool_decide (is_Some (m ks !! k)));
  insert_law ks k v : write_law (ks_insert ks k v) [BatchInsert ks k v];
  remove_law ks k : write_law (ks_remove ks k) [BatchRemove ks k];
  prefix_law ks p : scan_law (ks_prefix ks p) ks p;
  iter_law ks : scan_law (ks_iter ks) ks [];
  commit_law ws : write_law (batch_commit ws) ws;
}.

(** ** Facts about writes and scans *)

Lemma apply_write_other m w ks :
  match w with BatchInsert ks' _ _ | BatchRemove ks' _ => ks' ≠ ks end →
  apply_write m w ks = m ks.
Proof. destruct w; simpl; intros; by rewrite decide_False. Qed.

Lemma apply_writes_ext m m' ws ks :
  (∀ ks, m ks = m' ks) → apply_writes m ws ks = apply_writes m' ws ks.
Proof.
  revert m m'. induction ws as [|w ws IH]; intros m m' Hm; simpl; [done|].
  apply IH. intros ks'. unfold apply_write. rewrite Hm. done.
Qed.

Lemma sorted_same_elements (l m : list (bytes * bytes)) :
  StronglySorted bytes_lt l.*1 → StronglySorted bytes_lt m.*1 →
  (∀ kv, kv ∈ l ↔ kv ∈ m) → l = m.
Proof.
  revert m. induction l as [|[k v] l IH]; intros m Hl Hm Heq.
  - destruct m as [|kv m]; [done|]. exfalso.
    apply (not_elem_of_nil kv). apply Heq. set_solver.
  - destruct m as [|[k' v'] m].
    { exfalso. apply (not_elem_of_nil (k, v)). apply Heq. set_solver. }
    inversion Hl as [|? ? Hls Hlf]; subst. inversion Hm as [|? ? Hms Hmf]; subst.
    rewrite list.Forall_forall in Hlf, Hmf.
    assert ((k, v) = (k', v')) as Hhd.
    { assert ((k, v) ∈ (k', v') :: m) as H1 by (apply Heq; set_solver).
      assert ((k', v') ∈ (k, v) :: l) as H2 by (apply Heq; set_solver).
      apply elem_of_cons in H1 as [H1|H1]; [done|].
      apply elem_of_cons in H2 as [H2|H2]; [done|]. exfalso.
      apply (bytes_lt_irrefl k). trans k'.
      - apply Hlf. apply list_elem_of_fmap. by exists (k', v').
      - apply Hmf. apply list_elem_of_fmap. by exists (k, v). }
    simplify_eq. f_equal. apply IH; [done|done|]. intros [k v].
    assert (∀ n : list (bytes * bytes), Forall (bytes_lt k') n.*1 → (k', v) ∉ n) as Hnot.
    { intros n Hn Hin. apply (bytes_lt_irrefl k'). rewrite list.Forall_forall in Hn. apply Hn.
      apply list_elem_of_fmap. by exists (k', v). }
    pose proof (Heq (k, v)) as Hkv. rewrite !elem_of_cons in Hkv.
    destruct (decide (k = k')) as [->|Hk].
    + split; intros Hin; exfalso; [apply (Hnot l)|apply (Hnot m)]; try done;
        rewrite list.Forall_forall; done.
    + split; intros Hin.
      * destruct (proj1 Hkv (or_intror Hin)); [congruence|done].
      * destruct (proj2 Hkv (or_intror Hin)); [congruence|done].
Qed.

Lemma scan_of_unique m p l l' : scan_of m p l → scan_of m p l' → l = l'.
Proof.
  intros [Hs He] [Hs' He']. apply sorted_same_elements; [done|done|].
  intros [k v]. by rewrite He, He'.
Qed.

(** ** An instance: sorted maps with scheduled faults *)

Definition key_le (x y : bytes * bytes) : Prop := bytes_le x.1 y.1.

#[global] Instance key_le_dec : RelDecision key_le.
Proof. intros x y. unfold key_le. apply _. Defined.
#[global] Instance key_le_trans : Transitive key_le.
Proof. intros x y z. unfold key_le. apply bytes_le_trans. Qed.
#[global] Instance key_le_total : Total key_le.
Proof. intros x y. unfold key_le. apply bytes_le_total. Qed.

Definition scan_list (m : gmap bytes bytes) (p : bytes) : list (bytes * bytes) :=
  merge_sort key_le (filter (λ kv, p `prefix_of` kv.1) (map_to_list m)).

Lemma strict_of_nodup (l : list (bytes * bytes)) :
  StronglySorted key_le l → NoDup l.*1 → StronglySorted bytes_lt l.*1.
Proof.
  induction 1 as [|x l Hs IH Hf]; simpl; [constructor|].
  intros [Hn Hd]%list.NoDup_cons. constructor; [by apply IH|].
  apply list.Forall_forall. intros k Hk. rewrite list.Forall_forall in Hf.
  apply list_elem_of_fmap in Hk as (y & -> & Hy). destruct (Hf y Hy) as [He|]; [|done].
  exfalso. apply Hn. rewrite He. apply list_elem_of_fmap. by exists y.
Qed.

Lemma scan_list_ok m p : scan_of m p (scan_list m p).
Proof.
  unfold scan_of, scan_list. split.
  - apply strict_of_nodup; [apply StronglySorted_merge_sort; apply _|].
    rewrite merge_sort_Permutation.
    assert (NoDup (map_to_list m).*1) as Hn by apply NoDup_fst_map_to_list.
    revert Hn. generalize (map_to_list m). intros l. induction l as [|x l IH]; simpl; [done|].
    intros [Hx Hn]%list.NoDup_cons. rewrite filter_cons. case_decide; simpl; [|by apply IH].
    constructor; [|by apply IH]. intros Hin. apply Hx.
    apply list_elem_of_fmap in Hin as (y & -> & Hy). apply list_elem_of_filter in Hy as [_ Hy].
    apply list_elem_of_fmap. by exists y.
  - intros k v. rewrite merge_sort_Permutation, list_elem_of_filter, elem_of_map_to_list.
    simpl. tauto.
Qed.

Record fault_db : Type := mkFaultDb { maps : keyspace → gmap bytes bytes; faults : list bool }.

Definition io_error : bytes := bs "I/O error".

(** Consume one slot of the fault schedule. *)
Definition with_fault {A} (fail ok : fault_db → result A bytes * fault_db) (db : fault_db)
  : result A bytes * fault_db :=
  match faults db with
  | [] => ok db
  | f :: fs => let db' := mkFaultDb (maps db) fs in if f : bool then fail db' else ok db'
  end.

Definition fault_write (ws : list batch_op) : fault_db → result unit bytes * fault_db :=
  with_fault (λ db, (Err io_error, db))
             (λ db, (Ok tt, mkFaultDb (apply_writes (maps db) ws) (faults db))).

Definition fault_read {A} (ans : (keyspace → gmap bytes bytes) → A)
  : fault_db → result A bytes * fault_db :=
  with_fault (λ db, (Err io_error, db)) (λ db, (Ok (ans (maps db)), db)).

(** A faulty scan cannot read its entries. *)
Definition fault_scan (ks : keyspace) (p : bytes) (db : fault_db)
  : list (result (bytes * bytes) bytes) * fault_db :=
  let kvs := scan_list (maps db ks) p in
  match faults db with
  | true :: fs => ((λ _, Err io_error) <$> kvs, mkFaultDb (maps db) fs)
  | _ :: fs => (Ok <$> kvs, mkFaultDb (maps db) fs)
  | [] => (Ok <$> kvs, db)
  end.

#[global] Instance fault_fjall : FjallOps := {
  Database := fault_db;
  fjall_error := bytes;
  fjall_display := id;
  ks_get ks k := fault_read (λ m, m ks !! k);
  ks_contains_key ks k := fault_read (λ m, bool_decide (is_Some (m ks !! k)));
  ks_insert ks k v := fault_write [BatchInsert ks k v];
  ks_remove ks k := fault_write [BatchRemove ks k];
  ks_prefix := fault_scan;
  ks_iter ks := fault_scan ks [];
  batch_commit := fault_write;
  contents := maps;
  healthy db := Forall (λ f, f = false) (faults db);
}.

Lemma fault_read_law {A} (ans : (keyspace → gmap bytes bytes) → A) :
  read_law (F := fault_fjall) (fault_read ans) ans.
Proof.
  intros [m fs] r db'. unfold fault_read, with_fault. simpl.
  destruct fs as [|[] fs]; simpl; intros [= <- <-]; simpl; (split; [done|]); split; try done.
  - by intros [? _]%list.Forall_cons.
  - by intros [? _]%list.Forall_cons.
  - by intros [_ ?]%list.Forall_cons.
Qed.

Lemma fault_write_law ws : write_law (F := fault_fjall) (fault_write ws) ws.
Proof.
  intros [m fs] r db'. unfold fault_write, with_fault. simpl.
  destruct fs as [|[] fs]; simpl; intros [= <- <-]; simpl; (split; [|]); try done.
  - split; [by intros [? _]%list.Forall_cons|by left].
  - by intros [? _]%list.Forall_cons.
  - by intros [_ ?]%list.Forall_cons.
Qed.

Lemma fault_scan_law ks p : scan_law (F := fault_fjall) (fault_scan ks p) ks p.
Proof.
  intros [m fs] items db'. unfold fault_scan. simpl. intros Hop.
  pose proof (scan_list_ok (m ks) p) as Hs.
  assert (∀ l : list (bytes * bytes), Forall2 yields (Ok (E := bytes) <$> l) l) as Hok.
  { intros l. induction l; constructor; done. }
  assert (∀ l : list (bytes * bytes), Forall2 yields ((λ _, Err io_error) <$> l) l) as Herr.
  { intros l. induction l; constructor; done. }
  assert (∀ l : list (bytes * bytes), Forall (λ it, is_ok it = true) (Ok (E := bytes) <$> l)) as Hall.
  { intros l. induction l; constructor; done. }
  destruct fs as [|[] fs]; simplify_eq/=; (split; [done|]); (split; [eauto|]).
  - intros _. split; [constructor|apply Hall].
  - by intros [? _]%list.Forall_cons.
  - intros [_ ?]%list.Forall_cons. split; [done|apply Hall].
Qed.

#[global] Instance fault_fjall_laws : FjallLaws fault_fjall.
Proof.
  split; intros; simpl; auto using fault_read_law, fault_write_law, fault_scan_law.
Qed.

Definition empty_db : fault_db := mkFaultDb (λ _, ∅) [].
