(* ===== verification/Locks.v ===== *)
(** * [keydock-fjall/src/locks.rs]: striped write locks

    [StripedLocks] maps a storage key to one of 64 mutexes. The standard library does not
    specify what [DefaultHasher] computes, so the hash is the class [HasherOps]. A mutex is
    observed here only through its poison flag; who holds it is the subject of [Acquire], a step
    relation over the threads of the process, in which ordered acquisition excludes deadlock. *)

From Stdlib Require Import Strings.Byte.
From S2P Require Import Prelude RustStd TimeLib Domain Ports Codec.

(** [DefaultHasher::new(); key.hash(&mut h); h.finish()]. *)
Class HasherOps : Type := { hash_finish : bytes → N }.

Module Locks.

Definition WRITE_LOCK_STRIPES : N := 64.

(** [struct StripedLocks]: the stripes whose mutex is poisoned. *)
Record StripedLocks : Type := mkLocks { poisoned : gset N }.

Definition new : StripedLocks := mkLocks ∅.

Section Locks.
Context {H : HasherOps} {E : Type}.

Definition stripe_index (storage_key : bytes) : N := (hash_finish storage_key mod WRITE_LOCK_STRIPES)%N.

(** Locking one mutex: the guard is the stripe, a poisoned mutex is an error. *)
Definition lock (l : StripedLocks) (idx : N) : result N (FjallError E) :=
  if bool_decide (idx ∈ poisoned l) then Err (Adapter (bs "write lock poisoned")) else Ok idx.

Definition lock_for (l : StripedLocks) (storage_key : bytes) : result N (FjallError E) :=
  let idx := stripe_index storage_key in lock l idx.

(** [Vec::dedup]: drops consecutive repetitions. *)
Fixpoint dedup (l : list N) : list N :=
  match l with
  | x :: (y :: _) as l' => if decide (x = y) then dedup l' else x :: dedup l'
  | _ => l
  end.

(** The stripes to lock, in the order they are locked. *)
Definition stripes (storage_keys : list bytes) : list N :=
  dedup (merge_sort N.le (stripe_index <$> storage_keys)).

Fixpoint lock_all (l : StripedLocks) (idxs : list N) : result (list N) (FjallError E) :=
  match idxs with
  | [] => Ok []
  | idx :: idxs' => let? g := lock l idx in let? gs := lock_all l idxs' in Ok (g :: gs)
  end.

Definition lock_stripes_for_keys (l : StripedLocks) (storage_keys : list bytes)
  : result (list N) (FjallError E) := lock_all l (stripes storage_keys).

(** ** Facts *)

Lemma stripe_index_bound k : (stripe_index k < WRITE_LOCK_STRIPES)%N.
Proof. apply N.mod_lt. done. Qed.

Lemma dedup_cons2 x y l :
  dedup (x :: y :: l) = if decide (x = y) then dedup (y :: l) else x :: dedup (y :: l).
Proof. done. Qed.

Lemma elem_of_dedup x l : x ∈ dedup l ↔ x ∈ l.
Proof.
  induction l as [|a l IH]; [done|]. destruct l as [|b l]; [done|].
  rewrite dedup_cons2. case_decide as Hd.
  - subst. rewrite IH. rewrite !elem_of_cons. tauto.
  - rewrite elem_of_cons, IH, (elem_of_cons (b :: l)). tauto.
Qed.

(** Removing repetitions from a sorted vector makes it strictly increasing. *)
Lemma dedup_sorted l : StronglySorted N.le l → StronglySorted N.lt (dedup l).
Proof.
  induction l as [|a l IH]; intros Hs; [constructor|].
  inversion Hs as [|? ? Hs' Hf]; subst. destruct l as [|b l]; [repeat constructor|].
  rewrite dedup_cons2. case_decide as Hd; [by apply IH|]. constructor; [by apply IH|].
  apply list.Forall_forall. intros x Hx. rewrite elem_of_dedup in Hx.
  inversion Hf as [|? ? Hab Hf']; subst. inversion Hs' as [|? ? _ Hf'']; subst.
  rewrite list.Forall_forall in Hf''.
  apply elem_of_cons in Hx as [->|Hx]; [lia|]. specialize (Hf'' x Hx). lia.
Qed.

Lemma stripes_sorted ks : StronglySorted N.lt (stripes ks).
Proof. apply dedup_sorted, StronglySorted_merge_sort; apply _. Qed.

Lemma elem_of_stripes ks x : x ∈ stripes ks ↔ ∃ k, k ∈ ks ∧ x = stripe_index k.
Proof.
  unfold stripes. rewrite elem_of_dedup, merge_sort_Permutation, list_elem_of_fmap.
  naive_solver.
Qed.

Lemma lock_all_ok l idxs gs :
  lock_all l idxs = Ok gs ↔ gs = idxs ∧ Forall (λ i, i ∉ poisoned l) idxs.
Proof.
  revert gs. induction idxs as [|i idxs IH]; intros gs; simpl.
  - split; [intros [= <-]; by split|by intros [-> _]].
  - unfold lock. case_bool_decide as Hp; simpl.
    + split; [done|]. intros [_ [? _]%list.Forall_cons]. done.
    + destruct (lock_all l idxs) as [gs'|] eqn:El; simpl.
      * destruct (proj1 (IH gs') eq_refl) as [-> Hf]. split.
        -- intros [= <-]. split; [done|]. by apply list.Forall_cons.
        -- by intros [-> _].
      * split; [done|]. intros [-> [_ Hf]%list.Forall_cons].
        assert (Err e = Ok idxs) as Hx by (by apply IH). done.
Qed.

Lemma lock_stripes_healthy ks : lock_stripes_for_keys new ks = Ok (stripes ks).
Proof.
  apply lock_all_ok. split; [done|]. apply list.Forall_forall. intros x _. set_solver.
Qed.

End Locks.

End Locks.

(** ** Acquisition by concurrent threads *)

Module Acquire.

(** A thread holds some stripes and has the rest of its acquisition loop ahead. *)
Record thread : Type := mkThread { held : list N; todo : list N }.

Definition finished (t : thread) : Prop := held t = [] ∧ todo t = [].

(** One scheduling step: a thread locks its next stripe if no thread holds it, or, with its
    critical section over, drops its first guard. *)
Inductive step (ts : list thread) : list thread → Prop :=
| step_lock i t x rest :
    ts !! i = Some t → todo t = x :: rest →
    (∀ j t', ts !! j = Some t' → x ∉ held t') →
    step ts (<[i := mkThread (held t ++ [x]) rest]> ts)
| step_unlock i t x rest :
    ts !! i = Some t → todo t = [] → held t = x :: rest →
    step ts (<[i := mkThread rest []]> ts).

(** Each thread takes its stripes in increasing order. *)
Definition ordered (t : thread) : Prop := StronglySorted N.lt (held t ++ todo t).

Definition ordered_threads (ts : list thread) : Prop := Forall ordered ts.

(** Mutual exclusion. *)
Definition exclusive (ts : list thread) : Prop :=
  ∀ i j t t' x, ts !! i = Some t → ts !! j = Some t' → x ∈ held t → x ∈ held t' → i = j.

Definition start (plans : list (list N)) : list thread := mkThread [] <$> plans.

Lemma sorted_tail (l : list N) x r : StronglySorted N.lt ((x :: l) ++ r) → StronglySorted N.lt (l ++ r).
Proof. simpl. intros Hs. by inversion Hs. Qed.

Lemma step_ordered ts ts' : step ts ts' → ordered_threads ts → ordered_threads ts'.
Proof.
  intros [i t x rest Hi Ht _|i t x rest Hi Ht Hh] Ho; apply Forall_insert; try done.
  - assert (ordered t) as Hot by (eapply Forall_lookup_1; eauto).
    unfold ordered in *. rewrite Ht in Hot. simpl. by rewrite <- app_assoc.
  - assert (ordered t) as Hot by (eapply Forall_lookup_1; eauto).
    unfold ordered in *. rewrite Ht, Hh in Hot. by eapply sorted_tail.
Qed.

Lemma step_exclusive ts ts' :
  step ts ts' → ordered_threads ts → exclusive ts → exclusive ts'.
Proof.
  intros [i t x rest Hi Ht Hfree|i t x rest Hi Ht Hh] _ He a b ta tb y Ha Hb Hya Hyb.
  - apply list_lookup_insert_Some in Ha as [(<- & <- & _)|[Hia Ha]];
      apply list_lookup_insert_Some in Hb as [(<- & <- & _)|[Hib Hb]]; simpl in *;
      rewrite ?elem_of_app, ?list_elem_of_singleton in *; try done.
    + destruct Hya as [Hya| ->]; [by eapply He|]. by destruct (Hfree b tb Hb).
    + destruct Hyb as [Hyb| ->]; [by eapply He|]. by destruct (Hfree a ta Ha).
    + by eapply He.
  - assert (∀ y, y ∈ rest → y ∈ held t) as Hsub by (intros z Hz; rewrite Hh; set_solver).
    apply list_lookup_insert_Some in Ha as [(<- & <- & _)|[Hia Ha]];
      apply list_lookup_insert_Some in Hb as [(<- & <- & _)|[Hib Hb]]; simpl in *; try done.
    + by eapply (He i b t tb); eauto.
    + by eapply (He a i ta t); eauto.
    + by eapply He.
Qed.

(** Some thread holds the largest held stripe. *)
Lemma largest_held (ts : list thread) :
  (∀ i t, ts !! i = Some t → held t = [])
  ∨ ∃ i t x, ts !! i = Some t ∧ x ∈ held t ∧ ∀ j t' y, ts !! j = Some t' → y ∈ held t' → (y <= x)%N.
Proof.
  assert (∀ l : list N, l = [] ∨ ∃ x, x ∈ l ∧ ∀ y, y ∈ l → (y <= x)%N) as Hmax.
  { intros l. induction l as [|a l IH]; [by left|]. right.
    destruct IH as [->|(x & Hx & Hy)]; [exists a; set_solver by lia|].
    destruct (N.le_ge_cases a x).
    - exists x. split; [set_solver|]. intros y [->|?]%elem_of_cons; auto.
    - exists a. split; [set_solver|]. intros y [->|?]%elem_of_cons; [lia|].
      specialize (Hy y ltac:(done)). lia. }
  destruct (Hmax (ts ≫= held)) as [He|(x & Hx & Hy)].
  - left. intros i t Hi. destruct (held t) as [|y h] eqn:Eh; [done|].
    exfalso. apply (not_elem_of_nil y). rewrite <- He. apply list_elem_of_bind.
    exists t. split; [rewrite Eh; set_solver|]. by eapply list_elem_of_lookup_2.
  - right. apply list_elem_of_bind in Hx as (t & Ht & Hin).
    apply list_elem_of_lookup in Hin as [i Hi]. exists i, t, x. split; [done|]. split; [done|].
    intros j t' y Hj Hyt. apply Hy, list_elem_of_bind. exists t'.
    split; [done|]. by eapply list_elem_of_lookup_2.
Qed.

Lemma progress ts :
  ordered_threads ts → ¬ Forall finished ts → ∃ ts', step ts ts'.
Proof.
  intros Ho Hnf.
  destruct (decide (Exists (λ t, todo t = [] ∧ held t ≠ []) ts)) as [Hex|Hno].
  { apply list.Exists_exists in Hex as (t & Hin & Ht & Hh).
    apply list_elem_of_lookup in Hin as [i Hi]. destruct (held t) as [|x r] eqn:Eh; [done|].
    eexists. by eapply step_unlock. }
  assert (∀ i t, ts !! i = Some t → todo t = [] → held t = []) as Hdone.
  { intros i t Hi Ht. destruct (decide (held t = [])) as [|Hh]; [done|]. exfalso. apply Hno.
    apply list.Exists_exists. exists t. split; [by eapply list_elem_of_lookup_2|done]. }
  destruct (largest_held ts) as [Hnone|(i & t & x & Hi & Hx & Hmax)].
  - assert (¬ Forall (λ t, todo t = []) ts) as Hsome.
    { intros Hall. apply Hnf, list.Forall_forall. intros t Hin.
      apply list_elem_of_lookup in Hin as [i Hi]. rewrite Forall_lookup in Hall.
      split; [by eapply Hnone|by eapply Hall]. }
    apply not_Forall_Exists in Hsome; [|intros t; destruct (decide (todo t = [])); [by left|by right]].
    apply list.Exists_exists in Hsome as (t & Hin & Ht).
    apply list_elem_of_lookup in Hin as [i Hi]. destruct (todo t) as [|y r] eqn:Et; [done|].
    eexists. eapply step_lock; [done|done|].
    intros j t' Hj. rewrite (Hnone j t' Hj). apply not_elem_of_nil.
  - destruct (todo t) as [|y r] eqn:Et.
    { rewrite (Hdone i t Hi Et) in Hx. by apply not_elem_of_nil in Hx. }
    assert (ordered t) as Hot by (eapply Forall_lookup_1; eauto).
    eexists. eapply step_lock; [done|done|]. intros j t' Hj Hy.
    specialize (Hmax j t' y Hj Hy). unfold ordered in Hot. rewrite Et in Hot.
    apply StronglySorted_app_inv in Hot as [Hlt _]. rewrite list.Forall_forall in Hlt.
    specialize (Hlt x Hx). lia.
Qed.

(** Work left: two units per stripe to take, one per stripe to release. *)
Definition work (ts : list thread) : nat :=
  sum_list ((λ t, length (held t) + 2 * length (todo t))%nat <$> ts).

Lemma sum_list_insert (f : thread → nat) ts i t t' :
  ts !! i = Some t →
  (sum_list (f <$> <[i := t']> ts) + f t = sum_list (f <$> ts) + f t')%nat.
Proof.
  revert i. induction ts as [|a ts IH]; intros [|i] Hi; simplify_eq/=; [lia|].
  specialize (IH i Hi). lia.
Qed.

Lemma step_work ts ts' : step ts ts' → (work ts' < work ts)%nat.
Proof.
  intros [i t x rest Hi Ht _|i t x rest Hi Ht Hh]; unfold work.
  - pose proof (sum_list_insert (λ t, length (held t) + 2 * length (todo t))%nat ts i t
      (mkThread (held t ++ [x]) rest) Hi) as Hs.
    cbn [held todo] in Hs. rewrite Ht, length_app in Hs. simpl in *. lia.
  - pose proof (sum_list_insert (λ t, length (held t) + 2 * length (todo t))%nat ts i t
      (mkThread rest []) Hi) as Hs.
    cbn [held todo] in Hs. rewrite Ht, Hh in Hs. simpl in *. lia.
Qed.

Lemma start_ordered plans : Forall (StronglySorted N.lt) plans → ordered_threads (start plans).
Proof. intros Hp. unfold ordered_threads, start. by apply Forall_fmap. Qed.

Lemma start_exclusive plans : exclusive (start plans).
Proof.
  intros i j t t' x Hi _ Hx _. unfold start in Hi. rewrite list_lookup_fmap in Hi.
  destruct (plans !! i); simplify_eq/=. by apply not_elem_of_nil in Hx.
Qed.

Lemma reachable_inv plans ts :
  Forall (StronglySorted N.lt) plans → rtc step (start plans) ts →
  ordered_threads ts ∧ exclusive ts.
Proof.
  intros Hp Hr. apply (rtc_ind_r (R := step) (λ ts, ordered_threads ts ∧ exclusive ts) (start plans));
    [|intros a b _ Hs [H1 H2]|done].
  - split; [by apply start_ordered|apply start_exclusive].
  - split; [by eapply step_ordered|by eapply step_exclusive].
Qed.

Lemma work_bound n ts ts' : nsteps step n ts ts' → (n + work ts' <= work ts)%nat.
Proof. induction 1 as [|n x y z Hs _ IH]; [lia|]. apply step_work in Hs. lia. Qed.

End Acquire.

(** ** Properties *)

(** The guards a batch takes are the stripes of its keys, each once and in increasing order;
    so the batch holds the very stripe that a single-key writer of any of its keys has to lock. *)
Theorem batch_locks_cover {H : HasherOps} {E : Type} (l : Locks.StripedLocks) (ks : list bytes)
    (gs : list N) :
  Locks.lock_stripes_for_keys (E := E) l ks = Ok gs →
  StronglySorted N.lt gs
  ∧ (∀ k, k ∈ ks → Locks.lock_for (E := E) l k = Ok (Locks.stripe_index k)
                   ∧ Locks.stripe_index k ∈ gs)
  ∧ Forall (λ i, (i < Locks.WRITE_LOCK_STRIPES)%N ∧ ∃ k, k ∈ ks ∧ i = Locks.stripe_index k) gs.
Proof.
  intros [-> Hf]%Locks.lock_all_ok. rewrite list.Forall_forall in Hf.
  split; [apply Locks.stripes_sorted|split].
  - intros k Hk. assert (Locks.stripe_index k ∈ Locks.stripes ks) as Hin.
    { apply Locks.elem_of_stripes. by exists k. }
    split; [|done]. unfold Locks.lock_for, Locks.lock. by rewrite bool_decide_eq_false_2; auto.
  - apply list.Forall_forall. intros i (k & Hk & ->)%Locks.elem_of_stripes.
    split; [apply Locks.stripe_index_bound|by exists k].
Qed.

(** A concrete hash for examples: the sum of the bytes. *)
#[global] Instance sum_hasher : HasherOps :=
  { hash_finish k := foldr (λ b a, (Byte.to_N b + a)%N) 0%N k }.

Lemma batch_locks_cover_witness :
  Locks.lock_for (E := unit) Locks.new (bs "b:k") = Ok (Locks.stripe_index (bs "b:k")).
Proof.
  destruct (batch_locks_cover (E := unit) Locks.new [bs "b:k"; bs "b:a"; bs "b:k"]
    (Locks.stripes [bs "b:k"; bs "b:a"; bs "b:k"])) as (_ & Hk & _).
  - by vm_compute.
  - apply Hk. apply elem_of_cons. by left.
Defined.

(** Writers cannot deadlock. Threads that each take the stripes of their keys the way
    [lock_stripes_for_keys] and [lock_for] do, interleaved in any order, never hold the same
    stripe twice, can always make a step unless all have released their locks, and make only a
    bounded number of steps: every schedule ends with all threads finished. *)
Theorem striped_locking_no_deadlock {H : HasherOps} (keys : list (list bytes))
    (ts : list Acquire.thread) :
  rtc Acquire.step (Acquire.start (Locks.stripes <$> keys)) ts →
  Acquire.exclusive ts
  ∧ (Forall Acquire.finished ts ∨ ∃ ts', Acquire.step ts ts')
  ∧ ∀ n ts', nsteps Acquire.step n ts ts' → (n <= Acquire.work ts)%nat.
Proof.
  intros Hr. apply Acquire.reachable_inv in Hr as [Ho He]; last first.
  { apply Forall_fmap, Forall_true. intros ks. apply Locks.stripes_sorted. }
  split; [done|split].
  - destruct (decide (Forall (λ t, Acquire.held t = [] ∧ Acquire.todo t = []) ts)); [by left|].
    right. by apply Acquire.progress.
  - intros n ts' Hn. apply Acquire.work_bound in Hn. lia.
Qed.

Lemma striped_locking_no_deadlock_witness :
  ∃ ts', Acquire.step (Acquire.start (Locks.stripes <$> [[bs "b:k"; bs "b:a"]; [bs "b:a"]])) ts'.
Proof.
  destruct (striped_locking_no_deadlock [[bs "b:k"; bs "b:a"]; [bs "b:a"]]
    (Acquire.start (Locks.stripes <$> [[bs "b:k"; bs "b:a"]; [bs "b:a"]]))) as (_ & [Hf|Hs] & _).
  - apply rtc_refl.
  - exfalso. inversion Hf as [|? ? [_ Ht] _]; subst. vm_compute in Ht. discriminate Ht.
  - exact Hs.
Defined.
