(* ===== verification/Store.v ===== *)
(** * [keydock-fjall/src/store.rs] and [error.rs]: the Fjall adapter

    [FjallStore] is the state the adapter works on: the database, the lock stripes, the test
    switch of the [testkit] build (false in production) and the metrics registry, kept as the
    sequence of counter increments. Every method of the two repository traits is one definition;
    [qm] is the [?] operator that turns an adapter error into a [UseCaseError] and counts it. *)

From Stdlib Require Import Strings.Byte.
From S2P Require Import Prelude RustStd TimeLib Domain Counter Ports Codec FjallLib Locks.

(** [size_of::<ListEntry>()]: Rust leaves the layout of a struct unspecified. *)
Class LayoutOps : Type := { size_of_ListEntry : N }.

(** A list entry owns a key, so it is not zero-sized. *)
Class LayoutLaws (L : LayoutOps) : Prop := { size_of_ListEntry_pos : (0 < size_of_ListEntry)%N }.

#[global] Instance layout64 : LayoutOps := { size_of_ListEntry := 72 }.

#[global] Instance layout64_laws : LayoutLaws layout64.
Proof. by split. Qed.

(** Increments of the Prometheus counters. *)
Inductive metric : Type :=
| storage_ops_total (op result : bytes)
| storage_errors_total (kind : bytes)
| gc_keys_expired_total (n : N).

#[global] Instance metric_eq_dec : EqDecision metric.
Proof. solve_decision. Defined.

Module Store.

Section Store.
Context {T : TimeOps} {P : PostcardOps} {J : PolicyJsonOps} {F : FjallOps} {H : HasherOps}
        {L : LayoutOps}.

Record FjallStore : Type := mkStore {
  db : Database;
  write_locks : Locks.StripedLocks;
  fail_ping_metadata : bool;
  metrics : list metric;
}.

Definition set_db (d : Database) (s : FjallStore) : FjallStore :=
  mkStore d (write_locks s) (fail_ping_metadata s) (metrics s).

Definition record (m : metric) (s : FjallStore) : FjallStore :=
  mkStore (db s) (write_locks s) (fail_ping_metadata s) (metrics s ++ [m]).

Abbreviation op A := (comp FjallStore A UseCaseError).

(** ** [error.rs] *)

Definition kind_label (e : FjallError fjall_error) : bytes :=
  match e with
  | FjallBackend _ => bs "backend"
  | Adapter _ => bs "adapter"
  | Codec _ => bs "codec_entry"
  end.

Definition display (e : FjallError fjall_error) : bytes :=
  match e with
  | FjallBackend e => fjall_display e
  | Adapter m => bs "storage adapter error: " ++ m
  | Codec m => bs "storage codec error: " ++ m
  end.

Definition record_storage_error (kind : bytes) : FjallStore → FjallStore :=
  record (storage_errors_total kind).

(** [impl From<FjallError> for UseCaseError], under [?]. *)
Definition qm {A} (r : result A (FjallError fjall_error)) : op A :=
  λ s, match r with
       | Ok a => (Ret (Ok a), s)
       | Err e => (Ret (Err (Storage (display e))), record_storage_error (kind_label e) s)
       end.

(** [impl From<CodecError> for UseCaseError], under [?]. *)
Definition qm_policy {A} (r : result A bytes) : op A :=
  λ s, match r with
       | Ok a => (Ret (Ok a), s)
       | Err e => (Ret (Err (Storage e)), record_storage_error (bs "codec_policy") s)
       end.

(** A backend call followed by [.map_err(FjallError::from)?]. *)
Definition on_db {A} (f : Database → result A fjall_error * Database) : op A :=
  λ s, let '(r, d) := f (db s) in qm (map_err FjallBackend r) (set_db d s).

(** ** Metrics of an operation *)

Definition record_storage_op {A} (name : bytes) (r : result A UseCaseError) : FjallStore → FjallStore :=
  let label := if is_ok r then bs "ok" else bs "err" in
  record (storage_ops_total name label).

Definition recorded {A} (name : bytes) (m : op A) : op A :=
  λ s, match m s with
       | (Ret r, s') => (Ret r, record_storage_op name r s')
       | (Panic, s') => (Panic, s')
       end.

(** ** Opening *)

(** [FjallStore::open] on an opened database: the keyspaces exist from here on. *)
Definition open (opened : result Database fjall_error) : result FjallStore (FjallError fjall_error) :=
  let? d := map_err FjallBackend opened in
  Ok (mkStore d Locks.new false []).

Definition testkit_set_fail_ping_metadata (fail : bool) (s : FjallStore) : FjallStore :=
  mkStore (db s) (write_locks s) fail (metrics s).

Definition testkit_write_raw (b : BucketId) (k : Key) (raw : bytes) (s : FjallStore)
  : result unit (FjallError fjall_error) * FjallStore :=
  let storage_key := Layout.data_storage_key b k in
  let '(r, d) := ks_insert Data storage_key raw (db s) in
  (map_err FjallBackend r, set_db d s).

(** ** [BucketRepository] *)

Definition ping_metadata : op unit :=
  λ s,
    if fail_ping_metadata s then
      let r := Err (Storage (bs "testkit ping failure")) in
      (Ret r, record_storage_op (bs "ping_metadata") r s)
    else
      recorded (bs "ping_metadata")
        (let! _ := on_db (ks_get Meta (bs "__ping__")) in comp_ret tt) s.

Definition get_policy (b : BucketId) : op (option BucketPolicy) :=
  let key := as_str b in
  let! o := on_db (ks_get Meta key) in
  match o with
  | Some l => let! p := qm_policy (decode_policy l) in comp_ret (Some p)
  | None => comp_ret None
  end.

Definition create_bucket (id : BucketId) (policy : BucketPolicy) : op unit :=
  let key := as_str id in
  let! l := qm_policy (encode_policy policy) in
  let! _ := on_db (ks_insert Meta key l) in
  comp_ret tt.

Definition delete_bucket (id : BucketId) : op unit :=
  let key := as_str id in
  let! _ := on_db (ks_remove Meta key) in
  comp_ret tt.

(** ** [KeyRepository] *)

(** Takes the stripe of a storage key; the guard lives until the operation returns. *)
Definition guard (storage_key : bytes) : op unit :=
  λ s, (let! _ := qm (Locks.lock_for (write_locks s) storage_key) in comp_ret tt) s.

Definition get (b : BucketId) (k : Key) : op (option StoredEntry) :=
  recorded (bs "get") (
    let k := Layout.data_storage_key b k in
    let! o := on_db (ks_get Data k) in
    match o with
    | None => comp_ret None
    | Some l => let! entry := qm (decode_entry l) in comp_ret (Some entry)
    end).

(** Writes the encoded entry, with its index key in the same batch when it expires. *)
Definition write_entry (k : bytes) (l : bytes) (expires_at : option OffsetDateTime) : op unit :=
  match expires_at with
  | Some exp =>
    let idx := ExpiryIndex.expiry_index_key (unix_timestamp exp) k in
    on_db (batch_commit [BatchInsert Data k l; BatchInsert Expiry idx []])
  | None => on_db (ks_insert Data k l)
  end.

Definition set (b : BucketId) (k : Key) (v : StoredValue) (expires_at : option OffsetDateTime)
  : op unit :=
  recorded (bs "set") (
    let k := Layout.data_storage_key b k in
    let! _ := guard k in
    let! l := qm (encode_entry v expires_at) in
    let! _ := write_entry k l expires_at in
    comp_ret tt).

Definition delete (b : BucketId) (k : Key) : op bool :=
  recorded (bs "delete") (
    let k := Layout.data_storage_key b k in
    let! _ := guard k in
    let! existed := on_db (ks_contains_key Data k) in
    let! _ := if existed : bool then on_db (ks_remove Data k) else comp_ret tt in
    comp_ret existed).

Definition increment (now : OffsetDateTime) (b : BucketId) (k : Key) (o : Counter.CounterOp)
    (expires_at : option OffsetDateTime) : op StoredValue :=
  recorded (bs "increment") (
    let k := Layout.data_storage_key b k in
    let! _ := guard k in
    let! found := on_db (ks_get Data k) in
    let! current :=
      match found with
      | None => comp_ret (Counter.ValInt 0)
      | Some l =>
        let! entry := qm (decode_entry l) in
        if match Ports.expires_at entry with Some exp => odt_leb exp now | None => false end
        then comp_ret (Counter.ValInt 0)
        else comp_lift (from_domain (Counter.from_stored (value entry)))
      end in
    let! merged := comp_lift (from_domain (Counter.apply o current)) in
    let! stored := comp_lift (from_domain (Counter.into_stored merged)) in
    let! l := qm (encode_entry stored expires_at) in
    let! _ := write_entry k l expires_at in
    comp_ret stored).

(** *** Batches *)

Inductive BatchItem : Type :=
| ItemSet (storage_key l : bytes) (idx : option bytes)
| ItemDelete (storage_key : bytes).

Definition item_storage_key (it : BatchItem) : bytes :=
  match it with ItemSet k _ _ | ItemDelete k => k end.

Definition batch_item (b : BucketId) (o : TxnOp) : result BatchItem (FjallError fjall_error) :=
  match o with
  | TxnSet key v expires_at =>
    let storage_key := Layout.data_storage_key b key in
    let idx := (λ exp, ExpiryIndex.expiry_index_key (unix_timestamp exp) storage_key)
                 <$> expires_at in
    let? l := encode_entry v expires_at in
    Ok (ItemSet storage_key l idx)
  | TxnDelete key => Ok (ItemDelete (Layout.data_storage_key b key))
  end.

Fixpoint batch_items (b : BucketId) (ops : list TxnOp)
  : result (list BatchItem) (FjallError fjall_error) :=
  match ops with
  | [] => Ok []
  | o :: ops' => let? it := batch_item b o in let? its := batch_items b ops' in Ok (it :: its)
  end.

Definition item_writes (it : BatchItem) : list batch_op :=
  match it with
  | ItemSet k l idx =>
    BatchInsert Data k l :: match idx with Some i => [BatchInsert Expiry i []] | None => [] end
  | ItemDelete k => [BatchRemove Data k]
  end.

Definition apply_batch (b : BucketId) (ops : list TxnOp) : op unit :=
  recorded (bs "apply_batch") (
    if bool_decide (ops = []) then comp_ret tt
    else
      let! items := qm (batch_items b ops) in
      let! _ := (λ s, qm (Locks.lock_stripes_for_keys (write_locks s)
                            (item_storage_key <$> items)) s) in
      let! _ := on_db (batch_commit (items ≫= item_writes)) in
      comp_ret tt).

(** *** Listing *)

(** The body of the scan loops: [None] is [continue]. *)
Definition list_item (b : BucketId) (opts : ListOpts) (kv : bytes * bytes)
  : result (option ListEntry) (FjallError fjall_error) :=
  let cutoff_unix := unix_timestamp <$> expires_before opts in
  let (storage_key, uv) := kv in
  match Layout.user_key_from_storage_key storage_key b with
  | None => Ok None
  | Some user_key =>
    if include_values opts then
      let? entry := decode_entry uv in
      match expires_before opts, Ports.expires_at entry with
      | Some cutoff, Some exp =>
        if odt_leb exp cutoff then Ok None
        else Ok (Some (mkListEntry user_key (Some (value entry))))
      | _, _ => Ok (Some (mkListEntry user_key (Some (value entry))))
      end
    else
      let? expires_unix := decode_entry_expires_unix uv in
      match cutoff_unix, expires_unix with
      | Some cutoff, Some exp =>
        if exp <=? cutoff then Ok None else Ok (Some (mkListEntry user_key None))
      | _, _ => Ok (Some (mkListEntry user_key None))
      end
  end.

(** [while deque.len() > window { deque.pop_front(); }] *)
Fixpoint pop_to (window : N) (deque : list ListEntry) : list ListEntry :=
  match deque with
  | [] => []
  | _ :: rest => if (window <? N.of_nat (length deque))%N then pop_to window rest else deque
  end.

Fixpoint reverse_loop (b : BucketId) (opts : ListOpts) (window : N)
    (guards : list (result (bytes * bytes) fjall_error)) (deque : list ListEntry)
  : op (list ListEntry) :=
  match guards with
  | [] => comp_ret deque
  | g :: guards' =>
    let! kv := qm (map_err FjallBackend g) in
    let! o := qm (list_item b opts kv) in
    match o with
    | None => reverse_loop b opts window guards' deque
    | Some e => reverse_loop b opts window guards' (pop_to window (deque ++ [e]))
    end
  end.

Fixpoint forward_loop (b : BucketId) (opts : ListOpts)
    (guards : list (result (bytes * bytes) fjall_error)) (skip_remaining taken : N)
    (out : list ListEntry) : op (list ListEntry) :=
  match guards with
  | [] => comp_ret out
  | g :: guards' =>
    if (limit opts <=? taken)%N then comp_ret out
    else
      let! kv := qm (map_err FjallBackend g) in
      let! o := qm (list_item b opts kv) in
      match o with
      | None => forward_loop b opts guards' skip_remaining taken out
      | Some e =>
        if (0 <? skip_remaining)%N
        then forward_loop b opts guards' (skip_remaining - 1) taken out
        else forward_loop b opts guards' skip_remaining (taken + 1) (out ++ [e])
      end
  end.

Definition scan_data (prefix : bytes) : op (list (result (bytes * bytes) fjall_error)) :=
  λ s, let '(guards, d) := ks_prefix Data prefix (db s) in (Ret (Ok guards), set_db d s).

Definition list_inner (b : BucketId) (opts : ListOpts) : op (list ListEntry) :=
  if (limit opts =? 0)%N then comp_ret []
  else
    let scan_prefix := Layout.data_key_prefix b (prefix opts) in
    if reverse opts then
      let window := Usize.saturating_add (skip opts) (limit opts) in
      if (window =? 0)%N then comp_ret []
      else if Usize.with_capacity_panics size_of_ListEntry window then λ s, (Panic, s)
      else
        let! guards := scan_data scan_prefix in
        let! deque := reverse_loop b opts window guards [] in
        comp_ret (take (N.to_nat (limit opts))
                    (drop (N.to_nat (skip opts)) (list.reverse deque)))
    else
      let! guards := scan_data scan_prefix in
      forward_loop b opts guards (skip opts) 0 [].

Definition list (b : BucketId) (opts : ListOpts) : op (Datatypes.list ListEntry) :=
  recorded (bs "list") (list_inner b opts).

End Store.

End Store.
