(* ===== verification/StoreSpec.v ===== *)
(** * The Fjall adapter implements the repository contracts

    The abstract state of the adapter (the entry behind each bucket and key, the policy behind
    each bucket), the invariant relating the [data] and [expiry] keyspaces, and the proofs that
    every operation of [Store] has the behaviour [KeyRepoSpec] and [BucketRepoSpec] promise.
    Backend failures are part of the statements: a failed write has taken effect as a whole or
    not at all, so the invariant survives it. *)

From Stdlib Require Import Strings.Byte.
From S2P Require Import Prelude RustStd TimeLib Domain Counter Ports Codec FjallLib Locks Store.
Import Store.

Section Spec.
Context {T : TimeOps} {P : PostcardOps} {J : PolicyJsonOps} {F : FjallOps} {H : HasherOps}
        {L : LayoutOps}.

(** ** Abstract state *)

Abbreviation op A := (comp FjallStore A UseCaseError).
Abbreviation store_map := (keyspace → gmap bytes bytes).

Definition cont (s : FjallStore) : store_map := contents (db s).

Definition decoded (l : bytes) : option StoredEntry := result_ok (decode_entry (E := fjall_error) l).

Definition view_map (m : store_map) (b : BucketId) (k : Key) : option StoredEntry :=
  m Data !! Layout.data_storage_key b k ≫= decoded.

Definition view (s : FjallStore) : BucketId → Key → option StoredEntry := view_map (cont s).

(** Every record of the data keyspace decodes. *)
Definition data_wf (m : store_map) : Prop :=
  ∀ sk l, m Data !! sk = Some l → sk ≠ [] ∧ is_Some (decoded l).

(** Every record that expires is in the index under its expiry. *)
Definition index_complete (m : store_map) : Prop :=
  ∀ sk l ts, m Data !! sk = Some l →
    decode_entry_expires_unix (E := fjall_error) l = Ok (Some ts) →
    is_Some (m Expiry !! ExpiryIndex.expiry_index_key ts sk).

Definition inv_map (m : store_map) : Prop := data_wf m ∧ index_complete m.

Definition store_inv (s : FjallStore) : Prop := inv_map (cont s).

Definition store_good (s : FjallStore) : Prop :=
  healthy (db s) ∧ Locks.poisoned (write_locks s) = ∅ ∧ store_inv s.

(** ** Postconditions *)

(** What no operation touches. *)
Definition framed (s s' : FjallStore) : Prop :=
  write_locks s' = write_locks s ∧ fail_ping_metadata s' = fail_ping_metadata s
  ∧ (healthy (db s) → healthy (db s')).

Definition applied (s s' : FjallStore) (ws : Datatypes.list batch_op) : Prop :=
  ∀ ks, cont s' ks = apply_writes (cont s) ws ks.

(** [post s good W D r s']: an answer [a] comes with writes [ws] such that [W a ws]; an error
    allowed by [D] leaves the store unchanged; any other error is a storage error, happens only
    outside [good], and leaves either nothing or all the writes of some answer. *)
Definition post {A} (s : FjallStore) (good : Prop) (W : A → Datatypes.list batch_op → Prop)
    (D : UseCaseError → Prop) (r : exec (result A UseCaseError)) (s' : FjallStore) : Prop :=
  framed s s' ∧
  match r with
  | Ret (Ok a) => ∃ ws, W a ws ∧ applied s s' ws
  | Ret (Err e) =>
    (D e ∧ applied s s' [])
    ∨ (is_Some (match e with Storage m => Some m | _ => None end) ∧ ¬ good
       ∧ ∃ ws, (ws = [] ∨ ∃ a, W a ws) ∧ applied s s' ws)
  | Panic => False
  end.

Abbreviation no_error := (λ _ : UseCaseError, False).

Lemma framed_refl s : framed s s.
Proof. done. Qed.

Lemma framed_trans s s1 s2 : framed s s1 → framed s1 s2 → framed s s2.
Proof. unfold framed. intros (-> & -> & H1) (-> & -> & H2). auto. Qed.

Lemma applied_refl s : applied s s [].
Proof. done. Qed.

Lemma applied_trans s s1 s2 ws : applied s s1 [] → applied s1 s2 ws → applied s s2 ws.
Proof. intros H1 H2 ks. rewrite H2. apply apply_writes_ext. intros ks'. by rewrite H1. Qed.

Lemma applied_nil_r s s1 s2 ws : applied s s1 ws → applied s1 s2 [] → applied s s2 ws.
Proof. intros H1 H2 ks. rewrite H2. apply H1. Qed.

Lemma record_framed m s : framed s (record m s) ∧ applied s (record m s) [].
Proof. done. Qed.

Lemma post_mono {A} s (good good' : Prop) (W W' : A → Datatypes.list batch_op → Prop) D D' r s' :
  post s good W D r s' → (good' → good) → (∀ a ws, W a ws → W' a ws) → (∀ e, D e → D' e) →
  post s good' W' D' r s'.
Proof.
  intros [Hf Hr] Hg HW HD. split; [done|]. destruct r as [[a|e]|]; [naive_solver| |done].
  destruct Hr as [[? ?]|(? & ? & ws & Hws & ?)]; [left; auto|right].
  split; [done|]. split; [auto|]. exists ws. split; [|done]. destruct Hws as [?|[a ?]]; eauto.
Qed.

(** The rule for [?]: a first step that only reads, then the rest. *)
Lemma wp_step {A B} s (good : Prop) (m : op A) (f : A → op B) R W (D : UseCaseError → Prop) :
  wp m s (post s good (λ a ws, ws = [] ∧ R a) D) →
  (∀ a s1, R a → framed s s1 → applied s s1 [] → wp (f a) s1 (post s1 good W D)) →
  wp (comp_bind m f) s (post s good W D).
Proof.
  intros Hm Hf. apply wp_bind. eapply wp_mono; [exact Hm|]. clear Hm.
  intros [[a|e]|] s1 [Hfr Hr].
  - destruct Hr as (ws & [-> HR] & Ha). eapply wp_mono; [by apply Hf|].
    intros r s2 [Hfr2 Hr2]. split; [by eapply framed_trans|].
    destruct r as [[b|e]|]; [| |done].
    + destruct Hr2 as (ws & HW & Ha2). exists ws. split; [done|]. by eapply applied_trans.
    + destruct Hr2 as [[HD Ha2]|(Hs & Hn & ws & Hws & Ha2)]; [left|right].
      * split; [done|]. by eapply applied_trans.
      * split; [done|]. split; [done|]. exists ws. split; [done|]. by eapply applied_trans.
  - split; [done|]. destruct Hr as [?|(Hs & Hn & ws & Hws & Ha)]; [by left|right].
    split; [done|]. split; [done|]. exists []. split; [by left|].
    destruct Hws as [->|(? & -> & _)]; done.
  - by destruct Hr.
Qed.

(** A last step followed by [Ok(..)]. *)
Lemma wp_last {A B} s (good : Prop) (m : op A) (g : A → B) W (D : UseCaseError → Prop) :
  wp m s (post s good (λ a ws, W (g a) ws) D) →
  wp (let! a := m in comp_ret (g a)) s (post s good W D).
Proof.
  intros Hm. apply wp_bind. eapply wp_mono; [exact Hm|]. intros [[a|e]|] s1 [Hfr Hr]; [done| |done].
  split; [done|]. destruct Hr as [?|(? & ? & ws & [->|[a ?]] & ?)]; [by left| |]; right;
    (split; [done|]); (split; [done|]); eauto.
Qed.

Lemma wp_qm {A} s (good : Prop) (r : result A (FjallError fjall_error)) W D :
  match r with Ok a => W a [] | Err _ => ¬ good end →
  wp (qm r) s (post s good W D).
Proof.
  unfold wp, qm. destruct r as [a|e]; simpl; intros Hr; (split; [done|]).
  - by exists [].
  - right. split; [by eexists|]. split; [done|]. exists []. split; [by left|done].
Qed.

Lemma wp_domain {A} s (good : Prop) (r : result A DomainError) W D :
  match r with Ok a => W a [] | Err e => D (DomainErr e) end →
  wp (comp_lift (from_domain r)) s (post s good W D).
Proof.
  intros Hr. apply wp_lift. destruct r as [a|e]; simpl; (split; [done|]); [by exists []|by left].
Qed.

Lemma wp_read {A} s (good : Prop) (f : Database → result A fjall_error * Database) ans W D :
  read_law f ans → (good → healthy (db s)) → W (ans (cont s)) [] →
  wp (on_db f) s (post s good W D).
Proof.
  intros Hl Hg HW. unfold wp, on_db. destruct (f (db s)) as [r d] eqn:Ef.
  destruct (Hl _ _ _ Ef) as (Hc & Hr & Hh).
  destruct r as [a|e]; simpl; (split; [done|]).
  - exists []. subst a. done.
  - right. split; [by eexists|]. split; [tauto|]. exists []. split; [by left|done].
Qed.

Lemma wp_write s (good : Prop) f ws (W : unit → Datatypes.list batch_op → Prop) D :
  write_law f ws → (good → healthy (db s)) → W tt ws →
  wp (on_db f) s (post s good W D).
Proof.
  intros Hl Hg HW. unfold wp, on_db. destruct (f (db s)) as [r d] eqn:Ef.
  destruct (Hl _ _ _ Ef) as (Hr & Hh).
  destruct r as [[]|e]; simpl; (split; [done|]).
  - by exists ws.
  - right. split; [by eexists|]. destruct Hr as [Hn Hc]. split; [tauto|].
    destruct Hc as [Hc|Hc]; [exists []|exists ws]; (split; [by eauto|done]).
Qed.

Lemma wp_recorded {A} s good name (m : op A) W D :
  wp m s (post s good W D) → wp (recorded name m) s (post s good W D).
Proof.
  unfold wp, recorded. destruct (m s) as [r s'] eqn:Em. simpl.
  destruct r as [r|]; [|done]. done.
Qed.

Lemma wp_guard s (good : Prop) k D :
  (good → Locks.poisoned (write_locks s) = ∅) →
  wp (guard k) s (post s good (λ _ ws, ws = [] ∧ True) D).
Proof.
  intros Hg. change (wp (comp_bind (qm (Locks.lock_for (write_locks s) k)) (λ _, comp_ret tt)) s
    (post s good (λ _ ws, ws = [] ∧ True) D)).
  apply (wp_last s good _ (λ _, tt)), wp_qm.
  unfold Locks.lock_for, Locks.lock. case_bool_decide as Hp; [|done].
  intros Hgood. rewrite (Hg Hgood) in Hp. by apply not_elem_of_empty in Hp.
Qed.

(** ** The operations *)

Context {TL : TimeLaws T} {PL : PostcardLaws P} {JL : PolicyJsonLaws J} {FL : FjallLaws F}.

Definition entry_writes (sk l : bytes) (e : option OffsetDateTime) : Datatypes.list batch_op :=
  BatchInsert Data sk l ::
    match e with
    | Some exp => [BatchInsert Expiry (ExpiryIndex.expiry_index_key (unix_timestamp exp) sk) []]
    | None => []
    end.

Lemma good_healthy s s1 : framed s s1 → store_good s → healthy (db s1).
Proof. intros (_ & _ & Hh) [? _]. auto. Qed.

Lemma good_unpoisoned s s1 : framed s s1 → store_good s → Locks.poisoned (write_locks s1) = ∅.
Proof. intros (-> & _ & _) (_ & Hp & _). done. Qed.

Lemma good_decodes s sk l :
  cont s Data !! sk = Some l → store_good s → ∃ en, decode_entry (E := fjall_error) l = Ok en.
Proof.
  intros Hl (_ & _ & [Hd _]). destruct (Hd sk l Hl) as [_ [en Hen]]. unfold decoded in Hen.
  destruct (decode_entry l) as [en'|]; [|done]. by exists en'.
Qed.

Lemma encode_total v e : Value.value_ok v → ∃ l, encode_entry (E := fjall_error) v e = Ok l.
Proof. intros Hv. destruct (Entry.decode_encode (E := fjall_error) v e Hv) as (l & ? & _). eauto. Qed.

Hint Resolve good_healthy good_unpoisoned framed_refl : core.

Lemma spec_write_entry s (good : Prop) sk l e D :
  (good → healthy (db s)) →
  wp (write_entry sk l e) s (post s good (λ _ ws, ws = entry_writes sk l e) D).
Proof.
  intros Hg. unfold write_entry, entry_writes. destruct e as [e|].
  - eapply wp_write; [apply commit_law|done|done].
  - eapply wp_write; [apply insert_law|done|done].
Qed.

Lemma view_lookup s b k l en :
  cont s Data !! Layout.data_storage_key b k = Some l → decode_entry (E := fjall_error) l = Ok en →
  view s b k = Some en.
Proof. intros Hl Hd. unfold view, view_map. rewrite Hl. simpl. unfold decoded. by rewrite Hd. Qed.

Lemma spec_get s b k :
  wp (get b k) s (post s (store_good s) (λ r ws, ws = [] ∧ r = view s b k) no_error).
Proof.
  apply wp_recorded.
  apply wp_step with (R := λ o, o = cont s Data !! Layout.data_storage_key b k).
  - eapply wp_read; [apply get_law|eauto|done].
  - intros o s1 -> Hf Ha. destruct (cont s Data !! _) as [l|] eqn:Hl.
    + apply (wp_last s1 _ _ Some), wp_qm. destruct (decode_entry l) as [en|] eqn:Ed.
      * split; [done|]. symmetry. by eapply view_lookup.
      * intros Hg. destruct (good_decodes s _ l Hl Hg) as [en Hen]. congruence.
    + apply wp_ret. split; [done|]. exists []. split; [|done]. split; [done|].
      unfold view, view_map. by rewrite Hl.
Qed.

Lemma spec_set s b k v e :
  Value.value_ok v →
  wp (set b k v e) s (post s (store_good s)
    (λ _ ws, ∃ l, encode_entry (E := fjall_error) v e = Ok l
                  ∧ ws = entry_writes (Layout.data_storage_key b k) l e) no_error).
Proof.
  intros Hv. apply wp_recorded. eapply wp_step; [apply wp_guard; eauto|].
  intros [] s1 _ Hf1 Ha1.
  eapply wp_step with (R := λ l, encode_entry (E := fjall_error) v e = Ok l).
  { apply wp_qm. destruct (encode_total v e Hv) as [l Hl]. rewrite Hl. by split. }
  intros l s2 Hl Hf2 Ha2. apply (wp_last s2 _ _ (λ _, tt)).
  eapply wp_mono; [apply spec_write_entry with (good := store_good s)|].
  { eauto using framed_trans. }
  intros r s' Hp. eapply post_mono; [exact Hp|done| |intros ? He; exact He].
  intros [] ws ->. by exists l.
Qed.

Lemma spec_delete s b k :
  wp (delete b k) s (post s (store_good s)
    (λ existed ws,
      existed = bool_decide (is_Some (cont s Data !! Layout.data_storage_key b k))
      ∧ ws = if existed then [BatchRemove Data (Layout.data_storage_key b k)] else []) no_error).
Proof.
  apply wp_recorded. eapply wp_step; [apply wp_guard; eauto|]. intros [] s1 _ Hf1 Ha1.
  eapply wp_step with (R := λ existed,
    existed = bool_decide (is_Some (cont s Data !! Layout.data_storage_key b k))).
  { eapply wp_read; [apply contains_key_law|eauto|]. split; [done|]. by rewrite Ha1. }
  intros existed s2 He Hf2 Ha2. apply (wp_last s2 _ _ (λ _, existed)).
  destruct existed.
  - eapply wp_write; [apply remove_law|eauto using framed_trans|done].
  - apply wp_ret. split; [done|]. by exists [].
Qed.

Lemma spec_increment s now b k o e :
  wp (increment now b k o e) s (post s (store_good s)
    (λ v ws, incremented now (view s b k) o = Ok v
             ∧ ∃ l, encode_entry (E := fjall_error) v e = Ok l
                    ∧ ws = entry_writes (Layout.data_storage_key b k) l e)
    (λ err, ∃ de, err = DomainErr de ∧ incremented now (view s b k) o = Err de)).
Proof.
  apply wp_recorded. eapply wp_step; [apply wp_guard; eauto|]. intros [] s1 _ Hf1 Ha1.
  eapply wp_step with (R := λ o, o = cont s Data !! Layout.data_storage_key b k).
  { eapply wp_read; [apply get_law|eauto|]. split; [done|]. by rewrite Ha1. }
  intros found s2 -> Hf2 Ha2.
  assert (framed s s2) as Hf by eauto using framed_trans.
  eapply wp_step with (R := λ cur, counter_operand now (view s b k) = Ok cur).
  { destruct (cont s Data !! _) as [l|] eqn:Hl.
    - eapply wp_step with (R := λ en, decode_entry (E := fjall_error) l = Ok en).
      { apply wp_qm. destruct (decode_entry l) as [en|] eqn:Ed; [done|].
        intros Hg. destruct (good_decodes s _ l Hl Hg). congruence. }
      intros en s3 Hen _ _. pose proof (view_lookup s b k l en Hl Hen) as Hv.
      unfold incremented. rewrite Hv. simpl.
      destruct (expires_at en) as [exp|]; [destruct (odt_leb exp now)|].
      1: apply wp_ret; split; [done|]; by exists [].
      all: apply wp_domain; destruct (Counter.from_stored (value en)); [done|]; by eexists.
    - apply wp_ret. split; [done|]. exists []. split; [|done]. split; [done|].
      unfold view, view_map. by rewrite Hl. }
  intros cur s3 Hcur Hf3 Ha3. unfold incremented. rewrite Hcur. simpl.
  eapply wp_step with (R := λ m, Counter.apply o cur = Ok m).
  { apply wp_domain. destruct (Counter.apply o cur); [done|]. by eexists. }
  intros m s4 Hm Hf4 Ha4. rewrite Hm. simpl.
  eapply wp_step with (R := λ v, Counter.into_stored m = Ok v).
  { apply wp_domain. destruct (Counter.into_stored m); [done|]. by eexists. }
  intros v s5 Hv Hf5 Ha5. rewrite Hv.
  assert (Value.value_ok v) as Hok by (destruct m; simpl in Hv; by apply Value.new_ok in Hv as [_ ?]).
  eapply wp_step with (R := λ l, encode_entry (E := fjall_error) v e = Ok l).
  { apply wp_qm. destruct (encode_total v e Hok) as [l Hl]. rewrite Hl. by split. }
  intros l s6 Hl Hf6 Ha6. apply (wp_last s6 _ _ (λ _, v)).
  eapply wp_mono; [apply spec_write_entry with (good := store_good s)|].
  { eauto 8 using framed_trans. }
  intros r s' Hp. eapply post_mono; [exact Hp|done| |intros ? He; exact He]. intros [] ws ->. eauto.
Qed.

Lemma wp_locks s (good : Prop) ks D :
  (good → Locks.poisoned (write_locks s) = ∅) →
  wp (λ s, qm (Locks.lock_stripes_for_keys (write_locks s) ks) s) s
     (post s good (λ _ ws, ws = [] ∧ True) D).
Proof.
  intros Hg.
  change (wp (qm (Locks.lock_stripes_for_keys (write_locks s) ks)) s
            (post s good (λ _ ws, ws = [] ∧ True) D)).
  apply wp_qm. destruct (Locks.lock_stripes_for_keys (write_locks s) ks) eqn:El; [done|].
  intros Hgood. unfold Locks.lock_stripes_for_keys in El.
  assert (Locks.lock_all (E := fjall_error) (write_locks s) (Locks.stripes ks)
          = Ok (Locks.stripes ks)) as Hall; [|congruence].
  apply Locks.lock_all_ok. split; [done|]. apply list.Forall_forall. intros x _.
  rewrite (Hg Hgood). apply not_elem_of_empty.
Qed.

Lemma batch_items_total b ops :
  Forall txn_ok ops → ∃ items, batch_items b ops = Ok items.
Proof.
  induction 1 as [|o ops Ho _ [its IH]]; simpl; [by eexists|]. rewrite IH.
  destruct o as [k v e|k]; simpl in *; [|by eexists].
  destruct (encode_total v e Ho) as [l ->]. simpl. by eexists.
Qed.

Lemma spec_apply_batch s b ops :
  Forall txn_ok ops →
  wp (apply_batch b ops) s (post s (store_good s)
    (λ _ ws, ∃ items, batch_items b ops = Ok items ∧ ws = items ≫= item_writes) no_error).
Proof.
  intros Hok. apply wp_recorded. case_bool_decide as Hnil.
  { subst ops. apply wp_ret. split; [done|]. exists []. split; [|done]. by exists []. }
  eapply wp_step with (R := λ items, batch_items b ops = Ok items).
  { apply wp_qm. destruct (batch_items_total b ops Hok) as [items Hi]. rewrite Hi. by split. }
  intros items s1 Hitems Hf1 Ha1.
  eapply wp_step with (R := λ _, True).
  { eapply wp_locks. eauto. }
  intros gs s2 _ Hf2 Ha2. apply (wp_last s2 _ _ (λ _, tt)).
  eapply wp_write; [apply commit_law|eauto using framed_trans|]. eauto.
Qed.

(** ** The effect of writes on the abstract state *)

Lemma view_map_ext m m' b k : (∀ ks, m' ks = m ks) → view_map m' b k = view_map m b k.
Proof. intros Hm. unfold view_map. by rewrite Hm. Qed.

Lemma inv_map_ext m m' : (∀ ks, m' ks = m ks) → inv_map m → inv_map m'.
Proof.
  intros Hm [Hd Hi]. split.
  - intros sk l. rewrite Hm. apply Hd.
  - intros sk l ts. rewrite !Hm. apply Hi.
Qed.

Lemma lookup_entry_writes m sk l e sk' :
  apply_writes m (entry_writes sk l e) Data !! sk' = if decide (sk' = sk) then Some l else m Data !! sk'.
Proof.
  unfold entry_writes. destruct e; simpl; unfold apply_write; simpl;
    repeat (rewrite decide_True by done || rewrite (decide_False (P := Expiry = Data)) by done);
    case_decide as Hd; subst; by rewrite ?lookup_insert_eq, ?lookup_insert_ne by congruence.
Qed.

Lemma index_entry_writes m sk l e idx :
  is_Some (apply_writes m (entry_writes sk l e) Expiry !! idx)
  ↔ is_Some (m Expiry !! idx)
    ∨ ∃ exp, e = Some exp ∧ idx = ExpiryIndex.expiry_index_key (unix_timestamp exp) sk.
Proof.
  unfold entry_writes. destruct e as [exp|]; simpl; unfold apply_write; simpl.
  - destruct (decide (idx = ExpiryIndex.expiry_index_key (unix_timestamp exp) sk)) as [->|Hne].
    + rewrite lookup_insert_eq. naive_solver.
    + rewrite lookup_insert_ne by done. naive_solver.
  - naive_solver.
Qed.

Lemma view_entry_writes m b k v e l b' k' :
  Layout.bucket_ok b → Layout.bucket_ok b' → Value.value_ok v →
  encode_entry (E := fjall_error) v e = Ok l →
  view_map (apply_writes m (entry_writes (Layout.data_storage_key b k) l e)) b' k'
  = if decide ((b', k') = (b, k)) then Some (written v e) else view_map m b' k'.
Proof.
  intros Hb Hb' Hv Hl. unfold view_map. rewrite lookup_entry_writes.
  destruct (Entry.decode_encode (E := fjall_error) v e Hv) as (l' & Hl' & Hd & _).
  assert (l' = l) as -> by congruence.
  case_decide as H1; case_decide as H2.
  - simpl. unfold decoded. by rewrite Hd.
  - by apply (Layout.data_storage_key_inj b' k' b k) in H1 as [-> ->].
  - exfalso. apply H1. by injection H2 as -> ->.
  - done.
Qed.

Lemma wf_entry_writes m sk v e l :
  sk ≠ [] → Value.value_ok v → encode_entry (E := fjall_error) v e = Ok l → data_wf m →
  data_wf (apply_writes m (entry_writes sk l e)).
Proof.
  intros Hsk Hv Hl Hd.
  destruct (Entry.decode_encode (E := fjall_error) v e Hv) as (l' & Hl' & Hdec & _).
  assert (l' = l) as -> by congruence.
  intros sk' x. rewrite lookup_entry_writes. case_decide as Hk; [|apply Hd].
  intros [= <-]. subst. split; [done|]. unfold decoded. rewrite Hdec. by eexists.
Qed.

Lemma inv_entry_writes m sk v e l :
  sk ≠ [] → Value.value_ok v → encode_entry (E := fjall_error) v e = Ok l → inv_map m →
  inv_map (apply_writes m (entry_writes sk l e)).
Proof.
  intros Hsk Hv Hl [Hd Hi]. split; [by eapply wf_entry_writes|].
  destruct (Entry.decode_encode (E := fjall_error) v e Hv) as (l' & Hl' & _ & Hexp).
  assert (l' = l) as -> by congruence.
  - intros sk' x ts. rewrite lookup_entry_writes, index_entry_writes. case_decide as Hk.
    + intros [= <-]. rewrite Hexp. intros [= Hts]. right. destruct e as [exp|]; [|done].
      injection Hts as <-. subst. eauto.
    + intros Hx Ht. left. by eapply Hi.
Qed.

Lemma lookup_remove m sk sk' :
  apply_writes m [BatchRemove Data sk] Data !! sk' = if decide (sk' = sk) then None else m Data !! sk'.
Proof.
  simpl. unfold apply_write. simpl. case_decide; subst;
    by rewrite ?lookup_delete_eq, ?lookup_delete_ne by congruence.
Qed.

Lemma view_remove m b k b' k' :
  Layout.bucket_ok b → Layout.bucket_ok b' →
  view_map (apply_writes m [BatchRemove Data (Layout.data_storage_key b k)]) b' k'
  = if decide ((b', k') = (b, k)) then None else view_map m b' k'.
Proof.
  intros Hb Hb'. unfold view_map. rewrite lookup_remove.
  case_decide as H1; case_decide as H2.
  - done.
  - by apply (Layout.data_storage_key_inj b' k' b k) in H1 as [-> ->].
  - exfalso. apply H1. by injection H2 as -> ->.
  - done.
Qed.

Lemma wf_remove m sk : data_wf m → data_wf (apply_writes m [BatchRemove Data sk]).
Proof. intros Hd sk' x. rewrite lookup_remove. case_decide; [done|apply Hd]. Qed.

Lemma inv_remove m sk : inv_map m → inv_map (apply_writes m [BatchRemove Data sk]).
Proof.
  intros [Hd Hi]. split; [by apply wf_remove|].
  intros sk' x ts. rewrite lookup_remove. case_decide; [done|]. apply Hi.
Qed.

Lemma apply_writes_app m ws ws' : apply_writes m (ws ++ ws') = apply_writes (apply_writes m ws) ws'.
Proof. unfold apply_writes. apply foldl_app. Qed.

Lemma storage_key_nonempty b k : Layout.data_storage_key b k ≠ [].
Proof. unfold Layout.data_storage_key. by destruct (as_str b). Qed.

Lemma batch_item_set b k v e it :
  batch_item b (TxnSet k v e) = Ok it →
  ∃ l, encode_entry (E := fjall_error) v e = Ok l
       ∧ item_writes it = entry_writes (Layout.data_storage_key b k) l e.
Proof.
  simpl. destruct (encode_entry v e) as [l|] eqn:El; simpl; [|done]. intros [= <-].
  exists l. split; [done|]. by destruct e.
Qed.

Lemma view_batch b ops items m b' k' :
  Layout.bucket_ok b → Layout.bucket_ok b' → Forall txn_ok ops → batch_items b ops = Ok items →
  view_map (apply_writes m (items ≫= item_writes)) b' k'
  = if decide (b' = b) then txn_result k' (view_map m b' k') ops else view_map m b' k'.
Proof.
  intros Hb Hb' Hok. revert m items. unfold txn_result.
  induction Hok as [|o ops Ho Hops IH]; intros m items; cbn [batch_items].
  { intros [= <-]. simpl. by case_decide. }
  intros Hi. apply result_bind_ok in Hi as (it & Hit & Hi).
  apply result_bind_ok in Hi as (its & Hits & [= <-]).
  rewrite bind_cons, apply_writes_app, (IH _ _ Hits).
  assert (view_map (apply_writes m (item_writes it)) b' k'
          = if decide (b' = b) then txn_effect k' (view_map m b' k') o else view_map m b' k') as Hone.
  { destruct o as [k v e|k].
    - apply batch_item_set in Hit as (l & Hl & ->). rewrite (view_entry_writes m b k v e l) by done.
      simpl. repeat case_decide; simplify_eq; done.
    - injection Hit as <-. cbn [item_writes]. rewrite view_remove by done. simpl.
      repeat case_decide; simplify_eq; done. }
  rewrite Hone. by case_decide.
Qed.

(** A property of the contents that single writes and removals keep is kept by a batch. *)
Lemma batch_keeps (I : store_map → Prop) b ops items m :
  (∀ m sk v e l, sk ≠ [] → Value.value_ok v → encode_entry (E := fjall_error) v e = Ok l → I m →
     I (apply_writes m (entry_writes sk l e))) →
  (∀ m sk, I m → I (apply_writes m [BatchRemove Data sk])) →
  Forall txn_ok ops → batch_items b ops = Ok items → I m → I (apply_writes m (items ≫= item_writes)).
Proof.
  intros He Hr Hok. revert m items. induction Hok as [|o ops Ho Hops IH]; intros m items; cbn [batch_items].
  { by intros [= <-]. }
  intros Hi Hm. apply result_bind_ok in Hi as (it & Hit & Hi).
  apply result_bind_ok in Hi as (its & Hits & [= <-]).
  rewrite bind_cons, apply_writes_app. apply (IH _ _ Hits).
  destruct o as [k v e|k].
  - apply batch_item_set in Hit as (l & Hl & ->).
    by eapply He; [apply storage_key_nonempty| | |].
  - injection Hit as <-. by apply Hr.
Qed.

Lemma wf_batch b ops items m :
  Forall txn_ok ops → batch_items b ops = Ok items → data_wf m →
  data_wf (apply_writes m (items ≫= item_writes)).
Proof. apply batch_keeps; [apply wf_entry_writes|apply wf_remove]. Qed.

Lemma inv_batch b ops items m :
  Forall txn_ok ops → batch_items b ops = Ok items → inv_map m →
  inv_map (apply_writes m (items ≫= item_writes)).
Proof. apply batch_keeps; [apply inv_entry_writes|apply inv_remove]. Qed.

End Spec.
