(* ===== verification/StoreList.v ===== *)
(** * [FjallStore::list_inner]: listings against a reference definition

    Both scan loops compute a page of the same reference sequence: the rows of the bucket in key
    order. The forward loop stops as soon as the page is full; the reverse loop keeps a sliding
    window of the last [skip + limit] rows. *)

From Stdlib Require Import Strings.Byte.
From S2P Require Import Prelude RustStd TimeLib Domain Counter Ports Codec FjallLib Locks Store StoreSpec.
Import Store.

Section Listing.
Context {T : TimeOps} {P : PostcardOps} {J : PolicyJsonOps} {F : FjallOps} {H : HasherOps}
        {L : LayoutOps}.

Abbreviation op A := (comp FjallStore A UseCaseError).

(** The row a record contributes, if any. *)
Definition row (b : BucketId) (opts : ListOpts) (kv : bytes * bytes) : option ListEntry :=
  match list_item b opts kv with Ok o => o | Err _ => None end.

(** ** The loops as list functions *)

Definition lastn {A} (n : nat) (l : Datatypes.list A) : Datatypes.list A := drop (length l - n) l.

Lemma pop_to_lastn w l : pop_to w l = lastn (N.to_nat w) l.
Proof.
  unfold lastn. induction l as [|x l IH]; [done|]. cbn [pop_to].
  destruct (N.ltb_spec w (N.of_nat (length (x :: l)))) as [Hlt|Hge].
  - rewrite IH. cbn [length] in *.
    replace (S (length l) - N.to_nat w)%nat with (S (length l - N.to_nat w)) by lia. done.
  - replace (length (x :: l) - N.to_nat w)%nat with 0%nat by lia. done.
Qed.

Lemma lastn_lastn_app {A} n (l m : Datatypes.list A) : lastn n (lastn n l ++ m) = lastn n (l ++ m).
Proof.
  unfold lastn. rewrite !length_app, length_drop.
  destruct (decide (length l <= n)%nat) as [Hle|Hgt].
  - replace (length l - n)%nat with 0%nat by lia. rewrite drop_0.
    by replace (length l - 0 + length m - n)%nat with (length l + length m - n)%nat by lia.
  - replace (length l - (length l - n))%nat with n by lia.
    replace (n + length m - n)%nat with (length m) by lia.
    destruct (decide (length m <= n)%nat).
    + rewrite !drop_app_le by (rewrite ?length_drop; lia). rewrite drop_drop. do 2 f_equal. lia.
    + rewrite !drop_app_ge by (rewrite ?length_drop; lia). rewrite length_drop. f_equal. lia.
Qed.

Lemma reverse_lastn {A} n (l : Datatypes.list A) :
  list.reverse (lastn n l) = take n (list.reverse l).
Proof.
  unfold lastn. rewrite <- (take_drop (length l - n) l) at 3. rewrite reverse_app.
  destruct (decide (n <= length l)%nat).
  - rewrite take_app_length'; [done|]. rewrite length_reverse, length_drop. lia.
  - rewrite take_ge; [|rewrite length_app, !length_reverse, length_take, length_drop; lia].
    replace (length l - n)%nat with 0%nat by lia. rewrite take_0. simpl. by rewrite app_nil_r.
Qed.

(** The window is large enough for the page. *)
Lemma page_of_window {A} skip limit window (l : Datatypes.list A) :
  (skip + limit <= window)%nat →
  take limit (drop skip (list.reverse (lastn window l)))
  = take limit (drop skip (list.reverse l)).
Proof.
  intros Hw. rewrite reverse_lastn, !take_drop_commute, take_take. by rewrite Nat.min_l by lia.
Qed.

(** Opening a guard and computing its row. *)
Definition read_row b opts (g : result (bytes * bytes) fjall_error) : op (option ListEntry) :=
  let! kv := qm (map_err FjallBackend g) in qm (list_item b opts kv).

Lemma read_row_ok b opts g kv s o s' :
  yields g kv → read_row b opts g s = (Ret (Ok o), s') → s' = s ∧ o = row b opts kv.
Proof.
  unfold read_row, comp_bind, qm, row. destruct g as [x|]; simpl; [|done]. intros ->.
  destruct (list_item b opts kv); simpl; [|done]. by intros [= <- <-].
Qed.

Lemma loop_split {A} b opts g (f : option ListEntry → op A) s :
  (let! kv := qm (map_err FjallBackend g) in let! o := qm (list_item b opts kv) in f o) s
  = comp_bind (read_row b opts g) f s.
Proof. unfold read_row, comp_bind. by destruct (qm _ s) as [[[kv|]|] s1]. Qed.

Lemma reverse_loop_ok b opts window guards kvs deque s r s' :
  Forall2 yields guards kvs → reverse_loop b opts window guards deque s = (Ret (Ok r), s') →
  s' = s ∧ lastn (N.to_nat window) r = lastn (N.to_nat window) (deque ++ omap (row b opts) kvs)
  ∧ (length deque <= N.to_nat window → length r <= N.to_nat window)%nat.
Proof.
  intros Hy. revert deque. induction Hy as [|g kv guards kvs Hg _ IH]; intros deque.
  { intros [= <- <-]. simpl. by rewrite app_nil_r. }
  cbn [reverse_loop]. rewrite loop_split. intros Hl.
  apply comp_bind_inv_ok in Hl as (o & s1 & Hr & Hl).
  destruct (read_row_ok _ _ _ _ _ _ _ Hg Hr) as [-> ->].
  destruct (row b opts kv) as [e|] eqn:Er.
  - apply IH in Hl as (-> & Hl & Hlen). cbn [omap list_omap]. rewrite Er. split; [done|].
    rewrite Hl, pop_to_lastn, lastn_lastn_app, <- app_assoc. split; [done|].
    intros _. apply Hlen. rewrite pop_to_lastn. unfold lastn. rewrite length_drop. lia.
  - apply IH in Hl as (-> & Hl & Hlen). cbn [omap list_omap]. by rewrite Er.
Qed.

Lemma forward_loop_ok b opts guards kvs sk taken out s r s' :
  Forall2 yields guards kvs → forward_loop b opts guards sk taken out s = (Ret (Ok r), s') →
  s' = s ∧ r = out ++ take (N.to_nat (limit opts - taken))
                         (drop (N.to_nat sk) (omap (row b opts) kvs)).
Proof.
  intros Hy. revert sk taken out. induction Hy as [|g kv guards kvs Hg _ IH]; intros sk taken out.
  { intros [= <- <-]. simpl. by rewrite drop_nil, take_nil, app_nil_r. }
  cbn [forward_loop]. destruct (N.leb_spec (limit opts) taken) as [Hle|Hlt].
  { intros [= <- <-]. replace (limit opts - taken)%N with 0%N by lia. by rewrite app_nil_r. }
  rewrite loop_split. intros Hl. apply comp_bind_inv_ok in Hl as (o & s1 & Hr & Hl).
  destruct (read_row_ok _ _ _ _ _ _ _ Hg Hr) as [-> ->]. cbn [omap list_omap].
  destruct (row b opts kv) as [e|] eqn:Er; [|by apply IH].
  destruct (N.ltb_spec 0 sk).
  - apply IH in Hl as [-> ->]. split; [done|].
    by replace (N.to_nat sk) with (S (N.to_nat (sk - 1))) by lia.
  - apply IH in Hl as [-> ->]. split; [done|]. replace sk with 0%N by lia. cbn [N.to_nat drop].
    replace (N.to_nat (limit opts - taken)) with (S (N.to_nat (limit opts - (taken + 1)))) by lia.
    by rewrite <- app_assoc.
Qed.

(** ** The rows of a bucket *)

Context {TL : TimeLaws T} {PL : PostcardLaws P} {FL : FjallLaws F} {LL : LayoutLaws L}.

(** The row of a decodable record of key [k]. *)
Lemma row_of_entry b opts k l en :
  Key.key_ok k → decode_entry (E := fjall_error) l = Ok en →
  row b opts (Layout.data_storage_key b k, l)
  = if expired_before (expires_before opts) en then None
    else Some (mkListEntry k (if include_values opts then Some (value en) else None)).
Proof.
  intros Hk Hd. unfold row, list_item. rewrite Layout.user_key_of_storage_key by done.
  unfold expired_before. destruct (include_values opts).
  - rewrite Hd. simpl. destruct (expires_before opts) as [c|], (expires_at en) as [x|]; try done.
    by destruct (odt_leb x c).
  - destruct (Entry.decode_entry_inv l en Hd) as (_ & ts & Hts & Hm). rewrite Hts. simpl.
    destruct (expires_before opts) as [c|], ts as [ts|], (expires_at en) as [x|]; simpl; try done.
    destruct Hm as [Hx _]. rewrite (whole_second_leb ts x c Hx). by destruct (ts <=? _).
Qed.

Lemma row_key b opts kv e :
  row b opts kv = Some e → kv.1 = Layout.data_storage_key b (le_key e) ∧ Key.key_ok (le_key e).
Proof.
  unfold row, list_item. destruct kv as [sk l]. simpl.
  destruct (Layout.user_key_from_storage_key sk b) as [k|] eqn:Eu; [|done].
  apply Layout.user_key_inv in Eu as [-> Hk].
  assert (∀ o : option ListEntry, o = Some e → (∀ e', o = Some e' → le_key e' = k) →
    Layout.data_storage_key b k = Layout.data_storage_key b (le_key e) ∧ Key.key_ok (le_key e))
    as Hfin by (intros o Ho Ho'; by rewrite (Ho' e Ho)).
  intros He. apply (Hfin _ He). clear e He Hfin. intros e'.
  destruct (include_values opts); unfold result_bind; repeat case_match; naive_solver.
Qed.

Lemma rows_sorted b opts kvs :
  StronglySorted bytes_lt kvs.*1 →
  StronglySorted key_lt (le_key <$> omap (row b opts) kvs).
Proof.
  induction kvs as [|kv kvs IH]; intros Hs; [constructor|].
  apply StronglySorted_inv in Hs as [Hs Hf]. cbn [omap list_omap].
  destruct (row b opts kv) as [e|] eqn:Er; [|by apply IH].
  constructor; [by apply IH|]. apply list.Forall_forall. intros k Hk.
  apply list_elem_of_fmap in Hk as (e' & -> & He').
  apply list_elem_of_omap in He' as (kv' & Hkv' & Er').
  apply row_key in Er as [Hk _]. apply row_key in Er' as [Hk' _].
  unfold key_lt. apply (Layout.data_storage_key_lt b). rewrite <- Hk, <- Hk'.
  rewrite list.Forall_forall in Hf. apply Hf. apply list_elem_of_fmap. by exists kv'.
Qed.

(** The rows of the scan are the listed keys with their values. *)
Lemma rows_of_scan (m : keyspace → gmap bytes bytes) b opts kvs :
  data_wf m → scan_of (m Data) (Layout.data_key_prefix b (prefix opts)) kvs →
  (∀ k, k ∈ le_key <$> omap (row b opts) kvs ↔ listed (view_map m b) opts k)
  ∧ omap (row b opts) kvs
    = list_row (view_map m b) opts <$> (le_key <$> omap (row b opts) kvs).
Proof.
  intros Hwf [Hs He].
  assert (∀ k l, (Layout.data_storage_key b k, l) ∈ kvs → Key.key_ok k →
    ∃ en, decode_entry (E := fjall_error) l = Ok en ∧ view_map m b k = Some en
          ∧ default [] (prefix opts) `prefix_of` as_bytes k) as Hin.
  { intros k l Hkl Hk. apply He in Hkl as [Hl Hp].
    destruct (Hwf _ _ Hl) as [_ [en Hen]]. unfold decoded in Hen.
    destruct (decode_entry l) as [en'|] eqn:Ed; [|done]. injection Hen as ->.
    exists en. split; [done|]. split.
    - unfold view_map. rewrite Hl. simpl. unfold decoded. by rewrite Ed.
    - destruct Hp as [r Hr]. unfold Layout.data_key_prefix, Layout.data_storage_key in Hr.
      rewrite <- app_assoc in Hr. apply app_inv_head in Hr. injection Hr as Hr. by exists r. }
  assert (∀ kv e, kv ∈ kvs → row b opts kv = Some e →
    listed (view_map m b) opts (le_key e) ∧ e = list_row (view_map m b) opts (le_key e)) as Hrow.
  { intros [sk l] e Hkv Hr. pose proof (row_key _ _ _ _ Hr) as [Hsk Hk]. simpl in Hsk. subst sk.
    destruct (Hin _ _ Hkv Hk) as (en & Hd & Hv & Hp).
    rewrite (row_of_entry b opts (le_key e) l en Hk Hd) in Hr.
    destruct (expired_before (expires_before opts) en) eqn:Ex; [done|]. injection Hr as Hr.
    split; [repeat split; eauto|]. unfold list_row. rewrite Hv. simpl.
    rewrite <- Hr at 1. by destruct (include_values opts). }
  split.
  - intros k. rewrite list_elem_of_fmap. split.
    + intros (e & -> & He'). apply list_elem_of_omap in He' as (kv & Hkv & Hr). by apply (Hrow kv).
    + intros (Hk & [r Hp] & en & Hv & Hx). unfold view_map in Hv.
      destruct (m Data !! Layout.data_storage_key b k) as [l|] eqn:Hl; [|done]. simpl in Hv.
      unfold decoded in Hv. destruct (decode_entry l) as [en'|] eqn:Ed; [|done]. injection Hv as ->.
      eexists. split; [|apply list_elem_of_omap; exists (Layout.data_storage_key b k, l); split].
      3: rewrite (row_of_entry b opts k l en Hk Ed), Hx; done. 1: done.
      apply He. split; [done|]. exists r. unfold Layout.data_key_prefix, Layout.data_storage_key.
      by rewrite <- app_assoc, Hp.
  - rewrite <- list_fmap_compose. rewrite <- (list_fmap_id (omap (row b opts) kvs)) at 1.
    apply list_fmap_ext. intros i e Hi. simpl.
    apply list_elem_of_lookup_2, list_elem_of_omap in Hi as (kv & Hkv & Hr). by apply (Hrow kv).
Qed.

(** ** Every outcome of a listing *)

(** Code that only reads and counts errors. *)
Definition quiet {A} (m : op A) : Prop :=
  ∀ s r s', m s = (r, s') →
    framed s s' ∧ applied s s' []
    ∧ match r with Ret (Ok _) => True | Ret (Err e) => ∃ m, e = Storage m | Panic => False end.

Lemma quiet_ret {A} (a : A) : quiet (comp_ret a).
Proof. intros s r s' [= <- <-]. done. Qed.

Lemma quiet_qm {A} (x : result A (FjallError fjall_error)) : quiet (qm x).
Proof. intros s r s'. unfold qm. destruct x; intros [= <- <-]; (split; [done|]); split; [done|done|done|by eexists]. Qed.

Lemma quiet_bind {A B} (m : op A) (f : A → op B) :
  quiet m → (∀ a, quiet (f a)) → quiet (comp_bind m f).
Proof.
  intros Hm Hf s r s'. unfold comp_bind. destruct (m s) as [[[a|e]|] s1] eqn:Em.
  - intros Hr. destruct (Hm _ _ _ Em) as (Hf1 & Ha1 & _), (Hf _ _ _ _ Hr) as (Hf2 & Ha2 & Hp).
    split; [by eapply framed_trans|]. split; [by eapply applied_trans|done].
  - intros [= <- <-]. by apply (Hm _ _ _ Em).
  - by destruct (Hm _ _ _ Em) as (? & ? & ?).
Qed.

Lemma quiet_reverse_loop b opts window guards deque : quiet (reverse_loop b opts window guards deque).
Proof.
  revert deque. induction guards as [|g guards IH]; intros deque; simpl; [apply quiet_ret|].
  apply quiet_bind; [apply quiet_qm|]. intros kv. apply quiet_bind; [apply quiet_qm|].
  intros [e|]; apply IH.
Qed.

Lemma quiet_forward_loop b opts guards sk taken out : quiet (forward_loop b opts guards sk taken out).
Proof.
  revert sk taken out. induction guards as [|g guards IH]; intros sk taken out; simpl;
    [apply quiet_ret|].
  destruct (limit opts <=? taken)%N; [apply quiet_ret|].
  apply quiet_bind; [apply quiet_qm|]. intros kv. apply quiet_bind; [apply quiet_qm|].
  intros [e|]; [destruct (0 <? sk)%N|]; apply IH.
Qed.

(** A readable guard whose record is well formed. *)
Definition readable b opts (g : result (bytes * bytes) fjall_error) : Prop :=
  ∃ kv o, g = Ok kv ∧ list_item b opts kv = Ok o.

Lemma readable_row b opts g s : readable b opts g → ∃ o, read_row b opts g s = (Ret (Ok o), s).
Proof. intros (kv & o & -> & Ho). exists o. unfold read_row, comp_bind, qm. simpl. by rewrite Ho. Qed.

Lemma reverse_loop_total b opts window guards deque s :
  Forall (readable b opts) guards →
  ∃ r, reverse_loop b opts window guards deque s = (Ret (Ok r), s).
Proof.
  intros Hg. revert deque. induction Hg as [|g guards Hg _ IH]; intros deque; [by eexists|].
  cbn [reverse_loop]. rewrite loop_split. destruct (readable_row b opts g s Hg) as [o Ho].
  rewrite (comp_bind_ok _ _ _ _ _ Ho). destruct o; apply IH.
Qed.

Lemma forward_loop_total b opts guards sk taken out s :
  Forall (readable b opts) guards →
  ∃ r, forward_loop b opts guards sk taken out s = (Ret (Ok r), s).
Proof.
  intros Hg. revert sk taken out. induction Hg as [|g guards Hg _ IH]; intros sk taken out;
    [by eexists|].
  cbn [forward_loop]. destruct (limit opts <=? taken)%N; [by eexists|].
  rewrite loop_split. destruct (readable_row b opts g s Hg) as [o Ho].
  rewrite (comp_bind_ok _ _ _ _ _ Ho). destruct o; [destruct (0 <? sk)%N|]; apply IH.
Qed.

Lemma list_item_total b opts kv :
  is_Some (decoded kv.2) → ∃ o, list_item b opts kv = Ok o.
Proof.
  intros [en Hen]. unfold decoded in Hen. destruct kv as [sk l]. simpl in *.
  destruct (decode_entry l) as [en'|] eqn:Ed; [|done]. injection Hen as ->.
  destruct (Entry.decode_entry_inv l en Ed) as (_ & ts & Hts & _).
  unfold list_item. destruct (Layout.user_key_from_storage_key sk b); [|by eexists].
  destruct (include_values opts).
  - simpl. repeat case_match; by eexists.
  - rewrite Hts. simpl. repeat case_match; by eexists.
Qed.

(** A scan of the data keyspace. *)
Lemma scan_data_spec s p :
  ∃ guards s1 kvs, scan_data p s = (Ret (Ok guards), s1) ∧ framed s s1 ∧ applied s s1 []
    ∧ scan_of (cont s Data) p kvs ∧ Forall2 yields guards kvs
    ∧ (∀ b opts, store_good s → Forall (readable b opts) guards).
Proof.
  unfold scan_data. destruct (ks_prefix Data p (db s)) as [guards d] eqn:Ep.
  destruct (prefix_law Data p _ _ _ Ep) as (Hc & (kvs & Hs & Hy) & Hh).
  exists guards, (set_db d s), kvs. split; [done|]. split; [by repeat split; intros; apply Hh|].
  split; [done|]. split; [done|]. split; [done|]. intros b opts (Hhe & _ & [Hwf _]).
  destruct (Hh Hhe) as [_ Hok]. destruct Hs as [_ Hs].
  assert (∀ kv, kv ∈ kvs → is_Some (decoded kv.2)) as Hd.
  { intros [k v] Hkv. apply Hs in Hkv as [Hkv _]. by destruct (Hwf _ _ Hkv). }
  clear Ep Hs Hh. induction Hy as [|g kv guards kvs Hg Hy IH]; [constructor|].
  apply list.Forall_cons in Hok as [Hg' Hok]. constructor; [|apply IH; [done|set_solver]].
  destruct g as [x|]; [|done]. simpl in Hg. subst x.
  destruct (list_item_total b opts kv) as [o Ho]; [apply Hd; set_solver|]. by exists kv, o.
Qed.

Definition list_post (s : FjallStore) (b : BucketId) (opts : ListOpts)
    (r : exec (result (Datatypes.list ListEntry) UseCaseError)) (s' : FjallStore) : Prop :=
  framed s s' ∧ applied s s' []
  ∧ match r with
    | Ret (Ok l) =>
      data_wf (cont s) →
      ∃ ks, StronglySorted key_lt ks ∧ (∀ k, k ∈ ks ↔ listed (view s b) opts k)
            ∧ l = page opts (list_row (view s b) opts <$> ks)
    | Ret (Err e) => (∃ m, e = Storage m) ∧ ¬ store_good s
    | Panic => reverse opts = true
               ∧ (Usize.isize_max < size_of_ListEntry * (skip opts + limit opts))%N
    end.

(** The keys a listing is about. *)
Lemma keys_of_bucket s b opts :
  data_wf (cont s) →
  ∃ ks, StronglySorted key_lt ks ∧ (∀ k, k ∈ ks ↔ listed (view s b) opts k).
Proof.
  intros Hwf. destruct (scan_data_spec s (Layout.data_key_prefix b (prefix opts)))
    as (guards & s1 & kvs & _ & _ & _ & Hs & _).
  exists (le_key <$> omap (row b opts) kvs). split; [apply rows_sorted, Hs|].
  by apply rows_of_scan.
Qed.

(** A page of the rows of a scan is a page of the reference listing. *)
Lemma page_of_scan s b opts kvs rows :
  scan_of (cont s Data) (Layout.data_key_prefix b (prefix opts)) kvs →
  rows = page opts (omap (row b opts) kvs) → data_wf (cont s) →
  ∃ ks, StronglySorted key_lt ks ∧ (∀ k, k ∈ ks ↔ listed (view s b) opts k)
        ∧ rows = page opts (list_row (view s b) opts <$> ks).
Proof.
  intros Hs -> Hwf. exists (le_key <$> omap (row b opts) kvs).
  destruct (rows_of_scan (cont s) b opts kvs Hwf Hs) as [H1 H2].
  split; [apply rows_sorted, Hs|]. split; [done|].
  change (view s b) with (view_map (cont s) b). by rewrite <- H2.
Qed.

(** When the deque of a reverse scan can be allocated, its window did not saturate. *)
Lemma window_fits opts :
  let w := Usize.saturating_add (skip opts) (limit opts) in
  if Usize.with_capacity_panics size_of_ListEntry w
  then (Usize.isize_max < size_of_ListEntry * (skip opts + limit opts))%N
  else (skip opts + limit opts <= w)%N.
Proof.
  unfold Usize.with_capacity_panics, Usize.saturating_add. simpl.
  pose proof size_of_ListEntry_pos.
  destruct (N.ltb_spec Usize.isize_max
    (size_of_ListEntry * N.min (skip opts + limit opts) Usize.usize_max));
    unfold Usize.isize_max, Usize.usize_max in *; nia.
Qed.

Lemma list_inner_post s b opts : wp (list_inner b opts) s (list_post s b opts).
Proof.
  unfold list_inner. destruct (N.eqb_spec (limit opts) 0) as [Hz|Hnz].
  { apply wp_ret. split; [done|]. split; [done|]. intros Hwf.
    destruct (keys_of_bucket s b opts Hwf) as (ks & H1 & H2). exists ks.
    split; [done|]. split; [done|]. unfold page. by rewrite Hz. }
  destruct (scan_data_spec s (Layout.data_key_prefix b (prefix opts)))
    as (guards & s1 & kvs & Hscan & Hf1 & Ha1 & Hs & Hy & Hg).
  pose proof (λ rows, page_of_scan s b opts kvs rows Hs) as Hrows.
  destruct (reverse opts) eqn:Hrev.
  - pose proof (window_fits opts) as Hwin. cbv zeta in Hwin.
    set (w := Usize.saturating_add (skip opts) (limit opts)) in *.
    assert (w ≠ 0%N) as Hw by (unfold w, Usize.saturating_add, Usize.usize_max; lia).
    clearbody w. destruct (N.eqb_spec w 0) as [?|_]; [done|].
    destruct (Usize.with_capacity_panics size_of_ListEntry w).
    { split; [done|]. split; [done|]. by split. }
    unfold wp. rewrite (comp_bind_ok _ _ _ _ _ Hscan).
    destruct (reverse_loop b opts w guards [] s1) as [r s2] eqn:Er.
    destruct (quiet_reverse_loop _ _ _ _ _ _ _ _ Er) as (Hf2 & Ha2 & Hp).
    assert (framed s s2 ∧ applied s s2 []) as [? ?] by eauto using framed_trans, applied_trans.
    unfold comp_bind at 1. unfold comp_bind at 1. rewrite Er. destruct r as [[d|e]|]; [| |done];
      (split; [done|]); (split; [done|]); simpl.
    + destruct (reverse_loop_ok _ _ _ _ _ _ _ _ _ Hy Er) as (_ & Hd & Hlen).
      apply Hrows. unfold page. rewrite Hrev. rewrite app_nil_l in Hd.
      rewrite <- (page_of_window (N.to_nat (skip opts)) (N.to_nat (limit opts)) (N.to_nat w) d) by lia.
      rewrite Hd. apply page_of_window. lia.
    + split; [done|]. intros Hgood. destruct (reverse_loop_total b opts w guards [] s1 (Hg b opts Hgood)). congruence.
  - unfold wp. rewrite (comp_bind_ok _ _ _ _ _ Hscan).
    destruct (forward_loop b opts guards (skip opts) 0 [] s1) as [r s2] eqn:Er.
    destruct (quiet_forward_loop _ _ _ _ _ _ _ _ _ Er) as (Hf2 & Ha2 & Hp).
    assert (framed s s2 ∧ applied s s2 []) as [? ?] by eauto using framed_trans, applied_trans.
    destruct r as [[d|e]|]; [| |done]; (split; [done|]); (split; [done|]); simpl.
    + destruct (forward_loop_ok _ _ _ _ _ _ _ _ _ _ Hy Er) as [_ ->].
      apply Hrows. unfold page. rewrite Hrev. by rewrite N.sub_0_r.
    + split; [done|]. intros Hgood.
      destruct (forward_loop_total b opts guards (skip opts) 0 [] s1 (Hg b opts Hgood)). congruence.
Qed.

(** The reverse listings whose window no allocation holds. *)
Definition overflows (opts : ListOpts) : Prop :=
  reverse opts = true ∧ (0 < limit opts)%N
  ∧ (Usize.isize_max < size_of_ListEntry * N.min (skip opts + limit opts) Usize.usize_max)%N.

Lemma list_inner_overflows s b opts : overflows opts → list_inner b opts s = (Panic, s).
Proof.
  intros (Hr & Hl & Hc). unfold list_inner.
  rewrite (proj2 (N.eqb_neq _ _)) by lia. rewrite Hr. unfold Usize.saturating_add.
  rewrite (proj2 (N.eqb_neq _ _)) by (unfold Usize.usize_max; lia).
  unfold Usize.with_capacity_panics. by rewrite (proj2 (N.ltb_lt _ _) Hc).
Qed.

(** They are the only listings that panic. *)
Lemma list_inner_panic s b opts s' : list_inner b opts s = (Panic, s') → overflows opts ∧ s' = s.
Proof.
  intros Hp. assert (overflows opts) as Ho.
  { destruct (wp_elim _ _ _ _ _ (list_inner_post s b opts) Hp) as (_ & _ & Hr & Hc).
    split; [done|]. pose proof size_of_ListEntry_pos. unfold list_inner in Hp.
    destruct (N.eqb_spec (limit opts) 0) as [|Hl]; [done|]. split; [lia|].
    unfold Usize.isize_max, Usize.usize_max in *. nia. }
  rewrite (list_inner_overflows s b opts Ho) in Hp. by simplify_eq.
Qed.

Lemma list_spec s b opts : wp (list b opts) s (list_post s b opts).
Proof.
  pose proof (list_inner_post s b opts) as Hl. unfold wp, list, recorded in *.
  destruct (list_inner b opts s) as [[r|] s1]; [|exact Hl]. exact Hl.
Qed.

End Listing.
