(* ===== verification/StoreRepo.v ===== *)
(** * The adapter as an implementation of the ports

    The instances of the repository traits for [FjallStore], their contracts, and the properties
    of the adapter's operations over every outcome: success, storage failure and panic. *)

From Stdlib Require Import Strings.Byte.
From S2P Require Import Prelude RustStd TimeLib Domain Counter Ports Codec FjallLib Locks Store StoreSpec StoreList.

Section Instances.
Context {T : TimeOps} {P : PostcardOps} {J : PolicyJsonOps} {F : FjallOps} {H : HasherOps}
        {L : LayoutOps}.

#[global] Instance store_buckets : BucketRepository Store.FjallStore := {
  ping_metadata := Store.ping_metadata;
  get_policy := Store.get_policy;
  create_bucket := Store.create_bucket;
  delete_bucket := Store.delete_bucket;
}.

#[global] Instance store_keys : KeyRepository Store.FjallStore := {
  repo_get := Store.get;
  repo_set := Store.set;
  repo_delete := Store.delete;
  repo_list := Store.list;
  repo_increment := Store.increment;
  repo_apply_batch := Store.apply_batch;
}.

Context {TL : TimeLaws T} {PL : PostcardLaws P} {JL : PolicyJsonLaws J} {FL : FjallLaws F}
        {LL : LayoutLaws L}.

(** The state shows exactly the entries of [V], over the buckets with well-formed ids. *)
Definition shows (s : Store.FjallStore) (V : BucketId → Key → option StoredEntry) : Prop :=
  ∀ b k, Layout.bucket_ok b → view s b k = V b k.

(** The entries of [s] with the one at [(b, k)] replaced. *)
Definition updated (s : Store.FjallStore) (b : BucketId) (k : Key) (o : option StoredEntry)
    (b' : BucketId) (k' : Key) : option StoredEntry :=
  if decide ((b', k') = (b, k)) then o else view s b' k'.

Definition batched (s : Store.FjallStore) (b : BucketId) (ops : list TxnOp)
    (b' : BucketId) (k' : Key) : option StoredEntry :=
  if decide (b' = b) then txn_result k' (view s b' k') ops else view s b' k'.

Lemma post_shows {A} s good W D (V : A → BucketId → Key → option StoredEntry) r s' :
  post s good W D r s' →
  (∀ a ws, W a ws →
     (∀ b k, Layout.bucket_ok b → view_map (apply_writes (cont s) ws) b k = V a b k)
     ∧ (store_inv s → inv_map (apply_writes (cont s) ws))) →
  (store_inv s → store_inv s')
  ∧ match r with
    | Ret (Ok a) => shows s' (V a)
    | Ret (Err _) => shows s' (view s) ∨ ∃ a, shows s' (V a)
    | Panic => False
    end.
Proof.
  intros [_ Hr] HV.
  assert (∀ ws, applied s s' ws → (store_inv s → inv_map (apply_writes (cont s) ws)) →
    store_inv s → store_inv s') as Hinv.
  { intros ws Ha Hw Hs. apply (inv_map_ext (apply_writes (cont s) ws)); auto. }
  assert (∀ a ws, applied s s' ws → W a ws → shows s' (V a)) as Hsh.
  { intros a ws Ha HW b k Hb. unfold view. rewrite (view_map_ext _ _ b k Ha). by apply (HV a ws). }
  assert (applied s s' [] → shows s' (view s)) as Hnil.
  { intros Ha b k _. unfold view. by rewrite (view_map_ext _ _ b k Ha). }
  destruct r as [[a|e]|]; [| |done].
  - destruct Hr as (ws & HW & Ha). split; [|by eapply Hsh].
    apply (Hinv ws Ha). by apply (HV a).
  - destruct Hr as [[_ Ha]|(_ & _ & ws & [->|[a HW]] & Ha)].
    + split; [by apply (Hinv [])|left; auto].
    + split; [by apply (Hinv [])|left; auto].
    + split; [|right; exists a; by eapply Hsh]. apply (Hinv ws Ha). by apply (HV a).
Qed.

(** In a good state an operation with no errors of its own answers and the state stays good. *)
Lemma post_good {A} s W (D : UseCaseError → Prop) (r : exec (result A UseCaseError)) s' :
  post s (store_good s) W D r s' → store_good s → (store_inv s → store_inv s') →
  store_good s'
  ∧ match r with
    | Ret (Ok a) => ∃ ws, W a ws
    | Ret (Err e) => D e
    | Panic => False
    end.
Proof.
  intros [(Hw & _ & Hh) Hr] Hg Hi. pose proof Hg as (H1 & H2 & H3). split.
  - split; [auto|]. split; [by rewrite Hw|auto].
  - destruct r as [[a|e]|]; [naive_solver|naive_solver|done].
Qed.

Lemma set_outcome s b k v e r s' :
  Layout.bucket_ok b → Value.value_ok v → Store.set b k v e s = (r, s') →
  (store_inv s → store_inv s')
  ∧ (store_good s → r = Ret (Ok tt) ∧ store_good s')
  ∧ match r with
    | Ret (Ok _) => shows s' (updated s b k (Some (written v e)))
    | Ret (Err _) => shows s' (view s) ∨ shows s' (updated s b k (Some (written v e)))
    | Panic => False
    end.
Proof.
  intros Hb Hv Hr. pose proof (wp_elim _ _ _ _ _ (spec_set s b k v e Hv) Hr) as Hp.
  destruct (post_shows _ _ _ _ (λ _, updated s b k (Some (written v e))) _ _ Hp) as [Hi Hm].
  { intros [] ws (l & Hl & ->). split.
    - intros b' k' Hb'. by apply view_entry_writes.
    - by eapply inv_entry_writes; [apply storage_key_nonempty| |]. }
  split; [done|]. split.
  - intros Hg. destruct (post_good _ _ _ _ _ Hp Hg Hi) as [? Hx]. destruct r as [[[]|]|]; naive_solver.
  - destruct r as [[[]|]|]; [done| |done]. destruct Hm as [|[]]; auto.
Qed.

Lemma delete_outcome s b k r s' :
  Layout.bucket_ok b → Store.delete b k s = (r, s') →
  (store_inv s → store_inv s')
  ∧ (store_good s → (∃ existed, r = Ret (Ok existed)) ∧ store_good s')
  ∧ match r with
    | Ret (Ok existed) =>
      shows s' (updated s b k None)
      ∧ (store_inv s → existed = bool_decide (is_Some (view s b k)))
    | Ret (Err _) => shows s' (view s) ∨ shows s' (updated s b k None)
    | Panic => False
    end.
Proof.
  intros Hb Hr. pose proof (wp_elim _ _ _ _ _ (spec_delete s b k) Hr) as Hp.
  destruct (post_shows _ _ _ _ (λ _, updated s b k None) _ _ Hp) as [Hi Hm].
  { intros existed ws [He ->]. destruct existed; symmetry in He.
    - split; [intros b' k' Hb'; by apply view_remove|by apply inv_remove].
    - split; [|done]. intros b' k' Hb'. unfold updated. case_decide as Hd; [|done].
      injection Hd as -> ->. apply bool_decide_eq_false in He. cbn [apply_writes foldl].
      unfold view_map. destruct (cont s Data !! _); [|done]. exfalso. apply He. by eexists. }
  split; [done|]. split.
  - intros Hg. destruct (post_good _ _ _ _ _ Hp Hg Hi) as [? Hx]. destruct r as [[]|]; naive_solver.
  - destruct r as [[existed|]|]; [| |done].
    + split; [done|]. intros [Hd _]. destruct Hp as [_ (ws & [-> _] & _)].
      apply bool_decide_ext. unfold view, view_map.
      destruct (cont s Data !! Layout.data_storage_key b k) as [l|] eqn:El; [|simpl; split; by intros [? ?]].
      destruct (Hd _ _ El) as [_ Hdec]. simpl. split; intros _; [exact Hdec|by eexists].
    + destruct Hm as [|[]]; auto.
Qed.

Lemma increment_outcome s now b k o e r s' :
  Layout.bucket_ok b → Store.increment now b k o e s = (r, s') →
  (store_inv s → store_inv s')
  ∧ (store_good s → r = Ret (from_domain (incremented now (view s b k) o)) ∧ store_good s')
  ∧ match r with
    | Ret (Ok v) =>
      incremented now (view s b k) o = Ok v ∧ shows s' (updated s b k (Some (written v e)))
    | Ret (Err _) =>
      shows s' (view s)
      ∨ ∃ v, incremented now (view s b k) o = Ok v ∧ shows s' (updated s b k (Some (written v e)))
    | Panic => False
    end.
Proof.
  intros Hb Hr. pose proof (wp_elim _ _ _ _ _ (spec_increment s now b k o e) Hr) as Hp.
  assert (∀ v, incremented now (view s b k) o = Ok v → Value.value_ok v) as Hok.
  { intros v Hv. unfold incremented in Hv. res_inv Hv. res_inv Hv.
    destruct v1; simpl in Hv; by apply Value.new_ok in Hv as [_ ?]. }
  destruct (post_shows _ _ _ _ (λ v, updated s b k (Some (written v e))) _ _ Hp) as [Hi Hm].
  { intros v ws (Hv & l & Hl & ->). split.
    - intros b' k' Hb'. apply view_entry_writes; auto.
    - eapply inv_entry_writes; [apply storage_key_nonempty|by eapply Hok|done]. }
  split; [done|]. split.
  - intros Hg. destruct (post_good _ _ _ _ _ Hp Hg Hi) as [? Hx]. split; [|done].
    destruct r as [[v|err]|]; [| |done].
    + destruct Hx as (ws & -> & _). done.
    + destruct Hx as (de & -> & ->). done.
  - destruct Hp as [_ Hp]. destruct r as [[v|err]|]; [| |done].
    + destruct Hp as (ws & (Hv & _) & _). done.
    + destruct Hp as [[_ Ha]|(_ & _ & ws & [->|(v & (Hv & l & Hl & ->))] & Ha)].
      * left. intros b' k' _. unfold view. by rewrite (view_map_ext _ _ b' k' Ha).
      * left. intros b' k' _. unfold view. by rewrite (view_map_ext _ _ b' k' Ha).
      * right. exists v. split; [done|]. intros b' k' Hb'. unfold view.
        rewrite (view_map_ext _ _ b' k' Ha). apply view_entry_writes; auto.
Qed.

(** A domain error is the outcome of the arithmetic and leaves every entry as it was. *)
Lemma increment_domain_error s now b k o e de s' :
  Store.increment now b k o e s = (Ret (Err (DomainErr de)), s') →
  incremented now (view s b k) o = Err de ∧ shows s' (view s).
Proof.
  intros Hr. destruct (wp_elim _ _ _ _ _ (spec_increment s now b k o e) Hr) as
    [_ [[(de' & [= <-] & Hi) Ha]|[[? ?] _]]]; [|done].
  split; [done|]. intros b' k' _. unfold view. by rewrite (view_map_ext _ _ b' k' Ha).
Qed.

(** An increment whose read fails answers with a storage error and writes nothing. *)
Lemma increment_read_error s now b k o e err d r s' :
  ks_get Data (Layout.data_storage_key b k) (Store.db s) = (Err err, d) →
  Store.increment now b k o e s = (r, s') →
  (∃ msg, r = Ret (Err (Storage msg))) ∧ shows s' (view s).
Proof.
  intros Hg. pose proof (get_law _ _ _ _ _ Hg) as [Hl _].
  unfold Store.increment, Store.recorded, Store.guard, Store.on_db, Store.qm, comp_bind, comp_ret.
  destruct (Locks.lock_for _ _); simpl; [rewrite Hg; simpl|]; intros [= <- <-]; (split; [by eexists|]); [|done].
  intros b' k' _. unfold view. apply view_map_ext. intros ks. apply Hl.
Qed.

Lemma apply_batch_outcome s b ops r s' :
  Layout.bucket_ok b → Forall txn_ok ops → Store.apply_batch b ops s = (r, s') →
  (store_inv s → store_inv s')
  ∧ (store_good s → r = Ret (Ok tt) ∧ store_good s')
  ∧ match r with
    | Ret (Ok _) => shows s' (batched s b ops)
    | Ret (Err _) => shows s' (view s) ∨ shows s' (batched s b ops)
    | Panic => False
    end.
Proof.
  intros Hb Hok Hr. pose proof (wp_elim _ _ _ _ _ (spec_apply_batch s b ops Hok) Hr) as Hp.
  destruct (post_shows _ _ _ _ (λ _, batched s b ops) _ _ Hp) as [Hi Hm].
  { intros [] ws (items & Hitems & ->). split.
    - intros b' k' Hb'. by apply view_batch.
    - by eapply inv_batch. }
  split; [done|]. split.
  - intros Hg. destruct (post_good _ _ _ _ _ Hp Hg Hi) as [? Hx]. destruct r as [[[]|]|]; naive_solver.
  - destruct r as [[[]|]|]; [done| |done]. destruct Hm as [|[]]; auto.
Qed.

Lemma get_outcome s b k r s' :
  Store.get b k s = (r, s') →
  (store_inv s → store_inv s') ∧ (∀ b' k', view s' b' k' = view s b' k')
  ∧ (store_good s → r = Ret (Ok (view s b k)) ∧ store_good s')
  ∧ match r with Ret (Ok o) => o = view s b k | Ret (Err _) => True | Panic => False end.
Proof.
  intros Hr. pose proof (wp_elim _ _ _ _ _ (spec_get s b k) Hr) as Hp.
  assert (applied s s' []) as Ha.
  { destruct Hp as [_ Hp]. destruct r as [[o|err]|]; [| |done].
    - by destruct Hp as (ws & [-> _] & Ha).
    - destruct Hp as [[[] _]|(_ & _ & ws & [->|(? & -> & _)] & Ha)]; done. }
  assert (store_inv s → store_inv s') as Hi by (intros Hs; by apply (inv_map_ext (cont s))).
  split; [done|]. split; [intros b' k'; unfold view; by rewrite (view_map_ext _ _ b' k' Ha)|].
  split.
  - intros Hg. destruct (post_good _ _ _ _ _ Hp Hg Hi) as [? Hx]. destruct r as [[o|]|]; naive_solver.
  - destruct Hp as [_ Hp]. destruct r as [[o|err]|]; [|done|done]. by destruct Hp as (ws & [_ ->] & _).
Qed.

(** ** Policies *)

Definition policy_map (m : keyspace → gmap bytes bytes) (b : BucketId) : option BucketPolicy :=
  m Meta !! as_str b ≫= λ l, result_ok (decode_policy l).

Definition policy_view (s : Store.FjallStore) : BucketId → option BucketPolicy := policy_map (cont s).

Definition readable_policy (s : Store.FjallStore) (b : BucketId) : Prop :=
  ∀ l, cont s Meta !! as_str b = Some l → is_ok (decode_policy l) = true.

Lemma wp_qm_policy {A} s (good : Prop) (r : result A bytes) W D :
  match r with Ok a => W a [] | Err _ => ¬ good end →
  wp (Store.qm_policy r) s (post s good W D).
Proof.
  unfold wp, Store.qm_policy. destruct r as [a|e]; simpl; intros Hr; (split; [done|]).
  - by exists [].
  - right. split; [by eexists|]. split; [done|]. exists []. split; [by left|done].
Qed.

Lemma spec_get_policy s b :
  wp (Store.get_policy b) s (post s (healthy (Store.db s) ∧ readable_policy s b)
    (λ r ws, ws = [] ∧ r = policy_view s b) (λ _, False)).
Proof.
  eapply wp_step with (R := λ o, o = cont s Meta !! as_str b).
  - eapply wp_read; [apply get_law|by intros []|done].
  - intros o s1 -> Hf Ha. unfold policy_view, policy_map.
    destruct (cont s Meta !! as_str b) as [l|] eqn:Hl; simpl.
    + apply (wp_last s1 _ _ Some), wp_qm_policy. destruct (decode_policy l) eqn:Ed; [done|].
      intros [_ Hr]. specialize (Hr l Hl). by rewrite Ed in Hr.
    + apply wp_ret. split; [done|]. by exists [].
Qed.

Lemma spec_create_bucket s b p :
  PolicyCodec.policy_wf p →
  wp (Store.create_bucket b p) s (post s (healthy (Store.db s))
    (λ _ ws, ∃ l, encode_policy p = Ok l ∧ ws = [BatchInsert Meta (as_str b) l]) (λ _, False)).
Proof.
  intros Hp. destruct (PolicyCodec.decode_encode_policy p Hp) as (l & Hl & _).
  eapply wp_step with (R := λ x, x = l).
  - apply wp_qm_policy. rewrite Hl. by split.
  - intros x s1 -> (_ & _ & Hh) _. apply (wp_last s1 _ _ (λ _, tt)).
    eapply wp_write; [apply insert_law|done|]. eauto.
Qed.

Lemma spec_delete_bucket s b :
  wp (Store.delete_bucket b) s (post s (healthy (Store.db s))
    (λ _ ws, ws = [BatchRemove Meta (as_str b)]) (λ _, False)).
Proof.
  apply (wp_last s _ _ (λ _, tt)). eapply wp_write; [apply remove_law|done|done].
Qed.

Lemma policy_map_ext m m' b : (∀ ks, m' ks = m ks) → policy_map m' b = policy_map m b.
Proof. intros Hm. unfold policy_map. by rewrite Hm. Qed.

Lemma bucket_id_eq (b b' : BucketId) : as_str b = as_str b' → b = b'.
Proof. destruct b, b'. simpl. congruence. Qed.

Lemma policy_insert m b p l b' :
  PolicyCodec.policy_wf p → encode_policy p = Ok l →
  policy_map (apply_writes m [BatchInsert Meta (as_str b) l]) b'
  = if decide (b' = b) then Some p else policy_map m b'.
Proof.
  intros Hp Hl. destruct (PolicyCodec.decode_encode_policy p Hp) as (l' & Hl' & Hd).
  assert (l' = l) as -> by congruence. unfold policy_map. simpl. unfold apply_write. simpl.
  case_decide as Hb; [subst; rewrite lookup_insert_eq; simpl; by rewrite Hd|].
  rewrite lookup_insert_ne; [done|]. intros He. apply Hb. symmetry. by apply bucket_id_eq.
Qed.

Lemma policy_remove m b b' :
  policy_map (apply_writes m [BatchRemove Meta (as_str b)]) b'
  = if decide (b' = b) then None else policy_map m b'.
Proof.
  unfold policy_map. simpl. unfold apply_write. simpl.
  case_decide as Hb; [subst; by rewrite lookup_delete_eq|].
  rewrite lookup_delete_ne; [done|]. intros He. apply Hb. symmetry. by apply bucket_id_eq.
Qed.

(** A write to the metadata does not touch the keys. *)
Lemma view_meta_writes m l k b' k' :
  view_map (apply_writes m [BatchInsert Meta k l]) b' k' = view_map m b' k'
  ∧ view_map (apply_writes m [BatchRemove Meta k]) b' k' = view_map m b' k'.
Proof. done. Qed.

#[global] Instance store_bucket_spec : BucketRepoSpec Store.FjallStore.
Proof.
  refine (Build_BucketRepoSpec _ _ policy_view PolicyCodec.policy_wf _ _ _).
  - intros s b r s' Hr. pose proof (wp_elim _ _ _ _ _ (spec_get_policy s b) Hr) as [_ (ws & [-> ->] & Ha)].
    split; [done|]. intros b'. unfold policy_view. by rewrite (policy_map_ext _ _ b' Ha).
  - intros s b p s' Hp Hr b'.
    pose proof (wp_elim _ _ _ _ _ (spec_create_bucket s b p Hp) Hr) as [_ (ws & (l & Hl & ->) & Ha)].
    unfold policy_view. rewrite (policy_map_ext _ _ b' Ha). by apply policy_insert.
  - intros s b s' Hr b'.
    pose proof (wp_elim _ _ _ _ _ (spec_delete_bucket s b) Hr) as [_ (ws & -> & Ha)].
    unfold policy_view. rewrite (policy_map_ext _ _ b' Ha). apply policy_remove.
Defined.

#[global] Instance store_key_spec : KeyRepoSpec Store.FjallStore.
Proof.
  refine (Build_KeyRepoSpec _ _ _ Layout.bucket_ok view store_inv store_good
            _ _ _ _ _ _ _ _ _ _ _ _).
  - by intros s (_ & _ & Hi).
  - intros s b k r s' Hr. by apply get_outcome in Hr as (_ & Hv & _ & ->).
  - intros s b k v e s' Hb Hv Hr b' k' Hb'. apply set_outcome in Hr as (_ & _ & Hs); [|done|done].
    by apply Hs.
  - intros s b k existed s' Hb Hr. apply delete_outcome in Hr as (_ & _ & Hs & He); [|done].
    split; [done|]. intros b' k' Hb'. by apply Hs.
  - intros s b opts r s' Hb [Hwf _] Hr.
    destruct (wp_elim _ _ _ _ _ (list_spec s b opts) Hr) as (_ & Ha & Hl).
    split; [by apply Hl|]. intros b' k'. unfold view. by rewrite (view_map_ext _ _ b' k' Ha).
  - intros s now b k o e v s' Hb Hr. apply increment_outcome in Hr as (_ & _ & Hv & Hs); [|done].
    split; [done|]. intros b' k' Hb'. by apply Hs.
  - intros s b ops s' Hb Hok Hr b' k' Hb'.
    apply apply_batch_outcome in Hr as (_ & _ & Hs); [|done|done]. by apply Hs.
  - intros s b k Hg. simpl. destruct (Store.get b k s) as [r s'] eqn:Er. exists s'.
    apply get_outcome in Er as (_ & _ & Hgd & _). by destruct (Hgd Hg) as [-> ?].
  - intros s b k v e Hb Hg Hv. simpl. destruct (Store.set b k v e s) as [r s'] eqn:Er. exists s'.
    apply set_outcome in Er as (_ & Hgd & _); [|done|done]. by destruct (Hgd Hg) as [-> ?].
  - intros s b k Hb Hg. simpl. destruct (Store.delete b k s) as [r s'] eqn:Er.
    apply delete_outcome in Er as (_ & Hgd & _); [|done]. destruct (Hgd Hg) as [[existed ->] ?].
    by exists existed, s'.
  - intros s now b k o e Hb Hg. simpl. destruct (Store.increment now b k o e s) as [r s'] eqn:Er.
    exists s'. apply increment_outcome in Er as (_ & Hgd & _); [|done].
    by destruct (Hgd Hg) as [-> ?].
  - intros s b ops Hb Hg Hok. simpl. destruct (Store.apply_batch b ops s) as [r s'] eqn:Er.
    exists s'. apply apply_batch_outcome in Er as (_ & Hgd & _); [|done|done].
    by destruct (Hgd Hg) as [-> ?].
Defined.

End Instances.
