(* ===== verification/StoreProps.v ===== *)
(** * Properties of the Fjall adapter

    The statements quantify over every backend that satisfies [FjallLaws], failing ones included,
    and over every serializer, hash and clock library with the stated laws. *)

From Stdlib Require Import Strings.Byte.
From S2P Require Import Prelude RustStd TimeLib Domain Counter Ports Codec FjallLib Locks Store StoreSpec StoreList StoreRepo.

(** A store over the instance backend, for examples: the faults are the outcomes of the next
    backend calls. *)
Definition demo_store (m : keyspace → gmap bytes bytes) (fs : list bool) : Store.FjallStore :=
  Store.mkStore (mkFaultDb m fs) Locks.new false [].

Lemma demo_good fs : Forall (λ f, f = false) fs → store_good (demo_store (λ _, ∅) fs).
Proof.
  intros Hf. split; [done|]. split; [done|].
  assert (∀ sk l, cont (demo_store (λ _, ∅) fs) Data !! sk = Some l → False) as Hno.
  { intros sk l. change ((∅ : gmap bytes bytes) !! sk = Some l → False). by rewrite lookup_empty. }
  split; intros sk l; [intros Hl|intros ts Hl]; by apply Hno in Hl.
Qed.

Definition demo_bucket : BucketId := mkBucketId (bs "b1").
Definition demo_key : Key := mkKey (bs "k").
Definition demo_value : StoredValue := mkStored (bs "5") Value.Int64.

Lemma demo_bucket_ok : Layout.bucket_ok demo_bucket.
Proof. by apply (bool_decide_unpack _). Qed.

Lemma demo_value_ok : Value.value_ok demo_value.
Proof. unfold Value.value_ok. by vm_compute. Qed.

(** ** Metrics *)

Section Metrics.
Context {T : TimeOps} {P : PostcardOps} {J : PolicyJsonOps} {F : FjallOps} {H : HasherOps}
        {L : LayoutOps}.

Abbreviation op A := (comp Store.FjallStore A UseCaseError).

(** The error counter moves exactly for storage errors, and then once. *)
Definition error_events {A} (r : exec (result A UseCaseError)) (ms : list metric) : Prop :=
  match r with
  | Ret (Err (Storage _)) => ∃ kind, ms = [storage_errors_total kind]
  | _ => ms = []
  end.

Definition counted {A} (m : op A) : Prop :=
  ∀ s r s', m s = (r, s') →
    ∃ ms, Store.metrics s' = Store.metrics s ++ ms ∧ error_events r ms.

(** A recorded operation adds one sample of [storage_ops_total] with its outcome. *)
Definition op_label {A} (r : result A UseCaseError) : bytes :=
  if is_ok r then bs "ok" else bs "err".

Definition counted_as {A} (name : bytes) (m : op A) : Prop :=
  ∀ s r s', m s = (Ret r, s') →
    ∃ ms, Store.metrics s' = Store.metrics s ++ ms ++ [storage_ops_total name (op_label r)]
          ∧ error_events (Ret r) ms.

Lemma counted_ret {A} (a : A) : counted (comp_ret a).
Proof. intros s r s' [= <- <-]. exists []. by rewrite app_nil_r. Qed.

Lemma counted_qm {A} (x : result A (FjallError fjall_error)) : counted (Store.qm x).
Proof.
  intros s r s'. unfold Store.qm. destruct x as [a|e]; intros [= <- <-].
  - exists []. by rewrite app_nil_r.
  - exists [storage_errors_total (Store.kind_label e)]. split; [done|]. by eexists.
Qed.

Lemma counted_qm_policy {A} (x : result A bytes) : counted (Store.qm_policy x).
Proof.
  intros s r s'. unfold Store.qm_policy. destruct x as [a|e]; intros [= <- <-].
  - exists []. by rewrite app_nil_r.
  - exists [storage_errors_total (bs "codec_policy")]. split; [done|]. by eexists.
Qed.

Lemma counted_on_db {A} (f : Database → result A fjall_error * Database) : counted (Store.on_db f).
Proof.
  intros s r s'. unfold Store.on_db. destruct (f (Store.db s)) as [x d].
  intros Hr. by apply counted_qm in Hr.
Qed.

Lemma counted_domain {A} (x : result A DomainError) : counted (comp_lift (from_domain x)).
Proof. intros s r s' [= <- <-]. exists []. rewrite app_nil_r. by destruct x. Qed.

Lemma counted_bind {A B} (m : op A) (f : A → op B) :
  counted m → (∀ a, counted (f a)) → counted (comp_bind m f).
Proof.
  intros Hm Hf s r s'. unfold comp_bind. destruct (m s) as [[[a|e]|] s1] eqn:Em;
    destruct (Hm _ _ _ Em) as (ms & Hms & He).
  - intros Hr. destruct (Hf _ _ _ _ Hr) as (ms' & Hms' & He'). exists ms'. split; [|done].
    simpl in He. subst ms. by rewrite Hms', Hms, app_nil_r.
  - intros [= <- <-]. by exists ms.
  - intros [= <- <-]. by exists ms.
Qed.

Lemma counted_guard k : counted (Store.guard k).
Proof.
  intros s r s' Hr. unfold Store.guard in Hr.
  revert Hr. apply counted_bind; [apply counted_qm|]. intros. apply counted_ret.
Qed.

Lemma counted_recorded {A} name (m : op A) : counted m → counted_as name (Store.recorded name m).
Proof.
  intros Hm s r s'. unfold Store.recorded. destruct (m s) as [[x|] s1] eqn:Em; [|done].
  intros [= <- <-]. destruct (Hm _ _ _ Em) as (ms & Hms & He). exists ms. split; [|done].
  simpl. by rewrite Hms, <- app_assoc.
Qed.

Lemma counted_lift_locks ks :
  counted (λ s, Store.qm (Locks.lock_stripes_for_keys (Store.write_locks s) ks) s).
Proof. intros s r s' Hr. by apply counted_qm in Hr. Qed.

Lemma counted_write_entry k l e : counted (Store.write_entry k l e).
Proof. destruct e; apply counted_on_db. Qed.

Lemma counted_scan p : counted (Store.scan_data p).
Proof.
  intros s r s'. unfold Store.scan_data. destruct (ks_prefix Data p (Store.db s)).
  intros [= <- <-]. exists []. by rewrite app_nil_r.
Qed.

Ltac counted := repeat first
  [ apply counted_guard | apply counted_lift_locks | apply counted_write_entry | apply counted_scan
  | apply counted_ret | apply counted_qm | apply counted_qm_policy | apply counted_on_db
  | apply counted_domain | apply counted_bind; [|intros] | case_match ].

Lemma counted_reverse_loop b opts w gs d : counted (Store.reverse_loop b opts w gs d).
Proof. revert d. induction gs as [|g gs IH]; intros d; simpl; counted; apply IH. Qed.

Lemma counted_forward_loop b opts gs sk n out : counted (Store.forward_loop b opts gs sk n out).
Proof. revert sk n out. induction gs as [|g gs IH]; intros sk n out; simpl; counted; apply IH. Qed.

Lemma counted_list_inner b opts : counted (Store.list_inner b opts).
Proof.
  unfold Store.list_inner. counted; try apply counted_reverse_loop; try apply counted_forward_loop.
  intros s r s' [= <- <-]. exists []. by rewrite app_nil_r.
Qed.

Lemma counted_ping s r s' :
  Store.fail_ping_metadata s = false → Store.ping_metadata s = (Ret r, s') →
  ∃ ms, Store.metrics s' = Store.metrics s ++ ms ++ [storage_ops_total (bs "ping_metadata") (op_label r)]
        ∧ error_events (Ret r) ms.
Proof.
  intros Hp. unfold Store.ping_metadata. rewrite Hp. apply counted_recorded. counted.
Qed.

End Metrics.

(** ** Theorems *)

Section Theorems.
Context {T : TimeOps} {P : PostcardOps} {J : PolicyJsonOps} {F : FjallOps} {H : HasherOps}
        {L : LayoutOps}.
Context {TL : TimeLaws T} {PL : PostcardLaws P} {JL : PolicyJsonLaws J} {FL : FjallLaws F}
        {LL : LayoutLaws L}.

(** [set] is atomic on the abstract state and touches nothing else. On success the entry at
    [(bucket, key)] is the value with its expiry at whole seconds and every other entry is
    unchanged; on a storage error either nothing changed or exactly that entry did. The
    invariant (records decode, expiring records are indexed) survives every outcome, and in a
    store whose backend and locks are healthy the call succeeds. *)
Theorem store_set_atomic (s s' : Store.FjallStore) (b : BucketId) (k : Key) (v : StoredValue)
    (e : option OffsetDateTime) (r : exec (result unit UseCaseError)) :
  Layout.bucket_ok b → Value.value_ok v → Store.set b k v e s = (r, s') →
  (store_inv s → store_inv s')
  ∧ (store_good s → r = Ret (Ok tt) ∧ store_good s')
  ∧ match r with
    | Ret (Ok _) => shows s' (updated s b k (Some (written v e)))
    | Ret (Err _) => shows s' (view s) ∨ shows s' (updated s b k (Some (written v e)))
    | Panic => False
    end.
Proof. apply set_outcome. Qed.

(** C8: [increment] refines the abstract counter step. The stored counter changes from the
    operand it held (zero when absent or expired) to the result of the arithmetic, which is
    what the call returns. A domain error (not numeric, overflow, non-finite) is the error of the
    arithmetic and leaves every entry unchanged; when the read of the counter fails the call
    answers with a storage error and every entry is unchanged; after any other error either
    nothing changed or the counter holds the result. With a healthy backend the outcome is exactly
    the outcome of the arithmetic. *)
Theorem store_increment_refines (s s' : Store.FjallStore) (now : OffsetDateTime) (b : BucketId)
    (k : Key) (o : Counter.CounterOp) (e : option OffsetDateTime)
    (r : exec (result StoredValue UseCaseError)) :
  Layout.bucket_ok b → Store.increment now b k o e s = (r, s') →
  (store_inv s → store_inv s')
  ∧ (store_good s → r = Ret (from_domain (incremented now (view s b k) o)) ∧ store_good s')
  ∧ match r with
    | Ret (Ok v) =>
      incremented now (view s b k) o = Ok v ∧ shows s' (updated s b k (Some (written v e)))
    | Ret (Err (DomainErr de)) => incremented now (view s b k) o = Err de ∧ shows s' (view s)
    | Ret (Err _) =>
      shows s' (view s)
      ∨ ∃ v, incremented now (view s b k) o = Ok v ∧ shows s' (updated s b k (Some (written v e)))
    | Panic => False
    end
  ∧ ∀ err d, ks_get Data (Layout.data_storage_key b k) (Store.db s) = (Err err, d) →
      (∃ msg, r = Ret (Err (Storage msg))) ∧ shows s' (view s).
Proof.
  intros Hb Hr. pose proof (increment_outcome _ _ _ _ _ _ _ _ Hb Hr) as (H1 & H2 & H3).
  split; [done|]. split; [done|]. split; [|eauto using increment_read_error].
  destruct r as [[|[]]|]; try done. by eapply increment_domain_error.
Qed.

(** C7: A transaction batch is all or nothing. On success every key of the bucket holds the
    result of the operations folded in order and no other bucket changed; on an error either
    nothing changed or the whole batch did; the invariant survives; with a healthy backend the
    batch commits. *)
Theorem store_batch_atomic (s s' : Store.FjallStore) (b : BucketId) (ops : list TxnOp)
    (r : exec (result unit UseCaseError)) :
  Layout.bucket_ok b → Forall txn_ok ops → Store.apply_batch b ops s = (r, s') →
  (store_inv s → store_inv s')
  ∧ (store_good s → r = Ret (Ok tt) ∧ store_good s')
  ∧ match r with
    | Ret (Ok _) => shows s' (batched s b ops)
    | Ret (Err _) => shows s' (view s) ∨ shows s' (batched s b ops)
    | Panic => False
    end.
Proof. apply apply_batch_outcome. Qed.

(** [delete] removes exactly the entry at [(bucket, key)] and reports whether there was
    one; on a storage error the entry is still there or gone, and nothing else changed. *)
Theorem store_delete_exact (s s' : Store.FjallStore) (b : BucketId) (k : Key)
    (r : exec (result bool UseCaseError)) :
  Layout.bucket_ok b → Store.delete b k s = (r, s') →
  (store_inv s → store_inv s')
  ∧ (store_good s → (∃ existed, r = Ret (Ok existed)) ∧ store_good s')
  ∧ match r with
    | Ret (Ok existed) =>
      shows s' (updated s b k None)
      ∧ (store_inv s → existed = bool_decide (is_Some (view s b k)))
    | Ret (Err _) => shows s' (view s) ∨ shows s' (updated s b k None)
    | Panic => False
    end.
Proof. apply delete_outcome. Qed.

(** C9: A listing is a page of the reference listing. The rows are those of the keys of the
    bucket with the requested prefix that have not expired before the cutoff, in byte order
    (reversed on request), after [skip] rows and at most [limit] of them, with the values iff
    requested. The early exit of the forward scan and the sliding window of the reverse scan
    compute the same page; a healthy store never answers with an error, no entry is touched,
    and the only panic is the capacity overflow of a reverse listing. *)
Theorem store_list_reference (s s' : Store.FjallStore) (b : BucketId) (opts : ListOpts)
    (r : exec (result (list ListEntry) UseCaseError)) :
  store_inv s → Store.list b opts s = (r, s') →
  shows s' (view s)
  ∧ match r with
    | Ret (Ok l) =>
      ∃ ks, StronglySorted key_lt ks ∧ (∀ k, k ∈ ks ↔ listed (view s b) opts k)
            ∧ l = page opts (list_row (view s b) opts <$> ks)
    | Ret (Err _) => ¬ store_good s
    | Panic => reverse opts = true
               ∧ (Usize.isize_max < size_of_ListEntry * (skip opts + limit opts))%N
    end.
Proof.
  intros [Hwf _] Hr. destruct (wp_elim _ _ _ _ _ (list_spec s b opts) Hr) as (_ & Ha & Hl).
  split; [intros b' k' _; unfold view; by rewrite (view_map_ext _ _ b' k' Ha)|].
  destruct r as [[l|]|]; [by apply Hl|apply Hl|done].
Qed.

(** C36: A listing panics on a large window. A listing panics exactly when it is reversed, its limit
    is not zero and a vector of [skip + limit] list entries (a saturating sum) would exceed
    [isize::MAX] bytes, whatever the bucket holds: the window is allocated before the scan. The
    panic leaves the store as it was; with a limit of zero the answer is empty, whatever the skip. *)
Theorem reverse_list_capacity_panic (s s' : Store.FjallStore) (b : BucketId) (opts : ListOpts)
    (r : exec (result (list ListEntry) UseCaseError)) :
  Store.list b opts s = (r, s') →
  (r = Panic ↔
     reverse opts = true ∧ (0 < limit opts)%N
     ∧ (Usize.isize_max < size_of_ListEntry * N.min (skip opts + limit opts) Usize.usize_max)%N)
  ∧ (r = Panic → s' = s)
  ∧ (limit opts = 0%N → r = Ret (Ok [])).
Proof.
  unfold Store.list, Store.recorded. intros Hr. split; [split|split].
  - intros ->. apply (list_inner_panic s b opts s'). by destruct (Store.list_inner b opts s) as [[]]; simplify_eq/=.
  - intros Ho. rewrite (list_inner_overflows s b opts Ho) in Hr. by simplify_eq.
  - intros ->. apply (list_inner_panic s b opts s'). by destruct (Store.list_inner b opts s) as [[]]; simplify_eq/=.
  - intros Hz. unfold Store.list_inner in Hr. rewrite Hz in Hr. by simplify_eq/=.
Qed.

(** Bucket policies are stored faithfully. After a successful creation (or replacement) the
    policy of the bucket is the one written and a healthy store returns it; after a successful
    deletion it is gone; other buckets keep theirs. Neither touches any key: in particular
    deleting a bucket leaves its key data in place. *)
Theorem store_policy_roundtrip (s s1 s2 : Store.FjallStore) (b : BucketId) (p : BucketPolicy) :
  PolicyCodec.policy_wf p →
  Store.create_bucket b p s = (Ret (Ok tt), s1) → Store.delete_bucket b s1 = (Ret (Ok tt), s2) →
  (∀ b', policy_view s1 b' = if decide (b' = b) then Some p else policy_view s b')
  ∧ (∀ b', policy_view s2 b' = if decide (b' = b) then None else policy_view s b')
  ∧ shows s1 (view s) ∧ shows s2 (view s)
  ∧ (healthy (Store.db s1) → ∃ s', Store.get_policy b s1 = (Ret (Ok (Some p)), s')).
Proof.
  intros Hp Hc Hd. pose proof (br_create s b p s1 Hp Hc) as Hc1. pose proof (br_delete s1 b s2 Hd) as Hd1.
  simpl in Hc1, Hd1.
  destruct (wp_elim _ _ _ _ _ (spec_create_bucket s b p Hp) Hc) as [_ (ws & (l & Hl & ->) & Ha)].
  destruct (wp_elim _ _ _ _ _ (spec_delete_bucket s1 b) Hd) as [_ (ws & -> & Ha2)].
  assert (shows s1 (view s)) as Hs1.
  { intros b' k' _. unfold view. rewrite (view_map_ext _ _ b' k' Ha). by apply view_meta_writes. }
  split; [done|]. split; [intros b'; rewrite (Hd1 b'), (Hc1 b'); by case_decide|].
  split; [done|]. split.
  - intros b' k' Hb'. rewrite <- (Hs1 b' k' Hb'). unfold view. rewrite (view_map_ext _ _ b' k' Ha2).
    by apply (view_meta_writes (cont s1) []).
  - intros Hh. destruct (Store.get_policy b s1) as [r s'] eqn:Er.
    pose proof (Hc1 b) as Hpol. rewrite decide_True in Hpol by done.
    assert (readable_policy s1 b) as Hrd.
    { intros x Hx. unfold policy_view, policy_map in Hpol. rewrite Hx in Hpol. simpl in Hpol.
      by destruct (decode_policy x). }
    destruct (wp_elim _ _ _ _ _ (spec_get_policy s1 b) Er) as [_ Hr]. exists s'.
    destruct r as [[o|err]|]; [|naive_solver|done]. destruct Hr as (ws & [_ ->] & _). by rewrite Hpol.
Qed.

(** Every storage error is counted exactly once, whatever the backend does. Each call of a
    repository method (production build) appends to the metrics at most one
    [storage_errors_total] sample, exactly when it returns a storage error, followed, for the
    instrumented methods, by one [storage_ops_total] sample labelled with the outcome; domain
    errors such as a counter overflow are not counted as storage errors. *)
Theorem storage_errors_counted_once :
  (∀ b k, counted_as (bs "get") (Store.get b k))
  ∧ (∀ b k v e, counted_as (bs "set") (Store.set b k v e))
  ∧ (∀ b k, counted_as (bs "delete") (Store.delete b k))
  ∧ (∀ b opts, counted_as (bs "list") (Store.list b opts))
  ∧ (∀ now b k o e, counted_as (bs "increment") (Store.increment now b k o e))
  ∧ (∀ b ops, counted_as (bs "apply_batch") (Store.apply_batch b ops))
  ∧ (∀ b, counted (Store.get_policy b))
  ∧ (∀ b p, counted (Store.create_bucket b p))
  ∧ (∀ b, counted (Store.delete_bucket b))
  ∧ (∀ s r s', Store.fail_ping_metadata s = false → Store.ping_metadata s = (Ret r, s') →
       ∃ ms, Store.metrics s'
             = Store.metrics s ++ ms ++ [storage_ops_total (bs "ping_metadata") (op_label r)]
             ∧ error_events (Ret r) ms).
Proof.
  repeat match goal with |- _ ∧ _ => split end; intros;
    try apply counted_recorded; unfold Store.get_policy, Store.create_bucket, Store.delete_bucket.
  all: first [apply counted_list_inner | by eapply counted_ping | idtac].
  all: repeat first
    [ apply counted_guard | apply counted_lift_locks | apply counted_write_entry
    | apply counted_ret | apply counted_qm | apply counted_qm_policy | apply counted_on_db
    | apply counted_domain | apply counted_bind; [|intros] | case_match ].
Qed.

End Theorems.

(** ** Witnesses *)

Definition demo0 : Store.FjallStore := demo_store (λ _, ∅) [].

Lemma demo0_good : store_good demo0.
Proof. apply demo_good. constructor. Qed.

Lemma store_set_atomic_witness :
  let s' := (Store.set demo_bucket demo_key demo_value None demo0).2 in
  shows s' (updated demo0 demo_bucket demo_key (Some (written demo_value None))).
Proof.
  destruct (store_set_atomic demo0 (Store.set demo_bucket demo_key demo_value None demo0).2
    demo_bucket demo_key demo_value None (Ret (Ok tt))) as (_ & _ & Hs).
  - exact demo_bucket_ok.
  - exact demo_value_ok.
  - apply pair_fst. by vm_compute.
  - exact Hs.
Defined.

Lemma store_increment_refines_witness :
  let s' := (Store.increment (at_nanos 0) demo_bucket demo_key (Counter.OpInt 7) None demo0).2 in
  incremented (at_nanos 0) (view demo0 demo_bucket demo_key) (Counter.OpInt 7)
  = Ok (mkStored (bs "7") Value.Int64)
  ∧ shows s' (updated demo0 demo_bucket demo_key (Some (written (mkStored (bs "7") Value.Int64) None))).
Proof.
  destruct (store_increment_refines demo0
    (Store.increment (at_nanos 0) demo_bucket demo_key (Counter.OpInt 7) None demo0).2
    (at_nanos 0) demo_bucket demo_key (Counter.OpInt 7) None
    (Ret (Ok (mkStored (bs "7") Value.Int64)))) as (_ & _ & Hs & _).
  - exact demo_bucket_ok.
  - apply pair_fst. by vm_compute.
  - exact Hs.
Defined.

(** A batch whose commit fails: here nothing of it is visible. *)
Lemma store_batch_atomic_witness :
  let s := demo_store (λ _, ∅) [true] in
  let ops := [TxnSet demo_key demo_value None; TxnDelete (mkKey (bs "x"))] in
  let s' := (Store.apply_batch demo_bucket ops s).2 in
  shows s' (view s) ∨ shows s' (batched s demo_bucket ops).
Proof.
  intros s ops s'.
  destruct (store_batch_atomic s s' demo_bucket ops (Ret (Err (Storage io_error)))) as (_ & _ & Hs).
  - exact demo_bucket_ok.
  - constructor; [exact demo_value_ok|]. constructor; [exact I|constructor].
  - apply pair_fst. by vm_compute.
  - exact Hs.
Defined.

Lemma store_delete_exact_witness :
  let s := (Store.set demo_bucket demo_key demo_value None demo0).2 in
  shows (Store.delete demo_bucket demo_key s).2 (updated s demo_bucket demo_key None).
Proof.
  intros s.
  destruct (store_delete_exact s (Store.delete demo_bucket demo_key s).2 demo_bucket demo_key
    (Ret (Ok true))) as (_ & _ & Hs & _).
  - exact demo_bucket_ok.
  - apply pair_fst. by vm_compute.
  - exact Hs.
Defined.

Lemma store_list_reference_witness :
  let s := (Store.set demo_bucket demo_key demo_value None demo0).2 in
  let opts := mkListOpts None 10 0 true true None in
  ∃ ks, (∀ k, k ∈ ks ↔ listed (view s demo_bucket) opts k)
        ∧ [mkListEntry demo_key (Some demo_value)]
          = page opts (list_row (view s demo_bucket) opts <$> ks).
Proof.
  intros s opts.
  destruct (store_list_reference s (Store.list demo_bucket opts s).2 demo_bucket opts
    (Ret (Ok [mkListEntry demo_key (Some demo_value)]))) as (_ & ks & _ & Hk & Hp).
  - destruct (set_outcome demo0 demo_bucket demo_key demo_value None (Ret (Ok tt)) s) as [Hi _].
    + exact demo_bucket_ok.
    + exact demo_value_ok.
    + apply pair_fst. by vm_compute.
    + apply Hi, demo0_good.
  - apply pair_fst. by vm_compute.
  - exists ks. split; [exact Hk|exact Hp].
Defined.

Lemma reverse_list_capacity_panic_witness :
  let opts := mkListOpts None 100 Usize.usize_max true false None in
  (Store.list demo_bucket opts demo0).1 = Panic ∧ (Store.list demo_bucket opts demo0).2 = demo0.
Proof.
  intros opts. destruct (reverse_list_capacity_panic demo0 (Store.list demo_bucket opts demo0).2
    demo_bucket opts (Store.list demo_bucket opts demo0).1) as (H1 & H2 & _).
  - apply surjective_pairing.
  - assert ((Store.list demo_bucket opts demo0).1 = Panic) as Hp.
    { apply H1. split; [done|]. split; [done|]. by vm_compute. }
    split; [exact Hp|exact (H2 Hp)].
Defined.

Definition demo_policy : BucketPolicy :=
  mkPolicy (Some 60%N) Permission.READ_ONLY (Some (bs "h")) None None None 1.

Lemma store_policy_roundtrip_witness :
  let s1 := (Store.create_bucket demo_bucket demo_policy demo0).2 in
  ∃ s', Store.get_policy demo_bucket s1 = (Ret (Ok (Some demo_policy)), s').
Proof.
  intros s1.
  destruct (store_policy_roundtrip demo0 s1 (Store.delete_bucket demo_bucket s1).2 demo_bucket
    demo_policy) as (_ & _ & _ & _ & Hg).
  - by apply (bool_decide_unpack _).
  - apply pair_fst. by vm_compute.
  - apply pair_fst. by vm_compute.
  - apply Hg. constructor.
Defined.
