(* ===== verification/Gc.v ===== *)
(** * [keydock-fjall/src/gc.rs]: the expiry sweeper

    One sweep walks the expiry index in order up to the current second. For each due index key
    it takes the write lock of the storage key, drops the index key, and removes the record if
    that still carries the same expiry. The sweeper works on the same keyspaces and locks as the
    store, so its state is [FjallStore]. *)

From Stdlib Require Import Strings.Byte.
From S2P Require Import Prelude RustStd TimeLib Domain Counter Ports Codec FjallLib Locks Store StoreSpec StoreList StoreRepo StoreProps.

Module Gc.

Section Gc.
Context {T : TimeOps} {P : PostcardOps} {J : PolicyJsonOps} {F : FjallOps} {H : HasherOps}
        {L : LayoutOps}.

Abbreviation FjallStore := Store.FjallStore.

(** A backend call whose error is only logged. *)
Definition call {A} (f : Database → result A fjall_error * Database) (s : FjallStore)
  : result A fjall_error * FjallStore :=
  let '(r, d) := f (Store.db s) in (r, Store.set_db d s).

(** Expiry verification: removes the record if it still carries the expiry of the index key. *)
Definition remove_if_due (now_ts : Z) (expires_unix : Z) (storage_key : bytes) (s : FjallStore)
  : bool * FjallStore :=
  match call (ks_get Data storage_key) s with
  | (Err _, s) => (false, s)
  | (Ok None, s) => (false, s)
  | (Ok (Some v), s) =>
    match decode_entry_expires_unix (E := fjall_error) v with
    | Err _ => (false, s)
    | Ok None => (false, s)
    | Ok (Some actual_unix) =>
      if now_ts <? actual_unix then (false, s)
      else if negb (actual_unix =? expires_unix) then (false, s)
      else match call (ks_remove Data storage_key) s with
           | (Ok _, s) => (true, s)
           | (Err _, s) => (false, s)
           end
    end
  end.

(** The body of the loop for a due index key, from the lock on; [true] when a record was
    removed. *)
Definition sweep_entry (now_ts : Z) (expiry_key : bytes) (expires_unix : Z) (storage_key : bytes)
    (s : FjallStore) : bool * FjallStore :=
  match Locks.lock_for (E := fjall_error) (Store.write_locks s) storage_key with
  | Err _ => (false, s)
  | Ok _ =>
    match call (ks_remove Expiry expiry_key) s with
    | (Err _, s) => (false, s)
    | (Ok _, s) => remove_if_due now_ts expires_unix storage_key s
    end
  end.

Fixpoint sweep_loop (now_ts : Z) (guards : list (result (bytes * bytes) fjall_error))
    (keys_removed : N) (s : FjallStore) : N * FjallStore :=
  match guards with
  | [] => (keys_removed, s)
  | Err _ :: guards' => sweep_loop now_ts guards' keys_removed s
  | Ok (expiry_key, _) :: guards' =>
    match ExpiryIndex.parse_expiry_index_key expiry_key with
    | None => sweep_loop now_ts guards' keys_removed s
    | Some (expires_unix, storage_key) =>
      if now_ts <? expires_unix then (keys_removed, s)
      else
        let (removed, s) := sweep_entry now_ts expiry_key expires_unix storage_key s in
        sweep_loop now_ts guards' (if removed : bool then keys_removed + 1 else keys_removed)%N s
    end
  end.

Definition sweep_keyspace (now : OffsetDateTime) (s : FjallStore) : FjallStore :=
  let now_ts := unix_timestamp now in
  let '(guards, d) := ks_iter Expiry (Store.db s) in
  let '(keys_removed, s) := sweep_loop now_ts guards 0 (Store.set_db d s) in
  if (0 <? keys_removed)%N then Store.record (gc_keys_expired_total keys_removed) s else s.

(** The sweeper has clones of the handles of the store, which are the store's own state; what is
    left of it is its interval, in seconds. *)
Record GcSweeper : Type := mkSweeper { interval : N }.

(** [GcSweeper::new] on the handles of [FjallStore::build_gc_sweeper]. *)
Definition build_gc_sweeper (s : FjallStore) (interval : N) : GcSweeper := mkSweeper interval.

Definition sweep_once (sweeper : GcSweeper) (now : OffsetDateTime) (s : FjallStore) : FjallStore :=
  sweep_keyspace now s.

(** What the select of [GcSweeper::run] sees: the sleep ended at some instant, or the token was
    cancelled (which wins when both are ready). *)
Inductive event : Type := Elapsed (now : OffsetDateTime) | Cancelled.

Fixpoint run (events : list event) (s : FjallStore) : FjallStore :=
  match events with
  | [] => s
  | Cancelled :: _ => s
  | Elapsed now :: events' => run events' (sweep_keyspace now s)
  end.

(** ** What a sweep can do to the contents *)

Definition expires_unix_of (l : bytes) : option Z :=
  match decode_entry_expires_unix (E := fjall_error) l with Ok o => o | Err _ => None end.

(** [m'] differs from [m] only by due index keys and due records. *)
Definition swept (now_ts : Z) (m m' : keyspace → gmap bytes bytes) : Prop :=
  m' Meta = m Meta
  ∧ (∀ sk, m' Data !! sk = m Data !! sk
           ∨ (m' Data !! sk = None
              ∧ ∃ l ts, m Data !! sk = Some l ∧ expires_unix_of l = Some ts ∧ ts <= now_ts))
  ∧ (∀ ek, m' Expiry !! ek = m Expiry !! ek
           ∨ (m' Expiry !! ek = None
              ∧ ∃ ts sk, ExpiryIndex.parse_expiry_index_key ek = Some (ts, sk) ∧ ts <= now_ts)).

Lemma swept_refl now m m' : (∀ ks, m' ks = m ks) → swept now m m'.
Proof. intros Hm. split; [apply Hm|]. split; intros x; left; by rewrite Hm. Qed.

Lemma swept_trans now m m1 m2 : swept now m m1 → swept now m1 m2 → swept now m m2.
Proof.
  intros (H1 & H2 & H3) (H1' & H2' & H3'). split; [congruence|]. split.
  - intros sk. destruct (H2' sk) as [->|[Hn (l & ts & Hl & Ht)]]; [apply H2|]. right.
    split; [done|]. destruct (H2 sk) as [He|[Hn' _]]; [rewrite <- He; eauto|congruence].
  - intros ek. destruct (H3' ek) as [->|[Hn Hx]]; [apply H3|]. by right.
Qed.

Lemma swept_remove_index now m ek ts sk m' :
  ExpiryIndex.parse_expiry_index_key ek = Some (ts, sk) → ts <= now →
  (∀ ks, m' ks = apply_writes m [BatchRemove Expiry ek] ks) → swept now m m'.
Proof.
  intros Hp Ht Hm. split; [by rewrite Hm|]. split.
  - intros x. left. by rewrite Hm.
  - intros x. rewrite Hm. simpl. unfold apply_write. simpl. destruct (decide (x = ek)) as [->|].
    + right. rewrite lookup_delete_eq. eauto.
    + left. by rewrite lookup_delete_ne.
Qed.

Lemma swept_remove_data now m sk l ts m' :
  m Data !! sk = Some l → expires_unix_of l = Some ts → ts <= now →
  (∀ ks, m' ks = apply_writes m [BatchRemove Data sk] ks) → swept now m m'.
Proof.
  intros Hl Hx Ht Hm. split; [by rewrite Hm|]. split.
  - intros x. rewrite Hm. rewrite lookup_remove. case_decide; [|by left]. subst. right. eauto 6.
  - intros x. left. by rewrite Hm.
Qed.

(** ** A call in the sweeper *)

Context {TL : TimeLaws T} {PL : PostcardLaws P} {FL : FjallLaws F}.

Lemma call_read {A} (f : Database → result A fjall_error * Database) ans s r s' :
  read_law f ans → call f s = (r, s') →
  framed s s' ∧ Store.metrics s' = Store.metrics s ∧ (∀ ks, cont s' ks = cont s ks)
  ∧ match r with Ok a => a = ans (cont s) | Err _ => ¬ healthy (Store.db s) end.
Proof.
  intros Hl. unfold call. destruct (f (Store.db s)) as [x d] eqn:Ef. intros [= <- <-].
  destruct (Hl _ _ _ Ef) as (Hc & Hr & Hh). done.
Qed.

Lemma call_write f ws s r s' :
  write_law f ws → call f s = (r, s') →
  framed s s' ∧ Store.metrics s' = Store.metrics s
  ∧ match r with
    | Ok _ => ∀ ks, cont s' ks = apply_writes (cont s) ws ks
    | Err _ => ¬ healthy (Store.db s)
               ∧ ((∀ ks, cont s' ks = cont s ks)
                  ∨ ∀ ks, cont s' ks = apply_writes (cont s) ws ks)
    end.
Proof.
  intros Hl. unfold call. destruct (f (Store.db s)) as [x d] eqn:Ef. intros [= <- <-].
  destruct (Hl _ _ _ Ef) as (Hc & Hh). done.
Qed.

(** What one step of the sweep leaves: it only takes due data away, and counts nothing. *)
Definition step_ok (now : Z) (s s' : FjallStore) : Prop :=
  framed s s' ∧ Store.metrics s' = Store.metrics s ∧ swept now (cont s) (cont s').

Lemma step_ok_trans now s s1 s2 : step_ok now s s1 → step_ok now s1 s2 → step_ok now s s2.
Proof.
  intros (? & ? & ?) (? & ? & ?). split; [by eapply framed_trans|]. split; [congruence|].
  by eapply swept_trans.
Qed.

Lemma step_ok_refl now s s' :
  framed s s' → Store.metrics s' = Store.metrics s → (∀ ks, cont s' ks = cont s ks) →
  step_ok now s s'.
Proof. intros ? ? ?. split; [done|]. split; [done|]. by apply swept_refl. Qed.

(** No record of [sk] carries the expiry [ts]. *)
Definition clear (s : FjallStore) (sk : bytes) (ts : Z) : Prop :=
  ∀ l, cont s Data !! sk = Some l → expires_unix_of l ≠ Some ts.

Lemma remove_if_due_spec now ts sk s b s' :
  ts <= now → remove_if_due now ts sk s = (b, s') →
  step_ok now s s' ∧ cont s' Expiry = cont s Expiry
  ∧ (healthy (Store.db s) → clear s' sk ts).
Proof.
  intros Ht. unfold remove_if_due.
  destruct (call (ks_get Data sk) s) as [r2 s2] eqn:E2.
  destruct (call_read _ _ _ _ _ (get_law Data sk) E2) as (Hf2 & Hm2 & Hc2 & Hr2).
  assert (step_ok now s s2) as Hok by by apply step_ok_refl.
  assert (clear s sk ts → step_ok now s s2 ∧ cont s2 Expiry = cont s Expiry
          ∧ (healthy (Store.db s) → clear s2 sk ts)) as Hstay.
  { intros Hcl. split; [done|]. split; [done|]. intros _ l. rewrite Hc2. apply Hcl. }
  unfold clear in Hstay. destruct r2 as [o|]; [subst o|intros [= <- <-]; naive_solver].
  destruct (cont s Data !! sk) as [l|] eqn:Edata; [|intros [= <- <-]; by apply Hstay].
  assert (∀ o, decode_entry_expires_unix (E := fjall_error) l = o → expires_unix_of l
    = match o with Ok x => x | Err _ => None end) as Hx by (intros o <-; done).
  destruct (decode_entry_expires_unix l) as [[actual|]|] eqn:Ed; specialize (Hx _ eq_refl);
    [|by intros [= <- <-]; apply Hstay; intros ? [= <-]; rewrite Hx..].
  destruct (Z.ltb_spec now actual).
  { intros [= <- <-]. apply Hstay. intros ? [= <-]. rewrite Hx. intros [=]. lia. }
  destruct (Z.eqb_spec actual ts) as [->|]; simpl; last first.
  { intros [= <- <-]. apply Hstay. intros ? [= <-]. rewrite Hx. by intros [=]. }
  destruct (call (ks_remove Data sk) s2) as [r3 s3] eqn:E3.
  destruct (call_write _ _ _ _ _ (remove_law Data sk) E3) as (Hf3 & Hm3 & Hc3).
  rewrite <- Hc2 in Edata.
  assert (step_ok now s s3 ∧ cont s3 Expiry = cont s Expiry) as [Hok3 He3].
  { assert ((∀ ks, cont s3 ks = cont s2 ks)
      ∨ ∀ ks, cont s3 ks = apply_writes (cont s2) [BatchRemove Data sk] ks) as [Hc|Hc]
      by (destruct r3; [by right|tauto]);
    (split; [|rewrite Hc, <- Hc2; done]); (eapply step_ok_trans; [exact Hok|]).
    - by apply step_ok_refl.
    - split; [done|]. split; [done|]. by eapply swept_remove_data. }
  destruct r3 as [[]|]; intros [= <- <-]; (split; [done|]); (split; [done|]); intros Hh.
  - intros x. by rewrite Hc3, lookup_remove, decide_True.
  - exfalso. apply (proj1 Hc3). by apply Hf2.
Qed.

Lemma sweep_entry_spec now ek ts sk s b s' :
  ExpiryIndex.parse_expiry_index_key ek = Some (ts, sk) → ts <= now →
  sweep_entry now ek ts sk s = (b, s') →
  step_ok now s s'
  ∧ (healthy (Store.db s) → Locks.poisoned (Store.write_locks s) = ∅ →
     cont s' Expiry !! ek = None ∧ clear s' sk ts).
Proof.
  intros Hp Ht. unfold sweep_entry.
  destruct (Locks.lock_for (Store.write_locks s) sk) eqn:El; last first.
  { intros [= <- <-]. split; [by apply step_ok_refl|].
    intros _ Hpo. unfold Locks.lock_for, Locks.lock in El. rewrite Hpo in El.
    by rewrite bool_decide_eq_false_2 in El by apply not_elem_of_empty. }
  destruct (call (ks_remove Expiry ek) s) as [r1 s1] eqn:E1.
  destruct (call_write _ _ _ _ _ (remove_law Expiry ek) E1) as (Hf1 & Hm1 & Hc1).
  destruct r1 as [[]|]; last first.
  { intros [= <- <-]. destruct Hc1 as [Hn Hc1]. split; [|tauto]. destruct Hc1 as [Hc1|Hc1].
    - by apply step_ok_refl.
    - split; [done|]. split; [done|]. by eapply swept_remove_index. }
  intros Hr. destruct (remove_if_due_spec now ts sk s1 b s' Ht Hr) as (Hok & He & Hcl). split.
  - eapply step_ok_trans; [|exact Hok]. split; [done|]. split; [done|]. by eapply swept_remove_index.
  - intros Hh _. split; [|by apply Hcl, Hf1]. rewrite He, Hc1. simpl. unfold apply_write. simpl.
    apply lookup_delete_eq.
Qed.

(** ** The whole sweep *)

Lemma sweep_loop_ok now guards n s n' s' :
  sweep_loop now guards n s = (n', s') → step_ok now s s' ∧ (n <= n')%N.
Proof.
  revert n s. induction guards as [|g guards IH]; intros n s; simpl.
  { intros [= <- <-]. split; [by apply step_ok_refl|done]. }
  destruct g as [[ek v]|]; [|apply IH].
  destruct (ExpiryIndex.parse_expiry_index_key ek) as [[ts sk]|] eqn:Ep; [|apply IH].
  destruct (Z.ltb_spec now ts) as [|Hle].
  { intros [= <- <-]. split; [by apply step_ok_refl|done]. }
  destruct (sweep_entry now ek ts sk s) as [b s1] eqn:Es. intros Hr.
  destruct (sweep_entry_spec _ _ _ _ _ _ _ Ep Hle Es) as [Hok _].
  apply IH in Hr as [Hok' Hn]. split; [by eapply step_ok_trans|]. destruct b; lia.
Qed.

(** Nothing reappears. *)
Lemma step_clear now s s' sk ts : step_ok now s s' → clear s sk ts → clear s' sk ts.
Proof.
  intros (_ & _ & _ & Hd & _) Hc l Hl. apply Hc.
  destruct (Hd sk) as [He|[Hn _]]; [by rewrite <- He|congruence].
Qed.

Lemma step_gone now s s' ek : step_ok now s s' → cont s Expiry !! ek = None → cont s' Expiry !! ek = None.
Proof. intros (_ & _ & _ & _ & He) Hn. destruct (He ek) as [->|[? _]]; done. Qed.

(** With a healthy backend the sweep reaches every due index key: the index is in timestamp
    order, so the loop cannot stop before it. *)
Lemma sweep_loop_complete now kvs n s n' s' ek v ts sk :
  StronglySorted bytes_lt kvs.*1 → (ek, v) ∈ kvs →
  ExpiryIndex.parse_expiry_index_key ek = Some (ts, sk) → ts <= now →
  healthy (Store.db s) → Locks.poisoned (Store.write_locks s) = ∅ →
  sweep_loop now (Ok <$> kvs) n s = (n', s') →
  cont s' Expiry !! ek = None ∧ clear s' sk ts.
Proof.
  intros Hs Hin Hp Ht. revert n s. induction kvs as [|[hk hv] kvs IH]; intros n s Hh Hpo.
  { by apply not_elem_of_nil in Hin. }
  apply StronglySorted_inv in Hs as [Hs Hf]. simpl.
  apply elem_of_cons in Hin as [Heq|Hin].
  - injection Heq as <- <-. rewrite Hp. rewrite (proj2 (Z.ltb_ge _ _)) by lia.
    destruct (sweep_entry now ek ts sk s) as [b s1] eqn:Es. intros Hr.
    destruct (sweep_entry_spec _ _ _ _ _ _ _ Hp Ht Es) as [_ Hc].
    destruct (Hc Hh Hpo) as [Hg Hcl]. apply sweep_loop_ok in Hr as [Hok _].
    split; [by eapply step_gone|by eapply step_clear].
  - specialize (IH Hs Hin).
    destruct (ExpiryIndex.parse_expiry_index_key hk) as [[hts hsk]|] eqn:Eh; [|by apply IH].
    assert (hts <= now) as Hle.
    { assert (bytes_lt hk ek) as Hlt.
      { rewrite list.Forall_forall in Hf. apply Hf, list_elem_of_fmap. by exists (ek, v). }
      apply ExpiryIndex.parse_index_key_inv in Eh as (-> & Hr1 & _).
      apply ExpiryIndex.parse_index_key_inv in Hp as (-> & Hr2 & _).
      apply ExpiryIndex.expiry_index_key_lt in Hlt; [lia|done|done]. }
    rewrite (proj2 (Z.ltb_ge _ _)) by lia.
    destruct (sweep_entry now hk hts hsk s) as [b s1] eqn:Es.
    destruct (sweep_entry_spec _ _ _ _ _ _ _ Eh Hle Es) as [(Hfr & _) _].
    apply IH; [by apply Hfr|]. by rewrite (proj1 Hfr).
Qed.

Lemma sweep_split now s :
  ∃ guards s1 n s2, ks_iter Expiry (Store.db s) = (guards, Store.db s1)
    ∧ framed s s1 ∧ Store.metrics s1 = Store.metrics s ∧ (∀ ks, cont s1 ks = cont s ks)
    ∧ sweep_loop (unix_timestamp now) guards 0 s1 = (n, s2)
    ∧ sweep_keyspace now s = if (0 <? n)%N then Store.record (gc_keys_expired_total n) s2 else s2.
Proof.
  unfold sweep_keyspace. destruct (ks_iter Expiry (Store.db s)) as [guards d] eqn:Ei.
  destruct (sweep_loop (unix_timestamp now) guards 0 (Store.set_db d s)) as [n s2] eqn:El.
  destruct (iter_law Expiry _ _ _ Ei) as (Hc & _ & Hh).
  exists guards, (Store.set_db d s), n, s2. split; [done|]. split; [|done].
  split; [done|]. split; [done|]. intros Hhe. by apply Hh.
Qed.

(** The outcome of a sweep, on the contents and the counters. *)
Lemma sweep_outcome now s :
  framed s (sweep_keyspace now s)
  ∧ swept (unix_timestamp now) (cont s) (cont (sweep_keyspace now s))
  ∧ ∃ ms, Store.metrics (sweep_keyspace now s) = Store.metrics s ++ ms
          ∧ (ms = [] ∨ ∃ n, (0 < n)%N ∧ ms = [gc_keys_expired_total n]).
Proof.
  destruct (sweep_split now s) as (guards & s1 & n & s2 & _ & Hf & Hm & Hc & Hl & ->).
  apply sweep_loop_ok in Hl as [(Hf2 & Hm2 & Hs2) _].
  assert (framed s s2) as Hfr by by eapply framed_trans.
  assert (swept (unix_timestamp now) (cont s) (cont s2)) as Hs.
  { eapply swept_trans; [by apply swept_refl|done]. }
  destruct (N.ltb_spec 0 n); (split; [done|]); (split; [done|]).
  - exists [gc_keys_expired_total n]. split; [simpl; congruence|]. right. by exists n.
  - exists []. split; [rewrite app_nil_r; congruence|by left].
Qed.

(** The expiry of a decoded entry and of its record. *)
Lemma decoded_expiry l en now :
  decoded l = Some en →
  match expires_unix_of l with
  | Some ts => Int64.in_i64 ts = true
               ∧ match expires_at en with
                 | Some x => odt_leb x now = (ts <=? unix_timestamp now)
                 | None => False
                 end
  | None => expires_at en = None
  end.
Proof.
  unfold decoded. destruct (decode_entry l) as [en'|] eqn:Ed; [|done]. intros [= ->].
  destruct (Entry.decode_entry_inv l en Ed) as (_ & ts & Hts & Hm).
  unfold expires_unix_of. rewrite Hts. destruct ts as [ts|], (expires_at en) as [x|]; try done.
  destruct Hm as [Hx Hr]. split; [done|]. by apply whole_second_leb.
Qed.

(** [expired_before (Some now)] on the entry is the sweeper's test on the record. *)
Lemma expired_unix l en now :
  decoded l = Some en →
  expired_before (Some now) en = true ↔ ∃ ts, expires_unix_of l = Some ts ∧ ts <= unix_timestamp now.
Proof.
  intros Hd. pose proof (decoded_expiry l en now Hd) as Hx. unfold expired_before.
  destruct (expires_unix_of l) as [ts|].
  - destruct Hx as [_ Hx]. destruct (expires_at en) as [x|]; [|done]. rewrite Hx.
    rewrite Z.leb_le. naive_solver.
  - rewrite Hx. naive_solver.
Qed.

(** The record of [sk] is [l], which expires at [ts]. *)
Definition holds (s : FjallStore) (sk l : bytes) (ts : Z) : Prop :=
  cont s Data !! sk = Some l ∧ expires_unix_of l = Some ts.

(** The record of an entry that expires. *)
Lemma expiring_record s b k en exp now :
  view s b k = Some en → expires_at en = Some exp →
  ∃ l, holds s (Layout.data_storage_key b k) l (unix_timestamp exp) ∧ decoded l = Some en
    ∧ Int64.in_i64 (unix_timestamp exp) = true
    ∧ odt_leb exp now = (unix_timestamp exp <=? unix_timestamp now).
Proof.
  unfold view, view_map. intros (l & Hl & Hd)%bind_Some He. exists l.
  pose proof (decoded_expiry l en now Hd) as Hx. unfold holds. unfold decoded in Hd.
  destruct (decode_entry l) as [en'|] eqn:Ed; [|done]. injection Hd as ->.
  destruct (Entry.decode_entry_inv l en Ed) as (_ & ts & Hts & Hm). rewrite He in *.
  unfold expires_unix_of in *. rewrite Hts in *. destruct ts as [ts|]; [|done].
  destruct Hm as [Hm _]. apply unix_timestamp_from in Hm as ->. destruct Hx as [? ?]. unfold decoded. rewrite Ed. done.
Qed.

Lemma sweep_view now s b k :
  view (sweep_keyspace now s) b k = view s b k
  ∨ (view (sweep_keyspace now s) b k = None
     ∧ ∀ en, view s b k = Some en → expired_before (Some now) en = true).
Proof.
  destruct (sweep_outcome now s) as (_ & (_ & Hd & _) & _). unfold view, view_map.
  destruct (Hd (Layout.data_storage_key b k)) as [->|[-> (l & ts & Hl & Hx & Ht)]]; [by left|].
  right. split; [done|]. rewrite Hl. simpl. intros en Hen. apply (expired_unix l en now Hen). eauto.
Qed.

Lemma sweep_clears now s :
  store_good s → ∀ sk l, cont (sweep_keyspace now s) Data !! sk = Some l →
  ∀ ts, expires_unix_of l = Some ts → unix_timestamp now < ts.
Proof.
  intros (Hh & Hpo & [Hwf Hix]) sk l Hl ts Hx.
  destruct (decide (ts <= unix_timestamp now)) as [Hle|]; [exfalso|lia].
  destruct (sweep_outcome now s) as (_ & (_ & Hd & _) & _).
  assert (cont s Data !! sk = Some l) as Hl0.
  { destruct (Hd sk) as [He|[He _]]; [by rewrite <- He|congruence]. }
  destruct (Hwf _ _ Hl0) as [Hsk [en Hen]]. pose proof (decoded_expiry l en now Hen) as Hdx.
  rewrite Hx in Hdx. destruct Hdx as [Hr _].
  destruct (Hix sk l ts Hl0) as [v Hv].
  { unfold expires_unix_of in Hx. destruct (decode_entry_expires_unix l); [by subst|done]. }
  destruct (sweep_split now s) as (guards & s1 & n & s2 & Hi & Hf & _ & Hc & Hlp & Hsw).
  destruct (iter_law Expiry _ _ _ Hi) as (_ & (kvs & [Hss Hse] & Hy) & Hok).
  destruct (Hok Hh) as [Hh1 Hall].
  assert (guards = Ok <$> kvs) as ->.
  { clear -Hy Hall. induction Hy as [|g kv gs kvs Hg _ IH]; [done|].
    apply list.Forall_cons in Hall as [Ha Hall]. destruct g as [x|]; [|done].
    simpl in *. subst. by rewrite IH. }
  destruct (sweep_loop_complete (unix_timestamp now) kvs 0 s1 n s2
    (ExpiryIndex.expiry_index_key ts sk) v ts sk) as [_ Hcl]; try done.
  - apply Hse. split; [done|]. apply prefix_nil.
  - by apply ExpiryIndex.parse_index_key_of.
  - by rewrite (proj1 Hf).
  - apply (Hcl l); [|done]. rewrite Hsw in Hl. by destruct (0 <? n)%N.
Qed.

Lemma sweep_good now s : store_good s → store_good (sweep_keyspace now s).
Proof.
  intros Hg. pose proof Hg as (Hh & Hpo & [Hwf Hix]).
  destruct (sweep_outcome now s) as ((Hw & _ & Hhs) & (_ & Hd & He) & _).
  assert (∀ sk l, cont (sweep_keyspace now s) Data !! sk = Some l → cont s Data !! sk = Some l)
    as Hsub.
  { intros sk l Hl. destruct (Hd sk) as [Hx|[Hx _]]; [by rewrite <- Hx|congruence]. }
  split; [auto|]. split; [by rewrite Hw|]. split.
  - intros sk l Hl. by apply Hwf, Hsub.
  - intros sk l ts Hl Ht. pose proof (Hix sk l ts (Hsub _ _ Hl) Ht) as Hidx.
    assert (unix_timestamp now < ts) as Hlt.
    { eapply (sweep_clears now s Hg sk l Hl). unfold expires_unix_of. by rewrite Ht. }
    destruct (He (ExpiryIndex.expiry_index_key ts sk)) as [->|[_ (ts' & sk' & Hp & Hle)]]; [done|].
    destruct (Hwf _ _ (Hsub _ _ Hl)) as [Hsk [en Hen]].
    pose proof (decoded_expiry l en now Hen) as Hdx. unfold expires_unix_of in Hdx.
    rewrite Ht in Hdx. destruct Hdx as [Hr _].
    rewrite ExpiryIndex.parse_index_key_of in Hp by done. simplify_eq. lia.
Qed.

(** ** Records whose index key is gone *)

(** A record is removed only on behalf of the index key of its own expiry. *)
Lemma remove_if_due_keeps now ts' sk' s r s' sk l ts :
  remove_if_due now ts' sk' s = (r, s') → holds s sk l ts → (ts', sk') ≠ (ts, sk) → holds s' sk l ts.
Proof.
  unfold remove_if_due. intros Hr [Hl Hx] Hne. destruct (call (ks_get Data sk') s) as [r2 s2] eqn:E2.
  destruct (call_read _ _ _ _ _ (get_law Data sk') E2) as (_ & _ & Hc2 & Hr2).
  assert (holds s2 sk l ts) as H2 by (split; [by rewrite Hc2|done]).
  destruct r2 as [[v|]|]; [|by simplify_eq..].
  destruct (decode_entry_expires_unix v) as [[actual|]|] eqn:Ed; [|by simplify_eq..].
  destruct (now <? actual); [by simplify_eq|]. destruct (Z.eqb_spec actual ts') as [->|]; [|by simplify_eq/=].
  simpl in Hr. destruct (call (ks_remove Data sk') s2) as [r3 s3] eqn:E3.
  destruct (call_write _ _ _ _ _ (remove_law Data sk') E3) as (_ & _ & Hc3).
  assert (sk' ≠ sk) as Hsk.
  { intros ->. apply Hne. rewrite Hl in Hr2. injection Hr2 as ->. unfold expires_unix_of in Hx.
    rewrite Ed in Hx. congruence. }
  assert (cont s3 Data !! sk = cont s2 Data !! sk) as Hk.
  { assert ((∀ ks, cont s3 ks = cont s2 ks)
      ∨ ∀ ks, cont s3 ks = apply_writes (cont s2) [BatchRemove Data sk'] ks) as [Hc|Hc]
      by (destruct r3; [by right|tauto]); [by rewrite Hc|].
    by rewrite Hc, lookup_remove, decide_False. }
  destruct r3; injection Hr as <- <-; (split; [|done]); by rewrite Hk, Hc2.
Qed.

Lemma sweep_entry_keeps now ek ts' sk' s r s' sk l ts :
  sweep_entry now ek ts' sk' s = (r, s') → holds s sk l ts → (ts', sk') ≠ (ts, sk) → holds s' sk l ts.
Proof.
  unfold sweep_entry. intros Hr [Hl Hx] Hne. destruct (Locks.lock_for _ sk'); [|by simplify_eq].
  destruct (call (ks_remove Expiry ek) s) as [r1 s1] eqn:E1.
  destruct (call_write _ _ _ _ _ (remove_law Expiry ek) E1) as (_ & _ & Hc1).
  assert (holds s1 sk l ts) as H1.
  { split; [|done]. destruct r1 as [|e]; [by rewrite Hc1|]. by destruct Hc1 as [_ [->|Hc]]; [|rewrite Hc]. }
  destruct r1; [by eapply remove_if_due_keeps|by simplify_eq].
Qed.

(** None of the index keys read is that of the record. *)
Definition without (ek : bytes) (guards : list (result (bytes * bytes) fjall_error)) : Prop :=
  ∀ v, Ok (ek, v) ∉ guards.

Lemma sweep_loop_keeps now guards n s n' s' sk l ts :
  sweep_loop now guards n s = (n', s') → holds s sk l ts →
  without (ExpiryIndex.expiry_index_key ts sk) guards → holds s' sk l ts.
Proof.
  revert n s. induction guards as [|g guards IH]; intros n s; simpl; [by intros [= <- <-]|].
  intros Hr Hh Hw.
  assert (without (ExpiryIndex.expiry_index_key ts sk) guards) as Hw'
    by (intros v Hv; apply (Hw v); by right).
  destruct g as [[ek v]|]; [|by eapply IH].
  destruct (ExpiryIndex.parse_expiry_index_key ek) as [[ts' sk']|] eqn:Ep; [|by eapply IH].
  destruct (now <? ts'); [by simplify_eq|].
  destruct (sweep_entry now ek ts' sk' s) as [b s1] eqn:Es.
  eapply IH; [exact Hr| |done]. eapply sweep_entry_keeps; [exact Es|done|]. intros [= -> ->].
  apply ExpiryIndex.parse_index_key_inv in Ep as (-> & _). apply (Hw v). by left.
Qed.

(** A record without its index key is never collected, over whatever backend. *)
Lemma sweep_orphan now s sk l ts :
  holds s sk l ts → cont s Expiry !! ExpiryIndex.expiry_index_key ts sk = None →
  holds (sweep_keyspace now s) sk l ts
  ∧ cont (sweep_keyspace now s) Expiry !! ExpiryIndex.expiry_index_key ts sk = None.
Proof.
  intros Hh Hn. split.
  - destruct (sweep_split now s) as (guards & s1 & n & s2 & Hi & _ & _ & Hc & Hl & ->).
    destruct (iter_law Expiry _ _ _ Hi) as (_ & (kvs & [_ Hse] & Hy) & _).
    assert (holds s2 sk l ts) as H2; [|by destruct (0 <? n)%N].
    eapply sweep_loop_keeps; [exact Hl|by unfold holds; rewrite Hc|]. intros v Hv.
    apply list_elem_of_lookup in Hv as [i Hv]. destruct (Forall2_lookup_l _ _ _ _ _ Hy Hv) as (kv & Hkv & <-).
    apply list_elem_of_lookup_2, Hse in Hkv as [Hkv _]. unfold cont in Hn. congruence.
  - destruct (sweep_outcome now s) as (_ & (_ & _ & He) & _). by destruct (He (ExpiryIndex.expiry_index_key ts sk)) as [->|[? _]].
Qed.

Lemma run_orphan events s sk l ts :
  holds s sk l ts → cont s Expiry !! ExpiryIndex.expiry_index_key ts sk = None →
  holds (run events s) sk l ts
  ∧ cont (run events s) Expiry !! ExpiryIndex.expiry_index_key ts sk = None.
Proof.
  revert s. induction events as [|[now|] events IH]; intros s Hh Hn; simpl; [done| |done].
  destruct (sweep_orphan now s sk l ts Hh Hn). by apply IH.
Qed.

(** The loop goes on past index keys that are due. *)
Lemma sweep_loop_app now pre post n s :
  (∀ ek v ts sk, Ok (ek, v) ∈ pre → ExpiryIndex.parse_expiry_index_key ek = Some (ts, sk) → ts <= now) →
  sweep_loop now (pre ++ post) n s
  = let '(n', s') := sweep_loop now pre n s in sweep_loop now post n' s'.
Proof.
  revert n s. induction pre as [|g pre IH]; intros n s Hd; simpl; [done|].
  assert (∀ ek v ts sk, Ok (ek, v) ∈ pre → ExpiryIndex.parse_expiry_index_key ek = Some (ts, sk) →
    ts <= now) as Hd' by (intros; eapply Hd; [by right|done]).
  destruct g as [[ek v]|]; [|by apply IH].
  destruct (ExpiryIndex.parse_expiry_index_key ek) as [[ts sk]|] eqn:Ep; [|by apply IH].
  rewrite (proj2 (Z.ltb_ge _ _)) by (eapply Hd; [by left|done]).
  destruct (sweep_entry now ek ts sk s) as [b s1]. by apply IH.
Qed.

(** After the index key is gone, the sweeper fails to read the record, or fails to remove it and
    the failed call has no effect. *)
Definition fails_to_remove (sk : bytes) (s : FjallStore) : Prop :=
  (∃ e s1, call (ks_get Data sk) s = (Err e, s1))
  ∨ ∃ o s1 e s2, call (ks_get Data sk) s = (Ok o, s1) ∧ call (ks_remove Data sk) s1 = (Err e, s2)
      ∧ cont s2 Data !! sk = cont s1 Data !! sk.

Lemma remove_if_due_fails now ts sk s r s' l :
  fails_to_remove sk s → holds s sk l ts → remove_if_due now ts sk s = (r, s') → holds s' sk l ts.
Proof.
  unfold remove_if_due. intros Hf [Hl Hx].
  destruct (call (ks_get Data sk) s) as [r2 s2] eqn:E2.
  destruct (call_read _ _ _ _ _ (get_law Data sk) E2) as (_ & _ & Hc2 & _).
  assert (holds s2 sk l ts) as H2 by (split; [by rewrite Hc2|done]).
  destruct r2 as [[v|]|]; [|by intros [= <- <-]..].
  destruct (decode_entry_expires_unix v) as [[actual|]|]; [|by intros [= <- <-]..].
  destruct (now <? actual); [by intros [= <- <-]|]. destruct (actual =? ts); [|by intros [= <- <-]].
  destruct Hf as [(e & s1 & Hf)|(o & s1 & e & s3 & Hf & Hrm & Hk)]; [congruence|].
  assert (s1 = s2) as -> by congruence. cbn [negb]. rewrite Hrm. intros [= <- <-].
  unfold holds. by rewrite Hk.
Qed.

(** A scan yields a key once, after the smaller ones. *)
Lemma scan_around m p kvs pre ek v (post : list (result (bytes * bytes) fjall_error)) :
  scan_of m p kvs → Forall2 yields (pre ++ Ok (ek, v) :: post) kvs →
  (∀ k w, Ok (k, w) ∈ pre → bytes_lt k ek) ∧ without ek post.
Proof.
  intros [Hss _] Hy. apply Forall2_app_inv_l in Hy as (kpre & kpost & Hy1 & Hy2 & ->).
  apply Forall2_cons_inv_l in Hy2 as (kv & kpost' & <- & Hy2 & ->).
  rewrite fmap_app, fmap_cons in Hss. simpl in Hss.
  apply StronglySorted_app_inv in Hss as [Hlt Hgt]. rewrite list.Forall_forall in Hlt, Hgt.
  assert (∀ gs kvs k w, Forall2 yields gs kvs → Ok (E := fjall_error) (k, w) ∈ gs → k ∈ kvs.*1) as Hkey.
  { intros gs kvs k w Hgs Hin. apply list_elem_of_lookup in Hin as [i Hin].
    destruct (Forall2_lookup_l _ _ _ _ _ Hgs Hin) as (kv & Hkv & <-).
    apply list_elem_of_fmap. exists (k, w). split; [done|]. by eapply list_elem_of_lookup_2. }
  split; [intros k w Hin; by eapply Hlt, Hkey|].
  intros w Hin. by eapply (bytes_lt_irrefl ek), Hgt, Hkey.
Qed.

(** A sweep that fails this way at one record leaves it without its index key. *)
Lemma sweep_orphans now s sk l ts pre v post d n s1 s2 :
  holds s sk l ts → sk ≠ [] → Int64.in_i64 ts = true → ts <= unix_timestamp now →
  ks_iter Expiry (Store.db s) = (pre ++ Ok (ExpiryIndex.expiry_index_key ts sk, v) :: post, d) →
  sweep_loop (unix_timestamp now) pre 0 (Store.set_db d s) = (n, s1) →
  is_ok (Locks.lock_for (E := fjall_error) (Store.write_locks s1) sk) = true →
  call (ks_remove Expiry (ExpiryIndex.expiry_index_key ts sk)) s1 = (Ok tt, s2) →
  fails_to_remove sk s2 →
  holds (sweep_keyspace now s) sk l ts
  ∧ cont (sweep_keyspace now s) Expiry !! ExpiryIndex.expiry_index_key ts sk = None.
Proof.
  set (ek := ExpiryIndex.expiry_index_key ts sk). intros Hh Hsk Hts Hdue Hi Hpre Hlk Hrm Hf.
  destruct (iter_law Expiry _ _ _ Hi) as (Hc & (kvs & Hscan & Hy) & _).
  destruct (scan_around _ _ _ _ _ _ _ Hscan Hy) as [Hbefore Hafter].
  assert (holds s1 sk l ts) as H1.
  { eapply sweep_loop_keeps; [exact Hpre|by unfold holds, cont; simpl; rewrite Hc|].
    intros w Hin. by apply (bytes_lt_irrefl ek), (Hbefore ek w). }
  destruct (call_write _ _ _ _ _ (remove_law Expiry ek) Hrm) as (_ & _ & Hc2).
  assert (holds s2 sk l ts) as H2 by (unfold holds; by rewrite Hc2).
  destruct (remove_if_due (unix_timestamp now) ts sk s2) as [b s3] eqn:Er.
  pose proof (remove_if_due_fails _ _ _ _ _ _ _ Hf H2 Er) as H3.
  destruct (remove_if_due_spec _ _ _ _ _ _ Hdue Er) as (_ & He3 & _).
  assert (sweep_entry (unix_timestamp now) ek ts sk s1 = (b, s3)) as Hent.
  { unfold sweep_entry. destruct (Locks.lock_for _ sk); [|done]. by rewrite Hrm. }
  destruct (sweep_loop (unix_timestamp now) post (if b then n + 1 else n)%N s3) as [n' s4] eqn:Ep.
  assert (sweep_keyspace now s
    = if (0 <? n')%N then Store.record (gc_keys_expired_total n') s4 else s4) as ->.
  { unfold sweep_keyspace. rewrite Hi, sweep_loop_app, Hpre.
    - cbn [sweep_loop]. unfold ek at 1. rewrite ExpiryIndex.parse_index_key_of by done.
      rewrite (proj2 (Z.ltb_ge _ _)) by lia. by rewrite Hent, Ep.
    - intros k w ts' sk' Hin Hp. pose proof (Hbefore k w Hin) as Hb.
      apply ExpiryIndex.parse_index_key_inv in Hp as (-> & Hr & _).
      apply ExpiryIndex.expiry_index_key_lt in Hb; [lia|done|done]. }
  assert (holds s4 sk l ts ∧ cont s4 Expiry !! ek = None) as H4; [|by destruct (0 <? n')%N].
  split; [by eapply sweep_loop_keeps|]. apply sweep_loop_ok in Ep as [Hok _].
  eapply step_gone; [exact Hok|]. rewrite He3, Hc2. simpl. unfold apply_write. simpl.
  apply lookup_delete_eq.
Qed.

End Gc.

End Gc.

(** ** Properties *)

Section Theorems.
Context {T : TimeOps} {P : PostcardOps} {J : PolicyJsonOps} {F : FjallOps} {H : HasherOps}
        {L : LayoutOps}.
Context {TL : TimeLaws T} {PL : PostcardLaws P} {FL : FjallLaws F}.

(** C10: The sweeper never removes live data, even over a failing backend. Through any run of
    sweeps an entry that is not expired at the instants of the sweeps stays as it is, no such
    entry appears that was not there, and bucket policies are untouched. *)
Theorem gc_keeps_live_entries (events : list Gc.event) (s : Store.FjallStore) (b : BucketId)
    (k : Key) (en : StoredEntry) :
  Forall (λ ev, match ev with
                | Gc.Elapsed now => expired_before (Some now) en = false
                | Gc.Cancelled => True
                end) events →
  (view s b k = Some en → view (Gc.run events s) b k = Some en)
  ∧ (view (Gc.run events s) b k = Some en → view s b k = Some en)
  ∧ policy_view (Gc.run events s) b = policy_view s b.
Proof.
  intros Hev. revert s. induction Hev as [|ev events Hl _ IH]; intros s; simpl; [done|].
  destruct ev as [now|]; [|done]. destruct (IH (Gc.sweep_keyspace now s)) as (IH1 & IH2 & IH3).
  destruct (Gc.sweep_view now s b k) as [Heq|[Hn Hx]].
  - rewrite Heq in IH1, IH2. split; [done|]. split; [done|]. rewrite IH3.
    destruct (Gc.sweep_outcome now s) as (_ & (Hm & _) & _).
    unfold policy_view, policy_map. by rewrite Hm.
  - split; [intros Hv; apply Hx in Hv; congruence|]. split; [intros Hv; apply IH2 in Hv; congruence|].
    rewrite IH3. destruct (Gc.sweep_outcome now s) as (_ & (Hm & _) & _).
    unfold policy_view, policy_map. by rewrite Hm.
Qed.

(** C11: With a healthy backend one sweep collects every expired entry and nothing else: the view
    afterwards is the view before with exactly the entries expired at the sweep's instant
    removed. The scan's early exit misses nothing because index keys are ordered by timestamp.
    The store, including its index, stays in a good state. *)
Theorem gc_collects_expired (now : OffsetDateTime) (s : Store.FjallStore) :
  store_good s →
  store_good (Gc.sweep_keyspace now s)
  ∧ ∀ b k, view (Gc.sweep_keyspace now s) b k
           = match view s b k with
             | Some en => if expired_before (Some now) en then None else Some en
             | None => None
             end.
Proof.
  intros Hg. split; [by apply Gc.sweep_good|]. intros b k.
  destruct (Gc.sweep_view now s b k) as [Heq|[Hn Hx]].
  - rewrite Heq. destruct (view s b k) as [en|] eqn:Ev; [|done].
    destruct (expired_before (Some now) en) eqn:Ex; [exfalso|done].
    rename Heq into Hv. unfold view, view_map in Hv.
    destruct (cont (Gc.sweep_keyspace now s) Data !! _) as [l|] eqn:El; [|done]. simpl in Hv.
    apply (Gc.expired_unix l en now Hv) in Ex as (ts & Hts & Hle).
    pose proof (Gc.sweep_clears now s Hg _ l El ts Hts). lia.
  - rewrite Hn. destruct (view s b k) as [en|]; [|done]. by rewrite Hx.
Qed.

(** The sweeper reports what it removed and nothing else: a sweep adds at most one
    [gc_keys_expired_total] sample, with a positive count, and no [storage_errors_total]
    sample, even when the backend fails under it. *)
Theorem gc_metrics (now : OffsetDateTime) (s : Store.FjallStore) :
  ∃ ms, Store.metrics (Gc.sweep_keyspace now s) = Store.metrics s ++ ms
        ∧ (ms = [] ∨ ∃ n, (0 < n)%N ∧ ms = [gc_keys_expired_total n]).
Proof. apply Gc.sweep_outcome. Qed.

(** C38: A failure between the two removals orphans the record. Take any sweep of any store that
    comes to the index key of an expired entry, with its stripe not poisoned, and removes the index key;
    if then the read of the record fails, or its removal fails without effect, the entry is still
    there, its index key is not, and no run of sweeps that follows, over however healthy a backend,
    ever removes it. *)
Theorem gc_failure_orphans_entry (now exp : OffsetDateTime) (s : Store.FjallStore) (b : BucketId)
    (k : Key) (en : StoredEntry) (v : bytes) (pre post : list (result (bytes * bytes) fjall_error))
    (d : Database) (n : N) (s1 s2 : Store.FjallStore) (events : list Gc.event) :
  let sk := Layout.data_storage_key b k in
  let ek := ExpiryIndex.expiry_index_key (unix_timestamp exp) sk in
  view s b k = Some en → expires_at en = Some exp → odt_leb exp now = true →
  ks_iter Expiry (Store.db s) = (pre ++ Ok (ek, v) :: post, d) →
  Gc.sweep_loop (unix_timestamp now) pre 0 (Store.set_db d s) = (n, s1) →
  is_ok (Locks.lock_for (E := fjall_error) (Store.write_locks s1) sk) = true →
  Gc.call (ks_remove Expiry ek) s1 = (Ok tt, s2) →
  Gc.fails_to_remove sk s2 →
  let s' := Gc.run (Gc.Elapsed now :: events) s in
  view s' b k = Some en ∧ cont s' Expiry !! ek = None.
Proof.
  intros sk ek Hv He Hdue Hi Hpre Hlk Hrm Hf s'.
  destruct (Gc.expiring_record s b k en exp now Hv He) as (l & Hl & Hd & Hr & Hle).
  rewrite Hdue in Hle. symmetry in Hle. apply Z.leb_le in Hle.
  destruct (Gc.sweep_orphans now s sk l (unix_timestamp exp) pre v post d n s1 s2) as [Ho Hn];
    [done|apply storage_key_nonempty|done..|].
  destruct (Gc.run_orphan events _ sk l (unix_timestamp exp) Ho Hn) as [[Hl' _] Hn'].
  split; [|done]. unfold view, view_map. fold sk. unfold s'. cbn [Gc.run]. by rewrite Hl'.
Qed.

End Theorems.

(** ** Examples *)

(** A store with one entry that expires at second 5. *)
Definition gc_store (fs : list bool) : Store.FjallStore :=
  let s := (Store.set demo_bucket demo_key demo_value (Some (at_nanos 5000000000)) demo0).2 in
  demo_store (cont s) fs.

Lemma gc_store_good : store_good (gc_store []).
Proof.
  destruct (Store.set demo_bucket demo_key demo_value (Some (at_nanos 5000000000)) demo0)
    as [r s] eqn:Er.
  destruct (set_outcome _ _ _ _ _ _ _ demo_bucket_ok demo_value_ok Er) as (Hi & _).
  unfold gc_store. rewrite Er. split; [constructor|]. split; [done|]. apply Hi, demo0_good.
Qed.

(** The read of the record fails, and a later sweep over the healthy backend does not help. *)
Lemma gc_failure_orphans_entry_witness :
  let now := at_nanos 9000000000 in
  let s := gc_store [false; false; true] in
  let s' := Gc.run [Gc.Elapsed now; Gc.Elapsed now] s in
  view s' demo_bucket demo_key = Some (written demo_value (Some (at_nanos 5000000000)))
  ∧ healthy (Store.db s').
Proof.
  intros now s s'.
  set (ek := ExpiryIndex.expiry_index_key 5 (Layout.data_storage_key demo_bucket demo_key)).
  set (d := (ks_iter Expiry (Store.db s)).2).
  set (s2 := (Gc.call (ks_remove Expiry ek) (Store.set_db d s)).2).
  destruct (gc_failure_orphans_entry now (at_nanos 5000000000) s demo_bucket demo_key
    (written demo_value (Some (at_nanos 5000000000))) [] [] [] d 0 (Store.set_db d s) s2
    [Gc.Elapsed now]) as [Hv _].
  - vm_refl.
  - vm_refl.
  - vm_refl.
  - apply pair_fst. vm_refl.
  - reflexivity.
  - vm_refl.
  - apply pair_fst. vm_refl.
  - left. exists io_error, (Gc.call (ks_get Data (Layout.data_storage_key demo_bucket demo_key)) s2).2.
    apply pair_fst. vm_refl.
  - split; [exact Hv|]. vm_compute. constructor.
Defined.

Lemma gc_keeps_live_entries_witness :
  let s := gc_store [true; false; true] in
  view (Gc.run [Gc.Elapsed (at_nanos 3000000000)] s) demo_bucket demo_key
  = Some (written demo_value (Some (at_nanos 5000000000))).
Proof.
  intros s.
  destruct (gc_keeps_live_entries [Gc.Elapsed (at_nanos 3000000000)] s demo_bucket demo_key
    (written demo_value (Some (at_nanos 5000000000)))) as [Hv _].
  - constructor; [vm_refl|constructor].
  - apply Hv. vm_refl.
Defined.

Lemma gc_collects_expired_witness :
  view (Gc.sweep_keyspace (at_nanos 5000000000) (gc_store [])) demo_bucket demo_key
  = match view (gc_store []) demo_bucket demo_key with
    | Some en => if expired_before (Some (at_nanos 5000000000)) en then None else Some en
    | None => None
    end.
Proof.
  destruct (gc_collects_expired (at_nanos 5000000000) (gc_store [])) as [_ Hv].
  - exact gc_store_good.
  - apply Hv.
Defined.

Lemma gc_metrics_witness :
  ∃ ms, Store.metrics (Gc.sweep_keyspace (at_nanos 0) (gc_store [true]))
        = Store.metrics (gc_store [true]) ++ ms.
Proof.
  destruct (gc_metrics (at_nanos 0) (gc_store [true])) as (ms & Hms & _). exists ms. exact Hms.
Defined.
