(* ===== verification/Interleave.v ===== *)
(** * Interleaved requests on the Fjall adapter

    The critical sections of the adapter's operations ([store.rs]) and of the sweeper ([gc.rs]) as
    programs whose steps make one backend call each, run by any number of threads that take
    their stripes one by one. Between two steps of a thread the others may run, and any backend
    call may fail. [serve_run] ties the programs to the adapter: a request served alone is its
    program run without interruption. [Linearize] and [Concurrency] have the theorems.

    A transaction encodes its items before it locks; encoding touches nothing shared, and the
    program here does it first thing after locking. The instant an increment reads under its
    lock is an argument of the request. Mutexes are poisoned only by a panic of their holder,
    which the theorems exclude, so a lock is free or held. A listing takes no lock: its one
    backend call opens a scan of the database, which is a snapshot, and what follows is local to
    the thread. *)

From Stdlib Require Import Strings.Byte.
From S2P Require Import Prelude RustStd TimeLib Domain Counter Ports Codec FjallLib Locks Store StoreSpec StoreRepo Gc.
Import Store.

Module Interleave.

Section Interleave.
Context {T : TimeOps} {P : PostcardOps} {J : PolicyJsonOps} {F : FjallOps} {H : HasherOps}
        {L : LayoutOps}.

Abbreviation op A := (comp FjallStore A UseCaseError).

(** ** Programs *)

(** A program is a sequence of pieces; the scheduler runs one piece at a time. *)
Inductive prog (A : Type) : Type :=
| Done (r : result A UseCaseError)
| Step (B : Type) (m : op B) (k : B → prog A).
Arguments Done {A} _.
Arguments Step {A B} _ _.

(** A program run without interruption. *)
Fixpoint run {A} (p : prog A) : op A :=
  match p with
  | Done r => comp_lift r
  | Step m k => comp_bind m (λ b, run (k b))
  end.

Inductive answer : Type :=
| AUnit
| ABool (b : bool)
| AValue (v : StoredValue)
| AEntry (o : option StoredEntry)
| AList (rows : Datatypes.list ListEntry).

Inductive request : Type :=
| ReqGet (b : BucketId) (k : Key)
| ReqSet (b : BucketId) (k : Key) (v : StoredValue) (e : option OffsetDateTime)
| ReqDelete (b : BucketId) (k : Key)
| ReqIncrement (now : OffsetDateTime) (b : BucketId) (k : Key) (o : Counter.CounterOp)
    (e : option OffsetDateTime)
| ReqBatch (b : BucketId) (ops : Datatypes.list TxnOp)
| ReqList (b : BucketId) (opts : ListOpts)
| ReqSweep (now_ts : Z) (expiry_key : bytes) (expires_unix : Z) (storage_key : bytes).

(** A read takes no lock; the record is decoded after the call. *)
Definition get_entry (b : BucketId) (k : Key) : op (option StoredEntry) :=
  let! o := on_db (ks_get Data (Layout.data_storage_key b k)) in
  match o with
  | None => comp_ret None
  | Some l => let! entry := qm (decode_entry l) in comp_ret (Some entry)
  end.

(** The computation of an increment between its read and its write. *)
Definition increment_entry (now : OffsetDateTime) (o : Counter.CounterOp)
    (e : option OffsetDateTime) (found : option bytes) : op (StoredValue * bytes) :=
  let! current :=
    match found with
    | None => comp_ret (Counter.ValInt 0)
    | Some l =>
      let! entry := qm (decode_entry l) in
      if match Ports.expires_at entry with Some exp => odt_leb exp now | None => false end
      then comp_ret (Counter.ValInt 0)
      else comp_lift (from_domain (Counter.from_stored (value entry)))
    end in
  let! merged := comp_lift (from_domain (Counter.apply o current)) in
  let! stored := comp_lift (from_domain (Counter.into_stored merged)) in
  let! l := qm (encode_entry stored e) in
  comp_ret (stored, l).

(** A backend call of the sweeper, whose error is only logged. *)
Definition quiet {A} (f : Database → result A fjall_error * Database) : op (result A fjall_error) :=
  λ s, let '(r, s') := Gc.call f s in (Ret (Ok r), s').

Definition sweep_remove (storage_key : bytes) : prog answer :=
  Step (quiet (ks_remove Data storage_key)) (λ r, Done (Ok (ABool (is_ok r)))).

(** Expiry verification of a record, as a test of its bytes. *)
Definition due (now_ts expires_unix : Z) (v : bytes) : bool :=
  match decode_entry_expires_unix (E := fjall_error) v with
  | Ok (Some actual_unix) => negb (now_ts <? actual_unix) && (actual_unix =? expires_unix)
  | _ => false
  end.

Definition sweep_verify (now_ts expires_unix : Z) (storage_key : bytes)
    (r : result (option bytes) fjall_error) : prog answer :=
  match r with
  | Ok (Some v) =>
    if due now_ts expires_unix v then sweep_remove storage_key else Done (Ok (ABool false))
  | _ => Done (Ok (ABool false))
  end.

Definition sweep_read (now_ts expires_unix : Z) (storage_key : bytes) : prog answer :=
  Step (quiet (ks_get Data storage_key)) (sweep_verify now_ts expires_unix storage_key).

(** What a request does once it has its locks. *)
Definition body (req : request) : prog answer :=
  match req with
  | ReqGet b k => Step (get_entry b k) (λ o, Done (Ok (AEntry o)))
  | ReqSet b k v e =>
    Step (qm (encode_entry v e)) (λ l,
    Step (write_entry (Layout.data_storage_key b k) l e) (λ _, Done (Ok AUnit)))
  | ReqDelete b k =>
    Step (on_db (ks_contains_key Data (Layout.data_storage_key b k))) (λ existed,
    Step (if existed : bool then on_db (ks_remove Data (Layout.data_storage_key b k)) else comp_ret tt)
      (λ _, Done (Ok (ABool existed))))
  | ReqIncrement now b k o e =>
    Step (on_db (ks_get Data (Layout.data_storage_key b k))) (λ found,
    Step (increment_entry now o e found) (λ vl,
    Step (write_entry (Layout.data_storage_key b k) vl.2 e) (λ _, Done (Ok (AValue vl.1)))))
  | ReqBatch b ops =>
    if bool_decide (ops = []) then Done (Ok AUnit)
    else
      Step (qm (batch_items b ops)) (λ items,
      Step (on_db (batch_commit (items ≫= item_writes))) (λ _, Done (Ok AUnit)))
  | ReqList b opts => Step (list_inner b opts) (λ rows, Done (Ok (AList rows)))
  | ReqSweep now_ts expiry_key expires_unix storage_key =>
    Step (quiet (ks_remove Expiry expiry_key)) (λ r,
      match r with
      | Ok _ => sweep_read now_ts expires_unix storage_key
      | Err _ => Done (Ok (ABool false))
      end)
  end.

(** The storage keys a request may change. *)
Definition keys_of (req : request) : Datatypes.list bytes :=
  match req with
  | ReqGet _ _ | ReqList _ _ => []
  | ReqSet b k _ _ | ReqDelete b k | ReqIncrement _ b k _ _ => [Layout.data_storage_key b k]
  | ReqBatch b ops => (λ o, Layout.data_storage_key b (txn_key o)) <$> ops
  | ReqSweep _ _ _ storage_key => [storage_key]
  end.

(** The stripes it locks first, in this order. *)
Definition plan (req : request) : Datatypes.list N := Locks.stripes (keys_of req).

(** The label under which the outcome of a request is counted; the sweeper counts on its own. *)
Definition name_of (req : request) : option bytes :=
  match req with
  | ReqGet _ _ => Some (bs "get")
  | ReqSet _ _ _ _ => Some (bs "set")
  | ReqDelete _ _ => Some (bs "delete")
  | ReqIncrement _ _ _ _ _ => Some (bs "increment")
  | ReqBatch _ _ => Some (bs "apply_batch")
  | ReqList _ _ => Some (bs "list")
  | ReqSweep _ _ _ _ => None
  end.

Definition finish (req : request) (r : result answer UseCaseError) (s : FjallStore) : FjallStore :=
  match name_of req with Some n => record_storage_op n r s | None => s end.

(** The request served by one uninterrupted call of the adapter. *)
Definition serve (req : request) : op answer :=
  match req with
  | ReqGet b k => let! o := get b k in comp_ret (AEntry o)
  | ReqSet b k v e => let! _ := set b k v e in comp_ret AUnit
  | ReqDelete b k => let! existed := delete b k in comp_ret (ABool existed)
  | ReqIncrement now b k o e => let! v := increment now b k o e in comp_ret (AValue v)
  | ReqBatch b ops => let! _ := apply_batch b ops in comp_ret AUnit
  | ReqList b opts => let! rows := list b opts in comp_ret (AList rows)
  | ReqSweep now_ts expiry_key expires_unix storage_key =>
    λ s, let '(removed, s') := Gc.sweep_entry now_ts expiry_key expires_unix storage_key s in
         (Ret (Ok (ABool removed)), s')
  end.

(** The requests that reach the adapter: bucket ids are UUIDs, and values went through
    [StoredValue::new]. *)
Definition request_wf (req : request) : Prop :=
  match req with
  | ReqGet b _ | ReqDelete b _ | ReqIncrement _ b _ _ _ | ReqList b _ => Layout.bucket_ok b
  | ReqSet b _ v _ => Layout.bucket_ok b ∧ Value.value_ok v
  | ReqBatch b ops => Layout.bucket_ok b ∧ Forall txn_ok ops
  | ReqSweep _ _ _ _ => True
  end.

(** Those that are not reverse listings whose window no allocation may hold. *)
Definition request_ok (req : request) : Prop :=
  match req with
  | ReqGet b _ | ReqDelete b _ | ReqIncrement _ b _ _ _ => Layout.bucket_ok b
  | ReqSet b _ v _ => Layout.bucket_ok b ∧ Value.value_ok v
  | ReqBatch b ops => Layout.bucket_ok b ∧ Forall txn_ok ops
  | ReqList b opts =>
    Layout.bucket_ok b
    ∧ (reverse opts = true → (size_of_ListEntry * (skip opts + limit opts) <= Usize.isize_max)%N)
  | ReqSweep _ _ _ _ => True
  end.

Lemma request_ok_wf req : request_ok req → request_wf req.
Proof. destruct req; try done. by intros [? _]. Qed.

(** ** Threads and steps *)

Inductive thread : Type :=
| Running (held todo : Datatypes.list N) (p : prog answer)
| Finished (r : result answer UseCaseError)
| Panicked.

Definition held_by (t : thread) : Datatypes.list N :=
  match t with Running held _ _ => held | Finished _ | Panicked => [] end.

(** The store and the threads, each with its request. *)
Definition config : Type := FjallStore * Datatypes.list (request * thread).

(** One piece of a program: the rest of it, or the error that ends it. *)
Definition advance (p : prog answer) (s : FjallStore)
  : option (exec (result (prog answer) UseCaseError) * FjallStore) :=
  match p with
  | Done _ => None
  | Step m k =>
    Some match m s with
         | (Ret (Ok b), s') => (Ret (Ok (k b)), s')
         | (Ret (Err e), s') => (Ret (Err e), s')
         | (Panic, s') => (Panic, s')
         end
  end.

(** A panic outside the locks ends the thread. There is no step for a panic under a lock, which
    would poison it: a program with one would be stuck. *)
Inductive step : config → config → Prop :=
| step_spawn s ts req :
    request_wf req →
    step (s, ts) (s, ts ++ [(req, Running [] (plan req) (body req))])
| step_lock s ts i req held x todo p :
    ts !! i = Some (req, Running held (x :: todo) p) →
    (∀ j req' t', ts !! j = Some (req', t') → x ∉ held_by t') →
    step (s, ts) (s, <[i := (req, Running (held ++ [x]) todo p)]> ts)
| step_call s ts i req held p p' s' :
    ts !! i = Some (req, Running held [] p) →
    advance p s = Some (Ret (Ok p'), s') →
    step (s, ts) (s', <[i := (req, Running held [] p')]> ts)
| step_fail s ts i req held p e s' :
    ts !! i = Some (req, Running held [] p) →
    advance p s = Some (Ret (Err e), s') →
    step (s, ts) (finish req (Err e) s', <[i := (req, Finished (Err e))]> ts)
| step_panic s ts i req p s' :
    ts !! i = Some (req, Running [] [] p) →
    advance p s = Some (Panic, s') →
    step (s, ts) (s', <[i := (req, Panicked)]> ts)
| step_done s ts i req held r :
    ts !! i = Some (req, Running held [] (Done r)) →
    step (s, ts) (finish req r s, <[i := (req, Finished r)]> ts).

(** ** Schedules *)

(** The same steps as a function of the thread the scheduler picks. *)
Definition free (x : N) (ts : Datatypes.list (request * thread)) : bool :=
  bool_decide (Forall (λ t, x ∉ held_by t.2) ts).

Definition run_thread (i : nat) (c : config) : option config :=
  let '(s, ts) := c in
  match ts !! i with
  | Some (req, Running held (x :: todo) p) =>
    if free x ts then Some (s, <[i := (req, Running (held ++ [x]) todo p)]> ts) else None
  | Some (req, Running held [] (Done r)) => Some (finish req r s, <[i := (req, Finished r)]> ts)
  | Some (req, Running held [] p) =>
    match advance p s with
    | Some (Ret (Ok p'), s') => Some (s', <[i := (req, Running held [] p')]> ts)
    | Some (Ret (Err e), s') => Some (finish req (Err e) s', <[i := (req, Finished (Err e))]> ts)
    | Some (Panic, s') =>
      match held with [] => Some (s', <[i := (req, Panicked)]> ts) | _ :: _ => None end
    | None => None
    end
  | _ => None
  end.

Fixpoint schedule (order : Datatypes.list nat) (c : config) : option config :=
  match order with
  | [] => Some c
  | i :: order => run_thread i c ≫= schedule order
  end.

Definition spawned (reqs : Datatypes.list request) : Datatypes.list (request * thread) :=
  (λ req, (req, Running [] (plan req) (body req))) <$> reqs.

Lemma free_spec x ts : free x ts = true ↔ ∀ j req t, ts !! j = Some (req, t) → x ∉ held_by t.
Proof.
  unfold free. rewrite bool_decide_eq_true, Forall_lookup. split; [intros Hf j req t; apply Hf|].
  intros Hf j [req t]. apply Hf.
Qed.

Lemma run_thread_step i c c' : run_thread i c = Some c' → step c c'.
Proof.
  destruct c as [s ts]. simpl. destruct (ts !! i) as [[req [held [|x todo] p|r|]]|] eqn:Hi; [| |done..].
  - destruct p as [r|B m k]; [intros [= <-]; by eapply step_done|].
    destruct (advance (Step m k) s) as [[[[p'|e]|] s']|] eqn:Ha; [| |destruct held|];
      intros [= <-]; [by eapply step_call|by eapply step_fail|by eapply step_panic].
  - destruct (free x ts) eqn:Hf; intros [= <-]. eapply step_lock; [done|]. by apply free_spec.
Qed.

Lemma schedule_steps order c c' : schedule order c = Some c' → rtc step c c'.
Proof.
  revert c. induction order as [|i order IH]; intros c; cbn [schedule]; [intros [= ->]; constructor|].
  intros (c1 & H1 & H2)%bind_Some. eapply rtc_l; [by eapply run_thread_step|auto].
Qed.

Lemma spawn_all s ts reqs : Forall request_wf reqs → rtc step (s, ts) (s, ts ++ spawned reqs).
Proof.
  intros Hok. revert ts. induction Hok as [|req reqs Hr _ IH]; intros ts.
  - unfold spawned. rewrite fmap_nil, app_nil_r. constructor.
  - unfold spawned. rewrite fmap_cons. fold (spawned reqs). rewrite cons_middle, app_assoc.
    eapply rtc_l; [by apply step_spawn|apply IH].
Qed.

(** ** Programs and adapter operations *)

Lemma bind_assoc {A B C} (m : op A) (f : A → op B) (g : B → op C) s :
  comp_bind (comp_bind m f) g s = comp_bind m (λ a, comp_bind (f a) g) s.
Proof. unfold comp_bind. by destruct (m s) as [[[a|e]|] s1]. Qed.

Lemma bind_ext {A B} (m : op A) (f g : A → op B) s :
  (∀ a s1, f a s1 = g a s1) → comp_bind m f s = comp_bind m g s.
Proof. intros Hfg. unfold comp_bind. destruct (m s) as [[[a|e]|] s1]; auto. Qed.

(** An answer put around the recorded outcome of a body. *)
Lemma recorded_answer {A} name (m : op A) (f : A → answer) (q : op answer) s :
  (let! a := m in comp_ret (f a)) s = q s →
  (let! a := recorded name m in comp_ret (f a)) s
  = match q s with
    | (Ret r, s') => (Ret r, record_storage_op name r s')
    | (Panic, s') => (Panic, s')
    end.
Proof.
  intros Hq. rewrite <- Hq. unfold recorded, comp_bind.
  by destruct (m s) as [[[a|e]|] s'].
Qed.

Lemma guard_free k s :
  Locks.poisoned (write_locks s) = ∅ → guard k s = (Ret (Ok tt), s).
Proof.
  intros Hp. unfold guard, Locks.lock_for, Locks.lock.
  rewrite bool_decide_eq_false_2; [done|]. rewrite Hp. apply not_elem_of_empty.
Qed.

Lemma bind_guard {A} k (f : op A) s :
  Locks.poisoned (write_locks s) = ∅ → (let! _ := guard k in f) s = f s.
Proof. intros Hp. unfold comp_bind. by rewrite (guard_free k s Hp). Qed.

Lemma locks_free ks s :
  Locks.poisoned (write_locks s) = ∅ →
  Locks.lock_stripes_for_keys (E := fjall_error) (write_locks s) ks = Ok (Locks.stripes ks).
Proof.
  intros Hp. apply Locks.lock_all_ok. split; [done|]. apply list.Forall_forall. intros x _.
  rewrite Hp. apply not_elem_of_empty.
Qed.

Lemma run_increment now b k o e s :
  Locks.poisoned (write_locks s) = ∅ →
  serve (ReqIncrement now b k o e) s
  = match run (body (ReqIncrement now b k o e)) s with
    | (Ret r, s') => (Ret r, finish (ReqIncrement now b k o e) r s')
    | (Panic, s') => (Panic, s')
    end.
Proof.
  intros Hp. apply recorded_answer. rewrite bind_assoc, bind_guard by done. cbn [body run].
  rewrite bind_assoc. apply bind_ext. intros found s1. unfold increment_entry.
  rewrite !bind_assoc. apply bind_ext. intros cur s2. rewrite !bind_assoc. apply bind_ext.
  intros merged s3. rewrite !bind_assoc. apply bind_ext. intros stored s4. rewrite !bind_assoc.
  apply bind_ext. intros l s5. rewrite bind_assoc. unfold comp_bind at 3. simpl.
  apply bind_ext. done.
Qed.

Lemma run_batch b ops s :
  Locks.poisoned (write_locks s) = ∅ →
  serve (ReqBatch b ops) s
  = match run (body (ReqBatch b ops)) s with
    | (Ret r, s') => (Ret r, finish (ReqBatch b ops) r s')
    | (Panic, s') => (Panic, s')
    end.
Proof.
  intros Hp. apply recorded_answer. cbn [body]. case_bool_decide; [done|]. cbn [run].
  rewrite bind_assoc. unfold comp_bind at 1. unfold comp_bind at 4.
  unfold qm at 1. unfold qm at 2. destruct (batch_items b ops) as [items|]; [|done].
  rewrite bind_assoc. unfold comp_bind at 1. unfold qm at 1.
  rewrite (locks_free _ s Hp). rewrite bind_assoc. by apply bind_ext.
Qed.

Lemma run_sweep now_ts idx ts sk s :
  Locks.poisoned (write_locks s) = ∅ →
  serve (ReqSweep now_ts idx ts sk) s = run (body (ReqSweep now_ts idx ts sk)) s.
Proof.
  intros Hp. simpl. unfold Gc.sweep_entry, Locks.lock_for, Locks.lock.
  rewrite bool_decide_eq_false_2 by (rewrite Hp; apply not_elem_of_empty).
  unfold comp_bind, quiet. destruct (Gc.call (ks_remove Expiry idx) s) as [[[]|] s1]; [|done].
  simpl. unfold comp_bind, quiet, Gc.remove_if_due.
  destruct (Gc.call (ks_get Data sk) s1) as [[[v|]|] s2];
    [|done..].
  simpl. unfold due. destruct (decode_entry_expires_unix v) as [[actual|]|]; simpl; [|done..].
  destruct (now_ts <? actual); [done|]. destruct (actual =? ts); [|done]. simpl.
  unfold comp_bind, quiet. by destruct (Gc.call (ks_remove Data sk) s2) as [[[]|] s3].
Qed.

(** A request served alone is its program run without interruption. *)
Lemma serve_run req s :
  Locks.poisoned (write_locks s) = ∅ →
  serve req s = match run (body req) s with
                | (Ret r, s') => (Ret r, finish req r s')
                | (Panic, s') => (Panic, s')
                end.
Proof.
  intros Hp. destruct req as [b k|b k v e|b k|now b k o e|b ops|b opts|now_ts idx ts sk].
  - apply recorded_answer. done.
  - apply recorded_answer. rewrite bind_assoc, bind_guard by done. cbn [body run].
    rewrite bind_assoc. apply bind_ext. intros l s1. rewrite bind_assoc. by apply bind_ext.
  - apply recorded_answer. rewrite bind_assoc, bind_guard by done. cbn [body run].
    rewrite bind_assoc. apply bind_ext. intros existed s1. rewrite bind_assoc. by apply bind_ext.
  - by apply run_increment.
  - by apply run_batch.
  - apply recorded_answer. done.
  - rewrite run_sweep by done. unfold finish. simpl.
    by destruct (comp_bind _ _ s) as [[r|] s'].
Qed.

End Interleave.

Arguments Done {F A} _.
Arguments Step {F A B} _ _.

End Interleave.
