(* ===== verification/Linearize.v ===== *)
(** * Linearizability of the adapter

    The sequential specification of the requests on the abstract state, and the proof that every
    interleaved execution ([Interleave]) is explained by an order of atomic requests. A request
    takes effect at one of its own steps, so the order only ever grows at its end. *)

From Stdlib Require Import Strings.Byte.
From S2P Require Import Prelude RustStd TimeLib Domain Counter Ports Codec FjallLib Locks Store StoreSpec StoreList StoreRepo Gc Interleave.
Import Store Interleave.

Section Linearize.
Context {T : TimeOps} {P : PostcardOps} {J : PolicyJsonOps} {F : FjallOps} {H : HasherOps}
        {L : LayoutOps}.
Context {TL : TimeLaws T} {PL : PostcardLaws P} {JL : PolicyJsonLaws J} {FL : FjallLaws F}
        {LL : LayoutLaws L}.

Abbreviation op A := (comp FjallStore A UseCaseError).
Abbreviation store_map := (keyspace → gmap bytes bytes).
Abbreviation no_error := (λ _ : UseCaseError, False).

(** ** The sequential specification *)

Definition View : Type := BucketId → Key → option StoredEntry.

Definition same (V V' : View) : Prop := ∀ b k, Layout.bucket_ok b → V' b k = V b k.

Definition upd (V : View) (b : BucketId) (k : Key) (o : option StoredEntry) : View :=
  λ b' k', if decide ((b', k') = (b, k)) then o else V b' k'.

Definition upd_all (V : View) (b : BucketId) (ops : Datatypes.list TxnOp) : View :=
  λ b' k', if decide (b' = b) then txn_result k' (V b' k') ops else V b' k'.

(** The entry of a storage key is gone, and it had expired at [now_ts]. *)
Definition collected (now_ts : Z) (sk : bytes) (V V' : View) : Prop :=
  ∀ b k, Layout.bucket_ok b →
    V' b k = (if decide (Layout.data_storage_key b k = sk) then None else V b k)
    ∧ ∀ en, Layout.data_storage_key b k = sk → V b k = Some en →
        ∃ exp, expires_at en = Some exp ∧ unix_timestamp exp <= now_ts.

(** [effect V req a V']: from the entries [V] the request answers [a] and leaves [V']. *)
Definition effect (V : View) (req : request) (a : answer) (V' : View) : Prop :=
  match req with
  | ReqGet b k => a = AEntry (V b k) ∧ same V V'
  | ReqSet b k v e => a = AUnit ∧ same (upd V b k (Some (written v e))) V'
  | ReqDelete b k => a = ABool (bool_decide (is_Some (V b k))) ∧ same (upd V b k None) V'
  | ReqIncrement now b k o e =>
    ∃ v, incremented now (V b k) o = Ok v ∧ a = AValue v ∧ same (upd V b k (Some (written v e))) V'
  | ReqBatch b ops => a = AUnit ∧ same (upd_all V b ops) V'
  | ReqList b opts =>
    (∃ ks, StronglySorted key_lt ks ∧ (∀ k, k ∈ ks ↔ listed (V b) opts k)
           ∧ a = AList (page opts (list_row (V b) opts <$> ks)))
    ∧ same V V'
  | ReqSweep now_ts _ _ sk => (∃ x, a = ABool x) ∧ (same V V' ∨ collected now_ts sk V V')
  end.

(** A storage error may hide an effect or none; a domain error is the counter's, and has none. *)
Definition atomic (V : View) (req : request) (r : result answer UseCaseError) (V' : View) : Prop :=
  match r with
  | Ok a => effect V req a V'
  | Err (DomainErr de) =>
    same V V' ∧ ∃ now b k o e, req = ReqIncrement now b k o e ∧ incremented now (V b k) o = Err de
  | Err (Storage _) => same V V' ∨ ∃ a, effect V req a V'
  | Err _ => False
  end.

(** One request after the other. *)
Inductive replay : View → Datatypes.list (nat * request * result answer UseCaseError) → View → Prop :=
| replay_nil V V' : same V V' → replay V [] V'
| replay_snoc V log V1 i req r V2 :
    replay V log V1 → atomic V1 req r V2 → replay V (log ++ [(i, req, r)]) V2.

(** ** Where a thread is *)

(** The program a thread is at, before its effect, with what it knows about the contents: what
    it has read is still there. *)
Inductive phase (m : store_map) : request → prog answer → Prop :=
| ph_start req : phase m req (body req)
| ph_set b k v e l :
    encode_entry (E := fjall_error) v e = Ok l →
    phase m (ReqSet b k v e)
      (Step (write_entry (Layout.data_storage_key b k) l e) (λ _, Done (Ok AUnit)))
| ph_delete b k existed :
    existed = bool_decide (is_Some (m Data !! Layout.data_storage_key b k)) →
    phase m (ReqDelete b k)
      (Step (if existed : bool then on_db (ks_remove Data (Layout.data_storage_key b k)) else comp_ret tt)
        (λ _, Done (Ok (ABool existed))))
| ph_found now b k o e found :
    found = m Data !! Layout.data_storage_key b k →
    phase m (ReqIncrement now b k o e)
      (Step (increment_entry now o e found) (λ vl,
       Step (write_entry (Layout.data_storage_key b k) vl.2 e) (λ _, Done (Ok (AValue vl.1)))))
| ph_computed now b k o e v l :
    incremented now (view_map m b k) o = Ok v → encode_entry (E := fjall_error) v e = Ok l →
    Value.value_ok v →
    phase m (ReqIncrement now b k o e)
      (Step (write_entry (Layout.data_storage_key b k) l e) (λ _, Done (Ok (AValue v))))
| ph_batch b ops items :
    ops ≠ [] → batch_items b ops = Ok items →
    phase m (ReqBatch b ops)
      (Step (on_db (batch_commit (items ≫= item_writes))) (λ _, Done (Ok AUnit)))
| ph_sweep_read now_ts idx ts sk : phase m (ReqSweep now_ts idx ts sk) (sweep_read now_ts ts sk)
| ph_sweep_due now_ts idx ts sk v :
    m Data !! sk = Some v → due now_ts ts v = true →
    phase m (ReqSweep now_ts idx ts sk) (sweep_remove sk).

(** Only the storage keys of the request matter. *)
Lemma phase_stable m m' req p :
  (∀ sk, sk ∈ keys_of req → m' Data !! sk = m Data !! sk) → phase m req p → phase m' req p.
Proof.
  intros Hm Hp. destruct Hp; simpl in Hm; try by constructor.
  - subst. constructor. by rewrite Hm by set_solver.
  - subst. constructor. by rewrite Hm by set_solver.
  - constructor; [|done|done]. unfold view_map in *. by rewrite Hm by set_solver.
  - econstructor; [|done]. rewrite Hm by set_solver. done.
Qed.

(** ** The effect of writes on a view *)

Lemma applied_same s s' ws :
  applied s s' ws → (∀ m, apply_writes m ws Data = m Data) → same (view s) (view s').
Proof. intros Ha Hw b k _. unfold view, view_map. by rewrite Ha, Hw. Qed.

Lemma applied_view s s' ws (V : View) :
  applied s s' ws →
  (∀ b k, Layout.bucket_ok b → view_map (apply_writes (cont s) ws) b k = V b k) → same V (view s').
Proof. intros Ha Hw b k Hb. unfold view. rewrite (view_map_ext _ _ b k Ha). auto. Qed.

Lemma data_wf_applied s s' ws :
  applied s s' ws → data_wf (apply_writes (cont s) ws) → data_wf (cont s').
Proof. intros Ha Hd sk l. rewrite Ha. apply Hd. Qed.

Lemma data_wf_entry m sk v e l :
  sk ≠ [] → Value.value_ok v → encode_entry (E := fjall_error) v e = Ok l → data_wf m →
  data_wf (apply_writes m (entry_writes sk l e)).
Proof.
  intros Hsk Hv Hl Hd sk' x. rewrite lookup_entry_writes. case_decide as Hk; [|apply Hd].
  intros [= <-]. subst. split; [done|].
  destruct (Entry.decode_encode (E := fjall_error) v e Hv) as (l' & Hl' & Hdec & _).
  assert (l' = l) as -> by congruence. unfold decoded. rewrite Hdec. by eexists.
Qed.

Lemma data_wf_remove m sk : data_wf m → data_wf (apply_writes m [BatchRemove Data sk]).
Proof. intros Hd sk' x. rewrite lookup_remove. case_decide; [done|apply Hd]. Qed.

(** The keys a batch does not name, and the records it leaves. *)
Lemma batch_writes b ops items m :
  Forall txn_ok ops → batch_items b ops = Ok items →
  (data_wf m → data_wf (apply_writes m (items ≫= item_writes)))
  ∧ ∀ sk, sk ∉ (λ o, Layout.data_storage_key b (txn_key o)) <$> ops →
      apply_writes m (items ≫= item_writes) Data !! sk = m Data !! sk.
Proof.
  intros Hok. revert m items. induction Hok as [|o ops Ho Hops IH]; intros m items; cbn [batch_items].
  { by intros [= <-]. }
  intros Hi. apply result_bind_ok in Hi as (it & Hit & Hi).
  apply result_bind_ok in Hi as (its & Hits & [= <-]).
  rewrite bind_cons, apply_writes_app. destruct (IH (apply_writes m (item_writes it)) its Hits) as [H1 H2].
  rewrite fmap_cons. split.
  - intros Hd. apply H1. destruct o as [k v e|k].
    + apply batch_item_set in Hit as (l & Hl & ->).
      by eapply data_wf_entry; [apply storage_key_nonempty| | |].
    + injection Hit as <-. by apply data_wf_remove.
  - intros sk [Hne Hsk]%not_elem_of_cons. rewrite (H2 sk Hsk). destruct o as [k v e|k]; simpl in Hne.
    + apply batch_item_set in Hit as (l & Hl & ->). rewrite lookup_entry_writes. by rewrite decide_False.
    + injection Hit as <-. cbn [item_writes]. rewrite lookup_remove. by rewrite decide_False.
Qed.

(** ** One step of a program *)

(** What a step of a thread that has not yet taken effect does: it stays within its storage
    keys, and it either goes on without changing a record or takes effect. *)
Definition outcome (s : FjallStore) (req : request)
    (r : exec (result (prog answer) UseCaseError)) (s' : FjallStore) : Prop :=
  data_wf (cont s')
  ∧ (∀ sk, sk ∉ keys_of req → cont s' Data !! sk = cont s Data !! sk)
  ∧ match r with
    | Ret (Ok p) =>
      (cont s' Data = cont s Data ∧ phase (cont s') req p)
      ∨ ∃ res, p = Done res ∧ atomic (view s) req res (view s')
    | Ret (Err e) => atomic (view s) req (Err e) (view s')
    | Panic => ∃ b opts, req = ReqList b opts ∧ overflows opts ∧ s' = s
    end.

Lemma advance_wp {B} (m : op B) (k : B → prog answer) s Q r s' :
  wp m s Q → advance (Step m k) s = Some (r, s') →
  match r with
  | Ret (Ok p) => ∃ b, p = k b ∧ Q (Ret (Ok b)) s'
  | Ret (Err e) => Q (Ret (Err e)) s'
  | Panic => Q Panic s'
  end.
Proof.
  unfold wp. simpl. destruct (m s) as [[[b|e]|] s1]; simpl; intros HQ [= <- <-]; eauto.
Qed.

Lemma unchanged_outcome s s' req r :
  data_wf (cont s) → cont s' Data = cont s Data →
  match r with
  | Ret (Ok p) =>
    phase (cont s) req p ∨ ∃ res, p = Done res ∧ atomic (view s) req res (view s')
  | Ret (Err e) => atomic (view s) req (Err e) (view s')
  | Panic => False
  end → outcome s req r s'.
Proof.
  intros Hd Hc Hr. split; [intros sk l; rewrite Hc; apply Hd|]. split; [by rewrite Hc|].
  destruct r as [[p|e]|]; [|done|done]. destruct Hr as [Hp|Hr]; [left|by right].
  split; [done|]. apply (phase_stable (cont s)); [|done]. intros. by rewrite Hc.
Qed.

Lemma same_data s s' : cont s' Data = cont s Data → same (view s) (view s').
Proof. intros Hc b k _. unfold view, view_map. by rewrite Hc. Qed.

(** A step that reads or computes. *)
Lemma read_outcome {B} (m : op B) k s req R (D : UseCaseError → Prop) r s' :
  data_wf (cont s) → advance (Step m k) s = Some (r, s') →
  wp m s (post s False (λ b ws, ws = [] ∧ R b) D) →
  (∀ b, R b → phase (cont s) req (k b)
              ∨ ∃ a, k b = Done (Ok a) ∧ ∀ V', same (view s) V' → effect (view s) req a V') →
  (∀ e V', D e → same (view s) V' → atomic (view s) req (Err e) V') →
  outcome s req r s'.
Proof.
  intros Hd Ha Hm Hk HD. pose proof (advance_wp m k s _ r s' Hm Ha) as Hr.
  assert (applied s s' [] → cont s' Data = cont s Data) as Hc by (intros Hap; by rewrite Hap).
  destruct r as [[p|e]|]; [| |by destruct Hr as [_ ?]].
  - destruct Hr as (b & -> & _ & ws & [-> HR] & Hap). specialize (Hc Hap).
    apply unchanged_outcome; [done|done|]. destruct (Hk b HR) as [?|(a & -> & Hef)]; [by left|right].
    exists (Ok a). split; [done|]. apply Hef. by apply same_data.
  - destruct Hr as [_ Hr].
    assert (cont s' Data = cont s Data) as Hc'.
    { destruct Hr as [[_ Hap]|(_ & _ & ws & [->|(b & -> & _)] & Hap)]; auto. }
    apply unchanged_outcome; [done|done|]. pose proof (same_data s s' Hc') as Hs.
    destruct Hr as [[He _]|([m0 Hm0] & _)]; [by apply HD|].
    destruct e; try done. by left.
Qed.

(** A step that commits. *)
Lemma commit_outcome {B} (m : op B) a s req W r s' :
  data_wf (cont s) → advance (Step m (λ _, Done (Ok a))) s = Some (r, s') →
  wp m s (post s False W no_error) →
  (∀ b ws, W b ws → data_wf (apply_writes (cont s) ws)
     ∧ (∀ sk, sk ∉ keys_of req → apply_writes (cont s) ws Data !! sk = cont s Data !! sk)
     ∧ effect (view s) req a (view_map (apply_writes (cont s) ws))) →
  (∀ V1 V2, effect (view s) req a V1 → same V1 V2 → effect (view s) req a V2) →
  outcome s req r s'.
Proof.
  intros Hd Ha Hm HW Hext. pose proof (advance_wp m _ s _ r s' Hm Ha) as Hr.
  assert (∀ b ws, W b ws → applied s s' ws →
    data_wf (cont s') ∧ (∀ sk, sk ∉ keys_of req → cont s' Data !! sk = cont s Data !! sk)
    ∧ effect (view s) req a (view s')) as Hcommit.
  { intros b ws Hw Hap. destruct (HW b ws Hw) as (H1 & H2 & H3).
    split; [by eapply data_wf_applied|]. split; [intros sk Hsk; rewrite Hap; by apply H2|].
    eapply Hext; [exact H3|]. by eapply applied_view. }
  destruct r as [[p|e]|]; [| |by destruct Hr as [_ ?]].
  - destruct Hr as (b & -> & _ & ws & Hw & Hap). destruct (Hcommit b ws Hw Hap) as (H1 & H2 & H3).
    split; [done|]. split; [done|]. right. by exists (Ok a).
  - destruct Hr as [_ [[[] _]|([m0 Hm0] & _ & ws & Hws & Hap)]].
    destruct e; try done. destruct Hws as [->|[b Hw]].
    + apply unchanged_outcome; [done|by rewrite Hap|]. left. apply same_data. by rewrite Hap.
    + destruct (Hcommit b ws Hw Hap) as (H1 & H2 & H3). split; [done|]. split; [done|]. right. eauto.
Qed.

(** ** The pieces of the programs *)

Lemma get_entry_spec s b k :
  wp (get_entry b k) s (post s False (λ o ws, ws = [] ∧ o = view s b k) no_error).
Proof.
  apply wp_step with (R := λ o, o = cont s Data !! Layout.data_storage_key b k).
  - eapply wp_read; [apply get_law|done|done].
  - intros o s1 -> _ _. destruct (cont s Data !! _) as [l|] eqn:Hl.
    + apply (wp_last s1 _ _ Some), wp_qm. destruct (decode_entry l) as [en|] eqn:Ed; [|by intros []].
      split; [done|]. symmetry. by eapply view_lookup.
    + apply wp_ret. split; [done|]. exists []. split; [|done]. split; [done|].
      unfold view, view_map. by rewrite Hl.
Qed.

(** A listing that fits in memory answers a page of the entries of its own instant. *)
Lemma list_inner_spec s b opts :
  ¬ overflows opts → data_wf (cont s) →
  wp (list_inner b opts) s
    (post s False
      (λ rows ws, ws = []
         ∧ ∃ ks, StronglySorted key_lt ks ∧ (∀ k, k ∈ ks ↔ listed (view s b) opts k)
                 ∧ rows = page opts (list_row (view s b) opts <$> ks)) no_error).
Proof.
  intros Hw Hwf. unfold wp. destruct (list_inner b opts s) as [r s'] eqn:El.
  destruct (wp_elim _ _ _ _ _ (list_inner_post s b opts) El) as (Hf & Ha & Hr).
  split; [done|]. destruct r as [[rows|e]|].
  - exists []. split; [|done]. split; [done|]. by apply Hr.
  - destruct Hr as [[m ->] _]. right. split; [by eexists|]. split; [by intros []|].
    exists []. split; [by left|done].
  - apply Hw. by apply list_inner_panic in El as [? _].
Qed.

#[local] Instance overflows_dec opts : Decision (overflows opts).
Proof. unfold overflows. apply _. Defined.

Lemma operand_spec s now b k :
  wp (match cont s Data !! Layout.data_storage_key b k with
      | None => comp_ret (Counter.ValInt 0)
      | Some l =>
        let! entry := qm (decode_entry l) in
        if match Ports.expires_at entry with Some exp => odt_leb exp now | None => false end
        then comp_ret (Counter.ValInt 0)
        else comp_lift (from_domain (Counter.from_stored (value entry)))
      end) s
    (post s False (λ cur ws, ws = [] ∧ counter_operand now (view s b k) = Ok cur)
      (λ err, ∃ de, err = DomainErr de ∧ counter_operand now (view s b k) = Err de)).
Proof.
  destruct (cont s Data !! _) as [l|] eqn:Hl.
  - eapply wp_step with (R := λ en, decode_entry (E := fjall_error) l = Ok en).
    { apply wp_qm. destruct (decode_entry l) as [en|]; [done|by intros []]. }
    intros en s1 Hen _ _. rewrite (view_lookup s b k l en Hl Hen). simpl.
    destruct (expires_at en) as [exp|]; [destruct (odt_leb exp now)|].
    1: apply wp_ret; split; [done|]; by exists [].
    all: apply wp_domain; destruct (Counter.from_stored (value en)); [done|]; by eexists.
  - apply wp_ret. split; [done|]. exists []. split; [|done]. split; [done|].
    unfold view, view_map. by rewrite Hl.
Qed.

Lemma increment_entry_spec s now b k o e :
  wp (increment_entry now o e (cont s Data !! Layout.data_storage_key b k)) s
    (post s False
      (λ vl ws, ws = [] ∧ incremented now (view s b k) o = Ok vl.1
                ∧ encode_entry (E := fjall_error) vl.1 e = Ok vl.2 ∧ Value.value_ok vl.1)
      (λ err, ∃ de, err = DomainErr de ∧ incremented now (view s b k) o = Err de)).
Proof.
  unfold increment_entry.
  eapply wp_step with (R := λ cur, counter_operand now (view s b k) = Ok cur).
  { eapply wp_mono; [apply operand_spec|]. intros r s1 Hp. eapply post_mono; [exact Hp|done|done|].
    intros err (de & -> & Hde). exists de. split; [done|]. unfold incremented. by rewrite Hde. }
  intros cur s1 Hcur _ _. unfold incremented. rewrite Hcur. simpl.
  eapply wp_step with (R := λ m, Counter.apply o cur = Ok m).
  { apply wp_domain. destruct (Counter.apply o cur); [done|]. by eexists. }
  intros m s2 Hm _ _. rewrite Hm. simpl.
  eapply wp_step with (R := λ v, Counter.into_stored m = Ok v).
  { apply wp_domain. destruct (Counter.into_stored m); [done|]. by eexists. }
  intros v s3 Hv _ _. apply (wp_last s3 _ _ (λ l, (v, l))), wp_qm.
  destruct (encode_entry v e) as [l|] eqn:El; [|by intros []]. simpl. rewrite El.
  split_and!; try done. destruct m; simpl in Hv; by apply Value.new_ok in Hv as [_ ?].
Qed.

(** A same-extension of an effect is an effect. *)
Lemma same_trans V1 V2 V3 : same V1 V2 → same V2 V3 → same V1 V3.
Proof. intros H1 H2 b k Hb. rewrite H2, H1; done. Qed.

Lemma effect_ext V req a V1 V2 : effect V req a V1 → same V1 V2 → effect V req a V2.
Proof.
  intros He Hs. destruct req; simpl in *; try (destruct He as [? ?]; split; [done|by eapply same_trans]).
  - destruct He as (v & ? & ? & ?). exists v. split; [done|]. split; [done|]. by eapply same_trans.
  - destruct He as [Ha [H1|H1]]; (split; [done|]); [left; by eapply same_trans|right].
    intros b k Hb. rewrite Hs by done. by apply H1.
Qed.

Lemma write_entry_outcome s req b k v e l a r s' :
  data_wf (cont s) → Layout.bucket_ok b → Value.value_ok v →
  encode_entry (E := fjall_error) v e = Ok l → Layout.data_storage_key b k ∈ keys_of req →
  (∀ V', same (upd (view s) b k (Some (written v e))) V' → effect (view s) req a V') →
  advance (Step (write_entry (Layout.data_storage_key b k) l e) (λ _, Done (Ok a))) s = Some (r, s') →
  outcome s req r s'.
Proof.
  intros Hd Hb Hv Hl Hk He Ha. eapply commit_outcome; [done|exact Ha| | |apply effect_ext].
  { apply (spec_write_entry s False). done. }
  intros u ws ->. split; [by eapply data_wf_entry; [apply storage_key_nonempty|..]|]. split.
  - intros sk Hsk. rewrite lookup_entry_writes. rewrite decide_False; [done|]. by intros ->.
  - apply He. intros b' k' Hb'. by apply view_entry_writes.
Qed.

(** *** The sweeper *)

Lemma due_expired now_ts ts v en :
  due now_ts ts v = true → decoded v = Some en →
  ∃ exp, expires_at en = Some exp ∧ unix_timestamp exp <= now_ts.
Proof.
  unfold due, decoded. destruct (decode_entry v) as [en'|] eqn:Ed; [|done]. intros Hdue [= ->].
  destruct (Entry.decode_entry_inv v en Ed) as (_ & o & Ho & Hm). rewrite Ho in Hdue.
  destruct o as [actual|], (expires_at en) as [exp|]; try done. destruct Hm as [Hx _].
  exists exp. split; [done|]. rewrite (unix_timestamp_from actual exp Hx).
  apply andb_prop in Hdue as [Hn _]. apply negb_true_iff, Z.ltb_ge in Hn. done.
Qed.

Lemma sweep_index_outcome s now_ts idx ts sk r s' :
  data_wf (cont s) → advance (body (ReqSweep now_ts idx ts sk)) s = Some (r, s') →
  outcome s (ReqSweep now_ts idx ts sk) r s'.
Proof.
  intros Hd. simpl. unfold quiet. destruct (Gc.call (ks_remove Expiry idx) s) as [x s1] eqn:Ec.
  intros [= <- <-]. apply (Gc.call_write _ _ _ _ _ (remove_law _ _)) in Ec as (_ & _ & Hc).
  assert (cont s1 Data = cont s Data) as Hdata by (destruct x; [|destruct Hc as [_ [Hc|Hc]]]; by rewrite Hc).
  apply unchanged_outcome; [done|done|]. destruct x as [u|e]; [left; constructor|right].
  exists (Ok (ABool false)). split; [done|]. split; [by eexists|]. left. by apply same_data.
Qed.

Lemma sweep_read_outcome s now_ts idx ts sk r s' :
  data_wf (cont s) → advance (sweep_read now_ts ts sk) s = Some (r, s') →
  outcome s (ReqSweep now_ts idx ts sk) r s'.
Proof.
  intros Hd. simpl. unfold quiet. destruct (Gc.call (ks_get Data sk) s) as [x s1] eqn:Ec.
  intros [= <- <-]. apply (Gc.call_read _ _ _ _ _ (get_law _ _)) in Ec as (_ & _ & Hc & Hx).
  apply unchanged_outcome; [done|by rewrite Hc|].
  assert (∃ res, Done (F := F) (Ok (ABool false)) = Done res
    ∧ atomic (view s) (ReqSweep now_ts idx ts sk) res (view s1)) as Hno.
  { exists (Ok (ABool false)). split; [done|]. split; [by eexists|]. left. apply same_data. by rewrite Hc. }
  destruct x as [[v|]|e]; simpl; [|by right..].
  destruct (due now_ts ts v) eqn:Hdue; [|by right]. left. by eapply ph_sweep_due.
Qed.

Lemma sweep_remove_outcome s now_ts idx ts sk v r s' :
  data_wf (cont s) → cont s Data !! sk = Some v → due now_ts ts v = true →
  advance (sweep_remove sk) s = Some (r, s') → outcome s (ReqSweep now_ts idx ts sk) r s'.
Proof.
  intros Hd Hv Hdue. simpl. unfold quiet. destruct (Gc.call (ks_remove Data sk) s) as [x s1] eqn:Ec.
  intros [= <- <-]. apply (Gc.call_write _ _ _ _ _ (remove_law _ _)) in Ec as (_ & _ & Hc).
  assert (applied s s1 [] ∨ applied s s1 [BatchRemove Data sk]) as [Ha|Ha]
    by (destruct x; [by right|by destruct Hc as [_ Hc]]).
  - apply unchanged_outcome; [done|by rewrite Ha|]. right. eexists. split; [done|].
    split; [by eexists|]. left. apply same_data. by rewrite Ha.
  - split; [eapply data_wf_applied; [done|by apply data_wf_remove]|]. split.
    { intros sk' Hsk. rewrite Ha, lookup_remove. rewrite decide_False; [done|]. set_solver. }
    right. eexists. split; [done|]. split; [by eexists|]. right. intros b k Hb. split.
    + unfold view. rewrite (view_map_ext _ _ b k Ha). unfold view_map. rewrite lookup_remove.
      by case_decide.
    + intros en Hk. unfold view, view_map. rewrite Hk, Hv. simpl. by apply due_expired with ts.
Qed.

(** *** Every step *)

Lemma start_outcome s req r s' :
  request_wf req → data_wf (cont s) → advance (body req) s = Some (r, s') → outcome s req r s'.
Proof.
  intros Hok Hd Ha. destruct req as [b k|b k v e|b k|now b k o e|b ops|b opts|now_ts idx ts sk].
  - eapply read_outcome; [done|exact Ha|apply get_entry_spec| |done].
    intros o ->. right. by exists (AEntry (view s b k)).
  - eapply read_outcome with (R := λ l, encode_entry (E := fjall_error) v e = Ok l) (D := no_error);
      [done|exact Ha| | |done].
    + apply wp_qm. destruct (encode_entry v e); [done|by intros []].
    + intros l Hl. left. by constructor.
  - eapply read_outcome with
      (R := λ x, x = bool_decide (is_Some (cont s Data !! Layout.data_storage_key b k))) (D := no_error);
      [done|exact Ha| | |done].
    + eapply wp_read; [apply contains_key_law|done|done].
    + intros x Hx. left. by constructor.
  - eapply read_outcome with (R := λ x, x = cont s Data !! Layout.data_storage_key b k) (D := no_error);
      [done|exact Ha| | |done].
    + eapply wp_read; [apply get_law|done|done].
    + intros x Hx. left. by constructor.
  - cbn [body] in Ha. case_bool_decide as Hnil; [done|].
    eapply read_outcome with (R := λ items, batch_items b ops = Ok items) (D := no_error);
      [done|exact Ha| | |done].
    + apply wp_qm. destruct (batch_items b ops); [done|by intros []].
    + intros items Hi. left. by constructor.
  - destruct (decide (overflows opts)) as [Ho|Ho].
    { cbn [body advance] in Ha. rewrite (list_inner_overflows s b opts Ho) in Ha.
      injection Ha as <- <-. split; [done|]. split; [done|]. by exists b, opts. }
    eapply read_outcome; [done|exact Ha|by apply list_inner_spec| |done].
    intros rows (ks & H1 & H2 & ->). right. eexists. split; [done|]. intros V' Hs.
    split; [|done]. by exists ks.
  - by apply sweep_index_outcome.
Qed.

Lemma delete_commit_outcome s b k r s' :
  data_wf (cont s) → Layout.bucket_ok b →
  let existed := bool_decide (is_Some (cont s Data !! Layout.data_storage_key b k)) in
  advance (Step (if existed then on_db (ks_remove Data (Layout.data_storage_key b k)) else comp_ret tt)
             (λ _, Done (Ok (ABool existed)))) s = Some (r, s') →
  outcome s (ReqDelete b k) r s'.
Proof.
  intros Hd Hb existed Ha.
  assert (existed = bool_decide (is_Some (view s b k))) as Hex.
  { unfold existed. apply bool_decide_ext. unfold view, view_map.
    destruct (cont s Data !! _) as [l|] eqn:El; simpl; [|done].
    destruct (Hd _ _ El) as [_ Hdec]. split; intros _; [exact Hdec|by eexists]. }
  eapply commit_outcome with
    (W := λ _ ws, ws = if existed then [BatchRemove Data (Layout.data_storage_key b k)] else []);
    [done|exact Ha| | |apply effect_ext].
  { destruct existed; [eapply wp_write; [apply remove_law|done|done]|].
    apply wp_ret. split; [done|]. by exists []. }
  intros u ws ->. unfold effect. rewrite <- Hex. destruct existed eqn:Ee.
  - split; [by apply data_wf_remove|]. split.
    + intros sk Hsk. rewrite lookup_remove. rewrite decide_False; [done|]. set_solver.
    + split; [done|]. intros b' k' Hb'. by apply view_remove.
  - split; [done|]. split; [done|]. split; [done|]. intros b' k' _. unfold upd. cbn [apply_writes foldl].
    case_decide as Hk; [|done]. injection Hk as -> ->. symmetry in Hex.
    apply bool_decide_eq_false in Hex. unfold view in Hex.
    destruct (view_map (cont s) b k); [|done]. exfalso. apply Hex. by eexists.
Qed.

Lemma phase_outcome s req p r s' :
  request_wf req → data_wf (cont s) → phase (cont s) req p → advance p s = Some (r, s') →
  outcome s req r s'.
Proof.
  intros Hok Hd Hp Ha.
  destruct Hp as [req|b k v e l Hl|b k existed ->|now b k o e found ->|now b k o e v l Hi Hl Hv
    |b ops items Hne Hi|now_ts idx ts sk|now_ts idx ts sk v Hv Hdue].
  - by apply start_outcome.
  - destruct Hok as [Hb Hv]. eapply write_entry_outcome; [done|exact Hb|exact Hv|exact Hl| | |exact Ha];
      simpl; [set_solver|done].
  - by apply delete_commit_outcome.
  - eapply read_outcome; [done|exact Ha|apply increment_entry_spec| |].
    + intros [v l] (Hi & Hl & Hv). left. by apply ph_computed.
    + intros err V' (de & -> & Hde) Hs. split; [done|]. by exists now, b, k, o, e.
  - eapply write_entry_outcome; [done|exact Hok|done|done| | |exact Ha]; simpl; [set_solver|].
    intros V' HV. by exists v.
  - destruct Hok as [Hb Hops]. eapply commit_outcome with (W := λ _ ws, ws = items ≫= item_writes);
      [done|exact Ha| | |apply effect_ext].
    { eapply wp_write; [apply commit_law|done|done]. }
    intros u ws ->. destruct (batch_writes b ops items (cont s) Hops Hi) as [H1 H2].
    split; [auto|]. split; [done|]. split; [done|]. intros b' k' Hb'. by apply view_batch.
  - by apply sweep_read_outcome.
  - by eapply sweep_remove_outcome.
Qed.

(** ** Executions *)

Abbreviation log_entry := (nat * request * result answer UseCaseError)%type.

Lemma atomic_ext V req r V1 V2 : atomic V req r V1 → same V1 V2 → atomic V req r V2.
Proof.
  intros Ha Hs. destruct r as [a|[| |de|msg]]; simpl in *; [|done|done| |].
  - by eapply effect_ext.
  - destruct Ha as [? ?]. split; [by eapply same_trans|done].
  - destruct Ha as [?|[a ?]]; [left; by eapply same_trans|right; exists a; by eapply effect_ext].
Qed.

Lemma replay_ext V log V1 V2 : replay V log V1 → same V1 V2 → replay V log V2.
Proof.
  intros [V' V'' Hs'|V' l V1' i req r V2' Hr Ha] Hs; [constructor; by eapply same_trans|].
  econstructor; [done|]. by eapply atomic_ext.
Qed.

Lemma view_finish req r s : view (finish req r s) = view s ∧ cont (finish req r s) = cont s.
Proof. unfold finish. by destruct (name_of req). Qed.

(** The order [log] explains the configuration reached from [s0]: the entries are those its
    requests leave one after the other, every finished thread is in it with its answer, once,
    and nothing else than requests of threads. *)
Definition explains (s0 : FjallStore) (log : Datatypes.list log_entry) (c : config) : Prop :=
  NoDup log.*1.*1 ∧ replay (view s0) log (view c.1)
  ∧ (∀ i req r, c.2 !! i = Some (req, Finished r) → (i, req, r) ∈ log)
  ∧ (∀ i req r, (i, req, r) ∈ log →
       c.2 !! i = Some (req, Finished r) ∨ ∃ held, c.2 !! i = Some (req, Running held [] (Done r))).

(** The invariant: besides, records decode, locks are held by one thread each and in plan
    order, and threads without effect so far know what they have read. *)
Record lin (s0 : FjallStore) (log : Datatypes.list log_entry) (c : config) : Prop := {
  lin_explains : explains s0 log c;
  lin_wf : data_wf (cont c.1);
  lin_running i req held todo p :
    c.2 !! i = Some (req, Running held todo p) →
    held ++ todo = plan req
    ∧ (i ∈ log.*1.*1 ∨ phase (cont c.1) req p ∧ (todo ≠ [] → p = body req));
  lin_excl i j req t req' t' x :
    c.2 !! i = Some (req, t) → c.2 !! j = Some (req', t') →
    x ∈ held_by t → x ∈ held_by t' → i = j;
  lin_ok i req t : c.2 !! i = Some (req, t) → request_wf req;
}.

Lemma in_log (log : Datatypes.list log_entry) i : i ∈ log.*1.*1 → ∃ req r, (i, req, r) ∈ log.
Proof.
  intros Hi. apply list_elem_of_fmap in Hi as ([i' req] & -> & Hi).
  apply list_elem_of_fmap in Hi as ([[i'' req'] r] & [= -> ->] & Hi). eauto.
Qed.

Lemma log_in (log : Datatypes.list log_entry) i req r : (i, req, r) ∈ log → i ∈ log.*1.*1.
Proof.
  intros Hi. apply list_elem_of_fmap. exists (i, req). split; [done|].
  apply list_elem_of_fmap. by exists (i, req, r).
Qed.

(** A running thread at a step of its program has not taken effect. *)
Lemma not_in_log s0 log c i req held p r s' :
  lin s0 log c → c.2 !! i = Some (req, Running held [] p) → advance p c.1 = Some (r, s') →
  i ∉ log.*1.*1.
Proof.
  intros Hl Hi Ha Hin. apply in_log in Hin as (req' & r' & Hin).
  destruct (lin_explains _ _ _ Hl) as (_ & _ & _ & Hlog).
  destruct (Hlog _ _ _ Hin) as [Hx|[held' Hx]]; rewrite Hi in Hx; [done|].
  injection Hx as _ _ ->. done.
Qed.

(** The other threads are not disturbed by a step of thread [i]. *)
Lemma phase_undisturbed s0 log c i req held p s' j reqj heldj todoj pj :
  lin s0 log c → c.2 !! i = Some (req, Running held [] p) →
  (∀ sk, sk ∉ keys_of req → cont s' Data !! sk = cont c.1 Data !! sk) →
  i ≠ j → c.2 !! j = Some (reqj, Running heldj todoj pj) →
  phase (cont c.1) reqj pj ∧ (todoj ≠ [] → pj = body reqj) → phase (cont s') reqj pj.
Proof.
  intros Hl Hi Hkeys Hij Hj [Hp Hstart]. destruct (decide (todoj = [])) as [->|Ht].
  - apply (phase_stable (cont c.1)); [|done]. intros sk Hsk.
    destruct (decide (sk ∈ keys_of req)) as [Hin|]; [|auto]. exfalso. apply Hij.
    destruct (lin_running _ _ _ Hl _ _ _ _ _ Hi) as [Hplan _].
    destruct (lin_running _ _ _ Hl _ _ _ _ _ Hj) as [Hplanj _]. rewrite app_nil_r in Hplan, Hplanj.
    eapply (lin_excl _ _ _ Hl i j _ _ _ _ (Locks.stripe_index sk) Hi Hj); simpl; subst;
      unfold plan; apply Locks.elem_of_stripes; eauto.
  - rewrite (Hstart Ht). constructor.
Qed.

(** A step of thread [i] that keeps its locks, from a state before its effect. *)
Lemma explains_extend s0 log s ts s' i req held p r t :
  explains s0 log (s, ts) → ts !! i = Some (req, Running held [] p) → i ∉ log.*1.*1 →
  atomic (view s) req r (view s') →
  t = Finished r ∨ t = Running held [] (Done r) →
  explains s0 (log ++ [(i, req, r)]) (s', <[i := (req, t)]> ts).
Proof.
  intros (Hnd & Hre & Hfin & Hlog) Hi Hni Hat Ht.
  assert (i < length ts)%nat as Hlt by (by eapply lookup_lt_Some). split_and!; simpl.
  - rewrite !fmap_app. apply list.NoDup_app. split; [done|]. split; [|apply list.NoDup_singleton].
    intros x Hx Hx'. simpl in Hx'. apply list_elem_of_singleton in Hx' as ->. done.
  - by econstructor.
  - intros j reqj rj Hj. rewrite elem_of_app. destruct (decide (i = j)) as [<-|Hij].
    + rewrite list_lookup_insert_eq in Hj by done. right. apply list_elem_of_singleton.
      destruct Ht as [->| ->]; simplify_eq. done.
    + rewrite list_lookup_insert_ne in Hj by done. left. by apply Hfin.
  - intros j reqj rj [Hj|Hj]%elem_of_app.
    + rewrite list_lookup_insert_ne; [by apply Hlog|]. intros ->. by eapply Hni, log_in.
    + apply list_elem_of_singleton in Hj as [= -> -> ->]. rewrite list_lookup_insert_eq by done.
      destruct Ht as [->| ->]; [by left|right; by eexists].
Qed.

(** The invariant after a step of thread [i]. *)
Lemma lin_insert s0 log log' s ts s' i req held todo p t :
  lin s0 log (s, ts) → ts !! i = Some (req, Running held todo p) →
  explains s0 log' (s', <[i := (req, t)]> ts) → log.*1.*1 ⊆ log'.*1.*1 → data_wf (cont s') →
  (∀ j reqj heldj todoj pj, i ≠ j → ts !! j = Some (reqj, Running heldj todoj pj) →
     phase (cont s) reqj pj ∧ (todoj ≠ [] → pj = body reqj) → phase (cont s') reqj pj) →
  (∀ x, x ∈ held_by t → x ∈ held ∨ ∀ j reqj tj, ts !! j = Some (reqj, tj) → x ∉ held_by tj) →
  (∀ held' todo' p', t = Running held' todo' p' →
     held' ++ todo' = plan req
     ∧ (i ∈ log'.*1.*1 ∨ phase (cont s') req p' ∧ (todo' ≠ [] → p' = body req))) →
  lin s0 log' (s', <[i := (req, t)]> ts).
Proof.
  intros Hl Hi Hex Hsub Hwf Hoth Hheld Hself.
  assert (i < length ts)%nat as Hlt by (by eapply lookup_lt_Some).
  assert (∀ j reqj tj, <[i:=(req, t)]> ts !! j = Some (reqj, tj) →
    (j = i ∧ reqj = req ∧ tj = t) ∨ (i ≠ j ∧ ts !! j = Some (reqj, tj))) as Hcase.
  { intros j reqj tj Hj. apply list_lookup_insert_Some in Hj as [(-> & [= -> ->] & _)|[? ?]]; auto. }
  split; simpl; [done|done| | |].
  - intros j reqj heldj todoj pj Hj.
    destruct (Hcase _ _ _ Hj) as [(-> & -> & Ht)|[Hij Hj']]; [by apply Hself|].
    destruct (lin_running _ _ _ Hl _ _ _ _ _ Hj') as [Hplan Hst]. split; [done|].
    destruct Hst as [Hin|Hst]; [left; by apply Hsub|right]. split; [by eapply Hoth|apply Hst].
  - intros j j' reqj tj reqj' tj' x Hj Hj' Hx Hx'.
    pose proof (λ j reqj tj, lin_excl _ _ _ Hl i j req _ reqj tj x Hi) as Hexcl. simpl in Hexcl.
    destruct (Hcase _ _ _ Hj) as [(-> & -> & ->)|[Hij Hl1]],
      (Hcase _ _ _ Hj') as [(-> & -> & ->)|[Hij' Hl2]]; [done| | |].
    + destruct (Hheld x Hx) as [Hin|Hno]; [by eapply Hexcl|]. by destruct (Hno _ _ _ Hl2).
    + symmetry. destruct (Hheld x Hx') as [Hin|Hno]; [by eapply Hexcl|]. by destruct (Hno _ _ _ Hl1).
    + by eapply (lin_excl _ _ _ Hl).
  - intros j reqj tj Hj. destruct (Hcase _ _ _ Hj) as [(-> & -> & ->)|[_ Hj']];
      by eapply (lin_ok _ _ _ Hl).
Qed.

(** A step before the effect leaves the order as it is. *)
Lemma explains_keep s0 log s ts s' i req t :
  explains s0 log (s, ts) → i ∉ log.*1.*1 → same (view s) (view s') → (∀ r, t ≠ Finished r) →
  explains s0 log (s', <[i := (req, t)]> ts).
Proof.
  intros (Hnd & Hre & Hfin & Hlog) Hni Hs Ht. split_and!; simpl; [done|by eapply replay_ext| |].
  - intros j reqj r Hj. apply list_lookup_insert_Some in Hj as [(_ & [= _ Hr] & _)|[_ Hj]]; [|auto].
    by destruct (Ht r).
  - intros j reqj r Hj. rewrite list_lookup_insert_ne; [by apply Hlog|]. intros ->. by eapply Hni, log_in.
Qed.

Lemma lin_spawn s0 log s ts req :
  lin s0 log (s, ts) → request_wf req →
  lin s0 log (s, ts ++ [(req, Running [] (plan req) (body req))]).
Proof.
  intros Hl Hok. destruct (lin_explains _ _ _ Hl) as (Hnd & Hre & Hfin & Hlog). simpl in *.
  assert (∀ j reqj tj, (ts ++ [(req, Running [] (plan req) (body req))]) !! j = Some (reqj, tj) →
    (reqj = req ∧ tj = Running [] (plan req) (body req)) ∨ ts !! j = Some (reqj, tj)) as Hcase.
  { intros j reqj tj Hj. apply lookup_app_Some in Hj as [Hj|[_ Hj]]; [by right|left].
    apply list_lookup_singleton_Some in Hj as [_ [= -> ->]]. done. }
  assert (∀ j x, ts !! j = Some x → (ts ++ [(req, Running [] (plan req) (body req))]) !! j = Some x)
    as Happ by (intros; by apply lookup_app_l_Some).
  split; simpl; [split_and!; [done|done| |]|apply Hl| | |].
  - intros j reqj r Hj. destruct (Hcase _ _ _ Hj) as [[_ ?]|Hj']; [done|auto].
  - intros j reqj r Hj. destruct (Hlog _ _ _ Hj) as [?|[h ?]]; [left|right; exists h]; by apply Happ.
  - intros j reqj heldj todoj pj Hj. destruct (Hcase _ _ _ Hj) as [[-> [= -> -> ->]]|Hj'].
    + split; [done|]. right. split; [constructor|done].
    + by apply (lin_running _ _ _ Hl _ _ _ _ _ Hj').
  - intros j j' reqj tj reqj' tj' x Hj Hj' Hx Hx'.
    destruct (Hcase _ _ _ Hj) as [[_ ->]|Hj1]; [by apply not_elem_of_nil in Hx|].
    destruct (Hcase _ _ _ Hj') as [[_ ->]|Hj2]; [by apply not_elem_of_nil in Hx'|].
    by eapply (lin_excl _ _ _ Hl).
  - intros j reqj tj Hj. destruct (Hcase _ _ _ Hj) as [[-> _]|Hj']; [done|].
    by eapply (lin_ok _ _ _ Hl).
Qed.

Lemma lin_lock s0 log s ts i req held x todo p :
  lin s0 log (s, ts) → ts !! i = Some (req, Running held (x :: todo) p) →
  (∀ j req' t', ts !! j = Some (req', t') → x ∉ held_by t') →
  lin s0 log (s, <[i := (req, Running (held ++ [x]) todo p)]> ts).
Proof.
  intros Hl Hi Hfree. destruct (lin_running _ _ _ Hl _ _ _ _ _ Hi) as [Hplan Hst].
  assert (i ∉ log.*1.*1) as Hni.
  { intros (req' & r & Hin)%in_log. destruct (lin_explains _ _ _ Hl) as (_ & _ & _ & Hlog).
    destruct (Hlog _ _ _ Hin) as [Hx|[h Hx]]; simpl in Hx; congruence. }
  eapply lin_insert; [done|done| |done|apply Hl|by intros ????? _ _ [? _]| |].
  - by apply (explains_keep _ _ s); [apply Hl|..].
  - simpl. intros y [Hy|Hy]%elem_of_app; [by left|]. apply list_elem_of_singleton in Hy as ->. by right.
  - intros h td q [= <- <- <-]. split; [by rewrite <- app_assoc|]. right.
    destruct Hst as [?|[Hp Hb]]; [done|]. split; [done|]. intros _. by apply Hb.
Qed.

Lemma phase_done m req r :
  phase m req (Done r) → ∃ b, req = ReqBatch b [] ∧ r = Ok AUnit.
Proof.
  intros Hp. inversion Hp as [req' Hb| | | | | | |]; subst. destruct req; try done.
  cbn [body] in *. case_bool_decide as Hn; [|done]. subst. eexists. split; [done|]. congruence.
Qed.

Lemma lin_call s0 log s ts i req held p r s' :
  lin s0 log (s, ts) → ts !! i = Some (req, Running held [] p) → advance p s = Some (r, s') →
  match r with
  | Ret (Ok p') => ∃ ext, lin s0 (log ++ ext) (s', <[i := (req, Running held [] p')]> ts)
  | Ret (Err e) => ∃ ext, lin s0 (log ++ ext) (finish req (Err e) s', <[i := (req, Finished (Err e))]> ts)
  | Panic => held = [] ∧ (∃ b opts, req = ReqList b opts ∧ overflows opts)
             ∧ lin s0 log (s', <[i := (req, Panicked)]> ts)
  end.
Proof.
  intros Hl Hi Ha. pose proof (not_in_log s0 log (s, ts) i req held p r s' Hl Hi Ha) as Hni.
  destruct (lin_running _ _ _ Hl _ _ _ _ _ Hi) as [Hplan [?|[Hp _]]]; [done|].
  assert (request_wf req) as Hok by (by eapply (lin_ok _ _ _ Hl)).
  destruct (phase_outcome s req p r s' Hok (lin_wf _ _ _ Hl) Hp Ha) as (Hwf & Hkeys & Hr).
  pose proof (λ j reqj heldj todoj pj,
    phase_undisturbed s0 log (s, ts) i req held p s' j reqj heldj todoj pj Hl Hi Hkeys) as Hoth.
  destruct r as [[p'|e]|]; [|exists [(i, req, Err e)]|].
  - destruct Hr as [[Hc Hp']|(res & -> & Hat)]; [exists []; rewrite app_nil_r|exists [(i, req, res)]].
    + eapply lin_insert; [done|done| |done|done|done|by left|].
      * apply (explains_keep _ _ s); [apply Hl|done| |done]. by apply same_data.
      * intros h td q [= <- <- <-]. split; [done|]. by right.
    + eapply lin_insert; [done|done| | |done|done|by left|].
      * eapply explains_extend; [apply Hl|done|done|done|by right].
      * rewrite !fmap_app. set_solver.
      * intros h td q [= <- <- <-]. split; [done|]. left. rewrite !fmap_app. set_solver.
  - destruct (view_finish req (Err e) s') as [Hv Hc].
    eapply lin_insert; [done|done| | |by rewrite Hc|rewrite Hc; exact Hoth|by intros x ?%not_elem_of_nil|done].
    + eapply explains_extend; [apply Hl|done|done|by rewrite Hv|by left].
    + rewrite !fmap_app. set_solver.
  - destruct Hr as (b & opts & -> & Ho & ->). rewrite app_nil_r in Hplan. split; [by rewrite Hplan|].
    split; [by exists b, opts|].
    eapply lin_insert; [done|done| |done|done|done|by intros x ?%not_elem_of_nil|done].
    by apply (explains_keep _ _ s); [apply Hl|..].
Qed.

Lemma lin_done s0 log s ts i req held r :
  lin s0 log (s, ts) → ts !! i = Some (req, Running held [] (Done r)) →
  ∃ ext, lin s0 (log ++ ext) (finish req r s, <[i := (req, Finished r)]> ts).
Proof.
  intros Hl Hi. destruct (view_finish req r s) as [Hv Hc].
  destruct (decide (i ∈ log.*1.*1)) as [Hin|Hni].
  - exists []. rewrite app_nil_r.
    destruct (lin_explains _ _ _ Hl) as (Hnd & Hre & Hfin & Hlog). simpl in *.
    assert (i < length ts)%nat as Hlt by (by eapply lookup_lt_Some).
    eapply lin_insert; [done|done| |done|rewrite Hc; apply Hl|by rewrite Hc; intros ????? _ _ [? _]
      |by intros x ?%not_elem_of_nil|done].
    split_and!; simpl; [done|by rewrite Hv| |].
    + intros j reqj rj Hj. apply list_lookup_insert_Some in Hj as [(<- & [= <- <-] & _)|[_ Hj]]; [|auto].
      apply in_log in Hin as (req' & r' & Hin). destruct (Hlog _ _ _ Hin) as [Hx|[h Hx]]; congruence.
    + intros j reqj rj Hj. destruct (decide (i = j)) as [<-|Hij].
      * left. rewrite list_lookup_insert_eq by done.
        destruct (Hlog _ _ _ Hj) as [Hx|[h Hx]]; congruence.
      * rewrite list_lookup_insert_ne by done. auto.
  - destruct (lin_running _ _ _ Hl _ _ _ _ _ Hi) as [_ [?|[Hp _]]]; [done|].
    destruct (phase_done _ _ _ Hp) as (b & -> & ->). exists [(i, ReqBatch b [], Ok AUnit)].
    eapply lin_insert; [done|done| | |rewrite Hc; apply Hl|by rewrite Hc; intros ????? _ _ [? _]
      |by intros x ?%not_elem_of_nil|done].
    + eapply explains_extend; [apply Hl|done|done| |by left]. rewrite Hv. split; [done|].
      intros b' k' _. unfold upd_all. by case_decide.
    + rewrite !fmap_app. set_solver.
Qed.

Lemma lin_step s0 log c c' : lin s0 log c → step c c' → ∃ ext, lin s0 (log ++ ext) c'.
Proof.
  intros Hl Hs. destruct Hs as [s ts req Hok|s ts i req held x todo p Hi Hfree|s ts i req held p p' s' Hi Ha
    |s ts i req held p e s' Hi Ha|s ts i req p s' Hi Ha|s ts i req held r Hi].
  - exists []. rewrite app_nil_r. by apply lin_spawn.
  - exists []. rewrite app_nil_r. by apply lin_lock.
  - apply (lin_call _ _ _ _ _ _ _ _ _ _ Hl Hi Ha).
  - apply (lin_call _ _ _ _ _ _ _ _ _ _ Hl Hi Ha).
  - exists []. rewrite app_nil_r. apply (lin_call _ _ _ _ _ _ _ _ _ _ Hl Hi Ha).
  - by apply (lin_done _ _ _ _ _ _ held).
Qed.

(** What leaves the records alone, such as a read or a write of a policy, disturbs nobody. *)
Lemma lin_elsewhere s0 log s s' ts :
  lin s0 log (s, ts) → cont s' Data = cont s Data → lin s0 log (s', ts).
Proof.
  intros Hl Hc. destruct (lin_explains _ _ _ Hl) as (Hnd & Hre & Hfin & Hlog).
  split; simpl; [|intros sk l; rewrite Hc; apply Hl| |apply (lin_excl _ _ _ Hl)|apply (lin_ok _ _ _ Hl)].
  - split; [done|]. split; [eapply replay_ext; [exact Hre|by apply same_data]|done].
  - intros i req held todo p Hi. destruct (lin_running _ _ _ Hl _ _ _ _ _ Hi) as [Hplan Hst].
    split; [done|]. destruct Hst as [?|[Hp Hb]]; [by left|right]. split; [|done].
    apply (phase_stable (cont s)); [|done]. intros. by rewrite Hc.
Qed.

Lemma lin_steps s0 log c c' : rtc step c c' → lin s0 log c → ∃ ext, lin s0 (log ++ ext) c'.
Proof.
  intros Hs. revert log. induction Hs as [c|c1 c2 c3 Hs _ IH]; intros log Hl.
  - exists []. by rewrite app_nil_r.
  - destruct (lin_step _ _ _ _ Hl Hs) as [e1 H1]. destruct (IH _ H1) as [e2 H2].
    exists (e1 ++ e2). by rewrite app_assoc.
Qed.

Lemma lin_init s0 : data_wf (cont s0) → lin s0 [] (s0, []).
Proof.
  intros Hd. split; [|done|by intros ????? ?|by intros ?????????|by intros ????].
  split_and!; [constructor|by constructor|done|]. intros i req r Hi. by apply not_elem_of_nil in Hi.
Qed.

End Linearize.
