(* ===== verification/KeyService.v ===== *)
(** * [keydock-usecase/src/keys.rs] and [txn.rs]: the key use cases

    [KeyService] and [TxnService] over any key repository. The clock is the instant it shows
    during the call; [increment] also passes on the instant the adapter reads. The theorems are
    proved against the contract [KeyRepoSpec], not against an implementation. *)

From Stdlib Require Import Strings.Byte.
From S2P Require Import Prelude RustStd TimeLib Domain Counter Ports.

(** [serde_json::from_str::<serde_json::Value>(s).is_ok()]. *)
Class JsonOps : Type := { json_is_value : bytes → bool }.

Module KeyService.

(** [ListOptsInput]. *)
Record ListOptsInput : Type := mkListInput {
  in_prefix : option bytes;
  in_limit : option N;
  in_skip : option N;
  in_reverse : option bool;
  in_include_values : option bool;
}.

Definition DEFAULT_LIMIT : N := 10000.

(** The guess from the bytes alone. *)
Definition infer_from_body `{JsonOps} (body : bytes) : ValueKind :=
  if Utf8.from_utf8 body then
    let t := Utf8.trim body in
    if bool_decide (is_Some (Int64.parse t)) then Value.Int64
    else match Float64.parse t with
         | Some f => if Float64.is_finite f then Value.Float64
                     else if json_is_value t then Value.Json else Value.Utf8
         | None => if json_is_value t then Value.Json else Value.Utf8
         end
  else Value.Raw.

Definition infer_value_kind `{JsonOps} (body : bytes) (content_type : option bytes) : ValueKind :=
  match content_type with
  | Some ct =>
    let lower := to_ascii_lowercase ct in
    if contains lower (bs "application/json") then Value.Json
    else if match split ";"%byte lower with
            | mime :: _ => bool_decide (Utf8.trim mime = bs "text/plain")
            | [] => false
            end
    then (if Utf8.from_utf8 body then Value.Utf8 else Value.Raw)
    else infer_from_body body
  | None => infer_from_body body
  end.

Definition infer_stored_value `{JsonOps} (body : bytes) (content_type : option bytes)
  : result StoredValue UseCaseError :=
  let kind := infer_value_kind body content_type in
  from_domain (Value.new body kind).

Section Service.
Context {T : TimeOps} {JS : JsonOps} {S : Type} {KR : KeyRepository S}.

Abbreviation op A := (comp S A UseCaseError).

Definition get (now : OffsetDateTime) (b : BucketId) (k : Key) : op StoredEntry :=
  let! o := repo_get b k in
  let! entry := comp_lift (ok_or NotFound o) in
  match expires_at entry with
  | Some exp => if odt_leb exp now then comp_err NotFound else comp_ret entry
  | None => comp_ret entry
  end.

Definition list_opts (now : OffsetDateTime) (input : ListOptsInput) : ListOpts := {|
  prefix := in_prefix input;
  limit := default DEFAULT_LIMIT (in_limit input);
  skip := default 0%N (in_skip input);
  reverse := default false (in_reverse input);
  include_values := default false (in_include_values input);
  expires_before := Some now;
|}.

Definition list (now : OffsetDateTime) (b : BucketId) (input : ListOptsInput)
  : op (Datatypes.list ListEntry) :=
  let opts := list_opts now input in repo_list b opts.

Definition resolve_ttl (now : OffsetDateTime) (ttl_override default_ttl : option N)
  : result (option OffsetDateTime) UseCaseError :=
  let effective := match ttl_override with Some t => Some t | None => default_ttl end in
  match effective with
  | None | Some 0%N => Ok None
  | Some secs =>
    let? secs_i64 :=
      ok_or (DomainErr (InvalidTtl (bs "ttl seconds out of supported range")))
            (Int64.i64_try_from secs) in
    let? at_ :=
      ok_or (DomainErr (InvalidTtl (bs "ttl resulting instant out of range")))
            (checked_add_seconds now secs_i64) in
    Ok (Some at_)
  end.

Definition set (now : OffsetDateTime) (b : BucketId) (k : Key) (body : bytes)
    (content_type : option bytes) (ttl_override default_ttl : option N) : op StoredValue :=
  let! v := comp_lift (infer_stored_value body content_type) in
  let! expires_at := comp_lift (resolve_ttl now ttl_override default_ttl) in
  let! _ := repo_set b k v expires_at in
  comp_ret v.

Definition increment (now now_repo : OffsetDateTime) (b : BucketId) (k : Key)
    (o : Counter.CounterOp) (ttl_override default_ttl : option N) : op StoredValue :=
  let! expires_at := comp_lift (resolve_ttl now ttl_override default_ttl) in
  repo_increment now_repo b k o expires_at.

Definition delete (b : BucketId) (k : Key) : op unit :=
  let! existed := repo_delete b k in
  if existed : bool then comp_ret tt else comp_err NotFound.

(** [TxnService::execute]. *)
Definition execute (b : BucketId) (ops : Datatypes.list TxnOp) : op unit := repo_apply_batch b ops.

(** ** TTL resolution *)

Definition effective_ttl (ttl_override default_ttl : option N) : option N :=
  match ttl_override with Some t => Some t | None => default_ttl end.

Context {TL : TimeLaws T}.

(** What a successful resolution says about the expiry. *)
Lemma resolve_ttl_ok now o d e :
  resolve_ttl now o d = Ok e →
  match effective_ttl o d with
  | None | Some 0%N => e = None
  | Some secs => ∃ t, e = Some t
                   ∧ unix_timestamp_nanos t = unix_timestamp_nanos now + Z.of_N secs * NANOS
                   ∧ unix_timestamp t = unix_timestamp now + Z.of_N secs
  end.
Proof.
  unfold resolve_ttl. fold (effective_ttl o d). destruct (effective_ttl o d) as [[|p]|].
  - by intros [= <-].
  - unfold Int64.i64_try_from. destruct (Int64.in_i64 (Z.of_N (N.pos p))); simpl; [|done].
    destruct (checked_add_seconds now (Z.pos p)) as [t|] eqn:Et; simpl; [|done].
    intros [= <-]. exists t. apply checked_add_nanos in Et. split; [done|]. split; [done|].
    rewrite !unix_timestamp_floor, Et. by rewrite Z.div_add by done.
  - by intros [= <-].
Qed.

(** The expiry test of [get] on what [set] wrote, in whole seconds. *)
Lemma written_expired now v e t :
  e = Some t →
  match expires_at (written v e) with Some exp => odt_leb exp now | None => false end
  = (unix_timestamp t <=? unix_timestamp now).
Proof.
  intros ->. simpl. unfold whole_second. destruct (from_unix_timestamp_total t) as [t' Ht].
  rewrite Ht. simpl. by apply whole_second_leb.
Qed.

Lemma infer_stored_value_ok body ct v :
  infer_stored_value body ct = Ok v → Value.value_ok v ∧ payload v = body ∧ kind v = infer_value_kind body ct.
Proof.
  unfold infer_stored_value. destruct (Value.new _ _) as [v'|] eqn:Ev; simpl; [|done].
  intros [= <-]. apply Value.new_ok in Ev as [-> ?]. done.
Qed.

Lemma set_ok now b k body ct o d s v s' :
  set now b k body ct o d s = (Ret (Ok v), s') →
  ∃ e, infer_stored_value body ct = Ok v ∧ resolve_ttl now o d = Ok e
       ∧ repo_set b k v e s = (Ret (Ok tt), s').
Proof.
  unfold set, comp_bind, comp_lift, comp_ret.
  destruct (infer_stored_value body ct) as [v'|]; [|done].
  destruct (resolve_ttl now o d) as [e|]; [|done].
  destruct (repo_set b k v' e s) as [[[[]|]|] s1] eqn:Es; intros [= <- <-]. by exists e.
Qed.

Context {KS : KeyRepoSpec S}.

(** What [get] answers in a good state. *)
Lemma get_good now b k s :
  kr_good s →
  ∃ s', get now b k s
        = (Ret (match kr_view s b k with
                | Some en => if expired_before (Some now) en then Err NotFound else Ok en
                | None => Err NotFound
                end), s') ∧ kr_good s'.
Proof.
  intros Hg. destruct (kr_get_good s b k Hg) as (s' & Hs & Hg'). exists s'. split; [|done].
  unfold get, comp_bind. rewrite Hs. unfold comp_lift. destruct (kr_view s b k) as [en|]; [|done].
  simpl. destruct (expires_at en) as [exp|]; [|done]. by destruct (odt_leb exp now).
Qed.

End Service.

(** A numeric value accepted by [PUT] is a counter. *)
Lemma inferred_number {JS : JsonOps} body ct v :
  infer_stored_value body ct = Ok v → kind v = Value.Int64 ∨ kind v = Value.Float64 →
  ∃ c, Counter.from_stored v = Ok c.
Proof.
  intros Hi Hk. apply infer_stored_value_ok in Hi as (_ & Hp & Hkv). unfold Counter.from_stored.
  rewrite Hp.
  assert (kind v = infer_from_body body) as Hb.
  { rewrite Hkv in *. unfold infer_value_kind in *. destruct ct as [ct|]; [|done].
    destruct (contains _ _); [by destruct Hk|].
    destruct (match split _ _ with [] => false | _ => _ end); [|done].
    destruct (Utf8.from_utf8 body); by destruct Hk. }
  rewrite Hb in *. unfold infer_from_body in *.
  destruct (Utf8.from_utf8 body); simpl; [|by destruct Hk].
  case_bool_decide as Hi.
  - destruct Hi as [i Hi]. rewrite Hi. by eexists.
  - destruct (Float64.parse (Utf8.trim body)) as [f|] eqn:Ef.
    + destruct (Float64.is_finite f) eqn:Ff; [|destruct (json_is_value _); by destruct Hk].
      unfold Float64.is_finite in Ff. apply negb_true_iff in Ff. rewrite Ff. by eexists.
    + destruct (json_is_value _); by destruct Hk.
Qed.

End KeyService.
