(* ===== verification/KeyProps.v ===== *)
(** * Properties of the key use cases

    Proved for every repository that satisfies [KeyRepoSpec]; the witnesses run them on the
    Fjall adapter. *)

From Stdlib Require Import Strings.Byte.
From S2P Require Import Prelude RustStd TimeLib Domain Counter Ports Codec FjallLib Locks Store StoreSpec StoreList StoreRepo StoreProps KeyService.

(** ** Sequences of calls *)

Section Sequences.
Context {T : TimeOps} {S : Type} {KR : KeyRepository S}.

(** A client that increments a key repeatedly (no TTL), stopping at the first failure. *)
Fixpoint run_increments (now : OffsetDateTime) (b : BucketId) (k : Key) (ds : list Z) (s : S)
  : list (result StoredValue UseCaseError) * S :=
  match ds with
  | [] => ([], s)
  | d :: ds' =>
    match KeyService.increment now now b k (Counter.OpInt d) None None s with
    | (Ret (Ok v), s1) => let (rs, s2) := run_increments now b k ds' s1 in (Ok v :: rs, s2)
    | (Ret (Err e), s1) => ([Err e], s1)
    | (Panic, s1) => ([], s1)
    end
  end.

(** The running totals of the deltas. *)
Fixpoint totals (acc : Z) (ds : list Z) : list Z :=
  match ds with [] => [] | d :: ds' => (acc + d) :: totals (acc + d) ds' end.

(** The operations of a transaction, sent one by one. *)
Fixpoint run_ops (b : BucketId) (ops : list TxnOp) : comp S unit UseCaseError :=
  match ops with
  | [] => comp_ret tt
  | TxnSet k v e :: ops' => let! _ := repo_set b k v e in run_ops b ops'
  | TxnDelete k :: ops' => let! _ := repo_delete b k in run_ops b ops'
  end.

Context {TL : TimeLaws T} {KS : KeyRepoSpec S}.

Lemma increment_none now b k o (s : S) :
  KeyService.increment now now b k o None None s = repo_increment now b k o None s.
Proof. done. Qed.

Lemma incremented_int now en v d :
  en = None ∧ v = 0 ∨ en = Some (written (mkStored (Int64.to_string v) Value.Int64) None) →
  Int64.in_i64 v = true → Int64.in_i64 (v + d) = true →
  incremented now en (Counter.OpInt d)
  = Ok (mkStored (Int64.to_string (v + d)) Value.Int64).
Proof.
  intros Hen Hv Hd.
  assert (counter_operand now en = Ok (Counter.ValInt v)) as Hop.
  { destruct Hen as [[-> ->]| ->]; [done|]. apply (Counter.from_stored_text (Counter.ValInt v)); done. }
  unfold incremented. rewrite Hop. simpl. unfold Int64.checked_add. rewrite Hd.
  simpl. apply (Counter.into_stored_eq (Counter.ValInt (v + d))). done.
Qed.

Lemma run_increments_totals now b k ds v (s : S) :
  kr_bucket b → kr_good s →
  kr_view s b k = None ∧ v = 0
  ∨ kr_view s b k = Some (written (mkStored (Int64.to_string v) Value.Int64) None) →
  Int64.in_i64 v = true → Forall (λ t, Int64.in_i64 t = true) (totals v ds) →
  (run_increments now b k ds s).1
  = (λ t, Ok (mkStored (Int64.to_string t) Value.Int64)) <$> totals v ds.
Proof.
  intros Hb. revert s v. induction ds as [|d ds IH]; intros s v Hg Hen Hv Ht; [done|].
  cbn [totals] in *. apply list.Forall_cons in Ht as [Hvd Ht].
  cbn [run_increments]. rewrite increment_none.
  destruct (kr_increment_good s now b k (Counter.OpInt d) None Hb Hg) as (s1 & Hs1 & Hg1).
  rewrite (incremented_int now _ v d Hen Hv Hvd) in Hs1. simpl in Hs1. rewrite Hs1.
  destruct (kr_increment s now b k _ None _ s1 Hb Hs1) as [_ Hview].
  specialize (Hview b k Hb). rewrite decide_True in Hview by done.
  specialize (IH s1 (v + d) Hg1 (or_intror Hview) Hvd Ht).
  destruct (run_increments now b k ds s1) as [rs s2]. simpl in *. by rewrite IH.
Qed.

(** Sending the operations one by one has the effect of the folded transaction. *)
Lemma run_ops_result b ops (s : S) :
  kr_bucket b → kr_good s → Forall txn_ok ops →
  ∃ s', run_ops b ops s = (Ret (Ok tt), s')
    ∧ ∀ b' k', kr_bucket b' →
        kr_view s' b' k' = if decide (b' = b) then txn_result k' (kr_view s b' k') ops
                           else kr_view s b' k'.
Proof.
  intros Hb. revert s. unfold txn_result. induction ops as [|o ops IH]; intros s Hg Hok.
  { exists s. split; [done|]. intros b' k' _. by case_decide. }
  apply list.Forall_cons in Hok as [Ho Hok]. destruct o as [k v e|k]; cbn [run_ops].
  - destruct (kr_set_good s b k v e Hb Hg Ho) as (s1 & Hs1 & Hg1).
    destruct (IH s1 Hg1 Hok) as (s' & Hs' & Hv). exists s'. split; [by rewrite (comp_bind_ok _ _ _ _ _ Hs1)|].
    intros b' k' Hb'. rewrite (Hv b' k' Hb'), (kr_set s b k v e s1 Hb Ho Hs1 b' k' Hb'). simpl.
    repeat case_decide; simplify_eq; done.
  - destruct (kr_delete_good s b k Hb Hg) as (existed & s1 & Hs1 & Hg1).
    destruct (IH s1 Hg1 Hok) as (s' & Hs' & Hv). exists s'. split; [by rewrite (comp_bind_ok _ _ _ _ _ Hs1)|].
    destruct (kr_delete s b k existed s1 Hb Hs1) as [_ Hd].
    intros b' k' Hb'. rewrite (Hv b' k' Hb'), (Hd b' k' Hb'). simpl.
    repeat case_decide; simplify_eq; done.
Qed.

End Sequences.

(** ** Theorems *)

Section Theorems.
Context {T : TimeOps} {TL : TimeLaws T} {JS : JsonOps} {S : Type} {KR : KeyRepository S}
        {KS : KeyRepoSpec S}.

Lemma set_get_outcome (s : S) (now : OffsetDateTime) (b : BucketId) (k : Key) (body : bytes)
    (ct : option bytes) (ttl_override default_ttl : option N) :
  kr_good s → kr_bucket b →
  ∃ s1, KeyService.set now b k body ct ttl_override default_ttl s
        = (Ret (let? v := KeyService.infer_stored_value body ct in
                let? _ := KeyService.resolve_ttl now ttl_override default_ttl in Ok v), s1)
  ∧ kr_good s1
  ∧ ∀ v, KeyService.set now b k body ct ttl_override default_ttl s = (Ret (Ok v), s1) →
      payload v = body
      ∧ (∀ b' k', kr_bucket b' → (b', k') ≠ (b, k) → kr_view s1 b' k' = kr_view s b' k')
      ∧ ∀ now', ∃ en s2, value en = v
          ∧ KeyService.get now' b k s1
            = (Ret (if match KeyService.effective_ttl ttl_override default_ttl with
                       | None | Some 0%N => true
                       | Some secs => unix_timestamp now' <? unix_timestamp now + Z.of_N secs
                       end
                    then Ok en else Err NotFound), s2).
Proof.
  intros Hg Hb. unfold KeyService.set at 1. unfold comp_bind, comp_lift.
  destruct (KeyService.infer_stored_value body ct) as [v|] eqn:Ei; simpl;
    [|exists s; split; [done|]; split; [done|]; intros v Hv; by apply KeyService.set_ok in Hv as (? & ? & _); congruence].
  destruct (KeyService.resolve_ttl now ttl_override default_ttl) as [e|] eqn:Er; simpl;
    [|exists s; split; [done|]; split; [done|]; intros v' Hv; by apply KeyService.set_ok in Hv as (? & _ & ? & _); congruence].
  destruct (KeyService.infer_stored_value_ok body ct v Ei) as (Hok & Hp & _).
  destruct (kr_set_good s b k v e Hb Hg Hok) as (s1 & Hs1 & Hg1).
  exists s1. rewrite Hs1. split; [done|]. split; [done|]. intros v' Hv'.
  apply KeyService.set_ok in Hv' as (e' & Hv' & He' & _).
  rewrite Ei in Hv'. injection Hv' as <-. rewrite Er in He'. injection He' as <-. split; [done|].
  pose proof (kr_set s b k v e s1 Hb Hok Hs1) as Hview. split.
  { intros b' k' Hb' Hne. rewrite (Hview b' k' Hb'). by rewrite decide_False. }
  intros now'. specialize (Hview b k Hb). rewrite decide_True in Hview by done.
  destruct (KeyService.get_good now' b k s1 Hg1) as (s2 & Hs2 & _).
  exists (written v e), s2. split; [done|]. rewrite Hs2, Hview.
  pose proof (KeyService.resolve_ttl_ok now ttl_override default_ttl e Er) as Ht. unfold expired_before.
  destruct (KeyService.effective_ttl ttl_override default_ttl) as [[|p]|]; [by subst e| |by subst e].
  destruct Ht as (t & He & _ & Hu).
  pose proof (KeyService.written_expired now' v e t He) as Hw. rewrite Hw, Hu.
  destruct (Z.leb_spec (unix_timestamp now + Z.of_N (N.pos p)) (unix_timestamp now')),
    (Z.ltb_spec (unix_timestamp now') (unix_timestamp now + Z.of_N (N.pos p))); (done || lia).
Qed.

(** Writing, then reading. In a repository whose operations do not fail, [set] answers with
    the inferred value, or with the value-size or TTL error; after a successful [set] a [get] at
    any later instant returns exactly that value until the TTL has run out, and "not found"
    from then on. The TTL counts whole clock seconds: the entry is visible while the second of
    the read is before the second of the write plus the TTL, and a TTL of zero (or none) never
    expires. Other keys and buckets keep their entries. *)
Theorem set_then_get (s : S) (now : OffsetDateTime) (b : BucketId) (k : Key) (body : bytes)
    (ct : option bytes) (ttl_override default_ttl : option N) :
  kr_good s → kr_bucket b →
  ∃ s1, KeyService.set now b k body ct ttl_override default_ttl s
        = (Ret (let? v := KeyService.infer_stored_value body ct in
                let? _ := KeyService.resolve_ttl now ttl_override default_ttl in Ok v), s1)
  ∧ kr_good s1
  ∧ ∀ v, KeyService.set now b k body ct ttl_override default_ttl s = (Ret (Ok v), s1) →
      payload v = body
      ∧ (∀ b' k', kr_bucket b' → (b', k') ≠ (b, k) → kr_view s1 b' k' = kr_view s b' k')
      ∧ ∀ now', ∃ en s2, value en = v
          ∧ KeyService.get now' b k s1
            = (Ret (if match KeyService.effective_ttl ttl_override default_ttl with
                       | None | Some 0%N => true
                       | Some secs => unix_timestamp now' <? unix_timestamp now + Z.of_N secs
                       end
                    then Ok en else Err NotFound), s2).
Proof. apply set_get_outcome. Qed.

(** Repeated increments accumulate exactly. From an absent key, a sequence of integer deltas
    whose running totals stay in [i64] returns exactly those totals, one per call, whatever the
    repository. *)
Theorem increments_accumulate (s : S) (now : OffsetDateTime) (b : BucketId) (k : Key)
    (ds : list Z) :
  kr_good s → kr_bucket b → kr_view s b k = None →
  Forall (λ t, Int64.in_i64 t = true) (totals 0 ds) →
  (run_increments now b k ds s).1
  = (λ t, Ok (mkStored (Int64.to_string t) Value.Int64)) <$> totals 0 ds.
Proof. intros Hg Hb Hv Ht. apply run_increments_totals; auto. Qed.

(** A listing agrees with reading. At one instant, every row of a listing is a key that
    [get] finds at that instant, with the value [get] returns (when values are requested), and
    every key with the requested prefix that [get] finds is listed, unless the page is full.
    Expired entries appear in neither. *)
Theorem list_agrees_with_get (s s' : S) (now : OffsetDateTime) (b : BucketId)
    (input : KeyService.ListOptsInput) (l : list ListEntry) :
  kr_good s → kr_bucket b → KeyService.list now b input s = (Ret (Ok l), s') →
  (N.of_nat (length l) <= default KeyService.DEFAULT_LIMIT (KeyService.in_limit input))%N
  ∧ (∀ row, row ∈ l → ∃ en s2,
       KeyService.get now b (le_key row) s = (Ret (Ok en), s2)
       ∧ default [] (KeyService.in_prefix input) `prefix_of` as_bytes (le_key row)
       ∧ le_value row = if default false (KeyService.in_include_values input)
                        then Some (value en) else None)
  ∧ ∀ k en s2,
      Key.key_ok k → default [] (KeyService.in_prefix input) `prefix_of` as_bytes k →
      KeyService.get now b k s = (Ret (Ok en), s2) → default 0%N (KeyService.in_skip input) = 0%N →
      k ∈ le_key <$> l
      ∨ N.of_nat (length l) = default KeyService.DEFAULT_LIMIT (KeyService.in_limit input).
Proof.
  intros Hg Hb Hl. destruct (kr_list s b _ l s' Hb (kr_good_inv s Hg) Hl) as [(ks & _ & Hks & ->) _].
  unfold page. cbn [limit skip reverse KeyService.list_opts].
  set (lim := default KeyService.DEFAULT_LIMIT (KeyService.in_limit input)).
  set (rows := if default false (KeyService.in_reverse input) then _ else _).
  assert (∀ r, r ∈ rows ↔ r ∈ list_row (kr_view s b) (KeyService.list_opts now input) <$> ks) as Hrows.
  { intros r. subst rows. destruct (default false (KeyService.in_reverse input)); [apply elem_of_reverse|done]. }
  split; [rewrite length_take; lia|]. split.
  - intros row Hrow. assert (row ∈ rows) as Hr.
    { apply list_elem_of_lookup in Hrow as [i Hi]. rewrite lookup_take in Hi.
      case_decide; [|done]. rewrite lookup_drop in Hi. by eapply list_elem_of_lookup_2. }
    apply Hrows, list_elem_of_fmap in Hr as (k & -> & Hk). apply Hks in Hk as (Hkok & Hp & en & Hv & Hx).
    destruct (KeyService.get_good now b k s Hg) as (s2 & Hs2 & _). exists en, s2.
    cbn [le_key list_row]. rewrite Hs2, Hv.
    cbn [expires_before KeyService.list_opts] in Hx. rewrite Hx. split; [done|]. split; [done|].
    unfold list_row. cbn. rewrite Hv. done.
  - intros k en s2 Hkok Hp Hget Hskip. rewrite Hskip. rewrite drop_0.
    destruct (decide (length rows <= N.to_nat lim)%nat) as [Hle|Hgt].
    + left. rewrite take_ge by done. apply list_elem_of_fmap.
      exists (list_row (kr_view s b) (KeyService.list_opts now input) k). split; [done|].
      apply Hrows, list_elem_of_fmap. exists k. split; [done|]. apply Hks.
      split; [done|]. split; [done|].
      destruct (KeyService.get_good now b k s Hg) as (s3 & Hs3 & _). rewrite Hs3 in Hget.
      destruct (kr_view s b k) as [en'|]; [|done]. exists en'. split; [done|].
      cbn [expires_before KeyService.list_opts]. by destruct (expired_before (Some now) en').
    + right. rewrite length_take. lia.
Qed.

(** Deleting. In a good repository [delete] answers "not found" exactly when there was no
    entry, and in every case the key is absent for a following [get] while all other keys of
    all buckets keep their entries. *)
Theorem delete_then_get (s : S) (b : BucketId) (k : Key) :
  kr_good s → kr_bucket b →
  ∃ s1, KeyService.delete b k s
        = (Ret (if bool_decide (is_Some (kr_view s b k)) then Ok tt else Err NotFound), s1)
  ∧ (∀ now, ∃ s2, KeyService.get now b k s1 = (Ret (Err NotFound), s2))
  ∧ ∀ b' k', kr_bucket b' → (b', k') ≠ (b, k) → kr_view s1 b' k' = kr_view s b' k'.
Proof.
  intros Hg Hb. destruct (kr_delete_good s b k Hb Hg) as (existed & s1 & Hs1 & Hg1).
  destruct (kr_delete s b k existed s1 Hb Hs1) as [He Hv]. rewrite <- (He (kr_good_inv s Hg)).
  exists s1. split; [|split].
  - unfold KeyService.delete, comp_bind. rewrite Hs1. by destruct existed.
  - intros now. destruct (KeyService.get_good now b k s1 Hg1) as (s2 & Hs2 & _). exists s2.
    rewrite Hs2, (Hv b k Hb). by rewrite decide_True.
  - intros b' k' Hb' Hne. rewrite (Hv b' k' Hb'). by rewrite decide_False.
Qed.

(** A transaction equals its operations sent one by one. In a good repository both succeed
    and leave every entry of every bucket the same, whatever order and repetition of keys the
    transaction has. *)
Theorem txn_equals_sequence (s : S) (b : BucketId) (ops : list TxnOp) :
  kr_good s → kr_bucket b → Forall txn_ok ops →
  ∃ s1 s2, KeyService.execute b ops s = (Ret (Ok tt), s1) ∧ run_ops b ops s = (Ret (Ok tt), s2)
    ∧ ∀ b' k', kr_bucket b' → kr_view s1 b' k' = kr_view s2 b' k'.
Proof.
  intros Hg Hb Hok. destruct (kr_apply_batch_good s b ops Hb Hg Hok) as (s1 & Hs1 & _).
  destruct (run_ops_result b ops s Hb Hg Hok) as (s2 & Hs2 & Hv2).
  exists s1, s2. split; [done|]. split; [done|]. intros b' k' Hb'.
  by rewrite (kr_apply_batch s b ops s1 Hb Hok Hs1 b' k' Hb'), Hv2.
Qed.

End Theorems.

(** Type inference and counters agree. A value stored by [PUT] can be used as a counter
    exactly when inference classified it as a number; the classification never lies about the
    payload, which is stored byte for byte. *)
Theorem inferred_numbers_are_counters {JS : JsonOps} (body : bytes) (ct : option bytes)
    (v : StoredValue) :
  KeyService.infer_stored_value body ct = Ok v →
  payload v = body
  ∧ ((∃ c, Counter.from_stored v = Ok c) ↔ kind v = Value.Int64 ∨ kind v = Value.Float64).
Proof.
  intros Hi. split; [by apply KeyService.infer_stored_value_ok in Hi as (_ & ? & _)|]. split.
  - intros [c Hc]. unfold Counter.from_stored in Hc. destruct (kind v); auto; done.
  - by apply (KeyService.inferred_number body ct).
Qed.

(** ** Witnesses *)

#[global] Instance no_json : JsonOps := { json_is_value := λ _, false }.

Lemma demo0_kr : kr_good demo0.
Proof. exact demo0_good. Qed.

Lemma demo_bucket_kr : kr_bucket demo_bucket.
Proof. exact demo_bucket_ok. Qed.

Lemma set_then_get_witness :
  ∃ s1, KeyService.set (at_nanos 0) demo_bucket demo_key (bs "42") None (Some 10%N) None demo0
        = (Ret (Ok (mkStored (bs "42") Value.Int64)), s1)
  ∧ ∃ en s2, KeyService.get (at_nanos 3000000000) demo_bucket demo_key s1 = (Ret (Ok en), s2).
Proof.
  destruct (set_then_get demo0 (at_nanos 0) demo_bucket demo_key (bs "42") None (Some 10%N) None
    demo0_kr demo_bucket_kr) as (s1 & Hs1 & _ & Hv).
  exists s1. split; [exact Hs1|].
  destruct (Hv (mkStored (bs "42") Value.Int64) Hs1) as (_ & _ & Hget).
  destruct (Hget (at_nanos 3000000000)) as (en & s2 & _ & Hr). exists en, s2. exact Hr.
Defined.

Lemma increments_accumulate_witness :
  (run_increments (at_nanos 0) demo_bucket demo_key [5; -7; 3] demo0).1
  = [Ok (mkStored (bs "5") Value.Int64); Ok (mkStored (bs "-2") Value.Int64);
     Ok (mkStored (bs "1") Value.Int64)].
Proof.
  rewrite (increments_accumulate demo0 (at_nanos 0) demo_bucket demo_key [5; -7; 3]).
  - vm_refl.
  - exact demo0_kr.
  - exact demo_bucket_kr.
  - vm_refl.
  - repeat constructor.
Defined.

Lemma list_agrees_with_get_witness :
  let s := (Store.set demo_bucket demo_key demo_value None demo0).2 in
  let input := KeyService.mkListInput None None None None (Some true) in
  ∃ en s2, KeyService.get (at_nanos 0) demo_bucket demo_key s = (Ret (Ok en), s2)
           ∧ Some demo_value = Some (value en).
Proof.
  intros s input.
  destruct (list_agrees_with_get s (KeyService.list (at_nanos 0) demo_bucket input s).2 (at_nanos 0)
    demo_bucket input [mkListEntry demo_key (Some demo_value)]) as (_ & Hrow & _).
  - destruct (set_outcome demo0 demo_bucket demo_key demo_value None (Ret (Ok tt)) s) as (_ & Hi & _).
    + exact demo_bucket_ok.
    + exact demo_value_ok.
    + apply pair_fst. vm_refl.
    + apply Hi. exact demo0_good.
  - exact demo_bucket_kr.
  - apply pair_fst. vm_refl.
  - destruct (Hrow (mkListEntry demo_key (Some demo_value))) as (en & s2 & H1 & _ & H2).
    + apply elem_of_cons. by left.
    + exists en, s2. split; [exact H1|exact H2].
Defined.

Lemma delete_then_get_witness :
  ∃ s1, KeyService.delete demo_bucket demo_key demo0 = (Ret (Err NotFound), s1).
Proof.
  destruct (delete_then_get demo0 demo_bucket demo_key demo0_kr demo_bucket_kr) as (s1 & Hs1 & _).
  exists s1. exact Hs1.
Defined.

Lemma txn_equals_sequence_witness :
  let ops := [TxnSet demo_key demo_value None; TxnDelete demo_key; TxnSet demo_key demo_value None] in
  ∃ s1 s2, KeyService.execute demo_bucket ops demo0 = (Ret (Ok tt), s1)
           ∧ run_ops demo_bucket ops demo0 = (Ret (Ok tt), s2).
Proof.
  intros ops.
  destruct (txn_equals_sequence demo0 demo_bucket ops demo0_kr demo_bucket_kr) as (s1 & s2 & H1 & H2 & _).
  - constructor; [exact demo_value_ok|]. constructor; [exact I|].
    constructor; [exact demo_value_ok|constructor].
  - exists s1, s2. split; [exact H1|exact H2].
Defined.

Lemma inferred_numbers_are_counters_witness :
  ∃ c, Counter.from_stored (mkStored (bs " 2.5 ") Value.Float64) = Ok c.
Proof.
  apply (inferred_numbers_are_counters (bs " 2.5 ") None (mkStored (bs " 2.5 ") Value.Float64)).
  - vm_refl.
  - by right.
Defined.
