(* ===== verification/Concurrency.v ===== *)
(** * Properties of concurrent requests

    Every execution of any number of threads over the adapter is explained by an order of
    atomic requests, no execution blocks, and no increment is lost. *)

From Stdlib Require Import Strings.Byte.
From S2P Require Import Prelude RustStd TimeLib Domain Counter Ports Codec FjallLib Locks Store StoreSpec StoreList StoreRepo StoreProps Gc Interleave Linearize KeyService KeyProps.
Import Interleave.

(** ** Progress *)

Section Progress.
Context {T : TimeOps} {P : PostcardOps} {J : PolicyJsonOps} {F : FjallOps} {H : HasherOps}
        {L : LayoutOps}.
Context {TL : TimeLaws T} {PL : PostcardLaws P} {JL : PolicyJsonLaws J} {FL : FjallLaws F}
        {LL : LayoutLaws L}.

Definition unfinished (t : request * thread) : Prop :=
  match t.2 with Running _ _ _ => True | Finished _ | Panicked => False end.

(** The locks of a thread, as the acquisition model sees them. *)
Definition acquiring (t : request * thread) : Acquire.thread :=
  match t.2 with
  | Running held todo _ => Acquire.mkThread held todo
  | Finished _ | Panicked => Acquire.mkThread [] []
  end.

Lemma held_acquiring t : Acquire.held (acquiring t) = held_by t.2.
Proof. by destruct t as [req [held todo p|r|]]. Qed.

(** A thread that holds all its locks can run. *)
Lemma locked_runs s0 log s ts i req held p :
  lin s0 log (s, ts) → ts !! i = Some (req, Running held [] p) → is_Some (run_thread i (s, ts)).
Proof.
  intros Hl Hi. cbn [run_thread]. rewrite Hi. destruct p as [r|B m k]; [by eexists|].
  destruct (advance (Step m k) s) as [[r s']|] eqn:Ha; [|done].
  pose proof (lin_call s0 log s ts i req held _ r s' Hl Hi Ha) as Hr.
  destruct r as [[p'|e]|]; [by eexists|by eexists|]. destruct Hr as [-> _]. by eexists.
Qed.

(** A thread whose next stripe nobody holds can take it. *)
Lemma waiting_runs s ts i req held x todo p :
  ts !! i = Some (req, Running held (x :: todo) p) →
  (∀ j t, (acquiring <$> ts) !! j = Some t → x ∉ Acquire.held t) → is_Some (run_thread i (s, ts)).
Proof.
  intros Hi Hf. cbn [run_thread]. rewrite Hi. rewrite (proj2 (free_spec x ts)); [by eexists|].
  intros j req' t Hj. specialize (Hf j (acquiring (req', t))). rewrite held_acquiring in Hf.
  apply Hf. by rewrite list_lookup_fmap, Hj.
Qed.

Lemma some_thread_runs s0 log s ts :
  lin s0 log (s, ts) → Exists unfinished ts → ∃ i, is_Some (run_thread i (s, ts)).
Proof.
  intros Hl Hex. destruct (Acquire.largest_held (acquiring <$> ts)) as [Hnone|(i & t & x & Hi & Hx & Hmax)].
  - apply list.Exists_exists in Hex as ([req [held [|x todo] p|r|]] & Hin & Ht); [| |done..];
      apply list_elem_of_lookup in Hin as [i Hi]; exists i; [by eapply locked_runs|].
    eapply waiting_runs; [done|]. intros j t Hj. rewrite (Hnone j t Hj). apply not_elem_of_nil.
  - apply list_lookup_fmap_Some in Hi as ([req [held [|y todo] p|r|]] & -> & Hi);
      [by exists i; eapply locked_runs| |by apply not_elem_of_nil in Hx..].
    exists i. eapply waiting_runs; [done|]. intros j t Hj Hy. specialize (Hmax j t y Hj Hy).
    destruct (lin_running _ _ _ Hl _ _ _ _ _ Hi) as [Hplan _].
    pose proof (Locks.stripes_sorted (keys_of req)) as Hs. fold (plan req) in Hs. rewrite <- Hplan in Hs.
    apply StronglySorted_app_inv in Hs as [Hlt _]. rewrite list.Forall_forall in Hlt.
    specialize (Hlt x Hx). lia.
Qed.

(** ** Bounded work *)

(** Every run of the program makes at most [n] steps. *)
Fixpoint short (n : nat) (p : prog answer) : Prop :=
  match p with
  | Done _ => True
  | Step _ k => match n with O => False | S n => ∀ b, short n (k b) end
  end.

Lemma short_body req : short 3 (body req).
Proof.
  destruct req as [| | | |b ops| |now_ts idx ts sk]; simpl; try done.
  - by case_bool_decide.
  - intros [u|e]; simpl; [|done]. intros [[v|]|e]; simpl; [|done..]. by destruct (due now_ts ts v).
Qed.

(** [w] bounds the steps the thread still makes. *)
Definition weighs (t : request * thread) (w : nat) : Prop :=
  match t.2 with
  | Finished _ | Panicked => True
  | Running _ todo p => ∃ d, short d p ∧ (length todo + d < w)%nat
  end.

Lemma weighs_step i s ts c' :
  run_thread i (s, ts) = Some c' →
  ∃ t t', ts !! i = Some t ∧ c'.2 = <[i := t']> ts
    ∧ ∀ w, weighs t w → ∃ w', (w' < w)%nat ∧ weighs t' w'.
Proof.
  cbn [run_thread]. destruct (ts !! i) as [[req [held [|x todo] p|r|]]|] eqn:Hi; [| |done..].
  - destruct p as [r|B m k].
    { intros [= <-]. eexists _, _. split; [done|]. split; [done|]. intros w (d & _ & Hw).
      exists 0%nat. split; [lia|done]. }
    cbn [advance]. destruct (m s) as [[[b|e]|] s']; [| |destruct held]; intros [= <-]; eexists _, _;
      (split; [done|]); (split; [done|]); intros w (d & Hd & Hw).
    + destruct d as [|d]; [done|]. exists (w - 1)%nat. simpl in *. split; [lia|]. exists d.
      split; [apply Hd|simpl; lia].
    + exists 0%nat. split; [lia|done].
    + exists 0%nat. split; [lia|done].
  - destruct (free x ts); intros [= <-]. eexists _, _. split; [done|]. split; [done|].
    intros w (d & Hd & Hw). exists (w - 1)%nat. simpl in *. split; [lia|]. exists d. split; [done|lia].
Qed.

Lemma sum_list_lower (ws : list nat) i w w' :
  ws !! i = Some w → (w' < w)%nat → (sum_list (<[i := w']> ws) < sum_list ws)%nat.
Proof.
  revert i. induction ws as [|a ws IH]; intros [|i] Hi Hlt; simplify_eq/=; [lia|].
  specialize (IH i Hi Hlt). lia.
Qed.

Lemma schedule_bounded order c c' ws :
  schedule order c = Some c' → Forall2 weighs c.2 ws → (length order <= sum_list ws)%nat.
Proof.
  revert c ws. induction order as [|i order IH]; intros [s ts] ws Hs Hw; [simpl; lia|].
  cbn [schedule] in Hs. apply bind_Some in Hs as (c1 & H1 & H2).
  destruct (weighs_step i s ts c1 H1) as (t & t' & Hi & Hc & Hlow).
  destruct (Forall2_lookup_l _ _ _ _ _ Hw Hi) as (w & Hwi & Hw1).
  destruct (Hlow w Hw1) as (w' & Hlt & Hw').
  assert (Forall2 weighs c1.2 (<[i := w']> ws)) as Hws by (rewrite Hc; by apply Forall2_insert).
  specialize (IH c1 _ H2 Hws). pose proof (sum_list_lower ws i w w' Hwi Hlt). simpl. lia.
Qed.

Lemma spawned_weigh reqs :
  Forall2 weighs (spawned reqs) ((λ req, length (plan req) + 4)%nat <$> reqs).
Proof.
  unfold spawned. apply Forall2_fmap_2, Forall_Forall2_diag, list.Forall_forall. intros req _.
  exists 3%nat. split; [apply short_body|lia].
Qed.

(** ** Panics *)

(** A request that panics: a reverse listing whose window no allocation holds. *)
Definition panics (req : request) : Prop :=
  match req with ReqList _ opts => overflows opts | _ => False end.

(** A thread panics only for such a request, and such a request is served by nothing else. *)
Definition fated (t : request * thread) : Prop :=
  (t.2 = Panicked → panics t.1)
  ∧ (panics t.1 → t.2 = Running [] [] (body t.1) ∨ t.2 = Panicked).

Lemma spawned_fated req : fated (req, Running [] (plan req) (body req)).
Proof. split; [done|]. intros Hp. left. by destruct req. Qed.

(** The first call of such a request panics. *)
Lemma fated_call req held p s r s' :
  fated (req, Running held [] p) → panics req → advance p s = Some (r, s') → r = Panic.
Proof.
  intros [_ Hf] Hp. destruct (Hf Hp) as [[= -> ->]|]; [|done]. destruct req as [| | | | |b opts|]; try done.
  cbn [body advance]. rewrite (list_inner_overflows s b opts Hp). congruence.
Qed.

Lemma step_fated s0 log c c' : lin s0 log c → step c c' → Forall fated c.2 → Forall fated c'.2.
Proof.
  intros Hl Hs Hf.
  destruct Hs as [s ts req Hok|s ts i req held x todo p Hi Hfree|s ts i req held p p' s' Hi Ha
    |s ts i req held p e s' Hi Ha|s ts i req p s' Hi Ha|s ts i req held r Hi]; simpl in *;
    [by apply Forall_app; split; [|apply list.Forall_singleton, spawned_fated]|..];
    apply Forall_insert; try done; pose proof (Forall_lookup_1 _ _ _ _ Hf Hi) as Ht.
  - split; [done|]. intros Hp. by destruct (proj2 Ht Hp).
  - split; [done|]. intros Hp. by pose proof (fated_call _ _ _ _ _ _ Ht Hp Ha).
  - split; [done|]. intros Hp. by pose proof (fated_call _ _ _ _ _ _ Ht Hp Ha).
  - destruct (lin_call _ _ _ _ _ _ _ _ _ _ Hl Hi Ha) as (_ & (b & opts & -> & Ho) & _). by split; [|right].
  - split; [done|]. intros Hp. destruct (proj2 Ht Hp) as [Hd|]; [|done]. by destruct req.
Qed.

Lemma steps_fated s0 log c c' :
  rtc step c c' → lin s0 log c → Forall fated c.2 → Forall fated c'.2.
Proof.
  intros Hs. revert log. induction Hs as [c|c1 c2 c3 Hs _ IH]; intros log Hl Hf; [done|].
  destruct (lin_step _ _ _ _ Hl Hs) as [ext Hl']. eapply IH; [exact Hl'|]. by apply (step_fated s0 log c1).
Qed.

(** A schedule runs the requests it was given. *)
Lemma schedule_requests order c c' : schedule order c = Some c' → c'.2.*1 = c.2.*1.
Proof.
  revert c. induction order as [|i order IH]; intros c; cbn [schedule]; [by intros [= ->]|].
  intros (c1 & H1 & ->%IH)%bind_Some. destruct c as [s ts]. cbn [run_thread] in H1.
  destruct (ts !! i) as [[req t]|] eqn:Hi; [|done].
  assert (∀ t', (<[i := (req, t')]> ts).*1 = ts.*1) as Hins.
  { intros t'. rewrite list_fmap_insert. apply list_insert_id. by rewrite list_lookup_fmap, Hi. }
  repeat case_match; simplify_eq/=; apply Hins.
Qed.

End Progress.

(** ** Counting *)

Section Counting.
Context {T : TimeOps} {P : PostcardOps} {J : PolicyJsonOps} {F : FjallOps} {H : HasherOps}
        {L : LayoutOps}.
Context {TL : TimeLaws T} {PL : PostcardLaws P} {JL : PolicyJsonLaws J} {FL : FjallLaws F}
        {LL : LayoutLaws L}.

Definition sum (ds : list Z) : Z := foldr Z.add 0 ds.

Definition delta_of (req : request) : Z :=
  match req with ReqIncrement _ _ _ (Counter.OpInt d) _ => d | _ => 0 end.

Definition counter_entry (total : Z) : StoredEntry :=
  written (mkStored (Int64.to_string total) Value.Int64) None.

Lemma sum_app ds ds' : sum (ds ++ ds') = sum ds + sum ds'.
Proof. induction ds as [|d ds IH]; simpl; lia. Qed.

#[local] Instance sum_proper : Proper ((≡ₚ) ==> (=)) sum.
Proof. intros ds ds' Hp. induction Hp; simpl; lia. Qed.

Lemma incremented_int_inv now en v d v' :
  en = None ∧ v = 0 ∨ en = Some (counter_entry v) → Int64.in_i64 v = true →
  incremented now en (Counter.OpInt d) = Ok v' →
  Int64.in_i64 (v + d) = true ∧ v' = mkStored (Int64.to_string (v + d)) Value.Int64.
Proof.
  intros Hen Hv Hi. destruct (Int64.in_i64 (v + d)) eqn:Hd.
  - rewrite (incremented_int now en v d Hen Hv Hd) in Hi. split; [done|]. congruence.
  - exfalso. assert (counter_operand now en = Ok (Counter.ValInt v)) as Hop.
    { destruct Hen as [[-> ->]| ->]; [done|]. apply (Counter.from_stored_text (Counter.ValInt v)); done. }
    unfold incremented in Hi. rewrite Hop in Hi. simpl in Hi. unfold Int64.checked_add in Hi.
    by rewrite Hd in Hi.
Qed.

(** Integer increments of one key, replayed one after the other. *)
Lemma replay_counter V log V' b k :
  replay V log V' → Layout.bucket_ok b → V b k = None →
  (∀ i req r, (i, req, r) ∈ log →
     ∃ now d a, req = ReqIncrement now b k (Counter.OpInt d) None ∧ r = Ok a) →
  let total := sum (delta_of <$> log.*1.*2) in
  Int64.in_i64 total = true
  ∧ (V' b k = None ∧ log = [] ∨ V' b k = Some (counter_entry total)).
Proof.
  intros Hre Hb HV. induction Hre as [V V' Hs|V log V1 i req r V2 Hre IH Hat]; intros Hall.
  { split; [done|]. left. by rewrite Hs. }
  destruct (Hall i req r ltac:(set_solver)) as (now & d & a & -> & ->).
  destruct IH as [Hin IH]; [done|intros; apply (Hall i0 req r); set_solver|].
  destruct Hat as (v & Hi & _ & Hs).
  apply (incremented_int_inv now (V1 b k) (sum (delta_of <$> log.*1.*2)) d) in Hi as [Hd ->]; [|naive_solver|done].
  rewrite !fmap_app, sum_app. simpl. rewrite Z.add_0_r. split; [done|]. right.
  rewrite Hs by done. unfold upd. by rewrite decide_True.
Qed.

(** An order that explains finished threads has exactly their requests. *)
Lemma explained_deltas s0 log s ts :
  explains s0 log (s, ts) → Forall (λ t, ∃ r, t.2 = Finished r) ts →
  sum (delta_of <$> log.*1.*2) = sum (delta_of <$> ts.*1).
Proof.
  intros (Hnd & _ & Hfin & Hlog) Hall. simpl in *.
  set (delta_at i := from_option (λ t : request * thread, delta_of t.1) 0 (ts !! i)).
  assert (delta_of <$> log.*1.*2 = delta_at <$> log.*1.*1) as ->.
  { rewrite <- !list_fmap_compose. apply list_fmap_ext. intros j [[i req] r] Hj. simpl.
    apply list_elem_of_lookup_2, Hlog in Hj. unfold delta_at.
    destruct Hj as [Hj|[held Hj]]; by rewrite Hj. }
  assert (delta_of <$> ts.*1 = delta_at <$> seq 0 (length ts)) as ->.
  { apply list_eq. intros i. rewrite !list_lookup_fmap.
    destruct (decide (i < length ts)%nat) as [Hlt|Hge].
    - rewrite lookup_seq_lt by done. destruct (lookup_lt_is_Some_2 ts i Hlt) as [t Ht].
      simpl. unfold delta_at. by rewrite Ht.
    - rewrite lookup_seq_ge by lia. by rewrite lookup_ge_None_2 by lia. }
  apply sum_proper, fmap_Permutation, list.NoDup_Permutation; [done|apply NoDup_seq|].
  intros i. rewrite elem_of_seq. split.
  - intros (req & r & Hi)%in_log. apply Hlog in Hi.
    destruct Hi as [Hi|[held Hi]]; apply lookup_lt_Some in Hi; lia.
  - intros [_ Hlt]. destruct (lookup_lt_is_Some_2 ts i ltac:(lia)) as [[req t] Ht].
    destruct (Forall_lookup_1 _ _ _ _ Hall Ht) as [r Hr]. simpl in Hr. subst t.
    by eapply log_in, Hfin.
Qed.

End Counting.

(** ** Theorems *)

Section Theorems.
Context {T : TimeOps} {P : PostcardOps} {J : PolicyJsonOps} {F : FjallOps} {H : HasherOps}
        {L : LayoutOps}.
Context {TL : TimeLaws T} {PL : PostcardLaws P} {JL : PolicyJsonLaws J} {FL : FjallLaws F}
        {LL : LayoutLaws L}.

(** C1: Linearizability. Any number of threads serve reads, writes, deletes, increments,
    transactions, listings and sweeper entries over one store, interleaved at every backend call, with
    any of these calls failing. Whatever they do, there is an order of the requests that have
    taken effect in which each is atomic: it answers and changes the entries as the sequential
    specification says (a storage error hides a complete effect or none, a domain error has
    none, the sweeper only removes an entry that had expired). The order holds every finished
    request once with the answer it gave, explains the entries of the store, and only grows at
    its end, so that it respects real time: a request finished before another starts precedes
    it. A listing that panics is not in the order and has no effect. *)
Theorem requests_linearizable (s0 : Store.FjallStore) (c1 c2 : config) :
  data_wf (cont s0) → rtc step (s0, []) c1 → rtc step c1 c2 →
  ∃ log1 log2, explains s0 log1 c1 ∧ explains s0 (log1 ++ log2) c2.
Proof.
  intros Hd H1 H2. destruct (lin_steps s0 [] _ _ H1 (lin_init s0 Hd)) as [log1 Hl1].
  destruct (lin_steps s0 _ _ _ H2 Hl1) as [log2 Hl2]. exists log1, log2.
  split; [apply Hl1|apply Hl2].
Qed.

(** C28: Concurrent requests complete. However the scheduler interleaves a set of requests, it
    runs out of steps after at most four per request plus one per stripe to lock; and when no
    thread can move, the thread of each request has ended: it panicked if the request is a reverse
    listing whose window no allocation holds, outside any lock, and has its answer for every other
    request. Lock acquisition never deadlocks, no loop runs on and nothing else panics. The
    records of the store decode, and the requests are for buckets with well-formed ids and carry
    values that fit their type, as the handlers make them. *)
Theorem requests_complete (s0 : Store.FjallStore) (reqs : list request) (order : list nat)
    (c : config) :
  data_wf (cont s0) → Forall request_wf reqs → schedule order (s0, spawned reqs) = Some c →
  (length order <= sum_list ((λ req, length (plan req) + 4)%nat <$> reqs))%nat
  ∧ c.2.*1 = reqs
  ∧ ((∀ i, run_thread i c = None) →
     Forall (λ t, panics t.1 ∧ t.2 = Panicked ∨ ¬ panics t.1 ∧ ∃ r, t.2 = Finished r) c.2).
Proof.
  intros Hd Hok Hs. split; [eapply schedule_bounded; [exact Hs|apply spawned_weigh]|]. split.
  { rewrite (schedule_requests _ _ _ Hs). unfold spawned. simpl.
    rewrite <- list_fmap_compose. apply list_fmap_id. }
  intros Hstuck. assert (rtc step (s0, []) c) as Hr.
  { etrans; [apply (spawn_all s0 [] reqs Hok)|by eapply schedule_steps]. }
  destruct (lin_steps s0 [] _ _ Hr (lin_init s0 Hd)) as [log Hl].
  pose proof (steps_fated s0 [] _ _ Hr (lin_init s0 Hd) (List.Forall_nil _)) as Hf.
  destruct c as [s ts]. apply list.Forall_forall. intros [req [held todo p|r|]] Hin;
    pose proof (proj1 (list.Forall_forall _ _) Hf _ Hin) as [Hf1 Hf2]; cbn [fst snd] in *.
  - destruct (some_thread_runs s0 _ s ts Hl) as [i Hi]; [apply list.Exists_exists; by eexists|].
    rewrite (Hstuck i) in Hi. by destruct Hi.
  - right. split; [|by exists r]. intros Hp. by destruct (Hf2 Hp).
  - left. auto.
Qed.

(** No increment is lost. When any number of threads increment one absent counter by
    integers, in any interleaving, and all of them succeed, the counter holds exactly the sum
    of the increments. *)
Theorem concurrent_increments_exact (s0 : Store.FjallStore) (c : config) (b : BucketId) (k : Key) :
  data_wf (cont s0) → Layout.bucket_ok b → view s0 b k = None → rtc step (s0, []) c → c.2 ≠ [] →
  Forall (λ t, ∃ now d a, t = (ReqIncrement now b k (Counter.OpInt d) None, Finished (Ok a))) c.2 →
  view c.1 b k = Some (counter_entry (sum (delta_of <$> c.2.*1))).
Proof.
  intros Hd Hb HV Hr Hne Hall. destruct (lin_steps s0 [] _ _ Hr (lin_init s0 Hd)) as [log Hl].
  pose proof (lin_explains _ _ _ Hl) as Hex. simpl in Hex. destruct c as [s ts]. simpl in *.
  assert (Forall (λ t, ∃ r, t.2 = Finished r) ts) as Hfin.
  { eapply list.Forall_impl; [exact Hall|]. intros t (now & d & a & ->). by eexists. }
  pose proof (explained_deltas s0 log s ts Hex Hfin) as Hsum.
  destruct Hex as (Hnd & Hre & Hin & Hlog).
  destruct (replay_counter _ _ _ b k Hre Hb HV) as [_ [[_ Hnil]|Hv]].
  - intros i req r Hi. destruct (Hlog _ _ _ Hi) as [Hx|[held Hx]];
      destruct (Forall_lookup_1 _ _ _ _ Hall Hx) as (now & d & a & [= -> ->]). by exists now, d, a.
  - subst log. destruct ts as [|[req t] ts]; [done|]. exfalso. apply list.Forall_cons in Hfin as [[r Hr'] _].
    simpl in Hr'. subst t. by apply (not_elem_of_nil (0%nat, req, r)), Hin.
  - simpl in Hv, Hsum. by rewrite Hsum in Hv.
Qed.

End Theorems.

(** ** Witnesses *)

(** Two increments of one counter, and a read and a listing that run between them. *)
Definition demo_inc (d : Z) : request :=
  ReqIncrement (at_nanos 0) demo_bucket demo_key (Counter.OpInt d) None.

Definition demo_page : ListOpts := mkListOpts None 10 0 true false None.

Definition demo_requests : list request :=
  [demo_inc 3; demo_inc 4; ReqGet demo_bucket demo_key; ReqList demo_bucket demo_page].

Lemma demo_requests_wf : Forall request_wf demo_requests.
Proof. repeat constructor; exact demo_bucket_ok. Qed.

Lemma demo0_wf : data_wf (cont demo0).
Proof. apply demo0_good. Qed.

(** The configuration after a schedule of some requests from the empty store. *)
Definition after (reqs : list request) (order : list nat) : config :=
  default (demo0, []) (schedule order (demo0, spawned reqs)).

Definition is_some {A} (o : option A) : bool := match o with Some _ => true | None => false end.

Lemma after_schedule reqs order :
  is_some (schedule order (demo0, spawned reqs)) = true →
  schedule order (demo0, spawned reqs) = Some (after reqs order).
Proof. unfold after. by destruct (schedule order (demo0, spawned reqs)). Qed.

Lemma after_reachable reqs order :
  Forall request_wf reqs → is_some (schedule order (demo0, spawned reqs)) = true →
  rtc step (demo0, []) (after reqs order).
Proof.
  intros Hok Hs. etrans; [apply (spawn_all demo0 [] reqs Hok)|].
  by eapply schedule_steps, after_schedule.
Qed.

Lemma requests_linearizable_witness :
  let c1 := after demo_requests [0; 0; 0; 2]%nat in
  let c2 := default c1 (schedule [0; 0; 1; 2; 1; 3; 3]%nat c1) in
  c2.2 !! 2%nat = Some (ReqGet demo_bucket demo_key, Finished (Ok (AEntry None)))
  ∧ c2.2 !! 3%nat = Some (ReqList demo_bucket demo_page,
                          Finished (Ok (AList [mkListEntry demo_key None])))
  ∧ ∃ log1 log2, explains demo0 log1 c1 ∧ explains demo0 (log1 ++ log2) c2.
Proof.
  intros c1 c2. split; [vm_refl|]. split; [vm_refl|].
  apply (requests_linearizable demo0 c1 c2).
  - exact demo0_wf.
  - apply after_reachable; [exact demo_requests_wf|vm_refl].
  - apply (schedule_steps [0; 0; 1; 2; 1; 3; 3]%nat). unfold c2.
    assert (is_some (schedule [0; 0; 1; 2; 1; 3; 3]%nat c1) = true) as Hs by vm_refl.
    by destruct (schedule [0; 0; 1; 2; 1; 3; 3]%nat c1).
Defined.

(** The same with a listing whose window is too large. *)
Definition demo_huge : request :=
  ReqList demo_bucket (mkListOpts None 100 Usize.usize_max true false None).

Lemma requests_complete_witness :
  let c := after (demo_requests ++ [demo_huge]) [0; 0; 0; 2; 0; 4; 0; 1; 2; 1; 3; 1; 1; 1; 3]%nat in
  Forall (λ t, panics t.1 ∧ t.2 = Panicked ∨ ¬ panics t.1 ∧ ∃ r, t.2 = Finished r) c.2
  ∧ c.2 !! 4%nat = Some (demo_huge, Panicked).
Proof.
  intros c. split; [|vm_refl].
  apply (requests_complete demo0 (demo_requests ++ [demo_huge])
    [0; 0; 0; 2; 0; 4; 0; 1; 2; 1; 3; 1; 1; 1; 3]%nat).
  - exact demo0_wf.
  - apply Forall_app. split; [exact demo_requests_wf|]. repeat constructor. exact demo_bucket_ok.
  - apply after_schedule. vm_refl.
  - intros [|[|[|[|[|i]]]]]; vm_refl.
Defined.

Lemma concurrent_increments_exact_witness :
  let c := after [demo_inc 3; demo_inc 4] [0; 0; 0; 0; 0; 1; 1; 1; 1; 1]%nat in
  view c.1 demo_bucket demo_key = Some (counter_entry 7).
Proof.
  intros c.
  assert (c.2 = [(demo_inc 3, Finished (Ok (AValue (mkStored (bs "3") Value.Int64))));
                 (demo_inc 4, Finished (Ok (AValue (mkStored (bs "7") Value.Int64))))]) as Hc by vm_refl.
  pose proof (concurrent_increments_exact demo0 c demo_bucket demo_key) as Hx. rewrite Hc in Hx.
  apply Hx.
  - exact demo0_wf.
  - exact demo_bucket_ok.
  - vm_refl.
  - apply after_reachable; [repeat constructor; exact demo_bucket_ok|vm_refl].
  - done.
  - repeat constructor; by eexists _, _, _.
Defined.
