(* ===== verification/Auth.v ===== *)
(** * [keydock-usecase]: credentials and temporary tokens

    - [crypto.rs], [ct.rs]: HMAC-SHA256 and the constant-time comparison (crates [hmac] and
      [subtle], as the class [CryptoOps]);
    - [tokens.rs]: minting and verifying signed tokens ([base64] and [serde_json], as the class
      [TokenOps]);
    - [auth.rs]: resolution of a presented credential against a bucket policy. *)

From Stdlib Require Import Strings.Byte.
From S2P Require Import Prelude RustStd TimeLib Domain Ports Codec.

Class CryptoOps : Type := {
  (** [HmacSha256::new_from_slice(key)], [update(data)], [finalize()]; [None] for a refused key *)
  hmac_finalize : bytes → bytes → option bytes;
  (** [subtle::ConstantTimeEq::ct_eq] on slices *)
  ct_eq : bytes → bytes → bool;
}.

Class CryptoLaws (C : CryptoOps) : Prop := {
  (** HMAC takes keys of any length. *)
  hmac_total key data : is_Some (hmac_finalize key data);
  ct_eq_spec a b : ct_eq a b = bool_decide (a = b);
}.

Class TokenOps {T : TimeOps} : Type := {
  (** [URL_SAFE_NO_PAD.encode] and [.decode] *)
  b64url_encode : bytes → bytes;
  b64url_decode : bytes → option bytes;
  (** [serde_json::to_vec] and [from_slice] at [TemporaryTokenClaims] (timestamps in RFC 3339) *)
  claims_to_vec : TemporaryTokenClaims → option bytes;
  claims_from_slice : bytes → option TemporaryTokenClaims;
}.

Class TokenLaws {T : TimeOps} (K : TokenOps) : Prop := {
  b64url_roundtrip l : b64url_decode (b64url_encode l) = Some l;
  (** The URL-safe alphabet has no ['.']. *)
  b64url_no_dot l : "."%byte ∉ b64url_encode l;
  claims_roundtrip c l : claims_to_vec c = Some l → claims_from_slice l = Some c;
}.

Module Crypto.

Inductive HmacError : Type := InvalidKey.

Definition hmac_sha256 `{CryptoOps} (key data : bytes) : result bytes HmacError :=
  ok_or InvalidKey (hmac_finalize key data).

Definition eq_bytes `{CryptoOps} (a b : bytes) : bool := ct_eq a b.

End Crypto.

Module Tokens.

Section Tokens.
Context {T : TimeOps} {C : CryptoOps} {K : TokenOps}.

Definition mint (claims : TemporaryTokenClaims) (signing_key : SigningKey)
  : result bytes TokenError :=
  let? json := ok_or Serialize (claims_to_vec claims) in
  let? sig := map_err (λ _, InvalidFormat) (Crypto.hmac_sha256 (expose_secret signing_key) json) in
  let payload_b64 := b64url_encode json in
  let sig_b64 := b64url_encode sig in
  Ok (payload_b64 ++ bs "." ++ sig_b64).

Definition verify (raw : bytes) (policy : BucketPolicy) (b : BucketId) (now : OffsetDateTime)
  : result TemporaryTokenClaims TokenError :=
  let? signing_key := ok_or NoSigningKey (signing_key policy) in
  let? parts := ok_or InvalidFormat (split_once "."%byte raw) in
  let (payload_b64, sig_b64) := parts in
  let? json := ok_or InvalidFormat (b64url_decode payload_b64) in
  let? expected_sig := ok_or InvalidFormat (b64url_decode sig_b64) in
  let? computed := map_err (λ _, InvalidFormat) (Crypto.hmac_sha256 (expose_secret signing_key) json) in
  if negb (len computed =? len expected_sig)%N || negb (Crypto.eq_bytes computed expected_sig)
  then Err InvalidSignature
  else
    let? claims := ok_or InvalidFormat (claims_from_slice json) in
    if odt_leb (exp claims) now then Err Expired
    else if bool_decide (bucket claims ≠ b) then Err BucketMismatch
    else if negb (bucket_generation claims =? signing_key_generation policy)%N
    then Err GenerationMismatch
    else Ok claims.

(** The checks on the claims of a genuine token, in the order of the code. *)
Definition claims_check (claims : TemporaryTokenClaims) (policy : BucketPolicy) (b : BucketId)
    (now : OffsetDateTime) : result TemporaryTokenClaims TokenError :=
  if odt_leb (exp claims) now then Err Expired
  else if bool_decide (bucket claims ≠ b) then Err BucketMismatch
  else if negb (bucket_generation claims =? signing_key_generation policy)%N
  then Err GenerationMismatch
  else Ok claims.

Context {CL : CryptoLaws C} {KL : TokenLaws K}.

Lemma hmac_sha256_ok key data :
  ∃ mac, Crypto.hmac_sha256 key data = Ok mac ∧ hmac_finalize key data = Some mac.
Proof. unfold Crypto.hmac_sha256. destruct (hmac_total key data) as [mac ->]. by exists mac. Qed.

Lemma same_mac a b : (len a =? len b)%N && Crypto.eq_bytes a b = bool_decide (a = b).
Proof.
  unfold Crypto.eq_bytes. rewrite ct_eq_spec. case_bool_decide as Hab.
  - subst. by rewrite N.eqb_refl.
  - apply andb_false_r.
Qed.

(** [verify] on a well-formed token. *)
Lemma verify_parts payload sig json mac key policy b now :
  signing_key policy = Some key → "."%byte ∉ payload →
  b64url_decode payload = Some json → b64url_decode sig = Some mac →
  verify (payload ++ bs "." ++ sig) policy b now
  = if bool_decide (Some mac = hmac_finalize (expose_secret key) json)
    then let? claims := ok_or InvalidFormat (claims_from_slice json) in claims_check claims policy b now
    else Err InvalidSignature.
Proof.
  intros Hk Hdot Hp Hs. unfold verify. rewrite Hk. simpl.
  rewrite (proj2 (split_once_Some "."%byte (payload ++ "."%byte :: sig) payload sig)) by done.
  simpl. rewrite Hp, Hs. simpl.
  destruct (hmac_sha256_ok (expose_secret key) json) as (c & -> & ->). simpl.
  rewrite <- negb_andb, same_mac. rewrite (bool_decide_ext (Some mac = Some c) (c = mac)) by naive_solver.
  by case_bool_decide.
Qed.

Lemma mint_parts claims key t :
  mint claims key = Ok t →
  ∃ json mac, claims_to_vec claims = Some json ∧ hmac_finalize (expose_secret key) json = Some mac
    ∧ t = b64url_encode json ++ bs "." ++ b64url_encode mac.
Proof.
  unfold mint. destruct (claims_to_vec claims) as [json|] eqn:Ej; simpl; [|done].
  destruct (hmac_sha256_ok (expose_secret key) json) as (mac & -> & Hm). simpl.
  intros [= <-]. by exists json, mac.
Qed.

(** The claims of a minted token verified under any policy with a signing key. *)
Lemma verify_minted claims key t policy b now key' :
  mint claims key = Ok t → signing_key policy = Some key' →
  verify t policy b now
  = match claims_to_vec claims with
    | Some json =>
      if bool_decide (hmac_finalize (expose_secret key) json = hmac_finalize (expose_secret key') json)
      then claims_check claims policy b now else Err InvalidSignature
    | None => Err InvalidFormat
    end.
Proof.
  intros Hm Hk. apply mint_parts in Hm as (json & mac & Hj & Hmac & ->).
  rewrite (verify_parts _ _ json mac key' policy b now Hk (b64url_no_dot json)
             (b64url_roundtrip json) (b64url_roundtrip mac)).
  rewrite Hj, Hmac. by rewrite (claims_roundtrip claims json Hj).
Qed.

Lemma claims_check_ok claims claims' policy b now :
  claims_check claims policy b now = Ok claims' →
  claims' = claims ∧ odt_leb (exp claims) now = false ∧ bucket claims = b
  ∧ bucket_generation claims = signing_key_generation policy.
Proof.
  unfold claims_check. destruct (odt_leb (exp claims) now); [done|].
  case_bool_decide as Hb; [done|].
  destruct (N.eqb_spec (bucket_generation claims) (signing_key_generation policy)); simpl; [|done].
  intros [= <-]. split; [done|]. split; [done|]. split; [|done].
  destruct (decide (bucket claims = b)); [done|]. by destruct Hb.
Qed.

Lemma verify_ok raw policy b now claims :
  verify raw policy b now = Ok claims →
  ∃ key payload sig json mac, signing_key policy = Some key
    ∧ raw = payload ++ bs "." ++ sig ∧ b64url_decode payload = Some json
    ∧ b64url_decode sig = Some mac ∧ hmac_finalize (expose_secret key) json = Some mac
    ∧ claims_from_slice json = Some claims ∧ claims_check claims policy b now = Ok claims.
Proof.
  intros Hv. assert (Hv' := Hv). unfold verify in Hv'.
  destruct (signing_key policy) as [key|] eqn:Hk; [|done]. simpl in Hv'.
  destruct (split_once "."%byte raw) as [[payload sig]|] eqn:Hs; [|done]. simpl in Hv'.
  apply split_once_Some in Hs as [-> Hdot].
  destruct (b64url_decode payload) as [json|] eqn:Hp; [|done]. simpl in Hv'.
  destruct (b64url_decode sig) as [mac|] eqn:Hsig; [|done]. clear Hv'.
  change (payload ++ "."%byte :: sig) with (payload ++ bs "." ++ sig) in Hv.
  rewrite (verify_parts payload sig json mac key policy b now Hk Hdot Hp Hsig) in Hv.
  case_bool_decide as Hmac; [|done].
  destruct (claims_from_slice json) as [cl|] eqn:Ec; simpl in Hv; [|done].
  pose proof (claims_check_ok cl claims policy b now Hv) as [-> _].
  exists key, payload, sig, json, mac. by rewrite <- Hmac.
Qed.

End Tokens.

End Tokens.

Module Auth.

Inductive ResolvedIdentity : Type :=
| Anonymous
| Admin
| Scoped (permissions : Permission) (key_prefix : bytes).

#[global] Instance ResolvedIdentity_eq_dec : EqDecision ResolvedIdentity.
Proof. solve_decision. Defined.

Section Auth.
Context {T : TimeOps} {C : CryptoOps} {K : TokenOps}.

Definition hash_credential (raw : bytes) (root_key : SigningKey) : result bytes AuthError :=
  map_err (λ _, InvalidKeyMaterial) (Crypto.hmac_sha256 (expose_secret root_key) raw).

Definition verify_credential (presented stored_hash : bytes) (root_key : SigningKey) : bool :=
  match hash_credential presented root_key with
  | Err _ => false
  | Ok computed => (len computed =? len stored_hash)%N && Crypto.eq_bytes computed stored_hash
  end.

Definition resolve (raw : option bytes) (policy : BucketPolicy) (b : BucketId)
    (root_key : SigningKey) (now : OffsetDateTime) : result ResolvedIdentity AuthError :=
  match raw with
  | None => Ok Anonymous
  | Some cred =>
    let matches h := match h with Some h => verify_credential cred h root_key | None => false end in
    if matches (secret_key_hash policy) then Ok Admin
    else if matches (write_key_hash policy) then Ok (Scoped Permission.WRITE_ONLY [])
    else if matches (read_key_hash policy) then Ok (Scoped Permission.READ_ENUMERATE [])
    else
      let? claims := map_err (λ _, InvalidCredential) (Tokens.verify cred policy b now) in
      Ok (Scoped (permissions claims) (allowed_prefix claims))
  end.

(** A stored hash is the hash of the presented credential. *)
Definition is_hash (root_key : SigningKey) (cred : bytes) (h : option bytes) : Prop :=
  ∃ x, h = Some x ∧ hmac_finalize (expose_secret root_key) cred = Some x.

Context {CL : CryptoLaws C}.

Lemma verify_credential_iff cred root_key h :
  match h with Some h => verify_credential cred h root_key | None => false end = true
  ↔ is_hash root_key cred h.
Proof.
  unfold is_hash. destruct h as [h|]; [|naive_solver].
  unfold verify_credential, hash_credential, Crypto.hmac_sha256.
  destruct (hmac_total (expose_secret root_key) cred) as [mac Hm]. rewrite Hm. simpl.
  rewrite Tokens.same_mac, bool_decide_eq_true. naive_solver.
Qed.

Lemma hash_verifies cred root_key h :
  hash_credential cred root_key = Ok h → is_hash root_key cred (Some h).
Proof.
  unfold hash_credential, Crypto.hmac_sha256, is_hash.
  destruct (hmac_finalize (expose_secret root_key) cred) as [x|]; simpl; [|done].
  intros [= <-]. eauto.
Qed.

End Auth.

End Auth.

(** ** Instances of the libraries, for examples *)

(** A toy keyed hash, and plain equality. *)
#[global] Instance toy_crypto : CryptoOps := {
  hmac_finalize key data := Some (key ++ "|"%byte :: data);
  ct_eq a b := bool_decide (a = b);
}.

#[global] Instance toy_crypto_laws : CryptoLaws toy_crypto.
Proof. split; [by eexists|done]. Qed.

(** Two characters per byte, and the countable encoding of the claims. *)
Definition hex_digit (n : Z) : byte := byte_of_Z (65 + n).

Definition hex_encode (l : bytes) : bytes :=
  l ≫= λ b, [hex_digit (byte_Z b / 16); hex_digit (byte_Z b mod 16)].

Fixpoint hex_decode (l : bytes) : option bytes :=
  match l with
  | [] => Some []
  | [_] => None
  | a :: b :: l' =>
    rest ← hex_decode l';
    Some (byte_of_Z ((byte_Z a - 65) * 16 + (byte_Z b - 65)) :: rest)
  end.

Lemma hex_digit_Z n : 0 <= n < 16 → byte_Z (hex_digit n) = 65 + n.
Proof. intros Hn. unfold hex_digit. rewrite byte_Z_of_Z. apply Z.mod_small. lia. Qed.

Lemma hex_decode_encode l : hex_decode (hex_encode l) = Some l.
Proof.
  induction l as [|b l IH]; [done|].
  change (hex_encode (b :: l))
    with (hex_digit (byte_Z b / 16) :: hex_digit (byte_Z b mod 16) :: hex_encode l).
  cbn [hex_decode]. rewrite IH. pose proof (byte_Z_range b). simpl. do 2 f_equal.
  rewrite !hex_digit_Z by lia. rewrite <- (byte_of_byte_Z b) at 3. f_equal. lia.
Qed.

Lemma hex_no_dot l : "."%byte ∉ hex_encode l.
Proof.
  induction l as [|b l IH]; [apply not_elem_of_nil|].
  change (hex_encode (b :: l))
    with (hex_digit (byte_Z b / 16) :: hex_digit (byte_Z b mod 16) :: hex_encode l).
  pose proof (byte_Z_range b). rewrite !not_elem_of_cons. split_and!; [| |done].
  all: intros Hx; apply (f_equal byte_Z) in Hx; rewrite hex_digit_Z in Hx by lia.
  all: change (byte_Z "."%byte) with 46 in Hx; lia.
Qed.

Definition claims_tuple (c : TemporaryTokenClaims (T := nano_time))
  : N * bytes * N * bytes * Permission * Z * Z :=
  (version c, as_str (bucket c), bucket_generation c, allowed_prefix c, permissions c,
   unix_timestamp_nanos (iat c), unix_timestamp_nanos (exp c)).

#[global] Instance toy_tokens : TokenOps (T := nano_time) := {
  b64url_encode := hex_encode;
  b64url_decode := hex_decode;
  claims_to_vec c := Some (count_write (claims_tuple c));
  claims_from_slice l :=
    '(v, b, g, p, perms, i, e) ← count_read (A := N * bytes * N * bytes * Permission * Z * Z) l;
    i ← nano_make i; e ← nano_make e;
    Some (mkClaims nano_time v (mkBucketId b) g p perms i e);
}.

Lemma nano_make_nanos t : nano_make (nanos t) = Some t.
Proof.
  destruct t as [n Hn]. unfold nano_make. simpl. case_match; [|done].
  do 2 f_equal. apply proof_irrel.
Qed.

#[global] Instance toy_tokens_laws : TokenLaws toy_tokens.
Proof.
  split.
  - apply hex_decode_encode.
  - apply hex_no_dot.
  - intros c l Hl. cbn -[count_write claims_tuple] in Hl. injection Hl as <-.
    cbn -[count_read count_write claims_tuple]. rewrite count_read_write. unfold claims_tuple. simpl.
    rewrite !nano_make_nanos. by destruct c as [v [b] g p perms i e].
Qed.

(** ** Properties *)

Section Theorems.
Context {T : TimeOps} {C : CryptoOps} {K : TokenOps} {CL : CryptoLaws C} {KL : TokenLaws K}.

(** A minted token verifies to its own claims. Under a policy with the signing key it was
    minted with, verification answers with the claims, or with exactly the first failing check:
    expiry, bucket, generation. *)
Theorem token_roundtrip (claims : TemporaryTokenClaims) (policy : BucketPolicy) (key : SigningKey)
    (b : BucketId) (now : OffsetDateTime) (t : bytes) :
  signing_key policy = Some key → Tokens.mint claims key = Ok t →
  Tokens.verify t policy b now
  = if odt_leb (exp claims) now then Err Expired
    else if bool_decide (bucket claims ≠ b) then Err BucketMismatch
    else if negb (bucket_generation claims =? signing_key_generation policy)%N
    then Err GenerationMismatch
    else Ok claims.
Proof.
  intros Hk Hm. rewrite (Tokens.verify_minted claims key t policy b now key Hm Hk).
  apply Tokens.mint_parts in Hm as (json & mac & -> & -> & _).
  by rewrite bool_decide_eq_true_2.
Qed.

(** C16: What an accepted token proves. Verification accepts a string only if it has the form
    [payload.sig], the signature is the HMAC of the decoded payload under the policy's signing
    key, the claims are the ones in that payload, and they are unexpired, for this bucket and of
    the current key generation. *)
Theorem token_acceptance_sound (raw : bytes) (policy : BucketPolicy) (b : BucketId)
    (now : OffsetDateTime) (claims : TemporaryTokenClaims) :
  Tokens.verify raw policy b now = Ok claims →
  ∃ key payload sig json mac, signing_key policy = Some key
    ∧ raw = payload ++ bs "." ++ sig
    ∧ b64url_decode payload = Some json ∧ b64url_decode sig = Some mac
    ∧ hmac_finalize (expose_secret key) json = Some mac
    ∧ claims_from_slice json = Some claims
    ∧ odt_leb (exp claims) now = false ∧ bucket claims = b
    ∧ bucket_generation claims = signing_key_generation policy.
Proof.
  intros Hv. apply Tokens.verify_ok in Hv as (key & p & sg & json & mac & H1 & H2 & H3 & H4 & H5 & H6 & H7).
  apply Tokens.claims_check_ok in H7 as (_ & H7 & H8 & H9).
  exists key, p, sg, json, mac. repeat split; done.
Qed.

(** Raising the key generation of a bucket revokes every token minted before, whatever the
    signing key of the new policy is; the same holds for removing the signing key, for another
    bucket, and from the expiry on. *)
Theorem token_revocation (claims : TemporaryTokenClaims) (key : SigningKey) (t : bytes)
    (policy : BucketPolicy) (b : BucketId) (now : OffsetDateTime) :
  Tokens.mint claims key = Ok t →
  bucket_generation claims ≠ signing_key_generation policy ∨ signing_key policy = None
  ∨ bucket claims ≠ b ∨ odt_leb (exp claims) now = true →
  is_ok (Tokens.verify t policy b now) = false.
Proof.
  intros Hm Hr. destruct (signing_key policy) as [key'|] eqn:Hk.
  - rewrite (Tokens.verify_minted claims key t policy b now key' Hm Hk).
    destruct (claims_to_vec claims) as [json|]; [|done]. case_bool_decide; [|done].
    destruct (Tokens.claims_check claims policy b now) as [c|] eqn:Ec; [|done].
    apply Tokens.claims_check_ok in Ec as (_ & H1 & H2 & H3).
    destruct Hr as [?|[?|[?|?]]]; congruence.
  - unfold Tokens.verify. by rewrite Hk.
Qed.

(** C15: Credential resolution grants exactly what the policy says. No credential is anonymous;
    the secret key gives admin; the write key write-only and the read key read-and-enumerate
    access to the whole bucket; anything else must be a valid token and gets the token's own
    permissions and prefix; a credential that is none of these is refused. The order matters
    when a credential matches several hashes: the first match wins. *)
Theorem resolve_exact (raw : option bytes) (policy : BucketPolicy) (b : BucketId)
    (root_key : SigningKey) (now : OffsetDateTime) (id : Auth.ResolvedIdentity) :
  Auth.resolve raw policy b root_key now = Ok id ↔
  match raw with
  | None => id = Auth.Anonymous
  | Some cred =>
    let secret := Auth.is_hash root_key cred (secret_key_hash policy) in
    let write := Auth.is_hash root_key cred (write_key_hash policy) in
    let read := Auth.is_hash root_key cred (read_key_hash policy) in
    secret ∧ id = Auth.Admin
    ∨ ¬ secret ∧ write ∧ id = Auth.Scoped Permission.WRITE_ONLY []
    ∨ ¬ secret ∧ ¬ write ∧ read ∧ id = Auth.Scoped Permission.READ_ENUMERATE []
    ∨ ¬ secret ∧ ¬ write ∧ ¬ read
      ∧ ∃ claims, Tokens.verify cred policy b now = Ok claims
                  ∧ id = Auth.Scoped (permissions claims) (allowed_prefix claims)
  end.
Proof.
  destruct raw as [cred|]; simpl; [|split; [by intros [= <-]|by intros ->]].
  rewrite <- !Auth.verify_credential_iff.
  destruct (match secret_key_hash policy with Some h => _ | None => false end); [naive_solver|].
  destruct (match write_key_hash policy with Some h => _ | None => false end); [naive_solver|].
  destruct (match read_key_hash policy with Some h => _ | None => false end); [naive_solver|].
  destruct (Tokens.verify cred policy b now) as [claims|]; simpl; naive_solver.
Qed.

End Theorems.

(** ** Witnesses *)

Definition demo_signing_key : SigningKey := mkSigningKey (bs "sk").

Definition demo_claims : TemporaryTokenClaims (T := nano_time) :=
  mkClaims nano_time 1 (mkBucketId (bs "b1")) 3 (bs "logs/") Permission.READ_ONLY (at_nanos 0)
    (at_nanos 60000000000).

Definition token_policy : BucketPolicy :=
  mkPolicy None Permission.NONE None None None (Some demo_signing_key) 3.

Definition demo_token : bytes :=
  match Tokens.mint demo_claims demo_signing_key with Ok t => t | Err _ => [] end.

Lemma demo_token_minted : Tokens.mint demo_claims demo_signing_key = Ok demo_token.
Proof. vm_refl. Qed.

Lemma token_roundtrip_witness :
  Tokens.verify demo_token token_policy (mkBucketId (bs "b1")) (at_nanos 5) = Ok demo_claims.
Proof.
  rewrite (token_roundtrip demo_claims token_policy demo_signing_key (mkBucketId (bs "b1"))
    (at_nanos 5) demo_token).
  - vm_refl.
  - vm_refl.
  - exact demo_token_minted.
Defined.

Lemma token_acceptance_sound_witness :
  ∃ key, signing_key token_policy = Some key.
Proof.
  destruct (token_acceptance_sound demo_token token_policy (mkBucketId (bs "b1")) (at_nanos 5)
    demo_claims) as (key & _ & _ & _ & _ & Hk & _).
  - vm_refl.
  - exists key. exact Hk.
Defined.

Lemma token_revocation_witness :
  is_ok (Tokens.verify demo_token
           (mkPolicy None Permission.NONE None None None (Some demo_signing_key) 4)
           (mkBucketId (bs "b1")) (at_nanos 5)) = false.
Proof.
  apply (token_revocation demo_claims demo_signing_key).
  - exact demo_token_minted.
  - left. vm_compute. discriminate.
Defined.

Lemma resolve_exact_witness :
  Auth.resolve (Some (bs "pw"))
    (mkPolicy None Permission.NONE (Some (bs "rk|pw")) (Some (bs "rk|pw")) None None 1)
    (mkBucketId (bs "b1")) (mkSigningKey (bs "rk")) (at_nanos 5) = Ok Auth.Admin.
Proof.
  apply resolve_exact. left. split; [|reflexivity]. exists (bs "rk|pw"). split; reflexivity.
Defined.
