(* ===== verification/HttpBase.v ===== *)
(** * [keydock-http]: responses, credential extraction, bucket authorization

    - [error.rs], [blocking.rs]: the response vocabulary and the mapping of use-case errors;
    - [auth.rs], [percent.rs]: extraction of a credential from headers and query string;
    - [extract.rs]: [BucketAuth], the extractor every bucket route runs first, and its guards.

    The crates around it (percent decoding, base64, header text, [serde_json]) are the class
    [WireOps]. A handler runs on the state [S] of the repositories; the clock is the instant it
    shows. *)

From Stdlib Require Import Strings.Byte.
From S2P Require Import Prelude RustStd TimeLib Domain Counter Ports Codec Auth KeyService.

Class WireOps : Type := {
  (** [percent_encoding::percent_decode_str] *)
  percent_decode : bytes → bytes;
  (** [base64::STANDARD.decode] *)
  b64std_decode : bytes → option bytes;
  (** [HeaderValue::to_str]: the text of a header value of visible ASCII *)
  header_to_str : bytes → option bytes;
}.

Module Http.

(** ** Response bodies *)

(** [routes/buckets.rs]: the public projection of a policy. *)
Record BucketPolicyPublic : Type := mkPublic {
  pub_default_ttl : option N;
  pub_has_secret_key : bool;
  pub_has_read_key : bool;
  pub_has_write_key : bool;
  pub_has_signing_key : bool;
  pub_signing_key_generation : N;
  (** [AnonymousAccessView] has the fields of [Permission]. *)
  pub_anonymous_access : Permission;
}.

#[global] Instance BucketPolicyPublic_eq_dec : EqDecision BucketPolicyPublic.
Proof. solve_decision. Defined.

(** [routes/health.rs]. *)
Record HealthResponse : Type := mkHealth { h_status : bytes; h_storage : bytes; h_version : bytes }.

#[global] Instance HealthResponse_eq_dec : EqDecision HealthResponse.
Proof. solve_decision. Defined.

Inductive Body : Type :=
| NoBody
(** [ErrorBody { error: ErrorDetail { code, message } }] *)
| ErrorBody (code : N) (message : bytes)
| Raw (content_type body : bytes)
| PolicyBody (p : BucketPolicyPublic)
(** [AccessTokenResponse { access_token }] *)
| TokenBody (access_token : bytes)
| HealthBody (h : HealthResponse).

(** ** [error.rs] *)

Record Response : Type := mkResponse { status : N; body : Body }.

#[global] Instance Body_eq_dec : EqDecision Body.
Proof. solve_decision. Defined.
#[global] Instance Response_eq_dec : EqDecision Response.
Proof. solve_decision. Defined.

Definition json_error (status : N) (message : bytes) : Response :=
  mkResponse status (ErrorBody status message).

Definition not_implemented (message : bytes) : Response := json_error 501 message.
Definition unauthorized : Response := json_error 401 (bs "unauthorized").
Definition forbidden : Response := json_error 403 (bs "forbidden").
Definition not_found : Response := json_error 404 (bs "not_found").
Definition bad_request : Response := json_error 400 (bs "bad_request").
Definition not_acceptable : Response := json_error 406 (bs "not_acceptable").
Definition method_not_allowed : Response := json_error 405 (bs "method_not_allowed").
Definition service_unavailable : Response := json_error 503 (bs "service_unavailable").
Definition rate_limit_exceeded : Response := json_error 429 (bs "rate limit exceeded").
Definition internal_error : Response := json_error 500 (bs "internal_error").

Definition map_use_case_repo_err (err : UseCaseError) : Response :=
  match err with
  | Storage _ => internal_error
  | NotFound => not_found
  | DomainErr _ => bad_request
  | NotImplemented => not_implemented (bs "not implemented")
  end.

(** ** [blocking.rs] *)

(** A panic of the blocking task is a join error. *)
Definition spawn_usecase {S A} (f : comp S A UseCaseError) : comp S A Response :=
  λ s, match f s with
       | (Panic, s') => (Ret (Err internal_error), s')
       | (Ret r, s') => (Ret (map_err map_use_case_repo_err r), s')
       end.

(** ** [auth.rs]: extraction *)

Inductive RawCredential : Type :=
| Bearer (s : bytes)
| Basic (s : bytes)
| QueryParam (s : bytes).

Definition as_str (c : RawCredential) : bytes :=
  match c with Bearer s | Basic s | QueryParam s => s end.

(** The request headers the handlers look at (first value of each, as raw bytes). *)
Record Headers : Type := mkHeaders {
  h_authorization : option bytes;
  h_accept : option bytes;
  h_content_type : option bytes;
}.

Section Extract.
Context {W : WireOps}.

Definition basic_username_credential (decoded : bytes) : option bytes :=
  let user := match split_once ":"%byte decoded with Some (u, _) => u | None => decoded end in
  if bool_decide (user = []) then None else Some user.

(** [percent::decode_to_bytes] and [String::from_utf8]. *)
Definition decode_query_value (value : bytes) : option bytes :=
  let l := percent_decode value in
  if Utf8.from_utf8 l then Some l else None.

(** One pair of the query string; the state is [(access_token, key_param)]. *)
Definition query_pair (st : option bytes * option bytes) (pair : bytes)
  : option bytes * option bytes :=
  let (access_token, key_param) := st in
  if bool_decide (pair = []) then st
  else
    let (name, value) := default (pair, []) (split_once "="%byte pair) in
    let name := Utf8.trim name in
    if bool_decide (name = bs "access_token") && bool_decide (access_token = None)
    then (decode_query_value value, key_param)
    else if bool_decide (name = bs "key") && bool_decide (key_param = None)
    then (access_token, decode_query_value value)
    else st.

Definition extract_from_query (query : bytes) : option RawCredential :=
  let (access_token, key_param) := foldl query_pair (None, None) (split "&"%byte query) in
  value ← match access_token with Some t => Some t | None => key_param end;
  if bool_decide (value = []) then None else Some (QueryParam value).

(** The credential of the [Authorization] header, if it yields one. *)
Definition extract_from_header (auth : bytes) : option RawCredential :=
  let bearer :=
    rest ← strip_prefix (bs "Bearer ") auth;
    let token := Utf8.trim rest in
    if bool_decide (token = []) then None else Some (Bearer token) in
  let basic :=
    rest ← strip_prefix (bs "Basic ") auth;
    l ← b64std_decode (Utf8.trim rest);
    if Utf8.from_utf8 l then Basic <$> basic_username_credential l else None in
  match bearer with Some c => Some c | None => basic end.

Definition extract (headers : Headers) (query : option bytes) : option RawCredential :=
  match (h_authorization headers ≫= header_to_str) ≫= extract_from_header with
  | Some c => Some c
  | None => query ≫= extract_from_query
  end.

(** ** [extract.rs] *)

Definition parse_percent_encoded_key (raw : bytes) : result Key Response :=
  let decoded := percent_decode raw in
  map_err (λ _, bad_request) (Key.from_bytes decoded).

End Extract.

Record PolicyKeysPresence : Type := mkPresence {
  has_read_key : bool;
  has_write_key : bool;
  has_secret_key : bool;
}.

Definition is_some {A} (o : option A) : bool := match o with Some _ => true | None => false end.

Definition presence_of (policy : BucketPolicy) : PolicyKeysPresence := {|
  has_read_key := is_some (read_key_hash policy);
  has_write_key := is_some (write_key_hash policy);
  has_secret_key := is_some (secret_key_hash policy);
|}.

Record BucketAuth : Type := mkAuth {
  identity : Auth.ResolvedIdentity;
  bucket_id : BucketId;
  policy_presence : PolicyKeysPresence;
  auth_anonymous_access : Permission;
  auth_default_ttl_secs : option N;
}.

Definition require_admin (a : BucketAuth) : result unit Response :=
  match identity a with Auth.Admin => Ok tt | _ => Err forbidden end.

Definition require_enumerate (a : BucketAuth) : result unit Response :=
  match identity a with
  | Auth.Admin => Ok tt
  | Auth.Scoped permissions _ =>
    if Permission.enumerate permissions then Ok tt else Err forbidden
  | Auth.Anonymous => if has_read_key (policy_presence a) then Err unauthorized else Ok tt
  end.

Definition is_prefix_ok (key_prefix : bytes) (key : Key) : bool :=
  bool_decide (key_prefix = []) || starts_with (as_bytes key) key_prefix.

Definition any_policy_key_present (a : BucketAuth) : bool :=
  has_secret_key (policy_presence a) || has_write_key (policy_presence a)
  || has_read_key (policy_presence a).

Definition require_read_on (a : BucketAuth) (key : Key) : result unit Response :=
  match identity a with
  | Auth.Admin => Ok tt
  | Auth.Scoped permissions key_prefix =>
    if negb (Permission.read permissions) then Err forbidden
    else if negb (is_prefix_ok key_prefix key) then Err forbidden
    else Ok tt
  | Auth.Anonymous => if has_read_key (policy_presence a) then Err unauthorized else Ok tt
  end.

Definition require_write_on (a : BucketAuth) (key : Key) : result unit Response :=
  match identity a with
  | Auth.Admin => Ok tt
  | Auth.Scoped permissions key_prefix =>
    if negb (Permission.write permissions) then Err forbidden
    else if negb (is_prefix_ok key_prefix key) then Err forbidden
    else Ok tt
  | Auth.Anonymous =>
    if has_write_key (policy_presence a) then Err unauthorized
    else if Permission.write (auth_anonymous_access a) then Ok tt
    else Err forbidden
  end.

Definition require_delete_on (a : BucketAuth) (key : Key) : result unit Response :=
  match identity a with
  | Auth.Admin => Ok tt
  | Auth.Scoped permissions key_prefix =>
    if negb (Permission.delete permissions) then Err forbidden
    else if negb (is_prefix_ok key_prefix key) then Err forbidden
    else Ok tt
  | Auth.Anonymous =>
    if any_policy_key_present a then Err unauthorized
    else if Permission.delete (auth_anonymous_access a) then Ok tt
    else Err forbidden
  end.

(** [path.trim_start_matches('/')]. *)
Fixpoint trim_slashes (path : bytes) : bytes :=
  match path with
  | b :: path' => if decide (b = "/"%byte) then trim_slashes path' else path
  | [] => []
  end.

Definition first_path_segment (path : bytes) : option bytes :=
  head (filter (λ segment, segment ≠ []) (split "/"%byte (trim_slashes path))).

Definition bucket_id_from_path (path : bytes) : result BucketId unit :=
  let? segment := ok_or tt (first_path_segment path) in
  map_err (λ _, tt) (Bucket.new segment).

(** The parts of a request the extractor and the handlers read. [uri_path] is the path below the
    API prefix. *)
Record Parts : Type := mkParts {
  uri_path : bytes;
  uri_query : option bytes;
  headers : Headers;
}.

Section FromRequest.
Context {T : TimeOps} {C : CryptoOps} {K : TokenOps} {W : WireOps}.
Context {S : Type} {BR : BucketRepository S}.

Definition from_request_parts (now : OffsetDateTime) (root_key : SigningKey) (parts : Parts)
  : comp S BucketAuth Response :=
  let! id := comp_lift (map_err (λ _, bad_request) (bucket_id_from_path (uri_path parts))) in
  let raw := extract (headers parts) (uri_query parts) in
  let cred_ref := as_str <$> raw in
  let! found := spawn_usecase (get_policy id) in
  let! policy := comp_lift (ok_or not_found found) in
  let! who := comp_lift (map_err (λ _, unauthorized)
                           (Auth.resolve cred_ref policy id root_key now)) in
  comp_ret {|
    identity := who;
    bucket_id := id;
    policy_presence := presence_of policy;
    auth_anonymous_access := anonymous_access policy;
    auth_default_ttl_secs := default_ttl_secs policy;
  |}.

End FromRequest.

(** ** What the guards decide *)

(** The anonymous permissions recorded in a policy are those its keys imply. *)
Definition policy_consistent (p : BucketPolicy) : Prop :=
  anonymous_access p
  = Permission.anonymous_from_keys (is_some (secret_key_hash p)) (is_some (read_key_hash p))
      (is_some (write_key_hash p)).

#[global] Instance policy_consistent_dec p : Decision (policy_consistent p).
Proof. unfold policy_consistent. apply _. Defined.

(** [a] was built from policy [p]. *)
Definition auth_of (a : BucketAuth) (p : BucketPolicy) : Prop :=
  policy_presence a = presence_of p ∧ auth_anonymous_access a = anonymous_access p
  ∧ auth_default_ttl_secs a = default_ttl_secs p.

(** The permissions an identity has on a key, as one record. *)
Definition granted (p : BucketPolicy) (id : Auth.ResolvedIdentity) (k : Key) : Permission :=
  match id with
  | Auth.Admin => Permission.ADMIN
  | Auth.Scoped perms pre =>
    if is_prefix_ok pre k then perms
    else Permission.new false false (Permission.enumerate perms) false
  | Auth.Anonymous => anonymous_access p
  end.

Lemma is_prefix_ok_spec pre k : is_prefix_ok pre k = true ↔ pre `prefix_of` as_bytes k.
Proof.
  unfold is_prefix_ok. rewrite orb_true_iff, bool_decide_eq_true. unfold starts_with.
  rewrite bool_decide_eq_true. split; [|by right]. intros [->|?]; [apply prefix_nil|done].
Qed.

Lemma guards_granted a p k :
  policy_consistent p → auth_of a p →
  is_ok (require_read_on a k) = Permission.read (granted p (identity a) k)
  ∧ is_ok (require_write_on a k) = Permission.write (granted p (identity a) k)
  ∧ is_ok (require_delete_on a k) = Permission.delete (granted p (identity a) k)
  ∧ is_ok (require_enumerate a) = Permission.enumerate (granted p (identity a) k).
Proof.
  intros Hc (Hp & Ha & _). unfold policy_consistent in Hc.
  unfold require_read_on, require_write_on, require_delete_on, require_enumerate, granted,
    any_policy_key_present. rewrite Hp, Ha, Hc. unfold presence_of. simpl.
  destruct (identity a) as [| |perms pre]; simpl.
  - by destruct (is_some (secret_key_hash p)), (is_some (read_key_hash p)),
      (is_some (write_key_hash p)).
  - done.
  - destruct (is_prefix_ok pre k), perms as [[] [] [] []]; done.
Qed.

Lemma spawn_usecase_ok {S A} (f : comp S A UseCaseError) s a s' :
  spawn_usecase f s = (Ret (Ok a), s') → f s = (Ret (Ok a), s').
Proof.
  unfold spawn_usecase. destruct (f s) as [[[x|e]|] s1]; intros [= <- <-]; done.
Qed.

End Http.
