(* ===== verification/Denials.v ===== *)
(** * Denials and their audit events

    What the HTTP layer logs when it refuses a request: the five guards of [extract.rs], the
    rejection of a credential in its extractor, and the mapping of use-case errors in
    [error.rs], each with the [tracing] event of every branch; and the redacting [Debug] output
    of [BucketAuth]. The guards here are those of [HttpBase] with their events: [erase] relates
    the two, and the theorem says what an event tells and what it cannot tell. *)

From Stdlib Require Import Strings.Byte.
From S2P Require Import Prelude RustStd TimeLib Domain Counter Ports Codec Auth KeyService HttpBase.
Import Http.

(** ** Events *)

Inductive Level : Type := DEBUG | WARN | ERROR.
Inductive FieldValue : Type := Text (l : bytes) | Number (n : N) | Flag (b : bool).

#[global] Instance Level_eq_dec : EqDecision Level.
Proof. solve_decision. Defined.
#[global] Instance FieldValue_eq_dec : EqDecision FieldValue.
Proof. solve_decision. Defined.

Record Event : Type := mkEvent {
  level : Level;
  fields : list (bytes * FieldValue);
  message : bytes;
}.

#[global] Instance Event_eq_dec : EqDecision Event.
Proof. solve_decision. Defined.

(** A pure computation that logs. *)
Definition traced (A : Type) : Type := A * list Event.

Definition len (l : bytes) : N := N.of_nat (length l).

Module Audit.

Definition identity_kind (a : BucketAuth) : bytes :=
  match identity a with
  | Auth.Admin => bs "admin"
  | Auth.Scoped _ _ => bs "scoped"
  | Auth.Anonymous => bs "anonymous"
  end.

(** One [tracing::debug!] of a guard: [bucket], [action], [identity_kind], the lengths the branch
    records, [reason]. *)
Definition authorization_denied (a : BucketAuth) (action kind : bytes)
    (lengths : list (bytes * FieldValue)) (reason : bytes) : Event :=
  mkEvent DEBUG
    ([(bs "bucket", Text (Bucket.as_str (bucket_id a))); (bs "action", Text action);
      (bs "identity_kind", Text kind)] ++ lengths ++ [(bs "reason", Text reason)])
    (bs "authorization denied").

Definition key_len (k : Key) : bytes * FieldValue := (bs "key_len", Number (len (as_bytes k))).
Definition prefix_len (l : bytes) : bytes * FieldValue := (bs "prefix_len", Number (len l)).

Definition require_admin (a : BucketAuth) : traced (result unit Response) :=
  match identity a with
  | Auth.Admin => (Ok tt, [])
  | _ => (Err forbidden, [authorization_denied a (bs "admin") (identity_kind a) [] (bs "admin_required")])
  end.

Definition require_enumerate (a : BucketAuth) : traced (result unit Response) :=
  let denied kind reason := authorization_denied a (bs "enumerate") kind [] reason in
  match identity a with
  | Auth.Admin => (Ok tt, [])
  | Auth.Scoped permissions _ =>
    if Permission.enumerate permissions then (Ok tt, [])
    else (Err forbidden, [denied (bs "scoped") (bs "missing_permission")])
  | Auth.Anonymous =>
    if has_read_key (policy_presence a)
    then (Err unauthorized, [denied (bs "anonymous") (bs "credential_required")])
    else (Ok tt, [])
  end.

Definition require_read_on (a : BucketAuth) (key : Key) : traced (result unit Response) :=
  let denied kind lengths reason :=
    authorization_denied a (bs "read") kind (key_len key :: lengths) reason in
  match identity a with
  | Auth.Admin => (Ok tt, [])
  | Auth.Scoped permissions key_prefix =>
    if negb (Permission.read permissions)
    then (Err forbidden, [denied (bs "scoped") [] (bs "missing_permission")])
    else if negb (is_prefix_ok key_prefix key)
    then (Err forbidden, [denied (bs "scoped") [prefix_len key_prefix] (bs "prefix_mismatch")])
    else (Ok tt, [])
  | Auth.Anonymous =>
    if has_read_key (policy_presence a)
    then (Err unauthorized, [denied (bs "anonymous") [] (bs "credential_required")])
    else (Ok tt, [])
  end.

Definition require_write_on (a : BucketAuth) (key : Key) : traced (result unit Response) :=
  let denied kind lengths reason :=
    authorization_denied a (bs "write") kind (key_len key :: lengths) reason in
  match identity a with
  | Auth.Admin => (Ok tt, [])
  | Auth.Scoped permissions key_prefix =>
    if negb (Permission.write permissions)
    then (Err forbidden, [denied (bs "scoped") [] (bs "missing_permission")])
    else if negb (is_prefix_ok key_prefix key)
    then (Err forbidden, [denied (bs "scoped") [prefix_len key_prefix] (bs "prefix_mismatch")])
    else (Ok tt, [])
  | Auth.Anonymous =>
    if has_write_key (policy_presence a)
    then (Err unauthorized, [denied (bs "anonymous") [] (bs "credential_required")])
    else if Permission.write (auth_anonymous_access a) then (Ok tt, [])
    else (Err forbidden, [denied (bs "anonymous") [] (bs "anonymous_forbidden")])
  end.

Definition require_delete_on (a : BucketAuth) (key : Key) : traced (result unit Response) :=
  let denied kind lengths reason :=
    authorization_denied a (bs "delete") kind (key_len key :: lengths) reason in
  match identity a with
  | Auth.Admin => (Ok tt, [])
  | Auth.Scoped permissions key_prefix =>
    if negb (Permission.delete permissions)
    then (Err forbidden, [denied (bs "scoped") [] (bs "missing_permission")])
    else if negb (is_prefix_ok key_prefix key)
    then (Err forbidden, [denied (bs "scoped") [prefix_len key_prefix] (bs "prefix_mismatch")])
    else (Ok tt, [])
  | Auth.Anonymous =>
    if any_policy_key_present a
    then (Err unauthorized, [denied (bs "anonymous") [] (bs "credential_required")])
    else if Permission.delete (auth_anonymous_access a) then (Ok tt, [])
    else (Err forbidden, [denied (bs "anonymous") [] (bs "anonymous_forbidden")])
  end.

(** The closure of [map_err] in [from_request_parts]. *)
Definition credential_rejected (id : BucketId) (raw : option RawCredential) : traced Response :=
  (unauthorized,
   [mkEvent WARN [(bs "bucket", Text (Bucket.as_str id)); (bs "has_credential", Flag (is_some raw))]
      (bs "credential rejected")]).

(** [map_use_case_repo_err] of [error.rs]. *)
Definition map_use_case_repo_err (err : UseCaseError) : traced Response :=
  let kind name := (bs "error_kind", Text name) in
  match err with
  | Storage msg =>
    (internal_error, [mkEvent ERROR [(bs "error", Text msg); kind (bs "storage")] (bs "repository error")])
  | NotFound => (not_found, [mkEvent DEBUG [kind (bs "not_found")] (bs "resource not found")])
  | DomainErr e =>
    (bad_request,
     [mkEvent DEBUG [(bs "error", Text (domain_error_display e)); kind (bs "domain")]
        (bs "domain validation failed")])
  | NotImplemented =>
    (not_implemented (bs "not implemented"),
     [mkEvent DEBUG [kind (bs "not_implemented")] (bs "operation not implemented")])
  end.

(** ** Redacting [Debug] output *)

(** [f.debug_struct(name)] over fields already formatted, without the alternate flag. *)
Definition debug_struct (name : bytes) (fs : list (bytes * bytes)) : bytes :=
  let show (f : bytes * bytes) := f.1 ++ bs ": " ++ f.2 in
  match fs with
  | [] => name
  | f :: fs' => name ++ bs " { " ++ show f ++ mjoin ((λ g, bs ", " ++ show g) <$> fs') ++ bs " }"
  end.

Definition debug_bool (b : bool) : bytes := if b then bs "true" else bs "false".

Definition debug_presence (p : PolicyKeysPresence) : bytes :=
  debug_struct (bs "PolicyKeysPresence")
    [(bs "has_read_key", debug_bool (has_read_key p));
     (bs "has_write_key", debug_bool (has_write_key p));
     (bs "has_secret_key", debug_bool (has_secret_key p))].

Definition debug_permission (p : Permission) : bytes :=
  debug_struct (bs "Permission")
    [(bs "read", debug_bool (Permission.read p)); (bs "write", debug_bool (Permission.write p));
     (bs "enumerate", debug_bool (Permission.enumerate p));
     (bs "delete", debug_bool (Permission.delete p))].

(** [debug_str] is the quoting and escaping of [str]'s [Debug]. *)
Definition debug_auth (debug_str : bytes → bytes) (a : BucketAuth) : bytes :=
  debug_struct (bs "BucketAuth")
    [(bs "identity", debug_str (bs "[redacted]"));
     (bs "bucket_id", bs "BucketId(" ++ debug_str (Bucket.as_str (bucket_id a)) ++ bs ")");
     (bs "policy_presence", debug_presence (policy_presence a));
     (bs "anonymous_access", debug_permission (auth_anonymous_access a))].

(** ** The audit specification *)

(** The five guards as one family. *)
Inductive Action : Type := Administer | Enumerate | Read (k : Key) | Write (k : Key) | Delete (k : Key).

Definition guard (act : Action) (a : BucketAuth) : result unit Response :=
  match act with
  | Administer => Http.require_admin a
  | Enumerate => Http.require_enumerate a
  | Read k => Http.require_read_on a k
  | Write k => Http.require_write_on a k
  | Delete k => Http.require_delete_on a k
  end.

Definition audited (act : Action) (a : BucketAuth) : traced (result unit Response) :=
  match act with
  | Administer => require_admin a
  | Enumerate => require_enumerate a
  | Read k => require_read_on a k
  | Write k => require_write_on a k
  | Delete k => require_delete_on a k
  end.

Definition action_name (act : Action) : bytes :=
  match act with
  | Administer => bs "admin" | Enumerate => bs "enumerate" | Read _ => bs "read"
  | Write _ => bs "write" | Delete _ => bs "delete"
  end.

Definition action_key (act : Action) : option Key :=
  match act with Read k | Write k | Delete k => Some k | _ => None end.

(** The permission an action asks for; administration is not a permission. *)
Definition permission_bit (act : Action) (p : Permission) : bool :=
  match act with
  | Administer => false
  | Enumerate => Permission.enumerate p
  | Read _ => Permission.read p
  | Write _ => Permission.write p
  | Delete _ => Permission.delete p
  end.

(** Whether a key of the policy protects the action, so that presenting one could help. *)
Definition protected (act : Action) (p : PolicyKeysPresence) : bool :=
  match act with
  | Administer => false
  | Enumerate | Read _ => has_read_key p
  | Write _ => has_write_key p
  | Delete _ => has_secret_key p || has_write_key p || has_read_key p
  end.

(** Why a guard refuses, and with which response. *)
Inductive denial (a : BucketAuth) (act : Action) : bytes → Response → Prop :=
| admin_required :
    act = Administer → identity a ≠ Auth.Admin → denial a act (bs "admin_required") forbidden
| missing_permission perms pre :
    act ≠ Administer → identity a = Auth.Scoped perms pre → permission_bit act perms = false →
    denial a act (bs "missing_permission") forbidden
| prefix_mismatch perms pre k :
    identity a = Auth.Scoped perms pre → permission_bit act perms = true →
    action_key act = Some k → ¬ pre `prefix_of` as_bytes k →
    denial a act (bs "prefix_mismatch") forbidden
| credential_required :
    identity a = Auth.Anonymous → protected act (policy_presence a) = true →
    denial a act (bs "credential_required") unauthorized
| anonymous_forbidden :
    act ≠ Administer → identity a = Auth.Anonymous → protected act (policy_presence a) = false →
    permission_bit act (auth_anonymous_access a) = false →
    denial a act (bs "anonymous_forbidden") forbidden.

(** What an event tells: names, a kind, two lengths and a reason. *)
Definition denial_event (bucket action kind : bytes) (klen plen : option N) (reason : bytes)
    : Event :=
  let number name (o : option N) := match o with Some n => [(name, Number n)] | None => [] end in
  mkEvent DEBUG
    ([(bs "bucket", Text bucket); (bs "action", Text action); (bs "identity_kind", Text kind)]
     ++ (number (bs "key_len") klen ++ number (bs "prefix_len") plen)
     ++ [(bs "reason", Text reason)])
    (bs "authorization denied").

(** The length of a scoped identity's prefix, which only a prefix mismatch records. *)
Definition told_prefix (a : BucketAuth) (reason : bytes) : option N :=
  match identity a with
  | Auth.Scoped _ pre => if bool_decide (reason = bs "prefix_mismatch") then Some (len pre) else None
  | _ => None
  end.

End Audit.

Import Audit.

(** The logged error mapping and the rejection of a credential answer as their unlogged forms. *)
Lemma mapping_erased (e : UseCaseError) :
  (Audit.map_use_case_repo_err e).1 = Http.map_use_case_repo_err e.
Proof. by destruct e. Qed.

(** [Debug] of the extractor's result does not depend on the identity it resolved. *)
Lemma debug_auth_redacted debug_str who who' id pp anon ttl ttl' :
  debug_auth debug_str (mkAuth who id pp anon ttl) = debug_auth debug_str (mkAuth who' id pp anon ttl').
Proof. reflexivity. Qed.

Create HintDb denials.
#[local] Hint Constructors denial : denials.

Lemma prefix_refused pre k : negb (is_prefix_ok pre k) = true → ¬ pre `prefix_of` as_bytes k.
Proof. rewrite negb_true_iff. intros H Hp. apply is_prefix_ok_spec in Hp. congruence. Qed.
#[local] Hint Resolve prefix_refused : denials.
#[local] Hint Extern 1 (_ = true) => (apply negb_false_iff; assumption) : denials.
#[local] Hint Extern 1 (_ = false) => (apply negb_true_iff; assumption) : denials.

(** The reason of a refusal is the constructor that applies; the rest is computation. *)
Ltac denied := split; [eauto 6 with denials|split; reflexivity].

(** C13: Denials are audited, exactly and without secrets. Each of the five guards answers as its
    unlogged form and logs nothing when it grants. When it refuses, it logs one event; the reason
    of the event is the reason of the refusal as the policy and the identity give it, and the
    event is a function of the bucket, the action, the kind of the identity, the lengths of the
    key and of the token's prefix, and the reason: it cannot tell keys, prefixes or permissions.
    401 is the answer exactly when the reason is a missing credential, 403 otherwise. *)
Theorem denials_audited (a : BucketAuth) (act : Action) :
  (audited act a).1 = guard act a
  ∧ match guard act a with
    | Ok _ => (audited act a).2 = []
    | Err r =>
      ∃ reason, denial a act reason r
      ∧ r = (if bool_decide (reason = bs "credential_required") then unauthorized else forbidden)
      ∧ (audited act a).2
        = [denial_event (Bucket.as_str (bucket_id a)) (action_name act) (identity_kind a)
             ((λ k, len (as_bytes k)) <$> action_key act) (told_prefix a reason) reason]
    end.
Proof.
  destruct a as [[| |perms pre] id pp anon ttl]; destruct act; simpl;
    unfold require_admin, require_enumerate, require_read_on, require_write_on,
      require_delete_on, Http.require_admin, Http.require_enumerate, Http.require_read_on,
      Http.require_write_on, Http.require_delete_on; simpl;
    repeat case_match; simpl; (split; [done|]); try done; eexists; denied.
Qed.
