(* ===== verification/Serde.v ===== *)
(** * [serde] on JSON bodies

    What a derived [Deserialize] sees of a JSON document: its tree, with the members of an object
    in the order of the text, duplicates included. The members of a struct are looked up as the
    derived code does: a field may be required or defaulted, a field that occurs twice is an
    error, and an array stands for a struct by position. *)

From Stdlib Require Import Strings.Byte.
From S2P Require Import Prelude RustStd.

Inductive json : Type :=
| JNull
| JBool (b : bool)
| JInt (z : Z)
| JFloat (f : Float64.f64)
| JStr (s : bytes)
| JArr (l : list json)
| JObj (m : list (bytes * json)).

Module Serde.

Abbreviation members := (list (bytes * json)).

(** ** Leaves *)

(** [String] *)
Definition string_of (j : json) : option bytes := match j with JStr s => Some s | _ => None end.

(** [u64]: an integer in range; a number written as a float is refused. *)
Definition u64_of (j : json) : option N :=
  match j with
  | JInt z => if bool_decide (0 <= z <= Z.of_N Usize.usize_max) then Some (Z.to_N z) else None
  | _ => None
  end.

(** [Option<T>]: [null] is [None]. *)
Definition option_of {A} (dec : json → option A) (j : json) : option (option A) :=
  match j with JNull => Some None | _ => Some <$> dec j end.

(** [Vec<T>] *)
Definition vec_of {A} (dec : json → option A) (j : json) : option (list A) :=
  match j with JArr l => mapM dec l | _ => None end.

(** ** The fields of a struct *)

Inductive found : Type := Absent | Once (j : json) | Twice.

Definition find_member (name : bytes) (m : members) : found :=
  match filter (λ x, x.1 = name) m with
  | [] => Absent
  | [x] => Once x.2
  | _ => Twice
  end.

(** A field without a default. *)
Definition required {A} (dec : json → option A) (name : bytes) (m : members) : option A :=
  match find_member name m with Once j => dec j | _ => None end.

(** A field with [#[serde(default)]]. *)
Definition defaulted {A} (dec : json → option A) (d : A) (name : bytes) (m : members) : option A :=
  match find_member name m with Absent => Some d | Once j => dec j | Twice => None end.

(** [deny_unknown_fields] *)
Definition known (names : list bytes) (m : members) : bool := forallb (λ x, bool_decide (x.1 ∈ names)) m.

(** Element [i] of an array that stands for a struct; missing elements are defaulted. *)
Definition element {A} (dec : json → option A) (d : A) (i : nat) (l : list json) : option A :=
  match l !! i with Some j => dec j | None => Some d end.

(** ** Lookup *)

Lemma find_absent name m : find_member name m = Absent ↔ name ∉ m.*1.
Proof.
  unfold find_member. rewrite list_elem_of_fmap. split.
  - intros Hf (x & -> & Hx). assert (x ∈ filter (λ y, y.1 = x.1) m) as Hin by (by apply list_elem_of_filter).
    destruct (filter _ m) as [|a [|]]; [by apply not_elem_of_nil in Hin|done..].
  - intros Hn. destruct (filter _ m) as [|x l] eqn:Ef; [done|]. exfalso. apply Hn. exists x.
    assert (x ∈ filter (λ y, y.1 = name) m) as Hin by (rewrite Ef; left).
    apply list_elem_of_filter in Hin as [<- ?]. done.
Qed.

Lemma find_once name j m : find_member name m = Once j → (name, j) ∈ m.
Proof.
  unfold find_member. destruct (filter _ m) as [|[n i] [|]] eqn:Ef; [done| |done]. intros [= <-].
  assert ((n, i) ∈ filter (λ y, y.1 = name) m) as Hin by (rewrite Ef; left).
  apply list_elem_of_filter in Hin as [<- ?]. done.
Qed.

(** No member occurs twice. *)
Lemma once_each m : NoDup m.*1 ↔ ∀ name, find_member name m ≠ Twice.
Proof.
  unfold find_member. induction m as [|[n j] m IH]; [split; [done|constructor]|].
  rewrite fmap_cons, list.NoDup_cons, IH. clear IH. simpl. split.
  - intros [Hn Hm] name. rewrite filter_cons. simpl. case_decide as Hd; [|apply Hm]. subst.
    apply find_absent in Hn. unfold find_member in Hn. by destruct (filter _ m) as [|a [|]].
  - intros Hm. split.
    + specialize (Hm n). rewrite filter_cons_True in Hm by done. apply find_absent. unfold find_member.
      by destruct (filter _ m) as [|a [|]].
    + intros name. specialize (Hm name). rewrite filter_cons in Hm. simpl in Hm. case_decide; [|done].
      by destruct (filter _ m) as [|a [|b l]].
Qed.

Lemma find_in name j m : NoDup m.*1 → (name, j) ∈ m → find_member name m = Once j.
Proof.
  intros Hnd Hin. destruct (find_member name m) as [|i|] eqn:Ef.
  - apply find_absent in Ef. destruct Ef. apply list_elem_of_fmap. by exists (name, j).
  - apply find_once in Ef. f_equal. revert Hnd Hin Ef. clear. induction m as [|[n x] m IH]; simpl.
    { by rewrite elem_of_nil. }
    rewrite list.NoDup_cons, !elem_of_cons. intros [Hn Hnd] [?|H1] [?|H2]; simplify_eq/=; auto;
      destruct Hn; apply list_elem_of_fmap; eexists (_, _); by split; [|eassumption].
  - by destruct (proj1 (once_each m) Hnd name).
Qed.

Lemma find_perm name m m' : m ≡ₚ m' → NoDup m.*1 → find_member name m = find_member name m'.
Proof.
  intros Hp Hnd. destruct (find_member name m) as [|j|] eqn:Ef; symmetry.
  - apply find_absent. apply find_absent in Ef. by rewrite <- Hp.
  - apply find_in; [by rewrite <- Hp|]. rewrite <- Hp. by apply find_once.
  - by destruct (proj1 (once_each m) Hnd name).
Qed.

Lemma known_subset names m : known names m = true ↔ m.*1 ⊆ names.
Proof.
  unfold known. induction m as [|[n j] m IH]; simpl; [split; [set_solver|done]|].
  rewrite andb_true_iff, bool_decide_eq_true, IH. set_solver.
Qed.

(** A struct that denies unknown members and reads each field at most once has no duplicates. *)
Lemma known_once names m :
  known names m = true → (∀ n, n ∈ names → find_member n m ≠ Twice) → NoDup m.*1.
Proof.
  intros Hk Hn. apply once_each. intros n. destruct (decide (n ∈ names)) as [Hin|Hout]; [by apply Hn|].
  rewrite (proj2 (find_absent n m)); [done|]. apply known_subset in Hk. set_solver.
Qed.

(** Members are determined by their lookups, up to order. *)
Lemma members_exact names m m' :
  NoDup m.*1 → NoDup m'.*1 → m.*1 ⊆ names → m'.*1 ⊆ names →
  (∀ n, n ∈ names → find_member n m = find_member n m') → m ≡ₚ m'.
Proof.
  intros Hm Hm' Hs Hs' Hf. apply NoDup_Permutation; [by eapply NoDup_fmap_1|by eapply NoDup_fmap_1|].
  assert (∀ m m' : members, NoDup m.*1 → m.*1 ⊆ names →
    (∀ n, n ∈ names → find_member n m = find_member n m') → ∀ x, x ∈ m → x ∈ m') as Hsub.
  { clear. intros m m' Hnd Hs Hf [n j] Hx. apply find_once. rewrite <- Hf; [by apply find_in|].
    apply Hs, list_elem_of_fmap. by exists (n, j). }
  intros x. split; [by apply Hsub|]. apply Hsub; [done|done|]. intros n Hn. by rewrite Hf.
Qed.

(** ** Structs as objects or arrays *)

(** The members a struct with these fields is read from. *)
Definition as_members (names : list bytes) (j : json) : option members :=
  match j with
  | JObj m => Some m
  | JArr l => if bool_decide (length l <= length names)%nat then Some (zip names l) else None
  | _ => None
  end.

Lemma as_members_short names l : (length l <= length names)%nat → as_members names (JArr l) = Some (zip names l).
Proof. intros Hl. simpl. by rewrite bool_decide_true. Qed.

(** What a nullable field says: absent, [null], or a value. *)
Definition says {A} (dec : json → option A) (name : bytes) (m : members) (v : option (option A)) : Prop :=
  match v with
  | None => name ∉ m.*1
  | Some None => (name, JNull) ∈ m
  | Some (Some a) => ∃ j, (name, j) ∈ m ∧ dec j = Some a
  end.

Lemma defaulted_says {A} (dec : json → option A) name m v :
  dec JNull = None → NoDup m.*1 →
  defaulted (λ j, Some <$> option_of dec j) None name m = Some v ↔ says dec name m v.
Proof.
  intros Hnull Hnd. unfold defaulted. destruct (find_member name m) as [|j|] eqn:Ef.
  - apply find_absent in Ef. split; [by intros [= <-]|]. destruct v as [[a|]|]; simpl; [| |done].
    + intros (j & Hj & _). destruct Ef. apply list_elem_of_fmap. by exists (name, j).
    + intros Hj. destruct Ef. apply list_elem_of_fmap. by exists (name, JNull).
  - assert (name ∈ m.*1) as Hin
      by (apply find_once in Ef; apply list_elem_of_fmap; by exists (name, j)).
    assert (∀ i, (name, i) ∈ m → i = j) as Hone.
    { intros i Hi. apply (find_in _ _ _ Hnd) in Hi. congruence. }
    apply find_once in Ef. destruct v as [[a|]|]; simpl.
    + split.
      * intros Hd. exists j. split; [done|]. clear Hnull. destruct j; [done|..]; simpl in *; destruct (dec _); by simplify_eq/=.
      * intros (i & Hi & Hd). rewrite (Hone i Hi) in Hd. destruct j; [congruence|..]; simpl; by rewrite Hd.
    + split.
      * clear Hnull. intros Hd. destruct j; [done|..]; simpl in Hd; by destruct (dec _).
      * intros Hi. by rewrite <- (Hone JNull Hi).
    + split; [|done]. clear Hnull. intros Hd. destruct j; simpl in Hd; [done|..]; by destruct (dec _).
  - by destruct (proj1 (once_each m) Hnd name).
Qed.

Lemma defaulted_twice {A} (dec : json → option A) d name m v :
  defaulted dec d name m = Some v → find_member name m ≠ Twice.
Proof. unfold defaulted. by destruct (find_member name m). Qed.

Lemma required_once {A} (dec : json → option A) name m v :
  required dec name m = Some v ↔ ∃ j, find_member name m = Once j ∧ dec j = Some v.
Proof. unfold required. destruct (find_member name m); naive_solver. Qed.

Lemma vec_of_exact {A} (dec : json → option A) j v :
  vec_of dec j = Some v ↔ ∃ l, j = JArr l ∧ Forall2 (λ x a, dec x = Some a) l v.
Proof. destruct j; simpl; try naive_solver. rewrite mapM_Some. naive_solver. Qed.

(** The lookups in a list of members whose names are known. *)
Ltac lookups :=
  repeat match goal with
  | |- context [find_member ?n ?m] =>
    let r := eval vm_compute in (find_member n m) in change (find_member n m) with r
  | |- context [known ?ns ?m] => let r := eval vm_compute in (known ns m) in change (known ns m) with r
  end; try reflexivity.

End Serde.
