(* ===== verification/HttpRoutes.v ===== *)
(** * [keydock-http/src/routes]: the handlers

    One module per route file. A handler gets the [BucketAuth] the extractor produced, the parsed
    form or query, and runs on the repository state; [Ok] and [Err] are both responses. Bodies arrive
    as what the derived deserializers made of them; [serde_json::Value] ([JsonValueOps]) and the
    fresh UUID are parameters. Log lines are not modelled. *)

From Stdlib Require Import Strings.Byte.
From S2P Require Import Prelude RustStd TimeLib Domain Counter Ports Codec Auth KeyService HttpBase Serde.
Import Http.

(** [serde_json::Value] and the conversions the handlers use. *)
Inductive json_shape : Type := JsonNull | JsonString (s : bytes) | JsonOther.

Class JsonValueOps : Type := {
  json_value : Type;
  json_shape_of : json_value → json_shape;
  json_from_slice : bytes → option json_value;
  json_to_vec : json_value → option bytes;
  json_i64 : Z → json_value;
  (** [Number::from_f64] is [None] for NaN and infinities *)
  json_from_f64 : Float64.f64 → option json_value;
  json_string : bytes → json_value;
  json_u8 : byte → json_value;
  json_array : list json_value → json_value;
  (** [Value::deserialize] *)
  json_of_tree : json → json_value;
}.

(** ** [routes/keys.rs] *)

Module Keys.

Definition content_type_for_kind (kind : ValueKind) : bytes :=
  match kind with
  | Value.Json => bs "application/json"
  | Value.Int64 | Value.Float64 | Value.Utf8 => bs "text/plain; charset=utf-8"
  | Value.Raw => bs "application/octet-stream"
  end.

Definition stored_value_response (v : StoredValue) : result Response Response :=
  let ct := content_type_for_kind (kind v) in
  Ok (mkResponse 200 (Raw ct (payload v))).

Section Keys.
Context {T : TimeOps} {JS : JsonOps} {W : WireOps} {S : Type} {KR : KeyRepository S}.

Abbreviation handler := (comp S Response Response).

Definition get_key (now : OffsetDateTime) (auth : BucketAuth) (key : bytes) : handler :=
  let! key_dom := comp_lift (parse_percent_encoded_key key) in
  let! _ := comp_lift (require_read_on auth key_dom) in
  let! entry := spawn_usecase (KeyService.get now (bucket_id auth) key_dom) in
  comp_lift (stored_value_response (value entry)).

Definition head_key (now : OffsetDateTime) (auth : BucketAuth) (key : bytes) : handler :=
  let! key_dom := comp_lift (parse_percent_encoded_key key) in
  let! _ := comp_lift (require_read_on auth key_dom) in
  let! entry := spawn_usecase (KeyService.get now (bucket_id auth) key_dom) in
  let ct := content_type_for_kind (kind (value entry)) in
  comp_ret (mkResponse 200 (Raw ct [])).

Definition put_key (now : OffsetDateTime) (auth : BucketAuth) (key : bytes) (ttl : option N)
    (headers : Headers) (body : bytes) : handler :=
  let! key_dom := comp_lift (parse_percent_encoded_key key) in
  let! _ := comp_lift (require_write_on auth key_dom) in
  let content_type := h_content_type headers ≫= header_to_str in
  let default_ttl := auth_default_ttl_secs auth in
  let! v := spawn_usecase
              (KeyService.set now (bucket_id auth) key_dom body content_type ttl default_ttl) in
  comp_lift (stored_value_response v).

Definition delete_key (auth : BucketAuth) (key : bytes) : handler :=
  let! key_dom := comp_lift (parse_percent_encoded_key key) in
  let! _ := comp_lift (require_delete_on auth key_dom) in
  let! _ := spawn_usecase (KeyService.delete (bucket_id auth) key_dom) in
  comp_ret (mkResponse 204 NoBody).

Definition patch_key (now now_repo : OffsetDateTime) (auth : BucketAuth) (key : bytes)
    (ttl : option N) (body : bytes) : handler :=
  let! key_dom := comp_lift (parse_percent_encoded_key key) in
  let! _ := comp_lift (require_write_on auth key_dom) in
  let! o := comp_lift (map_err (λ _, bad_request) (Counter.parse body)) in
  let default_ttl := auth_default_ttl_secs auth in
  let! v := spawn_usecase
              (KeyService.increment now now_repo (bucket_id auth) key_dom o ttl default_ttl) in
  comp_lift (stored_value_response v).

End Keys.

End Keys.

(** ** [routes/txn.rs] *)

Module Txn.

Section Txn.
Context {T : TimeOps} {JS : JsonOps} {JV : JsonValueOps} {W : WireOps} {S : Type}
        {KR : KeyRepository S}.

Inductive TxnItem : Type :=
| ItemSet (set : bytes) (value : json_value) (ttl : option N)
| ItemDelete (delete : bytes).

Definition JSON_CONTENT_TYPE : bytes := bs "application/json".

Definition json_value_to_body (v : json_value) : result (bytes * option bytes) Response :=
  match json_shape_of v with
  | JsonNull => Err bad_request
  | JsonString s => Ok (s, None)
  | JsonOther =>
    let? l := ok_or bad_request (json_to_vec v) in
    Ok (l, Some JSON_CONTENT_TYPE)
  end.

(** The body of the loop over the items. *)
Definition txn_op (now : OffsetDateTime) (auth : BucketAuth) (item : TxnItem)
  : result TxnOp Response :=
  match item with
  | ItemSet set v ttl =>
    let? key_dom := parse_percent_encoded_key set in
    let? _ := require_write_on auth key_dom in
    let? bc := json_value_to_body v in
    let (body, content_type) := bc in
    let? stored := map_err map_use_case_repo_err (KeyService.infer_stored_value body content_type) in
    let? expires_at := map_err map_use_case_repo_err
                         (KeyService.resolve_ttl now ttl (auth_default_ttl_secs auth)) in
    Ok (TxnSet key_dom stored expires_at)
  | ItemDelete delete =>
    let? key_dom := parse_percent_encoded_key delete in
    let? _ := require_delete_on auth key_dom in
    Ok (TxnDelete key_dom)
  end.

(** The loop reads the clock anew for every item: [clock i] is what it shows at item [i]. *)
Fixpoint txn_ops (clock : nat → OffsetDateTime) (auth : BucketAuth) (items : list TxnItem)
  : result (list TxnOp) Response :=
  match items with
  | [] => Ok []
  | item :: items' =>
    let? o := txn_op (clock 0%nat) auth item in
    let? os := txn_ops (λ i, clock (Datatypes.S i)) auth items' in
    Ok (o :: os)
  end.

(** [parsed] is the outcome of [serde_json::from_slice::<TxnRequest>] on the body. *)
Definition execute_txn (clock : nat → OffsetDateTime) (auth : BucketAuth) (parsed : option (list TxnItem))
  : comp S Response Response :=
  let! txn := comp_lift (ok_or bad_request parsed) in
  if bool_decide (txn = []) then comp_err bad_request
  else
    let! ops := comp_lift (txn_ops clock auth txn) in
    let! _ := spawn_usecase (KeyService.execute (bucket_id auth) ops) in
    comp_ret (mkResponse 204 NoBody).

End Txn.

End Txn.

(** ** [routes/tokens.rs] *)

Module TokensRoute.

Record CreateTokenForm : Type := mkTokenForm { form_prefix : bytes; form_permissions : bytes; form_ttl : Z }.

Definition add_permission (p : Permission) (part : bytes) : result Permission Response :=
  let part := Utf8.trim part in
  if bool_decide (part = []) then Ok p
  else if bool_decide (part = bs "read") then
    Ok (Permission.new true (Permission.write p) (Permission.enumerate p) (Permission.delete p))
  else if bool_decide (part = bs "write") then
    Ok (Permission.new (Permission.read p) true (Permission.enumerate p) (Permission.delete p))
  else if bool_decide (part = bs "enumerate") then
    Ok (Permission.new (Permission.read p) (Permission.write p) true (Permission.delete p))
  else if bool_decide (part = bs "delete") then
    Ok (Permission.new (Permission.read p) (Permission.write p) (Permission.enumerate p) true)
  else Err bad_request.

Fixpoint add_permissions (p : Permission) (parts : list bytes) : result Permission Response :=
  match parts with
  | [] => Ok p
  | part :: parts' => let? p' := add_permission p part in add_permissions p' parts'
  end.

Definition parse_permissions (raw : bytes) : result Permission Response :=
  let? p := add_permissions Permission.NONE (split ","%byte raw) in
  if bool_decide (p = Permission.NONE) then Err bad_request else Ok p.

Section Tokens.
Context {T : TimeOps} {C : CryptoOps} {K : TokenOps} {S : Type} {BR : BucketRepository S}.

Definition create_token (now : OffsetDateTime) (auth : BucketAuth) (form : CreateTokenForm)
  : comp S Response Response :=
  let! _ := comp_lift (require_admin auth) in
  let! found := spawn_usecase (get_policy (bucket_id auth)) in
  let! policy := comp_lift (ok_or not_found found) in
  let! key := comp_lift (ok_or service_unavailable (signing_key policy)) in
  if form_ttl form <=? 0 then comp_err bad_request
  else if bool_decide (form_prefix form = []) then comp_err bad_request
  else
    let! exp := comp_lift (ok_or bad_request (checked_add_seconds now (form_ttl form))) in
    let! perms := comp_lift (parse_permissions (form_permissions form)) in
    let allowed_prefix := form_prefix form in
    let claims := mkClaims T 1 (bucket_id auth) (signing_key_generation policy) allowed_prefix perms
                    now exp in
    let! access_token := comp_lift (map_err (λ _, service_unavailable) (Tokens.mint claims key)) in
    comp_ret (mkResponse 200 (TokenBody access_token)).

End Tokens.

End TokensRoute.

(** ** [routes/health.rs] *)

Module Health.

Section Health.
Context {S : Type} {BR : BucketRepository S}.

Definition health_check (version : bytes) : Response :=
  mkResponse 200 (HealthBody (mkHealth (bs "ok") (bs "ok") version)).

Definition readiness_check (version : bytes) (s : S) : Response * S :=
  let (ok, s') := match ping_metadata s with
                  | (Ret (Ok _), s') => (true, s')
                  | (Ret (Err _), s') => (false, s')
                  | (Panic, s') => (false, s')
                  end in
  (if ok : bool
   then mkResponse 200 (HealthBody (mkHealth (bs "ok") (bs "ok") version))
   else mkResponse 503 (HealthBody (mkHealth (bs "degraded") (bs "error") version)), s').

End Health.

End Health.

(** ** Instances, for examples *)

#[global] Instance toy_wire : WireOps := {
  percent_decode l := l;
  b64std_decode := hex_decode;
  header_to_str l := Some l;
}.

(** A text for a tree. *)
Fixpoint toy_text (j : json) : bytes :=
  match j with
  | JNull => bs "n"
  | JBool b => if b : bool then bs "true" else bs "false"
  | JInt z => Int64.to_string z
  | JFloat f => Float64.to_string f
  | JStr s => "'"%byte :: s
  | JArr l => bs "[" ++ concat ((λ x, toy_text x ++ bs ",") <$> l) ++ bs "]"
  | JObj m => bs "{" ++ concat ((λ x, x.1 ++ bs ":" ++ toy_text x.2 ++ bs ",") <$> m) ++ bs "}"
  end.

(** Values as their own text; a text is a value when it starts with a brace, a bracket or a
    quotation mark. *)
#[global] Instance toy_json : JsonValueOps := {
  json_value := bytes;
  json_shape_of v := match v with
                     | "n"%byte :: _ => JsonNull
                     | "'"%byte :: s => JsonString s
                     | _ => JsonOther
                     end;
  json_from_slice l := match l with ("{" | "[" | "'")%byte :: _ => Some l | _ => None end;
  json_to_vec v := Some v;
  json_i64 := Int64.to_string;
  json_from_f64 f := if Float64.is_finite f then Some (Float64.to_string f) else None;
  json_string s := "'"%byte :: s;
  json_u8 b := Int64.to_string (byte_Z b);
  json_array l := bs "[" ++ (l ≫= λ v, v ++ bs ",") ++ bs "]";
  json_of_tree := toy_text;
}.
