(* ===== verification/HttpBuckets.v ===== *)
(** * [keydock-http/src/routes/buckets.rs]: bucket handlers

    Creation, listing (negotiation, scoping, rendering), the policy patch, deletion and the
    public policy view. *)

From Stdlib Require Import Strings.Byte.
From S2P Require Import Prelude RustStd TimeLib Domain Counter Ports Codec Auth KeyService HttpBase HttpRoutes.
Import Http.

Module Buckets.

Definition DEFAULT_BUCKET_TTL_SECS : N := 604800.

Definition public_policy_view (policy : BucketPolicy) : BucketPolicyPublic :=
  let presence := presence_of policy in {|
    pub_default_ttl := default_ttl_secs policy;
    pub_has_secret_key := has_secret_key presence;
    pub_has_read_key := has_read_key presence;
    pub_has_write_key := has_write_key presence;
    pub_has_signing_key := is_some (signing_key policy);
    pub_signing_key_generation := signing_key_generation policy;
    pub_anonymous_access := anonymous_access policy;
  |}.

Record CreateBucketForm : Type := mkCreateForm {
  f_email : bytes;
  f_secret_key : option bytes;
  f_read_key : option bytes;
  f_write_key : option bytes;
  f_signing_key : option bytes;
  f_default_ttl : option N;
}.

(** Outer [option]: present or absent; inner: value or [null]. *)
Record UpdatePolicyJson : Type := mkPatch {
  p_secret_key : option (option bytes);
  p_read_key : option (option bytes);
  p_write_key : option (option bytes);
  p_signing_key : option (option bytes);
  p_default_ttl : option (option N);
}.

Definition empty_patch : UpdatePolicyJson := mkPatch None None None None None.

Record ListBucketParams : Type := mkListParams {
  q_prefix : option bytes;
  q_limit : option N;
  q_skip : option N;
  q_reverse : option bool;
  q_values : option bool;
  q_format : option bytes;
}.

Inductive ListFormat : Type := Text | Json | Jsonl.

#[global] Instance ListFormat_eq_dec : EqDecision ListFormat.
Proof. solve_decision. Defined.

Definition none_if_empty (s : option bytes) : option bytes :=
  v ← s; if bool_decide (v = []) then None else Some v.

Definition recompute_anonymous_access (policy : BucketPolicy) : Permission :=
  let presence := presence_of policy in
  Permission.anonymous_from_keys (has_secret_key presence) (has_read_key presence)
    (has_write_key presence).

Definition combine_scoped_prefix (scope : bytes) (requested : option bytes) : option bytes :=
  match requested with
  | None => Some scope
  | Some req =>
    if starts_with req scope then Some req
    else if starts_with scope req then Some scope
    else None
  end.

(** *** Rendering *)

Definition key_to_json_string (key : Key) : bytes := Utf8.from_utf8_lossy (as_bytes key).

Definition LF : byte := "010"%byte.
Definition CR : byte := "013"%byte.

Definition escape_text_segment (s : bytes) : bytes :=
  (s ≫= λ b, if decide (b = LF) then bs "\n" else [b])
    ≫= λ b, if decide (b = CR) then bs "\r" else [b].

Definition is_minimally_valid_email (raw : bytes) : bool :=
  let trimmed := Utf8.trim raw in
  if bool_decide (trimmed = []) then false
  else match split_once "@"%byte trimmed with
       | None => false
       | Some (local, domain) =>
         if bool_decide (local = []) || contains domain (bs "@") then false
         else if negb (contains domain (bs ".")) || starts_with domain (bs ".")
                 || ends_with domain (bs ".") then false
         else true
       end.

Definition list_content_type (fmt : ListFormat) : bytes :=
  match fmt with
  | Text => bs "text/plain; charset=utf-8"
  | Json => bs "application/json"
  | Jsonl => bs "application/x-ndjson"
  end.

Section Wire.
Context {W : WireOps}.

Definition resolve_list_format (params : ListBucketParams) (headers : Headers)
  : result ListFormat Response :=
  match q_format params with
  | Some f =>
    let f := to_ascii_lowercase f in
    if bool_decide (f = bs "text") then Ok Text
    else if bool_decide (f = bs "json") then Ok Json
    else if bool_decide (f = bs "jsonl") then Ok Jsonl
    else Err not_acceptable
  | None =>
    match h_accept headers ≫= header_to_str with
    | Some accept =>
      if contains accept (bs "application/json") then Ok Json
      else if contains accept (bs "application/x-ndjson") || contains accept (bs "application/ndjson")
      then Ok Jsonl
      else if contains accept (bs "text/plain") then Ok Text
      else Ok Text
    | None => Ok Text
    end
  end.

End Wire.

Section Rendering.
Context {JV : JsonValueOps}.

(** The text of a payload, or an internal error. *)
Definition utf8_or_fail (l : bytes) : result bytes Response :=
  if Utf8.from_utf8 l then Ok l else Err internal_error.

Definition stored_value_to_json (v : StoredValue) : result json_value Response :=
  match kind v with
  | Value.Json => ok_or internal_error (json_from_slice (payload v))
  | Value.Int64 =>
    let? s := utf8_or_fail (payload v) in
    let? n := ok_or internal_error (Int64.parse (Utf8.trim s)) in
    Ok (json_i64 n)
  | Value.Float64 =>
    let? s := utf8_or_fail (payload v) in
    let? n := ok_or internal_error (Float64.parse (Utf8.trim s)) in
    ok_or internal_error (json_from_f64 n)
  | Value.Utf8 =>
    let? s := utf8_or_fail (payload v) in
    Ok (json_string s)
  | Value.Raw => Ok (json_array (json_u8 <$> payload v))
  end.

(** One line of the text format. *)
Definition render_text_row (include_values : bool) (row : ListEntry) : result bytes Response :=
  let esc_key := escape_text_segment (key_to_json_string (le_key row)) in
  if include_values then
    let? v := ok_or internal_error (le_value row) in
    let esc_val := escape_text_segment (Utf8.from_utf8_lossy (payload v)) in
    Ok (esc_key ++ bs "=" ++ esc_val)
  else Ok esc_key.

(** The loop [for (i, row) in entries.iter().enumerate()]; [first] is [i = 0]. *)
Fixpoint render_text_rows (include_values first : bool) (entries : list ListEntry) (out : bytes)
  : result bytes Response :=
  match entries with
  | [] => Ok out
  | row :: entries' =>
    let out := if first then out else out ++ [LF] in
    let? line := render_text_row include_values row in
    render_text_rows include_values false entries' (out ++ line)
  end.

Definition render_list_text (entries : list ListEntry) (include_values : bool)
  : result bytes Response := render_text_rows include_values true entries [].

(** A row as [json!([k, v])]. *)
Definition json_row (row : ListEntry) : result json_value Response :=
  let k := key_to_json_string (le_key row) in
  let? v := ok_or internal_error (le_value row) in
  let? jv := stored_value_to_json v in
  Ok (json_array [json_string k; jv]).

Fixpoint json_rows (entries : list ListEntry) : result (list json_value) Response :=
  match entries with
  | [] => Ok []
  | row :: entries' => let? r := json_row row in let? rs := json_rows entries' in Ok (r :: rs)
  end.

Definition render_list_json (entries : list ListEntry) (include_values : bool)
  : result bytes Response :=
  let? v := if include_values
            then let? rows := json_rows entries in Ok (json_array rows)
            else Ok (json_array ((λ r, json_string (key_to_json_string (le_key r))) <$> entries)) in
  ok_or internal_error (json_to_vec v).

Fixpoint render_list_jsonl (entries : list ListEntry) (include_values : bool)
  : result bytes Response :=
  match entries with
  | [] => Ok []
  | row :: entries' =>
    let? line := if include_values then json_row row
                 else Ok (json_string (key_to_json_string (le_key row))) in
    let? chunk := ok_or internal_error (json_to_vec line) in
    let? rest := render_list_jsonl entries' include_values in
    Ok (chunk ++ LF :: rest)
  end.

Definition render_list_body (fmt : ListFormat) (entries : list ListEntry) (include_values : bool)
  : result bytes Response :=
  match fmt with
  | Text => render_list_text entries include_values
  | Json => render_list_json entries include_values
  | Jsonl => render_list_jsonl entries include_values
  end.

End Rendering.

(** *** The policy patch *)

Section Policy.
Context {C : CryptoOps}.

Definition hash_api_key_or_fail (root_key : SigningKey) (raw : bytes) : result bytes Response :=
  map_err (λ _, internal_error) (Auth.hash_credential raw root_key).

Definition apply_nullable_hash (value : option bytes) (root_key : SigningKey)
  : result (option bytes) Response :=
  match value with
  | None => Ok None
  | Some s =>
    if bool_decide (s = []) then Err bad_request
    else let? h := hash_api_key_or_fail root_key s in Ok (Some h)
  end.

Record PolicyPatchAudit : Type := mkAudit {
  secret_key_rotated : bool;
  read_key_changed : bool;
  write_key_changed : bool;
  signing_key_changed : bool;
  signing_key_cleared : bool;
  default_ttl_changed : bool;
}.

(** The hash a nullable key field leaves: unchanged when the field is absent. *)
Definition patch_hash (root_key : SigningKey) (field : option (option bytes)) (old : option bytes)
  : result (option bytes) Response :=
  match field with
  | Some inner => apply_nullable_hash inner root_key
  | None => Ok old
  end.

Definition patch_secret (root_key : SigningKey) (field : option (option bytes)) (old : option bytes)
  : result (option bytes) Response :=
  match field with
  | Some inner =>
    let? s := ok_or bad_request inner in
    if bool_decide (s = []) then Err bad_request
    else let? h := hash_api_key_or_fail root_key s in Ok (Some h)
  | None => Ok old
  end.

(** New signing key, generation and the two audit flags. The counter is a [u64]; the release
    build wraps. *)
Definition patch_signing (field : option (option bytes)) (old : option SigningKey) (generation : N)
  : result (option SigningKey * N * bool * bool) Response :=
  match field with
  | Some inner =>
    let? new_bytes :=
      match inner with
      | None => Ok None
      | Some s => if bool_decide (s = []) then Err bad_request else Ok (Some s)
      end in
    let current_bytes := expose_secret <$> old in
    let changed := bool_decide (current_bytes ≠ new_bytes) in
    let generation' := if changed then ((generation + 1) mod 2 ^ 64)%N else generation in
    Ok (mkSigningKey <$> new_bytes, generation', changed, bool_decide (new_bytes = None))
  | None => Ok (old, generation, false, false)
  end.

Definition apply_policy_patch (policy : BucketPolicy) (patch : UpdatePolicyJson)
    (root_key : SigningKey) : result (BucketPolicy * PolicyPatchAudit) Response :=
  let? secret := patch_secret root_key (p_secret_key patch) (secret_key_hash policy) in
  let? read := patch_hash root_key (p_read_key patch) (read_key_hash policy) in
  let? write := patch_hash root_key (p_write_key patch) (write_key_hash policy) in
  let? sig := patch_signing (p_signing_key patch) (signing_key policy)
                (signing_key_generation policy) in
  let '(key, generation, changed, cleared) := sig in
  let ttl := match p_default_ttl patch with Some inner => inner | None => default_ttl_secs policy end in
  Ok ({| default_ttl_secs := ttl;
         anonymous_access := anonymous_access policy;
         secret_key_hash := secret;
         read_key_hash := read;
         write_key_hash := write;
         signing_key := key;
         signing_key_generation := generation |},
      {| secret_key_rotated := is_some (p_secret_key patch);
         read_key_changed := is_some (p_read_key patch);
         write_key_changed := is_some (p_write_key patch);
         signing_key_changed := changed;
         signing_key_cleared := cleared;
         default_ttl_changed := is_some (p_default_ttl patch) |}).

Definition with_anonymous_access (p : BucketPolicy) (a : Permission) : BucketPolicy := {|
  default_ttl_secs := default_ttl_secs p;
  anonymous_access := a;
  secret_key_hash := secret_key_hash p;
  read_key_hash := read_key_hash p;
  write_key_hash := write_key_hash p;
  signing_key := signing_key p;
  signing_key_generation := signing_key_generation p;
|}.

End Policy.

(** *** The handlers *)

Section Handlers.
Context {T : TimeOps} {JS : JsonOps} {JV : JsonValueOps} {W : WireOps} {C : CryptoOps}.
Context {S : Type} {BR : BucketRepository S} {KR : KeyRepository S}.

Abbreviation handler := (comp S Response Response).

Definition text_plain : bytes := bs "text/plain; charset=utf-8".

(** Hashing an optional key. *)
Definition hash_opt (root_key : SigningKey) (raw : option bytes) : result (option bytes) Response :=
  match raw with
  | Some s => let? h := hash_api_key_or_fail root_key s in Ok (Some h)
  | None => Ok None
  end.

(** The policy of a new bucket. *)
Definition new_policy (root_key : SigningKey) (form : CreateBucketForm) : result BucketPolicy Response :=
  let secret_key := none_if_empty (f_secret_key form) in
  let read_key := none_if_empty (f_read_key form) in
  let write_key := none_if_empty (f_write_key form) in
  let signing_key := none_if_empty (f_signing_key form) in
  let anonymous_access :=
    Permission.anonymous_from_keys (is_some secret_key) (is_some read_key) (is_some write_key) in
  let? secret_key_hash := hash_opt root_key secret_key in
  let? read_key_hash := hash_opt root_key read_key in
  let? write_key_hash := hash_opt root_key write_key in
  let default_ttl_secs := Some (default DEFAULT_BUCKET_TTL_SECS (f_default_ttl form)) in
  Ok {| default_ttl_secs := default_ttl_secs;
        anonymous_access := anonymous_access;
        secret_key_hash := secret_key_hash;
        read_key_hash := read_key_hash;
        write_key_hash := write_key_hash;
        signing_key := mkSigningKey <$> signing_key;
        signing_key_generation := 0 |}.

(** [uuid] is the text of the fresh UUID; an empty one would panic ([expect]). *)
Definition create_bucket (root_key : SigningKey) (uuid : bytes) (form : CreateBucketForm) : handler :=
  if negb (is_minimally_valid_email (f_email form)) then comp_err bad_request
  else
    let! policy := comp_lift (new_policy root_key form) in
    match Bucket.new uuid with
    | Err _ => λ s, (Panic, s)
    | Ok id =>
      let! _ := spawn_usecase (Ports.create_bucket id policy) in
      comp_ret (mkResponse 200 (Raw text_plain (Bucket.as_str id)))
    end.

(** The prefix passed to the repository; [None] when the token scope and the query exclude each
    other. *)
Definition prefix_for_repo (auth : BucketAuth) (params : ListBucketParams) : option (option bytes) :=
  match identity auth with
  | Auth.Scoped _ key_prefix =>
    if bool_decide (key_prefix = []) then Some (q_prefix params)
    else Some <$> combine_scoped_prefix key_prefix (q_prefix params)
  | _ => Some (q_prefix params)
  end.

Definition list_bucket (now : OffsetDateTime) (auth : BucketAuth) (params : ListBucketParams)
    (headers : Headers) : handler :=
  let! _ := comp_lift (require_enumerate auth) in
  let! fmt := comp_lift (resolve_list_format params headers) in
  let include_values := default false (q_values params) in
  match prefix_for_repo auth params with
  | None =>
    let! body := comp_lift (render_list_body fmt [] include_values) in
    comp_ret (mkResponse 200 (Raw (list_content_type fmt) body))
  | Some prefix =>
    let input := KeyService.mkListInput prefix (q_limit params) (q_skip params) (q_reverse params)
                   (Some include_values) in
    let! entries := spawn_usecase (KeyService.list now (bucket_id auth) input) in
    let! body := comp_lift (render_list_body fmt entries include_values) in
    comp_ret (mkResponse 200 (Raw (list_content_type fmt) body))
  end.

(** [parsed] is the outcome of [serde_json::from_slice::<UpdatePolicyJson>] on a non-empty body. *)
Definition update_policy (root_key : SigningKey) (auth : BucketAuth) (body : bytes)
    (parsed : option UpdatePolicyJson) : handler :=
  let! _ := comp_lift (require_admin auth) in
  let! patch := comp_lift (if bool_decide (body = []) then Ok empty_patch
                           else ok_or bad_request parsed) in
  let! found := spawn_usecase (get_policy (bucket_id auth)) in
  let! policy := comp_lift (ok_or not_found found) in
  let! patched := comp_lift (apply_policy_patch policy patch root_key) in
  let policy := with_anonymous_access patched.1 (recompute_anonymous_access patched.1) in
  let! _ := spawn_usecase (Ports.create_bucket (bucket_id auth) policy) in
  comp_ret (mkResponse 204 NoBody).

Definition delete_bucket (auth : BucketAuth) : handler :=
  let! _ := comp_lift (require_admin auth) in
  let! _ := spawn_usecase (Ports.delete_bucket (bucket_id auth)) in
  comp_ret (mkResponse 204 NoBody).

Definition get_bucket_policy (auth : BucketAuth) : handler :=
  let! _ := comp_lift (require_admin auth) in
  let! found := spawn_usecase (get_policy (bucket_id auth)) in
  let! policy := comp_lift (ok_or not_found found) in
  comp_ret (mkResponse 200 (PolicyBody (public_policy_view policy))).

Definition head_bucket (auth : BucketAuth) : handler :=
  let! _ := comp_lift (require_admin auth) in
  comp_ret (mkResponse 200 NoBody).

End Handlers.

End Buckets.
