(* ===== verification/Bodies.v ===== *)
(** * The JSON bodies of [routes/txn.rs] and [routes/buckets.rs]

    The deserializers of [TxnRequest], [TxnItem] (untagged), [TxnSet], [TxnDelete] and
    [UpdatePolicyJson], as their structs and [serde] attributes declare them, over the trees of
    [Serde]; and which bodies they accept. *)

From Stdlib Require Import Strings.Byte.
From S2P Require Import Prelude RustStd TimeLib Domain Counter Ports Codec Auth KeyService HttpBase Serde HttpRoutes HttpBuckets.
Import Http Serde.

Module Bodies.

Section Bodies.
Context {JV : JsonValueOps}.

(** ** [routes/txn.rs] *)

Definition TXN_SET_FIELDS : list bytes := [bs "set"; bs "value"; bs "ttl"].
Definition TXN_DELETE_FIELDS : list bytes := [bs "delete"].

(** [JsonValue]: any tree. *)
Definition value_of (j : json) : option json_value := Some (json_of_tree j).

(** [TxnSet], with [deny_unknown_fields]. *)
Definition TxnSet_deserialize (j : json) : option Txn.TxnItem :=
  match j with
  | JObj m =>
    if known TXN_SET_FIELDS m then
      set ← required string_of (bs "set") m;
      value ← required value_of (bs "value") m;
      ttl ← defaulted (option_of u64_of) None (bs "ttl") m;
      Some (Txn.ItemSet set value ttl)
    else None
  | JArr (set :: value :: rest) =>
    if bool_decide (length rest <= 1)%nat then
      set ← string_of set;
      value ← value_of value;
      ttl ← element (option_of u64_of) None 0 rest;
      Some (Txn.ItemSet set value ttl)
    else None
  | _ => None
  end.

(** [TxnDelete], with [deny_unknown_fields]. *)
Definition TxnDelete_deserialize (j : json) : option Txn.TxnItem :=
  match j with
  | JObj m =>
    if known TXN_DELETE_FIELDS m then Txn.ItemDelete <$> required string_of (bs "delete") m else None
  | JArr [delete] => Txn.ItemDelete <$> string_of delete
  | _ => None
  end.

(** [TxnItem], untagged: the first variant that fits. *)
Definition TxnItem_deserialize (j : json) : option Txn.TxnItem :=
  match TxnSet_deserialize j with Some item => Some item | None => TxnDelete_deserialize j end.

(** [TxnRequest]: other members are ignored. *)
Definition TxnRequest_deserialize (j : json) : option (list Txn.TxnItem) :=
  match j with
  | JObj m => required (vec_of TxnItem_deserialize) (bs "txn") m
  | JArr [txn] => vec_of TxnItem_deserialize txn
  | _ => None
  end.

(** ** [routes/buckets.rs] *)

Definition UPDATE_POLICY_FIELDS : list bytes :=
  [bs "secret_key"; bs "read_key"; bs "write_key"; bs "signing_key"; bs "default_ttl"].

(** The helper of the fields: present, whatever it says. *)
Definition deserialize_double_option {A} (dec : json → option A) (j : json) : option (option A) :=
  Some <$> dec j.

(** [Option<Option<String>>] and [Option<Option<u64>>] through it. *)
Definition nullable_string (j : json) : option (option (option bytes)) :=
  deserialize_double_option (option_of string_of) j.
Definition nullable_u64 (j : json) : option (option (option N)) :=
  deserialize_double_option (option_of u64_of) j.

(** [UpdatePolicyJson], with [deny_unknown_fields]. *)
Definition UpdatePolicyJson_deserialize (j : json) : option Buckets.UpdatePolicyJson :=
  match j with
  | JObj m =>
    if known UPDATE_POLICY_FIELDS m then
      secret_key ← defaulted nullable_string None (bs "secret_key") m;
      read_key ← defaulted nullable_string None (bs "read_key") m;
      write_key ← defaulted nullable_string None (bs "write_key") m;
      signing_key ← defaulted nullable_string None (bs "signing_key") m;
      default_ttl ← defaulted nullable_u64 None (bs "default_ttl") m;
      Some (Buckets.mkPatch secret_key read_key write_key signing_key default_ttl)
    else None
  | JArr l =>
    if bool_decide (length l <= length UPDATE_POLICY_FIELDS)%nat then
      secret_key ← element nullable_string None 0 l;
      read_key ← element nullable_string None 1 l;
      write_key ← element nullable_string None 2 l;
      signing_key ← element nullable_string None 3 l;
      default_ttl ← element nullable_u64 None 4 l;
      Some (Buckets.mkPatch secret_key read_key write_key signing_key default_ttl)
    else None
  | _ => None
  end.

(** ** Which bodies are accepted *)

(** A [set] operation: exactly a [set] text and a [value], and at most a [ttl]. *)
Definition set_of (j : json) (k : bytes) (v : json_value) (ttl : option N) : Prop :=
  ∃ m jv, as_members TXN_SET_FIELDS j = Some m ∧ v = json_of_tree jv
    ∧ (m ≡ₚ [(bs "set", JStr k); (bs "value", jv)] ∧ ttl = None
       ∨ ∃ jt, m ≡ₚ [(bs "set", JStr k); (bs "value", jv); (bs "ttl", jt)]
               ∧ option_of u64_of jt = Some ttl).

(** A [delete] operation: exactly a [delete] text. *)
Definition delete_of (j : json) (k : bytes) : Prop :=
  as_members TXN_DELETE_FIELDS j = Some [(bs "delete", JStr k)].

Definition item_of (j : json) (item : Txn.TxnItem) : Prop :=
  match item with
  | Txn.ItemSet k v ttl => set_of j k v ttl
  | Txn.ItemDelete k => delete_of j k
  end.

(** An array stands for the object of its elements. *)
Lemma set_array l :
  TxnSet_deserialize (JArr l)
  = match as_members TXN_SET_FIELDS (JArr l) with Some m => TxnSet_deserialize (JObj m) | None => None end.
Proof.
  destruct l as [|a [|b [|c [|d l]]]]; try reflexivity;
    rewrite as_members_short by (simpl; lia); unfold TxnSet_deserialize, required, defaulted; lookups.
  simpl. by destruct (string_of a).
Qed.

Lemma delete_array l :
  TxnDelete_deserialize (JArr l)
  = match as_members TXN_DELETE_FIELDS (JArr l) with Some m => TxnDelete_deserialize (JObj m) | None => None end.
Proof.
  destruct l as [|a [|b l]]; try reflexivity;
    rewrite as_members_short by (simpl; lia); unfold TxnDelete_deserialize, required; lookups.
Qed.

Lemma patch_array l :
  UpdatePolicyJson_deserialize (JArr l)
  = match as_members UPDATE_POLICY_FIELDS (JArr l) with
    | Some m => UpdatePolicyJson_deserialize (JObj m)
    | None => None
    end.
Proof.
  destruct l as [|a [|b [|c [|d [|e [|f l]]]]]]; try reflexivity;
    rewrite as_members_short by (simpl; lia); unfold UpdatePolicyJson_deserialize, defaulted; lookups.
Qed.

Lemma set_object m k v ttl :
  TxnSet_deserialize (JObj m) = Some (Txn.ItemSet k v ttl) ↔ set_of (JObj m) k v ttl.
Proof.
  unfold set_of. cbn [as_members]. split.
  - cbn [TxnSet_deserialize]. destruct (known TXN_SET_FIELDS m) eqn:Hk; [|done]. intros Hd.
    apply bind_Some in Hd as (k' & Hs & Hd). apply bind_Some in Hd as (v' & Hv & Hd).
    apply bind_Some in Hd as (t & Ht & [= -> -> ->]).
    apply required_once in Hs as (js & Hs & Ek). apply required_once in Hv as (jv & Hv & [= <-]).
    destruct js; simplify_eq/=.
    assert (NoDup m.*1) as Hnd.
    { apply (known_once _ _ Hk). intros n Hn. unfold TXN_SET_FIELDS in Hn.
      rewrite !elem_of_cons, elem_of_nil in Hn. destruct Hn as [->|[->|[->|[]]]]; [congruence..|].
      by eapply defaulted_twice. }
    exists m, jv. split; [done|]. split; [done|]. unfold defaulted in Ht.
    assert (∀ m', (∀ n, n ∈ TXN_SET_FIELDS → find_member n m = find_member n m') → NoDup m'.*1 →
      m'.*1 ⊆ TXN_SET_FIELDS → m ≡ₚ m') as Hperm.
    { intros m' Hf Hn' Hs'. apply (members_exact TXN_SET_FIELDS); try done. by apply known_subset. }
    destruct (find_member (bs "ttl") m) as [|jt|] eqn:Et; [| |done].
    + injection Ht as <-. left. split; [|done]. apply Hperm.
      * intros n Hn. unfold TXN_SET_FIELDS in Hn. rewrite !elem_of_cons, elem_of_nil in Hn.
        destruct Hn as [->|[->|[->|[]]]]; [rewrite Hs|rewrite Hv|rewrite Et]; lookups.
      * apply (bool_decide_eq_true_1 _). vm_refl.
      * apply (bool_decide_eq_true_1 _). vm_refl.
    + right. exists jt. split; [|done]. apply Hperm.
      * intros n Hn. unfold TXN_SET_FIELDS in Hn. rewrite !elem_of_cons, elem_of_nil in Hn.
        destruct Hn as [->|[->|[->|[]]]]; [rewrite Hs|rewrite Hv|rewrite Et]; lookups.
      * apply (bool_decide_eq_true_1 _). vm_refl.
      * apply (bool_decide_eq_true_1 _). vm_refl.
  - intros (m' & jv & [= <-] & -> & Hshape).
    assert (∃ m', m ≡ₚ m' ∧ NoDup m'.*1 ∧ TxnSet_deserialize (JObj m') = Some (Txn.ItemSet k (json_of_tree jv) ttl))
      as (m' & Hp & Hnd & <-).
    { destruct Hshape as [[Hp ->]|(jt & Hp & Hjt)]; eexists; (split; [exact Hp|]);
        (split; [apply (bool_decide_eq_true_1 _); vm_refl|]); [lookups|].
      transitivity (ttl ← option_of u64_of jt; Some (Txn.ItemSet k (json_of_tree jv) ttl)); [lookups|by rewrite Hjt]. }
    assert (NoDup m.*1) as Hnd' by (by rewrite Hp).
    unfold TxnSet_deserialize, required, defaulted. rewrite !(find_perm _ _ _ Hp Hnd').
    assert (known TXN_SET_FIELDS m = known TXN_SET_FIELDS m') as ->; [|done].
    apply eq_true_iff_eq. rewrite !known_subset. by rewrite Hp.
Qed.

Lemma set_exact j k v ttl : TxnSet_deserialize j = Some (Txn.ItemSet k v ttl) ↔ set_of j k v ttl.
Proof.
  destruct j as [| | | | |l|m]; try (by split; [|intros (m & jv & ? & _)]); [|apply set_object].
  rewrite set_array. unfold set_of. destruct (as_members TXN_SET_FIELDS (JArr l)) as [m|].
  - apply set_object.
  - split; [done|]. by intros (m & jv & ? & _).
Qed.

Lemma set_only_set j item : TxnSet_deserialize j = Some item → ∃ k v ttl, item = Txn.ItemSet k v ttl.
Proof.
  destruct j as [| | | | |[|a [|b l]]|m]; simpl; try done.
  - case_bool_decide; [|done]. intros (k & _ & (t & _ & [= <-])%bind_Some)%bind_Some. eauto.
  - destruct (known _ m); [|done]. intros (k & _ & (v & _ & (t & _ & [= <-])%bind_Some)%bind_Some)%bind_Some. eauto.
Qed.

Lemma delete_object m k :
  TxnDelete_deserialize (JObj m) = Some (Txn.ItemDelete k) ↔ m = [(bs "delete", JStr k)].
Proof.
  cbn [TxnDelete_deserialize]. split; [|intros ->; by lookups].
  destruct (known TXN_DELETE_FIELDS m) eqn:Hk; [|done]. intros Hd.
  destruct (required string_of (bs "delete") m) as [k'|] eqn:Hr; simplify_eq/=.
  apply required_once in Hr as (j & Hf & Hj). destruct j; simplify_eq/=. apply Permutation_singleton_r.
  apply (members_exact TXN_DELETE_FIELDS).
  - apply (known_once _ _ Hk). intros n Hn. apply list_elem_of_singleton in Hn as ->. congruence.
  - apply (bool_decide_eq_true_1 _). vm_refl.
  - by apply known_subset.
  - apply (bool_decide_eq_true_1 _). vm_refl.
  - intros n Hn. apply list_elem_of_singleton in Hn as ->. rewrite Hf. by lookups.
Qed.

Lemma delete_exact j k : TxnDelete_deserialize j = Some (Txn.ItemDelete k) ↔ delete_of j k.
Proof.
  unfold delete_of. destruct j as [| | | | |l|m]; try done.
  - rewrite delete_array. destruct (as_members TXN_DELETE_FIELDS (JArr l)) as [m|]; [|done].
    rewrite delete_object. naive_solver.
  - rewrite delete_object. cbn [as_members]. naive_solver.
Qed.

(** A [delete] operation is not a [set] operation. *)
Lemma delete_not_set j k : delete_of j k → TxnSet_deserialize j = None.
Proof.
  unfold delete_of. destruct j as [| | | | |[|a [|b l]]|m]; try done.
  cbn [as_members]. intros [= ->]. unfold TxnSet_deserialize. by lookups.
Qed.

Lemma item_exact j item : TxnItem_deserialize j = Some item ↔ item_of j item.
Proof.
  unfold TxnItem_deserialize. destruct item as [k v ttl|k]; simpl.
  - rewrite <- set_exact. destruct (TxnSet_deserialize j) as [i|] eqn:Es; [done|]. split; [|done].
    destruct j as [| | | | |[|a [|]]|m]; simpl; try done.
    + by destruct (string_of a).
    + destruct (known _ m); [|done]. by destruct (required _ _ m).
  - rewrite <- delete_exact. split.
    + destruct (TxnSet_deserialize j) as [i|] eqn:Es; [|done].
      destruct (set_only_set _ _ Es) as (k' & v & ttl & ->). done.
    + intros Hd. by rewrite (delete_not_set j k) by (by apply delete_exact).
Qed.

(** The operations of a request: the one [txn] member of an object, or the one element of an
    array. *)
Definition operations_of (j : json) (l : list json) : Prop :=
  j = JArr [JArr l] ∨ ∃ m, j = JObj m ∧ find_member (bs "txn") m = Once (JArr l).

Lemma request_exact j items :
  TxnRequest_deserialize j = Some items ↔ ∃ l, operations_of j l ∧ Forall2 item_of l items.
Proof.
  assert (∀ x, vec_of TxnItem_deserialize x = Some items ↔ ∃ l, x = JArr l ∧ Forall2 item_of l items) as Hvec.
  { intros x. rewrite vec_of_exact. f_equiv. intros l. f_equiv.
    split; apply Forall2_impl; intros a b; apply item_exact. }
  unfold operations_of. destruct j as [| | | | |l|m]; try (split; [done|naive_solver]).
  - destruct l as [|x [|y l]]; [split; [done|naive_solver]| |split; [done|naive_solver]].
    simpl. rewrite Hvec. naive_solver.
  - simpl. rewrite required_once. split.
    + intros (x & Hf & Hx). apply Hvec in Hx as (l & -> & Hl). exists l. split; [right; by exists m|done].
    + intros (l & [?|(m' & [= <-] & Hf)] & Hl); [done|]. exists (JArr l). split; [done|]. apply Hvec. eauto.
Qed.

(** ** Policy patches *)

(** What a patch document says of each field, and that it says nothing else. *)
Definition patch_says (j : json) (p : Buckets.UpdatePolicyJson) : Prop :=
  ∃ m, as_members UPDATE_POLICY_FIELDS j = Some m ∧ NoDup m.*1 ∧ m.*1 ⊆ UPDATE_POLICY_FIELDS
    ∧ says string_of (bs "secret_key") m (Buckets.p_secret_key p)
    ∧ says string_of (bs "read_key") m (Buckets.p_read_key p)
    ∧ says string_of (bs "write_key") m (Buckets.p_write_key p)
    ∧ says string_of (bs "signing_key") m (Buckets.p_signing_key p)
    ∧ says u64_of (bs "default_ttl") m (Buckets.p_default_ttl p).

Lemma nullable_says name m v : NoDup m.*1 →
  defaulted nullable_string None name m = Some v ↔ says string_of name m v.
Proof. by apply (defaulted_says string_of). Qed.

Lemma nullable_u64_says name m v : NoDup m.*1 →
  defaulted nullable_u64 None name m = Some v ↔ says u64_of name m v.
Proof. by apply (defaulted_says u64_of). Qed.

Lemma patch_object m p : UpdatePolicyJson_deserialize (JObj m) = Some p ↔ patch_says (JObj m) p.
Proof.
  unfold patch_says. cbn [as_members]. split.
  - cbn [UpdatePolicyJson_deserialize]. destruct (known UPDATE_POLICY_FIELDS m) eqn:Hk; [|done]. intros Hd.
    apply bind_Some in Hd as (sk & Hs & Hd). apply bind_Some in Hd as (r & Hr & Hd).
    apply bind_Some in Hd as (w & Hw & Hd). apply bind_Some in Hd as (sg & Hsg & Hd).
    apply bind_Some in Hd as (t & Ht & [= <-]).
    assert (NoDup m.*1) as Hnd.
    { apply (known_once _ _ Hk). intros n Hn. unfold UPDATE_POLICY_FIELDS in Hn.
      rewrite !elem_of_cons, elem_of_nil in Hn.
      destruct Hn as [->|[->|[->|[->|[->|[]]]]]]; by eapply defaulted_twice. }
    exists m. split; [done|]. split; [done|]. split; [by apply known_subset|]. cbn.
    rewrite <- !nullable_says, <- nullable_u64_says by done. done.
  - intros (m' & [= <-] & Hnd & Hsub & H1 & H2 & H3 & H4 & H5).
    rewrite <- nullable_says in H1, H2, H3, H4 by done.
    apply (nullable_u64_says _ _ _ Hnd) in H5. cbn [UpdatePolicyJson_deserialize].
    rewrite (proj2 (known_subset _ _) Hsub), H1, H2, H3, H4, H5. by destruct p.
Qed.

Lemma patch_exact j p : UpdatePolicyJson_deserialize j = Some p ↔ patch_says j p.
Proof.
  destruct j as [| | | | |l|m]; try (by split; [|intros (m & ? & _)]); [|apply patch_object].
  rewrite patch_array. unfold patch_says. destruct (as_members UPDATE_POLICY_FIELDS (JArr l)) as [m|].
  - apply patch_object.
  - split; [done|]. by intros (m & ? & _).
Qed.

(** The numbers of a patch are [u64]. *)
Lemma UpdatePolicyJson_u64 j p t :
  UpdatePolicyJson_deserialize j = Some p → Buckets.p_default_ttl p = Some (Some t) → (t <= Usize.usize_max)%N.
Proof.
  intros (m & _ & _ & _ & _ & _ & _ & _ & Hs)%patch_exact Ht. rewrite Ht in Hs. destruct Hs as (j' & _ & Hj).
  destruct j'; simpl in Hj; try done. case_bool_decide; [|done]. injection Hj as <-.
  unfold Usize.usize_max. lia.
Qed.

End Bodies.

(** ** Response bodies *)

(** [#[derive(Serialize)]] writes the fields in their order. *)
Definition ErrorBody_serialize (code : N) (message : bytes) : json :=
  JObj [(bs "error", JObj [(bs "code", JInt (Z.of_N code)); (bs "message", JStr message)])].

Definition HealthResponse_serialize (h : HealthResponse) : json :=
  JObj [(bs "status", JStr (h_status h)); (bs "storage", JStr (h_storage h)); (bs "version", JStr (h_version h))].

Definition AnonymousAccessView_serialize (p : Permission) : json :=
  JObj [(bs "read", JBool (Permission.read p)); (bs "write", JBool (Permission.write p));
        (bs "enumerate", JBool (Permission.enumerate p)); (bs "delete", JBool (Permission.delete p))].

(** [default_ttl] has [skip_serializing_if = "Option::is_none"]. *)
Definition BucketPolicyPublic_serialize (p : BucketPolicyPublic) : json :=
  JObj (match pub_default_ttl p with Some t => [(bs "default_ttl", JInt (Z.of_N t))] | None => [] end
        ++ [(bs "has_secret_key", JBool (pub_has_secret_key p)); (bs "has_read_key", JBool (pub_has_read_key p));
            (bs "has_write_key", JBool (pub_has_write_key p)); (bs "has_signing_key", JBool (pub_has_signing_key p));
            (bs "signing_key_generation", JInt (Z.of_N (pub_signing_key_generation p)));
            (bs "anonymous_access", AnonymousAccessView_serialize (pub_anonymous_access p))]).

Definition AccessTokenResponse_serialize (access_token : bytes) : json :=
  JObj [(bs "access_token", JStr access_token)].

(** The document of a response, for the bodies that are JSON. *)
Definition body_document (b : Body) : option json :=
  match b with
  | NoBody | Raw _ _ => None
  | ErrorBody code message => Some (ErrorBody_serialize code message)
  | PolicyBody p => Some (BucketPolicyPublic_serialize p)
  | TokenBody access_token => Some (AccessTokenResponse_serialize access_token)
  | HealthBody h => Some (HealthResponse_serialize h)
  end.

(** Policies that differ only in their hashes and in the material of their signing key. *)
Definition same_but_secrets (p q : BucketPolicy) : Prop :=
  default_ttl_secs p = default_ttl_secs q ∧ presence_of p = presence_of q
  ∧ is_some (signing_key p) = is_some (signing_key q)
  ∧ signing_key_generation p = signing_key_generation q ∧ anonymous_access p = anonymous_access q.

End Bodies.

Import Bodies.

Section Theorems.
Context {JV : JsonValueOps}.

(** C29: Exactly the documented transactions are accepted. A body is read as a transaction iff it
    parses to an object with one [txn] member (others are ignored), or to an array of one element,
    holding an array whose every element is a [set] or a [delete] operation. A [set] has a [set]
    text and a [value], may have a [ttl] that is [null] or a 64-bit number, and nothing else; a
    [delete] has a [delete] text and nothing else; members come in any order and none twice, and
    an operation may also be an array of those values by position. Every other body is answered
    with 400, and changes nothing. *)
Theorem txn_bodies_exact {T : TimeOps} {JS : JsonOps} {W : WireOps} {S : Type} {KR : KeyRepository S}
    (tree : option json) (clock : nat → OffsetDateTime) (auth : BucketAuth) (s : S) :
  (∀ items, tree ≫= TxnRequest_deserialize = Some items ↔
     ∃ j l, tree = Some j ∧ operations_of j l ∧ Forall2 item_of l items)
  ∧ ((¬ ∃ j l items, tree = Some j ∧ operations_of j l ∧ Forall2 item_of l items) →
     Txn.execute_txn clock auth (tree ≫= TxnRequest_deserialize) s = (Ret (Err bad_request), s)).
Proof.
  assert (∀ items, tree ≫= TxnRequest_deserialize = Some items ↔
     ∃ j l, tree = Some j ∧ operations_of j l ∧ Forall2 item_of l items) as He.
  { intros items. rewrite bind_Some. f_equiv. intros j. rewrite request_exact. naive_solver. }
  split; [exact He|]. intros Hn. destruct (tree ≫= TxnRequest_deserialize) as [items|] eqn:E; [|done].
  destruct Hn. destruct (proj1 (He items) eq_refl) as (j & l & ?). by exists j, l, items.
Qed.

(** C30: A policy patch says of each field one of three things. The document must be an object with
    members among the five fields, none twice, or an array of up to five values by position. A
    field that is absent is left alone, [null] asks to clear it, a text (a 64-bit number for the
    default TTL) asks to set it; the patch the handler works with is exactly what the document
    says. For an administrator a non-empty body of any other shape is answered with 400 and changes
    nothing, and an empty body is the empty object; for anyone else every body is answered with 403
    and changes nothing. *)
Theorem patch_bodies_exact {T : TimeOps} {C : CryptoOps} {S : Type} {BR : BucketRepository S}
    (tree : option json) (rk : SigningKey) (auth : BucketAuth) (body : bytes) (s : S) :
  let parsed := tree ≫= UpdatePolicyJson_deserialize in
  (∀ p, parsed = Some p ↔ ∃ j, tree = Some j ∧ patch_says j p)
  ∧ (identity auth = Auth.Admin → body ≠ [] → (¬ ∃ j p, tree = Some j ∧ patch_says j p) →
     Buckets.update_policy rk auth body parsed s = (Ret (Err bad_request), s))
  ∧ (body ≠ [] → Buckets.update_policy rk auth [] parsed s
                 = Buckets.update_policy rk auth body (UpdatePolicyJson_deserialize (JObj [])) s)
  ∧ (identity auth ≠ Auth.Admin →
     Buckets.update_policy rk auth body parsed s = (Ret (Err forbidden), s)).
Proof.
  intros parsed. assert (∀ p, parsed = Some p ↔ ∃ j, tree = Some j ∧ patch_says j p) as He.
  { intros p. unfold parsed. rewrite bind_Some. f_equiv. intros j. by rewrite patch_exact. }
  clearbody parsed. split; [exact He|].
  unfold Buckets.update_policy, comp_bind, comp_lift, require_admin. split_and!.
  - intros Ha Hb Hn. rewrite Ha, bool_decide_false by done. destruct parsed as [p|]; [|done].
    destruct Hn. destruct (proj1 (He p) eq_refl) as (j & ?). by exists j, p.
  - intros Hb. by rewrite (bool_decide_false (body = [])) by done.
  - intros Ha. by destruct (identity auth).
Qed.

(** No secret leaves with a policy view. The answer to [GET] of a bucket does not depend on the
    credential hashes nor on the signing key, only on whether they are there. *)
Theorem policy_view_hides_secrets (p q : BucketPolicy) :
  same_but_secrets p q →
  body_document (PolicyBody (Buckets.public_policy_view p)) = body_document (PolicyBody (Buckets.public_policy_view q)).
Proof.
  intros (H1 & H2 & H3 & H4 & H5). unfold body_document, Buckets.public_policy_view.
  by rewrite H1, H2, H3, H4, H5.
Qed.

End Theorems.
