(* ===== verification/HttpProps.v ===== *)
(** * Properties of the HTTP layer

    Authorization, scoping, policy life cycle, token issue and the request/response round trip,
    for every repository with the stated contracts. *)

From Stdlib Require Import Strings.Byte.
From S2P Require Import Prelude RustStd TimeLib Domain Counter Ports Codec FjallLib Locks Store StoreSpec StoreList StoreRepo StoreProps KeyService KeyProps Auth HttpBase HttpRoutes HttpBuckets.
Import Http.

(** ** Lemmas *)

Section Lemmas.

Lemma prefix_comparable {A} (p q k : list A) :
  p `prefix_of` k → q `prefix_of` k → p `prefix_of` q ∨ q `prefix_of` p.
Proof.
  revert q k. induction p as [|a p IH]; intros q k Hp Hq; [left; apply prefix_nil|].
  destruct q as [|b q]; [right; apply prefix_nil|].
  destruct Hp as [r Hr]. destruct Hq as [r' Hr']. subst k. simpl in Hr'. injection Hr' as -> Hr'.
  destruct (IH q (p ++ r)) as [H|H]; [by exists r|by exists r'|left|right]; by apply prefix_cons.
Qed.

Lemma combine_scoped_prefix_spec scope req k :
  (∃ p, Buckets.combine_scoped_prefix scope req = Some p ∧ p `prefix_of` k)
  ↔ scope `prefix_of` k ∧ default [] req `prefix_of` k.
Proof.
  unfold Buckets.combine_scoped_prefix. destruct req as [req|]; simpl.
  - unfold starts_with. case_bool_decide as H1; [|case_bool_decide as H2].
    + split; [intros (p & [= <-] & Hp); split; [by trans req|done]|intros [_ ?]; eauto].
    + split; [intros (p & [= <-] & Hp); split; [done|by trans scope]|intros [? _]; eauto].
    + split; [by intros (p & ? & _)|]. intros [Ha Hb]. exfalso.
      destruct (prefix_comparable _ _ _ Ha Hb); done.
  - split; [intros (p & [= <-] & Hp); split; [done|apply prefix_nil]|intros [? _]; eauto].
Qed.

Context {C : CryptoOps} {CL : CryptoLaws C}.

Lemma hash_total rk raw :
  ∃ h, Buckets.hash_api_key_or_fail rk raw = Ok h ∧ Auth.is_hash rk raw (Some h).
Proof.
  unfold Buckets.hash_api_key_or_fail, Auth.hash_credential, Auth.is_hash.
  destruct (Tokens.hmac_sha256_ok (expose_secret rk) raw) as (h & -> & Hh). eauto.
Qed.

Lemma hash_opt_total rk o :
  ∃ h, Buckets.hash_opt rk o = Ok h ∧ is_some h = is_some o
       ∧ ∀ raw, o = Some raw → Auth.is_hash rk raw h.
Proof.
  destruct o as [raw|]; simpl; [|by exists None].
  destruct (hash_total rk raw) as (h & -> & Hh). simpl. exists (Some h).
  split; [done|]. split; [done|]. by intros ? [= <-].
Qed.

(** The fields of a new policy. *)
Lemma new_policy_ok rk form :
  ∃ p, Buckets.new_policy rk form = Ok p ∧ policy_consistent p
    ∧ signing_key_generation p = 0%N
    ∧ default_ttl_secs p = Some (default Buckets.DEFAULT_BUCKET_TTL_SECS (Buckets.f_default_ttl form))
    ∧ signing_key p = mkSigningKey <$> Buckets.none_if_empty (Buckets.f_signing_key form)
    ∧ (∀ raw, Buckets.none_if_empty (Buckets.f_secret_key form) = Some raw →
         Auth.is_hash rk raw (secret_key_hash p))
    ∧ (∀ raw, Buckets.none_if_empty (Buckets.f_read_key form) = Some raw →
         Auth.is_hash rk raw (read_key_hash p))
    ∧ (∀ raw, Buckets.none_if_empty (Buckets.f_write_key form) = Some raw →
         Auth.is_hash rk raw (write_key_hash p)).
Proof.
  unfold Buckets.new_policy.
  destruct (hash_opt_total rk (Buckets.none_if_empty (Buckets.f_secret_key form))) as (h1 & -> & E1 & H1).
  destruct (hash_opt_total rk (Buckets.none_if_empty (Buckets.f_read_key form))) as (h2 & -> & E2 & H2).
  destruct (hash_opt_total rk (Buckets.none_if_empty (Buckets.f_write_key form))) as (h3 & -> & E3 & H3).
  simpl. eexists. split; [reflexivity|]. simpl. unfold policy_consistent. simpl. rewrite E1, E2, E3.
  done.
Qed.

Lemma patch_secret_ok rk field old h :
  Buckets.patch_secret rk field old = Ok h →
  match field with
  | None => h = old
  | Some inner => ∃ s, inner = Some s ∧ s ≠ [] ∧ Auth.is_hash rk s h
  end.
Proof.
  unfold Buckets.patch_secret. destruct field as [[s|]|]; simpl; [|done|by intros [= <-]].
  case_bool_decide; [done|]. destruct (hash_total rk s) as (x & -> & Hx). simpl.
  intros [= <-]. eauto.
Qed.

Lemma patch_hash_ok rk field old h :
  Buckets.patch_hash rk field old = Ok h →
  match field with
  | None => h = old
  | Some None => h = None
  | Some (Some s) => s ≠ [] ∧ Auth.is_hash rk s h
  end.
Proof.
  unfold Buckets.patch_hash. destruct field as [[s|]|]; simpl; [|by intros [= <-]..].
  case_bool_decide; [done|]. destruct (hash_total rk s) as (x & -> & Hx). simpl.
  intros [= <-]. done.
Qed.

Lemma patch_signing_ok field old g key g' changed cleared :
  Buckets.patch_signing field old g = Ok (key, g', changed, cleared) →
  changed = bool_decide (old ≠ key) ∧ g' = (if changed then ((g + 1) mod 2 ^ 64)%N else g)
  ∧ match field with
    | None => key = old
    | Some None => key = None
    | Some (Some s) => s ≠ [] ∧ key = Some (mkSigningKey s)
    end.
Proof.
  unfold Buckets.patch_signing. destruct field as [inner|].
  - assert (∀ n : option bytes, bool_decide (expose_secret <$> old ≠ n)
      = bool_decide (old ≠ mkSigningKey <$> n)) as Hext.
    { intros n. apply bool_decide_ext. destruct old as [[o]|], n as [n|]; simpl; naive_solver. }
    destruct inner as [s|]; simpl.
    + case_bool_decide; [done|]. simpl. rewrite (Hext (Some s)). intros [= <- <- <- <-]. done.
    + rewrite (Hext None). intros [= <- <- <- <-]. done.
  - intros [= <- <- <- <-]. rewrite bool_decide_eq_false_2 by (intros Hn; by apply Hn). done.
Qed.

End Lemmas.

(** ** Theorems *)

(** C12: The guards decide exactly what the policy grants. For a policy whose anonymous
    permissions are those implied by its keys, each guard accepts iff the caller's permissions on
    that key include the capability: admins everything, key and token holders their permissions
    on keys under their prefix, anonymous callers the anonymous permissions of the policy; and
    only an admin passes [require_admin]. *)
Theorem guards_exact (a : BucketAuth) (p : BucketPolicy) (k : Key) :
  policy_consistent p → auth_of a p →
  is_ok (require_read_on a k) = Permission.read (granted p (identity a) k)
  ∧ is_ok (require_write_on a k) = Permission.write (granted p (identity a) k)
  ∧ is_ok (require_delete_on a k) = Permission.delete (granted p (identity a) k)
  ∧ is_ok (require_enumerate a) = Permission.enumerate (granted p (identity a) k)
  ∧ is_ok (require_admin a) = bool_decide (identity a = Auth.Admin).
Proof.
  intros Hc Ha. destruct (guards_granted a p k Hc Ha) as (H1 & H2 & H3 & H4).
  split_and!; try done. unfold require_admin. by destruct (identity a).
Qed.

(** A scoped listing shows the intersection of the token's prefix and the requested prefix.
    The repository is asked for exactly the keys that start with both, and when no key can start
    with both the listing is empty without asking. *)
Theorem listing_scope_exact (a : BucketAuth) (params : Buckets.ListBucketParams)
    (perms : Permission) (scope k : bytes) :
  identity a = Auth.Scoped perms scope →
  (∃ p, Buckets.prefix_for_repo a params = Some p ∧ default [] p `prefix_of` k)
  ↔ scope `prefix_of` k ∧ default [] (Buckets.q_prefix params) `prefix_of` k.
Proof.
  intros Hi. unfold Buckets.prefix_for_repo. rewrite Hi. case_bool_decide as Hs.
  - subst scope. split.
    + intros (p & [= <-] & Hp). split; [apply prefix_nil|done].
    + intros [_ Hp]. by eexists.
  - rewrite <- combine_scoped_prefix_spec. split.
    + intros (p & Hp & Hk). destruct (Buckets.combine_scoped_prefix _ _) as [q|]; [|done].
      simpl in Hp. injection Hp as <-. by exists q.
    + intros (q & -> & Hk). by exists (Some q).
Qed.

(** C31: The policy patch keeps its invariants. A successful patch never removes the admin
    credential; a field that is absent keeps its value, [null] clears a nullable key, a text
    replaces it by its hash, and the empty text is never accepted; the signing-key generation
    moves exactly when the signing key changes; and the policy that is stored has the anonymous
    permissions implied by its keys. *)
Theorem policy_patch_invariants {C : CryptoOps} {CL : CryptoLaws C} (p p' : BucketPolicy)
    (patch : Buckets.UpdatePolicyJson) (rk : SigningKey) (audit : Buckets.PolicyPatchAudit) :
  Buckets.apply_policy_patch p patch rk = Ok (p', audit) →
  match Buckets.p_secret_key patch with
  | None => secret_key_hash p' = secret_key_hash p
  | Some inner => ∃ s, inner = Some s ∧ s ≠ [] ∧ Auth.is_hash rk s (secret_key_hash p')
  end
  ∧ match Buckets.p_read_key patch with
    | None => read_key_hash p' = read_key_hash p
    | Some None => read_key_hash p' = None
    | Some (Some s) => s ≠ [] ∧ Auth.is_hash rk s (read_key_hash p')
    end
  ∧ match Buckets.p_write_key patch with
    | None => write_key_hash p' = write_key_hash p
    | Some None => write_key_hash p' = None
    | Some (Some s) => s ≠ [] ∧ Auth.is_hash rk s (write_key_hash p')
    end
  ∧ match Buckets.p_signing_key patch with
    | None => signing_key p' = signing_key p
    | Some None => signing_key p' = None
    | Some (Some s) => s ≠ [] ∧ signing_key p' = Some (mkSigningKey s)
    end
  ∧ signing_key_generation p'
    = (if bool_decide (signing_key p ≠ signing_key p')
       then ((signing_key_generation p + 1) mod 2 ^ 64)%N else signing_key_generation p)
  ∧ default_ttl_secs p' = match Buckets.p_default_ttl patch with Some t => t | None => default_ttl_secs p end
  ∧ policy_consistent (Buckets.with_anonymous_access p' (Buckets.recompute_anonymous_access p')).
Proof.
  unfold Buckets.apply_policy_patch. intros Hp.
  apply result_bind_ok in Hp as (sec & Hsec & Hp). apply result_bind_ok in Hp as (rd & Hrd & Hp).
  apply result_bind_ok in Hp as (wr & Hwr & Hp). apply result_bind_ok in Hp as (sg & Hsg & Hp).
  destruct sg as [[[key g] changed] cleared]. injection Hp as <- _. simpl.
  apply patch_secret_ok in Hsec. apply patch_hash_ok in Hrd, Hwr.
  apply patch_signing_ok in Hsg as (Hch & Hg & Hk).
  split; [done|]. split; [done|]. split; [done|]. split; [done|].
  split; [by rewrite Hg, Hch|]. done.
Qed.

Section Handlers.
Context {T : TimeOps} {TL : TimeLaws T} {JS : JsonOps} {JV : JsonValueOps} {W : WireOps}.
Context {C : CryptoOps} {CL : CryptoLaws C} {K : TokenOps} {KL : TokenLaws K}.
Context {S : Type} {BR : BucketRepository S} {KR : KeyRepository S}.

(** A refused request changes nothing. When the guard of a handler refuses the caller (or
    the key is malformed), the handler answers with that error and the repository state is
    literally the one it started with; one refused item makes a whole transaction fail this way
    before any of its operations is sent. *)
Theorem refused_requests_change_nothing (a : BucketAuth) (s : S) (key : bytes) :
  (∀ now ttl hs body e,
     (let? k := parse_percent_encoded_key key in require_write_on a k) = Err e →
     Keys.put_key now a key ttl hs body s = (Ret (Err e), s)
     ∧ ∀ now', Keys.patch_key now now' a key ttl body s = (Ret (Err e), s))
  ∧ (∀ e, (let? k := parse_percent_encoded_key key in require_delete_on a k) = Err e →
       Keys.delete_key a key s = (Ret (Err e), s))
  ∧ (∀ now e, (let? k := parse_percent_encoded_key key in require_read_on a k) = Err e →
       Keys.get_key now a key s = (Ret (Err e), s) ∧ Keys.head_key now a key s = (Ret (Err e), s))
  ∧ (∀ clock items e, items ≠ [] → Txn.txn_ops clock a items = Err e →
       Txn.execute_txn clock a (Some items) s = (Ret (Err e), s))
  ∧ (∀ e, require_admin a = Err e →
       (∀ rk body parsed, Buckets.update_policy rk a body parsed s = (Ret (Err e), s))
       ∧ Buckets.delete_bucket a s = (Ret (Err e), s)
       ∧ Buckets.get_bucket_policy a s = (Ret (Err e), s)
       ∧ (∀ now form, TokensRoute.create_token now a form s = (Ret (Err e), s))).
Proof.
  split_and!.
  - intros now ttl hs body e He. unfold Keys.put_key, Keys.patch_key, comp_bind, comp_lift.
    destruct (parse_percent_encoded_key key) as [k|]; simpl in *; [|by simplify_eq].
    rewrite He. done.
  - intros e He. unfold Keys.delete_key, comp_bind, comp_lift.
    destruct (parse_percent_encoded_key key) as [k|]; simpl in *; [|by simplify_eq]. by rewrite He.
  - intros now e He. unfold Keys.get_key, Keys.head_key, comp_bind, comp_lift.
    destruct (parse_percent_encoded_key key) as [k|]; simpl in *; [|by simplify_eq]. by rewrite He.
  - intros clock items e Hi He. unfold Txn.execute_txn, comp_bind, comp_lift. simpl.
    rewrite bool_decide_eq_false_2 by done. by rewrite He.
  - intros e He. unfold Buckets.update_policy, Buckets.delete_bucket, Buckets.get_bucket_policy,
      TokensRoute.create_token, comp_bind, comp_lift. by rewrite He.
Qed.

(** One accepted item. *)
Lemma txn_op_ok (now : OffsetDateTime) (a : BucketAuth) (item : Txn.TxnItem) (o : TxnOp) :
  Txn.txn_op now a item = Ok o →
  match item, o with
  | Txn.ItemSet raw _ ttl, TxnSet k v e =>
    parse_percent_encoded_key raw = Ok k ∧ is_ok (require_write_on a k) = true
    ∧ KeyService.resolve_ttl now ttl (auth_default_ttl_secs a) = Ok e
  | Txn.ItemDelete raw, TxnDelete k =>
    parse_percent_encoded_key raw = Ok k ∧ is_ok (require_delete_on a k) = true
  | _, _ => False
  end
  ∧ txn_ok o.
Proof.
  destruct item as [raw v ttl|raw]; simpl; intros Ho.
  - apply result_bind_ok in Ho as (k & Hk & Ho). apply result_bind_ok in Ho as (u & Hu & Ho).
    apply result_bind_ok in Ho as ([body ct] & _ & Ho). apply result_bind_ok in Ho as (sv & Hsv & Ho).
    apply result_bind_ok in Ho as (e & He & [= <-]).
    destruct (KeyService.infer_stored_value body ct) as [sv'|] eqn:Ei; [|done].
    simpl in Hsv. injection Hsv as ->.
    destruct (KeyService.resolve_ttl now ttl _) as [e'|] eqn:Et; [|done]. simpl in He. injection He as ->.
    split; [split; [done|]; by rewrite Hu|].
    by apply KeyService.infer_stored_value_ok in Ei as (? & _).
  - apply result_bind_ok in Ho as (k & Hk & Ho). apply result_bind_ok in Ho as (u & Hu & [= <-]).
    split; [|done]. split; [done|]. by rewrite Hu.
Qed.

(** Every operation of an accepted transaction was authorized: the batch handed to the
    storage is the items in order, each with a key the caller may write (sets) or delete
    (deletes), and each value fits the size limit. *)
Theorem txn_items_authorized (clock : nat → OffsetDateTime) (a : BucketAuth)
    (items : list Txn.TxnItem) (ops : list TxnOp) :
  Txn.txn_ops clock a items = Ok ops →
  length ops = length items
  ∧ (∀ i item o, items !! i = Some item → ops !! i = Some o →
       match item, o with
       | Txn.ItemSet raw _ ttl, TxnSet k v e =>
         parse_percent_encoded_key raw = Ok k ∧ is_ok (require_write_on a k) = true
         ∧ KeyService.resolve_ttl (clock i) ttl (auth_default_ttl_secs a) = Ok e
       | Txn.ItemDelete raw, TxnDelete k =>
         parse_percent_encoded_key raw = Ok k ∧ is_ok (require_delete_on a k) = true
       | _, _ => False
       end)
  ∧ Forall txn_ok ops.
Proof.
  revert clock ops. induction items as [|item items IH]; intros clock ops; cbn [Txn.txn_ops].
  { intros [= <-]. done. }
  intros Hr. apply result_bind_ok in Hr as (o & Ho & Hr).
  apply result_bind_ok in Hr as (os & Hos & [= <-]). apply IH in Hos as (Hl & IH1 & IH2).
  apply txn_op_ok in Ho as [Ho Hok].
  split; [by rewrite !length_cons, Hl|]. split; [|by constructor].
  intros [|i] item' o'; simpl; [by intros [= <-] [= <-]|apply IH1].
Qed.

Context {BS : BucketRepoSpec S}.

(** Issued tokens work, and only as asked. When the token endpoint answers with a token, the
    caller was an admin, and the token resolves under the stored policy to exactly the requested
    permissions and prefix at every instant before its expiry ([now] plus the requested positive
    TTL) and is refused from then on. *)
Theorem issued_token_grants (now : OffsetDateTime) (a : BucketAuth)
    (form : TokensRoute.CreateTokenForm) (s s' : S) (t : bytes) :
  TokensRoute.create_token now a form s = (Ret (Ok (mkResponse 200 (TokenBody t))), s') →
  identity a = Auth.Admin
  ∧ ∃ policy perms, br_policy s (bucket_id a) = Some policy
      ∧ TokensRoute.parse_permissions (TokensRoute.form_permissions form) = Ok perms
      ∧ TokensRoute.form_prefix form ≠ []
      ∧ ∀ now',
          let expiry := unix_timestamp_nanos now + TokensRoute.form_ttl form * NANOS in
          (expiry <= unix_timestamp_nanos now' →
             Tokens.verify t policy (bucket_id a) now' = Err Expired)
          ∧ (unix_timestamp_nanos now' < expiry →
             ∃ claims, Tokens.verify t policy (bucket_id a) now' = Ok claims
               ∧ permissions claims = perms ∧ allowed_prefix claims = TokensRoute.form_prefix form).
Proof.
  unfold TokensRoute.create_token. intros Hr.
  apply comp_bind_inv_ok in Hr as (u & s1 & Hu & Hr). injection Hu as Hu <-.
  split; [unfold require_admin in Hu; by destruct (identity a)|].
  apply comp_bind_inv_ok in Hr as (found & s1 & Hf & Hr). apply spawn_usecase_ok in Hf.
  apply br_get in Hf as [-> _].
  apply comp_bind_inv_ok in Hr as (policy & s2 & Hp & Hr). injection Hp as Hp <-.
  apply comp_bind_inv_ok in Hr as (key & s2 & Hk & Hr). injection Hk as Hk <-.
  destruct (Z.leb_spec (TokensRoute.form_ttl form) 0); [done|].
  case_bool_decide as Hpre; [done|].
  apply comp_bind_inv_ok in Hr as (e & s2 & He & Hr). injection He as He <-.
  apply comp_bind_inv_ok in Hr as (perms & s2 & Hpm & Hr). injection Hpm as Hpm <-.
  apply comp_bind_inv_ok in Hr as (t' & s2 & Ht & Hr). injection Ht as Ht <-. injection Hr as -> _.
  destruct (br_policy s (bucket_id a)) as [pol|] eqn:Hpol; [|done]. injection Hp as ->.
  destruct (signing_key policy) as [sk|] eqn:Hsk; [|done]. injection Hk as ->.
  destruct (checked_add_seconds now (TokensRoute.form_ttl form)) as [e'|] eqn:Hadd; [|done].
  injection He as ->. apply checked_add_nanos in Hadd.
  destruct (Tokens.mint _ key) as [t0|] eqn:Hm; [|done]. injection Ht as ->.
  exists policy, perms. split; [done|]. split; [done|]. split; [done|]. intros now'.
  set (expiry := unix_timestamp_nanos now + TokensRoute.form_ttl form * NANOS) in *.
  rewrite (Tokens.verify_minted _ key t policy (bucket_id a) now' key Hm Hsk).
  apply Tokens.mint_parts in Hm as (json & mac & -> & -> & _).
  rewrite bool_decide_eq_true_2 by done. unfold Tokens.claims_check. simpl.
  unfold odt_leb. rewrite Hadd.
  rewrite (bool_decide_eq_false_2 (bucket_id a ≠ bucket_id a)) by (intros Hn; by apply Hn).
  rewrite N.eqb_refl. simpl.
  destruct (Z.leb_spec expiry (unix_timestamp_nanos now')) as [Hle|Hlt]; split; try done; try lia.
  intros _. by eexists.
Qed.

End Handlers.

(** ** Witnesses *)

Definition demo_rk : SigningKey := mkSigningKey (bs "rk").

Definition http_policy : BucketPolicy :=
  mkPolicy (Some 60%N) (Permission.anonymous_from_keys true true false) (Some (bs "rk|admin"))
    (Some (bs "rk|reader")) None (Some demo_signing_key) 3.

Definition demo_auth (id : Auth.ResolvedIdentity) : BucketAuth :=
  mkAuth id demo_bucket (presence_of http_policy) (anonymous_access http_policy)
    (default_ttl_secs http_policy).

Lemma guards_exact_witness :
  is_ok (require_write_on (demo_auth Auth.Anonymous) demo_key) = true
  ∧ is_ok (require_read_on (demo_auth Auth.Anonymous) demo_key) = false.
Proof.
  destruct (guards_exact (demo_auth Auth.Anonymous) http_policy demo_key) as (H1 & H2 & _).
  - by apply (bool_decide_unpack _).
  - split; [reflexivity|split; reflexivity].
  - split; [exact H2|exact H1].
Defined.

Lemma listing_scope_exact_witness :
  (∃ p, Buckets.prefix_for_repo (demo_auth (Auth.Scoped Permission.READ_ENUMERATE (bs "u/")))
          (Buckets.mkListParams (Some (bs "u/42")) None None None None None) = Some p
        ∧ default [] p `prefix_of` bs "u/42/x")
  ↔ bs "u/" `prefix_of` bs "u/42/x" ∧ bs "u/42" `prefix_of` bs "u/42/x".
Proof.
  apply (listing_scope_exact (demo_auth (Auth.Scoped Permission.READ_ENUMERATE (bs "u/")))
    (Buckets.mkListParams (Some (bs "u/42")) None None None None None)
    Permission.READ_ENUMERATE (bs "u/") (bs "u/42/x")).
  reflexivity.
Defined.

Definition demo_patch : Buckets.UpdatePolicyJson :=
  Buckets.mkPatch None (Some None) None (Some (Some (bs "new"))) None.

Lemma policy_patch_invariants_witness :
  ∃ p' audit, Buckets.apply_policy_patch http_policy demo_patch demo_rk = Ok (p', audit)
    ∧ secret_key_hash p' = secret_key_hash http_policy ∧ read_key_hash p' = None
    ∧ signing_key_generation p' = 4%N.
Proof.
  destruct (Buckets.apply_policy_patch http_policy demo_patch demo_rk) as [[p' audit]|e] eqn:E.
  - destruct (policy_patch_invariants http_policy p' demo_patch demo_rk audit E)
      as (H1 & H2 & _ & H3 & H4 & _).
    exists p', audit. split; [reflexivity|]. split; [exact H1|]. split; [exact H2|].
    destruct H3 as [_ H3]. rewrite H4, H3. reflexivity.
  - vm_compute in E. discriminate E.
Defined.

Definition demo_items : list Txn.TxnItem := [Txn.ItemSet (bs "u/1") (bs "'hello") (Some 0%N)].

Lemma txn_items_authorized_witness :
  ∃ ops, Txn.txn_ops (λ _, at_nanos 0) (demo_auth Auth.Anonymous) demo_items = Ok ops ∧ Forall txn_ok ops.
Proof.
  destruct (Txn.txn_ops (λ _, at_nanos 0) (demo_auth Auth.Anonymous) demo_items) as [ops|e] eqn:E.
  - destruct (txn_items_authorized (λ _, at_nanos 0) (demo_auth Auth.Anonymous) demo_items ops E)
      as (_ & _ & H).
    exists ops. split; [reflexivity|exact H].
  - exfalso.
    assert (is_ok (Txn.txn_ops (λ _, at_nanos 0) (demo_auth Auth.Anonymous) demo_items) = true) as H
      by vm_refl.
    rewrite E in H. discriminate H.
Defined.

Definition token_store : Store.FjallStore := (Store.create_bucket demo_bucket http_policy demo0).2.

Definition token_form : TokensRoute.CreateTokenForm :=
  TokensRoute.mkTokenForm (bs "u/") (bs "read, enumerate") 60.

Definition issued : bytes :=
  match (TokensRoute.create_token (at_nanos 0) (demo_auth Auth.Admin) token_form token_store).1 with
  | Ret (Ok (mkResponse _ (TokenBody t))) => t
  | _ => []
  end.

Lemma issued_token_grants_witness :
  ∃ policy perms, br_policy token_store demo_bucket = Some policy
    ∧ TokensRoute.parse_permissions (bs "read, enumerate") = Ok perms.
Proof.
  destruct (issued_token_grants (at_nanos 0) (demo_auth Auth.Admin) token_form token_store
    (TokensRoute.create_token (at_nanos 0) (demo_auth Auth.Admin) token_form token_store).2 issued)
    as (_ & policy & perms & H1 & H2 & _).
  - apply pair_fst. vm_refl.
  - exists policy, perms. split; [exact H1|exact H2].
Defined.
