(* ===== verification/Sessions.v ===== *)
(** * Whole key requests under interleaving

    A key request runs in two parts. The extractor reads the policy of the bucket in one blocking
    task and resolves the credential against it; the handler then checks its guard, and asks the
    storage in a second task. Between the two, and at every backend call of the second, other
    requests, the sweeper and policy updates run. Here the handlers of [routes/keys.rs],
    [routes/txn.rs] and the listing are split at that point ([plan_of], with [handler_plan] to
    show that nothing else is in them), and sessions of them are interleaved over the threads of
    [Interleave], with policies that may change at any time. *)

From Stdlib Require Import Strings.Byte.
From S2P Require Import Prelude RustStd TimeLib Domain Counter Ports Codec FjallLib Locks Store StoreSpec StoreList StoreRepo Gc Interleave Linearize KeyService Auth HttpBase HttpRoutes HttpBuckets HttpProps.
Import Http Interleave.

(** ** Handlers, split at their storage task *)

Module Sessions.

Section Calls.
Context {T : TimeOps} {P : PostcardOps} {J : PolicyJsonOps} {F : FjallOps} {H : HasherOps}
        {L : LayoutOps}.
Context {JS : JsonOps} {JV : JsonValueOps} {W : WireOps}.

Abbreviation store := Store.FjallStore.

(** A routed key request, with the instants its clock readings show. *)
Inductive call : Type :=
| GetKey (now : OffsetDateTime) (key : bytes)
| HeadKey (now : OffsetDateTime) (key : bytes)
| PutKey (now : OffsetDateTime) (key : bytes) (ttl : option N) (headers : Headers) (body : bytes)
| DeleteKey (key : bytes)
| PatchKey (now now_repo : OffsetDateTime) (key : bytes) (ttl : option N) (body : bytes)
| ExecuteTxn (clock : nat → OffsetDateTime) (parsed : option (list Txn.TxnItem))
| ListBucket (now : OffsetDateTime) (params : Buckets.ListBucketParams) (headers : Headers).

Definition handler (c : call) (auth : BucketAuth) : comp store Response Response :=
  match c with
  | GetKey now key => Keys.get_key now auth key
  | HeadKey now key => Keys.head_key now auth key
  | PutKey now key ttl headers body => Keys.put_key now auth key ttl headers body
  | DeleteKey key => Keys.delete_key auth key
  | PatchKey now now_repo key ttl body => Keys.patch_key now now_repo auth key ttl body
  | ExecuteTxn clock parsed => Txn.execute_txn clock auth parsed
  | ListBucket now params headers => Buckets.list_bucket now auth params headers
  end.

(** What is left of a handler once the caller is known: a response, or one storage request and
    the response to its outcome. *)
Inductive planned : Type :=
| Reply (r : result Response Response)
| Ask (req : request) (respond : result answer UseCaseError → result Response Response).

Definition plan_bind {A} (r : result A Response) (f : A → planned) : planned :=
  match r with Ok a => f a | Err e => Reply (Err e) end.

Notation "'let*' x ':=' r 'in' k" := (plan_bind r (λ x, k))
  (at level 10, x binder, r at level 100, k at level 200).

(** Errors are mapped; an answer of another shape does not occur. *)
Definition responding (f : answer → option (result Response Response))
    (r : result answer UseCaseError) : result Response Response :=
  match r with
  | Ok a => default (Err internal_error) (f a)
  | Err e => Err (map_use_case_repo_err e)
  end.

(** The expiry test of [KeyService::get]. *)
Definition found (now : OffsetDateTime) (f : StoredEntry → result Response Response) (a : answer)
    : option (result Response Response) :=
  match a with
  | AEntry (Some en) =>
    Some match expires_at en with
         | Some exp => if odt_leb exp now then Err not_found else f en
         | None => f en
         end
  | AEntry None => Some (Err not_found)
  | _ => None
  end.

Definition ask_list (b : BucketId) (fmt : Buckets.ListFormat) (values : bool) (opts : ListOpts) : planned :=
  Ask (ReqList b opts)
    (responding (λ a, match a with
                      | AList entries =>
                        Some (let? body := Buckets.render_list_body fmt entries values in
                              Ok (mkResponse 200 (Raw (Buckets.list_content_type fmt) body)))
                      | _ => None
                      end)).

Definition plan_of (c : call) (auth : BucketAuth) : planned :=
  let b := bucket_id auth in
  match c with
  | GetKey now key =>
    let* k := parse_percent_encoded_key key in
    let* _ := require_read_on auth k in
    Ask (ReqGet b k) (responding (found now (λ en, Keys.stored_value_response (value en))))
  | HeadKey now key =>
    let* k := parse_percent_encoded_key key in
    let* _ := require_read_on auth k in
    Ask (ReqGet b k)
      (responding (found now (λ en,
         Ok (mkResponse 200 (Raw (Keys.content_type_for_kind (kind (value en))) [])))))
  | PutKey now key ttl headers body =>
    let* k := parse_percent_encoded_key key in
    let* _ := require_write_on auth k in
    let content_type := h_content_type headers ≫= header_to_str in
    let* v := map_err map_use_case_repo_err (KeyService.infer_stored_value body content_type) in
    let* e := map_err map_use_case_repo_err
                (KeyService.resolve_ttl now ttl (auth_default_ttl_secs auth)) in
    Ask (ReqSet b k v e) (responding (λ _, Some (Keys.stored_value_response v)))
  | DeleteKey key =>
    let* k := parse_percent_encoded_key key in
    let* _ := require_delete_on auth k in
    Ask (ReqDelete b k)
      (responding (λ a, match a with
                        | ABool existed =>
                          Some (if existed : bool then Ok (mkResponse 204 NoBody) else Err not_found)
                        | _ => None
                        end))
  | PatchKey now now_repo key ttl body =>
    let* k := parse_percent_encoded_key key in
    let* _ := require_write_on auth k in
    let* o := map_err (λ _, bad_request) (Counter.parse body) in
    let* e := map_err map_use_case_repo_err
                (KeyService.resolve_ttl now ttl (auth_default_ttl_secs auth)) in
    Ask (ReqIncrement now_repo b k o e)
      (responding (λ a, match a with AValue v => Some (Keys.stored_value_response v) | _ => None end))
  | ExecuteTxn clock parsed =>
    let* txn := ok_or bad_request parsed in
    if bool_decide (txn = []) then Reply (Err bad_request)
    else
      let* ops := Txn.txn_ops clock auth txn in
      Ask (ReqBatch b ops) (responding (λ _, Some (Ok (mkResponse 204 NoBody))))
  | ListBucket now params headers =>
    let* _ := require_enumerate auth in
    let* fmt := Buckets.resolve_list_format params headers in
    let values := default false (Buckets.q_values params) in
    match Buckets.prefix_for_repo auth params with
    | None =>
      Reply (let? body := Buckets.render_list_body fmt [] values in
             Ok (mkResponse 200 (Raw (Buckets.list_content_type fmt) body)))
    | Some prefix =>
      ask_list b fmt values
        (KeyService.list_opts now
           (KeyService.mkListInput prefix (Buckets.q_limit params) (Buckets.q_skip params)
              (Buckets.q_reverse params) (Some values)))
    end
  end.

(** A plan carried out without interruption; a panic of the storage task is a join error. *)
Definition carry_out (p : planned) : comp store Response Response :=
  match p with
  | Reply r => comp_lift r
  | Ask req respond =>
    λ s, match serve req s with
         | (Ret r, s') => (Ret (respond r), s')
         | (Panic, s') => (Ret (Err internal_error), s')
         end
  end.

Lemma bind_lift {A} (r : result A Response) (f : A → comp store Response Response)
    (g : A → planned) s :
  (∀ a, f a s = carry_out (g a) s) →
  (let! a := comp_lift r in f a) s = carry_out (plan_bind r g) s.
Proof. intros Hf. unfold comp_bind, comp_lift. destruct r; simpl; [apply Hf|done]. Qed.

(** The storage task of a read. *)
Lemma carry_get now b k (f : StoredEntry → result Response Response) s :
  (let! entry := spawn_usecase (KeyService.get now b k) in comp_lift (f entry)) s
  = carry_out (Ask (ReqGet b k) (responding (found now f))) s.
Proof.
  unfold comp_bind, spawn_usecase, KeyService.get. simpl. unfold comp_bind.
  destruct (Store.get b k s) as [[[[en|]|e]|] s1]; simpl; [|done..].
  destruct (expires_at en) as [exp|]; [|done]. by destruct (odt_leb exp now).
Qed.

(** Nothing else is in a handler. *)
Lemma handler_plan c auth s : handler c auth s = carry_out (plan_of c auth) s.
Proof.
  destruct c as [now key|now key|now key ttl hs body|key|now now_repo key ttl body|clock parsed|now ps hs];
    simpl.
  - apply bind_lift. intros k. apply bind_lift. intros _. apply carry_get.
  - apply bind_lift. intros k. apply bind_lift. intros _.
    apply (carry_get now (bucket_id auth) k
      (λ en, Ok (mkResponse 200 (Raw (Keys.content_type_for_kind (kind (value en))) [])))).
  - apply bind_lift. intros k. apply bind_lift. intros _. unfold comp_bind, spawn_usecase, KeyService.set.
    unfold comp_bind. simpl.
    destruct (KeyService.infer_stored_value body _) as [v|]; simpl; [|done].
    destruct (KeyService.resolve_ttl now ttl _) as [e|]; simpl; [|done]. unfold comp_bind.
    by destruct (Store.set (bucket_id auth) k v e s) as [[[[]|]|] s1].
  - apply bind_lift. intros k. apply bind_lift. intros _. unfold comp_bind, spawn_usecase, KeyService.delete.
    unfold comp_bind. simpl. unfold comp_bind.
    by destruct (Store.delete (bucket_id auth) k s) as [[[[]|]|] s1].
  - apply bind_lift. intros k. apply bind_lift. intros _. apply bind_lift. intros o.
    unfold comp_bind, spawn_usecase, KeyService.increment, comp_bind. simpl.
    destruct (KeyService.resolve_ttl now ttl _) as [e|]; simpl; [|done]. unfold comp_bind.
    by destruct (Store.increment now_repo (bucket_id auth) k o e s) as [[[v|]|] s1].
  - apply bind_lift. intros txn. case_bool_decide; [done|]. apply bind_lift. intros ops.
    unfold comp_bind, spawn_usecase, KeyService.execute. simpl. unfold comp_bind.
    by destruct (Store.apply_batch (bucket_id auth) ops s) as [[[[]|]|] s1].
  - apply bind_lift. intros _. apply bind_lift. intros fmt.
    destruct (Buckets.prefix_for_repo auth ps) as [pre|].
    + unfold comp_bind at 1. unfold spawn_usecase, KeyService.list. simpl. unfold comp_bind.
      destruct (Store.list (bucket_id auth) _ s) as [[[l|]|] s1]; simpl; [|done..].
      by destruct (Buckets.render_list_body fmt l _).
    + unfold comp_bind, comp_lift. simpl. by destruct (Buckets.render_list_body fmt [] _).
Qed.

(** ** What a plan was permitted to ask *)

(** [who] may make the request on bucket [b] under policy [p]: every key it touches is granted
    for what the request does there, and a listing stays in the scope of a token. *)
Definition permits (p : BucketPolicy) (b : BucketId) (who : Auth.ResolvedIdentity) (req : request)
    : Prop :=
  match req with
  | ReqGet b' k => b' = b ∧ Permission.read (granted p who k) = true
  | ReqSet b' k _ _ | ReqIncrement _ b' k _ _ => b' = b ∧ Permission.write (granted p who k) = true
  | ReqDelete b' k => b' = b ∧ Permission.delete (granted p who k) = true
  | ReqBatch b' ops =>
    b' = b ∧ Forall (λ o, match o with
                          | TxnSet k _ _ => Permission.write (granted p who k) = true
                          | TxnDelete k => Permission.delete (granted p who k) = true
                          end) ops
  | ReqList b' opts =>
    b' = b ∧ ∀ k, Permission.enumerate (granted p who k) = true
                  ∧ (default [] (prefix opts) `prefix_of` as_bytes k →
                     match who with Auth.Scoped _ pre => pre `prefix_of` as_bytes k | _ => True end)
  | ReqSweep _ _ _ _ => False
  end.

Lemma plan_bind_ask {A} (r : result A Response) f req respond :
  plan_bind r f = Ask req respond → ∃ a, r = Ok a ∧ f a = Ask req respond.
Proof. destruct r; simpl; [eauto|done]. Qed.

Lemma is_ok_true {A E} (r : result A E) a : r = Ok a → is_ok r = true.
Proof. by intros ->. Qed.

Lemma txn_ops_permitted p clock auth items ops :
  policy_consistent p → auth_of auth p → Txn.txn_ops clock auth items = Ok ops →
  Forall (λ o, match o with
               | TxnSet k _ _ => Permission.write (granted p (identity auth) k) = true
               | TxnDelete k => Permission.delete (granted p (identity auth) k) = true
               end) ops.
Proof.
  intros Hc Ha. revert clock ops. induction items as [|item items IH]; intros clock ops; simpl.
  { by intros [= <-]. }
  intros Ho. apply result_bind_ok in Ho as (o & Hop & Ho). apply result_bind_ok in Ho as (os & Hos & [= <-]).
  constructor; [|by eapply IH]. destruct item as [set v ttl|delete]; simpl in Hop.
  - apply result_bind_ok in Hop as (k & _ & Hop). apply result_bind_ok in Hop as (u & Hg & Hop).
    apply result_bind_ok in Hop as ([body ct] & _ & Hop). apply result_bind_ok in Hop as (v' & _ & Hop).
    apply result_bind_ok in Hop as (e & _ & [= <-]).
    destruct (guards_granted auth p k Hc Ha) as (_ & <- & _). by eapply is_ok_true.
  - apply result_bind_ok in Hop as (k & _ & Hop). apply result_bind_ok in Hop as (u & Hg & [= <-]).
    destruct (guards_granted auth p k Hc Ha) as (_ & _ & <- & _). by eapply is_ok_true.
Qed.

(** The scope of a token bounds the prefix of its listings. *)
Lemma prefix_in_scope auth params pre perms scope k :
  Buckets.prefix_for_repo auth params = Some pre → identity auth = Auth.Scoped perms scope →
  default [] pre `prefix_of` k → scope `prefix_of` k.
Proof.
  unfold Buckets.prefix_for_repo. intros Hp Hw. rewrite Hw in Hp. case_bool_decide as Hs.
  { subst. intros _. apply prefix_nil. }
  destruct (Buckets.combine_scoped_prefix scope (Buckets.q_prefix params)) as [q|] eqn:Ec; simplify_eq/=.
  intros Hk. by apply (combine_scoped_prefix_spec scope (Buckets.q_prefix params) k); exists q.
Qed.

(** The steps of a plan that asks. *)
Ltac ask_inv Hp :=
  repeat match type of Hp with
  | plan_bind _ _ = Ask _ _ => apply plan_bind_ask in Hp as (? & ? & Hp); cbn beta in Hp
  end.

Lemma plan_permits c auth p req respond :
  policy_consistent p → auth_of auth p → plan_of c auth = Ask req respond →
  permits p (bucket_id auth) (identity auth) req.
Proof.
  intros Hc Ha Hp.
  destruct c as [now key|now key|now key ttl hs body|key|now now_repo key ttl body|clock parsed|now ps hs];
    cbn [plan_of] in Hp; cbv zeta in Hp.
  1-5: ask_inv Hp; injection Hp as <- _; (split; [done|]);
    match goal with k : Key |- _ => destruct (guards_granted auth p k Hc Ha) as (G1 & G2 & G3 & _) end;
    first [rewrite <- G1|rewrite <- G2|rewrite <- G3]; by eapply is_ok_true.
  - apply plan_bind_ask in Hp as (txn & _ & Hp). case_bool_decide; [done|].
    apply plan_bind_ask in Hp as (ops & Ho & [= <- _]). split; [done|]. by eapply txn_ops_permitted.
  - apply plan_bind_ask in Hp as (u & Hu & Hp). apply plan_bind_ask in Hp as (fmt & _ & Hp).
    destruct (Buckets.prefix_for_repo auth ps) as [pre|] eqn:Epre; [|done].
    injection Hp as <- _. split; [done|]. intros k.
    destruct (guards_granted auth p k Hc Ha) as (_ & _ & _ & <-). split; [by eapply is_ok_true|].
    destruct (identity auth) as [| |perms scope] eqn:Ew; [done..|]. by eapply prefix_in_scope.
Qed.

End Calls.

(** ** Sessions *)

Section Sessions.
Context {T : TimeOps} {P : PostcardOps} {J : PolicyJsonOps} {F : FjallOps} {H : HasherOps}
        {L : LayoutOps}.
Context {JS : JsonOps} {JV : JsonValueOps} {W : WireOps} {C : CryptoOps} {K : TokenOps}.
Context (rk : SigningKey).

Abbreviation store := Store.FjallStore.

(** A request as it arrives: what the extractor reads, its clock, and the handler it is for. *)
Record visit : Type := mkVisit { v_parts : Parts; v_now : OffsetDateTime; v_call : call }.

Definition credential (v : visit) : option bytes :=
  Http.as_str <$> extract (headers (v_parts v)) (uri_query (v_parts v)).

(** [Waiting auth j]: authenticated as [auth], and its storage request is thread [j]. *)
Inductive stage : Type :=
| Arrived
| Waiting (auth : BucketAuth) (j : nat)
| Answered (asked : option (BucketAuth * nat)) (r : result Response Response).

Record world : Type := mkWorld {
  w_store : store;
  w_threads : list (request * thread);
  w_visits : list (visit * stage);
}.

Definition data (w : world) : config := (w_store w, w_threads w).

Definition authenticate (v : visit) : comp store BucketAuth Response :=
  from_request_parts (v_now v) rk (v_parts v).

Definition spawn (req : request) (ts : list (request * thread)) : list (request * thread) :=
  ts ++ [(req, Running [] (plan req) (body req))].

(** Key traffic. Storage steps are those of [Interleave]; bucket ids are UUIDs and listings fit in
    memory ([request_ok]). *)
Inductive kstep : world → world → Prop :=
| s_arrive s ts vs v : kstep (mkWorld s ts vs) (mkWorld s ts (vs ++ [(v, Arrived)]))
| s_refuse s ts vs i v r s' :
    vs !! i = Some (v, Arrived) → authenticate v s = (Ret (Err r), s') →
    kstep (mkWorld s ts vs) (mkWorld s' ts (<[i := (v, Answered None (Err r))]> vs))
| s_reply s ts vs i v auth r s' :
    vs !! i = Some (v, Arrived) → authenticate v s = (Ret (Ok auth), s') →
    plan_of (v_call v) auth = Reply r →
    kstep (mkWorld s ts vs) (mkWorld s' ts (<[i := (v, Answered None r)]> vs))
| s_ask s ts vs i v auth req respond s' :
    vs !! i = Some (v, Arrived) → authenticate v s = (Ret (Ok auth), s') →
    plan_of (v_call v) auth = Ask req respond → request_ok req →
    kstep (mkWorld s ts vs) (mkWorld s' (spawn req ts) (<[i := (v, Waiting auth (length ts))]> vs))
| s_storage s ts vs s' ts' :
    step (s, ts) (s', ts') → length ts' = length ts → kstep (mkWorld s ts vs) (mkWorld s' ts' vs)
| s_answer s ts vs i v auth j req req' respond r :
    vs !! i = Some (v, Waiting auth j) → plan_of (v_call v) auth = Ask req respond →
    ts !! j = Some (req', Finished r) →
    kstep (mkWorld s ts vs) (mkWorld s ts (<[i := (v, Answered (Some (auth, j)) (respond r))]> vs))
| s_sweep s ts vs now_ts idx ux sk :
    kstep (mkWorld s ts vs) (mkWorld s (spawn (ReqSweep now_ts idx ux sk) ts) vs).

(** One step of the server. Policies are read, created, replaced and removed by single adapter
    calls at any time, whoever makes them; the policies that are written are consistent.
    [AdminSessions] says who makes them and shows that they are. *)
Inductive sstep : world → world → Prop :=
| s_key w w' : kstep w w' → sstep w w'
| s_peek s ts vs b r s' :
    Store.get_policy b s = (r, s') → sstep (mkWorld s ts vs) (mkWorld s' ts vs)
| s_policy s ts vs b p r s' :
    PolicyCodec.policy_wf p → policy_consistent p → Store.create_bucket b p s = (r, s') →
    sstep (mkWorld s ts vs) (mkWorld s' ts vs)
| s_remove s ts vs b r s' :
    Store.delete_bucket b s = (r, s') → sstep (mkWorld s ts vs) (mkWorld s' ts vs).

(** *** The same steps as a function of an event *)

Inductive event : Type :=
| EArrive (v : visit)
| EVisit (i : nat)
| EThread (i : nat)
| ESweep (now_ts : Z) (idx : bytes) (ux : Z) (sk : bytes)
| EPeek (b : BucketId)
| EPolicy (b : BucketId) (p : BucketPolicy)
| ERemove (b : BucketId).

#[local] Instance request_ok_dec req : Decision (request_ok req).
Proof.
  destruct req as [| | | |b ops| |]; simpl; unfold Value.value_ok; try apply _.
  apply and_dec; [apply _|]. apply Forall_dec. intros []; unfold txn_ok, Value.value_ok; refine (decide _).
Defined.

Definition next_visit (i : nat) (w : world) : option world :=
  let '(mkWorld s ts vs) := w in
  match vs !! i with
  | Some (v, Arrived) =>
    match authenticate v s with
    | (Ret (Err r), s') => Some (mkWorld s' ts (<[i := (v, Answered None (Err r))]> vs))
    | (Ret (Ok auth), s') =>
      match plan_of (v_call v) auth with
      | Reply r => Some (mkWorld s' ts (<[i := (v, Answered None r)]> vs))
      | Ask req _ =>
        if decide (request_ok req)
        then Some (mkWorld s' (spawn req ts) (<[i := (v, Waiting auth (length ts))]> vs))
        else None
      end
    | (Panic, _) => None
    end
  | Some (v, Waiting auth j) =>
    match plan_of (v_call v) auth, ts !! j with
    | Ask _ respond, Some (_, Finished r) =>
      Some (mkWorld s ts (<[i := (v, Answered (Some (auth, j)) (respond r))]> vs))
    | _, _ => None
    end
  | _ => None
  end.

Definition next (e : event) (w : world) : option world :=
  let '(mkWorld s ts vs) := w in
  match e with
  | EArrive v => Some (mkWorld s ts (vs ++ [(v, Arrived)]))
  | EVisit i => next_visit i w
  | EThread i => (λ c, mkWorld c.1 c.2 vs) <$> run_thread i (s, ts)
  | ESweep now_ts idx ux sk => Some (mkWorld s (spawn (ReqSweep now_ts idx ux sk) ts) vs)
  | EPeek b => Some (mkWorld (Store.get_policy b s).2 ts vs)
  | EPolicy b p =>
    if decide (PolicyCodec.policy_wf p ∧ policy_consistent p)
    then Some (mkWorld (Store.create_bucket b p s).2 ts vs) else None
  | ERemove b => Some (mkWorld (Store.delete_bucket b s).2 ts vs)
  end.

Fixpoint play (es : list event) (w : world) : option world :=
  match es with [] => Some w | e :: es' => next e w ≫= play es' end.

Lemma run_thread_length i c c' : run_thread i c = Some c' → length c'.2 = length c.2.
Proof.
  destruct c as [s ts]. simpl. intros Hr. repeat case_match; simplify_eq/=; by rewrite length_insert.
Qed.

Lemma next_visit_kstep i w w' : next_visit i w = Some w' → kstep w w'.
Proof.
  destruct w as [s ts vs]. cbn [next_visit]. destruct (vs !! i) as [[v [|auth j|]]|] eqn:Hi; [| |done..].
  - destruct (authenticate v s) as [[[auth|r]|] s'] eqn:Ha; [|intros [= <-]; by eapply s_refuse|done].
    destruct (plan_of (v_call v) auth) as [r|req respond] eqn:Hp; [intros [= <-]; by eapply s_reply|].
    destruct (decide (request_ok req)); [|done]. intros [= <-]. by eapply s_ask.
  - destruct (plan_of (v_call v) auth) as [|req respond] eqn:Hp; [done|].
    destruct (ts !! j) as [[req' [|r|]]|] eqn:Hj; [done| |done..]. intros [= <-]. by eapply s_answer.
Qed.

Lemma next_sstep e w w' : next e w = Some w' → sstep w w'.
Proof.
  destruct w as [s ts vs], e as [v|i|i|now_ts idx ux sk|b|b p|b]; cbn [next].
  - intros [= <-]. apply s_key, s_arrive.
  - intros Hn. by eapply s_key, next_visit_kstep.
  - destruct (run_thread i (s, ts)) as [[s' ts']|] eqn:Hr; [|done]. intros [= <-].
    apply s_key, s_storage; [by eapply run_thread_step|by apply (run_thread_length i (s, ts) (s', ts'))].
  - intros [= <-]. apply s_key, s_sweep.
  - intros [= <-]. destruct (Store.get_policy b s) as [r s'] eqn:E. by eapply s_peek.
  - destruct (decide (PolicyCodec.policy_wf p ∧ policy_consistent p)) as [[? ?]|]; [|done]. intros [= <-].
    destruct (Store.create_bucket b p s) as [r s'] eqn:E. by eapply s_policy.
  - intros [= <-]. destruct (Store.delete_bucket b s) as [r s'] eqn:E. by eapply s_remove.
Qed.

Lemma play_ssteps es w w' : play es w = Some w' → rtc sstep w w'.
Proof.
  revert w. induction es as [|e es IH]; intros w; simpl; [intros [= ->]; constructor|].
  intros (w1 & H1 & H2)%bind_Some. eapply rtc_l; [by eapply next_sstep|auto].
Qed.

End Sessions.

End Sessions.
