(* ===== verification/SessionProps.v ===== *)
(** * Whole requests under interleaving: invariants and theorem

    The storage requests of interleaved sessions ([Sessions]) are linearizable; each of them was
    authorized by the policy its bucket had at an instant since its visitor came; responses are
    those of the handlers. *)

From Stdlib Require Import Strings.Byte.
From S2P Require Import Prelude RustStd TimeLib Domain Counter Ports Codec FjallLib Locks Store StoreSpec StoreList StoreRepo Gc Interleave Linearize StoreProps KeyService KeyProps Concurrency Auth HttpBase HttpRoutes HttpBuckets HttpProps Sessions.
Import Http Interleave.
Import Sessions.

Section Invariants.
Context {T : TimeOps} {P : PostcardOps} {J : PolicyJsonOps} {F : FjallOps} {H : HasherOps}
        {L : LayoutOps}.
Context {JS : JsonOps} {JV : JsonValueOps} {W : WireOps} {C : CryptoOps} {K : TokenOps}.
Context {TL : TimeLaws T} {PL : PostcardLaws P} {JL : PolicyJsonLaws J} {FL : FjallLaws F}
        {LL : LayoutLaws L}.
Context (rk : SigningKey).

(** Code that leaves a keyspace alone. *)
Definition keeps {A E} (ks : keyspace) (m : comp Store.FjallStore A E) : Prop :=
  ∀ s r s', m s = (r, s') → cont s' ks = cont s ks.

Lemma keeps_post {A} ks (m : comp Store.FjallStore A UseCaseError) good
    (Q : Store.FjallStore → A → list batch_op → Prop) :
  (∀ s, wp m s (post s (good s) (Q s) (λ _, False))) →
  (∀ s a ws, Q s a ws → apply_writes (cont s) ws ks = cont s ks) → keeps ks m.
Proof.
  intros Hm HQ s r s' Hr. destruct (wp_elim _ _ _ _ _ (Hm s) Hr) as [_ Hp].
  destruct r as [[a|e]|]; [| |done].
  - destruct Hp as (ws & Hw & Ha). rewrite Ha. by eapply HQ.
  - destruct Hp as [[[] _]|(_ & _ & ws & [->|[a Hw]] & Ha)]; rewrite Ha; [done|]. by eapply HQ.
Qed.

Lemma create_keeps b p : PolicyCodec.policy_wf p → keeps Data (Store.create_bucket b p).
Proof.
  intros Hp. eapply keeps_post; [intros s; by apply spec_create_bucket|].
  intros s a ws (l & _ & ->). done.
Qed.

Lemma remove_keeps b : keeps Data (Store.delete_bucket b).
Proof. eapply keeps_post; [intros s; apply spec_delete_bucket|]. by intros s a ws ->. Qed.

Lemma peek_keeps b ks : keeps ks (Store.get_policy b).
Proof. eapply keeps_post; [intros s; apply spec_get_policy|]. by intros s a ws [-> _]. Qed.

(** *** Storage requests leave the policies alone *)

Lemma keeps_lift {A E} ks (r : result A E) : keeps ks (comp_lift r).
Proof. by intros s ? ? [= _ <-]. Qed.

Lemma keeps_qm {A} ks (r : result A (FjallError fjall_error)) : keeps ks (Store.qm r).
Proof. intros s x s'. unfold Store.qm. by destruct r; intros [= _ <-]. Qed.

Lemma keeps_bind {A B E} ks (m : comp Store.FjallStore A E) (f : A → comp Store.FjallStore B E) :
  keeps ks m → (∀ a, keeps ks (f a)) → keeps ks (comp_bind m f).
Proof.
  intros Hm Hf s r s'. unfold comp_bind. destruct (m s) as [[[a|e]|] s1] eqn:Em; apply Hm in Em.
  - intros Hr. apply Hf in Hr. congruence.
  - by intros [= _ <-].
  - by intros [= _ <-].
Qed.

Lemma keeps_read {A} ks (f : Database → result A fjall_error * Database) ans :
  read_law f ans → keeps ks (Store.on_db f).
Proof.
  intros Hl. eapply (keeps_post ks _ (λ _, False) (λ s a ws, ws = [])); [|by intros s a ws ->].
  intros s. by eapply wp_read.
Qed.

Lemma keeps_write ks f ws :
  write_law f ws → (∀ c, apply_writes c ws ks = c ks) → keeps ks (Store.on_db f).
Proof.
  intros Hl Hw. eapply (keeps_post ks _ (λ _, False) (λ s a ws', ws' = ws)); [|by intros s a ? ->].
  intros s. by eapply wp_write.
Qed.

Lemma keeps_quiet_read {A} ks (f : Database → result A fjall_error * Database) ans :
  read_law f ans → keeps ks (quiet f).
Proof.
  intros Hl s r s'. unfold quiet. destruct (Gc.call f s) as [x s1] eqn:Ec. intros [= _ <-].
  by apply (Gc.call_read _ _ _ _ _ Hl) in Ec as (_ & _ & Hc & _).
Qed.

Lemma keeps_quiet_write ks f ws :
  write_law f ws → (∀ c, apply_writes c ws ks = c ks) → keeps ks (quiet f).
Proof.
  intros Hl Hw s r s'. unfold quiet. destruct (Gc.call f s) as [x s1] eqn:Ec. intros [= _ <-].
  apply (Gc.call_write _ _ _ _ _ Hl) in Ec as (_ & _ & Hc).
  destruct x; [by rewrite Hc|]. destruct Hc as [_ [Hc|Hc]]; by rewrite Hc.
Qed.

Lemma batch_keeps_meta (items : list Store.BatchItem) (c : keyspace → gmap bytes bytes) :
  apply_writes c (items ≫= Store.item_writes) Meta = c Meta.
Proof.
  revert c. induction items as [|[k l [idx|]|k] items IH]; intros c; [done|..];
    rewrite bind_cons, apply_writes_app, IH; done.
Qed.

(** Every piece of a program leaves the policies alone. *)
Fixpoint keeps_policies {A} (p : prog A) : Prop :=
  match p with Done _ => True | Step m k => keeps Meta m ∧ ∀ b, keeps_policies (k b) end.

Create HintDb keeps.
#[local] Hint Resolve keeps_lift keeps_qm keeps_bind : keeps.

Lemma get_keeps b k : keeps Meta (get_entry b k).
Proof. eapply keeps_post; [intros s; apply get_entry_spec|]. by intros s a ws [-> _]. Qed.

Lemma write_keeps sk l e : keeps Meta (Store.write_entry sk l e).
Proof.
  eapply (keeps_post Meta _ (λ _, False)); [intros s; by apply (spec_write_entry s False)|].
  intros s a ws ->. unfold entry_writes. by destruct e.
Qed.

Lemma increment_keeps now o e found : keeps Meta (increment_entry now o e found).
Proof.
  unfold increment_entry. apply keeps_bind; [|intros; repeat (apply keeps_bind; [auto with keeps|intros]); apply keeps_lift].
  destruct found as [l|]; [|apply (keeps_lift Meta (Ok _))]. apply keeps_bind; [auto with keeps|]. intros en.
  destruct (match expires_at en with Some exp => _ | None => _ end); [apply (keeps_lift Meta (Ok _))|auto with keeps].
Qed.

Lemma list_keeps b opts : keeps Meta (Store.list_inner b opts).
Proof.
  intros s r s' Hr. destruct (wp_elim _ _ _ _ _ (list_inner_post s b opts) Hr) as (_ & Ha & _).
  by rewrite Ha.
Qed.

Lemma body_keeps req : keeps_policies (body req).
Proof.
  destruct req as [b k|b k v e|b k|now b k o e|b ops|b opts|now_ts idx ts sk]; simpl.
  - split; [apply get_keeps|done].
  - split; [apply keeps_qm|]. intros l. split; [apply write_keeps|done].
  - split; [eapply keeps_read, contains_key_law|]. intros [].
    + split; [by eapply keeps_write; [apply remove_law|]|done].
    + split; [apply (keeps_lift Meta (Ok tt))|done].
  - split; [eapply keeps_read, get_law|]. intros found. split; [apply increment_keeps|].
    intros vl. split; [apply write_keeps|done].
  - case_bool_decide; [done|]. split; [apply keeps_qm|]. intros items.
    split; [by eapply keeps_write; [apply commit_law|apply batch_keeps_meta]|done].
  - split; [apply list_keeps|done].
  - split; [by eapply keeps_quiet_write; [apply remove_law|]|]. intros [u|e]; [|done].
    split; [eapply keeps_quiet_read, get_law|]. intros [[v|]|e]; simpl; try done.
    destruct (due now_ts ts v); [|done].
    split; [by eapply keeps_quiet_write; [apply remove_law|]|done].
Qed.

(** What the extractor read, and that it only read. *)
Lemma extractor_read now parts s r s' :
  from_request_parts now rk parts s = (r, s') →
  (∀ ks, cont s' ks = cont s ks)
  ∧ ∀ auth, r = Ret (Ok auth) →
      ∃ p, policy_view s (bucket_id auth) = Some p ∧ auth_of auth p
           ∧ Auth.resolve (Http.as_str <$> extract (headers parts) (uri_query parts)) p (bucket_id auth) rk now
             = Ok (identity auth).
Proof.
  unfold from_request_parts, comp_bind, comp_lift, spawn_usecase. simpl.
  destruct (bucket_id_from_path _) as [id|]; simpl; [|by intros [= <- <-]].
  destruct (Store.get_policy id s) as [o s1] eqn:Eg.
  destruct (wp_elim _ _ _ _ _ (spec_get_policy s id) Eg) as [_ Hp].
  assert (∀ ks, cont s1 ks = cont s ks) as Hc by (intros ks; by eapply peek_keeps).
  destruct o as [[found|e]|]; simpl; [|by intros [= <- <-]..].
  destruct Hp as (ws & [_ ->] & _). destruct (policy_view s id) as [p|] eqn:Ep; simpl; [|by intros [= <- <-]].
  destruct (Auth.resolve _ p id rk now) as [who|] eqn:Er; simpl; intros [= <- <-];
    (split; [done|]); intros auth Ha; simplify_eq/=. by exists p.
Qed.

Lemma authenticate_read v s r s' :
  authenticate rk v s = (r, s') →
  (∀ ks, cont s' ks = cont s ks)
  ∧ ∀ auth, r = Ret (Ok auth) →
      ∃ p, policy_view s (bucket_id auth) = Some p ∧ auth_of auth p
           ∧ Auth.resolve (credential v) p (bucket_id auth) rk (v_now v) = Ok (identity auth).
Proof. apply extractor_read. Qed.

(** *** Linearizability carries over *)

Lemma lin_sstep s0 log w w' :
  lin s0 log (data w) → sstep rk w w' → ∃ ext, lin s0 (log ++ ext) (data w').
Proof.
  intros Hl Hs. unfold data in *.
  destruct Hs as [? ? [s ts vs v|s ts vs i v r s' _ Ha|s ts vs i v auth r s' _ Ha _
    |s ts vs i v auth req respond s' _ Ha _ Hok|s ts vs s' ts' Hst _|s ts vs i v auth j req req' respond r _ _ _
    |s ts vs now_ts idx ux sk]|s ts vs b r s' Hg|s ts vs b p r s' Hp _ Hc|s ts vs b r s' Hc]; simpl in *;
    try (by eapply lin_step); exists []; rewrite app_nil_r; try done.
  - by eapply lin_elsewhere; [|apply (authenticate_read _ _ _ _ Ha)].
  - by eapply lin_elsewhere; [|apply (authenticate_read _ _ _ _ Ha)].
  - apply lin_spawn; [|by apply request_ok_wf]. by eapply lin_elsewhere; [|apply (authenticate_read _ _ _ _ Ha)].
  - by apply lin_spawn.
  - by eapply lin_elsewhere; [|eapply peek_keeps].
  - by eapply lin_elsewhere; [|eapply create_keeps].
  - by eapply lin_elsewhere; [|eapply remove_keeps].
Qed.

Lemma lin_ssteps s0 log w w' :
  rtc (sstep rk) w w' → lin s0 log (data w) → ∃ ext, lin s0 (log ++ ext) (data w').
Proof.
  intros Hs. revert log. induction Hs as [w|w1 w2 w3 Hs _ IH]; intros log Hl.
  - exists []. by rewrite app_nil_r.
  - destruct (lin_sstep _ _ _ _ Hl Hs) as [e1 H1]. destruct (IH _ H1) as [e2 H2].
    exists (e1 ++ e2). by rewrite app_assoc.
Qed.

(** *** Policies stay consistent *)

Definition consistent (s : Store.FjallStore) : Prop :=
  ∀ b p, policy_view s b = Some p → policy_consistent p.

Definition thread_keeps (x : request * thread) : Prop :=
  match x.2 with Running _ _ p => keeps_policies p | Finished _ | Panicked => True end.

Lemma consistent_meta s s' : cont s' Meta = cont s Meta → consistent s → consistent s'.
Proof. intros Hm Hc b p. unfold policy_view, policy_map. rewrite Hm. apply Hc. Qed.

Lemma advance_keeps p s r s' :
  keeps_policies p → advance p s = Some (r, s') →
  cont s' Meta = cont s Meta ∧ ∀ q, r = Ret (Ok q) → keeps_policies q.
Proof.
  destruct p as [|B m k]; [done|]. intros [Hm Hk]. simpl.
  destruct (m s) as [[[b|e]|] s1] eqn:Em; intros [= <- <-]; (split; [by apply Hm in Em|]); intros q Hq;
    simplify_eq/=; auto.
Qed.

Lemma storage_meta s ts s' ts' :
  step (s, ts) (s', ts') → Forall thread_keeps ts →
  cont s' Meta = cont s Meta ∧ Forall thread_keeps ts'.
Proof.
  intros Hs Hk. inversion Hs; subst.
  - split; [done|]. apply list.Forall_app. split; [done|]. constructor; [apply body_keeps|done].
  - split; [done|]. apply Forall_insert; [done|].
    match goal with Hi : ts !! _ = Some _ |- _ => exact (Forall_lookup_1 _ _ _ _ Hk Hi) end.
  - match goal with Hi : ts !! _ = Some _, Ha : advance _ _ = _ |- _ =>
      pose proof (Forall_lookup_1 _ _ _ _ Hk Hi) as Hp; destruct (advance_keeps _ _ _ _ Hp Ha) as [Hm Hq] end.
    split; [done|]. apply Forall_insert; [done|]. by apply Hq.
  - match goal with Hi : ts !! _ = Some _, Ha : advance _ _ = _ |- _ =>
      pose proof (Forall_lookup_1 _ _ _ _ Hk Hi) as Hp; destruct (advance_keeps _ _ _ _ Hp Ha) as [Hm _] end.
    split; [|by apply Forall_insert]. by rewrite (proj2 (view_finish _ _ _)).
  - match goal with Hi : ts !! _ = Some _, Ha : advance _ _ = _ |- _ =>
      pose proof (Forall_lookup_1 _ _ _ _ Hk Hi) as Hp; destruct (advance_keeps _ _ _ _ Hp Ha) as [Hm _] end.
    split; [done|by apply Forall_insert].
  - split; [|by apply Forall_insert]. by rewrite (proj2 (view_finish _ _ _)).
Qed.

(** What creation and removal do to the policies, whether they succeed or fail. *)
Lemma create_view s b p r s' :
  PolicyCodec.policy_wf p → Store.create_bucket b p s = (r, s') →
  (∀ b', policy_view s' b' = policy_view s b')
  ∨ ∀ b', policy_view s' b' = if decide (b' = b) then Some p else policy_view s b'.
Proof.
  intros Hw Hr. destruct (wp_elim _ _ _ _ _ (spec_create_bucket s b p Hw) Hr) as [_ Hx].
  assert (applied s s' [] ∨ ∃ l, encode_policy p = Ok l ∧ applied s s' [BatchInsert Meta (Bucket.as_str b) l])
    as [Ha|(l & Hl & Ha)].
  { destruct r as [[u|e]|]; [|destruct Hx as [[[] _]|(_ & _ & ws & [->|[u (l & Hl & ->)]] & Ha)]|done];
      [destruct Hx as (ws & (l & Hl & ->) & Ha)|..]; eauto. }
  - left. intros b'. by apply (policy_map_ext _ _ b' Ha).
  - right. intros b'. unfold policy_view. rewrite (policy_map_ext _ _ b' Ha). by apply policy_insert.
Qed.

Lemma remove_view s b r s' :
  Store.delete_bucket b s = (r, s') →
  (∀ b', policy_view s' b' = policy_view s b')
  ∨ ∀ b', policy_view s' b' = if decide (b' = b) then None else policy_view s b'.
Proof.
  intros Hr. destruct (wp_elim _ _ _ _ _ (spec_delete_bucket s b) Hr) as [_ Hx].
  assert (applied s s' [] ∨ applied s s' [BatchRemove Meta (Bucket.as_str b)]) as [Ha|Ha].
  { destruct r as [[u|e]|]; [|destruct Hx as [[[] _]|(_ & _ & ws & [->|[u ->]] & Ha)]|done];
      [destruct Hx as (ws & -> & Ha)|..]; eauto. }
  - left. intros b'. by apply (policy_map_ext _ _ b' Ha).
  - right. intros b'. unfold policy_view. rewrite (policy_map_ext _ _ b' Ha). apply policy_remove.
Qed.

Lemma create_consistent s b p r s' :
  PolicyCodec.policy_wf p → policy_consistent p → Store.create_bucket b p s = (r, s') →
  consistent s → consistent s'.
Proof.
  intros Hw Hp Hr Hc b' q. destruct (create_view _ _ _ _ _ Hw Hr) as [->| ->]; [apply Hc|].
  case_decide; [by intros [= <-]|apply Hc].
Qed.

Lemma remove_consistent s b r s' :
  Store.delete_bucket b s = (r, s') → consistent s → consistent s'.
Proof.
  intros Hr Hc b' q. destruct (remove_view _ _ _ _ Hr) as [->| ->]; [apply Hc|].
  case_decide; [done|apply Hc].
Qed.

Definition policies_ok (w : world) : Prop := consistent (w_store w) ∧ Forall thread_keeps (w_threads w).

Lemma spawn_keeps req ts : Forall thread_keeps ts → Forall thread_keeps (spawn req ts).
Proof. intros Hk. apply list.Forall_app. split; [done|]. constructor; [apply body_keeps|done]. Qed.

(** Key traffic leaves the policies alone. *)
Lemma kstep_meta w w' :
  kstep rk w w' → Forall thread_keeps (w_threads w) →
  cont (w_store w') Meta = cont (w_store w) Meta ∧ Forall thread_keeps (w_threads w').
Proof.
  intros Hs Hk.
  destruct Hs as [s ts vs v|s ts vs i v r s' _ Ha|s ts vs i v auth r s' _ Ha _
    |s ts vs i v auth req respond s' _ Ha _ Hok|s ts vs s' ts' Hst _|s ts vs i v auth j req req' respond r _ _ _
    |s ts vs now_ts idx ux sk]; simpl in *;
    try (pose proof (proj1 (authenticate_read _ _ _ _ Ha) Meta)); try (by eapply storage_meta);
    (split; [|auto using spawn_keeps]); done.
Qed.

Lemma policies_step w w' : sstep rk w w' → policies_ok w → policies_ok w'.
Proof.
  unfold policies_ok. intros Hs [Hc Hk].
  destruct Hs as [w w' Hs|s ts vs b r s' Hg|s ts vs b p r s' Hw Hp Hr|s ts vs b r s' Hr]; simpl in *.
  - destruct (kstep_meta _ _ Hs Hk) as [Hm ?]. split; [by eapply consistent_meta|done].
  - split; [|done]. eapply consistent_meta; [by eapply peek_keeps|done].
  - split; [by eapply create_consistent|done].
  - split; [by eapply remove_consistent|done].
Qed.

Lemma policies_steps w w' : rtc (sstep rk) w w' → policies_ok w → policies_ok w'.
Proof. induction 1; eauto using policies_step. Qed.

(** *** Who asked *)

(** [justified w1 w req]: since [w1] a visitor of [w] was authenticated for the request, by the
    policy its bucket had at that instant. *)
Definition justified (w1 w : world) (req : request) : Prop :=
  ∃ wm v auth respond p,
    rtc (sstep rk) w1 wm ∧ rtc (sstep rk) wm w ∧ v ∈ (w_visits w).*1
    ∧ plan_of (v_call v) auth = Ask req respond
    ∧ policy_view (w_store wm) (bucket_id auth) = Some p
    ∧ Auth.resolve (credential v) p (bucket_id auth) rk (v_now v) = Ok (identity auth)
    ∧ permits p (bucket_id auth) (identity auth) req.

Definition is_sweep (req : request) : Prop := ∃ now_ts idx ux sk, req = ReqSweep now_ts idx ux sk.

(** Every request of [w] that [w1] did not have yet. *)
Definition all_justified (w1 w : world) : Prop :=
  ∀ j req t, w_threads w !! j = Some (req, t) → w_threads w1 !! j = None →
    is_sweep req ∨ justified w1 w req.

(** The storage request of a visitor is the one its handler planned, and a response is the one
    the handler gives to the outcome of that request. *)
Definition linked (ts : list (request * thread)) (x : visit * stage) : Prop :=
  match x.2 with
  | Waiting auth j =>
    ∃ req respond t, plan_of (v_call x.1) auth = Ask req respond ∧ ts !! j = Some (req, t)
  | Answered (Some (auth, j)) resp =>
    ∃ req respond r, plan_of (v_call x.1) auth = Ask req respond
      ∧ ts !! j = Some (req, Finished r) ∧ resp = respond r
  | _ => True
  end.

Lemma step_threads s ts s' ts' :
  step (s, ts) (s', ts') → length ts' = length ts →
  (∀ j req t', ts' !! j = Some (req, t') → ∃ t, ts !! j = Some (req, t))
  ∧ (∀ j req r, ts !! j = Some (req, Finished r) → ts' !! j = Some (req, Finished r))
  ∧ (∀ j req t, ts !! j = Some (req, t) → ∃ t', ts' !! j = Some (req, t')).
Proof.
  intros Hs Hlen.
  assert ((∃ i req t t', ts !! i = Some (req, t) ∧ ts' = <[i := (req, t')]> ts ∧ ∀ r, t ≠ Finished r))
    as (i & req & t & t' & Hi & -> & Hrun).
  { inversion Hs; subst; [rewrite length_app in Hlen; simpl in Hlen; lia|..];
      eexists _, _, _, _; (split; [eassumption|]); by split. }
  split_and!.
  - intros j rj tj Hj. apply list_lookup_insert_Some in Hj as [(-> & [= -> ->] & _)|[_ Hj]]; eauto.
  - intros j rj r Hj. rewrite list_lookup_insert_ne; [done|]. intros ->. rewrite Hi in Hj. simplify_eq.
    by destruct (Hrun r).
  - intros j rj tj Hj. destruct (decide (i = j)) as [<-|Hij].
    + rewrite Hi in Hj. simplify_eq. exists t'. apply list_lookup_insert_eq. by eapply lookup_lt_Some.
    + exists tj. by rewrite list_lookup_insert_ne.
Qed.

Lemma spawn_lookup req ts j req' t :
  spawn req ts !! j = Some (req', t) → ts !! j = Some (req', t) ∨ ts !! j = None ∧ req' = req.
Proof.
  unfold spawn. intros Hj. apply lookup_app_Some in Hj as [Hj|[Hge Hj]]; [by left|right].
  apply list_lookup_singleton_Some in Hj as [_ [= -> _]].
  split; [by apply lookup_ge_None|done].
Qed.

Lemma spawn_old req ts j x : ts !! j = Some x → spawn req ts !! j = Some x.
Proof. apply lookup_app_l_Some. Qed.

(** Visitors stay. *)
Lemma visits_kept w w' : sstep rk w w' → (w_visits w).*1 ⊆ (w_visits w').*1.
Proof.
  intros Hs. destruct Hs as [? ? []| | |]; simpl; try done; try (rewrite fmap_app; set_solver);
    rewrite list_fmap_insert; simpl; rewrite list_insert_id; try done;
    rewrite list_lookup_fmap; by match goal with H : _ !! _ = Some _ |- _ => rewrite H end.
Qed.

Lemma justified_step w1 w w' req : sstep rk w w' → justified w1 w req → justified w1 w' req.
Proof.
  intros Hs (wm & v & auth & respond & p & H1 & H2 & Hv & Hrest).
  exists wm, v, auth, respond, p. split; [done|]. split; [by eapply rtc_r|].
  split; [by eapply visits_kept|done].
Qed.

(** The threads a step has, and where a new one comes from. *)
Lemma threads_step w w' j req t :
  policies_ok w → sstep rk w w' → w_threads w' !! j = Some (req, t) →
  (∃ t0, w_threads w !! j = Some (req, t0)) ∨ is_sweep req ∨ justified w w' req.
Proof.
  intros [Hcons _] Hs Hj. pose proof (visits_kept _ _ Hs) as Hvk. pose proof Hs as Hs'.
  destruct Hs as [? ? [s ts vs v|s ts vs i v r s' _ Ha|s ts vs i v auth r s' _ Ha _
    |s ts vs i v auth req' respond s' Hi Ha Hp Hok|s ts vs s' ts' Hst Hlen
    |s ts vs i v auth j' req' req'' respond r _ _ _
    |s ts vs now_ts idx ux sk]|s ts vs b r s' Hg|s ts vs b p r s' Hp _ Hc|s ts vs b r s' Hc]; simpl in *; eauto.
  - apply spawn_lookup in Hj as [?|[_ ->]]; [eauto|]. right. right.
    destruct (authenticate_read v s _ s' Ha) as [_ Hr].
    destruct (Hr auth eq_refl) as (p & Hpv & Hao & Hres).
    exists (mkWorld s ts vs), v, auth, respond, p. split; [done|]. split; [by apply rtc_once|].
    split; [|split_and!; try done; eapply plan_permits; [by eapply Hcons|done|done]].
    apply Hvk. apply list_elem_of_fmap. exists (v, Arrived). split; [done|]. by eapply list_elem_of_lookup_2.
  - destruct (step_threads _ _ _ _ Hst Hlen) as [Hold _]. left. eauto.
  - apply spawn_lookup in Hj as [?|[_ ->]]; [eauto|]. right. left. by eexists _, _, _, _.
Qed.

Lemma justified_later w1 w w' req : rtc (sstep rk) w1 w → justified w w' req → justified w1 w' req.
Proof.
  intros Hr (wm & v & auth & respond & p & H1 & Hrest). exists wm, v, auth, respond, p.
  split; [by etrans|done].
Qed.

Lemma all_justified_steps w1 w2 : policies_ok w1 → rtc (sstep rk) w1 w2 → all_justified w1 w2.
Proof.
  intros Hok. revert w2. apply rtc_ind_r; [by intros j req t H1 H2; congruence|]. intros w w' Hr Hs IH j req t Hj Hn.
  destruct (threads_step _ _ _ _ _ (policies_steps _ _ Hr Hok) Hs Hj) as [[t0 Ht]|[?|Hju]].
  - destruct (IH _ _ _ Ht Hn) as [?|?]; [by left|right]. by eapply justified_step.
  - by left.
  - right. by eapply justified_later.
Qed.

(** *** Responses *)

Lemma threads_kept w w' j req t :
  sstep rk w w' → w_threads w !! j = Some (req, t) →
  ∃ t', w_threads w' !! j = Some (req, t') ∧ ∀ r, t = Finished r → t' = Finished r.
Proof.
  intros Hs Hj. destruct Hs as [? ? []| | |]; simpl in *; try (exists t; split; [|done]; by try apply spawn_old).
  match goal with Hst : step _ _, Hl : length _ = length _ |- _ =>
    destruct (step_threads _ _ _ _ Hst Hl) as (_ & Hfin & Hold) end.
  destruct (Hold _ _ _ Hj) as [t' Ht']. exists t'. split; [done|]. intros r ->.
  apply Hfin in Hj. congruence.
Qed.

Lemma linked_kept w w' x : sstep rk w w' → linked (w_threads w) x → linked (w_threads w') x.
Proof.
  intros Hs. destruct x as [v [|auth j|[[auth j]|] resp]]; [done| | |done].
  - intros (req & respond & t & Hp & Ht). destruct (threads_kept _ _ _ _ _ Hs Ht) as (t' & Ht' & _).
    by exists req, respond, t'.
  - intros (req & respond & r & Hp & Ht & Hr). destruct (threads_kept _ _ _ _ _ Hs Ht) as (t' & Ht' & Hf).
    rewrite (Hf r eq_refl) in Ht'. by exists req, respond, r.
Qed.

Lemma linked_step w w' :
  sstep rk w w' → Forall (linked (w_threads w)) (w_visits w) → Forall (linked (w_threads w')) (w_visits w').
Proof.
  intros Hs Hl. assert (Forall (linked (w_threads w')) (w_visits w)) as Hl'.
  { eapply list.Forall_impl; [exact Hl|]. intros x. by apply linked_kept. }
  destruct Hs as [? ? [s ts vs v|s ts vs i v r s' _ Ha|s ts vs i v auth r s' _ Ha _
    |s ts vs i v auth req respond s' _ Ha Hp Hok|s ts vs s' ts' Hst _
    |s ts vs i v auth j req req' respond r Hi Hp Hj
    |s ts vs now_ts idx ux sk]|s ts vs b r s' Hg|s ts vs b p r s' _ _ _|s ts vs b r s' _]; simpl in *; try done.
  - apply list.Forall_app. split; [done|]. by constructor.
  - by apply Forall_insert.
  - by apply Forall_insert.
  - apply Forall_insert; [done|]. exists req, respond, (Running [] (plan req) (body req)).
    split; [done|]. unfold spawn. by rewrite list_lookup_middle.
  - apply Forall_insert; [done|].
    destruct (Forall_lookup_1 _ _ _ _ Hl Hi) as (req1 & respond1 & t & Hp1 & Ht). simpl in Hp1.
    exists req, respond, r. split; [done|]. split; [|done]. congruence.
Qed.

Lemma linked_steps s0 w :
  rtc (sstep rk) (mkWorld s0 [] []) w → Forall (linked (w_threads w)) (w_visits w).
Proof.
  revert w. apply rtc_ind_r; [constructor|]. intros w w' _ Hs IH. by eapply linked_step.
Qed.

(** C2: Whole requests under interleaving. Key requests, transactions and listings arrive at any
    time, are authenticated against the policy of their bucket, and ask the storage, where their
    backend calls interleave with each other, with the sweeper and with policies being created,
    replaced and removed, over a backend that may fail. Their storage requests are linearizable,
    in an order that only grows. Starting from consistent policies, every storage request that
    appears after some instant was made by a visitor whose credential the policy of the bucket,
    as it was at an instant since then, resolved to an identity that may make it (every key it
    touches granted, every listing within the scope of its token): a change of policy binds every
    request authenticated after it. And each visitor is answered with the response of its handler
    to the outcome its request has in that order. *)
Theorem sessions_authorized (s0 : Store.FjallStore) (w1 w2 : world) :
  data_wf (cont s0) → consistent s0 →
  rtc (sstep rk) (mkWorld s0 [] []) w1 → rtc (sstep rk) w1 w2 →
  (∃ log1 log2, explains s0 log1 (data w1) ∧ explains s0 (log1 ++ log2) (data w2)
     ∧ ∀ i v auth j resp, w_visits w2 !! i = Some (v, Answered (Some (auth, j)) resp) →
         ∃ req respond r, plan_of (v_call v) auth = Ask req respond
           ∧ (j, req, r) ∈ log1 ++ log2 ∧ resp = respond r)
  ∧ ∀ j req t, w_threads w2 !! j = Some (req, t) → w_threads w1 !! j = None →
      is_sweep req ∨ justified w1 w2 req.
Proof.
  intros Hd Hc H1 H2. split; [|apply all_justified_steps; [by eapply policies_steps|done]].
  destruct (lin_ssteps s0 [] _ _ H1 (lin_init s0 Hd)) as [log1 Hl1].
  destruct (lin_ssteps s0 _ _ _ H2 Hl1) as [log2 Hl2]. exists log1, log2.
  split; [apply Hl1|]. split; [apply Hl2|]. intros i v auth j resp Hi.
  assert (rtc (sstep rk) (mkWorld s0 [] []) w2) as Hr by (by etrans).
  destruct (Forall_lookup_1 _ _ _ _ (linked_steps s0 w2 Hr) Hi) as (req & respond & r & Hp & Ht & Hresp).
  exists req, respond, r. split; [done|]. split; [|done].
  destruct (lin_explains _ _ _ Hl2) as (_ & _ & Hfin & _). by apply Hfin.
Qed.

End Invariants.

(** ** Witness *)

(** An anonymous write is authenticated; the bucket is removed while the write is under way. The
    write completes, and the reader who comes next finds no bucket. *)
Definition no_headers : Headers := mkHeaders None None None.

Definition demo_parts (hs : Headers) : Parts := mkParts (bs "/" ++ Bucket.as_str demo_bucket ++ bs "/k") None hs.

Definition writer : visit :=
  mkVisit (demo_parts no_headers) (at_nanos 0) (PutKey (at_nanos 0) (bs "k") None no_headers (bs "hi")).

Definition reader : visit :=
  mkVisit (demo_parts (mkHeaders (Some (bs "Bearer reader")) None None)) (at_nanos 0)
    (GetKey (at_nanos 0) (bs "k")).

Definition demo_before : list event := [EPolicy demo_bucket http_policy; EArrive writer].
Definition demo_after : list event :=
  [EVisit 0; EThread 0; EThread 0; ERemove demo_bucket; EThread 0; EThread 0; EVisit 0;
   EArrive reader; EVisit 1]%nat.

Definition played (es : list event) (w : world) : world := default w (play demo_rk es w).

Lemma played_ssteps es w :
  Concurrency.is_some (play demo_rk es w) = true → rtc (sstep demo_rk) w (played es w).
Proof.
  unfold played. destruct (play demo_rk es w) as [w'|] eqn:E; [|done]. intros _.
  by eapply play_ssteps.
Qed.

(** The statuses of the answers so far. *)
Definition statuses (w : world) : list (option N) :=
  (λ x, match x.2 with
        | Answered _ (Ok r) | Answered _ (Err r) => Some (status r)
        | _ => None
        end) <$> w_visits w.

Lemma sessions_authorized_witness :
  let w1 := played demo_before (mkWorld demo0 [] []) in
  let w2 := played demo_after w1 in
  statuses w2 = [Some 200%N; Some 404%N]
  ∧ ∀ j req t, w_threads w2 !! j = Some (req, t) → w_threads w1 !! j = None →
      is_sweep req ∨ justified demo_rk w1 w2 req.
Proof.
  intros w1 w2. split; [vm_refl|]. apply (sessions_authorized demo_rk demo0 w1 w2).
  - exact demo0_wf.
  - by intros b p.
  - apply played_ssteps. vm_refl.
  - apply played_ssteps. vm_refl.
Defined.
