(* ===== verification/HttpListing.v ===== *)
(** * Properties of the HTTP layer: creation, values over HTTP, parsing and rendering *)

From Stdlib Require Import Strings.Byte.
From S2P Require Import Prelude RustStd TimeLib Domain Counter Ports Codec FjallLib Locks Store StoreSpec StoreList StoreRepo StoreProps KeyService KeyProps Auth HttpBase HttpRoutes HttpBuckets HttpProps.
Import Http.

Section Handlers.
Context {T : TimeOps} {TL : TimeLaws T} {JS : JsonOps} {JV : JsonValueOps} {W : WireOps}.
Context {C : CryptoOps} {CL : CryptoLaws C} {K : TokenOps} {KL : TokenLaws K}.
Context {S : Type} {BR : BucketRepository S} {KR : KeyRepository S}.
Context {BS : BucketRepoSpec S} {KS : KeyRepoSpec S}.

(** A created bucket is usable with its keys. When creation succeeds the response carries
    the bucket id, the stored policy has the anonymous permissions its keys imply, generation
    zero and the requested (or the seven-day) default TTL, and the secret key of the form, if it
    is not empty, resolves to admin on that bucket. Other buckets keep their policies. *)
Theorem created_bucket_usable (rk : SigningKey) (uuid : bytes) (form : Buckets.CreateBucketForm)
    (s s' : S) (resp : Response) :
  (∀ p, Buckets.new_policy rk form = Ok p → br_storable p) →
  Buckets.create_bucket rk uuid form s = (Ret (Ok resp), s') →
  Buckets.is_minimally_valid_email (Buckets.f_email form) = true
  ∧ resp = mkResponse 200 (Raw Buckets.text_plain uuid)
  ∧ ∃ p, (∀ b, br_policy s' b = if decide (b = mkBucketId uuid) then Some p else br_policy s b)
      ∧ policy_consistent p ∧ signing_key_generation p = 0%N
      ∧ default_ttl_secs p
        = Some (default Buckets.DEFAULT_BUCKET_TTL_SECS (Buckets.f_default_ttl form))
      ∧ ∀ secret now, Buckets.f_secret_key form = Some secret → secret ≠ [] →
          Auth.resolve (Some secret) p (mkBucketId uuid) rk now = Ok Auth.Admin.
Proof.
  intros Hst. unfold Buckets.create_bucket.
  destruct (Buckets.is_minimally_valid_email (Buckets.f_email form)); simpl; [|done].
  destruct (new_policy_ok rk form) as (p & Hp & Hc & Hg & Ht & _ & Hsec & _). intros Hr.
  apply comp_bind_inv_ok in Hr as (p' & s1 & Hp' & Hr). injection Hp' as Hp' <-.
  rewrite Hp in Hp'. injection Hp' as <-.
  destruct (Bucket.new uuid) as [id|] eqn:Eid; [|done].
  assert (id = mkBucketId uuid) as ->.
  { unfold Bucket.new in Eid. case_bool_decide; [done|]. by injection Eid as <-. }
  apply comp_bind_inv_ok in Hr as (u & s1 & Hcr & Hr). apply spawn_usecase_ok in Hcr. destruct u.
  injection Hr as <- <-. split; [done|]. split; [done|]. exists p.
  split; [apply (br_create s _ p s1 (Hst p Hp) Hcr)|]. split_and!; try done.
  intros secret now Hs Hne.
  assert (Auth.is_hash rk secret (secret_key_hash p)) as Hh.
  { apply Hsec. rewrite Hs. simpl. by rewrite bool_decide_eq_false_2. }
  unfold Auth.resolve. by rewrite (proj2 (Auth.verify_credential_iff secret rk (secret_key_hash p)) Hh).
Qed.

(** A value written over HTTP is the value read over HTTP. After a [PUT] that succeeds, the
    response echoes the body with the content type of its inferred kind, and a [GET] of the same
    key by any caller allowed to read it answers with that same response until the TTL (query
    parameter, else bucket default) has run out and 404 from then on; [HEAD] answers with the
    same status and content type and no body. *)
Theorem http_put_then_get (now : OffsetDateTime) (a : BucketAuth) (key : bytes) (ttl : option N)
    (hs : Headers) (body : bytes) (s s1 : S) (resp : Response) :
  kr_good s → kr_bucket (bucket_id a) →
  Keys.put_key now a key ttl hs body s = (Ret (Ok resp), s1) →
  ∃ k v, parse_percent_encoded_key key = Ok k ∧ payload v = body
    ∧ resp = mkResponse 200 (Raw (Keys.content_type_for_kind (kind v)) body)
    ∧ ∀ a' now', bucket_id a' = bucket_id a → require_read_on a' k = Ok tt →
        let visible := match KeyService.effective_ttl ttl (auth_default_ttl_secs a) with
                       | None | Some 0%N => true
                       | Some secs => unix_timestamp now' <? unix_timestamp now + Z.of_N secs
                       end in
        (Keys.get_key now' a' key s1).1 = Ret (if visible then Ok resp else Err not_found)
        ∧ (Keys.head_key now' a' key s1).1
          = Ret (if visible
                 then Ok (mkResponse 200 (Raw (Keys.content_type_for_kind (kind v)) []))
                 else Err not_found).
Proof.
  intros Hg Hb Hput. unfold Keys.put_key in Hput.
  apply comp_bind_inv_ok in Hput as (k & s0 & Hk & Hput). injection Hk as Hk <-.
  apply comp_bind_inv_ok in Hput as (u & s0 & Hu & Hput). injection Hu as _ <-.
  apply comp_bind_inv_ok in Hput as (v & s2 & Hset & Hput). apply spawn_usecase_ok in Hset.
  injection Hput as <- <-.
  destruct (set_get_outcome s now (bucket_id a) k body (h_content_type hs ≫= header_to_str) ttl
    (auth_default_ttl_secs a) Hg Hb) as (s1' & Hs1 & _ & Hv).
  assert (s1' = s2) as -> by (rewrite Hset in Hs1; by injection Hs1).
  destruct (Hv v Hset) as (Hp & _ & Hget).
  exists k, v. split; [done|]. split; [done|]. split; [by rewrite Hp|]. intros a' now' Hid Hread.
  destruct (Hget now') as (en & s3 & Hen & Hres).
  unfold Keys.get_key, Keys.head_key, comp_bind, comp_lift. rewrite Hk, Hread, Hid.
  unfold spawn_usecase. rewrite Hres. cbn zeta.
  set (visible := match KeyService.effective_ttl ttl (auth_default_ttl_secs a) with
                  | Some 0%N => _ | Some _ => _ | None => _ end).
  destruct visible; simpl; [|done]. rewrite Hen. unfold Keys.stored_value_response. by rewrite Hp.
Qed.

End Handlers.

(** ** Parsing and rendering *)

Definition trimmed_parts (raw : bytes) : list bytes :=
  filter (λ p, p ≠ []) (Utf8.trim <$> split ","%byte raw).

Definition known_permissions : list bytes := [bs "read"; bs "write"; bs "enumerate"; bs "delete"].

Definition permissions_of (parts : list bytes) : Permission :=
  Permission.new (bool_decide (bs "read" ∈ parts)) (bool_decide (bs "write" ∈ parts))
    (bool_decide (bs "enumerate" ∈ parts)) (bool_decide (bs "delete" ∈ parts)).

Lemma add_permissions_spec parts p :
  TokensRoute.add_permissions p parts
  = let ps := filter (λ p, p ≠ []) (Utf8.trim <$> parts) in
    if forallb (λ x, bool_decide (x ∈ known_permissions)) ps
    then Ok (Permission.union p (permissions_of ps)) else Err bad_request.
Proof.
  revert p. induction parts as [|x parts IH]; intros p; simpl.
  { unfold permissions_of. by destruct p as [[] [] [] []]. }
  unfold TokensRoute.add_permission. rewrite filter_cons.
  case_bool_decide as H0; [rewrite decide_False by (intros Hn; by apply Hn); apply IH|].
  rewrite decide_True by done. simpl.
  assert (∀ y, y ∈ known_permissions ↔ y = bs "read" ∨ y = bs "write" ∨ y = bs "enumerate" ∨ y = bs "delete")
    as Hk by (intros y; unfold known_permissions; set_solver).
  set (t := Utf8.trim x) in *. set (ps := filter _ _) in *.
  assert (∀ w, bool_decide (w ∈ t :: ps) = bool_decide (w = t) || bool_decide (w ∈ ps)) as Hb.
  { intros w. rewrite <- bool_decide_or. apply bool_decide_ext. by rewrite elem_of_cons. }
  unfold permissions_of. rewrite !Hb. clearbody t.
  destruct (decide (t ∈ known_permissions)) as [Hin|Hout].
  - rewrite (bool_decide_eq_true_2 (t ∈ known_permissions)) by done. simpl.
    apply Hk in Hin as [->|[->|[->| ->]]];
      repeat match goal with
      | |- context [bool_decide (bs ?x = bs ?y)] =>
        let b := eval vm_compute in (bool_decide (bs x = bs y)) in
        change (bool_decide (bs x = bs y)) with b
      end; simpl; rewrite IH; cbv zeta; clearbody ps;
      destruct (forallb _ ps); try done; unfold Permission.union, permissions_of; simpl;
      by destruct p as [[] [] [] []], (bool_decide (bs "read" ∈ ps)), (bool_decide (bs "write" ∈ ps)),
        (bool_decide (bs "enumerate" ∈ ps)), (bool_decide (bs "delete" ∈ ps)).
  - rewrite (bool_decide_eq_false_2 (t ∈ known_permissions)) by done. simpl.
    rewrite !bool_decide_eq_false_2 by (intros ->; apply Hout, Hk; tauto). done.
Qed.

(** The permission list of a token request means what it says. The comma-separated, trimmed
    words must all be among the four permission names and at least one must be given; the result
    has exactly the named permissions. Anything else is a bad request. *)
Theorem parse_permissions_exact (raw : bytes) :
  TokensRoute.parse_permissions raw
  = if forallb (λ x, bool_decide (x ∈ known_permissions)) (trimmed_parts raw)
       && negb (bool_decide (trimmed_parts raw = []))
    then Ok (permissions_of (trimmed_parts raw)) else Err bad_request.
Proof.
  unfold TokensRoute.parse_permissions. rewrite add_permissions_spec. cbv zeta.
  fold (trimmed_parts raw). destruct (forallb _ (trimmed_parts raw)) eqn:Ef; [|done]. simpl.
  assert (Permission.union Permission.NONE (permissions_of (trimmed_parts raw))
          = permissions_of (trimmed_parts raw)) as -> by done.
  destruct (trimmed_parts raw) as [|x ps] eqn:Et; [done|]. simpl.
  rewrite bool_decide_eq_false_2; [done|]. intros Hn. unfold permissions_of in Hn.
  injection Hn as H1 H2 H3 H4. rewrite !bool_decide_eq_false in H1, H2, H3, H4.
  simpl in Ef. apply andb_prop in Ef as [Ef _]. apply bool_decide_eq_true in Ef.
  unfold known_permissions in Ef. set_solver.
Qed.

Lemma split_app_sep c l m : c ∉ l → split c (l ++ c :: m) = l :: split c m.
Proof.
  induction l as [|b l IH]; simpl; intros Hn.
  - by rewrite decide_True.
  - apply not_elem_of_cons in Hn as [Hb Hl]. rewrite decide_False by congruence.
    by rewrite (IH Hl).
Qed.

Lemma split_none c l : c ∉ l → split c l = [l].
Proof.
  induction l as [|b l IH]; simpl; intros Hn; [done|].
  apply not_elem_of_cons in Hn as [Hb Hl]. rewrite decide_False by congruence. by rewrite (IH Hl).
Qed.

Lemma escape_no_lf s : Buckets.LF ∉ Buckets.escape_text_segment s.
Proof.
  unfold Buckets.escape_text_segment. rewrite list_elem_of_bind. intros (b & Hb & Hin).
  case_decide as Hcr; [vm_compute in Hb; set_solver|].
  apply list_elem_of_singleton in Hb as <-.
  apply list_elem_of_bind in Hin as (b' & Hb' & _).
  case_decide as Hlf; [vm_compute in Hb'; set_solver|]. by apply list_elem_of_singleton in Hb'.
Qed.

Section Rendering.
Context {JV : JsonValueOps}.

Lemma text_row_no_lf iv row line :
  Buckets.render_text_row iv row = Ok line → Buckets.LF ∉ line.
Proof.
  unfold Buckets.render_text_row. destruct iv.
  - destruct (le_value row) as [v|]; simpl; [|done]. intros [= <-].
    rewrite not_elem_of_app, not_elem_of_cons. split; [apply escape_no_lf|].
    split; [done|apply escape_no_lf].
  - intros [= <-]. apply escape_no_lf.
Qed.

Lemma render_text_rows_ok iv entries out res :
  Buckets.render_text_rows iv false entries out = Ok res →
  ∃ lines, Forall2 (λ row line, Buckets.render_text_row iv row = Ok line) entries lines
    ∧ res = out ++ (lines ≫= λ l, Buckets.LF :: l).
Proof.
  revert out. induction entries as [|row entries IH]; intros out; cbn [Buckets.render_text_rows].
  { intros [= <-]. exists []. split; [constructor|]. by rewrite app_nil_r. }
  intros Hr. apply result_bind_ok in Hr as (line & Hl & Hr).
  apply IH in Hr as (lines & Hf & ->). exists (line :: lines).
  split; [by constructor|]. rewrite bind_cons. simpl. by rewrite <- !app_assoc.
Qed.

(** A text listing has one line per entry, whatever the keys and values contain. Splitting
    the body at line feeds gives back exactly the rendered entries in order: a key or value with
    line breaks cannot add or merge lines. *)
Theorem text_listing_lines (entries : list ListEntry) (iv : bool) (out : bytes) :
  entries ≠ [] → Buckets.render_list_text entries iv = Ok out →
  Forall2 (λ row line, Buckets.render_text_row iv row = Ok line) entries (split Buckets.LF out).
Proof.
  destruct entries as [|row entries]; [done|]. intros _ Hr.
  unfold Buckets.render_list_text in Hr. cbn [Buckets.render_text_rows] in Hr.
  apply result_bind_ok in Hr as (line & Hl & Hr). simpl in Hr.
  apply render_text_rows_ok in Hr as (lines & Hf & ->).
  pose proof (text_row_no_lf iv row line Hl) as Hn.
  assert (split Buckets.LF (line ++ (lines ≫= λ l, Buckets.LF :: l)) = line :: lines) as ->.
  { clear Hl. revert line Hn. induction Hf as [|r x rs xs Hx _ IH]; intros line Hn; simpl.
    - rewrite app_nil_r. by apply split_none.
    - rewrite split_app_sep by done. f_equal. apply IH. by eapply text_row_no_lf. }
  by constructor.
Qed.

(** Rendering fails only with an internal error. *)
Lemma json_row_err row e : Buckets.json_row row = Err e → e = internal_error.
Proof.
  unfold Buckets.json_row, Buckets.stored_value_to_json, Buckets.utf8_or_fail, result_bind, ok_or.
  intros He. repeat case_match; simplify_eq/=; done.
Qed.

Lemma json_rows_bad before row after :
  Buckets.json_row row = Err internal_error →
  Buckets.json_rows (before ++ row :: after) = Err internal_error.
Proof.
  intros Hr. induction before as [|r before IH]; simpl; [by rewrite Hr|].
  destruct (Buckets.json_row r) as [x|e] eqn:Er; simpl; [by rewrite IH|].
  by rewrite (json_row_err r e Er).
Qed.

Lemma jsonl_rows_bad before row after :
  Buckets.json_row row = Err internal_error →
  Buckets.render_list_jsonl (before ++ row :: after) true = Err internal_error.
Proof.
  intros Hr. induction before as [|r before IH]; simpl; [by rewrite Hr|].
  destruct (Buckets.json_row r) as [x|e] eqn:Er; simpl; [|by rewrite (json_row_err r e Er)].
  destruct (json_to_vec x); simpl; [by rewrite IH|done].
Qed.

(** A row whose value is not JSON although it is stored as JSON. *)
Lemma render_bad fmt rows k v :
  mkListEntry k (Some v) ∈ rows → kind v = Value.Json → json_from_slice (payload v) = None →
  fmt = Buckets.Json ∨ fmt = Buckets.Jsonl →
  Buckets.render_list_body fmt rows true = Err internal_error.
Proof.
  intros (before & after & ->)%list_elem_of_split Hk Hj Hf.
  assert (Buckets.json_row (mkListEntry k (Some v)) = Err internal_error) as Hr.
  { unfold Buckets.json_row, Buckets.stored_value_to_json. simpl. by rewrite Hk, Hj. }
  destruct Hf as [-> | ->]; simpl; [|by apply jsonl_rows_bad].
  unfold Buckets.render_list_json. by rewrite json_rows_bad.
Qed.

End Rendering.

Lemma elem_of_page {T : TimeOps} {A} (opts : ListOpts) (l : list A) x : x ∈ page opts l → x ∈ l.
Proof.
  unfold page. intros [i Hi]%list_elem_of_lookup. rewrite lookup_take in Hi. case_decide; [|done].
  rewrite lookup_drop in Hi. apply list_elem_of_lookup_2 in Hi.
  destruct (reverse opts); [|done]. by apply elem_of_reverse.
Qed.

Section JsonListing.
Context {T : TimeOps} {TL : TimeLaws T} {JS : JsonOps} {JV : JsonValueOps} {W : WireOps}.
Context {S : Type} {KR : KeyRepository S} {KS : KeyRepoSpec S}.

(** What a successful [PUT] stores. *)
Lemma put_key_stored now a key ttl hs body s resp s1 :
  kr_bucket (bucket_id a) → Keys.put_key now a key ttl hs body s = (Ret (Ok resp), s1) →
  ∃ k v e, parse_percent_encoded_key key = Ok k ∧ payload v = body
    ∧ kind v = KeyService.infer_value_kind body (h_content_type hs ≫= header_to_str)
    ∧ status resp = 200%N ∧ kr_view s1 (bucket_id a) k = Some (written v e)
    ∧ (kr_good s → kr_good s1).
Proof.
  intros Hb Hput. unfold Keys.put_key in Hput.
  apply comp_bind_inv_ok in Hput as (k & s0 & Hk & Hput). injection Hk as Hk <-.
  apply comp_bind_inv_ok in Hput as (u & s0 & Hu & Hput). injection Hu as _ <-.
  apply comp_bind_inv_ok in Hput as (v & s2 & Hset & Hput). apply spawn_usecase_ok in Hset.
  injection Hput as <- <-. unfold KeyService.set in Hset.
  apply comp_bind_inv_ok in Hset as (v' & s0 & Hv & Hset). injection Hv as Hv <-.
  apply comp_bind_inv_ok in Hset as (e & s0 & He & Hset). injection He as _ <-.
  apply comp_bind_inv_ok in Hset as ([] & s0 & Hset & Hr). injection Hr as <- <-.
  apply KeyService.infer_stored_value_ok in Hv as (Hok & Hp & Hkind).
  exists k, v', e. split_and!; try done.
  - rewrite (kr_set s _ k v' e s0 Hb Hok Hset _ k Hb). by rewrite decide_True.
  - intros Hg. destruct (kr_set_good s (bucket_id a) k v' e Hb Hg Hok) as (s1 & Hs1 & Hg1). congruence.
Qed.

(** C35: One malformed value breaks the JSON listings. A [PUT] with a JSON content type whose
    body is not JSON can succeed over a healthy repository (the witness runs one). Once it has,
    every listing with values of the store it leaves, in the JSON or the JSON-lines format, by
    whoever may list the bucket, whose page includes the key answers 500, for all the other keys
    of the page too. *)
Theorem unchecked_json_breaks_listing (now : OffsetDateTime) (a : BucketAuth) (key ct : bytes)
    (ttl : option N) (hs : Headers) (body : bytes) (s s1 : S) (resp : Response) :
  kr_good s → kr_bucket (bucket_id a) → json_from_slice body = None →
  h_content_type hs ≫= header_to_str = Some ct →
  contains (to_ascii_lowercase ct) (bs "application/json") = true →
  Keys.put_key now a key ttl hs body s = (Ret (Ok resp), s1) →
  status resp = 200%N ∧
  ∃ k, parse_percent_encoded_key key = Ok k ∧
    ∀ now' a' params hs' fmt pre rows s2,
      bucket_id a' = bucket_id a → require_enumerate a' = Ok tt →
      Buckets.resolve_list_format params hs' = Ok fmt → fmt = Buckets.Json ∨ fmt = Buckets.Jsonl →
      Buckets.q_values params = Some true → Buckets.prefix_for_repo a' params = Some pre →
      KeyService.list now' (bucket_id a)
        (KeyService.mkListInput pre (Buckets.q_limit params) (Buckets.q_skip params)
           (Buckets.q_reverse params) (Some true)) s1 = (Ret (Ok rows), s2) →
      k ∈ le_key <$> rows →
      Buckets.list_bucket now' a' params hs' s1 = (Ret (Err internal_error), s2).
Proof.
  intros Hg Hb Hj Hct Hc Hput.
  destruct (put_key_stored _ _ _ _ _ _ _ _ _ Hb Hput) as (k & v & e & Hk & Hp & Hkind & Hst & Hv & Hg1).
  specialize (Hg1 Hg).
  split; [done|]. exists k. split; [done|].
  intros now' a' params hs' fmt pre rows s2 Hid He Hf Hjson Hval Hpre Hl Hin.
  assert (kind v = Value.Json) as Hkv by (rewrite Hkind, Hct; simpl; by rewrite Hc).
  assert (mkListEntry k (Some v) ∈ rows) as Hrow.
  { destruct (kr_list s1 _ _ rows s2 Hb (kr_good_inv s1 Hg1) Hl) as [(ks & _ & _ & ->) _].
    apply list_elem_of_fmap in Hin as (row & -> & Hrow). pose proof (elem_of_page _ _ _ Hrow) as Hx.
    apply list_elem_of_fmap in Hx as (k' & -> & _). unfold list_row in *. cbn in Hrow, Hv.
    by rewrite Hv in Hrow. }
  unfold Buckets.list_bucket. unfold comp_bind, comp_lift. rewrite He, Hf, Hpre, Hid, Hval. cbn [default].
  unfold spawn_usecase. simpl in Hl. simpl. rewrite Hl.
  cbn [map_err]. by rewrite (render_bad fmt rows k v Hrow Hkv) by (by rewrite ?Hp).
Qed.

End JsonListing.

Section Scope.
Context {T : TimeOps} {JS : JsonOps} {JV : JsonValueOps} {W : WireOps} {S : Type} {KR : KeyRepository S}.

(** The same caller with another identity. *)
Definition as_identity (a : BucketAuth) (id : Auth.ResolvedIdentity) : BucketAuth :=
  mkAuth id (bucket_id a) (policy_presence a) (auth_anonymous_access a) (auth_default_ttl_secs a).

(** C40: Listing with values needs only the enumerate permission. A token without read permission
    is refused by [GET] on every key, yet its listing with [values=true] over its prefix is the
    listing an admin gets for that prefix, values included. *)
Theorem enumerate_exposes_values (a : BucketAuth) (scope : bytes) (now : OffsetDateTime)
    (limit skip : option N) (rev : option bool) (fmt : option bytes) (hs : Headers) (s : S) :
  scope ≠ [] →
  let enumerator := as_identity a (Auth.Scoped (Permission.new false false true false) scope) in
  let admin := as_identity a Auth.Admin in
  (∀ k, require_read_on enumerator k = Err forbidden)
  ∧ Buckets.list_bucket now enumerator (Buckets.mkListParams None limit skip rev (Some true) fmt) hs s
    = Buckets.list_bucket now admin (Buckets.mkListParams (Some scope) limit skip rev (Some true) fmt) hs s.
Proof.
  intros Hs enumerator admin. split; [done|].
  unfold Buckets.list_bucket, comp_bind, comp_lift. simpl.
  unfold Buckets.prefix_for_repo. simpl. by rewrite bool_decide_eq_false_2.
Qed.

(** A zero TTL in a transaction disables expiry. An item with [ttl] zero is stored without
    an expiry even when the bucket has a default TTL: zero overrides the default, it is not "no
    override". *)
Theorem txn_zero_ttl_disables_expiry (now : OffsetDateTime) (a : BucketAuth) (raw : bytes)
    (v : json_value) (o : TxnOp) :
  Txn.txn_op now a (Txn.ItemSet raw v (Some 0%N)) = Ok o → ∃ k sv, o = TxnSet k sv None.
Proof.
  simpl. intros Ho. apply result_bind_ok in Ho as (k & _ & Ho). apply result_bind_ok in Ho as (u & _ & Ho).
  apply result_bind_ok in Ho as ([body ct] & _ & Ho). apply result_bind_ok in Ho as (sv & _ & Ho).
  simpl in Ho. injection Ho as <-. by exists k, sv.
Qed.

End Scope.

(** ** Witnesses *)

Definition demo_form : Buckets.CreateBucketForm :=
  Buckets.mkCreateForm (bs "a@b.c") (Some (bs "pw")) None None None None.

Lemma created_bucket_usable_witness :
  ∃ p, br_policy (Buckets.create_bucket demo_rk (bs "b1") demo_form demo0).2 (mkBucketId (bs "b1")) = Some p
    ∧ Auth.resolve (Some (bs "pw")) p (mkBucketId (bs "b1")) demo_rk (at_nanos 0) = Ok Auth.Admin.
Proof.
  destruct (created_bucket_usable demo_rk (bs "b1") demo_form demo0
    (Buckets.create_bucket demo_rk (bs "b1") demo_form demo0).2
    (mkResponse 200 (Raw Buckets.text_plain (bs "b1")))) as (_ & _ & p & H1 & _ & _ & _ & H2).
  - intros p Hp. vm_compute in Hp. injection Hp as <-. by apply (bool_decide_unpack _).
  - apply pair_fst. vm_refl.
  - exists p. split; [exact (H1 (mkBucketId (bs "b1")))|]. apply H2; [reflexivity|discriminate].
Defined.

Lemma http_put_then_get_witness :
  let s1 := (Keys.put_key (at_nanos 0) (demo_auth Auth.Admin) (bs "k") (Some 5%N)
               (mkHeaders None None None) (bs "42") demo0).2 in
  (Keys.get_key (at_nanos 4000000000) (demo_auth Auth.Admin) (bs "k") s1).1
  = Ret (Ok (mkResponse 200 (Raw (bs "text/plain; charset=utf-8") (bs "42")))).
Proof.
  intros s1.
  destruct (http_put_then_get (at_nanos 0) (demo_auth Auth.Admin) (bs "k") (Some 5%N)
    (mkHeaders None None None) (bs "42") demo0 s1
    (mkResponse 200 (Raw (bs "text/plain; charset=utf-8") (bs "42")))) as (k & v & _ & _ & _ & H).
  - exact demo0_kr.
  - exact demo_bucket_kr.
  - apply pair_fst. vm_refl.
  - destruct (H (demo_auth Auth.Admin) (at_nanos 4000000000)) as [H1 _]; [reflexivity|reflexivity|].
    exact H1.
Defined.

Lemma text_listing_lines_witness :
  let rows := [mkListEntry (mkKey (bs "a")) None; mkListEntry (mkKey [Buckets.LF]) None] in
  Forall2 (λ row line, Buckets.render_text_row false row = Ok line) rows
    (split Buckets.LF (bs "a" ++ Buckets.LF :: bs "\n")).
Proof. apply text_listing_lines; [discriminate|vm_refl]. Defined.

Lemma unchecked_json_breaks_listing_witness :
  let hs := mkHeaders None None (Some (bs "application/json")) in
  let s1 := (Keys.put_key (at_nanos 0) (demo_auth Auth.Admin) (bs "k") None hs (bs "oops") demo0).2 in
  let params := Buckets.mkListParams None None None None (Some true) (Some (bs "jsonl")) in
  (Buckets.list_bucket (at_nanos 0) (demo_auth Auth.Admin) params (mkHeaders None None None) s1).1
  = Ret (Err internal_error).
Proof.
  intros hs s1 params.
  set (input := KeyService.mkListInput None None None None (Some true)).
  set (rows := match (KeyService.list (at_nanos 0) demo_bucket input s1).1 with
               | Ret (Ok l) => l | _ => [] end).
  destruct (unchecked_json_breaks_listing (at_nanos 0) (demo_auth Auth.Admin) (bs "k")
    (bs "application/json") None hs (bs "oops") demo0 s1
    (mkResponse 200 (Raw (bs "application/json") (bs "oops")))) as (_ & k & Hk & H).
  - exact demo0_kr.
  - exact demo_bucket_kr.
  - reflexivity.
  - vm_refl.
  - vm_refl.
  - apply pair_fst. vm_refl.
  - rewrite (H (at_nanos 0) (demo_auth Auth.Admin) params (mkHeaders None None None) Buckets.Jsonl None
      rows (KeyService.list (at_nanos 0) demo_bucket input s1).2).
    + reflexivity.
    + reflexivity.
    + reflexivity.
    + vm_refl.
    + by right.
    + reflexivity.
    + reflexivity.
    + apply pair_fst. vm_refl.
    + vm_compute in Hk. injection Hk as <-. apply (bool_decide_unpack _). vm_compute. exact I.
Defined.

Lemma enumerate_exposes_values_witness :
  require_read_on (as_identity (demo_auth Auth.Admin)
    (Auth.Scoped (Permission.new false false true false) (bs "u/"))) demo_key = Err forbidden.
Proof.
  destruct (enumerate_exposes_values (demo_auth Auth.Admin) (bs "u/") (at_nanos 0) None None None None
    (mkHeaders None None None) demo0) as [H _].
  - discriminate.
  - apply H.
Defined.

Definition demo_item : Txn.TxnItem := Txn.ItemSet (bs "u/1") (json_string (bs "hi")) (Some 0%N).

Lemma txn_zero_ttl_disables_expiry_witness :
  ∃ k sv, Txn.txn_op (at_nanos 0) (demo_auth Auth.Admin) demo_item = Ok (TxnSet k sv None).
Proof.
  destruct (Txn.txn_op (at_nanos 0) (demo_auth Auth.Admin) demo_item) as [o|e] eqn:E.
  - destruct (txn_zero_ttl_disables_expiry (at_nanos 0) (demo_auth Auth.Admin) (bs "u/1")
      (json_string (bs "hi")) o E) as (k & sv & ->).
    exists k, sv. reflexivity.
  - exfalso.
    assert (is_ok (Txn.txn_op (at_nanos 0) (demo_auth Auth.Admin) demo_item) = true) as H by vm_refl.
    rewrite E in H. discriminate H.
Defined.
