(* ===== verification/Credentials.v ===== *)
(** * Which credential a request presents

    The extraction of [keydock-http/src/auth.rs] against a declarative account of it: the header
    decides if it holds a usable credential, and otherwise the first readable [access_token], or
    without one the first readable [key], of the query string. *)

From Stdlib Require Import Strings.Byte.
From S2P Require Import Prelude RustStd TimeLib Domain Ports Codec Auth HttpBase HttpRoutes.
Import Http.

Section Credentials.
Context {W : WireOps}.

(** The value of a pair of the query string, if the pair has that name and its value decodes. *)
Definition pair_value (name pair : bytes) : option bytes :=
  let '(n, v) := default (pair, []) (split_once "="%byte pair) in
  if bool_decide (pair ≠ [] ∧ Utf8.trim n = name) then decode_query_value v else None.

(** The first readable value of a name. *)
Definition first_value (name : bytes) (pairs : list bytes) : option bytes :=
  head (omap (pair_value name) pairs).

Lemma first_value_cons name pair pairs :
  first_value name (pair :: pairs)
  = match pair_value name pair with Some v => Some v | None => first_value name pairs end.
Proof. unfold first_value. simpl. by destruct (pair_value name pair). Qed.

Definition or_else {A} (a b : option A) : option A := match a with Some x => Some x | None => b end.

(** One turn of the loop: each variable keeps its first readable value. *)
Lemma query_pair_spec a k pair :
  query_pair (a, k) pair
  = (or_else a (pair_value (bs "access_token") pair), or_else k (pair_value (bs "key") pair)).
Proof.
  unfold query_pair, pair_value. destruct (default (pair, []) (split_once "="%byte pair)) as [n v] eqn:E.
  case_bool_decide as Hp.
  - assert (∀ name, bool_decide (pair ≠ [] ∧ Utf8.trim n = name) = false) as Hno
      by (intros name; apply bool_decide_eq_false_2; tauto).
    rewrite !Hno. by destruct a, k.
  - assert (∀ name, bool_decide (pair ≠ [] ∧ Utf8.trim n = name) = bool_decide (Utf8.trim n = name)) as Hyes
      by (intros name; apply bool_decide_ext; tauto).
    rewrite !Hyes. destruct (decide (Utf8.trim n = bs "access_token")) as [->|Ha].
    + rewrite (bool_decide_eq_true_2 (bs "access_token" = bs "access_token")) by done.
      rewrite (bool_decide_eq_false_2 (bs "access_token" = bs "key")) by done. by destruct a, k.
    + rewrite (bool_decide_eq_false_2 (Utf8.trim n = bs "access_token")) by done. simpl.
      case_bool_decide; simpl; by destruct a, k.
Qed.

Lemma query_pairs_spec a k pairs :
  foldl query_pair (a, k) pairs
  = (or_else a (first_value (bs "access_token") pairs), or_else k (first_value (bs "key") pairs)).
Proof.
  revert a k. induction pairs as [|pair pairs IH]; intros a k; [by destruct a, k|].
  cbn [foldl]. rewrite query_pair_spec, IH, !first_value_cons.
  destruct a, k, (pair_value (bs "access_token") pair), (pair_value (bs "key") pair); done.
Qed.

(** The credentials an [Authorization] text can hold. *)
Inductive header_credential (auth : bytes) : RawCredential → Prop :=
| bearer_credential rest :
    auth = bs "Bearer " ++ rest → Utf8.trim rest ≠ [] → header_credential auth (Bearer (Utf8.trim rest))
| basic_credential rest l user :
    auth = bs "Basic " ++ rest → b64std_decode (Utf8.trim rest) = Some l → Utf8.from_utf8 l = true →
    user ≠ [] → ":"%byte ∉ user → (l = user ∨ ∃ password, l = user ++ ":"%byte :: password) →
    header_credential auth (Basic user).

Lemma basic_username_spec l user :
  basic_username_credential l = Some user
  ↔ user ≠ [] ∧ (":"%byte ∉ user) ∧ (l = user ∨ ∃ password, l = user ++ ":"%byte :: password).
Proof.
  unfold basic_username_credential. destruct (split_once ":"%byte l) as [[u pw]|] eqn:E.
  - apply split_once_Some in E as [-> Hu]. split.
    + case_bool_decide; [done|]. intros [= <-]. eauto.
    + intros (Hne & Hc & [<-|[pw' Hl]]); [exfalso; apply Hc; set_solver|].
      assert (split_once ":"%byte (u ++ ":"%byte :: pw) = Some (user, pw')) as H1 by by apply split_once_Some.
      assert (split_once ":"%byte (u ++ ":"%byte :: pw) = Some (u, pw)) as H2 by by apply split_once_Some.
      rewrite H2 in H1. injection H1 as <- <-. by rewrite bool_decide_eq_false_2.
  - apply split_once_None in E. split.
    + case_bool_decide; [done|]. intros [= <-]. auto.
    + intros (Hne & _ & [->|[pw ->]]); [by rewrite bool_decide_eq_false_2|]. exfalso. apply E. set_solver.
Qed.

Lemma extract_from_header_spec auth c : extract_from_header auth = Some c ↔ header_credential auth c.
Proof.
  unfold extract_from_header. destruct (strip_prefix (bs "Bearer ") auth) as [rest|] eqn:Eb.
  - assert (strip_prefix (bs "Basic ") auth = None) as Hb.
    { apply strip_prefix_Some in Eb as ->. done. }
    rewrite Hb. apply strip_prefix_Some in Eb as ->. simpl. split.
    + case_bool_decide as Ht; [done|]. intros [= <-]. by apply bearer_credential.
    + intros Hc. inversion Hc as [rest' Hr Hne|rest' l user Hr]; subst; [|by simplify_eq/=].
      apply (app_inv_head (bs "Bearer ")) in Hr as ->. by rewrite bool_decide_eq_false_2.
  - cbn [mbind option_bind]. destruct (strip_prefix (bs "Basic ") auth) as [rest|] eqn:Ec; cbn [mbind option_bind].
    + apply strip_prefix_Some in Ec as ->. split.
      * destruct (b64std_decode (Utf8.trim rest)) as [l|] eqn:El; [|done]. simpl.
        destruct (Utf8.from_utf8 l) eqn:Eu; [|done].
        destruct (basic_username_credential l) as [user|] eqn:Ed; [|done]. intros [= <-].
        apply basic_username_spec in Ed as (? & ? & ?). by eapply basic_credential.
      * intros Hc. inversion Hc as [rest' Hr Hne|rest' l user Hr Hd Hu Hne Hno Hl]; subst; [by simplify_eq/=|].
        apply (app_inv_head (bs "Basic ")) in Hr as <-. rewrite Hd. simpl. rewrite Hu.
        by rewrite (proj2 (basic_username_spec l user)).
    + split; [done|]. intros Hc. inversion Hc as [rest' Hr Hne|rest' l user Hr Hd]; subst.
      * by rewrite strip_prefix_app in Eb.
      * by rewrite strip_prefix_app in Ec.
Qed.

(** C14: The credential of a request is determined by the documented priority. A bearer token, or the
    user name of a well-formed basic credential, wins whatever the query string holds. Without
    one, in particular when the header is malformed or not text, the first pair named
    [access_token] whose value decodes to text is taken, or if there is none the first such pair
    named [key]; an empty value stands for no credential, and an empty [access_token] also hides a
    [key]. In all other cases the request is anonymous. *)
Theorem credential_exact (hs : Headers) (query : option bytes) (c : RawCredential) :
  let in_header c := ∃ raw auth, h_authorization hs = Some raw ∧ header_to_str raw = Some auth
                                 ∧ header_credential auth c in
  let values name := query ≫= λ q, first_value (bs name) (split "&"%byte q) in
  extract hs query = Some c ↔
  in_header c
  ∨ (∀ c', ¬ in_header c')
    ∧ ∃ v, c = QueryParam v ∧ v ≠ []
           ∧ (values "access_token" = Some v ∨ values "access_token" = None ∧ values "key" = Some v).
Proof.
  intros in_header values. unfold extract.
  destruct ((h_authorization hs ≫= header_to_str) ≫= extract_from_header) as [c0|] eqn:Eh.
  - assert (in_header c0) as Hin.
    { destruct (h_authorization hs) as [raw|] eqn:Er; [|done]. simpl in Eh.
      destruct (header_to_str raw) as [auth|] eqn:Et; [|done].
      exists raw, auth. split; [done|]. split; [done|]. by apply extract_from_header_spec. }
    split; [intros [= <-]; by left|]. intros [Hc|[Hno _]]; [|by destruct (Hno c0)].
    destruct Hc as (raw & auth & Hr & Ht & Hc). rewrite Hr in Eh. simpl in Eh. rewrite Ht in Eh. simpl in Eh.
    apply extract_from_header_spec in Hc. congruence.
  - assert (∀ c', ¬ in_header c') as Hno.
    { intros c' (raw & auth & Hr & Ht & Hc). rewrite Hr in Eh. simpl in Eh. rewrite Ht in Eh. simpl in Eh.
      apply extract_from_header_spec in Hc. congruence. }
    subst values. destruct query as [q|]; simpl.
    2: { split; [done|]. intros [Hc|[_ (v & _ & _ & [?|[_ ?]])]]; [by destruct (Hno c)|done|done]. }
    unfold extract_from_query. rewrite query_pairs_spec. cbn [or_else]. split.
    + intros Hq. right. split; [done|]. destruct (first_value (bs "access_token") _) as [v|];
        [|destruct (first_value (bs "key") _) as [v|]]; simpl in Hq; try done;
        case_bool_decide; simplify_eq; eauto 6.
    + intros [Hc|[_ (v & -> & Hv & [->|[-> ->]])]]; [by destruct (Hno c)|..]; simpl;
        by rewrite bool_decide_eq_false_2.
Qed.

End Credentials.

(** ** Anonymous callers *)

(** What the documentation's table says an anonymous caller gets, by which keys are configured. *)
Definition anonymous_answer (closed : bool) : result unit Response :=
  if closed then Err unauthorized else Ok tt.

(** The documented table of anonymous access is the code's. For a caller without credential and a
    policy whose anonymous permissions are those its keys imply, reading and listing are closed
    (401) exactly by a read key, writing exactly by a write key, and deleting by any of the three
    keys; a signing key closes nothing. *)
Theorem anonymous_table (a : BucketAuth) (p : BucketPolicy) (k : Key) :
  policy_consistent p → auth_of a p → identity a = Auth.Anonymous →
  let secret := is_some (secret_key_hash p) in
  let read := is_some (read_key_hash p) in
  let write := is_some (write_key_hash p) in
  require_read_on a k = anonymous_answer read
  ∧ require_enumerate a = anonymous_answer read
  ∧ require_write_on a k = anonymous_answer write
  ∧ require_delete_on a k = anonymous_answer (secret || read || write)
  ∧ require_admin a = Err forbidden.
Proof.
  intros Hc (Hp & Ha & _) Hi. unfold policy_consistent in Hc. simpl.
  unfold require_read_on, require_write_on, require_delete_on, require_enumerate, require_admin,
    any_policy_key_present. rewrite Hi, Hp, Ha, Hc. unfold presence_of. simpl.
  by destruct (is_some (secret_key_hash p)), (is_some (read_key_hash p)), (is_some (write_key_hash p)).
Qed.

Lemma credential_exact_witness :
  extract (mkHeaders (Some (bs "Basic !")) None None) (Some (bs "key=k1&access_token=t1&access_token=t2"))
  = Some (QueryParam (bs "t1")).
Proof.
  apply credential_exact. right. split.
  - intros c (raw & auth & Hr & Ht & Hc). injection Hr as <-. injection Ht as <-.
    inversion Hc as [rest Hx|rest l user Hx Hd]; [discriminate Hx|].
    change (bs "Basic !") with (bs "Basic " ++ bs "!") in Hx. apply (app_inv_head (bs "Basic ")) in Hx as <-.
    discriminate Hd.
  - exists (bs "t1"). split; [reflexivity|]. split; [discriminate|]. left. vm_refl.
Defined.
