(* ===== verification/PolicyRace.v ===== *)
(** * Concurrent policy updates

    The policy [PATCH] handler ([routes/buckets.rs], [update_policy]) reads the policy in one
    blocking task and writes the patched policy back in another, with no lock and no version
    check in between. The two halves as programs of their own, and what an interleaving of two
    requests does. *)

From Stdlib Require Import Strings.Byte.
From S2P Require Import Prelude RustStd TimeLib Domain Counter Ports Codec FjallLib Locks Store StoreSpec StoreList StoreRepo StoreProps KeyService KeyProps Auth HttpBase HttpRoutes HttpBuckets HttpProps HttpListing.
Import Http.

Module PolicyRace.

Section Halves.
Context {T : TimeOps} {JS : JsonOps} {JV : JsonValueOps} {W : WireOps} {C : CryptoOps}.
Context {S : Type} {BR : BucketRepository S} {KR : KeyRepository S}.

(** Up to the first task: the guard, the patch and the policy as it is now. *)
Definition policy_read (auth : BucketAuth) (body : bytes) (parsed : option Buckets.UpdatePolicyJson)
  : comp S (BucketPolicy * Buckets.UpdatePolicyJson) Response :=
  let! _ := comp_lift (require_admin auth) in
  let! patch := comp_lift (if bool_decide (body = []) then Ok Buckets.empty_patch
                           else ok_or bad_request parsed) in
  let! found := spawn_usecase (get_policy (bucket_id auth)) in
  let! policy := comp_lift (ok_or not_found found) in
  comp_ret (policy, patch).

(** From there to the response: patch the policy that was read and store it. *)
Definition policy_write (root_key : SigningKey) (auth : BucketAuth)
    (pp : BucketPolicy * Buckets.UpdatePolicyJson) : comp S Response Response :=
  let! patched := comp_lift (Buckets.apply_policy_patch pp.1 pp.2 root_key) in
  let policy := Buckets.with_anonymous_access patched.1 (Buckets.recompute_anonymous_access patched.1) in
  let! _ := spawn_usecase (Ports.create_bucket (bucket_id auth) policy) in
  comp_ret (mkResponse 204 NoBody).

(** The handler is one half after the other. *)
Lemma update_policy_halves rk auth body parsed (s : S) :
  Buckets.update_policy rk auth body parsed s
  = comp_bind (policy_read auth body parsed) (policy_write rk auth) s.
Proof.
  unfold Buckets.update_policy, policy_read, policy_write, comp_bind, comp_lift, comp_ret.
  destruct (require_admin auth); [|done].
  destruct (if bool_decide (body = []) then _ else _) as [patch|]; [|done].
  destruct (spawn_usecase (get_policy (bucket_id auth)) s) as [[[found|e]|] s1]; [|done..].
  by destruct (ok_or not_found found).
Qed.

Context {BS : BucketRepoSpec S}.

Lemma policy_read_ok auth body parsed s p patch s' :
  policy_read auth body parsed s = (Ret (Ok (p, patch)), s') →
  br_policy s (bucket_id auth) = Some p ∧ ∀ b, br_policy s' b = br_policy s b.
Proof.
  unfold policy_read. intros Hr. apply comp_bind_inv_ok in Hr as (u & s1 & H1 & Hr).
  injection H1 as _ <-. apply comp_bind_inv_ok in Hr as (pt & s1 & H1 & Hr). injection H1 as _ <-.
  apply comp_bind_inv_ok in Hr as (found & s1 & H1 & Hr). apply spawn_usecase_ok, br_get in H1 as [-> H1].
  apply comp_bind_inv_ok in Hr as (q & s2 & H2 & Hr). injection H2 as H2 <-. injection Hr as -> -> <-.
  destruct (br_policy s (bucket_id auth)); simpl in H2; [|done]. by injection H2 as ->.
Qed.

(** The policy a patch leaves. *)
Definition patched_policy (rk : SigningKey) (p : BucketPolicy) (patch : Buckets.UpdatePolicyJson)
  : option BucketPolicy :=
  match Buckets.apply_policy_patch p patch rk with
  | Ok (q, _) => Some (Buckets.with_anonymous_access q (Buckets.recompute_anonymous_access q))
  | Err _ => None
  end.

Lemma policy_write_ok rk auth p patch s resp s' :
  (∀ q, patched_policy rk p patch = Some q → br_storable q) →
  policy_write rk auth (p, patch) s = (Ret (Ok resp), s') →
  resp = mkResponse 204 NoBody ∧ is_Some (patched_policy rk p patch)
  ∧ br_policy s' (bucket_id auth) = patched_policy rk p patch.
Proof.
  unfold policy_write, patched_policy. intros Hst Hr.
  apply comp_bind_inv_ok in Hr as ([q au] & s1 & H1 & Hr). cbn [fst snd] in *. injection H1 as H1 <-.
  rewrite H1 in *. apply comp_bind_inv_ok in Hr as ([] & s1 & H2 & Hr). apply spawn_usecase_ok in H2.
  injection Hr as <- <-. split; [done|]. split; [by eexists|].
  rewrite (br_create _ _ _ _ (Hst _ eq_refl) H2). by rewrite decide_True.
Qed.

Lemma patched_keeps rk p patch q :
  patched_policy rk p patch = Some q →
  (Buckets.p_secret_key patch = None → secret_key_hash q = secret_key_hash p)
  ∧ (Buckets.p_read_key patch = None → read_key_hash q = read_key_hash p)
  ∧ (Buckets.p_write_key patch = None → write_key_hash q = write_key_hash p)
  ∧ (Buckets.p_signing_key patch = None →
       signing_key q = signing_key p ∧ signing_key_generation q = signing_key_generation p)
  ∧ (Buckets.p_default_ttl patch = None → default_ttl_secs q = default_ttl_secs p).
Proof.
  unfold patched_policy, Buckets.apply_policy_patch. intros Hq.
  destruct (Buckets.patch_secret rk _ _) as [secret|] eqn:E1; [|done].
  destruct (Buckets.patch_hash rk (Buckets.p_read_key patch) _) as [read|] eqn:E2; [|done].
  destruct (Buckets.patch_hash rk (Buckets.p_write_key patch) _) as [write|] eqn:E3; [|done].
  destruct (Buckets.patch_signing _ _ _) as [[[[key generation] changed] cleared]|] eqn:E4; [|done].
  injection Hq as <-. simpl.
  split_and!; intros Hn; rewrite Hn in *; simpl in *; naive_solver.
Qed.

End Halves.

End PolicyRace.

Section Theorems.
Context {T : TimeOps} {JS : JsonOps} {JV : JsonValueOps} {W : WireOps} {C : CryptoOps}.
Context {S : Type} {BR : BucketRepository S} {KR : KeyRepository S} {BS : BucketRepoSpec S}.

(** C37: A policy update can be lost. When one policy [PATCH] reads the policy, a second one, of
    the same bucket for instance, runs completely, and the first one then writes, both answer 204 but the stored
    policy is the first patch applied to the policy before both: every field the first patch
    does not name is back to its old value, whatever the second one put there. A second request
    that rotates a leaked secret or revokes the signed tokens is undone without an error. *)
Theorem policy_update_lost (rk : SigningKey) (auth1 auth2 : BucketAuth) (body1 body2 : bytes)
    (parsed1 parsed2 : option Buckets.UpdatePolicyJson) (p : BucketPolicy)
    (patch1 : Buckets.UpdatePolicyJson) (s0 s1 s2 s3 : S) (resp1 resp2 : Response) :
  (∀ q, PolicyRace.patched_policy rk p patch1 = Some q → br_storable q) →
  PolicyRace.policy_read auth1 body1 parsed1 s0 = (Ret (Ok (p, patch1)), s1) →
  Buckets.update_policy rk auth2 body2 parsed2 s1 = (Ret (Ok resp2), s2) →
  PolicyRace.policy_write rk auth1 (p, patch1) s2 = (Ret (Ok resp1), s3) →
  resp1 = mkResponse 204 NoBody ∧ resp2 = mkResponse 204 NoBody
  ∧ br_policy s0 (bucket_id auth1) = Some p
  ∧ ∃ q, br_policy s3 (bucket_id auth1) = Some q
      ∧ PolicyRace.patched_policy rk p patch1 = Some q
      ∧ (Buckets.p_secret_key patch1 = None → secret_key_hash q = secret_key_hash p)
      ∧ (Buckets.p_read_key patch1 = None → read_key_hash q = read_key_hash p)
      ∧ (Buckets.p_write_key patch1 = None → write_key_hash q = write_key_hash p)
      ∧ (Buckets.p_signing_key patch1 = None →
           signing_key q = signing_key p ∧ signing_key_generation q = signing_key_generation p)
      ∧ (Buckets.p_default_ttl patch1 = None → default_ttl_secs q = default_ttl_secs p).
Proof.
  intros Hst Hread Hother Hwrite. apply PolicyRace.policy_read_ok in Hread as [Hp _].
  destruct (PolicyRace.policy_write_ok _ _ _ _ _ _ _ Hst Hwrite) as (-> & [q Hq] & Hs).
  rewrite PolicyRace.update_policy_halves in Hother.
  apply comp_bind_inv_ok in Hother as (pp & s' & _ & Hother).
  split; [done|]. split; [|split; [done|]].
  - unfold PolicyRace.policy_write in Hother. apply comp_bind_inv_ok in Hother as (? & ? & _ & Hother).
    apply comp_bind_inv_ok in Hother as (? & ? & _ & Hother). by injection Hother.
  - exists q. split; [congruence|]. split; [done|]. by eapply PolicyRace.patched_keeps.
Qed.

(** A deleted bucket can return. When a policy [PATCH] has read the policy, the bucket is deleted,
    and the [PATCH] then writes, both requests answer 204 and the bucket is there again. *)
Theorem deleted_bucket_returns (rk : SigningKey) (auth1 auth2 : BucketAuth) (body : bytes)
    (parsed : option Buckets.UpdatePolicyJson) (p : BucketPolicy) (patch : Buckets.UpdatePolicyJson)
    (s0 s1 s2 s3 : S) (resp1 resp2 : Response) :
  (∀ q, PolicyRace.patched_policy rk p patch = Some q → br_storable q) →
  bucket_id auth2 = bucket_id auth1 →
  PolicyRace.policy_read auth1 body parsed s0 = (Ret (Ok (p, patch)), s1) →
  Buckets.delete_bucket auth2 s1 = (Ret (Ok resp2), s2) →
  PolicyRace.policy_write rk auth1 (p, patch) s2 = (Ret (Ok resp1), s3) →
  br_policy s2 (bucket_id auth1) = None
  ∧ is_Some (br_policy s3 (bucket_id auth1)) ∧ resp1 = mkResponse 204 NoBody ∧ resp2 = mkResponse 204 NoBody.
Proof.
  intros Hst Hb _ Hdel Hwrite.
  destruct (PolicyRace.policy_write_ok rk auth1 p patch s2 resp1 s3 Hst Hwrite) as (-> & Hq & Hs3).
  unfold Buckets.delete_bucket in Hdel. apply comp_bind_inv_ok in Hdel as (u & s & Hu & Hdel).
  injection Hu as _ <-. apply comp_bind_inv_ok in Hdel as ([] & s & Hd & Hdel).
  apply spawn_usecase_ok in Hd. injection Hdel as <- <-.
  split; [|split; [by rewrite <- Hs3 in Hq|done]].
  rewrite Hb in Hd. rewrite (br_delete _ _ _ Hd). by rewrite decide_True.
Qed.

End Theorems.

(** ** Witness *)

(** One administrator changes the default TTL while another revokes the signing key. *)
Definition race_policy : BucketPolicy :=
  mkPolicy (Some 60%N) Permission.READ_ONLY None None None (Some (mkSigningKey (bs "leaked"))) 4.

Definition ttl_patch : Buckets.UpdatePolicyJson := Buckets.mkPatch None None None None (Some (Some 5%N)).

Definition revoke_patch : Buckets.UpdatePolicyJson := Buckets.mkPatch None None None (Some None) None.

Definition race_store : Store.FjallStore := (Store.create_bucket demo_bucket race_policy demo0).2.

Lemma policy_update_lost_witness :
  let admin := demo_auth Auth.Admin in
  let s1 := (PolicyRace.policy_read admin (bs "{}") (Some ttl_patch) race_store).2 in
  let s2 := (Buckets.update_policy demo_rk admin (bs "{}") (Some revoke_patch) s1).2 in
  let s3 := (PolicyRace.policy_write demo_rk admin (race_policy, ttl_patch) s2).2 in
  (br_policy s2 demo_bucket ≫= signing_key) = None
  ∧ ∃ q, br_policy s3 demo_bucket = Some q ∧ signing_key q = Some (mkSigningKey (bs "leaked"))
         ∧ signing_key_generation q = 4%N.
Proof.
  intros admin s1 s2 s3. split; [vm_refl|].
  destruct (policy_update_lost demo_rk admin admin (bs "{}") (bs "{}") (Some ttl_patch) (Some revoke_patch)
    race_policy ttl_patch race_store s1 s2 s3 (mkResponse 204 NoBody) (mkResponse 204 NoBody))
    as (_ & _ & _ & q & Hq & _ & _ & _ & _ & Hsig & _).
  - intros q Hq. vm_compute in Hq. injection Hq as <-. by apply (bool_decide_unpack _).
  - apply pair_fst. vm_refl.
  - apply pair_fst. vm_refl.
  - apply pair_fst. vm_refl.
  - exists q. split; [exact Hq|]. exact (Hsig eq_refl).
Defined.
