(* ===== verification/OsLib.v ===== *)
(** * Socket addresses, paths and unsigned integers of Rust's standard library

    - [Net]: [SocketAddr] and its [FromStr] (the recursive-descent parser of [core::net]);
    - [Path]: the Unix [Path] operations the configuration uses ([is_absolute], [join],
      [parent], with the component rules of [std::path]);
    - [UInt64]: [u64::from_str] with its error kinds. *)

From Stdlib Require Import Strings.Byte.
From S2P Require Import Prelude RustStd.

(** ** Socket addresses *)

Module Net.

(** Octets and segments are kept as lists of four [u8] and eight [u16]. *)
Inductive SocketAddr : Type :=
| V4 (octets : list Z) (port : Z)
| V6 (segments : list Z) (port scope_id : Z).

#[global] Instance SocketAddr_eq_dec : EqDecision SocketAddr.
Proof. solve_decision. Defined.

(** A parser consumes a prefix; [None] leaves the input where it was ([read_atomically]). *)
Definition parser (A : Type) : Type := bytes → option (A * bytes).

Definition pbind {A B} (m : parser A) (f : A → parser B) : parser B :=
  λ l, match m l with Some (a, l') => f a l' | None => None end.

Definition pret {A} (a : A) : parser A := λ l, Some (a, l).

#[local] Notation "'let*' x ':=' m 'in' k" := (pbind m (λ x, k))
  (at level 10, x binder, m at level 100, k at level 200).

Definition read_given_char (c : byte) : parser unit :=
  λ l, match l with b :: l' => if decide (b = c) then Some (tt, l') else None | [] => None end.

(** [char::to_digit] for radix 10 and 16. *)
Definition to_digit (radix : Z) (b : byte) : option Z :=
  let c := byte_Z b in
  let d := if (48 <=? c) && (c <=? 57) then c - 48
           else if (97 <=? c) && (c <=? 102) then c - 87
           else if (65 <=? c) && (c <=? 70) then c - 55
           else radix in
  if d <? radix then Some d else None.

Fixpoint span_digits (radix : Z) (l : bytes) : list Z * bytes :=
  match l with
  | b :: l' =>
    match to_digit radix b with
    | Some d => let '(ds, rest) := span_digits radix l' in (d :: ds, rest)
    | None => ([], l)
    end
  | [] => ([], [])
  end.

(** [read_number]: at most [max_digits] digits when given, no leading zero unless allowed, and
    the value must fit the target type, whose maximum is [limit]. *)
Definition read_number (radix : Z) (max_digits : option nat) (allow_zero_prefix : bool) (limit : Z)
    : parser Z :=
  λ l,
  let '(ds, rest) := span_digits radix l in
  let v := foldl (λ a d, a * radix + d) 0 ds in
  if bool_decide (ds = []) then None
  else if match max_digits with Some m => (m <? length ds)%nat | None => false end then None
  else if negb allow_zero_prefix && bool_decide (head ds = Some 0) && (1 <? length ds)%nat then None
  else if v <=? limit then Some (v, rest) else None.

(** [read_separator]: from the second item on, the item is preceded by [sep]. *)
Definition read_separator {A} (sep : byte) (index : nat) (inner : parser A) : parser A :=
  match index with O => inner | S _ => let* _ := read_given_char sep in inner end.

Definition read_octet (i : nat) : parser Z := read_separator "."%byte i (read_number 10 (Some 3%nat) false 255).

Definition read_ipv4_addr : parser (list Z) :=
  let* a := read_octet 0 in let* b := read_octet 1 in
  let* c := read_octet 2 in let* d := read_octet 3 in pret [a; b; c; d].

Definition read_port : parser Z :=
  let* _ := read_given_char ":"%byte in read_number 10 None true 65535.

(** [read_groups] on [limit] slots from slot [i] on: the groups read, whether they end with an
    embedded IPv4 address, and the rest of the input. [n] is the number of slots left. *)
Fixpoint read_groups (n i : nat) (l : bytes) : list Z * bool * bytes :=
  match n with
  | O => ([], false, l)
  | S n' =>
    let embedded := match n' with
                    | O => None
                    | S _ => read_separator ":"%byte i read_ipv4_addr l
                    end in
    match embedded with
    | Some (a, rest) =>
      match a with
      | [one; two; three; four] => ([one * 256 + two; three * 256 + four], true, rest)
      | _ => ([], true, rest)
      end
    | None =>
      match read_separator ":"%byte i (read_number 16 (Some 4%nat) true 65535) l with
      | Some (g, rest) => let '(gs, v4, rest') := read_groups n' (S i) rest in (g :: gs, v4, rest')
      | None => ([], false, l)
      end
    end
  end.

Definition read_ipv6_addr : parser (list Z) :=
  λ l,
  let '(head, head_ipv4, rest) := read_groups 8 0 l in
  if bool_decide (length head = 8%nat) then Some (head, rest)
  else if head_ipv4 then None
  else
    match (let* _ := read_given_char ":"%byte in read_given_char ":"%byte) rest with
    | None => None
    | Some (_, rest1) =>
      let '(tail, _, rest2) := read_groups (8 - (length head + 1)) 0 rest1 in
      Some (head ++ replicate (8 - length head - length tail) 0 ++ tail, rest2)
    end.

Definition read_scope_id : parser Z :=
  let* _ := read_given_char "%"%byte in read_number 10 None true 4294967295.

Definition read_socket_addr_v4 : parser SocketAddr :=
  let* ip := read_ipv4_addr in let* port := read_port in pret (V4 ip port).

Definition read_socket_addr_v6 : parser SocketAddr :=
  let* _ := read_given_char "["%byte in
  let* ip := read_ipv6_addr in
  let* scope := (λ l, match read_scope_id l with Some (s, l') => Some (s, l') | None => Some (0, l) end) in
  let* _ := read_given_char "]"%byte in
  let* port := read_port in
  pret (V6 ip port scope).

(** [SocketAddr::from_str]: the whole text is one address. *)
Definition from_str (s : bytes) : option SocketAddr :=
  match (match read_socket_addr_v4 s with Some r => Some r | None => read_socket_addr_v6 s end) with
  | Some (a, []) => Some a
  | _ => None
  end.

(** [Display] of [AddrParseError] for socket addresses. *)
Definition addr_parse_error : bytes := bs "invalid socket address syntax".

Example from_str_v4 : from_str (bs "127.0.0.1:8080") = Some (V4 [127; 0; 0; 1] 8080).
Proof. reflexivity. Qed.

Example from_str_v6 : from_str (bs "[2001:db8::1%7]:443") = Some (V6 [8193; 3512; 0; 0; 0; 0; 0; 1] 443 7).
Proof. reflexivity. Qed.

Example from_str_mapped :
  from_str (bs "[::ffff:10.0.0.1]:80") = Some (V6 [0; 0; 0; 0; 0; 65535; 2560; 1] 80 0).
Proof. reflexivity. Qed.

Example from_str_rejects :
  from_str <$> [bs "127.0.0.1"; bs "127.0.0.01:80"; bs "256.0.0.1:80"; bs "1.2.3.4:65536"; bs ""; bs "::1:80"]
  = replicate 6 None.
Proof. reflexivity. Qed.

End Net.

(** ** Paths *)

Module Path.

Definition SEP : byte := "/"%byte.

Definition is_absolute (p : bytes) : bool := bool_decide (head p = Some SEP).

(** [Path::join], that is [PathBuf::push] on a copy. *)
Definition join (dir p : bytes) : bytes :=
  if is_absolute p then p
  else match list.last dir with
       | Some c => if decide (c = SEP) then dir ++ p else dir ++ SEP :: p
       | None => p
       end.

(** [Components::len_before_body]: the root, or a leading [.] component. *)
Definition include_cur_dir (p : bytes) : bool :=
  bool_decide (p = bs ".") || starts_with p (bs "./").

Definition len_before_body (p : bytes) : nat :=
  if is_absolute p || include_cur_dir p then 1%nat else 0%nat.

(** [parse_next_component_back]: the size of the last component with its separator, and whether
    it counts as a component (empty ones and [.] do not). *)
Fixpoint last_component (l : bytes) : option bytes :=
  match l with
  | [] => None
  | b :: l' =>
    match last_component l' with
    | Some c => Some c
    | None => if decide (b = SEP) then Some l' else None
    end
  end.

Definition next_back_size (start : nat) (p : bytes) : nat * bool :=
  let body := drop start p in
  let '(extra, comp) := match last_component body with
                        | None => (0%nat, body)
                        | Some c => (1%nat, c)
                        end in
  ((length comp + extra)%nat, negb (bool_decide (comp = []) || bool_decide (comp = bs "."))).

(** Drops trailing empty and [.] components ([trim_right]); [fuel] is at least the length. *)
Fixpoint trim_right (fuel start : nat) (p : bytes) : bytes :=
  match fuel with
  | O => p
  | S fuel' =>
    if (length p <=? start)%nat then p
    else let '(size, real) := next_back_size start p in
         if real then p else trim_right fuel' start (take (length p - size) p)
  end.

(** [Path::parent]: the path without its last component, [None] for the root and the empty
    path. *)
Definition parent (p : bytes) : option bytes :=
  let start := len_before_body p in
  let q := trim_right (length p) start p in
  if (length q <=? start)%nat
  then if is_absolute p then None
       else if include_cur_dir p then Some [] else None
  else let '(size, _) := next_back_size start q in
       Some (trim_right (length q) start (take (length q - size) q)).

Example parent_cases :
  parent <$> [bs "/etc/keydock/keydock.toml"; bs "keydock.toml"; bs "/keydock.toml"; bs "/"; bs "a//b/./"; bs "./x"; bs "."; bs ""]
  = [Some (bs "/etc/keydock"); Some (bs ""); Some (bs "/"); None; Some (bs "a"); Some (bs "."); Some (bs ""); None].
Proof. reflexivity. Qed.

Example join_cases :
  join (bs "/etc/kd") (bs "key") = bs "/etc/kd/key" ∧ join (bs "") (bs "key") = bs "key"
  ∧ join (bs "/etc/") (bs "/run/key") = bs "/run/key".
Proof. done. Qed.

End Path.

(** ** [u64] *)

Module UInt64.

Definition u64_max : Z := 2 ^ 64 - 1.

Inductive IntErrorKind : Type := Empty | InvalidDigit | PosOverflow.

(** [Display] of [ParseIntError]. *)
Definition display (e : IntErrorKind) : bytes :=
  match e with
  | Empty => bs "cannot parse integer from empty string"
  | InvalidDigit => bs "invalid digit found in string"
  | PosOverflow => bs "number too large to fit in target type"
  end.

(** The digit loop of [u64::from_str_radix(_, 10)]. *)
Fixpoint digits (acc : Z) (l : bytes) : result Z IntErrorKind :=
  match l with
  | [] => Ok acc
  | b :: l' =>
    if Dec.is_digit b
    then let v := acc * 10 + (byte_Z b - 48) in
         if v <=? u64_max then digits v l' else Err PosOverflow
    else Err InvalidDigit
  end.

Definition from_str (s : bytes) : result Z IntErrorKind :=
  match s with
  | [] => Err Empty
  | b :: rest =>
    if decide (rest = [] ∧ (b = "+"%byte ∨ b = "-"%byte)) then Err InvalidDigit
    else if decide (b = "+"%byte) then digits 0 rest else digits 0 s
  end.

Example from_str_cases :
  from_str <$> [bs "60"; bs "+7"; bs ""; bs "-1"; bs "18446744073709551616"; bs "18446744073709551615"]
  = [Ok 60; Ok 7; Err Empty; Err InvalidDigit; Err PosOverflow; Ok u64_max].
Proof. reflexivity. Qed.

End UInt64.
