(* ===== verification/Config.v ===== *)
(** * Configuration

    The layered configuration of [keydock-config]: built-in defaults, a TOML file, [KEYDOCK_*]
    environment variables and command-line values, and the root key with its indirections
    ([config/mod.rs], [config/env.rs], [config/loader.rs], [config/secret.rs]). The file system
    and the TOML reader are parameters; a process environment is a lookup function. *)

From Stdlib Require Import Strings.Byte.
From S2P Require Import Prelude RustStd OsLib.

Module Config.

(** ** Data *)

Record HttpConfig : Type := mkHttp { listen : Net.SocketAddr; metrics_listen : option Net.SocketAddr }.

(** [paths.data_dir] as the bytes of the path. *)
Record PathsConfig : Type := mkPaths { data_dir : bytes }.

Record GcConfig : Type := mkGc { interval_secs : Z }.

Record RateLimitConfig : Type := mkRate { enabled : bool; requests_per_hour : Z }.

Definition default_listen : Net.SocketAddr := Net.V4 [127; 0; 0; 1] 8080.
Definition default_http : HttpConfig := mkHttp default_listen None.
Definition default_paths : PathsConfig := mkPaths (bs "./data").
Definition default_gc_interval_secs : Z := 60.
Definition default_gc : GcConfig := mkGc default_gc_interval_secs.
Definition default_requests_per_hour : Z := 1000.
Definition default_rate_limit : RateLimitConfig := mkRate false default_requests_per_hour.

Record LoadedSecret : Type := mkSecret { expose_bytes : bytes }.

Record Config : Type := mkConfig {
  http : HttpConfig;
  paths : PathsConfig;
  log_json : bool;
  root_key : LoadedSecret;
  gc : GcConfig;
  rate_limit : RateLimitConfig;
}.

Inductive RawRootKey : Type := Inline (value : bytes) | Env (name : bytes) | File (path : bytes).

Record RawConfig : Type := mkRaw {
  raw_http : HttpConfig;
  raw_paths : PathsConfig;
  raw_log_json : bool;
  raw_root_key : option RawRootKey;
  raw_gc : GcConfig;
  raw_rate_limit : RateLimitConfig;
}.

Definition default_raw : RawConfig :=
  mkRaw default_http default_paths false None default_gc default_rate_limit.

(** [toml::Value] as the code takes it apart: a string, a table (in iteration order) or another
    value with its type name. *)
Inductive toml_value : Type :=
| String (s : bytes)
| Table (entries : list (bytes * toml_value))
| Other (type_str : bytes).

(** A TOML document as the derived [Deserialize] of [RawConfig] reads it, with the value of
    [root_key] still a TOML value. *)
Record TomlDoc : Type := mkDoc {
  doc_http : HttpConfig;
  doc_paths : PathsConfig;
  doc_log_json : bool;
  doc_root_key : option toml_value;
  doc_gc : GcConfig;
  doc_rate_limit : RateLimitConfig;
}.

End Config.

(** ** What the loader calls *)

(** The [toml] crate with the derived deserializer, and the file system. *)
Class ConfigOps : Type := {
  toml_error : Type;
  toml_custom : bytes → toml_error;
  toml_from_str : bytes → result Config.TomlDoc toml_error;
  io_error : Type;
  fs_read_to_string : bytes → result bytes io_error;
}.

Module Loader.
Import Config.

Section Loader.
Context {O : ConfigOps}.

Inductive ConfigError : Type :=
| Io (path : bytes) (source : io_error)
| Parse (path : bytes) (source : toml_error)
| MissingRootKey
| EmptyRootKey
| InsecureRootKeyPlaceholder
| EnvNotUnicode (name : bytes)
| MissingSecretEnv (name : bytes)
| InvalidEnv (name reason : bytes)
| SecretFileIo (path : bytes) (source : io_error).

(** ** Environment *)

Definition EnvSource : Type := bytes → result (option bytes) ConfigError.

Inductive VarError : Type := NotPresent | NotUnicode.

(** [ProcessEnv::get] over [std::env::var]. *)
Definition ProcessEnv (var : bytes → result bytes VarError) : EnvSource :=
  λ name, match var name with
          | Ok value => Ok (Some value)
          | Err NotPresent => Ok None
          | Err NotUnicode => Err (EnvNotUnicode name)
          end.

Definition ENV_HTTP_LISTEN : bytes := bs "KEYDOCK_HTTP_LISTEN".
Definition ENV_HTTP_METRICS_LISTEN : bytes := bs "KEYDOCK_HTTP_METRICS_LISTEN".
Definition ENV_PATHS_DATA_DIR : bytes := bs "KEYDOCK_PATHS_DATA_DIR".
Definition ENV_LOG_JSON : bytes := bs "KEYDOCK_LOG_JSON".
Definition ENV_ROOT_KEY : bytes := bs "KEYDOCK_ROOT_KEY".
Definition ENV_GC_INTERVAL_SECS : bytes := bs "KEYDOCK_GC_INTERVAL_SECS".
Definition ENV_RATE_LIMIT_ENABLED : bytes := bs "KEYDOCK_RATE_LIMIT_ENABLED".
Definition ENV_RATE_LIMIT_REQUESTS_PER_HOUR : bytes := bs "KEYDOCK_RATE_LIMIT_REQUESTS_PER_HOUR".

(** [parse_env_value] at the two types the loader uses it for. *)
Definition parse_env_value {A} (from_str : bytes → result A bytes) (name value : bytes)
    : result A ConfigError :=
  map_err (InvalidEnv name) (from_str value).

Definition parse_addr : bytes → bytes → result Net.SocketAddr ConfigError :=
  parse_env_value (λ v, ok_or Net.addr_parse_error (Net.from_str v)).

Definition parse_u64 : bytes → bytes → result Z ConfigError :=
  parse_env_value (λ v, map_err UInt64.display (UInt64.from_str v)).

Definition parse_optional_socket_addr (name value : bytes)
    : result (option Net.SocketAddr) ConfigError :=
  if bool_decide (Utf8.trim value = []) then Ok None
  else let? a := parse_addr name value in Ok (Some a).

Definition parse_bool_env (name value : bytes) : result bool ConfigError :=
  let v := to_ascii_lowercase (Utf8.trim value) in
  if bool_decide (v = bs "true" ∨ v = bs "1") then Ok true
  else if bool_decide (v = bs "false" ∨ v = bs "0") then Ok false
  else Err (InvalidEnv name (bs "expected true, false, 1, or 0")).

(** ** Root key *)

Definition INSECURE_ROOT_KEY_PLACEHOLDER : bytes :=
  bs "REPLACE_WITH_SECRET_FROM_keydock_init_OR_LONG_RANDOM_VALUE".

Definition exactly_one : bytes := bs "root_key table must contain exactly one source".

(** One entry of the table: its source, or the message of the error. *)
Definition root_key_source (key : bytes) (value : toml_value) : result RawRootKey bytes :=
  match value with
  | String s =>
    if decide (key = bs "value") then Ok (Inline s)
    else if decide (key = bs "env") then Ok (Env s)
    else if decide (key = bs "file") then Ok (File s)
    else Err (bs "unknown root_key source `" ++ key ++ bs "`; supported: `value`, `env`, `file`")
  | _ =>
    if decide (key = bs "value" ∨ key = bs "env" ∨ key = bs "file")
    then Err (bs "root_key." ++ key ++ bs " must be a string")
    else Err (bs "unknown root_key source `" ++ key ++ bs "`; supported: `value`, `env`, `file`")
  end.

Fixpoint root_key_loop (source : option RawRootKey) (table : list (bytes * toml_value))
    : result (option RawRootKey) bytes :=
  match table with
  | [] => Ok source
  | (key, value) :: rest =>
    match source with
    | Some _ => Err exactly_one
    | None => let? s := root_key_source key value in root_key_loop (Some s) rest
    end
  end.

Definition parse_root_key_table (table : list (bytes * toml_value)) : result RawRootKey bytes :=
  let? source := root_key_loop None table in ok_or exactly_one source.

(** [RawRootKey::deserialize]. *)
Definition deserialize_root_key (v : toml_value) : result RawRootKey toml_error :=
  match v with
  | String value => Ok (Inline value)
  | Table table => map_err toml_custom (parse_root_key_table table)
  | Other type_str => Err (toml_custom (bs "root_key must be a string or table, got " ++ type_str))
  end.

Definition resolve_secret_file_path (config_dir : option bytes) (path : bytes) : bytes :=
  if Path.is_absolute path then path
  else match config_dir with Some dir => Path.join dir path | None => path end.

Definition validate_root_key (value : bytes) : result unit ConfigError :=
  let trimmed := Utf8.trim value in
  if bool_decide (trimmed = []) then Err EmptyRootKey
  else if bool_decide (trimmed = INSECURE_ROOT_KEY_PLACEHOLDER) then Err InsecureRootKeyPlaceholder
  else Ok tt.

(** [trim_end_matches(['\r', '\n'])]. *)
Fixpoint drop_line_ends (l : bytes) : bytes :=
  match l with
  | b :: l' => if decide (b = "013"%byte ∨ b = "010"%byte) then drop_line_ends l' else l
  | [] => []
  end.

Definition trim_line_ends (l : bytes) : bytes := list.reverse (drop_line_ends (list.reverse l)).

(** The [match source] of [resolve_root_key]. *)
Definition root_key_value (source : RawRootKey) (config_dir : option bytes) (env : EnvSource)
    : result bytes ConfigError :=
  match source with
  | Inline value => Ok value
  | Env name => let? o := env name in ok_or (MissingSecretEnv name) o
  | File path =>
    let path := resolve_secret_file_path config_dir path in
    let? text := map_err (SecretFileIo path) (fs_read_to_string path) in
    Ok (trim_line_ends text)
  end.

Definition resolve_root_key (source : option RawRootKey) (config_dir : option bytes)
    (env : EnvSource) : result LoadedSecret ConfigError :=
  let? source := ok_or MissingRootKey source in
  let? value := root_key_value source config_dir env in
  let? _ := validate_root_key value in
  Ok (mkSecret value).

(** ** Loader *)

Record ConfigSources : Type := mkSources {
  config_path : option bytes;
  src_listen : option Net.SocketAddr;
  src_data_dir : option bytes;
  apply_env : bool;
}.

(** [if let Some(value) = env.get(name)? { field = parse(name, value)?; }] *)
Definition merge_field {A} (env : EnvSource) (name : bytes) (parse : bytes → bytes → result A ConfigError)
    (current : A) : result A ConfigError :=
  let? o := env name in
  match o with Some value => parse name value | None => Ok current end.

Definition merge_env (env : EnvSource) (c : RawConfig) : result RawConfig ConfigError :=
  let? l := merge_field env ENV_HTTP_LISTEN parse_addr (listen (raw_http c)) in
  let? m := merge_field env ENV_HTTP_METRICS_LISTEN parse_optional_socket_addr
              (metrics_listen (raw_http c)) in
  let? d := merge_field env ENV_PATHS_DATA_DIR (λ _ v, Ok v) (data_dir (raw_paths c)) in
  let? j := merge_field env ENV_LOG_JSON parse_bool_env (raw_log_json c) in
  let? k := merge_field env ENV_ROOT_KEY (λ _ v, Ok (Some (Inline v))) (raw_root_key c) in
  let? g := merge_field env ENV_GC_INTERVAL_SECS parse_u64 (interval_secs (raw_gc c)) in
  let? e := merge_field env ENV_RATE_LIMIT_ENABLED parse_bool_env (enabled (raw_rate_limit c)) in
  let? r := merge_field env ENV_RATE_LIMIT_REQUESTS_PER_HOUR parse_u64
              (requests_per_hour (raw_rate_limit c)) in
  Ok (mkRaw (mkHttp l m) (mkPaths d) j k (mkGc g) (mkRate e r)).

Definition merge_cli (l : option Net.SocketAddr) (d : option bytes) (c : RawConfig) : RawConfig :=
  mkRaw (mkHttp (default (listen (raw_http c)) l) (metrics_listen (raw_http c)))
    (mkPaths (default (data_dir (raw_paths c)) d))
    (raw_log_json c) (raw_root_key c) (raw_gc c) (raw_rate_limit c).

(** [RawConfig::resolve]. *)
Definition resolve (c : RawConfig) (config_dir : option bytes) (env : EnvSource)
    : result Config ConfigError :=
  let? key := resolve_root_key (raw_root_key c) config_dir env in
  Ok (mkConfig (raw_http c) (raw_paths c) (raw_log_json c) key (raw_gc c) (raw_rate_limit c)).

(** [toml::from_str::<RawConfig>], with the hand-written deserializer of the root key. *)
Definition raw_from_str (text : bytes) : result RawConfig toml_error :=
  let? d := toml_from_str text in
  let? k := match doc_root_key d with
            | Some v => let? k := deserialize_root_key v in Ok (Some k)
            | None => Ok None
            end in
  Ok (mkRaw (doc_http d) (doc_paths d) (doc_log_json d) k (doc_gc d) (doc_rate_limit d)).

(** Reading and parsing of a file, shared by the two loaders. *)
Definition read_raw (path : bytes) : result RawConfig ConfigError :=
  let? raw := map_err (Io path) (fs_read_to_string path) in
  map_err (Parse path) (raw_from_str raw).

Definition load_from_file_with_env (path : bytes) (env : EnvSource) : result Config ConfigError :=
  let? c := read_raw path in resolve c (Path.parent path) env.

Definition load_from_sources_with_env (sources : ConfigSources) (env : EnvSource)
    : result Config ConfigError :=
  let? cd := match config_path sources with
             | Some path => let? c := read_raw path in Ok (c, Path.parent path)
             | None => Ok (default_raw, None)
             end in
  let? c := if apply_env sources then merge_env env cd.1 else Ok cd.1 in
  resolve (merge_cli (src_listen sources) (src_data_dir sources) c) cd.2 env.

Definition load_from_file (var : bytes → result bytes VarError) (path : bytes)
    : result Config ConfigError := load_from_file_with_env path (ProcessEnv var).

Definition load_from_sources (var : bytes → result bytes VarError) (sources : ConfigSources)
    : result Config ConfigError := load_from_sources_with_env sources (ProcessEnv var).

End Loader.

End Loader.
