(* ===== verification/ConfigProps.v ===== *)
(** * Properties of the configuration loader *)

From Stdlib Require Import Strings.Byte.
From S2P Require Import Prelude RustStd OsLib Config.
Import Config Loader.

Section Props.
Context {O : ConfigOps}.

(** ** Layers *)

(** [v] is what a field has after the environment layer, starting from [base]: the parsed value
    of its variable when the layer applies and the variable is set, and [base] otherwise. *)
Definition layered {A} (apply : bool) (env : EnvSource) (name : bytes)
    (parse : bytes → bytes → result A ConfigError) (base v : A) : Prop :=
  if apply
  then ∃ o, env name = Ok o ∧ match o with Some s => parse name s = Ok v | None => v = base end
  else v = base.

(** A root key that is neither blank nor the placeholder of the sample configuration. *)
Definition strong_key (value : bytes) : Prop :=
  Utf8.trim value ≠ [] ∧ Utf8.trim value ≠ INSECURE_ROOT_KEY_PLACEHOLDER.

Lemma result_bind_ok_iff {A B E} (r : result A E) (f : A → result B E) b :
  result_bind r f = Ok b ↔ ∃ a, r = Ok a ∧ f a = Ok b.
Proof. destruct r; simpl; naive_solver. Qed.

Lemma ok_or_ok {A E} (e : E) (o : option A) a : ok_or e o = Ok a ↔ o = Some a.
Proof. destruct o; simpl; naive_solver. Qed.

Lemma map_err_ok {A E F} (f : E → F) (r : result A E) a : map_err f r = Ok a ↔ r = Ok a.
Proof. destruct r; simpl; naive_solver. Qed.

Lemma merge_field_ok {A} env name (parse : bytes → bytes → result A ConfigError) base v :
  merge_field env name parse base = Ok v ↔ layered true env name parse base v.
Proof.
  unfold merge_field, layered. rewrite result_bind_ok_iff.
  split; intros (o & Ho & H); exists o; (split; [done|]); destruct o; naive_solver.
Qed.

Lemma validate_root_key_ok value u : validate_root_key value = Ok u ↔ strong_key value.
Proof.
  unfold validate_root_key, strong_key. destruct u.
  case_bool_decide; [naive_solver|]. case_bool_decide; naive_solver.
Qed.

Lemma resolve_root_key_ok source dir env key :
  resolve_root_key source dir env = Ok key
  ↔ ∃ src, source = Some src ∧ root_key_value src dir env = Ok (expose_bytes key)
           ∧ strong_key (expose_bytes key).
Proof.
  unfold resolve_root_key. rewrite result_bind_ok_iff. setoid_rewrite ok_or_ok.
  split.
  - intros (src & -> & H). apply result_bind_ok in H as (value & Hv & H).
    apply result_bind_ok in H as (u & Hu & [= <-]). apply validate_root_key_ok in Hu. eauto.
  - intros (src & -> & Hv & Hs). exists src. split; [done|]. rewrite Hv. simpl.
    rewrite (proj2 (validate_root_key_ok _ tt) Hs). by destruct key.
Qed.

Lemma read_raw_ok path c :
  read_raw path = Ok c ↔ ∃ text, fs_read_to_string path = Ok text ∧ raw_from_str text = Ok c.
Proof.
  unfold read_raw. rewrite result_bind_ok_iff. setoid_rewrite map_err_ok. done.
Qed.

(** The environment layer of a whole configuration, field by field. *)
Definition env_layer (apply : bool) (env : EnvSource) (b c : RawConfig) : Prop :=
  layered apply env ENV_HTTP_LISTEN parse_addr (listen (raw_http b)) (listen (raw_http c))
  ∧ layered apply env ENV_HTTP_METRICS_LISTEN parse_optional_socket_addr
      (metrics_listen (raw_http b)) (metrics_listen (raw_http c))
  ∧ layered apply env ENV_PATHS_DATA_DIR (λ _ v, Ok v) (data_dir (raw_paths b)) (data_dir (raw_paths c))
  ∧ layered apply env ENV_LOG_JSON parse_bool_env (raw_log_json b) (raw_log_json c)
  ∧ layered apply env ENV_ROOT_KEY (λ _ v, Ok (Some (Inline v))) (raw_root_key b) (raw_root_key c)
  ∧ layered apply env ENV_GC_INTERVAL_SECS parse_u64 (interval_secs (raw_gc b)) (interval_secs (raw_gc c))
  ∧ layered apply env ENV_RATE_LIMIT_ENABLED parse_bool_env (enabled (raw_rate_limit b))
      (enabled (raw_rate_limit c))
  ∧ layered apply env ENV_RATE_LIMIT_REQUESTS_PER_HOUR parse_u64 (requests_per_hour (raw_rate_limit b))
      (requests_per_hour (raw_rate_limit c)).

Lemma merge_env_ok env b c : merge_env env b = Ok c ↔ env_layer true env b c.
Proof.
  unfold merge_env, env_layer. rewrite <- !merge_field_ok. split.
  - intros H. repeat (apply result_bind_ok in H as (? & ? & H)). injection H as <-. done.
  - intros (H1 & H2 & H3 & H4 & H5 & H6 & H7 & H8). rewrite H1, H2, H3, H4, H5, H6, H7, H8. simpl.
    by destruct c as [[] [] ? ? [] []].
Qed.

Lemma env_layer_false env b c : env_layer false env b c ↔ c = b.
Proof.
  unfold env_layer, layered. destruct b as [[] [] ? ? [] []], c as [[] [] ? ? [] []]; simpl.
  split; [by intros (-> & -> & -> & -> & -> & -> & -> & ->)|by intros [=->->->->->->->->]].
Qed.

Lemma env_step_ok (apply : bool) env b c :
  (if apply then merge_env env b else Ok b) = Ok c ↔ env_layer apply env b c.
Proof.
  destruct apply; [apply merge_env_ok|]. rewrite env_layer_false.
  split; [by intros [= <-]|by intros ->].
Qed.

(** What the file layer starts from: the built-in defaults, or the file that was named. *)
Definition file_layer (sources : ConfigSources) (b : RawConfig) : Prop :=
  match config_path sources with
  | Some path => ∃ text, fs_read_to_string path = Ok text ∧ raw_from_str text = Ok b
  | None => b = default_raw
  end.

#[local] Opaque resolve.

Lemma load_ok sources env cfg :
  load_from_sources_with_env sources env = Ok cfg
  ↔ ∃ b c, file_layer sources b ∧ env_layer (apply_env sources) env b c
      ∧ resolve (merge_cli (src_listen sources) (src_data_dir sources) c)
          (config_path sources ≫= Path.parent) env = Ok cfg.
Proof.
  unfold load_from_sources_with_env, file_layer. rewrite result_bind_ok_iff.
  setoid_rewrite result_bind_ok_iff. setoid_rewrite env_step_ok.
  destruct (config_path sources) as [path|]; simpl.
  - split.
    + intros (cd & Hr & c & Hc & H). apply result_bind_ok in Hr as (b & Hb & [= <-]).
      apply read_raw_ok in Hb. by exists b, c.
    + intros (b & c & Hb & Hc & H). exists (b, Path.parent path).
      apply read_raw_ok in Hb. rewrite Hb. split; [done|]. by exists c.
  - split.
    + intros (cd & [= <-] & c & Hc & H). by exists default_raw, c.
    + intros (b & c & -> & Hc & H). exists (default_raw, None). split; [done|]. by exists c.
Qed.

#[local] Transparent resolve.

(** C34: The configuration is the layering the loader documents, exactly. Loading yields [cfg]
    iff the file (or the built-in defaults) reads as some base, every environment variable that
    is set parses and overrides its own field of the base unless overrides are disabled, a
    listen address or data directory from the command line overrides both, and the root key
    that results from the layers resolves (inline, through a variable, or through a file
    relative to the configuration's directory) to a value that is neither blank nor the sample
    placeholder. In every other case loading fails. *)
Theorem config_layering (sources : ConfigSources) (env : EnvSource) (cfg : Config) :
  load_from_sources_with_env sources env = Ok cfg
  ↔ ∃ b c, file_layer sources b ∧ env_layer (apply_env sources) env b c
      ∧ listen (http cfg) = default (listen (raw_http c)) (src_listen sources)
      ∧ metrics_listen (http cfg) = metrics_listen (raw_http c)
      ∧ data_dir (paths cfg) = default (data_dir (raw_paths c)) (src_data_dir sources)
      ∧ log_json cfg = raw_log_json c ∧ gc cfg = raw_gc c ∧ rate_limit cfg = raw_rate_limit c
      ∧ ∃ src, raw_root_key c = Some src
          ∧ root_key_value src (config_path sources ≫= Path.parent) env
            = Ok (expose_bytes (root_key cfg))
          ∧ strong_key (expose_bytes (root_key cfg)).
Proof.
  rewrite load_ok. split; intros (b & c & Hb & Hc & H); exists b, c;
    (split; [done|]); (split; [done|]); unfold resolve in *.
  - apply result_bind_ok in H as (key & Hk & [= <-]). apply resolve_root_key_ok in Hk. done.
  - destruct H as (H1 & H2 & H3 & H4 & H5 & H6 & H7).
    apply resolve_root_key_ok in H7. simpl. rewrite H7. simpl.
    destruct cfg as [[] [] ? ? ? ?]; simpl in *. by subst.
Qed.

(** Disabling environment overrides isolates the process from its environment. With
    overrides off, two environments give the same outcome, error or configuration, as soon as
    they agree on the one variable the file itself names as the source of its root key. *)
Theorem no_env_isolation (sources : ConfigSources) (env env' : EnvSource) :
  apply_env sources = false →
  (∀ path c name, config_path sources = Some path → read_raw path = Ok c →
     raw_root_key c = Some (Env name) → env name = env' name) →
  load_from_sources_with_env sources env = load_from_sources_with_env sources env'.
Proof.
  intros Ha Henv. unfold load_from_sources_with_env. rewrite Ha.
  destruct (config_path sources) as [path|]; simpl; [|done].
  destruct (read_raw path) as [c|e] eqn:Hr; simpl; [|done].
  unfold resolve, resolve_root_key. simpl.
  destruct (raw_root_key c) as [src|] eqn:Hk; simpl; [|done].
  destruct src as [v|name|p]; simpl; [done| |done].
  by rewrite (Henv path c name).
Qed.

(** A root key table is accepted iff it has one entry, that entry is a known source and its
    value is a string. *)
Lemma parse_root_key_table_ok t k :
  parse_root_key_table t = Ok k
  ↔ ∃ name s, t = [(name, String s)]
      ∧ (name = bs "value" ∧ k = Inline s ∨ name = bs "env" ∧ k = Env s ∨ name = bs "file" ∧ k = File s).
Proof.
  unfold parse_root_key_table. split.
  - destruct t as [|[name v] t]; simpl; [done|]. intros H.
    apply result_bind_ok in H as (o & H & Hk). apply ok_or_ok in Hk as ->.
    apply result_bind_ok in H as (src & Hs & H). destruct t as [|[] ?]; simpl in H; [|done].
    injection H as ->. exists name. unfold root_key_source in Hs.
    destruct v as [s| |]; repeat case_decide; simplify_eq; eauto 8.
  - intros (name & s & -> & [[-> ->]|[[-> ->]|[-> ->]]]); done.
Qed.

End Props.

(** ** Witnesses *)

(** A file system with one configuration file and one secret, and a reader that knows it. *)
Definition demo_doc : TomlDoc :=
  mkDoc default_http default_paths true (Some (Table [(bs "file", String (bs "root.key"))])) default_gc
    default_rate_limit.

#[global] Instance demo_config_ops : ConfigOps := {
  toml_error := bytes;
  toml_custom := id;
  toml_from_str := λ t, if decide (t = bs "demo") then Ok demo_doc else Err (bs "syntax");
  io_error := unit;
  fs_read_to_string := λ p,
    if decide (p = bs "/etc/kd/keydock.toml") then Ok (bs "demo")
    else if decide (p = bs "/etc/kd/root.key") then Ok (bs "s3cret" ++ ["010"%byte]) else Err tt;
}.

Definition demo_env (vars : list (bytes * bytes)) : EnvSource :=
  ProcessEnv (λ n, match list_find (λ kv, kv.1 = n) vars with
                   | Some (_, (_, v)) => Ok v
                   | None => Err NotPresent
                   end).

Definition demo_sources (apply : bool) : ConfigSources :=
  mkSources (Some (bs "/etc/kd/keydock.toml")) None (Some (bs "/srv")) apply.

Example demo_load :
  load_from_sources_with_env (demo_sources true)
    (demo_env [(ENV_HTTP_LISTEN, bs "0.0.0.0:9000"); (ENV_PATHS_DATA_DIR, bs "/tmp")])
  = Ok (mkConfig (mkHttp (Net.V4 [0; 0; 0; 0] 9000) None) (mkPaths (bs "/srv")) true
          (mkSecret (bs "s3cret")) default_gc default_rate_limit).
Proof. vm_refl. Qed.

Lemma no_env_isolation_witness :
  load_from_sources_with_env (demo_sources false) (demo_env [(ENV_LOG_JSON, bs "nonsense")])
  = load_from_sources_with_env (demo_sources false) (demo_env []).
Proof.
  apply no_env_isolation; [reflexivity|]. intros path c name Hp Hr Hk.
  injection Hp as <-. vm_compute in Hr. injection Hr as <-. discriminate Hk.
Defined.
