(* ===== verification/Cli.v ===== *)
(** * The command line

    [keydock-config/src/cli.rs]: the subcommand and the options of [serve] and [init], read with
    the [lexopt] crate. The argument lexer is a parameter ([LexoptOps]) with the laws its
    documentation states; [--help] ends the process. The loops run on fuel, and the lexer's
    measure shows that the arguments left are enough. *)

From Stdlib Require Import Strings.Byte.
From S2P Require Import Prelude RustStd OsLib.

(** ** The lexer *)

Module Lexopt.

(** [lexopt::Arg]; an option character is its code point. *)
Inductive Arg : Type :=
| Short (c : Z)
| Long (name : bytes)
| Value (v : bytes).

#[global] Instance Arg_eq_dec : EqDecision Arg.
Proof. solve_decision. Defined.

(** The text of an option name. *)
Definition plain_name (name : bytes) : Prop :=
  name ≠ [] ∧ ("="%byte ∉ name) ∧ Utf8.from_utf8 name = true.

#[global] Instance plain_name_dec name : Decision (plain_name name).
Proof. unfold plain_name. apply _. Defined.

Definition is_option (a : bytes) : bool := starts_with a (bs "-").

End Lexopt.

Class LexoptOps : Type := {
  lex_error : Type;
  (** [Parser], its construction from the arguments after the program name, and its methods *)
  Parser : Type;
  from_args : list bytes → Parser;
  next : Parser → result (option Lexopt.Arg) lex_error * Parser;
  opt_value : Parser → result bytes lex_error * Parser;
  (** [Arg::unexpected] and [Error::NonUnicodeValue] *)
  unexpected : Lexopt.Arg → lex_error;
  non_unicode : bytes → lex_error;
}.

(** [at_args p l]: the parser is between arguments and [l] are the ones left. *)
Class LexoptLaws (O : LexoptOps) : Type := {
  at_args : Parser → list bytes → Prop;
  (** [pending p v l]: the parser is behind the name of a [--name=v], and [l] are left. *)
  pending : Parser → bytes → list bytes → Prop;
  (** Bounds the arguments the parser still yields. *)
  args_left : Parser → nat;
  at_start l : at_args (from_args l) l;
  next_end p : at_args p [] → ∃ p', next p = (Ok None, p');
  next_value p a l :
    at_args p (a :: l) → Lexopt.is_option a = false →
    ∃ p', next p = (Ok (Some (Lexopt.Value a)), p') ∧ at_args p' l;
  next_long p name l :
    at_args p ((bs "--" ++ name) :: l) → Lexopt.plain_name name →
    ∃ p', next p = (Ok (Some (Lexopt.Long name)), p') ∧ at_args p' l;
  next_long_eq p name v l :
    at_args p ((bs "--" ++ name ++ "="%byte :: v) :: l) → Lexopt.plain_name name →
    ∃ p', next p = (Ok (Some (Lexopt.Long name)), p') ∧ pending p' v l;
  next_short p c l :
    at_args p (("-"%byte :: [c]) :: l) → c ≠ "-"%byte → Utf8.ascii [c] →
    ∃ p', next p = (Ok (Some (Lexopt.Short (byte_Z c))), p') ∧ at_args p' l;
  value_next p a l : at_args p (a :: l) → ∃ p', opt_value p = (Ok a, p') ∧ at_args p' l;
  value_pending p v l : pending p v l → ∃ p', opt_value p = (Ok v, p') ∧ at_args p' l;
  next_decreases p a p' : next p = (Ok (Some a), p') → (args_left p' < args_left p)%nat;
  value_decreases p v p' : opt_value p = (Ok v, p') → (args_left p' <= args_left p)%nat;
  (** An option at the end of the line has no value, and a value nobody asked for is an error. *)
  value_missing p : at_args p [] → ∃ e p', opt_value p = (Err e, p');
  next_pending p v l : pending p v l → ∃ e p', next p = (Err e, p');
}.

(** ** [cli.rs] *)

Module Cli.
Import Lexopt.

Record ServeArgs : Type := mkServe {
  config_path : option bytes;
  listen : option Net.SocketAddr;
  data_dir : option bytes;
  no_env : bool;
}.

Definition default_serve : ServeArgs := mkServe None None None false.

Record InitArgs : Type := mkInit { dir : bytes; force : bool }.

Inductive Command : Type := Serve (args : ServeArgs) | Init (args : InitArgs).

Inductive Help : Type := RootHelp | ServeHelp | InitHelp.

Section Cli.
Context {LX : LexoptOps}.

Inductive CliError : Type :=
| MissingSubcommand
| Parse (e : lex_error)
| InvalidValue (what reason : bytes)
| MissingInitDirectory.

(** A parse returns, fails, or prints a help text and exits with status 0. *)
Inductive outcome (A : Type) : Type :=
| Parsed (a : A)
| Failed (e : CliError)
| Exit (h : Help).
#[global] Arguments Parsed {A} _.
#[global] Arguments Failed {A} _.
#[global] Arguments Exit {A} _.

Definition obind {A B} (m : outcome A) (f : A → outcome B) : outcome B :=
  match m with Parsed a => f a | Failed e => Failed e | Exit h => Exit h end.

(** [v.string()] and [v.parse()] of [ValueExt]: both need UTF-8. *)
Definition string_of (v : bytes) : result bytes lex_error :=
  if Utf8.from_utf8 v then Ok v else Err (non_unicode v).

(** [parser.value()?.parse()?] at a type every text converts to. *)
Definition text_value (p : Parser) : result bytes CliError * Parser :=
  let '(r, p') := opt_value p in
  (map_err Parse (let? v := r in string_of v), p').

Definition with_config (path : bytes) (a : ServeArgs) : ServeArgs :=
  mkServe (Some path) (listen a) (data_dir a) (no_env a).
Definition with_listen (addr : Net.SocketAddr) (a : ServeArgs) : ServeArgs :=
  mkServe (config_path a) (Some addr) (data_dir a) (no_env a).
Definition with_data_dir (path : bytes) (a : ServeArgs) : ServeArgs :=
  mkServe (config_path a) (listen a) (Some path) (no_env a).
Definition with_no_env (a : ServeArgs) : ServeArgs :=
  mkServe (config_path a) (listen a) (data_dir a) true.

(** [s.parse::<SocketAddr>()] with the message of the error. *)
Definition parse_listen (s : bytes) : result Net.SocketAddr CliError :=
  ok_or (InvalidValue (bs "listen") (s ++ bs ": " ++ Net.addr_parse_error)) (Net.from_str s).

Definition c_short : Z := 99.
Definition h_short : Z := 104.

(** The body of the loop of [parse_serve]: the new arguments, or how the parse ends. *)
Definition serve_arg (arg : Arg) (args : ServeArgs) (p : Parser) : outcome ServeArgs * Parser :=
  let valued (f : bytes → result ServeArgs CliError) :=
    let '(r, p') := text_value p in
    (match (let? v := r in f v) with Ok a => Parsed a | Err e => Failed e end, p') in
  if bool_decide (arg = Short c_short ∨ arg = Long (bs "config"))
  then valued (λ path, Ok (with_config path args))
  else if bool_decide (arg = Long (bs "listen"))
  then valued (λ s, let? addr := parse_listen s in Ok (with_listen addr args))
  else if bool_decide (arg = Long (bs "data-dir"))
  then valued (λ path, Ok (with_data_dir path args))
  else if bool_decide (arg = Long (bs "no-env")) then (Parsed (with_no_env args), p)
  else if bool_decide (arg = Short h_short ∨ arg = Long (bs "help")) then (Exit ServeHelp, p)
  else (Failed (Parse (unexpected arg)), p).

(** [parse_serve]; [None] is an exhausted fuel. *)
Fixpoint parse_serve (fuel : nat) (args : ServeArgs) (p : Parser) : option (outcome ServeArgs) :=
  match fuel with
  | O => None
  | S fuel' =>
    match next p with
    | (Err e, _) => Some (Failed (Parse e))
    | (Ok None, _) => Some (Parsed args)
    | (Ok (Some arg), p1) =>
      match serve_arg arg args p1 with
      | (Parsed args', p2) => parse_serve fuel' args' p2
      | (r, _) => Some r
      end
    end
  end.

(** The body of the loop of [parse_init]; the state is [(force, dir)]. *)
Definition init_arg (arg : Arg) (st : bool * option bytes) : outcome (bool * option bytes) :=
  if bool_decide (arg = Long (bs "force")) then Parsed (true, st.2)
  else if bool_decide (arg = Short h_short ∨ arg = Long (bs "help")) then Exit InitHelp
  else
    match arg with
    | Value v =>
      match string_of v with
      | Err e => Failed (Parse e)
      | Ok s =>
        match st.2 with
        | Some _ => Failed (InvalidValue (bs "init") (bs "unexpected extra argument: " ++ s))
        | None => Parsed (st.1, Some s)
        end
      end
    | _ => Failed (Parse (unexpected arg))
    end.

Definition init_args (st : bool * option bytes) : outcome InitArgs :=
  match st.2 with Some d => Parsed (mkInit d st.1) | None => Failed MissingInitDirectory end.

Fixpoint parse_init (fuel : nat) (st : bool * option bytes) (p : Parser)
    : option (outcome InitArgs) :=
  match fuel with
  | O => None
  | S fuel' =>
    match next p with
    | (Err e, _) => Some (Failed (Parse e))
    | (Ok None, _) => Some (init_args st)
    | (Ok (Some arg), p1) =>
      match init_arg arg st with
      | Parsed st' => parse_init fuel' st' p1
      | Failed e => Some (Failed e)
      | Exit h => Some (Exit h)
      end
    end
  end.

(** The subcommand. *)
Definition subcommand (first : option Arg) : outcome bytes :=
  match first with
  | None => Failed MissingSubcommand
  | Some (Value v) => match string_of v with Ok s => Parsed s | Err e => Failed (Parse e) end
  | Some arg =>
    if bool_decide (arg = Long (bs "help") ∨ arg = Short h_short) then Exit RootHelp
    else Failed (Parse (unexpected arg))
  end.

(** [parse] on the arguments after the program name. *)
Definition parse (fuel : nat) (argv : list bytes) : option (outcome Command) :=
  match next (from_args argv) with
  | (Err e, _) => Some (Failed (Parse e))
  | (Ok first, p) =>
    match subcommand first with
    | Failed e => Some (Failed e)
    | Exit h => Some (Exit h)
    | Parsed sub =>
      if decide (sub = bs "serve")
      then (λ r, obind r (λ a, Parsed (Serve a))) <$> parse_serve fuel default_serve p
      else if decide (sub = bs "init")
      then (λ r, obind r (λ a, Parsed (Init a))) <$> parse_init fuel (false, None) p
      else Some (Failed (InvalidValue (bs "subcommand") sub))
    end
  end.

(** ** Termination *)

Context {LL : LexoptLaws LX}.

Lemma serve_arg_left arg args p a' p' :
  serve_arg arg args p = (Parsed a', p') → (args_left p' <= args_left p)%nat.
Proof.
  assert (∀ (f : bytes → result ServeArgs CliError) q,
    (let '(r, q') := text_value p in
     (match (let? v := r in f v) with Ok a => Parsed a | Err e => Failed e end, q')) = (Parsed a', q) →
    (args_left q <= args_left p)%nat) as Hv.
  { intros f q. unfold text_value. destruct (opt_value p) as [[v|e] q'] eqn:Eo; [|done].
    intros [= _ <-]. by eapply value_decreases. }
  unfold serve_arg. cbv zeta. intros Ha. repeat case_bool_decide; solve [exact (Hv _ _ Ha)|by simplify_eq].
Qed.

Lemma parse_serve_total fuel args p :
  (args_left p < fuel)%nat → is_Some (parse_serve fuel args p).
Proof.
  revert args p. induction fuel as [|fuel IH]; intros args p Hf; [lia|]. cbn [parse_serve].
  destruct (next p) as [[[arg|]|e] p1] eqn:En; [|by eexists..].
  apply next_decreases in En. destruct (serve_arg arg args p1) as [[a'|e|h] p2] eqn:Es; [|by eexists..].
  apply serve_arg_left in Es. apply IH. lia.
Qed.

Lemma parse_init_total fuel st p :
  (args_left p < fuel)%nat → is_Some (parse_init fuel st p).
Proof.
  revert st p. induction fuel as [|fuel IH]; intros st p Hf; [lia|]. cbn [parse_init].
  destruct (next p) as [[[arg|]|e] p1] eqn:En; [|by eexists..].
  apply next_decreases in En. destruct (init_arg arg st) as [st'|e|h]; [|by eexists..].
  apply IH. lia.
Qed.

Lemma parse_total fuel argv :
  (args_left (from_args argv) < fuel)%nat → is_Some (parse fuel argv).
Proof.
  intros Hf. unfold parse. destruct (next (from_args argv)) as [[first|e] p] eqn:En; [|by eexists].
  destruct first as [arg|]; [|by eexists]. apply next_decreases in En.
  destruct (subcommand (Some arg)) as [sub|e|h]; [|by eexists..].
  repeat case_decide; [| |by eexists].
  - apply fmap_is_Some, parse_serve_total. lia.
  - apply fmap_is_Some, parse_init_total. lia.
Qed.

(** ** What a command line means *)

Inductive spelling : Type := Spaced | Joined.

Definition valued_words (name : bytes) (sp : spelling) (v : bytes) : list bytes :=
  match sp with
  | Spaced => [bs "--" ++ name; v]
  | Joined => [bs "--" ++ name ++ "="%byte :: v]
  end.

Inductive serve_opt : Type :=
| OptConfigShort (path : bytes)
| OptConfig (sp : spelling) (path : bytes)
| OptListen (sp : spelling) (s : bytes)
| OptDataDir (sp : spelling) (path : bytes)
| OptNoEnv.

Definition serve_words (o : serve_opt) : list bytes :=
  match o with
  | OptConfigShort path => [bs "-c"; path]
  | OptConfig sp path => valued_words (bs "config") sp path
  | OptListen sp s => valued_words (bs "listen") sp s
  | OptDataDir sp path => valued_words (bs "data-dir") sp path
  | OptNoEnv => [bs "--no-env"]
  end.

Definition serve_effect (o : serve_opt) (args : ServeArgs) : result ServeArgs CliError :=
  match o with
  | OptConfigShort path | OptConfig _ path => Ok (with_config path args)
  | OptListen _ s => let? addr := parse_listen s in Ok (with_listen addr args)
  | OptDataDir _ path => Ok (with_data_dir path args)
  | OptNoEnv => Ok (with_no_env args)
  end.

(** The options from left to right, up to the first that is refused. *)
Fixpoint serve_meaning (opts : list serve_opt) (args : ServeArgs) : result ServeArgs CliError :=
  match opts with
  | [] => Ok args
  | o :: opts' => let? args' := serve_effect o args in serve_meaning opts' args'
  end.

Definition serve_text (o : serve_opt) : bytes :=
  match o with
  | OptConfigShort v | OptConfig _ v | OptListen _ v | OptDataDir _ v => v
  | OptNoEnv => []
  end.

Inductive init_item : Type := ItemForce | ItemDir (d : bytes).

Definition init_word (it : init_item) : bytes :=
  match it with ItemForce => bs "--force" | ItemDir d => d end.

(** A directory that would read as an option cannot be written this way. *)
Definition init_item_ok (it : init_item) : Prop :=
  match it with ItemForce => True | ItemDir d => is_option d = false ∧ Utf8.from_utf8 d = true end.

Definition dirs (items : list init_item) : list bytes :=
  items ≫= λ it, match it with ItemDir d => [d] | ItemForce => [] end.

Definition forced (items : list init_item) : bool :=
  existsb (λ it, match it with ItemForce => true | ItemDir _ => false end) items.

Definition init_meaning (items : list init_item) : result InitArgs CliError :=
  match dirs items with
  | [] => Err MissingInitDirectory
  | [d] => Ok (mkInit d (forced items))
  | _ :: d :: _ => Err (InvalidValue (bs "init") (bs "unexpected extra argument: " ++ d))
  end.

Inductive command_line : Type :=
| LineServe (opts : list serve_opt)
| LineInit (items : list init_item).

Definition line_words (c : command_line) : list bytes :=
  match c with
  | LineServe opts => bs "serve" :: (opts ≫= serve_words)
  | LineInit items => bs "init" :: (init_word <$> items)
  end.

Definition line_ok (c : command_line) : Prop :=
  match c with
  | LineServe opts => Forall (λ o, Utf8.from_utf8 (serve_text o) = true) opts
  | LineInit items => Forall init_item_ok items
  end.

Definition line_meaning (c : command_line) : result Command CliError :=
  match c with
  | LineServe opts => let? a := serve_meaning opts default_serve in Ok (Serve a)
  | LineInit items => let? a := init_meaning items in Ok (Init a)
  end.

Definition of_result {A} (r : result A CliError) : outcome A :=
  match r with Ok a => Parsed a | Err e => Failed e end.

(** ** The parser follows the meaning *)

Lemma text_value_words p name sp v l :
  at_args p (valued_words name sp v ++ l) → plain_name name → Utf8.from_utf8 v = true →
  ∃ p1 p2, next p = (Ok (Some (Long name)), p1) ∧ text_value p1 = (Ok v, p2) ∧ at_args p2 l.
Proof.
  intros Hp Hn Hv. destruct sp; simpl in Hp.
  - destruct (next_long p name (v :: l) Hp Hn) as (p1 & H1 & Hp1).
    destruct (value_next p1 v l Hp1) as (p2 & H2 & Hp2). exists p1, p2. split; [done|].
    unfold text_value, string_of. rewrite H2. simpl. by rewrite Hv.
  - destruct (next_long_eq p name v l Hp Hn) as (p1 & H1 & Hp1).
    destruct (value_pending p1 v l Hp1) as (p2 & H2 & Hp2). exists p1, p2. split; [done|].
    unfold text_value, string_of. rewrite H2. simpl. by rewrite Hv.
Qed.

Lemma serve_step p o l args :
  at_args p (serve_words o ++ l) → Utf8.from_utf8 (serve_text o) = true →
  ∃ arg p1 p2, next p = (Ok (Some arg), p1)
    ∧ serve_arg arg args p1 = (of_result (serve_effect o args), p2) ∧ at_args p2 l.
Proof.
  intros Hp Hv.
  assert (∀ name, bool_decide (plain_name name) = true → plain_name name) as Hn
    by (intros name; by apply bool_decide_eq_true).
  destruct o as [path|sp path|sp s|sp path|]; simpl in Hv.
  - destruct (next_short p "c"%byte (path :: l) Hp) as (p1 & H1 & Hp1); [done|by repeat constructor|].
    destruct (value_next p1 path l Hp1) as (p2 & H2 & Hp2).
    eexists _, p1, p2. split; [exact H1|]. split; [|done].
    unfold serve_arg, text_value, string_of. rewrite H2. simpl. by rewrite Hv.
  - destruct (text_value_words p (bs "config") sp path l Hp (Hn (bs "config") eq_refl) Hv) as (p1 & p2 & H1 & H2 & Hp2).
    eexists _, p1, p2. split; [exact H1|]. split; [|done]. unfold serve_arg. by rewrite H2.
  - destruct (text_value_words p (bs "listen") sp s l Hp (Hn (bs "listen") eq_refl) Hv) as (p1 & p2 & H1 & H2 & Hp2).
    eexists _, p1, p2. split; [exact H1|]. split; [|done]. unfold serve_arg. by rewrite H2.
  - destruct (text_value_words p (bs "data-dir") sp path l Hp (Hn (bs "data-dir") eq_refl) Hv) as (p1 & p2 & H1 & H2 & Hp2).
    eexists _, p1, p2. split; [exact H1|]. split; [|done]. unfold serve_arg. by rewrite H2.
  - destruct (next_long p (bs "no-env") l Hp (Hn (bs "no-env") eq_refl)) as (p1 & H1 & Hp1).
    by eexists _, p1, p1.
Qed.

(** The options at the front of a line, and the parser behind them. *)
Lemma parse_serve_front fuel p opts tail args :
  (args_left p < fuel)%nat → at_args p ((opts ≫= serve_words) ++ tail) →
  Forall (λ o, Utf8.from_utf8 (serve_text o) = true) opts →
  match serve_meaning opts args with
  | Err e => parse_serve fuel args p = Some (Failed e)
  | Ok args' => ∃ fuel' p', (args_left p' < fuel')%nat ∧ at_args p' tail
                  ∧ parse_serve fuel args p = parse_serve fuel' args' p'
  end.
Proof.
  intros Hf Hp Hok. revert fuel p args Hf Hp. induction Hok as [|o opts Ho _ IH]; intros fuel p args Hf Hp;
    [by exists fuel, p|]. destruct fuel as [|fuel]; [lia|].
  rewrite bind_cons, <- app_assoc in Hp.
  destruct (serve_step p o _ args Hp Ho) as (arg & p1 & p2 & H1 & H2 & Hp2).
  cbn [parse_serve serve_meaning]. rewrite H1, H2. apply next_decreases in H1.
  destruct (serve_effect o args) as [args'|e]; [|done]. simpl. apply serve_arg_left in H2.
  apply IH; [lia|done].
Qed.

Lemma parse_serve_meaning fuel p opts args :
  (args_left p < fuel)%nat → at_args p (opts ≫= serve_words) →
  Forall (λ o, Utf8.from_utf8 (serve_text o) = true) opts →
  parse_serve fuel args p = Some (of_result (serve_meaning opts args)).
Proof.
  intros Hf Hp Hok. rewrite <- (app_nil_r (opts ≫= serve_words)) in Hp.
  pose proof (parse_serve_front fuel p opts [] args Hf Hp Hok) as Hx.
  destruct (serve_meaning opts args) as [args'|e]; [|done].
  destruct Hx as (fuel' & p' & Hf' & Hp' & ->). destruct fuel' as [|fuel']; [lia|]. cbn [parse_serve].
  by destruct (next_end p' Hp') as [p2 ->].
Qed.

Lemma init_step p it l st :
  at_args p (init_word it :: l) → init_item_ok it →
  ∃ arg p1, next p = (Ok (Some arg), p1) ∧ at_args p1 l
    ∧ init_arg arg st
      = match it with
        | ItemForce => Parsed (true, st.2)
        | ItemDir d =>
          match st.2 with
          | Some _ => Failed (InvalidValue (bs "init") (bs "unexpected extra argument: " ++ d))
          | None => Parsed (st.1, Some d)
          end
        end.
Proof.
  intros Hp Hok. destruct it as [|d].
  - assert (plain_name (bs "force")) as Hn by by apply (bool_decide_unpack _).
    destruct (next_long p (bs "force") l Hp Hn) as (p1 & H1 & Hp1). by eexists _, p1.
  - destruct Hok as [Hd Hu]. destruct (next_value p d l Hp Hd) as (p1 & H1 & Hp1).
    eexists _, p1. split; [exact H1|]. split; [done|]. unfold init_arg, string_of. by rewrite Hu.
Qed.

Definition init_end (items : list init_item) (st : bool * option bytes) : result InitArgs CliError :=
  match option_list st.2 ++ dirs items with
  | [] => Err MissingInitDirectory
  | [d] => Ok (mkInit d (st.1 || forced items))
  | _ :: d :: _ => Err (InvalidValue (bs "init") (bs "unexpected extra argument: " ++ d))
  end.

Lemma parse_init_front fuel p items tail st :
  (args_left p < fuel)%nat → at_args p ((init_word <$> items) ++ tail) → Forall init_item_ok items →
  match option_list st.2 ++ dirs items with
  | _ :: d :: _ =>
    parse_init fuel st p
    = Some (Failed (InvalidValue (bs "init") (bs "unexpected extra argument: " ++ d)))
  | ds => ∃ fuel' p', (args_left p' < fuel')%nat ∧ at_args p' tail
            ∧ parse_init fuel st p = parse_init fuel' (st.1 || forced items, head ds) p'
  end.
Proof.
  intros Hf Hp Hok. revert fuel p st Hf Hp. induction Hok as [|it items Hit _ IH]; intros fuel p st Hf Hp.
  { destruct st as [f [d|]]; simpl; exists fuel, p; by rewrite orb_false_r. }
  destruct fuel as [|fuel]; [lia|]. rewrite fmap_cons in Hp. simpl in Hp.
  destruct (init_step p it _ st Hp Hit) as (arg & p1 & H1 & Hp1 & H2).
  cbn [parse_init]. rewrite H1, H2. apply next_decreases in H1. destruct st as [f o]. destruct it as [|d]; simpl.
  - specialize (IH fuel p1 (true, o) ltac:(lia) Hp1). simpl in IH. by rewrite orb_true_r.
  - destruct o as [d'|]; [done|]. apply (IH fuel p1 (f, Some d)); [lia|done].
Qed.

Lemma parse_init_meaning fuel p items st :
  (args_left p < fuel)%nat → at_args p (init_word <$> items) → Forall init_item_ok items →
  parse_init fuel st p = Some (of_result (init_end items st)).
Proof.
  intros Hf Hp Hok. rewrite <- (app_nil_r (init_word <$> items)) in Hp.
  pose proof (parse_init_front fuel p items [] st Hf Hp Hok) as Hx. unfold init_end.
  destruct (option_list st.2 ++ dirs items) as [|d [|d' ds]]; [| |done];
    destruct Hx as (fuel' & p' & Hf' & Hp' & ->); (destruct fuel' as [|fuel']; [lia|]); cbn [parse_init];
    by destruct (next_end p' Hp') as [p2 ->].
Qed.

Lemma parse_line fuel c :
  (args_left (from_args (line_words c)) < fuel)%nat → line_ok c →
  parse fuel (line_words c) = Some (of_result (line_meaning c)).
Proof.
  intros Hf Hok. unfold parse. pose proof (at_start (line_words c)) as Hs.
  destruct c as [opts|items]; cbn [line_words] in Hs; cbn [line_ok] in Hok.
  - destruct (next_value _ _ _ Hs eq_refl) as (p & Hn & Hp). cbn [line_words] in *. rewrite Hn.
    apply next_decreases in Hn. simpl. rewrite (parse_serve_meaning fuel p opts) by (done || lia).
    simpl. by destruct (serve_meaning opts default_serve).
  - destruct (next_value _ _ _ Hs eq_refl) as (p & Hn & Hp). cbn [line_words] in *. rewrite Hn.
    apply next_decreases in Hn. simpl. rewrite (parse_init_meaning fuel p items) by (done || lia).
    simpl. unfold init_meaning, init_end. simpl. by destruct (dirs items) as [|d [|d' ds]].
Qed.

(** ** Lines that do not run *)

(** What may follow the options of [serve] instead of their end. *)
Inductive serve_stop : Type :=
| SUnknown (name : bytes) (v : option bytes)    (* [--name] or [--name=v] *)
| SShort (c : byte)                             (* [-c] for another character *)
| SStray (v : bytes)                            (* an argument that is no option *)
| SMissing (opt : bytes)                        (* an option whose value is missing *)
| SNotText (name : bytes) (sp : spelling) (v : bytes)
| SNoEnvValue (v : bytes)                       (* [--no-env=v] *)
| SHelp (short : bool).

Definition valued_names : list bytes := [bs "config"; bs "listen"; bs "data-dir"].

Definition serve_stop_words (t : serve_stop) : list bytes :=
  match t with
  | SUnknown name None => [bs "--" ++ name]
  | SUnknown name (Some v) => [bs "--" ++ name ++ "="%byte :: v]
  | SShort c => ["-"%byte :: [c]]
  | SStray v => [v]
  | SMissing opt => [opt]
  | SNotText name sp v => valued_words name sp v
  | SNoEnvValue v => [bs "--" ++ bs "no-env" ++ "="%byte :: v]
  | SHelp short => [if short then bs "-h" else bs "--help"]
  end.

Definition serve_stop_ok (t : serve_stop) (rest : list bytes) : Prop :=
  match t with
  | SUnknown name _ => plain_name name ∧ name ∉ valued_names ++ [bs "no-env"; bs "help"]
  | SShort c => c ≠ "-"%byte ∧ Utf8.ascii [c] ∧ byte_Z c ≠ c_short ∧ byte_Z c ≠ h_short
  | SStray v => is_option v = false
  | SMissing opt => (opt = bs "-c" ∨ ∃ name, name ∈ valued_names ∧ opt = bs "--" ++ name) ∧ rest = []
  | SNotText name _ v => name ∈ valued_names ∧ Utf8.from_utf8 v = false
  | SNoEnvValue _ | SHelp _ => True
  end.

(** What may follow the items of [init]. *)
Inductive init_stop : Type :=
| IUnknown (name : bytes) (v : option bytes)
| IShort (c : byte)
| INotText (v : bytes)
| IForceValue (v : bytes)
| IHelp (short : bool).

Definition init_stop_words (t : init_stop) : list bytes :=
  match t with
  | IUnknown name None => [bs "--" ++ name]
  | IUnknown name (Some v) => [bs "--" ++ name ++ "="%byte :: v]
  | IShort c => ["-"%byte :: [c]]
  | INotText v => [v]
  | IForceValue v => [bs "--" ++ bs "force" ++ "="%byte :: v]
  | IHelp short => [if short then bs "-h" else bs "--help"]
  end.

Definition init_stop_ok (t : init_stop) : Prop :=
  match t with
  | IUnknown name _ => plain_name name ∧ name ∉ [bs "force"; bs "help"]
  | IShort c => c ≠ "-"%byte ∧ Utf8.ascii [c] ∧ byte_Z c ≠ h_short
  | INotText v => is_option v = false ∧ Utf8.from_utf8 v = false
  | IForceValue _ | IHelp _ => True
  end.

(** A line that breaks off: without a subcommand, at an option or another word in its place, or
    at something [serve] or [init] does not take. What follows, [rest], is not read. *)
Inductive broken_line : Type :=
| NoSubcommand
| RootOption (name : bytes) (rest : list bytes)
| RootHelpOption (short : bool) (rest : list bytes)
| OtherSubcommand (sub : bytes) (rest : list bytes)
| ServeStop (opts : list serve_opt) (t : serve_stop) (rest : list bytes)
| InitStop (items : list init_item) (t : init_stop) (rest : list bytes).

Definition broken_words (l : broken_line) : list bytes :=
  match l with
  | NoSubcommand => []
  | RootOption name rest => (bs "--" ++ name) :: rest
  | RootHelpOption short rest => (if short : bool then bs "-h" else bs "--help") :: rest
  | OtherSubcommand sub rest => sub :: rest
  | ServeStop opts t rest => bs "serve" :: (opts ≫= serve_words) ++ serve_stop_words t ++ rest
  | InitStop items t rest => bs "init" :: (init_word <$> items) ++ init_stop_words t ++ rest
  end.

Definition broken_ok (l : broken_line) : Prop :=
  match l with
  | NoSubcommand | RootHelpOption _ _ => True
  | RootOption name _ => plain_name name ∧ name ≠ bs "help"
  | OtherSubcommand sub _ => is_option sub = false ∧ sub ∉ [bs "serve"; bs "init"]
  | ServeStop opts t rest =>
    Forall (λ o, Utf8.from_utf8 (serve_text o) = true) opts ∧ serve_stop_ok t rest
  | InitStop items t _ => Forall init_item_ok items ∧ init_stop_ok t
  end.

(** The help text a line asks for, before anything is refused. *)
Definition asks_help (l : broken_line) : option Help :=
  match l with
  | RootHelpOption _ _ => Some RootHelp
  | ServeStop opts (SHelp _) _ => if is_ok (serve_meaning opts default_serve) then Some ServeHelp else None
  | InitStop items (IHelp _) _ => if bool_decide (length (dirs items) <= 1)%nat then Some InitHelp else None
  | _ => None
  end.

Definition stopped {A} (h : option Help) (r : option (outcome A)) : Prop :=
  match h with Some h => r = Some (Exit h) | None => ∃ e, r = Some (Failed e) end.

Lemma next_long_either p name (v : option bytes) l :
  at_args p (match v with
             | None => bs "--" ++ name
             | Some v => bs "--" ++ name ++ "="%byte :: v
             end :: l) → plain_name name → ∃ p', next p = (Ok (Some (Long name)), p').
Proof.
  intros Hp Hn. destruct v as [v|].
  - destruct (next_long_eq p name v l Hp Hn) as (p' & H' & _). by exists p'.
  - destruct (next_long p name l Hp Hn) as (p' & H' & _). by exists p'.
Qed.

Lemma next_help p (short : bool) l :
  at_args p ((if short then bs "-h" else bs "--help") :: l) →
  ∃ arg p', next p = (Ok (Some arg), p') ∧ (arg = Short h_short ∨ arg = Long (bs "help")).
Proof.
  intros Hp. destruct short.
  - destruct (next_short p "h"%byte l Hp) as (p' & H' & _); [done|by repeat constructor|]. eauto.
  - assert (plain_name (bs "help")) as Hn by by apply (bool_decide_unpack _).
    destruct (next_long p (bs "help") l Hp Hn) as (p' & H' & _). eauto.
Qed.

Lemma valued_plain name : name ∈ valued_names → plain_name name.
Proof.
  unfold valued_names. rewrite !elem_of_cons. intros [->|[->|[->|Hn]]];
    [by apply (bool_decide_unpack _)..|by apply not_elem_of_nil in Hn].
Qed.

(** Options outside the known ones are refused. *)
Lemma serve_arg_unknown arg args p :
  arg ∉ [Short c_short; Short h_short; Long (bs "config"); Long (bs "listen"); Long (bs "data-dir");
         Long (bs "no-env"); Long (bs "help")] →
  serve_arg arg args p = (Failed (Parse (unexpected arg)), p).
Proof. intros Ha. unfold serve_arg. by rewrite !bool_decide_eq_false_2 by set_solver. Qed.

(** A valued option whose value cannot be read. *)
Lemma serve_arg_no_value arg args p :
  arg = Short c_short ∨ (∃ name, name ∈ valued_names ∧ arg = Long name) →
  (∃ e p', text_value p = (Err e, p')) → ∃ e p', serve_arg arg args p = (Failed e, p').
Proof.
  intros Ha (e & p' & He). unfold valued_names in Ha.
  assert (arg = Short c_short ∨ arg = Long (bs "config") ∨ arg = Long (bs "listen") ∨ arg = Long (bs "data-dir"))
    as Hc by set_solver.
  exists e, p'. unfold serve_arg. rewrite He. by destruct Hc as [->|[->|[->| ->]]].
Qed.

Lemma serve_stop_parse fuel p t rest args :
  (args_left p < fuel)%nat → at_args p (serve_stop_words t ++ rest) → serve_stop_ok t rest →
  stopped (match t with SHelp _ => Some ServeHelp | _ => None end) (parse_serve fuel args p).
Proof.
  intros Hf Hp Hok. destruct fuel as [|fuel]; [lia|]. cbn [parse_serve].
  destruct t as [name v|c|v|opt|name sp v|v|short]; cbn [stopped].
  - destruct Hok as [Hn Hnot]. destruct (next_long_either p name v rest) as [p' ->]; [by destruct v|done|].
    rewrite serve_arg_unknown; [by eexists|]. unfold valued_names in Hnot. set_solver.
  - destruct Hok as (Hd & Ha & Hc & Hh). destruct (next_short p c rest Hp Hd Ha) as (p' & -> & _).
    rewrite serve_arg_unknown; [by eexists|]. set_solver.
  - destruct (next_value p v rest Hp Hok) as (p' & -> & _).
    rewrite serve_arg_unknown; [by eexists|]. set_solver.
  - destruct Hok as [Ho ->].
    assert (∃ arg p', next p = (Ok (Some arg), p') ∧ at_args p' []
      ∧ (arg = Short c_short ∨ ∃ name, name ∈ valued_names ∧ arg = Long name)) as (arg & p' & -> & Hp' & Ha).
    { destruct Ho as [->|(name & Hn & ->)].
      - destruct (next_short p "c"%byte [] Hp) as (p' & H' & Hp'); [done|by repeat constructor|]. eauto 6.
      - destruct (next_long p name [] Hp (valued_plain name Hn)) as (p' & H' & Hp'). eauto 8. }
    destruct (value_missing p' Hp') as (e & p2 & He).
    destruct (serve_arg_no_value arg args p' Ha) as (e' & p3 & ->); [|by eexists].
    unfold text_value. rewrite He. by eexists _, _.
  - destruct Hok as [Hn Hv]. pose proof (valued_plain name Hn) as Hpn.
    assert (∃ p1 p2, next p = (Ok (Some (Long name)), p1) ∧ opt_value p1 = (Ok v, p2)) as (p1 & p2 & -> & Ho).
    { destruct sp; simpl in Hp.
      - destruct (next_long p name _ Hp Hpn) as (p1 & H1 & Hp1).
        destruct (value_next p1 v rest Hp1) as (p2 & H2 & _). eauto.
      - destruct (next_long_eq p name v rest Hp Hpn) as (p1 & H1 & Hp1).
        destruct (value_pending p1 v rest Hp1) as (p2 & H2 & _). eauto. }
    destruct (serve_arg_no_value (Long name) args p1) as (e' & p3 & ->); [eauto| |by eexists].
    unfold text_value, string_of. rewrite Ho. simpl. rewrite Hv. by eexists _, _.
  - assert (plain_name (bs "no-env")) as Hn by by apply (bool_decide_unpack _).
    destruct (next_long_eq p (bs "no-env") v rest Hp Hn) as (p1 & H1 & Hp1). rewrite H1.
    destruct (next_pending p1 v rest Hp1) as (e & p2 & H2). apply next_decreases in H1.
    change (serve_arg (Long (bs "no-env")) args p1) with (@Parsed ServeArgs (with_no_env args), p1).
    destruct fuel as [|fuel]; [lia|]. cbn [parse_serve]. rewrite H2. by eexists.
  - destruct (next_help p short rest Hp) as (arg & p' & -> & [->| ->]); done.
Qed.

Lemma init_arg_unknown arg st :
  arg ∉ [Short h_short; Long (bs "force"); Long (bs "help")] → (∀ v, arg ≠ Value v) →
  init_arg arg st = Failed (Parse (unexpected arg)).
Proof.
  intros Ha Hv. unfold init_arg. rewrite !bool_decide_eq_false_2 by set_solver.
  destruct arg as [| |v]; [done..|]. by destruct (Hv v).
Qed.

Lemma init_stop_parse fuel p t rest st :
  (args_left p < fuel)%nat → at_args p (init_stop_words t ++ rest) → init_stop_ok t →
  stopped (match t with IHelp _ => Some InitHelp | _ => None end) (parse_init fuel st p).
Proof.
  intros Hf Hp Hok. destruct fuel as [|fuel]; [lia|]. cbn [parse_init].
  destruct t as [name v|c|v|v|short]; cbn [stopped].
  - destruct Hok as [Hn Hnot]. destruct (next_long_either p name v rest) as [p' ->]; [by destruct v|done|].
    rewrite init_arg_unknown; [by eexists|set_solver|done].
  - destruct Hok as (Hd & Ha & Hh). destruct (next_short p c rest Hp Hd Ha) as (p' & -> & _).
    rewrite init_arg_unknown; [by eexists|set_solver|done].
  - destruct Hok as [Ho Hv]. destruct (next_value p v rest Hp Ho) as (p' & -> & _).
    unfold init_arg, string_of. rewrite Hv. by eexists.
  - assert (plain_name (bs "force")) as Hn by by apply (bool_decide_unpack _).
    destruct (next_long_eq p (bs "force") v rest Hp Hn) as (p1 & H1 & Hp1). rewrite H1.
    destruct (next_pending p1 v rest Hp1) as (e & p2 & H2). apply next_decreases in H1.
    change (init_arg (Long (bs "force")) st) with (@Parsed (bool * option bytes) (true, st.2)).
    destruct fuel as [|fuel]; [lia|]. cbn [parse_init]. rewrite H2. by eexists.
  - destruct (next_help p short rest Hp) as (arg & p' & -> & [->| ->]); done.
Qed.

Lemma stopped_bind {A B} h (r : option (outcome A)) (f : A → outcome B) :
  stopped h r → stopped h ((λ x, obind x f) <$> r).
Proof. destruct h as [h|]; simpl; [by intros ->|]. intros [e ->]. by eexists. Qed.

(** A line that breaks off prints the help it asks for, or is refused. *)
Lemma parse_broken fuel l :
  (args_left (from_args (broken_words l)) < fuel)%nat → broken_ok l →
  stopped (asks_help l) (parse fuel (broken_words l)).
Proof.
  intros Hf Hok. unfold parse. pose proof (at_start (broken_words l)) as Hs.
  destruct l as [|name rest|short rest|sub rest|opts t rest|items t rest]; cbn [broken_words] in *.
  - destruct (next_end _ Hs) as [p ->]. by eexists.
  - destruct Hok as [Hn Hh]. destruct (next_long _ _ _ Hs Hn) as (p & -> & _). simpl.
    rewrite bool_decide_eq_false_2 by (intros [[= ?]|?]; done). by eexists.
  - destruct (next_help _ _ _ Hs) as (arg & p & -> & [->| ->]); done.
  - destruct Hok as [Ho Hsub]. destruct (next_value _ _ _ Hs Ho) as (p & -> & _). simpl.
    unfold string_of. destruct (Utf8.from_utf8 sub); [|by eexists].
    rewrite !decide_False by set_solver. by eexists.
  - destruct Hok as [Hopts Ht]. destruct (next_value _ _ _ Hs eq_refl) as (p & Hn & Hp). rewrite Hn.
    apply next_decreases in Hn. simpl. apply stopped_bind.
    pose proof (parse_serve_front fuel p opts _ default_serve ltac:(lia) Hp Hopts) as Hx.
    destruct (serve_meaning opts default_serve) as [args|e]; simpl.
    + destruct Hx as (fuel' & p' & Hf' & Hp' & ->).
      by pose proof (serve_stop_parse fuel' p' t rest args Hf' Hp' Ht); destruct t.
    + rewrite Hx. destruct t; by eexists.
  - destruct Hok as [Hit Ht]. destruct (next_value _ _ _ Hs eq_refl) as (p & Hn & Hp). rewrite Hn.
    apply next_decreases in Hn. simpl. apply stopped_bind.
    pose proof (parse_init_front fuel p items _ (false, None) ltac:(lia) Hp Hit) as Hx. simpl in Hx.
    cbn [asks_help].
    destruct (dirs items) as [|d [|d' ds]]; simpl.
    1,2: destruct Hx as (fuel' & p' & Hf' & Hp' & ->);
      pose proof (λ st, init_stop_parse fuel' p' t rest st Hf' Hp' Ht) as Hst; by destruct t; apply Hst.
    rewrite Hx. destruct t; simpl; by eexists.
Qed.

End Cli.

End Cli.

(** ** Properties *)

(** The command line means what its options say. Parsing returns for every argument vector
    (the loops stop within the arguments the lexer has), and on a well-formed line it yields
    exactly the meaning of the line: options take effect from left to right in either spelling
    ([--name value], [--name=value], [-c value]), a later occurrence replaces an earlier one, a
    [--listen] text that is no socket address fails with that text, and [init] needs exactly one
    directory. *)
Theorem command_line_exact {LX : LexoptOps} {LL : LexoptLaws LX} (fuel : nat) (argv : list bytes) :
  (args_left (from_args argv) < fuel)%nat →
  is_Some (Cli.parse fuel argv)
  ∧ ∀ c, argv = Cli.line_words c → Cli.line_ok c →
      Cli.parse fuel argv = Some (Cli.of_result (Cli.line_meaning c)).
Proof.
  intros Hf. split; [by apply Cli.parse_total|]. intros c -> Hok. by apply Cli.parse_line.
Qed.

(** ** A lexer that computes, for examples *)

Module ToyLexopt.
Import Lexopt.

Inductive error : Type := UnexpectedArg (a : Arg) | NonUnicode (v : bytes) | Missing | Unsupported.

Record parser : Type := mkParser { waiting : option bytes; left : list bytes }.

(** The text up to the first [=], and the text after it. *)
Fixpoint split_eq (l : bytes) : bytes * option bytes :=
  match l with
  | [] => ([], None)
  | b :: l' =>
    if decide (b = "="%byte) then ([], Some l')
    else let '(n, v) := split_eq l' in (b :: n, v)
  end.

Definition lex_word (a : bytes) (l : list bytes) : result (option Arg) error * parser :=
  match a with
  | "-"%byte :: "-"%byte :: name =>
    let '(n, v) := split_eq name in
    if bool_decide (n = []) then (Err Unsupported, mkParser None l)
    else (Ok (Some (Long n)), mkParser v l)
  | "-"%byte :: c :: [] => (Ok (Some (Short (byte_Z c))), mkParser None l)
  | "-"%byte :: _ :: _ => (Err Unsupported, mkParser None l)
  | _ => (Ok (Some (Value a)), mkParser None l)
  end.

Definition next (p : parser) : result (option Arg) error * parser :=
  match waiting p, left p with
  | Some v, l => (Err (UnexpectedArg (Value v)), mkParser None l)
  | None, [] => (Ok None, p)
  | None, a :: l => lex_word a l
  end.

Definition value (p : parser) : result bytes error * parser :=
  match waiting p, left p with
  | Some v, l => (Ok v, mkParser None l)
  | None, a :: l => (Ok a, mkParser None l)
  | None, [] => (Err Missing, p)
  end.

Lemma split_eq_plain n : "="%byte ∉ n → split_eq n = (n, None).
Proof.
  induction n as [|b n IH]; [done|]. intros [Hb Hn]%not_elem_of_cons. cbn [split_eq].
  rewrite decide_False by congruence. by rewrite IH.
Qed.

Lemma split_eq_value n v : "="%byte ∉ n → split_eq (n ++ "="%byte :: v) = (n, Some v).
Proof.
  induction n as [|b n IH]; [done|]. intros [Hb Hn]%not_elem_of_cons. simpl.
  rewrite decide_False by congruence. by rewrite IH.
Qed.

Lemma lex_word_left a l r p : lex_word a l = (r, p) → left p = l.
Proof.
  unfold lex_word. destruct a as [|b a]; [by intros [= <- <-]|].
  destruct b; try by intros [= <- <-].
  destruct a as [|c a]; [by intros [= <- <-]|].
  assert (match a with
          | [] => (Ok (Some (Short (byte_Z c))), mkParser None l)
          | _ => (Err Unsupported, mkParser None l)
          end = (r, p) → left p = l) as Hother by (destruct a; by intros [= <- <-]).
  destruct c; try exact Hother. destruct (split_eq a) as [n v].
  case_bool_decide; by intros [= <- <-].
Qed.

End ToyLexopt.

#[global] Instance toy_lexopt : LexoptOps := {
  lex_error := ToyLexopt.error;
  Parser := ToyLexopt.parser;
  from_args l := ToyLexopt.mkParser None l;
  next := ToyLexopt.next;
  opt_value := ToyLexopt.value;
  unexpected := ToyLexopt.UnexpectedArg;
  non_unicode := ToyLexopt.NonUnicode;
}.

#[global] Instance toy_lexopt_laws : LexoptLaws toy_lexopt.
Proof.
  refine (Build_LexoptLaws toy_lexopt (λ p l, p = ToyLexopt.mkParser None l)
    (λ p v l, p = ToyLexopt.mkParser (Some v) l) (λ p, length (ToyLexopt.left p)) _ _ _ _ _ _ _ _ _ _ _ _).
  - done.
  - intros p ->. by eexists.
  - intros p a l -> Ha. eexists. split; [|done]. destruct a as [|b a]; [done|].
    unfold Lexopt.is_option, starts_with in Ha. apply bool_decide_eq_false in Ha.
    simpl. unfold ToyLexopt.next. simpl. destruct b; try done. exfalso. apply Ha. by exists a.
  - intros p name l -> (Hne & Heq & _). eexists. split; [|done]. simpl. unfold ToyLexopt.next. simpl.
    rewrite ToyLexopt.split_eq_plain by done. by rewrite bool_decide_eq_false_2.
  - intros p name v l -> (Hne & Heq & _). eexists. split; [|done]. simpl. unfold ToyLexopt.next. simpl.
    rewrite ToyLexopt.split_eq_value by done. by rewrite bool_decide_eq_false_2.
  - intros p c l -> Hc _. eexists. split; [|done]. simpl. unfold ToyLexopt.next. simpl. by destruct c.
  - intros p a l ->. by eexists.
  - intros p v l ->. by eexists.
  - intros [[v|] [|a l]] arg p' Hn; try done. apply ToyLexopt.lex_word_left in Hn. rewrite Hn. simpl. lia.
  - intros [[v'|] [|a l]] v p' Hv; cbv [opt_value toy_lexopt ToyLexopt.value ToyLexopt.waiting ToyLexopt.left] in *; simplify_eq; simpl; lia.
  - intros p ->. by eexists _, _.
  - intros p v l ->. by eexists _, _.
Defined.

Lemma command_line_exact_witness :
  Cli.parse 9 (bs <$> ["serve"; "-c"; "a.toml"; "--listen=127.0.0.1:80"; "--config"; "b.toml"; "--no-env"]%string)
  = Some (Cli.Parsed (Cli.Serve (Cli.mkServe (Some (bs "b.toml")) (Some (Net.V4 [127; 0; 0; 1] 80)) None true))).
Proof.
  destruct (command_line_exact 9
    (bs <$> ["serve"; "-c"; "a.toml"; "--listen=127.0.0.1:80"; "--config"; "b.toml"; "--no-env"]%string))
    as [_ H].
  - simpl. lia.
  - apply (H (Cli.LineServe [Cli.OptConfigShort (bs "a.toml"); Cli.OptListen Cli.Joined (bs "127.0.0.1:80");
      Cli.OptConfig Cli.Spaced (bs "b.toml"); Cli.OptNoEnv])).
    + reflexivity.
    + repeat constructor.
Defined.
