(* ===== verification/Help.v ===== *)
(** * What the operator reads

    The help texts of [keydock-config/src/cli.rs] and the [Debug] output of the configuration
    ([config/mod.rs], [config/secret.rs]). The texts are read back as an operator reads them, and
    compared with what the parsers of [Cli] and the loader of [Config] really take. *)

From Stdlib Require Import Strings.Byte.
From S2P Require Import Prelude RustStd OsLib Config Cli Denials.

(** ** The texts *)

Module Help.

Definition root_help : bytes := bs "keydock — multi-tenant key-value HTTP service

Usage:
  keydock serve [options]
  keydock init [options] <DIR>

Run `keydock serve --help` or `keydock init --help` for details.

".

Definition serve_help : bytes := bs "keydock serve

Options:
  -c, --config <PATH>   Path to TOML config file
      --listen <ADDR>   Socket address to listen on (overrides config and env)
      --data-dir <PATH> Data directory (overrides config and env)
      --no-env          Skip KEYDOCK_* environment overrides.
                        TOML-declared indirection (root_key = { env/file }) is unaffected.
  -h, --help            Show this help

Environment (applied after config file, before CLI flags; skipped with --no-env):
  KEYDOCK_ROOT_KEY                      Root secret (required if not set in TOML)
  KEYDOCK_HTTP_LISTEN                   Bind address (e.g. 0.0.0.0:8080)
  KEYDOCK_HTTP_METRICS_LISTEN           Dedicated Prometheus scrape address
  KEYDOCK_PATHS_DATA_DIR                Data directory path
  KEYDOCK_LOG_JSON                      Emit JSON logs (true/false)
  KEYDOCK_GC_INTERVAL_SECS              GC sweep interval in seconds
  KEYDOCK_RATE_LIMIT_ENABLED            Enable rate limiting (true/false)
  KEYDOCK_RATE_LIMIT_REQUESTS_PER_HOUR  Requests per IP per hour

".

Definition init_help : bytes := bs "keydock init

Creates a new keydock.toml under <DIR> (and <DIR>/data) with default settings and a generated root_key.

Arguments:
  <DIR>                 Instance directory (created if missing)

Options:
      --force           Overwrite an existing keydock.toml
  -h, --help            Show this help

".

(** What an [Exit] of the parser has printed. *)
Definition print_help (h : Cli.Help) : bytes :=
  match h with
  | Cli.RootHelp => root_help
  | Cli.ServeHelp => serve_help
  | Cli.InitHelp => init_help
  end.

(** ** Reading a text *)

Definition lines (text : bytes) : list bytes := split "010"%byte text.
Definition words (line : bytes) : list bytes := filter (λ w, w ≠ []) (split " "%byte line).

(** The lines after the one that starts with [title], up to a blank line. *)
Fixpoint until_blank (l : list bytes) : list bytes :=
  match l with
  | x :: l' => if decide (x = []) then [] else x :: until_blank l'
  | [] => []
  end.

Fixpoint section (title : bytes) (l : list bytes) : list bytes :=
  match l with
  | x :: l' => if starts_with x title then until_blank l' else section title l'
  | [] => []
  end.

(** The option a word names: [--name], or [-c] before a comma. *)
Definition option_of (w : bytes) : option Lexopt.Arg :=
  match strip_prefix (bs "--") w with
  | Some name => Some (Lexopt.Long name)
  | None =>
    match w with
    | ["-"%byte; c; ","%byte] => Some (Lexopt.Short (byte_Z c))
    | _ => None
    end
  end.

(** The options at the head of a line, and whether a placeholder follows them. *)
Fixpoint head_options (ws : list bytes) : list Lexopt.Arg * bool :=
  match ws with
  | w :: ws' =>
    match option_of w with
    | Some a => let (l, v) := head_options ws' in (a :: l, v)
    | None => ([], starts_with w (bs "<"))
    end
  | [] => ([], false)
  end.

Definition offered (text : bytes) : list (Lexopt.Arg * bool) :=
  line ← section (bs "Options:") (lines text);
  let (l, v) := head_options (words line) in (λ a, (a, v)) <$> l.

(** The first word of every line of a section. *)
Definition entries (title text : bytes) : list bytes :=
  omap (λ line, head (words line)) (section title (lines text)).

(** The word after [keydock] in the usage lines. *)
Definition subcommands (text : bytes) : list bytes :=
  omap (λ line, words line !! 1%nat) (section (bs "Usage:") (lines text)).

Definition variables : list bytes := entries (bs "Environment") serve_help.

End Help.

Example serve_help_read :
  Help.offered Help.serve_help
  = [(Lexopt.Short 99, true); (Lexopt.Long (bs "config"), true); (Lexopt.Long (bs "listen"), true);
     (Lexopt.Long (bs "data-dir"), true); (Lexopt.Long (bs "no-env"), false);
     (Lexopt.Short 104, false); (Lexopt.Long (bs "help"), false)].
Proof. vm_refl. Qed.

Example init_help_read :
  Help.offered Help.init_help
  = [(Lexopt.Long (bs "force"), false); (Lexopt.Short 104, false); (Lexopt.Long (bs "help"), false)]
  ∧ Help.entries (bs "Arguments:") Help.init_help = [bs "<DIR>"].
Proof. split; vm_refl. Qed.

Example variables_read :
  Help.variables
  = [Loader.ENV_ROOT_KEY; Loader.ENV_HTTP_LISTEN; Loader.ENV_HTTP_METRICS_LISTEN;
     Loader.ENV_PATHS_DATA_DIR; Loader.ENV_LOG_JSON; Loader.ENV_GC_INTERVAL_SECS;
     Loader.ENV_RATE_LIMIT_ENABLED; Loader.ENV_RATE_LIMIT_REQUESTS_PER_HOUR]
  ∧ Help.subcommands Help.root_help = [bs "serve"; bs "init"].
Proof. split; vm_refl. Qed.

(** ** The texts and the code agree *)

Section Accurate.
Context {LX : LexoptOps} {O : ConfigOps}.
Import Cli.

(** An option is refused: the loop ends with the lexer's error, nothing consumed. *)
Definition refused_serve (arg : Lexopt.Arg) (args : ServeArgs) (p : Parser) : Prop :=
  serve_arg arg args p = (Failed (Parse (unexpected arg)), p).

(** It is taken, with a value exactly when the text has a placeholder. *)
Definition taken_serve (arg : Lexopt.Arg) (valued : bool) (args : ServeArgs) (p : Parser) : Prop :=
  (serve_arg arg args p).2 = (if valued then (opt_value p).2 else p)
  ∧ (valued = false → ∀ e, (serve_arg arg args p).1 ≠ Failed e).

(** An option the code knows is in the list the text gives. *)
Ltac not_offered H :=
  destruct_or?; subst; exfalso;
  match type of H with
  | ∀ v, (?a, v) ∉ _ => first [apply (H true); set_solver|apply (H false); set_solver]
  end.

Lemma serve_options arg args p :
  (∀ v, (arg, v) ∈ Help.offered Help.serve_help → taken_serve arg v args p)
  ∧ ((∀ v, (arg, v) ∉ Help.offered Help.serve_help) → refused_serve arg args p).
Proof.
  rewrite serve_help_read. split.
  - intros v H. unfold taken_serve.
    repeat (apply elem_of_cons in H as [H|H]; [injection H as -> ->|]); [..|by apply not_elem_of_nil in H];
      unfold serve_arg, text_value; simpl; destruct (opt_value p) as [[x|e] p'];
      (split; [simpl; repeat case_match; naive_solver|naive_solver]).
  - intros H. unfold refused_serve, serve_arg.
    repeat case_bool_decide; [not_offered H..|done].
Qed.

Lemma init_options arg st :
  (∀ v, (arg, v) ∈ Help.offered Help.init_help → v = false ∧ ∀ e, init_arg arg st ≠ Failed e)
  ∧ ((∀ v, (arg, v) ∉ Help.offered Help.init_help) → (∀ x, arg ≠ Lexopt.Value x) →
     init_arg arg st = Failed (Parse (unexpected arg))).
Proof.
  destruct init_help_read as [-> _]. split.
  - intros v H.
    repeat (apply elem_of_cons in H as [H|H]; [injection H as -> ->|]); [..|by apply not_elem_of_nil in H];
      by split.
  - intros H Hv. unfold init_arg.
    repeat case_bool_decide; [not_offered H..|by destruct arg; [..|destruct (Hv v)]].
Qed.

Lemma subcommands_listed fuel argv first p sub :
  next (from_args argv) = (Ok first, p) → subcommand first = Parsed sub →
  sub ∉ Help.subcommands Help.root_help →
  parse fuel argv = Some (Failed (InvalidValue (bs "subcommand") sub)).
Proof.
  destruct variables_read as [_ ->]. intros Hn Hs Hl. unfold parse. rewrite Hn, Hs.
  rewrite !not_elem_of_cons in Hl. destruct Hl as (H1 & H2 & _).
  by rewrite !decide_False.
Qed.

(** The loader's view of the environment: the listed variables. *)
Lemma merge_env_listed (env env' : Loader.EnvSource) c :
  (∀ v, v ∈ Help.variables → env v = env' v) → Loader.merge_env env c = Loader.merge_env env' c.
Proof.
  destruct variables_read as [-> _]. rewrite <- list.Forall_forall.
  rewrite !list.Forall_cons. intros H. destruct_and! H.
  unfold Loader.merge_env, Loader.merge_field.
  repeat match goal with H : env _ = env' _ |- _ => rewrite H; clear H end. done.
Qed.

(** Each of them is read: an unreadable value of it alone fails the load. *)
Lemma merge_env_reads (env : Loader.EnvSource) c v e :
  v ∈ Help.variables → env v = Err e → (∀ w, w ≠ v → env w = Ok None) →
  Loader.merge_env env c = Err e.
Proof.
  destruct variables_read as [-> _]. intros Hv He Hw.
  unfold Loader.merge_env, Loader.merge_field.
  repeat (apply elem_of_cons in Hv as [->|Hv];
    [repeat first [rewrite He|rewrite Hw by (by vm_compute)]; reflexivity|]).
  by apply not_elem_of_nil in Hv.
Qed.

(** The help texts are accurate. Read back from the printed texts: [serve] takes exactly the
    options its text lists, with a value exactly where the text shows a placeholder; [init] takes
    exactly its listed options, and otherwise positional arguments; a subcommand the root text
    does not list is refused by name; and the environment overrides the configuration through
    exactly the listed variables: two environments that agree on them load alike, and each of
    them is read. *)
Theorem help_accurate (arg : Lexopt.Arg) (args : ServeArgs) (p : Parser) (st : bool * option bytes)
    (fuel : nat) (argv : list bytes) (c : Config.RawConfig) (env env' : Loader.EnvSource) :
  ((∀ v, (arg, v) ∈ Help.offered Help.serve_help → taken_serve arg v args p)
   ∧ ((∀ v, (arg, v) ∉ Help.offered Help.serve_help) → refused_serve arg args p))
  ∧ ((∀ v, (arg, v) ∈ Help.offered Help.init_help → v = false ∧ ∀ e, init_arg arg st ≠ Failed e)
     ∧ ((∀ v, (arg, v) ∉ Help.offered Help.init_help) → (∀ x, arg ≠ Lexopt.Value x) →
        init_arg arg st = Failed (Parse (unexpected arg))))
  ∧ (∀ first p' sub,
       next (from_args argv) = (Ok first, p') → subcommand first = Parsed sub →
       sub ∉ Help.subcommands Help.root_help →
       parse fuel argv = Some (Failed (InvalidValue (bs "subcommand") sub)))
  ∧ ((∀ v, v ∈ Help.variables → env v = env' v) → Loader.merge_env env c = Loader.merge_env env' c)
  ∧ (∀ v e, v ∈ Help.variables → env v = Err e → (∀ w, w ≠ v → env w = Ok None) →
       Loader.merge_env env c = Err e).
Proof.
  split; [apply serve_options|]. split; [apply init_options|]. split; [intros; by eapply subcommands_listed|].
  split; [apply merge_env_listed|intros; by eapply merge_env_reads].
Qed.

End Accurate.

(** ** [Debug] of the configuration *)

Module Redact.
Import Config Audit.

(** The standard library's [Debug] of names, paths and socket addresses. *)
Class StdDebug : Type := {
  debug_str : bytes → bytes;
  debug_path : bytes → bytes;
  debug_addr : Net.SocketAddr → bytes;
}.

Section Debug.
Context {SD : StdDebug}.

Definition debug_u64 (n : Z) : bytes := Dec.show n.

Definition debug_http (h : HttpConfig) : bytes :=
  debug_struct (bs "HttpConfig")
    [(bs "listen", debug_addr (listen h));
     (bs "metrics_listen",
      match metrics_listen h with Some a => bs "Some(" ++ debug_addr a ++ bs ")" | None => bs "None" end)].

Definition debug_paths (p : PathsConfig) : bytes :=
  debug_struct (bs "PathsConfig") [(bs "data_dir", debug_path (data_dir p))].

Definition debug_gc (g : GcConfig) : bytes :=
  debug_struct (bs "GcConfig") [(bs "interval_secs", debug_u64 (interval_secs g))].

Definition debug_rate_limit (r : RateLimitConfig) : bytes :=
  debug_struct (bs "RateLimitConfig")
    [(bs "enabled", debug_bool (enabled r)); (bs "requests_per_hour", debug_u64 (requests_per_hour r))].

(** [impl Debug for Config]. *)
Definition debug_config (c : Config) : bytes :=
  debug_struct (bs "Config")
    [(bs "http", debug_http (http c)); (bs "paths", debug_paths (paths c));
     (bs "log_json", debug_bool (log_json c)); (bs "root_key", debug_str (bs "[REDACTED]"));
     (bs "gc", debug_gc (gc c)); (bs "rate_limit", debug_rate_limit (rate_limit c))].

(** [impl Debug for LoadedSecret]. *)
Definition debug_secret (s : LoadedSecret) : bytes := bs "[REDACTED]".

(** [impl Debug for RawRootKey]: the name of an indirection is shown, a value is not. *)
Definition debug_raw_root_key (k : RawRootKey) : bytes :=
  match k with
  | Inline _ => bs "Inline([REDACTED])"
  | Env name => bs "Env(" ++ debug_str name ++ bs ")"
  | File path => bs "File(" ++ debug_path path ++ bs ")"
  end.

(** Two loads that differ in the secret only are printed alike. *)
Lemma debug_config_redacted (c : Config) (k : LoadedSecret) :
  debug_config (mkConfig (http c) (paths c) (log_json c) k (gc c) (rate_limit c)) = debug_config c.
Proof. reflexivity. Qed.

End Debug.
End Redact.
