(* ===== verification/InstanceInit.v ===== *)
(** * Creating an instance

    [keydock-config/src/config/init.rs]: [keydock init] creates the instance directory, its data
    directory and a [keydock.toml] with default settings and a generated root key. The file is
    written to a temporary file next to its target and renamed over it.

    The file system ([std::fs], [tempfile]) is the class [FsOps] over a state; every operation
    may fail, and [FsLaws] says what an operation leaves of the regular files and their modes.
    The TOML crate is [TomlOps]. The two fresh UUIDs are arguments. *)

From Stdlib Require Import Strings.Byte.
From S2P Require Import Prelude RustStd OsLib Config.

(** ** The file system *)

Class FsOps : Type := {
  fs : Type;
  fs_error : Type;
  path_exists : bytes → fs → bool;
  path_is_dir : bytes → fs → bool;
  create_dir_all : bytes → fs → result unit fs_error * fs;
  canonicalize : bytes → fs → result bytes fs_error;
  read_to_string : bytes → fs → result bytes fs_error;
  (** [tempfile::NamedTempFile], named by its path *)
  temp_new_in : bytes → fs → result bytes fs_error * fs;
  temp_write_all : bytes → bytes → fs → result unit fs_error * fs;
  temp_flush : bytes → fs → result unit fs_error * fs;
  temp_sync_all : bytes → fs → result unit fs_error * fs;
  temp_persist : bytes → bytes → fs → result unit fs_error * fs;
  temp_drop : bytes → fs → fs;
  set_mode : bytes → N → fs → result unit fs_error * fs;
}.

(** Names of temporary files start with [.tmp]. *)
Definition ordinary_name (name : bytes) : Prop :=
  (Path.SEP ∉ name) ∧ starts_with name (bs ".tmp") = false.

#[global] Instance ordinary_name_dec name : Decision (ordinary_name name).
Proof. unfold ordinary_name. apply _. Defined.

Class FsLaws (FS : FsOps) : Type := {
  (** The text and the permission bits of the regular file a path names *)
  file_text : fs → bytes → option bytes;
  file_mode : fs → bytes → option N;
  (** Two paths name the same directory entry. *)
  alias : bytes → bytes → Prop;
  alias_refl p : alias p p;
  read_text s p t : read_to_string p s = Ok t → file_text s p = Some t;
  text_exists s p : is_Some (file_text s p) → path_exists p s = true;
  create_dir_law d s r s' :
    create_dir_all d s = (r, s') →
    ∀ p, file_text s' p = file_text s p ∧ file_mode s' p = file_mode s p;
  (** A temporary file is new, private and next to the ordinary files of its directory. *)
  temp_new_law d s r s' :
    temp_new_in d s = (r, s') →
    match r with
    | Ok t =>
      file_text s' t = Some [] ∧ file_mode s' t = Some 0x180%N
      ∧ (∀ p, ¬ alias p t → file_text s' p = file_text s p ∧ file_mode s' p = file_mode s p)
      ∧ ∀ name, ordinary_name name → ¬ alias (Path.join d name) t
    | Err _ => ∀ p, file_text s' p = file_text s p ∧ file_mode s' p = file_mode s p
    end;
  temp_write_law t data s r s' :
    temp_write_all t data s = (r, s') →
    (∀ p, ¬ alias p t → file_text s' p = file_text s p)
    ∧ (∀ p, file_mode s' p = file_mode s p)
    ∧ (is_ok r = true → ∀ old, file_text s t = Some old → file_text s' t = Some (old ++ data));
  temp_flush_law t s r s' :
    temp_flush t s = (r, s') →
    ∀ p, file_text s' p = file_text s p ∧ file_mode s' p = file_mode s p;
  temp_sync_law t s r s' :
    temp_sync_all t s = (r, s') →
    ∀ p, file_text s' p = file_text s p ∧ file_mode s' p = file_mode s p;
  (** A rename replaces its target in one step, or does nothing. *)
  temp_persist_law t target s r s' :
    temp_persist t target s = (r, s') →
    match r with
    | Ok _ =>
      file_text s' target = file_text s t ∧ file_mode s' target = file_mode s t
      ∧ ∀ p, ¬ alias p t → ¬ alias p target →
          file_text s' p = file_text s p ∧ file_mode s' p = file_mode s p
    | Err _ => ∀ p, file_text s' p = file_text s p ∧ file_mode s' p = file_mode s p
    end;
  temp_drop_law t s p :
    ¬ alias p t →
    file_text (temp_drop t s) p = file_text s p ∧ file_mode (temp_drop t s) p = file_mode s p;
  set_mode_law p m s r s' :
    set_mode p m s = (r, s') →
    (∀ q, file_text s' q = file_text s q) ∧ (∀ q, ¬ alias q p → file_mode s' q = file_mode s q)
    ∧ file_mode s' p = if is_ok r then Some m else file_mode s p;
}.

(** ** The TOML crate *)

Class TomlOps : Type := {
  toml_de_error : Type;
  toml_de_custom : bytes → toml_de_error;
  toml_parse : bytes → result Config.TomlDoc toml_de_error;
  toml_ser_error : Type;
  (** [toml::to_string_pretty] with the derived serializer of [Config] *)
  toml_to_string_pretty : Config.Config → result bytes toml_ser_error;
}.

(** What was printed reads back field by field, the root key as a string. *)
Class TomlLaws (TO : TomlOps) : Prop := {
  toml_roundtrip c text :
    toml_to_string_pretty c = Ok text →
    toml_parse text
    = Ok (Config.mkDoc (Config.http c) (Config.paths c) (Config.log_json c)
            (Some (Config.String (Config.expose_bytes (Config.root_key c)))) (Config.gc c)
            (Config.rate_limit c));
}.

Module Init.
Import Config.

Section Init.
Context {FS : FsOps} {TO : TomlOps}.

(** The loader over the file system as it is in [s]. *)
Definition ops_at (s : fs) : ConfigOps := {|
  toml_error := toml_de_error;
  toml_custom := toml_de_custom;
  toml_from_str := toml_parse;
  io_error := fs_error;
  fs_read_to_string p := read_to_string p s;
|}.

Inductive InitError : Type :=
| NotADirectory (path : bytes)
| AlreadyExists (path : bytes)
| Serialize (e : toml_ser_error)
| Io (path : bytes) (source : fs_error)
| Canonicalize (path : bytes) (source : fs_error).

Definition CONFIG_FILENAME : bytes := bs "keydock.toml".

(** [u1] and [u2] are the texts of two fresh UUIDs. *)
Definition build_init_config (u1 u2 data_dir : bytes) : Config :=
  mkConfig default_http (mkPaths data_dir) false (mkSecret (u1 ++ bs "-" ++ u2)) default_gc
    default_rate_limit.

Abbreviation op A := (comp fs A InitError).

(** A call whose error is wrapped with the path. *)
Definition io {A} (path : bytes) (f : fs → result A fs_error * fs) : op A :=
  λ s, let '(r, s') := f s in (Ret (map_err (Io path) r), s').

(** An early return drops the temporary file, which removes it. *)
Definition or_drop {A} (tmp : bytes) (m : op A) : op A :=
  λ s, match m s with
       | (Ret (Err e), s') => (Ret (Err e), temp_drop tmp s')
       | r => r
       end.

(** From the creation of the temporary file to the rename. *)
Definition write_atomically (instance_dir config_path toml_str : bytes) : op unit :=
  let! tmp := io instance_dir (temp_new_in instance_dir) in
  let! _ := or_drop tmp (io tmp (temp_write_all tmp toml_str)) in
  let! _ := or_drop tmp (io tmp (temp_flush tmp)) in
  let! _ := or_drop tmp (io tmp (temp_sync_all tmp)) in
  or_drop tmp (io config_path (temp_persist tmp config_path)).

(** [0o600]. *)
Definition PRIVATE : N := 0x180.

Definition write_init_config (u1 u2 instance_dir : bytes) (force : bool) : op bytes := λ s,
  if path_exists instance_dir s && negb (path_is_dir instance_dir s)
  then (Ret (Err (NotADirectory instance_dir)), s)
  else
    (let! _ := io instance_dir (create_dir_all instance_dir) in
     let config_path := Path.join instance_dir CONFIG_FILENAME in
     λ s,
     if path_exists config_path s && negb force
     then (Ret (Err (AlreadyExists config_path)), s)
     else
       (let data_dir_path := Path.join instance_dir (bs "data") in
        let! _ := io data_dir_path (create_dir_all data_dir_path) in
        let! data_dir_canonical :=
          (λ s, (Ret (map_err (Canonicalize data_dir_path) (canonicalize data_dir_path s)), s)) in
        let config := build_init_config u1 u2 data_dir_canonical in
        let! toml_str := comp_lift (map_err Serialize (toml_to_string_pretty config)) in
        let! _ := write_atomically instance_dir config_path toml_str in
        let! _ := io config_path (set_mode config_path PRIVATE) in
        comp_ret config_path) s) s.

(** ** Lemmas *)

Context {FL : FsLaws FS}.

(** The file at [p] is as it was. *)
Definition kept (p : bytes) (s s' : fs) : Prop :=
  file_text s' p = file_text s p ∧ file_mode s' p = file_mode s p.

Lemma kept_refl p s : kept p s s.
Proof. done. Qed.

Lemma kept_trans p s1 s2 s3 : kept p s1 s2 → kept p s2 s3 → kept p s1 s3.
Proof. intros [H1 H2] [H3 H4]. split; congruence. Qed.

Lemma wp_io {A} path (f : fs → result A fs_error * fs) s (Q : exec (result A InitError) → fs → Prop) :
  (∀ x s1, f s = (x, s1) → Q (Ret (map_err (Io path) x)) s1) → wp (io path f) s Q.
Proof. intros HQ. unfold wp, io. destruct (f s) as [x s1]. by apply HQ. Qed.

(** The temporary file [t] holds [content], and nothing else has changed since [s0]. *)
Definition writing (t content : bytes) (s0 s : fs) : Prop :=
  (∀ p, ¬ alias p t → kept p s0 s) ∧ file_text s t = Some content ∧ file_mode s t = Some PRIVATE.

(** The outcome of a step on the temporary file. *)
Definition temp_post {A} (t : bytes) (s0 : fs) (Q : fs → Prop)
    (r : exec (result A InitError)) (s' : fs) : Prop :=
  match r with
  | Ret (Ok _) => Q s'
  | Ret (Err _) => ∀ p, ¬ alias p t → kept p s0 s'
  | Panic => False
  end.

Lemma wp_temp {A} t path (f : fs → result A fs_error * fs) content s0 s Q :
  writing t content s0 s →
  (∀ x s1, f s = (x, s1) → if is_ok x then Q s1 else ∀ p, ¬ alias p t → kept p s s1) →
  wp (or_drop t (io path f)) s (temp_post t s0 Q).
Proof.
  intros (Hk & _) Hf. unfold wp, or_drop, io. destruct (f s) as [x s1].
  specialize (Hf x s1 eq_refl). destruct x as [a|e]; simpl in *; [done|]. intros p Hp.
  apply (kept_trans p s0 s); [auto|]. eapply kept_trans; [by apply Hf|]. by apply temp_drop_law.
Qed.

Lemma wp_temp_bind {A B} t (m : op A) (k : op B) s0 s (Q R : fs → Prop) :
  wp m s (temp_post t s0 Q) → (∀ s', Q s' → wp k s' (temp_post t s0 R)) →
  wp (let! _ := m in k) s (temp_post t s0 R).
Proof.
  intros Hm Hk. apply wp_bind. eapply wp_mono; [exact Hm|]. intros [[a|e]|] s'; simpl; auto.
Qed.

(** A step that leaves every file as it is. *)
Lemma wp_temp_idle t path f content s0 s :
  writing t content s0 s →
  (∀ x s1, f s = (x, s1) → ∀ p, file_text s1 p = file_text s p ∧ file_mode s1 p = file_mode s p) →
  wp (or_drop t (io path f)) s (temp_post (A := unit) t s0 (writing t content s0)).
Proof.
  intros Hw Hf. eapply wp_temp; [exact Hw|]. intros x s1 Hx. specialize (Hf x s1 Hx).
  destruct Hw as (Hk & Ht & Hm). destruct x as [a|e]; simpl; [|intros p _; exact (Hf p)].
  split; [|by destruct (Hf t) as [-> ->]]. intros p Hp. eapply kept_trans; [by apply Hk|exact (Hf p)].
Qed.

Lemma write_atomically_spec dir name text s :
  ordinary_name name →
  let cp := Path.join dir name in
  wp (write_atomically dir cp text) s (λ r s',
    (∀ n, ordinary_name n → ¬ alias (Path.join dir n) cp → kept (Path.join dir n) s s')
    ∧ match r with
      | Ret (Ok _) => file_text s' cp = Some text ∧ file_mode s' cp = Some PRIVATE
      | Ret (Err _) => kept cp s s'
      | Panic => False
      end).
Proof.
  intros Hname cp. apply wp_bind, wp_io. intros x s1 En. apply temp_new_law in En.
  destruct x as [t|e]; simpl.
  2: { split; [intros n _ _|]; exact (En _). }
  destruct En as (Ht & Hm & Hk & Hn).
  assert (writing t [] s s1) as Hw by (split; [exact Hk|done]).
  eapply (wp_mono _ _ (temp_post t s (λ s', (∀ p, ¬ alias p t → ¬ alias p cp → kept p s s')
            ∧ file_text s' cp = Some text ∧ file_mode s' cp = Some PRIVATE))).
  2: { intros [[u|e]|] s'; simpl; [| |done].
       - intros (Hp & Hc). split; [|done]. intros n Hord Ha. apply Hp; [by apply Hn|done].
       - intros Hp. split; [intros n Hord _; by apply Hp, Hn|]. by apply Hp, Hn. }
  eapply wp_temp_bind with (Q := writing t text s).
  { eapply wp_temp; [exact Hw|]. intros x s2 Hx. apply temp_write_law in Hx as (H1 & H2 & H3).
    destruct x as [a|e]; simpl; [|intros p Hp; split; [auto|apply H2]].
    destruct Hw as (Hk1 & Ht1 & Hm1). split; [|split; [by apply (H3 eq_refl [])|by rewrite H2]].
    intros p Hp. eapply kept_trans; [by apply Hk1|]. split; [auto|apply H2]. }
  intros s2 Hw2. eapply wp_temp_bind; [eapply wp_temp_idle; [exact Hw2|intros x s3; apply temp_flush_law]|].
  intros s3 Hw3. eapply wp_temp_bind; [eapply wp_temp_idle; [exact Hw3|intros x s4; apply temp_sync_law]|].
  intros s4 Hw4. eapply wp_temp; [exact Hw4|]. intros x s5 Hx. apply temp_persist_law in Hx.
  destruct x as [a|e]; simpl; [|intros p _; exact (Hx p)].
  destruct Hw4 as (Hk4 & Ht4 & Hm4). destruct Hx as (Hx1 & Hx2 & Hx3). split; [|by rewrite Hx1, Hx2].
  intros p Hp Hc. eapply kept_trans; [by apply Hk4|]. by apply Hx3.
Qed.

(** The written file, and how it came about. *)
Definition installed (u1 u2 : bytes) (cp : bytes) (s' : fs) : Prop :=
  ∃ data_dir text, toml_to_string_pretty (build_init_config u1 u2 data_dir) = Ok text
    ∧ file_text s' cp = Some text ∧ file_mode s' cp = Some PRIVATE.

Lemma write_init_config_spec u1 u2 dir force s :
  let cp := Path.join dir CONFIG_FILENAME in
  wp (write_init_config u1 u2 dir force) s (λ r s',
    (∀ n, ordinary_name n → ¬ alias (Path.join dir n) cp → kept (Path.join dir n) s s')
    ∧ match r with
      | Ret (Ok p) => p = cp ∧ installed u1 u2 cp s'
      | Ret (Err e) => kept cp s s' ∨ (∃ x, e = Io cp x) ∧ installed u1 u2 cp s'
      | Panic => False
      end
    ∧ (force = false → is_Some (file_text s cp) → r ≠ Ret (Ok cp) ∧ ∀ p, kept p s s')).
Proof.
  intros cp. assert (ordinary_name CONFIG_FILENAME) as Hname by by apply (bool_decide_unpack _).
  unfold write_init_config. unfold wp at 1. case_match.
  { split; [done|]. split; [by left|]. done. }
  apply wp_bind, wp_io. intros x s1 Hx. pose proof (λ p, create_dir_law dir s x s1 Hx p : kept p s s1) as Hk1.
  destruct x as [u|e]; simpl. 2: { split; [auto|]. split; [by left|]. done. }
  unfold wp at 1. fold cp. destruct (path_exists cp s1 && negb force) eqn:Hex.
  { split; [auto|]. split; [by left|]. done. }
  assert (force = false → is_Some (file_text s cp) → False) as Hnew.
  { intros -> Hsome. destruct (Hk1 cp) as [Ht _]. rewrite <- Ht in Hsome. apply text_exists in Hsome.
    by rewrite Hsome in Hex. }
  apply wp_bind, wp_io. intros x s2 Hx2. pose proof (λ p, create_dir_law _ s1 x s2 Hx2 p : kept p s1 s2) as Hk2.
  assert (∀ p, kept p s s2) as Hk by (intros p; by eapply kept_trans).
  destruct x as [u'|e]; simpl. 2: { split; [auto|]. split; [by left|]. naive_solver. }
  apply wp_bind. unfold wp at 1. simpl. destruct (canonicalize _ s2) as [d|e]; simpl.
  2: { split; [auto|]. split; [by left|]. naive_solver. }
  apply wp_bind, wp_lift. destruct (toml_to_string_pretty _) as [text|e] eqn:Et; simpl.
  2: { split; [auto|]. split; [by left|]. naive_solver. }
  apply wp_bind. eapply wp_mono; [by apply write_atomically_spec|].
  intros [[u2'|e]|] s3; simpl; [|intros [Hoth Hc]|by intros [_ ?]].
  2: { split; [intros n Hn Ha; eapply kept_trans; [apply Hk|by apply Hoth]|]. split; [left|naive_solver].
       eapply kept_trans; [apply Hk|exact Hc]. }
  intros (Hoth & Ht & Hm). apply wp_bind, wp_io. intros x s4 Hx4.
  apply set_mode_law in Hx4 as (H1 & H2 & H3).
  assert (installed u1 u2 cp s4) as Hin.
  { exists d, text. split; [done|]. split; [by rewrite H1|]. rewrite H3. by destruct x. }
  assert (∀ n, ordinary_name n → ¬ alias (Path.join dir n) cp → kept (Path.join dir n) s s4) as Hall.
  { intros n Hn Ha. eapply kept_trans; [apply Hk|]. eapply kept_trans; [by apply Hoth|]. split; auto. }
  destruct x as [u3|e]; simpl; (split; [exact Hall|]); (split; [|naive_solver]).
  - done.
  - right. split; [by eexists|done].
Qed.

(** A UUID in its usual spelling. *)
Definition uuid_text (u : bytes) : Prop :=
  length u = 36%nat ∧ Forall (λ b, Dec.is_digit b = true ∨ 97 <= byte_Z b <= 102 ∨ b = "-"%byte) u.

(** A generated key passes the checks of the loader. *)
Lemma generated_key_valid {O : ConfigOps} u1 u2 :
  uuid_text u1 → uuid_text u2 → Loader.validate_root_key (u1 ++ bs "-" ++ u2) = Ok tt.
Proof.
  intros [Hl1 H1] [Hl2 H2].
  assert (∀ u, Forall (λ b, Dec.is_digit b = true ∨ 97 <= byte_Z b <= 102 ∨ b = "-"%byte) u →
    Utf8.graphic u) as Hg.
  { intros u Hu. eapply list.Forall_impl; [exact Hu|]. intros b Hb. unfold Utf8.is_whitespace.
    unfold Dec.is_digit in Hb. rewrite andb_true_iff, !Z.leb_le in Hb.
    assert (45 <= byte_Z b <= 102) as Hr by (destruct Hb as [?|[?| ->]]; [lia|lia|by split]).
    split; [lia|]. repeat (apply orb_false_iff; split); try lia. }
  assert (Utf8.graphic (u1 ++ bs "-" ++ u2)) as Hgr.
  { apply list.Forall_app. split; [by apply Hg|]. apply list.Forall_app. split; [|by apply Hg].
    by repeat constructor. }
  unfold Loader.validate_root_key. rewrite Utf8.trim_graphic by done.
  rewrite bool_decide_eq_false_2. 2: { intros Hn. apply (f_equal length) in Hn. rewrite length_app, Hl1 in Hn. done. }
  rewrite bool_decide_eq_false_2; [done|]. intros Hp.
  apply (f_equal length) in Hp. rewrite !length_app, Hl1, Hl2 in Hp. done.
Qed.

End Init.

End Init.

(** ** Properties *)

Section Properties.
Context {FS : FsOps} {FL : FsLaws FS} {TO : TomlOps}.

(** C27: [keydock init] replaces the configuration atomically. Whatever file-system call fails,
    the configuration file afterwards is what it was or the complete new text, readable by its
    owner only; on success it is the new one. Without [--force] an existing configuration (the
    root key in it) is never touched and the command does not report success. Other files of
    the instance directory, temporary ones apart, stay as they are. *)
Theorem init_config_atomic (u1 u2 dir : bytes) (force : bool) (s s' : fs)
    (r : exec (result bytes Init.InitError)) :
  Init.write_init_config u1 u2 dir force s = (r, s') →
  let cp := Path.join dir Init.CONFIG_FILENAME in
  (∀ n, ordinary_name n → ¬ alias (Path.join dir n) cp → Init.kept (Path.join dir n) s s')
  ∧ match r with
    | Ret (Ok p) => p = cp ∧ Init.installed u1 u2 cp s'
    | Ret (Err e) => Init.kept cp s s' ∨ (∃ x, e = Init.Io cp x) ∧ Init.installed u1 u2 cp s'
    | Panic => False
    end
  ∧ (force = false → is_Some (file_text s cp) → r ≠ Ret (Ok cp) ∧ ∀ p, Init.kept p s s').
Proof.
  intros Hr cp. pose proof (Init.write_init_config_spec u1 u2 dir force s) as Hs. simpl in Hs.
  by apply (wp_elim _ _ _ _ _ Hs) in Hr.
Qed.

Context {TL : TomlLaws TO}.

(** What [init] writes, [serve] loads. After a successful [keydock init], loading the written
    file (when it can be read) succeeds whatever the environment is if overrides are disabled,
    and yields the built-in defaults, the canonical data directory of the instance and the
    generated root key, which passes the strength checks; command-line values still win. *)
Theorem init_then_load (u1 u2 dir : bytes) (force : bool) (s s' : fs) (path text : bytes)
    (l : option Net.SocketAddr) (d : option bytes) (env : Loader.EnvSource (O := Init.ops_at s')) :
  Init.uuid_text u1 → Init.uuid_text u2 →
  Init.write_init_config u1 u2 dir force s = (Ret (Ok path), s') →
  read_to_string path s' = Ok text →
  ∃ data_dir,
    Loader.load_from_sources_with_env (O := Init.ops_at s')
      (Loader.mkSources (Some path) l d false) env
    = Ok (Config.mkConfig (Config.mkHttp (default Config.default_listen l) None)
            (Config.mkPaths (default data_dir d)) false (Config.mkSecret (u1 ++ bs "-" ++ u2))
            Config.default_gc Config.default_rate_limit).
Proof.
  intros H1 H2 Hr Hread.
  pose proof (Init.write_init_config_spec u1 u2 dir force s) as Hs. simpl in Hs.
  apply (wp_elim _ _ _ _ _ Hs) in Hr as (_ & [-> (data_dir & text' & Htoml & Htext & _)] & _).
  apply read_text in Hread as Htext'. rewrite Htext in Htext'. injection Htext' as <-.
  apply toml_roundtrip in Htoml. exists data_dir.
  unfold Loader.load_from_sources_with_env, Loader.read_raw, Loader.raw_from_str. simpl.
  rewrite Hread. simpl. rewrite Htoml. simpl. unfold Loader.resolve, Loader.resolve_root_key. simpl.
  pose proof (Init.generated_key_valid (O := Init.ops_at s') u1 u2 H1 H2) as Hk. simpl in Hk.
  rewrite Hk. done.
Qed.

End Properties.

(** ** A file system that computes, for examples *)

Module ToyFs.

(** [faults] are the outcomes of the next calls: [true] fails. *)
Record state : Type := mkFs {
  files : gmap bytes (bytes * N);
  known_dirs : gset bytes;
  faults : list bool;
}.

Definition with_files (f : gmap bytes (bytes * N)) (s : state) : state :=
  mkFs f (known_dirs s) (faults s).

Definition call {A} (f : state → result A unit * state) (s : state) : result A unit * state :=
  match faults s with
  | true :: l => (Err tt, mkFs (files s) (known_dirs s) l)
  | _ :: l => f (mkFs (files s) (known_dirs s) l)
  | [] => f s
  end.

Definition new_in (d : bytes) : state → result bytes unit * state := call (λ s,
  let t := Path.join d (bs ".tmp0") in
  match files s !! t with
  | Some _ => (Err tt, s)
  | None => (Ok t, with_files (<[t := ([], 0x180%N)]> (files s)) s)
  end).

Definition write (t data : bytes) : state → result unit unit * state := call (λ s,
  match files s !! t with
  | Some (old, m) => (Ok tt, with_files (<[t := (old ++ data, m)]> (files s)) s)
  | None => (Err tt, s)
  end).

Definition persist (t target : bytes) : state → result unit unit * state := call (λ s,
  match files s !! t with
  | Some f => (Ok tt, with_files (<[target := f]> (delete t (files s))) s)
  | None => (Err tt, s)
  end).

Definition chmod (p : bytes) (m : N) : state → result unit unit * state := call (λ s,
  match files s !! p with
  | Some (text, _) => (Ok tt, with_files (<[p := (text, m)]> (files s)) s)
  | None => (Err tt, s)
  end).

Lemma call_inv {A} (f : state → result A unit * state) s r s' :
  call f s = (r, s') →
  (r = Err tt ∧ files s' = files s) ∨ ∃ s1, files s1 = files s ∧ f s1 = (r, s').
Proof.
  unfold call. destruct (faults s) as [|[] l]; [right; by exists s|intros [= <- <-]; by left|right].
  by eexists (mkFs _ _ _).
Qed.

Lemma join_inj d a b : Path.SEP ∉ a → Path.SEP ∉ b → Path.join d a = Path.join d b → a = b.
Proof.
  assert (∀ n, Path.SEP ∉ n → Path.is_absolute n = false) as Hrel.
  { intros n Hn. apply bool_decide_eq_false_2. destruct n as [|c n]; [done|]. simpl. intros [= ->].
    apply Hn. by left. }
  intros Ha Hb. unfold Path.join. rewrite (Hrel a Ha), (Hrel b Hb).
  destruct (list.last d); [case_decide|done].
  - apply app_inv_head.
  - intros Heq. apply app_inv_head in Heq. congruence.
Qed.

End ToyFs.

#[global] Instance toy_fs : FsOps := {
  fs := ToyFs.state;
  fs_error := unit;
  path_exists p s := bool_decide (is_Some (ToyFs.files s !! p)) || bool_decide (p ∈ ToyFs.known_dirs s);
  path_is_dir p s := bool_decide (p ∈ ToyFs.known_dirs s);
  create_dir_all d := ToyFs.call (λ s, (Ok tt, ToyFs.mkFs (ToyFs.files s) ({[d]} ∪ ToyFs.known_dirs s) (ToyFs.faults s)));
  canonicalize p s := Ok (bs "/" ++ p);
  read_to_string p s := match ToyFs.files s !! p with Some (t, _) => Ok t | None => Err tt end;
  temp_new_in := ToyFs.new_in;
  temp_write_all := ToyFs.write;
  temp_flush _ := ToyFs.call (λ s, (Ok tt, s));
  temp_sync_all _ := ToyFs.call (λ s, (Ok tt, s));
  temp_persist := ToyFs.persist;
  temp_drop t s := ToyFs.with_files (delete t (ToyFs.files s)) s;
  set_mode := ToyFs.chmod;
}.

#[global] Instance toy_fs_laws : FsLaws toy_fs.
Proof.
  refine (Build_FsLaws toy_fs (λ s p, fst <$> ToyFs.files s !! p) (λ s p, snd <$> ToyFs.files s !! p)
    eq _ _ _ _ _ _ _ _ _ _ _); simpl; unfold ToyFs.new_in, ToyFs.write, ToyFs.persist, ToyFs.chmod.
  - done.
  - intros s p t. destruct (ToyFs.files s !! p) as [[t' m]|]; [|done]. by intros [= ->].
  - intros s p Hs. apply fmap_is_Some in Hs. by rewrite bool_decide_eq_true_2.
  - intros d s r s' Hc p. apply ToyFs.call_inv in Hc as [[-> Hf]|(s1 & Hf & [= <- <-])]; simpl; by rewrite Hf.
  - intros d s r s' [[-> Hf]|(s1 & Hf & Hr)]%ToyFs.call_inv; [by intros ?; rewrite Hf|].
    destruct (ToyFs.files s1 !! _) eqn:Et; injection Hr as <- <-; simpl; [by intros ?; rewrite Hf|].
    rewrite !lookup_insert_eq. split; [done|]. split; [done|]. rewrite Hf. split.
    + intros p Hp. by rewrite lookup_insert_ne.
    + intros name [Hsep Hno] Heq. apply ToyFs.join_inj in Heq; [by subst|done|by apply (bool_decide_unpack _)].
  - intros t data s r s' [[-> Hf]|(s1 & Hf & Hr)]%ToyFs.call_inv; [rewrite Hf; done|].
    destruct (ToyFs.files s1 !! t) as [[old m]|] eqn:Et; injection Hr as <- <-; simpl; rewrite Hf in *.
    + split; [intros p Hp; by rewrite lookup_insert_ne|]. split.
      * intros p. destruct (decide (p = t)) as [->|Hp]; [by rewrite lookup_insert_eq, Et|].
        by rewrite lookup_insert_ne.
      * intros _ old' Ho. rewrite lookup_insert_eq. rewrite Et in Ho. by injection Ho as <-.
    + done.
  - intros t s r s' Hc p. apply ToyFs.call_inv in Hc as [[-> Hf]|(s1 & Hf & [= <- <-])]; by rewrite Hf.
  - intros t s r s' Hc p. apply ToyFs.call_inv in Hc as [[-> Hf]|(s1 & Hf & [= <- <-])]; by rewrite Hf.
  - intros t target s r s' [[-> Hf]|(s1 & Hf & Hr)]%ToyFs.call_inv; [by intros ?; rewrite Hf|].
    destruct (ToyFs.files s1 !! t) as [f|] eqn:Et; injection Hr as <- <-; simpl; rewrite Hf in *; [|done].
    rewrite !lookup_insert_eq, Et. split; [done|]. split; [done|]. intros p Hp Hc.
    by rewrite lookup_insert_ne, lookup_delete_ne.
  - intros t s p Hp. by rewrite lookup_delete_ne.
  - intros p m s r s' [[-> Hf]|(s1 & Hf & Hr)]%ToyFs.call_inv; [rewrite Hf; done|].
    destruct (ToyFs.files s1 !! p) as [[text old]|] eqn:Et; injection Hr as <- <-; simpl; rewrite Hf in *; [|done].
    rewrite lookup_insert_eq. split; [|split; [intros q Hq; by rewrite lookup_insert_ne|done]].
    intros q. destruct (decide (q = p)) as [->|Hq]; [by rewrite lookup_insert_eq, Et|].
    by rewrite lookup_insert_ne.
Defined.

(** A TOML writer for the default settings: the data directory and the key on two lines. *)
Definition toy_config (data_dir key : bytes) : Config.Config :=
  Config.mkConfig Config.default_http (Config.mkPaths data_dir) false (Config.mkSecret key)
    Config.default_gc Config.default_rate_limit.

#[global] Instance Config_eq_dec : EqDecision Config.Config.
Proof.
  assert (EqDecision Config.HttpConfig) by solve_decision.
  assert (EqDecision Config.PathsConfig) by solve_decision.
  assert (EqDecision Config.LoadedSecret) by solve_decision.
  assert (EqDecision Config.GcConfig) by solve_decision.
  assert (EqDecision Config.RateLimitConfig) by solve_decision.
  solve_decision.
Defined.

Definition toy_print (c : Config.Config) : result bytes unit :=
  let d := Config.data_dir (Config.paths c) in
  let k := Config.expose_bytes (Config.root_key c) in
  if decide (c = toy_config d k ∧ "010"%byte ∉ d) then Ok (d ++ "010"%byte :: k) else Err tt.

#[global] Instance toy_toml : TomlOps := {
  toml_de_error := unit;
  toml_de_custom _ := tt;
  toml_parse text :=
    match split_once "010"%byte text with
    | Some (d, k) => Ok (Config.mkDoc Config.default_http (Config.mkPaths d) false (Some (Config.String k))
                           Config.default_gc Config.default_rate_limit)
    | None => Err tt
    end;
  toml_ser_error := unit;
  toml_to_string_pretty := toy_print;
}.

#[global] Instance toy_toml_laws : TomlLaws toy_toml.
Proof.
  split. intros c text. simpl. unfold toy_print. case_decide as Hc; [|done]. destruct Hc as [Hc Hd].
  intros [= <-]. rewrite (proj2 (split_once_Some _ _ _ _) (conj eq_refl Hd)). by rewrite Hc.
Qed.

(** ** Witnesses *)

Definition demo_uuid (c : byte) : bytes :=
  replicate 8 c ++ bs "-0000-4000-8000-" ++ replicate 12 c.

Lemma demo_uuid_text c : Dec.is_digit c = true → Init.uuid_text (demo_uuid c).
Proof.
  intros Hc. split; [done|]. unfold demo_uuid. repeat apply Forall_app_2.
  - apply Forall_replicate. by left.
  - by apply (bool_decide_unpack _).
  - apply Forall_replicate. by left.
Qed.

(** An instance directory with a configuration. *)
Definition demo_fs (faults : list bool) : @fs toy_fs :=
  ToyFs.mkFs {[Path.join (bs "kd") Init.CONFIG_FILENAME := (bs "old", 0x1A4%N)]} {[bs "kd"]} faults.

Lemma init_config_atomic_witness :
  Init.kept (Path.join (bs "kd") Init.CONFIG_FILENAME) (demo_fs [])
    (Init.write_init_config (demo_uuid "1") (demo_uuid "2") (bs "kd") false (demo_fs [])).2.
Proof.
  destruct (init_config_atomic (demo_uuid "1") (demo_uuid "2") (bs "kd") false (demo_fs [])
    (Init.write_init_config (demo_uuid "1") (demo_uuid "2") (bs "kd") false (demo_fs [])).2
    (Ret (Err (Init.AlreadyExists (Path.join (bs "kd") Init.CONFIG_FILENAME))))) as (_ & _ & H).
  - apply pair_fst. vm_refl.
  - apply H; [reflexivity|]. exists (bs "old"). vm_refl.
Defined.

Lemma init_then_load_witness :
  let s' := (Init.write_init_config (demo_uuid "1") (demo_uuid "2") (bs "kd") true (demo_fs [])).2 in
  is_ok (Loader.load_from_sources_with_env (O := Init.ops_at s')
    (Loader.mkSources (Some (Path.join (bs "kd") Init.CONFIG_FILENAME)) None None false)
    (λ _, Ok None)) = true.
Proof.
  intros s'.
  destruct (init_then_load (demo_uuid "1") (demo_uuid "2") (bs "kd") true (demo_fs []) s'
    (Path.join (bs "kd") Init.CONFIG_FILENAME)
    (bs "/kd/data" ++ "010"%byte :: demo_uuid "1" ++ bs "-" ++ demo_uuid "2") None None (λ _, Ok None))
    as [d Hd].
  - by apply demo_uuid_text.
  - by apply demo_uuid_text.
  - apply pair_fst. vm_refl.
  - vm_refl.
  - by rewrite Hd.
Defined.
