(* ===== verification/Effects.v ===== *)
(** * Footprints

    What a computation over the store may change: the policies of some buckets and the entries of
    some keys. Every operation of the adapter has a footprint in all its outcomes, success,
    storage failure and panic alike, and footprints compose along [?]. *)

From Stdlib Require Import Strings.Byte.
From S2P Require Import Prelude RustStd TimeLib Domain Counter Ports Codec FjallLib Locks Store StoreSpec StoreList StoreRepo HttpBase.
Import Http.

Section Effects.
Context {T : TimeOps} {P : PostcardOps} {J : PolicyJsonOps} {F : FjallOps} {H : HasherOps}
        {L : LayoutOps}.
Context {TL : TimeLaws T} {PL : PostcardLaws P} {JL : PolicyJsonLaws J} {FL : FjallLaws F}
        {LL : LayoutLaws L}.

(** ** The invariant of the server's state *)

(** A policy as the server stores it, under an id as the server draws it. *)
Definition stored_ok (b : BucketId) (p : BucketPolicy) : Prop :=
  Layout.bucket_ok b ∧ PolicyCodec.policy_wf p ∧ policy_consistent p.

Definition sane (s : Store.FjallStore) : Prop :=
  data_wf (cont s) ∧ ∀ b p, policy_view s b = Some p → stored_ok b p.

(** ** Footprints *)

(** From [s] to [s'] only the policies in [PB] and the entries in [DB] may differ, and the expiry
    index stays complete. *)
Definition within (PB : BucketId → Prop) (DB : BucketId → Key → Prop) (s s' : Store.FjallStore) : Prop :=
  (∀ b, policy_view s' b = policy_view s b ∨ PB b)
  ∧ (∀ b k, Layout.bucket_ok b → view s' b k = view s b k ∨ DB b k)
  ∧ (store_inv s → store_inv s').

Definition nowhere : BucketId → Prop := λ _, False.
Definition no_key : BucketId → Key → Prop := λ _ _, False.

Lemma within_refl PB DB s : within PB DB s s.
Proof. split; [by left|]. split; [by left|done]. Qed.

Lemma within_trans PB DB s s1 s2 : within nowhere no_key s s1 → within PB DB s1 s2 → within PB DB s s2.
Proof.
  intros (H1 & H2 & H5) (H3 & H4 & H6). split; [|split].
  - intros b. destruct (H1 b) as [<-|[]]. apply H3.
  - intros b k Hb. destruct (H2 b k Hb) as [<-|[]]. by apply H4.
  - auto.
Qed.

(** [safe pn pol PB DB m Q]: started in a sane state whose policies are [pol], [m] ends in a sane
    state, changes at most [PB] and [DB], panics only if [pn], and an answer satisfies [Q]. *)
Definition safe (pn : Prop) (pol : BucketId → option BucketPolicy) (PB : BucketId → Prop)
    (DB : BucketId → Key → Prop) {A E} (m : comp Store.FjallStore A E) (Q : A → Prop) : Prop :=
  ∀ s, sane s → (∀ b, policy_view s b = pol b) →
    wp m s (λ r s', sane s' ∧ within PB DB s s' ∧ (r = Panic → pn) ∧ ∀ a, r = Ret (Ok a) → Q a).

(** A computation that changes nothing. *)
Abbreviation reads pn pol m Q := (safe pn pol nowhere no_key m Q).

Section Rules.
Context (pol : BucketId → option BucketPolicy).

Lemma safe_mono (pn pn' : Prop) (PB PB' : BucketId → Prop) (DB DB' : BucketId → Key → Prop) {A E}
    (m : comp Store.FjallStore A E) (Q Q' : A → Prop) :
  safe pn pol PB DB m Q → (pn → pn') → (∀ b, PB b → PB' b) → (∀ b k, DB b k → DB' b k) →
  (∀ a, Q a → Q' a) → safe pn' pol PB' DB' m Q'.
Proof.
  intros Hm Hpn HP HD HQ s Hs Hpol. eapply wp_mono; [by apply Hm|].
  intros r s' (H1 & (H2 & H2' & Hi) & H3 & H4). split; [done|]. split; [|auto]. split; [|split].
  - intros b. destruct (H2 b); auto.
  - intros b k Hb. destruct (H2' b k Hb); auto.
  - done.
Qed.

Lemma safe_lift pn PB DB {A E} (r : result A E) (Q : A → Prop) :
  (∀ a, r = Ok a → Q a) → safe pn pol PB DB (comp_lift r) Q.
Proof.
  intros HQ s Hs _. split; [done|]. split; [apply within_refl|]. split; [done|].
  intros a [= Ha]. by apply HQ.
Qed.

Lemma safe_ret pn PB DB {A E} (a : A) (Q : A → Prop) :
  Q a → safe pn pol PB DB (comp_ret (E := E) a) Q.
Proof. intros HQ. apply (safe_lift pn PB DB (Ok a)). by intros ? [= <-]. Qed.

Lemma safe_err pn PB DB {A E} (e : E) (Q : A → Prop) : safe pn pol PB DB (comp_err e) Q.
Proof. by apply (safe_lift pn PB DB (Err e)). Qed.

(** [?] after a computation that only reads. *)
Lemma safe_bind pn PB DB {A B E} (m : comp Store.FjallStore A E) (f : A → comp Store.FjallStore B E)
    (Q : A → Prop) (Q' : B → Prop) :
  reads pn pol m Q → (∀ a, Q a → safe pn pol PB DB (f a) Q') → safe pn pol PB DB (comp_bind m f) Q'.
Proof.
  intros Hm Hf s Hs Hpol. apply wp_bind. eapply wp_mono; [by apply Hm|].
  intros [[a|e]|] s1 (H1 & H2 & H3 & H4).
  - eapply wp_mono; [apply (Hf a); [by apply H4|done|]|].
    + intros b. rewrite <- Hpol. by destruct (proj1 H2 b) as [|[]].
    + intros r s2 (H5 & H6 & H7). split; [done|]. split; [by eapply within_trans|done].
  - split; [done|]. split; [|done]. by eapply within_trans; [exact H2|apply within_refl].
  - split; [done|]. split; [by eapply within_trans; [exact H2|apply within_refl]|].
    split; [by intros _; apply H3|done].
Qed.

(** The last effect of a handler, then its answer. *)
Lemma safe_last pn PB DB {A B E} (m : comp Store.FjallStore A E) (f : A → comp Store.FjallStore B E)
    (g : A → result B E) :
  safe pn pol PB DB m (λ _, True) → (∀ a s, f a s = (Ret (g a), s)) →
  safe pn pol PB DB (comp_bind m f) (λ _, True).
Proof.
  intros Hm Hf s Hs Hpol. apply wp_bind. eapply wp_mono; [by apply Hm|].
  intros [[a|e]|] s1 (H1 & H2 & H3 & _); [unfold wp; by rewrite Hf|done|].
  split; [done|]. split; [done|]. split; [by intros _; apply H3|done].
Qed.

(** A use case on the blocking pool: a panic is an answer. *)
Lemma safe_spawn pn PB DB {A} (m : comp Store.FjallStore A UseCaseError) (Q : A → Prop) :
  safe True pol PB DB m Q → safe pn pol PB DB (spawn_usecase m) Q.
Proof.
  intros Hm s Hs Hpol. specialize (Hm s Hs Hpol). unfold wp in *. unfold spawn_usecase.
  destruct (m s) as [[[a|e]|] s'] eqn:Em; simpl in *; destruct Hm as (H1 & H2 & _ & H3);
    (split; [done|]); (split; [done|]); (split; [done|]); [|done|done].
  intros x [= <-]. by apply H3.
Qed.

(** ** Writes *)

Definition writes_ok (PB : BucketId → Prop) (DB : BucketId → Key → Prop)
    (m : keyspace → gmap bytes bytes) (ws : list batch_op) : Prop :=
  ((data_wf m → data_wf (apply_writes m ws)) ∧ (inv_map m → inv_map (apply_writes m ws)))
  ∧ (∀ b k, Layout.bucket_ok b → view_map (apply_writes m ws) b k = view_map m b k ∨ DB b k)
  ∧ ∀ b, policy_map (apply_writes m ws) b = policy_map m b
         ∨ PB b ∧ ∀ p, policy_map (apply_writes m ws) b = Some p → stored_ok b p.

Lemma writes_none PB DB m : writes_ok PB DB m [].
Proof. split; [done|]. split; by left. Qed.

Lemma wf_map_ext m m' : (∀ ks, m' ks = m ks) → data_wf m → data_wf m'.
Proof. intros Hm Hd sk l. rewrite Hm. apply Hd. Qed.

Lemma applied_safe PB DB s s' ws :
  applied s s' ws → writes_ok PB DB (cont s) ws → sane s → sane s' ∧ within PB DB s s'.
Proof.
  intros Ha ([Hw Hi] & Hv & Hp) [Hs Hpol].
  assert (∀ b, policy_view s' b = policy_map (apply_writes (cont s) ws) b) as He
    by (intros b; by apply policy_map_ext).
  split; [split|split; [|split]].
  - apply (wf_map_ext (apply_writes (cont s) ws)); [done|by apply Hw].
  - intros b p. rewrite He. destruct (Hp b) as [->|[_ Hq]]; [apply Hpol|apply Hq].
  - intros b. rewrite He. destruct (Hp b) as [->|[? _]]; [by left|by right].
  - intros b k Hb. unfold view. rewrite (view_map_ext _ _ b k Ha). by apply Hv.
  - intros Hsi. apply (inv_map_ext (apply_writes (cont s) ws)); [done|by apply Hi].
Qed.

(** An operation with a postcondition has the footprint of its writes. *)
Lemma safe_post pn PB DB {A} (m : comp Store.FjallStore A UseCaseError)
    (good : Store.FjallStore → Prop) (W : Store.FjallStore → A → list batch_op → Prop)
    (De : Store.FjallStore → UseCaseError → Prop) (Q : A → Prop) :
  (∀ s, wp m s (post s (good s) (W s) (De s))) →
  (∀ s a ws, sane s → (∀ b, policy_view s b = pol b) → W s a ws → writes_ok PB DB (cont s) ws ∧ Q a) →
  safe pn pol PB DB m Q.
Proof.
  intros Hm HW s Hs Hpol. eapply wp_mono; [apply Hm|]. intros r s' [_ Hr].
  assert (∃ ws, applied s s' ws ∧ writes_ok PB DB (cont s) ws) as (ws & Ha & Hok).
  { destruct r as [[a|e]|]; [| |done].
    - destruct Hr as (ws & Hw & Ha). exists ws. split; [done|]. by eapply HW.
    - destruct Hr as [[_ Ha]|(_ & _ & ws & [->|[a Hw]] & Ha)];
        [eexists; by split; [|apply writes_none]..|].
      exists ws. split; [done|]. by eapply HW. }
  destruct (applied_safe PB DB s s' ws Ha Hok Hs) as [H1 H2].
  split; [done|]. split; [done|]. split; [intros ->; by destruct Hr|].
  intros a ->. destruct Hr as (ws' & Hw & _). by apply (HW s a ws').
Qed.

(** Entries are not policies. *)
Lemma policy_entry_writes m sk l e b :
  policy_map (apply_writes m (entry_writes sk l e)) b = policy_map m b.
Proof. by destruct e. Qed.

Lemma policy_batch items m b :
  policy_map (apply_writes m (items ≫= Store.item_writes)) b = policy_map m b.
Proof.
  revert m. induction items as [|it items IH]; intros m; [done|].
  rewrite bind_cons, apply_writes_app, IH. by destruct it as [k l [i|]|k].
Qed.

Lemma entry_writes_ok PB DB m b k v e l :
  Layout.bucket_ok b → Value.value_ok v → encode_entry (E := fjall_error) v e = Ok l → DB b k →
  writes_ok PB DB m (entry_writes (Layout.data_storage_key b k) l e).
Proof.
  intros Hb Hv Hl HD. split; [|split].
  - split; [eapply wf_entry_writes|eapply inv_entry_writes]; eauto using storage_key_nonempty.
  - intros b' k' Hb'. rewrite (view_entry_writes m b k v e l) by done.
    case_decide as Hd; [injection Hd as -> ->; by right|by left].
  - left. apply policy_entry_writes.
Qed.

Lemma remove_writes_ok PB DB m b k :
  Layout.bucket_ok b → DB b k → writes_ok PB DB m [BatchRemove Data (Layout.data_storage_key b k)].
Proof.
  intros Hb HD. split; [|split].
  - split; [apply wf_remove|apply inv_remove].
  - intros b' k' Hb'. rewrite view_remove by done.
    case_decide as Hd; [injection Hd as -> ->; by right|by left].
  - by left.
Qed.

Lemma txn_result_other k o ops : k ∉ txn_key <$> ops → txn_result k o ops = o.
Proof.
  revert o. induction ops as [|op ops IH]; intros o; [done|]. rewrite fmap_cons, not_elem_of_cons.
  intros [Hk Hks]. unfold txn_result. simpl. fold (txn_result k (txn_effect k o op) ops).
  rewrite IH by done. destruct op; simpl in *; by rewrite decide_False.
Qed.

Lemma batch_writes_ok PB (DB : BucketId → Key → Prop) m b ops items :
  Layout.bucket_ok b → Forall txn_ok ops → Store.batch_items b ops = Ok items →
  (∀ k, k ∈ txn_key <$> ops → DB b k) →
  writes_ok PB DB m (items ≫= Store.item_writes).
Proof.
  intros Hb Hok Hi HD. split; [|split].
  - split; [by eapply wf_batch|by eapply inv_batch].
  - intros b' k' Hb'. rewrite (view_batch b ops items) by done. case_decide; [subst|by left].
    destruct (decide (k' ∈ txn_key <$> ops)); [right; by apply HD|left; by apply txn_result_other].
  - left. apply policy_batch.
Qed.

(** ** The operations of the adapter *)

Lemma safe_get_policy pn b :
  reads pn pol (Store.get_policy b) (λ o, o = pol b ∧ ∀ p, o = Some p → stored_ok b p).
Proof.
  eapply safe_post; [intros s; apply spec_get_policy|]. intros s o ws [_ Hs] Hpol [-> ->]. simpl.
  split; [apply writes_none|]. split; [by rewrite Hpol|]. apply Hs.
Qed.

Lemma safe_create_bucket pn (PB : BucketId → Prop) b p :
  stored_ok b p → PB b → safe pn pol PB no_key (Store.create_bucket b p) (λ _, True).
Proof.
  intros Hok HP. eapply safe_post; [intros s; apply spec_create_bucket, Hok|].
  intros s [] ws _ _ (l & Hl & ->). split; [|done]. split; [|split].
  - done.
  - by left.
  - intros b'. rewrite (policy_insert _ b p l) by (done || apply Hok).
    case_decide; [subst; right; split; [done|by intros ? [= <-]]|by left].
Qed.

Lemma safe_delete_bucket pn (PB : BucketId → Prop) b :
  PB b → safe pn pol PB no_key (Store.delete_bucket b) (λ _, True).
Proof.
  intros HP. eapply safe_post; [intros s; apply spec_delete_bucket|].
  intros s [] ws _ _ ->. split; [|done]. split; [|split].
  - done.
  - by left.
  - intros b'. rewrite policy_remove. case_decide; [subst; by right|by left].
Qed.

Lemma safe_get pn b k : reads pn pol (Store.get b k) (λ _, True).
Proof.
  eapply safe_post; [intros s; apply spec_get|]. intros s o ws _ _ [-> _].
  split; [apply writes_none|done].
Qed.

Lemma safe_set pn (DB : BucketId → Key → Prop) b k v e :
  Layout.bucket_ok b → Value.value_ok v → DB b k →
  safe pn pol nowhere DB (Store.set b k v e) (λ _, True).
Proof.
  intros Hb Hv HD. eapply safe_post; [intros s; by apply spec_set|].
  intros s [] ws _ _ (l & Hl & ->). split; [|done]. by eapply entry_writes_ok.
Qed.

Lemma safe_delete pn (DB : BucketId → Key → Prop) b k :
  Layout.bucket_ok b → DB b k → safe pn pol nowhere DB (Store.delete b k) (λ _, True).
Proof.
  intros Hb HD. eapply safe_post; [intros s; apply spec_delete|].
  intros s existed ws _ _ [_ ->]. split; [|done].
  destruct existed; [by apply remove_writes_ok|apply writes_none].
Qed.

Lemma incremented_ok now o op v : incremented now o op = Ok v → Value.value_ok v.
Proof.
  intros Hv. unfold incremented in Hv. res_inv Hv. res_inv Hv.
  destruct v1; simpl in Hv; by apply Value.new_ok in Hv as [_ ?].
Qed.

Lemma safe_increment pn (DB : BucketId → Key → Prop) now b k o e :
  Layout.bucket_ok b → DB b k → safe pn pol nowhere DB (Store.increment now b k o e) (λ _, True).
Proof.
  intros Hb HD. eapply safe_post; [intros s; apply spec_increment|].
  intros s v ws _ _ (Hv & l & Hl & ->). split; [|done].
  eapply entry_writes_ok; eauto using incremented_ok.
Qed.

Lemma safe_apply_batch pn (DB : BucketId → Key → Prop) b ops :
  Layout.bucket_ok b → Forall txn_ok ops → (∀ k, k ∈ txn_key <$> ops → DB b k) →
  safe pn pol nowhere DB (Store.apply_batch b ops) (λ _, True).
Proof.
  intros Hb Hok HD. eapply safe_post; [intros s; by apply spec_apply_batch|].
  intros s [] ws _ _ (items & Hi & ->). split; [|done]. by eapply batch_writes_ok.
Qed.

(** Computations whose outcome comes with no write at all. *)
Lemma safe_quiet {A} (m : comp Store.FjallStore A UseCaseError) :
  (∀ s, wp m s (λ _ s', applied s s' [])) → reads True pol m (λ _, True).
Proof.
  intros Hm s Hs _. eapply wp_mono; [apply Hm|]. intros r s' Ha.
  destruct (applied_safe nowhere no_key s s' [] Ha (writes_none _ _ _) Hs). done.
Qed.

Lemma safe_list b opts : reads True pol (Store.list b opts) (λ _, True).
Proof. apply safe_quiet. intros s. eapply wp_mono; [apply list_spec|]. by intros r s' (_ & Ha & _). Qed.

Lemma spec_ping s : wp Store.ping_metadata s (λ _ s', applied s s' []).
Proof.
  unfold wp, Store.ping_metadata. destruct (Store.fail_ping_metadata s); [done|].
  assert (wp (let! _ := Store.on_db (ks_get Meta (bs "__ping__")) in comp_ret tt) s
    (post s False (λ _ ws, ws = []) (λ _, False))) as Hp.
  { eapply wp_step with (R := λ _, True); [by eapply wp_read; [apply get_law|..]|].
    intros o s1 _ _ _. apply wp_ret. split; [done|]. by exists []. }
  apply (wp_recorded s False (bs "ping_metadata")) in Hp. destruct Hp as [_ Hp].
  destruct (Store.recorded _ _ s) as [[[[]|e]|] s'] eqn:Er; simpl in *; [| |done].
  - by destruct Hp as (ws & -> & Ha).
  - destruct Hp as [[[] _]|(_ & _ & ws & [->|(a & ->)] & Ha)]; done.
Qed.

End Rules.

End Effects.
