(* ===== verification/Router.v ===== *)
(** * The HTTP server

    [keydock-http/src/router.rs], [rate_limit.rs], [middleware/metrics.rs] and the extractors of
    every handler's signature ([routes/]): from a request to a response, through the CORS layer,
    the metrics middleware, the rate limiter, the route table, the extractors and the handler.

    The framework (axum, tower-http, axum-governor, serde) is the class [AxumOps]; [AxumLaws]
    states the documented behaviour of route matching, nesting and method selection. The route
    table itself is the program's and is data here. *)

From Stdlib Require Import Strings.Byte.
From S2P Require Import Prelude RustStd TimeLib Domain Counter Ports Codec Auth KeyService HttpBase Serde HttpRoutes HttpBuckets Bodies.
Import Http.

Module Router.

(** ** Routes *)

Inductive Method : Type :=
| GET | HEAD | POST | PUT | PATCH | DELETE | OPTIONS
| Extension (name : bytes).

#[global] Instance Method_eq_dec : EqDecision Method.
Proof. solve_decision. Defined.

Definition method_str (m : Method) : bytes :=
  match m with
  | GET => bs "GET" | HEAD => bs "HEAD" | POST => bs "POST" | PUT => bs "PUT"
  | PATCH => bs "PATCH" | DELETE => bs "DELETE" | OPTIONS => bs "OPTIONS" | Extension n => n
  end.

(** The handler functions of [routes/] and the scrape handler. *)
Inductive handler_id : Type :=
| HealthCheck | ReadinessCheck | Metrics
| CreateBucket | CreateToken
| GetKey | HeadKey | PutKey | DeleteKey | PatchKey
| ListBucket | DeleteBucket | GetBucketPolicy | HeadBucket | ExecuteTxn | UpdatePolicy.

#[global] Instance handler_id_eq_dec : EqDecision handler_id.
Proof. solve_decision. Defined.

Record Route : Type := mkRoute {
  pattern : bytes;
  methods : list (Method * handler_id);
  (** behind the rate limiter *)
  limited : bool;
}.

Record RateLimitSettings : Type := mkRateLimit { enabled : bool; requests_per_hour : N }.

Definition default_rate_limit : RateLimitSettings := mkRateLimit false 1000.

Record RouterOptions : Type := mkOptions { expose_metrics : bool; rate_limit : RateLimitSettings }.

Definition default_options : RouterOptions := mkOptions true default_rate_limit.

(** [init_rate_limiter]: the hourly budget given to the limiter, [None] when it is off. *)
Definition init_rate_limiter (settings : RateLimitSettings) : option N :=
  if enabled settings
  then Some (if (requests_per_hour settings <? 2 ^ 32)%N then requests_per_hour settings else 2 ^ 32 - 1)%N
  else None.

Definition API_PREFIX : bytes := bs "/api/v1".

Definition metrics_routes : list Route := [mkRoute (bs "/metrics") [(GET, Metrics)] false].

Definition ops_routes (opts : RouterOptions) : list Route :=
  [mkRoute (bs "/health") [(GET, HealthCheck)] false;
   mkRoute (bs "/ready") [(GET, ReadinessCheck)] false]
  ++ (if expose_metrics opts then metrics_routes else []).

Definition api_routes : list Route :=
  [mkRoute (bs "/") [(POST, CreateBucket)] false;
   mkRoute (bs "/{bucket}/tokens/") [(POST, CreateToken)] false;
   mkRoute (bs "/{bucket}/{key}")
     [(GET, GetKey); (HEAD, HeadKey); (POST, PutKey); (PUT, PutKey); (DELETE, DeleteKey);
      (PATCH, PatchKey)] false;
   mkRoute (bs "/{bucket}/") [(GET, ListBucket); (DELETE, DeleteBucket)] false;
   mkRoute (bs "/{bucket}")
     [(GET, GetBucketPolicy); (HEAD, HeadBucket); (POST, ExecuteTxn); (PATCH, UpdatePolicy);
      (DELETE, DeleteBucket)] false].

Definition api_alias_routes : list Route :=
  [mkRoute (API_PREFIX ++ bs "/") [(POST, CreateBucket)] false].

(** ** The documented operations ([openapi.rs])

    The path of each operation as its handler's attribute declares it, relative to the API. *)
Definition OPS_PATHS : list bytes := [bs "/health"; bs "/ready"].

Definition api_doc : list (bytes * handler_id) :=
  [(bs "/health", HealthCheck); (bs "/ready", ReadinessCheck);
   (bs "/", CreateBucket); (bs "/{bucket}/", ListBucket); (bs "/{bucket}", GetBucketPolicy);
   (bs "/{bucket}", HeadBucket); (bs "/{bucket}", UpdatePolicy); (bs "/{bucket}", DeleteBucket);
   (bs "/{bucket}/", DeleteBucket); (bs "/{bucket}/tokens/", CreateToken);
   (bs "/{bucket}/{key}", GetKey); (bs "/{bucket}/{key}", HeadKey); (bs "/{bucket}/{key}", PutKey);
   (bs "/{bucket}/{key}", DeleteKey); (bs "/{bucket}/{key}", PatchKey); (bs "/{bucket}", ExecuteTxn)].

Definition openapi_path (path : bytes) : bytes :=
  if bool_decide (path ∈ OPS_PATHS) then path
  else if bool_decide (path = bs "/") then API_PREFIX
  else API_PREFIX ++ path.

Definition openapi : list (bytes * handler_id) := (λ op, (openapi_path op.1, op.2)) <$> api_doc.

(** [.layer(rate_limit_layer)] on a router. *)
Definition layer_limit (opts : RouterOptions) (r : Route) : Route :=
  mkRoute (pattern r) (methods r) (enabled (rate_limit opts)).

(** ** Requests *)

Record Request : Type := mkRequest {
  method : Method;
  path : bytes;
  query : option bytes;
  req_headers : Headers;
  req_body : bytes;
}.

(** ** Matching *)

(** [{name}]. *)
Definition is_param (seg : bytes) : bool := starts_with seg (bs "{") && ends_with seg (bs "}").

(** The captures of a path by a pattern, segment by segment: a parameter takes one segment that
    is not empty. *)
Fixpoint segs_match (ps segs : list bytes) : option (list bytes) :=
  match ps, segs with
  | [], [] => Some []
  | p :: ps', x :: segs' =>
    if is_param p
    then if bool_decide (x = []) then None else cons x <$> segs_match ps' segs'
    else if bool_decide (p = x) then segs_match ps' segs' else None
  | _, _ => None
  end.

Definition matches (pattern path : bytes) : option (list bytes) :=
  segs_match (split "/"%byte pattern) (split "/"%byte path).

End Router.

(** ** The framework *)

Class AxumOps {JV : JsonValueOps} : Type := {
  (** The route table's choice: the pattern and the captured segments, still encoded *)
  match_route : list bytes → bytes → option (bytes * list bytes);
  (** [Router::nest] *)
  nest_path : bytes → bytes → bytes;
  (** Which of the registered methods serves a request *)
  pick_method : list Router.Method → Router.Method → option Router.Method;
  (** [Path<(String, String)>]: the decoded captures, or the rejection *)
  extract_path : list bytes → result (list bytes) Response;
  (** [Query<TtlQuery>], [Query<ListBucketParams>] *)
  extract_ttl : option bytes → result (option N) Response;
  extract_list_params : option bytes → result Buckets.ListBucketParams Response;
  (** [Form<..>] *)
  extract_create_form : Headers → bytes → result Buckets.CreateBucketForm Response;
  extract_token_form : Headers → bytes → result TokensRoute.CreateTokenForm Response;
  (** [Bytes], with the default size limit *)
  extract_bytes : bytes → result bytes Response;
  (** The reader of [serde_json::from_slice]: the tree the deserializers see *)
  json_tree : bytes → option json;
  (** The documentation pages merged into the router: their pattern and answer *)
  swagger : Router.Request → option (bytes * Response);
  (** [CorsLayer]: the answer to a preflight request *)
  cors_preflight : Router.Request → option Response;
  (** [RealIpLayer] and [GovernorLayer] over the process-wide limiter *)
  limiter : Type;
  govern : Router.Request → limiter → option Response * limiter;
  (** What the scrape handler renders *)
  render_metrics : bytes;
}.

Class AxumLaws {JV : JsonValueOps} {W : WireOps} (AX : AxumOps) : Prop := {
  match_sound ps p q caps :
    match_route ps p = Some (q, caps) → q ∈ ps ∧ Router.matches q p = Some caps;
  match_complete ps p q : q ∈ ps → is_Some (Router.matches q p) → is_Some (match_route ps p);
  nest_root pre : nest_path pre (bs "/") = pre;
  nest_sub pre p : p ≠ bs "/" → nest_path pre p = pre ++ p;
  pick_exact ms m : m ∈ ms → pick_method ms m = Some m;
  pick_head ms : Router.HEAD ∉ ms → Router.GET ∈ ms → pick_method ms Router.HEAD = Some Router.GET;
  pick_none ms m :
    m ∉ ms → (m = Router.HEAD → Router.GET ∉ ms) → pick_method ms m = None;
  (** [Path] decodes every capture, which must then be text. *)
  path_decoded caps :
    (∀ c, c ∈ caps → Utf8.from_utf8 (percent_decode c) = true) →
    extract_path caps = Ok (percent_decode <$> caps);
  path_not_utf8 caps c :
    c ∈ caps → Utf8.from_utf8 (percent_decode c) = false → ∃ e, extract_path caps = Err e;
  (** The numbers of the forms are [u64]. *)
  create_form_u64 h b f t :
    extract_create_form h b = Ok f → Buckets.f_default_ttl f = Some t → (t <= Usize.usize_max)%N;
  (** Only [OPTIONS] requests are preflights. *)
  cors_options r resp : cors_preflight r = Some resp → Router.method r = Router.OPTIONS;
}.

(** [serde_json::from_slice] at the types of the handlers. *)
Definition parse_txn {JV : JsonValueOps} {AX : AxumOps} (body : bytes) : option (list Txn.TxnItem) :=
  json_tree body ≫= Bodies.TxnRequest_deserialize.

Definition parse_patch {JV : JsonValueOps} {AX : AxumOps} (body : bytes) : option Buckets.UpdatePolicyJson :=
  json_tree body ≫= Bodies.UpdatePolicyJson_deserialize.

(** Its numbers are [u64]. *)
Lemma patch_u64 {JV : JsonValueOps} {AX : AxumOps} l p t :
  parse_patch l = Some p → Buckets.p_default_ttl p = Some (Some t) → (t <= Usize.usize_max)%N.
Proof. intros (j & _ & Hj)%bind_Some. by apply (Bodies.UpdatePolicyJson_u64 j). Qed.

Module Server.
Import Router.

Section Server.
Context {T : TimeOps} {JS : JsonOps} {JV : JsonValueOps} {W : WireOps} {C : CryptoOps}
        {K : TokenOps} {AX : AxumOps}.
Context {S : Type} {BR : BucketRepository S} {KR : KeyRepository S}.

(** ** [build_router] *)

(** [.nest(API_PREFIX, api_routes)]. *)
Definition nested (r : Route) : Route :=
  mkRoute (nest_path API_PREFIX (pattern r)) (methods r) (limited r).

(** The routes of the program. The pages of [SwaggerUi], merged in [ops_routes], are the framework's
    ([swagger]) and are consulted where none of these routes matches. *)
Definition build_router (opts : RouterOptions) : list Route :=
  ops_routes opts ++ (layer_limit opts <$> api_alias_routes)
  ++ (nested <$> (layer_limit opts <$> api_routes)).

(** ** Dispatch *)

(** [ToNothing]: no route of the program; [endpoint] answers it with a documentation page if one
    matches and with 404 otherwise. *)
Inductive target : Type :=
| ToHandler (route : Route) (served : Method) (h : handler_id) (caps : list bytes)
| ToMethodNotAllowed (route : Route)
| ToNothing.

Definition find_route (table : list Route) (p : bytes) : option Route :=
  snd <$> list_find (λ r, pattern r = p) table.

Definition assoc_method (ms : list (Method * handler_id)) (m : Method) : option handler_id :=
  (λ x, x.2.2) <$> list_find (λ x, x.1 = m) ms.

Definition dispatch (table : list Route) (m : Method) (p : bytes) : target :=
  match match_route (pattern <$> table) p with
  | None => ToNothing
  | Some (q, caps) =>
    match find_route table q with
    | None => ToNothing
    | Some r =>
      match pick_method (fst <$> methods r) m with
      | None => ToMethodNotAllowed r
      | Some m' =>
        match assoc_method (methods r) m' with
        | Some h => ToHandler r m' h caps
        | None => ToMethodNotAllowed r
        end
      end
    end
  end.

(** ** Handlers with their extractors *)

Record AppState : Type := mkState { version : bytes; root_key : SigningKey }.

(** The readings of the clock during a request, and the UUID drawn by [create_bucket]. *)
Record Env : Type := mkEnv { clock : nat → OffsetDateTime; uuid : bytes }.

Abbreviation handler := (comp S Response Response).

(** The request parts a nested handler sees: the prefix is stripped from the path. *)
Definition parts_of (req : Request) : Parts :=
  mkParts (default (path req) (strip_prefix API_PREFIX (path req))) (query req) (req_headers req).

(** [auth: BucketAuth] as the first extractor. *)
Definition with_auth (st : AppState) (env : Env) (req : Request) (k : BucketAuth → handler) : handler :=
  let! auth := from_request_parts (clock env 0%nat) (root_key st) (parts_of req) in k auth.

(** [Path((_bucket, key))]. *)
Definition with_key (caps : list bytes) (k : bytes → handler) : handler :=
  let! ps := comp_lift (extract_path caps) in
  match ps with
  | [_; key] => k key
  | _ => comp_err internal_error
  end.

Definition run_handler (st : AppState) (env : Env) (req : Request) (h : handler_id)
    (caps : list bytes) : handler :=
  match h with
  | HealthCheck => comp_ret (Health.health_check (version st))
  | ReadinessCheck => λ s, let '(resp, s') := Health.readiness_check (version st) s in (Ret (Ok resp), s')
  | Metrics => comp_ret (mkResponse 200 (Raw (bs "text/plain; version=0.0.4; charset=utf-8") render_metrics))
  | CreateBucket =>
    let! form := comp_lift (extract_create_form (req_headers req) (req_body req)) in
    Buckets.create_bucket (root_key st) (uuid env) form
  | CreateToken =>
    with_auth st env req (λ auth,
      let! form := comp_lift (extract_token_form (req_headers req) (req_body req)) in
      TokensRoute.create_token (clock env 1%nat) auth form)
  | GetKey => with_auth st env req (λ auth, with_key caps (λ key, Keys.get_key (clock env 1%nat) auth key))
  | HeadKey => with_auth st env req (λ auth, with_key caps (λ key, Keys.head_key (clock env 1%nat) auth key))
  | PutKey =>
    with_auth st env req (λ auth, with_key caps (λ key,
      let! ttl := comp_lift (extract_ttl (query req)) in
      let! body := comp_lift (extract_bytes (req_body req)) in
      Keys.put_key (clock env 1%nat) auth key ttl (req_headers req) body))
  | DeleteKey => with_auth st env req (λ auth, with_key caps (λ key, Keys.delete_key auth key))
  | PatchKey =>
    with_auth st env req (λ auth, with_key caps (λ key,
      let! ttl := comp_lift (extract_ttl (query req)) in
      let! body := comp_lift (extract_bytes (req_body req)) in
      Keys.patch_key (clock env 1%nat) (clock env 2%nat) auth key ttl body))
  | ListBucket =>
    with_auth st env req (λ auth,
      let! params := comp_lift (extract_list_params (query req)) in
      Buckets.list_bucket (clock env 1%nat) auth params (req_headers req))
  | DeleteBucket => with_auth st env req (λ auth, Buckets.delete_bucket auth)
  | GetBucketPolicy => with_auth st env req (λ auth, Buckets.get_bucket_policy auth)
  | HeadBucket => with_auth st env req (λ auth, Buckets.head_bucket auth)
  | ExecuteTxn =>
    with_auth st env req (λ auth,
      let! body := comp_lift (extract_bytes (req_body req)) in
      Txn.execute_txn (λ i, clock env (1 + i)%nat) auth (parse_txn body))
  | UpdatePolicy =>
    with_auth st env req (λ auth,
      let! body := comp_lift (extract_bytes (req_body req)) in
      Buckets.update_policy (root_key st) auth body (parse_patch body))
  end.

(** [Ok] and [Err] are both responses. *)
Definition into_response (r : exec (result Response Response)) : exec Response :=
  match r with
  | Ret (Ok resp) | Ret (Err resp) => Ret resp
  | Panic => Panic
  end.

(** The answer to a [HEAD] request is sent without its body. *)
Definition strip_body (resp : Response) : Response :=
  mkResponse (status resp)
    match body resp with Raw ct _ => Raw ct [] | _ => NoBody end.

Definition finish_head (m : Method) (resp : Response) : Response :=
  if bool_decide (m = HEAD) then strip_body resp else resp.

(** ** Middleware *)

Inductive http_metric : Type :=
| http_requests_total (route method : bytes) (status : N)
| http_request_duration_seconds (route method : bytes).

(** The limiter and the recorder are process-wide. *)
Record State : Type := mkServer {
  repo : S;
  limits : limiter;
  samples : list http_metric;
}.

Definition method_not_allowed_fallback : Response := method_not_allowed.

(** The router's default fallback has an empty body. *)
Definition default_fallback : Response := mkResponse 404 NoBody.

(** Below the rate limiter. *)
Definition endpoint (app : AppState) (env : Env) (req : Request) (t : target) (s : S)
    : exec Response * S :=
  match t with
  | ToHandler _ _ h caps =>
    let '(r, s') := run_handler app env req h caps s in
    (match into_response r with
     | Ret resp => Ret (finish_head (method req) resp)
     | Panic => Panic
     end, s')
  | ToMethodNotAllowed _ => (Ret (finish_head (method req) method_not_allowed_fallback), s)
  | ToNothing => (Ret (finish_head (method req) (default default_fallback (snd <$> swagger req))), s)
  end.

Definition target_route (t : target) : option Route :=
  match t with ToHandler r _ _ _ | ToMethodNotAllowed r => Some r | ToNothing => None end.

(** The rate limiter wraps the routes it was layered on. *)
Definition governed (app : AppState) (env : Env) (req : Request) (t : target) (st : State)
    : exec Response * State :=
  let refused :=
    match target_route t with
    | Some r => if limited r then Some (govern req (limits st)) else None
    | None => None
    end in
  match refused with
  | Some (Some resp, g) => (Ret resp, mkServer (repo st) g (samples st))
  | Some (None, g) =>
    let '(r, s') := endpoint app env req t (repo st) in (r, mkServer s' g (samples st))
  | None =>
    let '(r, s') := endpoint app env req t (repo st) in (r, mkServer s' (limits st) (samples st))
  end.

(** [track_http_metrics]: the matched pattern, or the path itself when nothing matched. *)
Definition route_label (req : Request) (t : target) : bytes :=
  match target_route t with
  | Some r => pattern r
  | None => default (path req) (fst <$> swagger req)
  end.

Definition track_http_metrics (req : Request) (t : target)
    (next : State → exec Response * State) (st : State) : exec Response * State :=
  let route := route_label req t in
  let m := method_str (method req) in
  match next st with
  | (Ret resp, st') =>
    (Ret resp, mkServer (repo st') (limits st')
       (samples st' ++ [http_requests_total route m (status resp); http_request_duration_seconds route m]))
  | (Panic, st') => (Panic, st')
  end.

(** A request through all layers; a panic drops the connection. *)
Definition handle (opts : RouterOptions) (app : AppState) (env : Env) (req : Request) (st : State)
    : exec Response * State :=
  match cors_preflight req with
  | Some resp => (Ret resp, st)
  | None =>
    let t := dispatch (build_router opts) (method req) (path req) in
    track_http_metrics req t (governed app env req t) st
  end.

(** The dedicated scrape listener ([build_metrics_router]) has one route. *)
Definition handle_scrape (req : Request) : Response :=
  finish_head (method req)
    match dispatch metrics_routes (method req) (path req) with
    | ToHandler _ _ _ _ =>
      mkResponse 200 (Raw (bs "text/plain; version=0.0.4; charset=utf-8") render_metrics)
    | ToMethodNotAllowed _ => method_not_allowed_fallback
    | ToNothing => default_fallback
    end.

(** A sequence of requests, one after the other. *)
Fixpoint handle_all (opts : RouterOptions) (app : AppState) (reqs : list (Env * Request)) (st : State)
    : list (exec Response) * State :=
  match reqs with
  | [] => ([], st)
  | (env, req) :: reqs' =>
    let '(r, st1) := handle opts app env req st in
    let '(rs, st2) := handle_all opts app reqs' st1 in
    (r :: rs, st2)
  end.

End Server.

End Server.
