(* ===== verification/Routing.v ===== *)
(** * Routing

    The route table of the server is unambiguous, so that the framework's choice is determined
    by the documented matching rules alone; the table as a function of method and path. *)

From Stdlib Require Import Strings.Byte.
From S2P Require Import Prelude RustStd TimeLib Domain Counter Ports Codec Auth KeyService HttpBase Serde HttpRoutes HttpBuckets Router.
Import Http Router Server.

(** ** Patterns that exclude each other *)

Definition compatible (p q : bytes) : bool :=
  match is_param p, is_param q with
  | true, true => true
  | true, false => negb (bool_decide (q = []))
  | false, true => negb (bool_decide (p = []))
  | false, false => bool_decide (p = q)
  end.

Fixpoint overlap (ps qs : list bytes) : bool :=
  match ps, qs with
  | [], [] => true
  | p :: ps', q :: qs' => compatible p q && overlap ps' qs'
  | _, _ => false
  end.

Lemma overlap_both ps qs segs :
  is_Some (segs_match ps segs) → is_Some (segs_match qs segs) → overlap ps qs = true.
Proof.
  revert qs segs. induction ps as [|p ps IH]; intros [|q qs] [|x segs]; simpl;
    try solve [by intros [? ?] [? ?]]. unfold compatible. intros Hp Hq.
  destruct (is_param p) eqn:Ep, (is_param q) eqn:Eq; repeat case_bool_decide; subst; simpl in *;
    try (by destruct Hp); try (by destruct Hq); try done;
    (apply (IH qs segs); [try (by apply fmap_is_Some in Hp); done|try (by apply fmap_is_Some in Hq); done]).
Qed.

Definition pattern_segs (r : Route) : list bytes := split "/"%byte (pattern r).

Fixpoint disjoint_table (table : list Route) : bool :=
  match table with
  | [] => true
  | r :: table' =>
    forallb (λ r', negb (overlap (pattern_segs r) (pattern_segs r'))
                   && negb (overlap (pattern_segs r') (pattern_segs r))) table'
    && disjoint_table table'
  end.

Lemma disjoint_match table r r' p :
  disjoint_table table = true → r ∈ table → r' ∈ table →
  is_Some (matches (pattern r) p) → is_Some (matches (pattern r') p) → r = r'.
Proof.
  intros Hd Hr Hr' Hm Hm'. induction table as [|r0 table IH]; [by apply not_elem_of_nil in Hr|].
  simpl in Hd. apply andb_prop in Hd as [H1 H2]. rewrite forallb_forall in H1.
  assert (∀ q, q ∈ table → negb (overlap (pattern_segs r0) (pattern_segs q))
    && negb (overlap (pattern_segs q) (pattern_segs r0)) = true) as Hall.
  { intros q Hq. apply H1. by apply list_elem_of_In. }
  apply elem_of_cons in Hr as [->|Hr], Hr' as [->|Hr']; auto.
  - specialize (Hall r' Hr'). apply andb_prop in Hall as [Ho _].
    by rewrite (overlap_both (pattern_segs _) (pattern_segs _) _ Hm Hm') in Ho.
  - specialize (Hall r Hr). apply andb_prop in Hall as [_ Ho].
    by rewrite (overlap_both (pattern_segs _) (pattern_segs _) _ Hm Hm') in Ho.
Qed.

(** The handler a route's methods select. *)
Definition select (ms : list (Method * handler_id)) (m : Method) : option (Method * handler_id) :=
  match assoc_method ms m with
  | Some h => Some (m, h)
  | None =>
    if bool_decide (m = HEAD)
    then match assoc_method ms GET with Some h => Some (GET, h) | None => None end
    else None
  end.

Definition serve_route (r : Route) (m : Method) (caps : list bytes) : target :=
  match select (methods r) m with
  | Some (m', h) => ToHandler r m' h caps
  | None => ToMethodNotAllowed r
  end.

Lemma assoc_method_Some ms m h : assoc_method ms m = Some h → m ∈ fst <$> ms.
Proof.
  unfold assoc_method. destruct (list_find _ ms) as [[i x]|] eqn:E; [|done]. intros _.
  apply list_find_Some in E as (Hi & <- & _). apply list_elem_of_fmap_2. by eapply list_elem_of_lookup_2.
Qed.

Lemma assoc_method_None ms m : assoc_method ms m = None → m ∉ fst <$> ms.
Proof.
  unfold assoc_method. destruct (list_find _ ms) eqn:E; [done|]. intros _ Hin.
  apply list_elem_of_fmap in Hin as (x & -> & Hx). apply list_find_None in E.
  rewrite list.Forall_forall in E. by apply (E x Hx).
Qed.

Section Dispatch.
Context {JV : JsonValueOps} {W : WireOps} {AX : AxumOps} {AL : AxumLaws AX}.

Lemma pick_select ms m :
  match pick_method (fst <$> ms) m with
  | None => None
  | Some m' => pair m' <$> assoc_method ms m'
  end = select ms m.
Proof.
  unfold select. destruct (assoc_method ms m) as [h|] eqn:Em.
  - rewrite pick_exact by by eapply assoc_method_Some. by rewrite Em.
  - apply assoc_method_None in Em as Hm. case_bool_decide as Hh; [subst|by rewrite pick_none].
    destruct (assoc_method ms GET) as [h|] eqn:Eg.
    + rewrite pick_head; [by rewrite Eg|done|by eapply assoc_method_Some].
    + rewrite pick_none; [done|done|]. intros _. by apply assoc_method_None.
Qed.

Lemma dispatch_found table r m p caps :
  disjoint_table table = true → r ∈ table → matches (pattern r) p = Some caps →
  dispatch table m p = serve_route r m caps.
Proof.
  intros Hd Hr Hm. unfold dispatch.
  destruct (match_complete (pattern <$> table) p (pattern r)) as [[q caps'] Hq];
    [by apply list_elem_of_fmap_2|by eexists|]. rewrite Hq.
  apply match_sound in Hq as [Hin Hq]. apply list_elem_of_fmap in Hin as (r' & -> & Hr').
  assert (r' = r) as -> by (eapply disjoint_match; eauto). rewrite Hm in Hq. injection Hq as <-.
  unfold find_route. destruct (list_find _ table) as [[i r2]|] eqn:Ef.
  2: { apply list_find_None in Ef. rewrite list.Forall_forall in Ef. by destruct (Ef r Hr). }
  apply list_find_Some in Ef as (Hi & Hp & _). apply list_elem_of_lookup_2 in Hi. simpl.
  assert (r2 = r) as -> by (eapply disjoint_match; eauto; by rewrite Hp, Hm).
  unfold serve_route. rewrite <- pick_select. destruct (pick_method _ m) as [m'|]; [|done].
  by destruct (assoc_method (methods r) m').
Qed.

Lemma dispatch_none table m p :
  Forall (λ r, matches (pattern r) p = None) table → dispatch table m p = ToNothing.
Proof.
  intros Hall. unfold dispatch. destruct (match_route _ p) as [[q caps]|] eqn:Hq; [|done].
  apply match_sound in Hq as [Hin Hq]. apply list_elem_of_fmap in Hin as (r & -> & Hr).
  rewrite list.Forall_forall in Hall. by rewrite Hall in Hq.
Qed.

(** ** The table of the server *)

Definition key_methods : list (Method * handler_id) :=
  [(GET, GetKey); (HEAD, HeadKey); (POST, PutKey); (PUT, PutKey); (DELETE, DeleteKey);
   (PATCH, PatchKey)].
Definition bucket_methods : list (Method * handler_id) :=
  [(GET, GetBucketPolicy); (HEAD, HeadBucket); (POST, ExecuteTxn); (PATCH, UpdatePolicy);
   (DELETE, DeleteBucket)].

Definition server_table (opts : RouterOptions) : list Route :=
  let lim := enabled (rate_limit opts) in
  ops_routes opts
  ++ [mkRoute (bs "/api/v1/") [(POST, CreateBucket)] lim;
      mkRoute (bs "/api/v1") [(POST, CreateBucket)] lim;
      mkRoute (bs "/api/v1/{bucket}/tokens/") [(POST, CreateToken)] lim;
      mkRoute (bs "/api/v1/{bucket}/{key}") key_methods lim;
      mkRoute (bs "/api/v1/{bucket}/") [(GET, ListBucket); (DELETE, DeleteBucket)] lim;
      mkRoute (bs "/api/v1/{bucket}") bucket_methods lim].

Lemma build_router_table opts : build_router opts = server_table opts.
Proof.
  unfold build_router, server_table. f_equal. simpl. f_equal. unfold nested. simpl.
  rewrite nest_root. by rewrite !nest_sub.
Qed.

Lemma server_table_disjoint opts : disjoint_table (server_table opts) = true.
Proof. destruct opts as [[] [[] n]]; vm_refl. Qed.

(** The route of a path by its segments, with what its parameters capture. *)
Definition api_route (lim : bool) (rest : list bytes) : option (Route * list bytes) :=
  match rest with
  | [] => Some (mkRoute (bs "/api/v1") [(POST, CreateBucket)] lim, [])
  | [b] =>
    if bool_decide (b = []) then Some (mkRoute (bs "/api/v1/") [(POST, CreateBucket)] lim, [])
    else Some (mkRoute (bs "/api/v1/{bucket}") bucket_methods lim, [b])
  | [b; k] =>
    if bool_decide (b = []) then None
    else if bool_decide (k = [])
    then Some (mkRoute (bs "/api/v1/{bucket}/") [(GET, ListBucket); (DELETE, DeleteBucket)] lim, [b])
    else Some (mkRoute (bs "/api/v1/{bucket}/{key}") key_methods lim, [b; k])
  | [b; t; z] =>
    if bool_decide (b ≠ [] ∧ t = bs "tokens" ∧ z = [])
    then Some (mkRoute (bs "/api/v1/{bucket}/tokens/") [(POST, CreateToken)] lim, [b])
    else None
  | _ => None
  end.

Definition spec_route (opts : RouterOptions) (segs : list bytes) : option (Route * list bytes) :=
  match segs with
  | [e; page] =>
    if negb (bool_decide (e = [])) then None
    else if bool_decide (page = bs "health")
    then Some (mkRoute (bs "/health") [(GET, HealthCheck)] false, [])
    else if bool_decide (page = bs "ready")
    then Some (mkRoute (bs "/ready") [(GET, ReadinessCheck)] false, [])
    else if bool_decide (page = bs "metrics") && expose_metrics opts
    then Some (mkRoute (bs "/metrics") [(GET, Metrics)] false, [])
    else None
  | e :: a :: v :: rest =>
    if bool_decide (e = [] ∧ a = bs "api" ∧ v = bs "v1")
    then api_route (enabled (rate_limit opts)) rest
    else None
  | _ => None
  end.

(** Patterns are matched by evaluation on their literals and case analysis on the segments. *)
Ltac eval_patterns :=
  repeat match goal with
  | |- context [split ?c (bs ?p)] =>
    let l := eval vm_compute in (split c (bs p)) in change (split c (bs p)) with l
  end.

Ltac eval_params :=
  cbn [segs_match];
  repeat match goal with
  | |- context [is_param ?l] =>
    let b := eval vm_compute in (is_param l) in change (is_param l) with b; cbn [segs_match]
  end.

Ltac seg_cases :=
  repeat (case_bool_decide; subst; try done);
  exfalso; match goal with H : ¬ _ |- _ => by apply H end.

Lemma spec_route_match opts p :
  match spec_route opts (split "/"%byte p) with
  | Some (r, caps) => r ∈ server_table opts ∧ matches (pattern r) p = Some caps
  | None => Forall (λ r, matches (pattern r) p = None) (server_table opts)
  end.
Proof.
  unfold matches. generalize (split "/"%byte p). intros segs. destruct opts as [ex [lim n]].
  unfold server_table, ops_routes, metrics_routes. cbn [enabled rate_limit expose_metrics].
  destruct segs as [|s0 [|s1 [|s2 [|s3 [|s4 [|s5 [|s6 segs]]]]]]];
    cbn [spec_route api_route enabled rate_limit expose_metrics].
  all: repeat (case_bool_decide; destruct_and?; subst; cbn [negb andb]); try destruct ex; cbn [app andb].
  all: try (split; [set_solver|]); repeat (apply list.Forall_cons; split); try apply list.Forall_nil_2.
  all: cbn [pattern]; eval_patterns; eval_params.
  all: try done; seg_cases.
Qed.

Lemma dispatch_spec opts m p :
  dispatch (build_router opts) m p
  = match spec_route opts (split "/"%byte p) with
    | Some (r, caps) => serve_route r m caps
    | None => ToNothing
    end.
Proof.
  rewrite build_router_table. pose proof (spec_route_match opts p) as Hs.
  destruct (spec_route opts _) as [[r caps]|]; [|by apply dispatch_none].
  destruct Hs as [Hr Hm]. apply dispatch_found; [apply server_table_disjoint|done..].
Qed.

(** The operations a table serves. *)
Definition served (table : list Route) : list (bytes * handler_id) :=
  table ≫= λ r, (λ mh, (pattern r, mh.2)) <$> methods r.

(** The API documentation describes the API. Whatever the options, the operations of the OpenAPI
    document, at the paths it rewrites them to, are exactly the operations the router serves, with
    two exceptions it leaves out: the metrics page and the alias of bucket creation with a
    trailing slash. *)
Theorem documentation_complete opts path h :
  (path, h) ∈ openapi
  ↔ (path, h) ∈ served (build_router opts) ∧ h ≠ Metrics ∧ path ≠ API_PREFIX ++ bs "/".
Proof.
  rewrite build_router_table.
  assert (Forall (λ op, op ∈ served (server_table opts) ∧ op.2 ≠ Metrics ∧ op.1 ≠ API_PREFIX ++ bs "/")
    openapi) as H1.
  { destruct opts as [[] [[] n]]; apply (bool_decide_eq_true_1 _); vm_refl. }
  assert (Forall (λ op, op.2 ≠ Metrics → op.1 ≠ API_PREFIX ++ bs "/" → op ∈ openapi)
    (served (server_table opts))) as H2.
  { destruct opts as [[] [[] n]]; apply (bool_decide_eq_true_1 _); vm_refl. }
  rewrite list.Forall_forall in H1, H2. split; [apply H1|]. intros (Hs & Hm & Hp). by apply H2.
Qed.

End Dispatch.

(** ** Requests *)

Section Requests.
Context {T : TimeOps} {JS : JsonOps} {JV : JsonValueOps} {W : WireOps} {C : CryptoOps}
        {K : TokenOps} {AX : AxumOps} {AL : AxumLaws AX}.
Context {S : Type} {BR : BucketRepository S} {KR : KeyRepository S}.

(** The limiter lets the request through to the route. *)
Definition admitted (req : Request) (r : Route) (st : State (S := S)) : Prop :=
  limited r = true → (govern req (limits st)).1 = None.

Lemma governed_admitted app env req t st :
  (∀ r, target_route t = Some r → admitted req r st) →
  (governed app env req t st).1 = (endpoint app env req t (repo st)).1.
Proof.
  intros Ha. unfold governed. destruct (endpoint app env req t (repo st)) as [r s'].
  destruct (target_route t) as [rt|]; [|done]. specialize (Ha rt eq_refl). unfold admitted in Ha.
  destruct (limited rt); [|done]. by destruct (govern req (limits st)) as [[resp|] g]; [specialize (Ha eq_refl)|].
Qed.

(** C19: Requests are routed exactly. Whatever the framework does beyond the documented matching
    rules, the path and method of a request determine the handler: [/health], [/ready] and, when
    exposed, [/metrics]; below [/api/v1] nothing or a lone slash creates a bucket, a bucket
    segment addresses the bucket, a trailing slash its listing, a second segment a key, and
    [tokens/] the token endpoint; the methods are those of the matched route, and a [HEAD] falls
    back to [GET]. A request that is not a CORS preflight and that the limiter admits is answered
    by that handler ([HEAD] without the body), with 405 if the route does not serve its method, and
    on every other path by the documentation pages where they match and with 404 where they do
    not. *)
Theorem routing_exact (opts : RouterOptions) (app : AppState) (env : Env) (req : Request)
    (st : State (S := S)) :
  let t := match spec_route opts (split "/"%byte (path req)) with
           | Some (r, caps) => serve_route r (method req) caps
           | None => ToNothing
           end in
  dispatch (build_router opts) (method req) (path req) = t
  ∧ (cors_preflight req = None → (∀ r, target_route t = Some r → admitted req r st) →
     let answer := (handle opts app env req st).1 in
     match t with
     | ToHandler _ _ h caps =>
       answer = match into_response (run_handler app env req h caps (repo st)).1 with
                | Ret resp => Ret (finish_head (method req) resp)
                | Panic => Panic
                end
     | ToMethodNotAllowed _ => ∃ resp, answer = Ret resp ∧ status resp = 405%N
     | ToNothing =>
       match swagger req with
       | Some (_, page) => answer = Ret (finish_head (method req) page)
       | None => ∃ resp, answer = Ret resp ∧ status resp = 404%N
       end
     end).
Proof.
  intros t. split; [apply dispatch_spec|]. intros Hc Ha answer.
  assert (answer = (endpoint app env req t (repo st)).1) as ->.
  { unfold answer, handle. rewrite Hc, dispatch_spec. fold t. rewrite <- (governed_admitted _ _ _ _ _ Ha).
    unfold track_http_metrics. by destruct (governed app env req t st) as [[resp|] st']. }
  assert (∀ m resp, status (finish_head m resp) = status resp) as Hst
    by (intros m resp; unfold finish_head; by case_bool_decide).
  unfold endpoint. destruct t as [r m h caps|r|].
  - by destruct (run_handler app env req h caps (repo st)) as [r' s'].
  - eexists. split; [done|]. by rewrite Hst.
  - destruct (swagger req) as [[pat page]|]; [done|]. eexists. split; [done|]. by rewrite Hst.
Qed.

End Requests.

(** ** An instance of the framework, for examples *)

Definition pct_digit (b : byte) : option Z :=
  let z := byte_Z b in
  if (48 <=? z) && (z <=? 57) then Some (z - 48)
  else if (65 <=? z) && (z <=? 70) then Some (z - 55)
  else if (97 <=? z) && (z <=? 102) then Some (z - 87)
  else None.

(** Percent decoding: an escape that is not two hexadecimal digits stands for itself. *)
Fixpoint pct_decode (l : bytes) : bytes :=
  match l with
  | "%"%byte :: ((a :: ((b :: r) as l2)) as l1) =>
    match pct_digit a, pct_digit b with
    | Some x, Some y => byte_of_Z (16 * x + y) :: pct_decode r
    | _, _ => "%"%byte :: pct_decode l1
    end
  | c :: r => c :: pct_decode r
  | [] => []
  end.

Definition pct_wire : WireOps := {|
  percent_decode := pct_decode;
  b64std_decode := hex_decode;
  header_to_str l := Some l;
|}.

Definition first_match (ps : list bytes) (p : bytes) : option (bytes * list bytes) :=
  list_find (λ q, is_Some (matches q p)) ps ≫= λ x, pair x.2 <$> matches x.2 p.

Definition toy_pick (ms : list Method) (m : Method) : option Method :=
  if bool_decide (m ∈ ms) then Some m
  else if bool_decide (m = HEAD ∧ GET ∈ ms) then Some GET else None.

(** A limiter with one shared budget; the documentation pages are not served. The readers of the
    bodies are arguments. *)
Definition axum_with (W : WireOps) (create_form : Headers → bytes → result Buckets.CreateBucketForm Response)
    (token_form : Headers → bytes → result TokensRoute.CreateTokenForm Response)
    (tree : bytes → option json) : AxumOps (JV := toy_json) := {|
  match_route := first_match;
  nest_path pre p := if bool_decide (p = bs "/") then pre else pre ++ p;
  pick_method := toy_pick;
  extract_path caps :=
    if forallb (λ c, Utf8.from_utf8 (percent_decode c)) caps
    then Ok (percent_decode <$> caps) else Err bad_request;
  extract_ttl q := match q with None => Ok None | Some _ => Err bad_request end;
  extract_list_params q :=
    match q with
    | None => Ok (Buckets.mkListParams None None None None None None)
    | Some _ => Err bad_request
    end;
  extract_create_form := create_form;
  extract_token_form := token_form;
  extract_bytes b := Ok b;
  json_tree := tree;
  swagger _ := None;
  cors_preflight r := if bool_decide (method r = OPTIONS) then Some (mkResponse 200 NoBody) else None;
  limiter := nat;
  govern _ g := match g with S g' => (None, g') | 0%nat => (Some (json_error 429 []), 0%nat) end;
  render_metrics := [];
|}.

Definition toy_axum (W : WireOps) : AxumOps (JV := toy_json) :=
  axum_with W (λ _ b, Ok (Buckets.mkCreateForm b None None None None None))
    (λ _ b, Ok (TokensRoute.mkTokenForm b (bs "read") 60))
    (λ b, match b with
          | [] => None
          | "{"%byte :: _ => Some (JObj [])
          | _ => Some (JObj [(bs "txn", JArr [JObj [(bs "set", JStr b); (bs "value", JStr b)]])])
          end).

Lemma axum_with_laws W create_form token_form tree :
  (∀ h b f t, create_form h b = Ok f → Buckets.f_default_ttl f = Some t → (t <= Usize.usize_max)%N) →
  AxumLaws (axum_with W create_form token_form tree).
Proof.
  intros Hcf. split; simpl.
  - unfold first_match. intros ps p q caps Hq.
    destruct (list_find _ ps) as [[i x]|] eqn:E; [|done]. simpl in Hq.
    apply list_find_Some in E as (Hi & _ & _). destruct (matches x p) eqn:Em; [|done].
    injection Hq as <- <-. split; [by eapply list_elem_of_lookup_2|done].
  - unfold first_match. intros ps p q Hin Hs.
    destruct (list_find_elem_of (λ q, is_Some (matches q p)) ps q Hin Hs) as [[i x] Hx].
    rewrite Hx. simpl. apply list_find_Some in Hx as (_ & [c ->] & _). by eexists.
  - intros pre. done.
  - intros pre p Hp. by rewrite bool_decide_eq_false_2.
  - intros ms m Hm. unfold toy_pick. by rewrite bool_decide_eq_true_2.
  - intros ms Hh Hg. unfold toy_pick. rewrite bool_decide_eq_false_2 by done.
    by rewrite bool_decide_eq_true_2.
  - intros ms m Hm Hg. unfold toy_pick. rewrite bool_decide_eq_false_2 by done.
    rewrite bool_decide_eq_false_2; [done|]. intros [-> Hx]. by apply Hg.
  - intros caps Hall. destruct (forallb _ caps) eqn:E; [done|].
    rewrite <- not_true_iff_false, forallb_forall in E. destruct E. intros c Hc.
    apply Hall. by apply list_elem_of_In.
  - intros caps c Hc Hu. destruct (forallb _ caps) eqn:E; [|by eexists].
    rewrite forallb_forall in E. rewrite E in Hu; [done|]. by apply list_elem_of_In.
  - exact Hcf.
  - intros r resp. case_bool_decide; [done|done].
Qed.

Lemma toy_axum_laws W : AxumLaws (toy_axum W).
Proof.
  apply axum_with_laws. by intros h b f t [= <-].
Qed.

Lemma routing_table_example :
  @dispatch toy_json (toy_axum toy_wire) (@build_router toy_json (toy_axum toy_wire) default_options)
    HEAD (bs "/api/v1/b/k")
  = ToHandler (mkRoute (bs "/api/v1/{bucket}/{key}") key_methods false) HEAD HeadKey [bs "b"; bs "k"].
Proof. vm_refl. Qed.

Lemma documentation_complete_witness :
  (bs "/api/v1/{bucket}/tokens/", CreateToken)
    ∈ served (@build_router toy_json (toy_axum toy_wire) default_options).
Proof.
  apply (@documentation_complete toy_json toy_wire (toy_axum toy_wire) (toy_axum_laws toy_wire)
    default_options (bs "/api/v1/{bucket}/tokens/") CreateToken).
  apply (bool_decide_eq_true_1 _). vm_refl.
Defined.
