(* ===== verification/ServerProps.v ===== *)
(** * Properties of the server

    End-to-end theorems about requests, from the bytes of the request to the contents of the
    store: what a request may change and on whose authority, isolation of buckets over histories
    of requests, the counting of requests, and which key a path addresses. *)

From Stdlib Require Import Strings.Byte.
From S2P Require Import Prelude RustStd TimeLib Domain Counter Ports Codec FjallLib Locks Store StoreSpec StoreList StoreRepo StoreProps KeyService KeyProps Auth HttpBase HttpRoutes HttpBuckets HttpProps HttpListing Effects Router Routing.
Import Http Router Server.

Section Server.
Context {T : TimeOps} {P : PostcardOps} {J : PolicyJsonOps} {F : FjallOps} {H : HasherOps}
        {L : LayoutOps} {JS : JsonOps} {JV : JsonValueOps} {W : WireOps} {C : CryptoOps}
        {K : TokenOps} {AX : AxumOps}.
Context {TL : TimeLaws T} {PL : PostcardLaws P} {JL : PolicyJsonLaws J} {FL : FjallLaws F}
        {LL : LayoutLaws L} {CL : CryptoLaws C} {AL : AxumLaws AX}.

Abbreviation store := Store.FjallStore.

(** ** Authority *)

(** The request addresses bucket [b], whose policy is [p], and its credential resolves to [who]. *)
Definition caller (app : AppState) (env : Env) (req : Request)
    (pol : BucketId → option BucketPolicy) (b : BucketId) (p : BucketPolicy)
    (who : Auth.ResolvedIdentity) : Prop :=
  bucket_id_from_path (uri_path (parts_of req)) = Ok b
  ∧ pol b = Some p
  ∧ Auth.resolve (Http.as_str <$> extract (req_headers req) (query req)) p b (root_key app)
      (clock env 0%nat) = Ok who.

(** The key a request for a single key addresses. *)
Definition addressed (caps : list bytes) (k : Key) : Prop :=
  ∃ b raw, extract_path caps = Ok [b; raw] ∧ parse_percent_encoded_key raw = Ok k.

(** The key an item of a transaction names. *)
Definition item_names (k : Key) (item : Txn.TxnItem) : Prop :=
  match item with
  | Txn.ItemSet raw _ _ | Txn.ItemDelete raw => parse_percent_encoded_key raw = Ok k
  end.

(** The item names a key on which the caller holds the permission of that very item: write for a
    set, delete for a delete. *)
Definition item_granted (p : BucketPolicy) (who : Auth.ResolvedIdentity) (item : Txn.TxnItem) : Prop :=
  ∃ k, item_names k item ∧
    match item with
    | Txn.ItemSet _ _ _ => Permission.write (granted p who k) = true
    | Txn.ItemDelete _ => Permission.delete (granted p who k) = true
    end.

(** The items of the transaction in the body of a request. *)
Definition requested_items (req : Request) (items : list Txn.TxnItem) : Prop :=
  ∃ body, extract_bytes (req_body req) = Ok body ∧ parse_txn body = Some items.

(** The entries a request may change. A transaction changes an entry only if one of its items
    names it, and only if every one of its items is granted. *)
Definition data_authority (app : AppState) (env : Env) (req : Request)
    (pol : BucketId → option BucketPolicy) (h : handler_id) (caps : list bytes)
    (b : BucketId) (k : Key) : Prop :=
  ∃ p who, caller app env req pol b p who ∧
    match h with
    | PutKey | PatchKey => addressed caps k ∧ Permission.write (granted p who k) = true
    | DeleteKey => addressed caps k ∧ Permission.delete (granted p who k) = true
    | ExecuteTxn =>
      ∃ items, requested_items req items ∧ Exists (item_names k) items
        ∧ Forall (item_granted p who) items
    | _ => False
    end.

(** The policies a request may change. *)
Definition policy_authority (app : AppState) (env : Env) (req : Request)
    (pol : BucketId → option BucketPolicy) (h : handler_id) (b : BucketId) : Prop :=
  match h with
  | CreateBucket => b = mkBucketId (uuid env)
  | UpdatePolicy | DeleteBucket => ∃ p, caller app env req pol b p Auth.Admin
  | _ => False
  end.

(** What the extractor establishes. *)
Definition authenticated (app : AppState) (env : Env) (req : Request)
    (pol : BucketId → option BucketPolicy) (a : BucketAuth) : Prop :=
  ∃ p, caller app env req pol (bucket_id a) p (identity a) ∧ stored_ok (bucket_id a) p ∧ auth_of a p.

(** The text of a fresh UUID. *)
Definition uuid_ok (env : Env) : Prop := uuid env ≠ [] ∧ ":"%byte ∉ uuid env.

(** ** Policies that are written are storable *)

(** A patch keeps the policy storable. *)
Lemma patched_stored b p patch rk p' audit :
  stored_ok b p → Buckets.apply_policy_patch p patch rk = Ok (p', audit) →
  (∀ t, Buckets.p_default_ttl patch = Some (Some t) → (t <= Usize.usize_max)%N) →
  stored_ok b (Buckets.with_anonymous_access p' (Buckets.recompute_anonymous_access p')).
Proof.
  intros (Hb & [Hg Ht] & _) Hp Hu. split; [done|]. split; [|done].
  unfold Buckets.apply_policy_patch in Hp. res_inv Hp. res_inv Hp. res_inv Hp. res_inv Hp.
  destruct v2 as [[[key g] changed] cleared]. injection Hp as <- _.
  apply patch_signing_ok in E2 as (_ & -> & _). split; simpl.
  - destruct changed; [|done]. pose proof (N.mod_upper_bound (signing_key_generation p + 1) (2 ^ 64)).
    unfold Usize.usize_max. lia.
  - destruct (Buckets.p_default_ttl patch) as [[t|]|]; [by apply Hu|done|done].
Qed.

Lemma new_policy_stored rk b form p :
  Layout.bucket_ok b → Buckets.new_policy rk form = Ok p →
  (∀ t, Buckets.f_default_ttl form = Some t → (t <= Usize.usize_max)%N) → stored_ok b p.
Proof.
  intros Hb Hp Hu. destruct (new_policy_ok rk form) as (q & Hq & Hc & Hg & Ht & _).
  rewrite Hq in Hp. injection Hp as <-. split; [done|]. split; [|done]. split; [by rewrite Hg|].
  rewrite Ht. destruct (Buckets.f_default_ttl form) as [t|] eqn:Ef; simpl; [by apply Hu|done].
Qed.

Section Handlers.
Context (app : AppState) (env : Env) (req : Request) (pol : BucketId → option BucketPolicy).

Abbreviation authed := (authenticated app env req pol).

Lemma safe_from_request_parts :
  safe False pol nowhere no_key
    (from_request_parts (clock env 0%nat) (root_key app) (parts_of req)) authed.
Proof.
  eapply safe_bind; [by apply (safe_lift _ _ _ _ _ (λ b, bucket_id_from_path (uri_path (parts_of req)) = Ok b));
    intros b Hb; destruct (bucket_id_from_path _); simplify_eq/=|].
  intros b Hb. eapply safe_bind; [apply safe_spawn, safe_get_policy|]. intros found [-> Hok].
  eapply safe_bind; [by apply (safe_lift _ _ _ _ _ (λ p, pol b = Some p)); intros p Hp;
    destruct (pol b); simplify_eq/=|].
  intros p Hp. eapply safe_bind; [apply (safe_lift _ _ _ _ _
    (λ who, Auth.resolve (Http.as_str <$> extract (req_headers req) (query req)) p b (root_key app)
      (clock env 0%nat) = Ok who))|].
  { intros who Hw. simpl in Hw. destruct (Auth.resolve _ p b _ _); simplify_eq/=. done. }
  intros who Hw. apply safe_ret. exists p. split; [done|]. split; [by apply Hok|done].
Qed.

Lemma safe_with_auth PB DB (f : BucketAuth → comp store Response Response) :
  (∀ a, authed a → safe False pol PB DB (f a) (λ _, True)) →
  safe False pol PB DB (with_auth app env req f) (λ _, True).
Proof. intros Hf. by eapply safe_bind; [apply safe_from_request_parts|]. Qed.

Lemma safe_with_key caps PB DB (f : bytes → comp store Response Response) :
  (∀ b raw, extract_path caps = Ok [b; raw] → safe False pol PB DB (f raw) (λ _, True)) →
  safe False pol PB DB (with_key caps f) (λ _, True).
Proof.
  intros Hf. eapply safe_bind; [by apply (safe_lift _ _ _ _ _ (λ ps, extract_path caps = Ok ps))|].
  intros [|b [|raw []]] Hps; try apply safe_err. by apply (Hf b).
Qed.

(** [?] on a pure result. *)
Lemma safe_pure {A B E} pn PB DB (r : result A E) (f : A → comp store B E) :
  (∀ a, r = Ok a → safe pn pol PB DB (f a) (λ _, True)) →
  safe pn pol PB DB (comp_bind (comp_lift r) f) (λ _, True).
Proof. intros Hf. by eapply safe_bind; [by apply (safe_lift _ _ _ _ _ (λ a, r = Ok a))|]. Qed.

(** A use case that ends a handler. *)
Lemma safe_finish {A} PB DB (m : comp store A UseCaseError) (f : A → comp store Response Response) g :
  safe True pol PB DB m (λ _, True) → (∀ a s, f a s = (Ret (g a), s)) →
  safe False pol PB DB (comp_bind (spawn_usecase m) f) (λ _, True).
Proof. intros Hm Hf. eapply safe_last; [by apply safe_spawn|done]. Qed.

(** ** Guards are authority *)

Lemma authed_ok a : authed a → Layout.bucket_ok (bucket_id a).
Proof. by intros (p & _ & (? & _) & _). Qed.

Lemma write_authority h caps a k :
  authed a → require_write_on a k = Ok tt → h = PutKey ∨ h = PatchKey → addressed caps k →
  data_authority app env req pol h caps (bucket_id a) k.
Proof.
  intros (p & Hc & (_ & _ & Hp) & Ha) Hw Hh Hk. exists p, (identity a). split; [done|].
  destruct (guards_granted a p k Hp Ha) as (_ & Hg & _). rewrite Hw in Hg.
  by destruct Hh as [-> | ->].
Qed.

Lemma delete_authority caps a k :
  authed a → require_delete_on a k = Ok tt → addressed caps k →
  data_authority app env req pol DeleteKey caps (bucket_id a) k.
Proof.
  intros (p & Hc & (_ & _ & Hp) & Ha) Hw Hk. exists p, (identity a). split; [done|].
  destruct (guards_granted a p k Hp Ha) as (_ & _ & Hg & _). by rewrite Hw in Hg.
Qed.

Lemma admin_authority h a :
  authed a → require_admin a = Ok tt → h = UpdatePolicy ∨ h = DeleteBucket →
  policy_authority app env req pol h (bucket_id a).
Proof.
  intros (p & Hc & _) Had Hh. unfold require_admin in Had.
  destruct (identity a) eqn:Hi; try done. destruct Hh as [-> | ->]; by exists p.
Qed.

(** ** The handlers *)

Lemma safe_put_key caps b raw now a ttl hs body :
  authed a → extract_path caps = Ok [b; raw] →
  safe False pol nowhere (data_authority app env req pol PutKey caps)
    (Keys.put_key now a raw ttl hs body) (λ _, True).
Proof.
  intros Ha Hx. apply safe_pure. intros k Hk. apply safe_pure. intros [] Hw.
  eapply (safe_finish _ _ _ _ Keys.stored_value_response); [|done].
  apply safe_pure. intros v Hv. apply safe_pure. intros e He.
  apply KeyService.infer_stored_value_ok in Hv as (Hv & _).
  eapply safe_last with (g := λ _, Ok v); [|done]. apply safe_set; [by apply authed_ok|done|].
  apply write_authority; [done..|by left|by exists b, raw].
Qed.

Lemma safe_patch_key caps b raw now now' a ttl body :
  authed a → extract_path caps = Ok [b; raw] →
  safe False pol nowhere (data_authority app env req pol PatchKey caps)
    (Keys.patch_key now now' a raw ttl body) (λ _, True).
Proof.
  intros Ha Hx. apply safe_pure. intros k Hk. apply safe_pure. intros [] Hw.
  apply safe_pure. intros o _. eapply (safe_finish _ _ _ _ Keys.stored_value_response); [|done].
  apply safe_pure. intros e He. apply safe_increment; [by apply authed_ok|].
  apply write_authority; [done..|by right|by exists b, raw].
Qed.

Lemma safe_delete_key caps b raw a :
  authed a → extract_path caps = Ok [b; raw] →
  safe False pol nowhere (data_authority app env req pol DeleteKey caps)
    (Keys.delete_key a raw) (λ _, True).
Proof.
  intros Ha Hx. apply safe_pure. intros k Hk. apply safe_pure. intros [] Hw.
  eapply (safe_finish _ _ _ _ (λ _, Ok _)); [|done].
  eapply safe_last with (g := λ existed : bool, if existed then Ok tt else Err NotFound);
    [|by intros []]. apply safe_delete; [by apply authed_ok|].
  apply delete_authority; [done..|by exists b, raw].
Qed.

Lemma safe_service_get now b k :
  safe True pol nowhere no_key (KeyService.get now b k) (λ _, True).
Proof.
  eapply safe_bind; [apply safe_get|]. intros o _. apply safe_pure. intros en _.
  destruct (expires_at en) as [exp|]; [destruct (odt_leb exp now)|];
    first [by apply safe_ret|apply safe_err].
Qed.

Lemma safe_get_key now a raw : safe False pol nowhere no_key (Keys.get_key now a raw) (λ _, True).
Proof.
  apply safe_pure. intros k _. apply safe_pure. intros [] _.
  eapply (safe_finish _ _ _ _ (λ en, Keys.stored_value_response (value en)));
    [apply safe_service_get|done].
Qed.

Lemma safe_head_key now a raw : safe False pol nowhere no_key (Keys.head_key now a raw) (λ _, True).
Proof.
  apply safe_pure. intros k _. apply safe_pure. intros [] _.
  eapply (safe_finish _ _ _ _ (λ en, Ok _)); [apply safe_service_get|done].
Qed.

(** Every operation of a transaction comes from an item that names its key and passed the guard
    of its kind. *)
Lemma txn_items_granted p clk a items ops :
  policy_consistent p → auth_of a p → Txn.txn_ops clk a items = Ok ops →
  Forall txn_ok ops ∧ Forall (item_granted p (identity a)) items
  ∧ ∀ k, k ∈ txn_key <$> ops → Exists (item_names k) items.
Proof.
  intros Hp Ha. revert clk ops. induction items as [|item items IH]; intros clk ops; cbn [Txn.txn_ops].
  { intros [= <-]. split; [done|]. split; [done|]. intros k Hk. by apply not_elem_of_nil in Hk. }
  intros Hr. res_inv Hr. res_inv Hr. injection Hr as <-. apply IH in E0 as (IH1 & IH2 & IH3).
  apply txn_op_ok in E as [Ho Hok].
  assert (item_names (txn_key v) item ∧ item_granted p (identity a) item) as [Hn Hg].
  { destruct item, v; try done; destruct Ho as [Hk Ho]; (split; [done|]); (eexists; split; [done|]);
      destruct (guards_granted a p key Hp Ha) as (_ & Hw & Hd & _).
    - by rewrite Hw in Ho; destruct Ho.
    - by rewrite Hd in Ho. }
  split; [by constructor|]. split; [by constructor|]. intros k.
  rewrite fmap_cons, elem_of_cons. intros [->|Hk]; [by left|right; by apply IH3].
Qed.

Lemma safe_execute_txn caps clk a body :
  authed a → extract_bytes (req_body req) = Ok body →
  safe False pol nowhere (data_authority app env req pol ExecuteTxn caps)
    (Txn.execute_txn clk a (parse_txn body)) (λ _, True).
Proof.
  intros Ha Hb. apply safe_pure. intros items Hi. case_bool_decide; [apply safe_err|].
  apply safe_pure. intros ops Hops.
  eapply (safe_finish _ _ _ _ (λ _, Ok _)); [|done].
  pose proof (authed_ok a Ha) as Hbk. destruct Ha as (p & Hc & (_ & _ & Hp) & Hof).
  apply (txn_items_granted p) in Hops as (H1 & H2 & H3); [|done..].
  apply safe_apply_batch; [done..|]. intros k Hk. exists p, (identity a).
  split; [done|]. exists items. split; [|by auto].
  exists body. split; [done|]. by destruct (parse_txn body); simplify_eq/=.
Qed.

Lemma safe_list_bucket now a params hs :
  safe False pol nowhere no_key (Buckets.list_bucket now a params hs) (λ _, True).
Proof.
  apply safe_pure. intros [] _. apply safe_pure. intros fmt _.
  destruct (Buckets.prefix_for_repo a params) as [pre|].
  - eapply safe_bind; [apply safe_spawn, safe_list|]. intros l _. apply safe_pure. intros body _.
    by apply safe_ret.
  - apply safe_pure. intros body _. by apply safe_ret.
Qed.

Lemma safe_get_bucket_policy a :
  safe False pol nowhere no_key (Buckets.get_bucket_policy a) (λ _, True).
Proof.
  apply safe_pure. intros [] _. eapply safe_bind; [apply safe_spawn, safe_get_policy|].
  intros o _. apply safe_pure. intros p _. by apply safe_ret.
Qed.

Lemma safe_create_token now a form :
  safe False pol nowhere no_key (TokensRoute.create_token now a form) (λ _, True).
Proof.
  apply safe_pure. intros [] _. eapply safe_bind; [apply safe_spawn, safe_get_policy|].
  intros o _. apply safe_pure. intros p _. apply safe_pure. intros key _.
  destruct (_ <=? 0); [apply safe_err|]. case_bool_decide; [apply safe_err|].
  apply safe_pure. intros e _. apply safe_pure. intros perms _. apply safe_pure. intros t _.
  by apply safe_ret.
Qed.

Lemma safe_delete_bucket_handler a :
  authed a →
  safe False pol (policy_authority app env req pol DeleteBucket) no_key
    (Buckets.delete_bucket a) (λ _, True).
Proof.
  intros Ha. apply safe_pure. intros [] Had. eapply (safe_finish _ _ _ _ (λ _, Ok _)); [|done].
  apply safe_delete_bucket, admin_authority; auto.
Qed.

Lemma safe_update_policy a body :
  authed a →
  safe False pol (policy_authority app env req pol UpdatePolicy) no_key
    (Buckets.update_policy (root_key app) a body (parse_patch body)) (λ _, True).
Proof.
  intros Ha. apply safe_pure. intros [] Had. apply safe_pure. intros patch Hpatch.
  eapply safe_bind; [apply safe_spawn, safe_get_policy|]. intros found [_ Hok].
  apply safe_pure. intros p Hp. apply safe_pure. intros [p' audit] Hx.
  eapply (safe_finish _ _ _ _ (λ _, Ok _)); [|done].
  apply safe_create_bucket; [|apply admin_authority; auto]. eapply patched_stored; [|exact Hx|].
  - apply Hok. by destruct found; simplify_eq/=.
  - intros t Ht. case_bool_decide; [by simplify_eq/=|].
    destruct (parse_patch body) as [q|] eqn:Eq; simplify_eq/=. by eapply patch_u64.
Qed.

Lemma safe_create_bucket_handler form :
  uuid_ok env → (∀ t, Buckets.f_default_ttl form = Some t → (t <= Usize.usize_max)%N) →
  safe False pol (policy_authority app env req pol CreateBucket) no_key
    (Buckets.create_bucket (root_key app) (uuid env) form) (λ _, True).
Proof.
  intros [Hne Hid] Hu. unfold Buckets.create_bucket. destruct (negb _); [apply safe_err|].
  apply safe_pure. intros p Hp. unfold Bucket.new. rewrite bool_decide_eq_false_2 by done.
  eapply (safe_finish _ _ _ _ (λ _, Ok _)); [|done].
  apply safe_create_bucket; [by eapply new_policy_stored|done].
Qed.

Lemma safe_readiness :
  safe False pol nowhere no_key
    (λ s, let '(resp, s') := Health.readiness_check (version app) s in
          (Ret (Ok (E := Response) resp), s')) (λ _, True).
Proof.
  intros s Hs _. unfold wp, Health.readiness_check. pose proof (spec_ping s) as Hp. unfold wp in Hp.
  assert (∀ s', applied s s' [] → sane s' ∧ within nowhere no_key s s') as Hq.
  { intros s' Ha. by apply (applied_safe nowhere no_key s s' []); [|apply writes_none|]. }
  simpl. destruct (Store.ping_metadata s) as [[[[]|e]|] s']; simpl in *; destruct (Hq s' Hp); done.
Qed.

(** The handlers that only read. *)
Definition read_only (h : handler_id) : bool :=
  match h with
  | CreateBucket | PutKey | DeleteKey | PatchKey | DeleteBucket | ExecuteTxn | UpdatePolicy => false
  | _ => true
  end.

Lemma safe_read_only h caps :
  read_only h = true → safe False pol nowhere no_key (run_handler app env req h caps) (λ _, True).
Proof.
  intros Hr. destruct h; try done; simpl; clear Hr;
    try (apply safe_with_auth; intros a Ha); try (apply safe_with_key; intros b raw Hx);
    first [ by apply safe_ret | apply safe_readiness | apply safe_get_bucket_policy
          | apply safe_get_key | apply safe_head_key | apply safe_pure; intros [] _; by apply safe_ret
          | apply safe_pure; intros x Hx; first [apply safe_create_token|apply safe_list_bucket] ].
Qed.

(** Each handler stays within its authority. *)
Lemma safe_handler h caps :
  uuid_ok env →
  safe False pol (policy_authority app env req pol h) (data_authority app env req pol h caps)
    (run_handler app env req h caps) (λ _, True).
Proof.
  intros Hu. destruct (read_only h) eqn:Hr; [by eapply safe_mono; [apply safe_read_only|..]|].
  destruct h; try done; simpl.
  1: apply safe_pure; intros form Hf.
  2-7: apply safe_with_auth; intros a Ha.
  2-4: apply safe_with_key; intros b raw Hx.
  2,4: apply safe_pure; intros ttl _; apply safe_pure; intros body _.
  6,7: apply safe_pure; intros body Hbody.
  all: eapply safe_mono; [eauto using safe_create_bucket_handler, safe_put_key, safe_delete_key,
    safe_patch_key, safe_delete_bucket_handler, safe_execute_txn, safe_update_policy, create_form_u64
    |done..].
  Unshelve. all: exact caps.
Qed.

End Handlers.

(** ** Requests *)

(** What a request routed to [t] may change. *)
Definition authorized (app : AppState) (env : Env) (req : Request) (t : target) (s s' : store) : Prop :=
  match t with
  | ToHandler _ _ h caps =>
    within (policy_authority app env req (policy_view s) h)
           (data_authority app env req (policy_view s) h caps) s s'
  | ToMethodNotAllowed _ | ToNothing => within nowhere no_key s s'
  end.

Lemma endpoint_safe app env req t s r s' :
  sane s → uuid_ok env → endpoint app env req t s = (r, s') →
  sane s' ∧ authorized app env req t s s' ∧ ∃ resp, r = Ret resp.
Proof.
  intros Hs Hu. destruct t as [route served h caps|route|]; simpl; [|by intros [= <- <-]; eauto using within_refl..].
  pose proof (safe_handler app env req (policy_view s) h caps Hu s Hs (λ _, eq_refl)) as Hh.
  destruct (run_handler app env req h caps s) as [r1 s1] eqn:Er. intros [= <- <-].
  apply (wp_elim _ _ _ _ _ Hh) in Er as (H1 & H2 & H3 & _). split; [done|]. split; [done|].
  destruct r1 as [[resp|resp]|]; simpl; eauto. by destruct H3.
Qed.

Lemma governed_safe app env req t st r st' :
  sane (repo st) → uuid_ok env → governed app env req t st = (r, st') →
  sane (repo st') ∧ authorized app env req t (repo st) (repo st') ∧ (∃ resp, r = Ret resp)
  ∧ samples st' = samples st.
Proof.
  intros Hs Hu. unfold governed. destruct (endpoint app env req t (repo st)) as [r1 s1] eqn:Ee.
  apply endpoint_safe in Ee as (H1 & H2 & H3); [|done..].
  assert (authorized app env req t (repo st) (repo st)) as Hrefl
    by (destruct t; apply within_refl).
  destruct (target_route t) as [rt|]; [destruct (limited rt)|];
    [destruct (govern req (limits st)) as [[resp|] g]|..]; intros [= <- <-]; simpl; eauto.
Qed.

Lemma handle_safe opts app env req st r st' :
  sane (repo st) → uuid_ok env → handle opts app env req st = (r, st') →
  sane (repo st')
  ∧ authorized app env req (dispatch (build_router opts) (method req) (path req)) (repo st) (repo st')
  ∧ ∃ resp, r = Ret resp
    ∧ samples st' = samples st ++
        match cors_preflight req with
        | Some _ => []
        | None =>
          let route := route_label req (dispatch (build_router opts) (method req) (path req)) in
          [http_requests_total route (method_str (method req)) (status resp);
           http_request_duration_seconds route (method_str (method req))]
        end.
Proof.
  intros Hs Hu. unfold handle, track_http_metrics. set (t := dispatch _ _ _).
  destruct (cors_preflight req) as [resp|] eqn:Ec.
  { intros [= <- <-]. split; [done|]. split; [destruct t; apply within_refl|].
    exists resp. by rewrite app_nil_r. }
  destruct (governed app env req t st) as [r1 st1] eqn:Eg.
  apply governed_safe in Eg as (H1 & H2 & [resp ->] & H3); [|done..].
  intros [= <- <-]. simpl. rewrite H3. eauto.
Qed.


(** C5: A request changes only what its caller may change. From any state the server can reach, with
    any backend failures on the way, a request is answered (no panic escapes) and leaves a state
    with the same invariants. An entry differs afterwards only if the path names its bucket, the
    credential resolves under the bucket's stored policy, and the path of a PUT, POST or PATCH
    names the key, on which the identity is granted write, or the path of a DELETE names it, with
    delete granted, or the request is a transaction, one of whose items names the key and each of
    whose items is granted: write on its key for a set, delete on its key for a delete. A policy
    differs only if the request created the bucket or came from its admin. Requests that match no
    route or no method change nothing. *)
Theorem requests_authorized (opts : RouterOptions) (app : AppState) (env : Env) (req : Request)
    (st st' : State) (r : exec Response) :
  sane (repo st) → uuid_ok env → handle opts app env req st = (r, st') →
  (∃ resp, r = Ret resp) ∧ sane (repo st')
  ∧ authorized app env req (dispatch (build_router opts) (method req) (path req)) (repo st) (repo st').
Proof.
  intros Hs Hu Hr. apply handle_safe in Hr as (H1 & H2 & resp & -> & _); [|done..]. eauto.
Qed.

(** ** Isolation *)

(** The request neither addresses nor creates the bucket. *)
Definition elsewhere (b : BucketId) (er : Env * Request) : Prop :=
  uuid_ok er.1 ∧ uuid er.1 ≠ Bucket.as_str b ∧ bucket_id_from_path (uri_path (parts_of er.2)) ≠ Ok b.

Lemma authorized_elsewhere app env req t s s' b :
  elsewhere b (env, req) → Layout.bucket_ok b → authorized app env req t s s' →
  policy_view s' b = policy_view s b ∧ ∀ k, view s' b k = view s b k.
Proof.
  intros (_ & Hn & Hp) Hb Ha. destruct t as [route served h caps|route|]; destruct Ha as (H1 & H2 & _).
  2,3: split; [by destruct (H1 b) as [|[]]|]; intros k; by destruct (H2 b k Hb) as [|[]].
  split.
  - destruct (H1 b) as [|Hx]; [done|]. destruct h; try done; simpl in *.
    + by subst b.
    + by destruct Hx as (p & [? _]).
    + by destruct Hx as (p & [? _]).
  - intros k. destruct (H2 b k Hb) as [|(p & who & [? _] & _)]; done.
Qed.

(** C6: Tenants are isolated, over whole histories. The invariants of the store and of the policies
    hold after any sequence of requests, whatever fails in between, every request is answered, and
    a bucket that no request of the sequence addresses or creates keeps its policy and every one
    of its entries. *)
Theorem buckets_isolated (opts : RouterOptions) (app : AppState) (reqs : list (Env * Request))
    (st st' : State) (rs : list (exec Response)) (b : BucketId) :
  sane (repo st) → Layout.bucket_ok b → Forall (elsewhere b) reqs →
  handle_all opts app reqs st = (rs, st') →
  sane (repo st') ∧ Forall (λ r, ∃ resp, r = Ret resp) rs
  ∧ policy_view (repo st') b = policy_view (repo st) b
  ∧ ∀ k, view (repo st') b k = view (repo st) b k.
Proof.
  intros Hs Hb Hall. revert st rs Hs. induction Hall as [|[env req] reqs He Hall IH]; intros st rs Hs.
  { intros [= <- <-]. split; [done|]. split; [constructor|done]. }
  simpl. destruct (handle opts app env req st) as [r st1] eqn:Eh.
  destruct (handle_all opts app reqs st1) as [rs1 st2] eqn:Ea. intros [= <- <-].
  apply handle_safe in Eh as (H1 & H2 & resp & -> & _); [|done|apply He].
  apply authorized_elsewhere with (b := b) in H2 as [H3 H4]; [|done..].
  destruct (IH _ _ H1 Ea) as (H5 & H6 & H7 & H8). split; [done|]. split; [by constructor; [eexists|]|].
  split; [by rewrite H7|]. intros k. by rewrite H8.
Qed.

(** ** Safe methods *)

Definition safe_method (m : Method) : bool :=
  match m with GET | HEAD | OPTIONS => true | _ => false end.

Definition safe_routes (table : list Route) : bool :=
  forallb (λ r, forallb (λ mh, negb (safe_method mh.1) || read_only mh.2) (methods r)) table.

Lemma assoc_method_In ms m h : assoc_method ms m = Some h → (m, h) ∈ ms.
Proof.
  unfold assoc_method. destruct (list_find _ ms) as [[i [m' h']]|] eqn:Ef; [|done]. intros [= <-].
  apply list_find_Some in Ef as (Hi & <- & _). by eapply list_elem_of_lookup_2.
Qed.

(** What serves a request is an entry of the table. *)
Lemma dispatch_entry table m p r m' h caps :
  dispatch table m p = ToHandler r m' h caps →
  r ∈ table ∧ (m', h) ∈ methods r ∧ (m' = m ∨ m = HEAD ∧ m' = GET).
Proof.
  unfold dispatch. destruct (match_route _ p) as [[q cs]|]; [|done].
  unfold find_route. destruct (list_find _ table) as [[i r0]|] eqn:Ef; [|done]. simpl.
  apply list_find_Some in Ef as (Hi & _ & _). apply list_elem_of_lookup_2 in Hi.
  pose proof (pick_select (methods r0) m) as Hp.
  destruct (pick_method _ m) as [m1|]; [|done]. destruct (assoc_method (methods r0) m1) as [h1|] eqn:Ea;
    [|done]. intros [= <- <- <- _]. split; [done|]. split; [by apply assoc_method_In|].
  simpl in Hp. unfold select in Hp. destruct (assoc_method _ m); [injection Hp as -> _; by left|].
  case_bool_decide as Hh; [|done]. destruct (assoc_method _ GET); [|done].
  injection Hp as -> _. by right.
Qed.

Lemma safe_dispatch opts m p r m' h caps :
  safe_method m = true → dispatch (build_router opts) m p = ToHandler r m' h caps →
  read_only h = true.
Proof.
  intros Hm Hd. apply dispatch_entry in Hd as (Hr & Hh & Hm').
  rewrite build_router_table in Hr.
  assert (safe_routes (server_table opts) = true) as Ht by (by destruct opts as [[] [[] n]]).
  unfold safe_routes in Ht. rewrite forallb_forall in Ht. apply list_elem_of_In, Ht in Hr.
  rewrite forallb_forall in Hr. apply list_elem_of_In, Hr in Hh. simpl in Hh.
  destruct Hm' as [->|[-> ->]]; [by rewrite Hm in Hh|done].
Qed.

(** C18: The safe methods are safe. [GET], [HEAD] and [OPTIONS] requests, on every path and with every
    outcome, change no policy and no entry of any bucket; only the clock of the limiter and the
    metrics may move. *)
Theorem safe_methods_change_nothing (opts : RouterOptions) (app : AppState) (env : Env)
    (req : Request) (st st' : State) (r : exec Response) :
  sane (repo st) → uuid_ok env → safe_method (method req) = true →
  handle opts app env req st = (r, st') →
  (∀ b, policy_view (repo st') b = policy_view (repo st) b)
  ∧ ∀ b k, Layout.bucket_ok b → view (repo st') b k = view (repo st) b k.
Proof.
  intros Hs Hu Hm Hr. apply handle_safe in Hr as (_ & Ha & _); [|done..].
  assert (within nowhere no_key (repo st) (repo st')) as (H1 & H2 & _).
  { destruct (dispatch _ _ _) as [rt m' h caps|rt|] eqn:Ed; [|done..].
    apply safe_dispatch in Ed; [|done]. destruct Ha as (H1 & H2 & H3). split; [|split].
    - intros b. destruct (H1 b) as [|Hx]; [by left|]. by destruct h.
    - intros b k Hb. destruct (H2 b k Hb) as [|(p & who & _ & Hx)]; [by left|]. by destruct h.
    - done. }
  split; [intros b; by destruct (H1 b) as [|[]]|]. intros b k Hb. by destruct (H2 b k Hb) as [|[]].
Qed.

(** ** Metrics *)

(** C20: Every request is counted once. Each request that is not a preflight adds exactly one
    [http_requests_total] sample and one duration sample, carrying its method and the status that
    was sent; the route label is the pattern of the route table that the path matches, whether or
    not the method is allowed there, and for a path outside the table and the documentation pages
    it is the path itself, so that such requests label the counter with text chosen by the
    client. *)
Theorem requests_counted (opts : RouterOptions) (app : AppState) (env : Env) (req : Request)
    (st st' : State) (r : exec Response) :
  sane (repo st) → uuid_ok env → cors_preflight req = None →
  handle opts app env req st = (r, st') →
  ∃ resp route, r = Ret resp
    ∧ samples st' = samples st
        ++ [http_requests_total route (method_str (method req)) (status resp);
            http_request_duration_seconds route (method_str (method req))]
    ∧ match spec_route opts (split "/"%byte (path req)) with
      | Some (rt, _) => route = pattern rt ∧ rt ∈ build_router opts
      | None => route = default (path req) (fst <$> swagger req)
      end.
Proof.
  intros Hs Hu Hc Hr. apply handle_safe in Hr as (_ & _ & resp & -> & Hm); [|done..].
  rewrite Hc in Hm. exists resp. eexists. split; [done|]. split; [exact Hm|].
  rewrite build_router_table. pose proof (spec_route_match opts (path req)) as Hx.
  destruct (spec_route opts _) as [[rt caps]|].
  - destruct Hx as [Hin Hmt]. split; [|done].
    rewrite (dispatch_found _ rt _ _ caps) by (done || apply server_table_disjoint).
    unfold serve_route. by destruct (select (methods rt) (method req)) as [[m' h]|].
  - by rewrite dispatch_none.
Qed.

(** ** Keys in paths *)

Lemma extract_segments b seg :
  Utf8.from_utf8 (percent_decode b) = true → Utf8.from_utf8 (percent_decode seg) = true →
  extract_path [b; seg] = Ok [percent_decode b; percent_decode seg].
Proof.
  intros Hb Hs. rewrite path_decoded; [done|]. intros c Hc. apply elem_of_cons in Hc as [->|Hc]; [done|].
  by apply list_elem_of_singleton in Hc as ->.
Qed.

(** A handler for one key that answered: its caller, and the rest of it on the decoded segment. *)
Lemma key_handler_answer app env req b seg f s resp s' :
  sane s → Utf8.from_utf8 (percent_decode b) = true → Utf8.from_utf8 (percent_decode seg) = true →
  with_auth app env req (λ auth, with_key [b; seg] (f auth)) s = (Ret (Ok resp), s') →
  ∃ auth s1, bucket_id_from_path (uri_path (parts_of req)) = Ok (bucket_id auth)
    ∧ Layout.bucket_ok (bucket_id auth)
    ∧ (∀ k, view s1 (bucket_id auth) k = view s (bucket_id auth) k)
    ∧ f auth (percent_decode seg) s1 = (Ret (Ok resp), s').
Proof.
  intros Hs Hb Hseg Hr. apply comp_bind_inv_ok in Hr as (auth & s1 & Ha & Hr).
  destruct (wp_elim _ _ _ _ _ (safe_from_request_parts app env req (policy_view s) s Hs (λ _, eq_refl)) Ha)
    as (_ & (_ & Hv & _) & _ & Hq).
  destruct (Hq auth eq_refl) as (p & (Hid & _) & (Hok & _) & _). exists auth, s1.
  split; [done|]. split; [done|]. split; [intros k; by destruct (Hv (bucket_id auth) k Hok) as [|[]]|].
  unfold with_key, comp_bind, comp_lift in Hr. by rewrite (extract_segments b seg Hb Hseg) in Hr.
Qed.

Lemma key_handler_refused app env req b seg f s :
  sane s → Utf8.from_utf8 (percent_decode seg) = false →
  ∃ e s', with_auth app env req (λ auth, with_key [b; seg] (f auth)) s = (Ret (Err e), s')
    ∧ within nowhere no_key s s'.
Proof.
  intros Hs Hseg. destruct (path_not_utf8 [b; seg] seg) as [e He]; [set_solver|done|].
  pose proof (safe_from_request_parts app env req (policy_view s) s Hs (λ _, eq_refl)) as Ha.
  unfold with_auth, with_key, comp_bind, comp_lift. rewrite He. unfold wp in Ha.
  destruct (from_request_parts _ _ _ s) as [[[auth|e']|] s1]; destruct Ha as (_ & Hw & Hp & _);
    [by exists e, s1|by exists e', s1|]. by destruct (Hp eq_refl).
Qed.

Lemma get_entry_inv now bid k s en s' :
  KeyService.get now bid k s = (Ret (Ok en), s') → view s bid k = Some en.
Proof.
  intros Hr. apply comp_bind_inv_ok in Hr as (o & s1 & Hg & Hr).
  apply (kr_get (KeyRepoSpec := store_key_spec)) in Hg as [-> _].
  apply comp_bind_inv_ok in Hr as (en' & s2 & He & Hr). injection He as He _.
  assert (en' = en) as ->.
  { destruct (expires_at en'); [destruct (odt_leb _ now)|]; by injection Hr. }
  simpl in He. by destruct (view s bid k); simplify_eq/=.
Qed.

Lemma delete_entry_inv bid k s u s' :
  Layout.bucket_ok bid → KeyService.delete bid k s = (Ret (Ok u), s') → view s' bid k = None.
Proof.
  intros Hb Hr. apply comp_bind_inv_ok in Hr as (existed & s1 & Hd & Hr).
  assert (s1 = s') as -> by (destruct existed; by injection Hr).
  destruct (kr_delete (KeyRepoSpec := store_key_spec) _ _ _ _ _ Hb Hd) as [_ Hv].
  pose proof (Hv bid k Hb) as Hx. simpl in Hx. by rewrite decide_True in Hx.
Qed.

Definition key_handlers : list handler_id := [GetKey; HeadKey; PutKey; PatchKey; DeleteKey].

(** C39: The key of a path is decoded twice. The framework percent-decodes the segment and the
    handler decodes the result again. A [PUT] to a key path that succeeds stores its body as the
    entry of the bucket of the path whose key is the segment decoded twice; a [GET] that succeeds
    answers the value of that entry, and after a [DELETE] that succeeds that entry is gone. (The
    witness sends [a%2541] and writes the key [aA].) And a segment whose decoding is not text is
    answered with an error by every key handler and changes no entry, although keys are byte
    strings. The bucket segment of the path decodes to text, and the store is one the server can
    reach. *)
Theorem path_keys_decoded_twice (app : AppState) (env : Env) (req : Request) (b seg : bytes)
    (s : store) :
  sane s → Utf8.from_utf8 (percent_decode b) = true →
  let run h := run_handler app env req h [b; seg] s in
  let names bid k := bucket_id_from_path (uri_path (parts_of req)) = Ok bid
                     ∧ Key.from_bytes (percent_decode (percent_decode seg)) = Ok k in
  (Utf8.from_utf8 (percent_decode seg) = true →
     (∀ resp s', run PutKey = (Ret (Ok resp), s') → ∃ bid k v e,
        names bid k ∧ extract_bytes (req_body req) = Ok (payload v) ∧ view s' bid k = Some (written v e))
     ∧ (∀ resp s', run GetKey = (Ret (Ok resp), s') → ∃ bid k en,
        names bid k ∧ view s bid k = Some en ∧ Keys.stored_value_response (value en) = Ok resp)
     ∧ ∀ resp s', run DeleteKey = (Ret (Ok resp), s') → ∃ bid k, names bid k ∧ view s' bid k = None)
  ∧ (Utf8.from_utf8 (percent_decode seg) = false → ∀ h, h ∈ key_handlers →
       ∃ e s', run h = (Ret (Err e), s') ∧ within nowhere no_key s s').
Proof.
  intros Hs Hb run names.
  assert (∀ k, parse_percent_encoded_key (percent_decode seg) = Ok k →
    Key.from_bytes (percent_decode (percent_decode seg)) = Ok k) as Hkey.
  { unfold parse_percent_encoded_key. intros k. by destruct (Key.from_bytes _); intros [= ->]. }
  split; [intros Hseg; split_and!; intros resp s' Hr|].
  - apply (key_handler_answer app env req b seg) in Hr as (auth & s1 & Hid & Hok & Hv & Hr); [|done..].
    apply comp_bind_inv_ok in Hr as (ttl & s2 & Ht & Hr). injection Ht as _ <-.
    apply comp_bind_inv_ok in Hr as (body & s2 & Hbody & Hr). injection Hbody as Hbody <-.
    apply put_key_stored in Hr as (k & v & e & Hk & <- & _ & _ & Hview & _); [|done].
    exists (bucket_id auth), k, v, e. split; [by split; auto|done].
  - apply (key_handler_answer app env req b seg) in Hr as (auth & s1 & Hid & Hok & Hv & Hr); [|done..].
    apply comp_bind_inv_ok in Hr as (k & s2 & Hk & Hr). injection Hk as Hk <-.
    apply comp_bind_inv_ok in Hr as (u & s2 & Hu & Hr). injection Hu as _ <-.
    apply comp_bind_inv_ok in Hr as (en & s2 & Hg & Hr). apply spawn_usecase_ok, get_entry_inv in Hg.
    exists (bucket_id auth), k, en. split; [by split; auto|]. split; [by rewrite <- Hv|].
    unfold comp_lift in Hr. congruence.
  - apply (key_handler_answer app env req b seg) in Hr as (auth & s1 & Hid & Hok & Hv & Hr); [|done..].
    apply comp_bind_inv_ok in Hr as (k & s2 & Hk & Hr). injection Hk as Hk <-.
    apply comp_bind_inv_ok in Hr as (u & s2 & Hu & Hr). injection Hu as _ <-.
    apply comp_bind_inv_ok in Hr as (u' & s2 & Hd & Hr). apply spawn_usecase_ok, delete_entry_inv in Hd; [|done].
    injection Hr as _ <-. exists (bucket_id auth), k. split; [by split; auto|done].
  - intros Hseg h Hh. unfold key_handlers in Hh. rewrite !elem_of_cons in Hh.
    destruct Hh as [->|[->|[->|[->|[->|Hh]]]]]; [by apply key_handler_refused..|].
    by apply not_elem_of_nil in Hh.
Qed.

End Server.

(** ** Witnesses *)

#[local] Instance demo_axum : AxumOps := toy_axum toy_wire.
#[local] Instance demo_axum_laws : AxumLaws demo_axum := toy_axum_laws toy_wire.

(** One bucket with a policy that lets anonymous callers write. *)
Definition served_store : Store.FjallStore := (Store.create_bucket demo_bucket http_policy demo0).2.

Lemma demo0_sane : sane demo0.
Proof. split; [|by intros b p]. destruct demo0_good as (_ & _ & [? _]). done. Qed.

Lemma served_sane : sane served_store.
Proof.
  unfold served_store. apply (safe_create_bucket (policy_view demo0) True (λ _, True) demo_bucket http_policy);
    [|done|apply demo0_sane|done].
  split; [apply demo_bucket_ok|]. split; by apply (bool_decide_unpack _).
Qed.

Definition demo_server : State := mkServer served_store (5%nat : @limiter _ demo_axum) [].
Definition demo_app : AppState := mkState (bs "0.1.0") demo_rk.
Definition demo_request_env : Env := mkEnv (λ _, at_nanos 0) (bs "b2").
Definition demo_http (m : Method) (p body : bytes) : Request :=
  mkRequest m p None (mkHeaders None None None) body.

Lemma demo_uuid_ok : uuid_ok demo_request_env.
Proof. split; [done|]. by apply (bool_decide_unpack _). Qed.

Lemma requests_authorized_witness :
  let out := handle default_options demo_app demo_request_env (demo_http PUT (bs "/api/v1/b1/k") (bs "42"))
               demo_server in
  sane (repo out.2) ∧ status (match out.1 with Ret resp => resp | Panic => internal_error end) = 200%N.
Proof.
  intros out.
  destruct (requests_authorized default_options demo_app demo_request_env
    (demo_http PUT (bs "/api/v1/b1/k") (bs "42")) demo_server out.2 out.1) as (_ & H & _).
  - apply served_sane.
  - apply demo_uuid_ok.
  - apply surjective_pairing.
  - split; [exact H|]. vm_refl.
Defined.

(** A method the key route does not serve, and a path outside the table. *)
Lemma routing_exact_witness :
  (∃ resp, (handle default_options demo_app demo_request_env
              (demo_http (Extension (bs "TRACE")) (bs "/api/v1/b1/k") []) demo_server).1 = Ret resp
           ∧ status resp = 405%N)
  ∧ ∃ resp, (handle default_options demo_app demo_request_env (demo_http GET (bs "/zzz") []) demo_server).1
            = Ret resp ∧ status resp = 404%N.
Proof.
  split.
  - destruct (routing_exact default_options demo_app demo_request_env
      (demo_http (Extension (bs "TRACE")) (bs "/api/v1/b1/k") []) demo_server) as [_ H].
    apply H; [reflexivity|]. intros r Hr. vm_compute in Hr. injection Hr as <-. discriminate.
  - destruct (routing_exact default_options demo_app demo_request_env (demo_http GET (bs "/zzz") [])
      demo_server) as [_ H].
    apply H; [reflexivity|]. intros r Hr. vm_compute in Hr. discriminate Hr.
Defined.

Lemma buckets_isolated_witness :
  let out := handle_all default_options demo_app
    [(demo_request_env, demo_http PUT (bs "/api/v1/b3/k") (bs "42"));
     (demo_request_env, demo_http POST (bs "/api/v1") (bs "a@b.c"))] demo_server in
  policy_view (repo out.2) demo_bucket = policy_view served_store demo_bucket.
Proof.
  intros out.
  destruct (buckets_isolated default_options demo_app
    [(demo_request_env, demo_http PUT (bs "/api/v1/b3/k") (bs "42"));
     (demo_request_env, demo_http POST (bs "/api/v1") (bs "a@b.c"))] demo_server out.2 out.1 demo_bucket)
    as (_ & _ & H & _).
  - apply served_sane.
  - apply demo_bucket_ok.
  - repeat constructor; try apply demo_uuid_ok; discriminate.
  - apply surjective_pairing.
  - exact H.
Defined.

Lemma safe_methods_change_nothing_witness :
  let out := handle default_options demo_app demo_request_env (demo_http GET (bs "/api/v1/b1/") [])
               demo_server in
  policy_view (repo out.2) demo_bucket = policy_view served_store demo_bucket.
Proof.
  intros out.
  destruct (safe_methods_change_nothing default_options demo_app demo_request_env
    (demo_http GET (bs "/api/v1/b1/") []) demo_server out.2 out.1) as [H _].
  - apply served_sane.
  - apply demo_uuid_ok.
  - reflexivity.
  - apply surjective_pairing.
  - apply H.
Defined.

Lemma requests_counted_witness :
  ∃ resp, samples (handle default_options demo_app demo_request_env (demo_http GET (bs "/zzz") [])
                     demo_server).2
          = [http_requests_total (bs "/zzz") (bs "GET") (status resp);
             http_request_duration_seconds (bs "/zzz") (bs "GET")].
Proof.
  destruct (requests_counted default_options demo_app demo_request_env (demo_http GET (bs "/zzz") [])
    demo_server
    (handle default_options demo_app demo_request_env (demo_http GET (bs "/zzz") []) demo_server).2
    (handle default_options demo_app demo_request_env (demo_http GET (bs "/zzz") []) demo_server).1)
    as (resp & route & _ & H & Hroute).
  - apply served_sane.
  - apply demo_uuid_ok.
  - reflexivity.
  - apply surjective_pairing.
  - exists resp. rewrite H. assert (route = bs "/zzz") as -> by exact Hroute. reflexivity.
Defined.

(** The key [a%41], sent as the documentation asks, is stored as [aA]. *)
Lemma path_keys_decoded_twice_witness :
  let handler := @run_handler _ _ _ pct_wire _ _ (toy_axum pct_wire) _ _ _ in
  let req := demo_http PUT (bs "/api/v1/b1/a%2541") (bs "42") in
  let s' := (handler demo_app demo_request_env req PutKey [bs "b1"; bs "a%2541"] served_store).2 in
  ∃ v e, payload v = bs "42" ∧ view s' demo_bucket (mkKey (bs "aA")) = Some (written v e).
Proof.
  intros handler req s'.
  destruct (path_keys_decoded_twice (W := pct_wire) (AX := toy_axum pct_wire) (AL := toy_axum_laws pct_wire)
    demo_app demo_request_env req (bs "b1") (bs "a%2541") served_store) as [H _].
  - apply served_sane.
  - vm_refl.
  - destruct H as [H _]; [vm_refl|].
    destruct (H (mkResponse 200 (Raw (bs "text/plain; charset=utf-8") (bs "42"))) s')
      as (bid & k & v & e & [Hbid Hk] & Hbody & Hview).
    + apply pair_fst. vm_refl.
    + exists v, e. vm_compute in Hbid. injection Hbid as <-. vm_compute in Hk. injection Hk as <-.
      split; [by injection Hbody as <-|exact Hview].
Defined.
