(* ===== verification/AdminSessions.v ===== *)
(** * Whole administration requests under interleaving

    [Sessions] lets policies change at any time, whoever changes them. Here the requests that
    change them run too: creation of a bucket, the policy [PATCH] in its two blocking tasks
    ([PolicyRace]), deletion, and the requests that only read a policy (the policy view, [HEAD],
    the minting of a token). Each makes at most one adapter call per task, and tasks of different
    requests interleave with each other, with the key traffic and with the sweeper. The closed
    system is a run of the open one, keeps every stored policy well formed and consistent, and
    every change of a policy has an author. *)

From Stdlib Require Import Strings.Byte.
From S2P Require Import Prelude RustStd TimeLib Domain Counter Ports Codec FjallLib Locks Store StoreSpec StoreList StoreRepo StoreProps Gc Interleave Linearize KeyService KeyProps Concurrency Auth HttpBase HttpRoutes HttpBuckets HttpProps Sessions SessionProps HttpListing PolicyRace Effects Router Routing ServerProps.
Import Http.
Import Sessions.

Module AdminSessions.

Section Admin.
Context {T : TimeOps} {P : PostcardOps} {J : PolicyJsonOps} {F : FjallOps} {H : HasherOps}
        {L : LayoutOps}.
Context {JS : JsonOps} {JV : JsonValueOps} {W : WireOps} {C : CryptoOps} {K : TokenOps}.
Context (rk : SigningKey).

Abbreviation store := Store.FjallStore.

(** ** The requests *)

(** A routed administration request; [uuid] is the one its handler draws. *)
Inductive admin_call : Type :=
| CreateBucket (uuid : bytes) (form : Buckets.CreateBucketForm)
| UpdatePolicy (body : bytes) (parsed : option Buckets.UpdatePolicyJson)
| DeleteBucket
| GetBucketPolicy
| HeadBucket
| CreateToken (now : OffsetDateTime) (form : TokensRoute.CreateTokenForm).

Record admin : Type := mkAdmin { a_parts : Parts; a_now : OffsetDateTime; a_call : admin_call }.

Definition presented (v : admin) : option bytes :=
  Http.as_str <$> extract (headers (a_parts v)) (uri_query (a_parts v)).

(** A UUID is a text without a colon, and the numbers are [u64]. *)
Definition call_ok (c : admin_call) : Prop :=
  match c with
  | CreateBucket uuid form =>
    uuid ≠ [] ∧ (":"%byte ∉ uuid)
    ∧ match Buckets.f_default_ttl form with Some t => (t <= Usize.usize_max)%N | None => True end
  | UpdatePolicy _ parsed =>
    match parsed with
    | Some patch => match Buckets.p_default_ttl patch with
                    | Some (Some t) => (t <= Usize.usize_max)%N
                    | _ => True
                    end
    | None => True
    end
  | _ => True
  end.

#[global] Instance call_ok_dec c : Decision (call_ok c).
Proof.
  destruct c as [uuid form|body [patch|]| | | |]; simpl; try apply _.
  - apply and_dec; [apply _|]. apply and_dec; [apply _|]. destruct (Buckets.f_default_ttl form); apply _.
  - destruct (Buckets.p_default_ttl patch) as [[]|]; apply _.
Defined.

(** What a handler does in one task once the caller is known; the policy [PATCH] takes two. *)
Definition in_one_task (c : admin_call) (auth : BucketAuth) : option (comp store Response Response) :=
  match c with
  | CreateBucket _ _ | UpdatePolicy _ _ => None
  | DeleteBucket => Some (Buckets.delete_bucket auth)
  | GetBucketPolicy => Some (Buckets.get_bucket_policy auth)
  | HeadBucket => Some (Buckets.head_bucket auth)
  | CreateToken now form => Some (TokensRoute.create_token now auth form)
  end.

(** [Known auth]: the extractor is through; [Seen auth pp]: the first task of a policy [PATCH]
    read [pp.1], to be patched by [pp.2]. *)
Inductive stage : Type :=
| Came
| Known (auth : BucketAuth)
| Seen (auth : BucketAuth) (pp : BucketPolicy * Buckets.UpdatePolicyJson)
| Over (r : exec (result Response Response)).

Record realm : Type := mkRealm { r_world : world; r_admins : list (admin * stage) }.

Definition r_store (R : realm) : store := w_store (r_world R).

Definition is_create (c : admin_call) : bool := match c with CreateBucket _ _ => true | _ => false end.

(** One step of the server. A UUID is fresh: no bucket has it. *)
Inductive astep : realm → realm → Prop :=
| a_traffic w w' vs : kstep rk w w' → astep (mkRealm w vs) (mkRealm w' vs)
| a_come w vs v : call_ok (a_call v) → astep (mkRealm w vs) (mkRealm w (vs ++ [(v, Came)]))
| a_create s ts ks vs i v uuid form r s' :
    vs !! i = Some (v, Came) → a_call v = CreateBucket uuid form →
    policy_view s (mkBucketId uuid) = None → Buckets.create_bucket rk uuid form s = (r, s') →
    astep (mkRealm (mkWorld s ts ks) vs) (mkRealm (mkWorld s' ts ks) (<[i := (v, Over r)]> vs))
| a_refuse s ts ks vs i v r s' :
    vs !! i = Some (v, Came) → is_create (a_call v) = false →
    from_request_parts (a_now v) rk (a_parts v) s = (Ret (Err r), s') →
    astep (mkRealm (mkWorld s ts ks) vs)
      (mkRealm (mkWorld s' ts ks) (<[i := (v, Over (Ret (Err r)))]> vs))
| a_known s ts ks vs i v auth s' :
    vs !! i = Some (v, Came) → is_create (a_call v) = false →
    from_request_parts (a_now v) rk (a_parts v) s = (Ret (Ok auth), s') →
    astep (mkRealm (mkWorld s ts ks) vs) (mkRealm (mkWorld s' ts ks) (<[i := (v, Known auth)]> vs))
| a_handle s ts ks vs i v auth h r s' :
    vs !! i = Some (v, Known auth) → in_one_task (a_call v) auth = Some h → h s = (r, s') →
    astep (mkRealm (mkWorld s ts ks) vs) (mkRealm (mkWorld s' ts ks) (<[i := (v, Over r)]> vs))
| a_see s ts ks vs i v auth body parsed pp s' :
    vs !! i = Some (v, Known auth) → a_call v = UpdatePolicy body parsed →
    PolicyRace.policy_read auth body parsed s = (Ret (Ok pp), s') →
    astep (mkRealm (mkWorld s ts ks) vs) (mkRealm (mkWorld s' ts ks) (<[i := (v, Seen auth pp)]> vs))
| a_unseen s ts ks vs i v auth body parsed e s' :
    vs !! i = Some (v, Known auth) → a_call v = UpdatePolicy body parsed →
    PolicyRace.policy_read auth body parsed s = (Ret (Err e), s') →
    astep (mkRealm (mkWorld s ts ks) vs)
      (mkRealm (mkWorld s' ts ks) (<[i := (v, Over (Ret (Err e)))]> vs))
| a_write s ts ks vs i v auth pp r s' :
    vs !! i = Some (v, Seen auth pp) → PolicyRace.policy_write rk auth pp s = (r, s') →
    astep (mkRealm (mkWorld s ts ks) vs) (mkRealm (mkWorld s' ts ks) (<[i := (v, Over r)]> vs)).

(** *** The same steps as a function of an event *)

Inductive event : Type :=
| ETraffic (e : Sessions.event)
| ECome (v : admin)
| EAdmin (i : nat).

(** The next task of the request of visitor [i]. *)
Definition next_admin (i : nat) (R : realm) : option realm :=
  let '(mkRealm (mkWorld s ts ks) vs) := R in
  let to st s' := Some (mkRealm (mkWorld s' ts ks) (<[i := st]> vs)) in
  match vs !! i with
  | Some (v, Came) =>
    match a_call v with
    | CreateBucket uuid form =>
      match policy_view s (mkBucketId uuid) with
      | None => let '(r, s') := Buckets.create_bucket rk uuid form s in to (v, Over r) s'
      | Some _ => None
      end
    | _ =>
      match from_request_parts (a_now v) rk (a_parts v) s with
      | (Ret (Ok auth), s') => to (v, Known auth) s'
      | (Ret (Err r), s') => to (v, Over (Ret (Err r))) s'
      | (Panic, _) => None
      end
    end
  | Some (v, Known auth) =>
    match in_one_task (a_call v) auth, a_call v with
    | Some h, _ => let '(r, s') := h s in to (v, Over r) s'
    | None, UpdatePolicy body parsed =>
      match PolicyRace.policy_read auth body parsed s with
      | (Ret (Ok pp), s') => to (v, Seen auth pp) s'
      | (Ret (Err e), s') => to (v, Over (Ret (Err e))) s'
      | (Panic, _) => None
      end
    | None, _ => None
    end
  | Some (v, Seen auth pp) => let '(r, s') := PolicyRace.policy_write rk auth pp s in to (v, Over r) s'
  | _ => None
  end.

(** Policy events of [Sessions] are not traffic here. *)
Definition next_traffic (e : Sessions.event) (w : world) : option world :=
  match e with
  | EPeek _ | EPolicy _ _ | ERemove _ => None
  | _ => Sessions.next rk e w
  end.

Definition next (e : event) (R : realm) : option realm :=
  match e with
  | ETraffic e => (λ w, mkRealm w (r_admins R)) <$> next_traffic e (r_world R)
  | ECome v =>
    if decide (call_ok (a_call v)) then Some (mkRealm (r_world R) (r_admins R ++ [(v, Came)])) else None
  | EAdmin i => next_admin i R
  end.

Fixpoint play (es : list event) (R : realm) : option realm :=
  match es with [] => Some R | e :: es' => next e R ≫= play es' end.

Lemma next_traffic_kstep e w w' : next_traffic e w = Some w' → kstep rk w w'.
Proof.
  destruct w as [s ts vs], e as [v|i|i|now_ts idx ux sk|b|b p|b]; cbn [next_traffic Sessions.next]; try done.
  - intros [= <-]. apply s_arrive.
  - apply next_visit_kstep.
  - destruct (Interleave.run_thread i (s, ts)) as [[s' ts']|] eqn:Hr; [|done]. intros [= <-].
    apply s_storage; [by eapply Interleave.run_thread_step|by apply (run_thread_length i (s, ts) (s', ts'))].
  - intros [= <-]. apply s_sweep.
Qed.

Lemma next_admin_astep i R R' : next_admin i R = Some R' → astep R R'.
Proof.
  destruct R as [[s ts ks] vs]. cbn [next_admin]. destruct (vs !! i) as [[v st]|] eqn:Hi; [|done].
  destruct st as [|auth|auth pp|r]; [| | |done].
  - destruct (is_create (a_call v)) eqn:Hc.
    + destruct (a_call v) as [uuid form| | | | |] eqn:Ec; try done.
      destruct (policy_view s _) eqn:Ep; [done|].
      destruct (Buckets.create_bucket rk uuid form s) as [r s'] eqn:Er. intros [= <-]. by eapply a_create.
    + destruct (from_request_parts (a_now v) rk (a_parts v) s) as [[[auth|e]|] s'] eqn:Ef;
        destruct (a_call v) eqn:Ec; try done; intros [= <-];
        first [eapply a_known|eapply a_refuse]; try done; by rewrite Ec.
  - destruct (in_one_task (a_call v) auth) as [h|] eqn:Eh.
    + destruct (h s) as [r s'] eqn:Er. intros [= <-]. by eapply a_handle.
    + destruct (a_call v) as [|body parsed| | | |] eqn:Ec; try done.
      destruct (PolicyRace.policy_read auth body parsed s) as [[[pp|e]|] s'] eqn:Er; [| |done];
        intros [= <-]; [by eapply a_see|by eapply a_unseen].
  - destruct (PolicyRace.policy_write rk auth pp s) as [r s'] eqn:Er. intros [= <-]. by eapply a_write.
Qed.

Lemma next_astep e R R' : next e R = Some R' → astep R R'.
Proof.
  destruct R as [w vs], e as [e|v|i]; cbn [next r_world r_admins].
  - destruct (next_traffic e w) as [w'|] eqn:E; [|done]. intros [= <-]. by eapply a_traffic, next_traffic_kstep.
  - destruct (decide (call_ok (a_call v))); [|done]. intros [= <-]. by apply a_come.
  - apply next_admin_astep.
Qed.

Lemma play_asteps es R R' : play es R = Some R' → rtc astep R R'.
Proof.
  revert R. induction es as [|e es IH]; intros R; simpl; [intros [= ->]; constructor|].
  intros (R1 & H1 & H2)%bind_Some. eapply rtc_l; [by eapply next_astep|auto].
Qed.

End Admin.

(** ** One adapter call per task *)

Section Touches.
Context {T : TimeOps} {P : PostcardOps} {J : PolicyJsonOps} {F : FjallOps} {H : HasherOps}
        {L : LayoutOps}.
Context {JS : JsonOps} {JV : JsonValueOps} {W : WireOps} {C : CryptoOps} {K : TokenOps}.
Context {TL : TimeLaws T} {PL : PostcardLaws P} {JL : PolicyJsonLaws J} {FL : FjallLaws F}
        {LL : LayoutLaws L} {CL : CryptoLaws C}.
Context (rk : SigningKey).

Inductive policy_op : Type :=
| Untouched
| Peeked (b : BucketId)
| Wrote (b : BucketId) (p : BucketPolicy)
| Removed (b : BucketId).

Definition performs (o : policy_op) (s s' : Store.FjallStore) : Prop :=
  match o with
  | Untouched => s' = s
  | Peeked b => ∃ r, Store.get_policy b s = (r, s')
  | Wrote b p => ∃ r, Store.create_bucket b p s = (r, s')
  | Removed b => ∃ r, Store.delete_bucket b s = (r, s')
  end.

Definition reads_only (o : policy_op) : Prop :=
  match o with Untouched | Peeked _ => True | _ => False end.

(** [m] makes at most one adapter call, and it is one of [Q]. *)
Definition touches {A E} (Q : policy_op → Prop) (m : comp Store.FjallStore A E) : Prop :=
  ∀ s r s', m s = (r, s') → ∃ o, Q o ∧ performs o s s'.

Lemma touches_lift {A E} (Q : policy_op → Prop) (r : result A E) : Q Untouched → touches Q (comp_lift r).
Proof. intros HQ s ? s' [= _ <-]. by exists Untouched. Qed.

Lemma touches_pure {A B E} (Q : policy_op → Prop) (r : result A E) (f : A → comp Store.FjallStore B E) :
  Q Untouched → (∀ a, r = Ok a → touches Q (f a)) → touches Q (comp_bind (comp_lift r) f).
Proof.
  intros HQ Hf s x s'. unfold comp_bind, comp_lift. destruct r as [a|e].
  - by apply Hf.
  - intros [= _ <-]. by exists Untouched.
Qed.

(** A task, then code that touches nothing. *)
Lemma touches_task {A B} (Q : policy_op → Prop) (m : comp Store.FjallStore A UseCaseError)
    (f : A → comp Store.FjallStore B Response) :
  (∀ s r s', m s = (r, s') → ∃ o, Q o ∧ performs o s s') → (∀ a, touches (λ o, o = Untouched) (f a)) →
  touches Q (comp_bind (spawn_usecase m) f).
Proof.
  intros Hm Hf s x s'. unfold comp_bind, spawn_usecase. destruct (m s) as [r s1] eqn:Em.
  destruct (Hm _ _ _ Em) as (o & HQ & Ho). intros Hx. exists o. split; [done|].
  assert (s' = s1) as ->; [|done]. destruct r as [[a|e]|]; simpl in Hx; [|by injection Hx..].
  destruct (Hf a _ _ _ Hx) as (o' & -> & Ho'). done.
Qed.

Lemma peeked_task {B} b (Q : policy_op → Prop) (f : option BucketPolicy → comp Store.FjallStore B Response) :
  Q (Peeked b) → (∀ a, touches (λ o, o = Untouched) (f a)) →
  touches Q (comp_bind (spawn_usecase (Store.get_policy b)) f).
Proof. intros HQ. apply touches_task. intros s r s' Hr. exists (Peeked b). split; [done|]. by exists r. Qed.

Lemma extractor_touches now parts : touches reads_only (from_request_parts (S := Store.FjallStore) now rk parts).
Proof.
  unfold from_request_parts. apply touches_pure; [done|]. intros id _. apply peeked_task; [done|]. intros found.
  apply touches_pure; [done|]. intros p _. apply touches_pure; [done|]. intros who _.
  by apply (touches_lift _ (Ok _)).
Qed.

Lemma policy_read_touches auth body parsed :
  touches reads_only (PolicyRace.policy_read (S := Store.FjallStore) auth body parsed).
Proof.
  unfold PolicyRace.policy_read. apply touches_pure; [done|]. intros _ _.
  apply touches_pure; [done|]. intros patch _. apply peeked_task; [done|]. intros found.
  apply touches_pure; [done|]. intros p _. by apply (touches_lift _ (Ok _)).
Qed.

(** A policy that is written is the patched one. *)
Lemma policy_write_touches auth pp :
  touches (λ o, reads_only o ∨ ∃ q, PolicyRace.patched_policy rk pp.1 pp.2 = Some q ∧ o = Wrote (bucket_id auth) q)
    (PolicyRace.policy_write (S := Store.FjallStore) rk auth pp).
Proof.
  unfold PolicyRace.policy_write, PolicyRace.patched_policy. apply touches_pure; [by left|]. intros [q au] Hq.
  rewrite Hq. apply touches_task; [|intros []; by apply (touches_lift _ (Ok _))].
  intros s r s' Hr. eexists. split; [right; by eexists|]. by exists r.
Qed.

Lemma create_touches uuid form :
  touches (λ o, reads_only o ∨ ∃ q, Buckets.new_policy rk form = Ok q ∧ o = Wrote (mkBucketId uuid) q)
    (Buckets.create_bucket (S := Store.FjallStore) rk uuid form).
Proof.
  unfold Buckets.create_bucket. destruct (Buckets.is_minimally_valid_email _); simpl;
    [|apply (touches_lift _ (Err _)); by left].
  apply touches_pure; [by left|]. intros q Hq. unfold Bucket.new.
  case_bool_decide; [intros s r s' [= _ <-]; exists Untouched; by split; [left|]|].
  apply touches_task; [|intros []; by apply (touches_lift _ (Ok _))].
  intros s r s' Hr. eexists. split; [right; by eexists|]. by exists r.
Qed.

(** Only an administrator gets beyond the guard of these handlers. *)
Lemma one_task_touches c auth h :
  in_one_task c auth = Some h →
  touches (λ o, reads_only o
                ∨ c = DeleteBucket ∧ identity auth = Auth.Admin ∧ o = Removed (bucket_id auth)) h.
Proof.
  destruct c as [|body parsed| | | |now form]; intros [= <-].
  - unfold Buckets.delete_bucket. apply touches_pure; [by left|]. intros [] Ha.
    apply touches_task; [|intros []; by apply (touches_lift _ (Ok _))].
    intros s r s' Hr. exists (Removed (bucket_id auth)). split; [right|by exists r].
    unfold require_admin in Ha. by destruct (identity auth).
  - unfold Buckets.get_bucket_policy. apply touches_pure; [by left|]. intros _ _.
    apply peeked_task; [by left|]. intros found. apply touches_pure; [done|]. intros p _.
    by apply (touches_lift _ (Ok _)).
  - unfold Buckets.head_bucket. apply touches_pure; [by left|]. intros _ _. apply (touches_lift _ (Ok _)). by left.
  - unfold TokensRoute.create_token. apply touches_pure; [by left|]. intros _ _.
    apply peeked_task; [by left|]. intros found. apply touches_pure; [done|]. intros p _.
    apply touches_pure; [done|]. intros key _. destruct (_ <=? 0); [by apply (touches_lift _ (Err _))|].
    case_bool_decide; [by apply (touches_lift _ (Err _))|]. apply touches_pure; [done|]. intros exp _.
    apply touches_pure; [done|]. intros perms _. apply touches_pure; [done|]. intros token _.
    by apply (touches_lift _ (Ok _)).
Qed.

(** ** The invariant *)

(** Every stored policy is one the server would store. *)
Definition stored (s : Store.FjallStore) : Prop := ∀ b p, policy_view s b = Some p → stored_ok b p.

Definition op_ok (o : policy_op) : Prop := match o with Wrote b p => stored_ok b p | _ => True end.

Lemma reads_only_ok o : reads_only o → op_ok o.
Proof. by destruct o. Qed.

(** An adapter call is a step of the open system. *)
Lemma performs_sstep o s s' ts ks :
  op_ok o → performs o s s' → rtc (sstep rk) (mkWorld s ts ks) (mkWorld s' ts ks).
Proof.
  destruct o as [|b|b p|b]; simpl.
  - by intros _ ->.
  - intros _ [r Hr]. by eapply rtc_once, s_peek.
  - intros (_ & Hw & Hp) [r Hr]. by eapply rtc_once, s_policy.
  - intros _ [r Hr]. by eapply rtc_once, s_remove.
Qed.

(** Which policy a call changes. *)
Lemma performs_view o s s' b :
  op_ok o → performs o s s' → policy_view s' b ≠ policy_view s b →
  (∃ p, o = Wrote b p ∧ policy_view s' b = Some p) ∨ o = Removed b ∧ policy_view s' b = None.
Proof.
  destruct o as [|b'|b' p|b']; simpl.
  - by intros _ ->.
  - intros _ [r Hr] Hne. destruct Hne. unfold policy_view, policy_map. by rewrite (peek_keeps _ Meta _ _ _ Hr).
  - intros (_ & Hw & _) [r Hr] Hne. destruct (create_view _ _ _ _ _ Hw Hr) as [Hv|Hv]; rewrite Hv in *; [done|].
    case_decide; [subst; left; by exists p|done].
  - intros _ [r Hr] Hne. destruct (remove_view _ _ _ _ Hr) as [Hv|Hv]; rewrite Hv in *; [done|].
    case_decide; [subst; by right|done].
Qed.

Lemma performs_stored o s s' : op_ok o → performs o s s' → stored s → stored s'.
Proof.
  intros Hok Ho Hs b p Hp. destruct (decide (policy_view s' b = policy_view s b)) as [He|Hne].
  - apply Hs. congruence.
  - destruct (performs_view o s s' b Hok Ho Hne) as [(q & -> & Hq)|[-> Hq]]; [|congruence].
    simpl in Hok. congruence.
Qed.

(** What is known about a visitor at each stage. *)
Definition admin_good (x : admin * stage) : Prop :=
  call_ok (a_call x.1)
  ∧ match x.2 with
    | Seen auth pp =>
      identity auth = Auth.Admin ∧ stored_ok (bucket_id auth) pp.1
      ∧ (∀ t, Buckets.p_default_ttl pp.2 = Some (Some t) → (t <= Usize.usize_max)%N)
      ∧ ∃ body parsed, a_call x.1 = UpdatePolicy body parsed
    | _ => True
    end.

Definition good (R : realm) : Prop :=
  stored (r_store R) ∧ Forall thread_keeps (w_threads (r_world R)) ∧ Forall admin_good (r_admins R).

(** The first task of a policy [PATCH] read a stored policy, for an administrator. *)
Lemma policy_read_good v auth body parsed pp s s' :
  stored s → call_ok (a_call v) → a_call v = UpdatePolicy body parsed →
  PolicyRace.policy_read auth body parsed s = (Ret (Ok pp), s') → admin_good (v, Seen auth pp).
Proof.
  intros Hs Hc Ec Hr. destruct pp as [p patch]. split; [done|]. simpl.
  assert (policy_view s (bucket_id auth) = Some p) as Hp
    by (exact (proj1 (PolicyRace.policy_read_ok _ _ _ _ _ _ _ Hr))).
  unfold PolicyRace.policy_read in Hr. apply comp_bind_inv_ok in Hr as (u & s1 & Hadm & Hr).
  injection Hadm as Hadm <-. apply comp_bind_inv_ok in Hr as (pt & s1 & Hpt & Hr). injection Hpt as Hpt <-.
  apply comp_bind_inv_ok in Hr as (found & s1 & _ & Hr). apply comp_bind_inv_ok in Hr as (q & s2 & _ & Hr).
  injection Hr as _ -> _. split; [unfold require_admin in Hadm; by destruct (identity auth)|].
  split; [by apply Hs|]. split; [|by eexists _, _]. intros t Ht. rewrite Ec in Hc. simpl in Hc.
  case_bool_decide; [injection Hpt as <-; done|]. destruct parsed as [pt|]; [|done].
  injection Hpt as ->. by rewrite Ht in Hc.
Qed.

Lemma policy_read_patch auth body parsed pp s s' :
  PolicyRace.policy_read (S := Store.FjallStore) auth body parsed s = (Ret (Ok pp), s') →
  policy_view s (bucket_id auth) = Some pp.1
  ∧ (if bool_decide (body = []) then Some Buckets.empty_patch else parsed) = Some pp.2.
Proof.
  intros Hr. destruct pp as [p patch]. split; [exact (proj1 (PolicyRace.policy_read_ok _ _ _ _ _ _ _ Hr))|].
  unfold PolicyRace.policy_read in Hr. apply comp_bind_inv_ok in Hr as (u & s1 & Hadm & Hr).
  apply comp_bind_inv_ok in Hr as (pt & s2 & Hpt & Hr). injection Hpt as Hpt <-.
  apply comp_bind_inv_ok in Hr as (found & s2 & _ & Hr). apply comp_bind_inv_ok in Hr as (q & s3 & _ & Hr).
  injection Hr as _ -> _. simpl. case_bool_decide; [congruence|]. destruct parsed; simplify_eq/=. done.
Qed.

Lemma patched_ok auth pp q v :
  admin_good (v, Seen auth pp) → PolicyRace.patched_policy rk pp.1 pp.2 = Some q → stored_ok (bucket_id auth) q.
Proof.
  intros (_ & _ & Hp & Ht & _). unfold PolicyRace.patched_policy.
  destruct (Buckets.apply_policy_patch pp.1 pp.2 rk) as [[p' au]|] eqn:E; [|done]. intros [= <-].
  by eapply patched_stored.
Qed.

Lemma created_ok uuid form q :
  call_ok (CreateBucket uuid form) → Buckets.new_policy rk form = Ok q → stored_ok (mkBucketId uuid) q.
Proof.
  intros (_ & Hu & Ht) Hq. eapply new_policy_stored; [done|done|]. intros t Hf. by rewrite Hf in Ht.
Qed.

(** ** Steps *)

(** [v] is past the extractor, as [auth], and not done yet. *)
Definition holds (st : stage) (auth : BucketAuth) : Prop := st = Known auth ∨ ∃ pp, st = Seen auth pp.

Definition changes (c : admin_call) : Prop := match c with UpdatePolicy _ _ | DeleteBucket => True | _ => False end.

(** The patch a request asks for. *)
Definition patch_of (c : admin_call) : option Buckets.UpdatePolicyJson :=
  match c with
  | UpdatePolicy body parsed => if bool_decide (body = []) then Some Buckets.empty_patch else parsed
  | _ => None
  end.

(** A visitor who creates the bucket [b], which does not exist. *)
Definition creator (R : realm) (v : admin) (b : BucketId) (q : BucketPolicy) : Prop :=
  ∃ uuid form, a_call v = CreateBucket uuid form ∧ b = mkBucketId uuid ∧ policy_view (r_store R) b = None
    ∧ Buckets.new_policy rk form = Ok q.

(** The author of a call: a creation of a bucket that did not exist, or an administrator of the
    bucket. *)
Definition author (R : realm) (o : policy_op) : Prop :=
  match o with
  | Wrote b q =>
    (∃ i v, r_admins R !! i = Some (v, Came) ∧ creator R v b q)
    ∨ ∃ i v auth pp, r_admins R !! i = Some (v, Seen auth pp) ∧ bucket_id auth = b
        ∧ identity auth = Auth.Admin ∧ changes (a_call v) ∧ PolicyRace.patched_policy rk pp.1 pp.2 = Some q
  | Removed b =>
    ∃ i v auth, r_admins R !! i = Some (v, Known auth) ∧ bucket_id auth = b
      ∧ identity auth = Auth.Admin ∧ changes (a_call v)
  | _ => True
  end.

Lemma reads_only_author R o : reads_only o → author R o.
Proof. by destruct o. Qed.

#[local] Hint Resolve reads_only_ok reads_only_author : core.

(** A step of an administration request: one adapter call with its author, and a new stage. *)
Lemma admin_step R R' :
  good R → astep rk R R' →
  (∃ w', kstep rk (r_world R) w' ∧ R' = mkRealm w' (r_admins R))
  ∨ (∃ v, call_ok (a_call v) ∧ R' = mkRealm (r_world R) (r_admins R ++ [(v, Came)]))
  ∨ ∃ o s' i v st st', r_admins R !! i = Some (v, st) ∧ op_ok o ∧ author R o
      ∧ performs o (r_store R) s' ∧ admin_good (v, st')
      ∧ R' = mkRealm (mkWorld s' (w_threads (r_world R)) (w_visits (r_world R))) (<[i := (v, st')]> (r_admins R))
      ∧ (∀ auth, holds st' auth → holds st auth
          ∨ ∃ p, policy_view (r_store R) (bucket_id auth) = Some p
                 ∧ Auth.resolve (presented v) p (bucket_id auth) rk (a_now v) = Ok (identity auth))
      ∧ ∀ auth pp, st' = Seen auth pp →
          policy_view (r_store R) (bucket_id auth) = Some pp.1 ∧ patch_of (a_call v) = Some pp.2.
Proof.
  intros (Hst & Hk & Hg) Hs.
  assert (∀ i v st, r_admins R !! i = Some (v, st) → admin_good (v, st)) as Hgood
    by (intros i v st Hi; by apply (Forall_lookup_1 _ _ _ _ Hg Hi)).
  assert (∀ r auth, holds (Over r) auth → False) as Hover by (intros r auth [?|[? ?]]; done).
  destruct Hs as [w w' vs Hs|w vs v Hc|s ts ks vs i v uuid form r s' Hi Ec Hn Hr|s ts ks vs i v r s' Hi _ Hr
    |s ts ks vs i v auth s' Hi _ Hr|s ts ks vs i v auth h r s' Hi Eh Hr|s ts ks vs i v auth body parsed pp s' Hi Ec Hr
    |s ts ks vs i v auth body parsed e s' Hi Ec Hr|s ts ks vs i v auth pp r s' Hi Hr];
    [left; by exists w'|right; left; by exists v|..]; right; right; simpl in *;
    destruct (Hgood _ _ _ Hi) as [Hc Hx].
  - destruct (create_touches uuid form _ _ _ Hr) as (o & Ho & Hp).
    exists o, s', i, v, Came, (Over r). split_and!; try done; [| |by intros ? ?%Hover].
    + destruct Ho as [?|(q & Hq & ->)]; [auto|]. eapply created_ok; [|done]. by rewrite <- Ec.
    + destruct Ho as [?|(q & Hq & ->)]; [auto|]. left. exists i, v. split; [done|]. by exists uuid, form.
  - destruct (extractor_touches _ _ _ _ _ Hr) as (o & Ho & Hp).
    exists o, s', i, v, Came, (Over (Ret (Err r))). split_and!; try done; auto. by intros ? ?%Hover.
  - destruct (extractor_touches _ _ _ _ _ Hr) as (o & Ho & Hp).
    exists o, s', i, v, Came, (Known auth). split_and!; try done; auto.
    intros auth' [[= <-]|[? ?]]; [|done]. right.
    destruct (extractor_read rk _ _ _ _ _ Hr) as [_ Hx']. destruct (Hx' auth eq_refl) as (p & Hp1 & _ & Hp2).
    by exists p.
  - destruct (one_task_touches _ _ _ Eh _ _ _ Hr) as (o & Ho & Hp).
    exists o, s', i, v, (Known auth), (Over r). split_and!; try done; [| |by intros ? ?%Hover].
    + destruct Ho as [?|(_ & _ & ->)]; [auto|done].
    + destruct Ho as [?|(Ec & Ha & ->)]; [auto|]. exists i, v, auth. split_and!; try done. by rewrite Ec.
  - destruct (policy_read_touches _ _ _ _ _ _ Hr) as (o & Ho & Hp).
    exists o, s', i, v, (Known auth), (Seen auth pp). split_and!; try done; auto; [by eapply policy_read_good|..].
    + intros auth' [?|[? [= <- _]]]; [done|]. left. by left.
    + intros auth' pp' [= <- <-]. rewrite Ec. by eapply policy_read_patch.
  - destruct (policy_read_touches _ _ _ _ _ _ Hr) as (o & Ho & Hp).
    exists o, s', i, v, (Known auth), (Over (Ret (Err e))). split_and!; try done; auto. by intros ? ?%Hover.
  - destruct (policy_write_touches auth pp _ _ _ Hr) as (o & Ho & Hp).
    exists o, s', i, v, (Seen auth pp), (Over r). split_and!; try done; [| |by intros ? ?%Hover].
    + destruct Ho as [?|(q & Hq & ->)]; [auto|]. by eapply (patched_ok auth pp q v).
    + destruct Ho as [?|(q & Hq & ->)]; [auto|]. right. exists i, v, auth, pp.
      destruct Hx as (Ha & _ & _ & body & parsed & Ec). split_and!; try done. simpl in Ec. by rewrite Ec.
Qed.

Lemma kstep_policies w w' b :
  kstep rk w w' → Forall thread_keeps (w_threads w) → policy_view (w_store w') b = policy_view (w_store w) b.
Proof.
  intros Hs Hk. unfold policy_view, policy_map. by rewrite (proj1 (kstep_meta rk _ _ Hs Hk)).
Qed.

(** The invariant is kept, and the step is one of the open system. *)
Lemma good_step R R' : good R → astep rk R R' → good R' ∧ rtc (sstep rk) (r_world R) (r_world R').
Proof.
  intros HR Hs. pose proof HR as (Hst & Hk & Hg).
  destruct (admin_step _ _ HR Hs) as [(w' & Hw & ->)|[(v & Hv & ->)|
    (o & s' & i & v & st & st' & Hi & Hok & _ & Ho & Hgv & -> & _ & _)]]; unfold good; simpl.
  - split; [|by apply rtc_once, s_key]. destruct (kstep_meta _ _ _ Hw Hk) as [Hm Hk'].
    split_and!; [|done|done]. intros b p. unfold r_store. simpl. rewrite (kstep_policies _ _ _ Hw Hk). apply Hst.
  - split; [|done]. split_and!; [done|done|]. apply list.Forall_app. split; [done|]. by constructor.
  - split; [split_and!; [by eapply performs_stored|done|by apply Forall_insert]|].
    destruct R as [[s ts ks] vs]. by eapply performs_sstep.
Qed.

Lemma good_steps R R' : rtc (astep rk) R R' → good R → good R' ∧ rtc (sstep rk) (r_world R) (r_world R').
Proof.
  induction 1 as [R|R1 R2 R3 Hs _ IH]; intros HR; [done|]. destruct (good_step _ _ HR Hs) as [H2 Hr].
  destruct (IH H2) as [H3 Hr']. split; [done|]. by etrans.
Qed.

(** ** Authors *)

(** Since [R1], the policy of its bucket resolved the credential of [v] to [auth]. *)
Definition resolved_since (R1 R : realm) (v : admin) (auth : BucketAuth) : Prop :=
  ∃ Rm p, rtc (astep rk) R1 Rm ∧ rtc (astep rk) Rm R ∧ policy_view (r_store Rm) (bucket_id auth) = Some p
    ∧ Auth.resolve (presented v) p (bucket_id auth) rk (a_now v) = Ok (identity auth).

Lemma resolved_step R1 R R' v auth : astep rk R R' → resolved_since R1 R v auth → resolved_since R1 R' v auth.
Proof. intros Hs (Rm & p & H1 & H2 & Hp). exists Rm, p. split; [done|]. split; [by eapply rtc_r|done]. Qed.

(** Whoever is past the extractor was so at [R1], or was resolved since. *)
Lemma holders R1 R i v st auth :
  good R1 → rtc (astep rk) R1 R → r_admins R !! i = Some (v, st) → holds st auth →
  (∃ st1, r_admins R1 !! i = Some (v, st1) ∧ holds st1 auth) ∨ resolved_since R1 R v auth.
Proof.
  intros HR1 Hr. revert R Hr i v st auth. refine (rtc_ind_r _ _ _ _); [eauto|].
  intros R R' Hr Hs IH i v st auth Hi Hh. pose proof (proj1 (good_steps _ _ Hr HR1)) as HR.
  assert (∀ st0, r_admins R !! i = Some (v, st0) → holds st0 auth →
    (∃ st1, r_admins R1 !! i = Some (v, st1) ∧ holds st1 auth) ∨ resolved_since R1 R' v auth) as Hold.
  { intros st0 H1 H2. destruct (IH _ _ _ _ H1 H2); [by left|right]. by eapply resolved_step. }
  destruct (admin_step _ _ HR Hs) as [(w' & Hw & ->)|[(v' & Hv & ->)|
    (o & s' & i' & v' & st0 & st' & Hi' & Hok & _ & Ho & _ & HR' & Hres & _)]]; simpl in *.
  - eauto.
  - apply lookup_app_Some in Hi as [Hi|[_ Hi]]; [eauto|].
    apply list_lookup_singleton_Some in Hi as [_ [= <- <-]]. by destruct Hh as [?|[? ?]].
  - subst R'. simpl in Hi. apply list_lookup_insert_Some in Hi as [(-> & [= -> ->] & _)|[_ Hi]]; [|eauto].
    destruct (Hres auth Hh) as [H0|(p & Hp & Hr')]; [eauto|]. right. exists R, p.
    split; [done|]. split; [by apply rtc_once|done].
Qed.

(** At [R] a request to change the policy of [b] is past the extractor, as an administrator. *)
Definition under_way (R : realm) (b : BucketId) : Prop :=
  ∃ i v st auth, r_admins R !! i = Some (v, st) ∧ holds st auth ∧ bucket_id auth = b
    ∧ identity auth = Auth.Admin ∧ changes (a_call v).

(** Since [R1], a visitor of [R] created [b], or the policy [b] had resolved its credential to
    the administrator. *)
Definition authored (R1 R : realm) (b : BucketId) : Prop :=
  ∃ Rm v, rtc (astep rk) R1 Rm ∧ rtc (astep rk) Rm R ∧ v ∈ (r_admins R).*1
    ∧ ((∃ uuid form, a_call v = CreateBucket uuid form ∧ b = mkBucketId uuid
          ∧ policy_view (r_store Rm) b = None)
       ∨ changes (a_call v)
         ∧ ∃ p, policy_view (r_store Rm) b = Some p
                ∧ Auth.resolve (presented v) p b rk (a_now v) = Ok Auth.Admin).

Lemma admins_kept R R' : good R → astep rk R R' → (r_admins R).*1 ⊆ (r_admins R').*1.
Proof.
  intros HR Hs. destruct (admin_step _ _ HR Hs) as [(w' & Hw & ->)|[(v' & Hv & ->)|
    (o & s' & i & v & st & st' & Hi & _ & _ & _ & _ & -> & _ & _)]]; simpl; [done|rewrite fmap_app; set_solver|].
  rewrite list_fmap_insert. simpl. rewrite list_insert_id; [done|]. by rewrite list_lookup_fmap, Hi.
Qed.

Lemma authored_step R1 R R' b : good R → astep rk R R' → authored R1 R b → authored R1 R' b.
Proof.
  intros HR Hs (Rm & v & H1 & H2 & Hv & Hrest). exists Rm, v. split; [done|]. split; [by eapply rtc_r|].
  split; [by eapply admins_kept|done].
Qed.

Lemma visitor R i v st : r_admins R !! i = Some (v, st) → v ∈ (r_admins R).*1.
Proof. intros Hi. apply list_elem_of_fmap. exists (v, st). split; [done|]. by eapply list_elem_of_lookup_2. Qed.

(** A step that changes a policy has an author. *)
Lemma change_author R R' b :
  good R → astep rk R R' → policy_view (r_store R') b ≠ policy_view (r_store R) b →
  ∃ o, author R o ∧ ((∃ p, o = Wrote b p ∧ policy_view (r_store R') b = Some p)
                     ∨ o = Removed b ∧ policy_view (r_store R') b = None).
Proof.
  intros HR Hs Hne. destruct (admin_step _ _ HR Hs) as [(w' & Hw & ->)|[(v' & Hv & ->)|
    (o & s' & i & v & st & st' & Hi & Hok & Ha & Ho & _ & -> & _ & _)]]; [|done|].
  - destruct Hne. apply kstep_policies; [done|apply HR].
  - exists o. split; [done|]. exact (performs_view _ _ _ b Hok Ho Hne).
Qed.

Lemma changes_authored R1 R b :
  good R1 → rtc (astep rk) R1 R → policy_view (r_store R) b ≠ policy_view (r_store R1) b →
  under_way R1 b ∨ authored R1 R b.
Proof.
  intros HR1 Hr. revert R Hr. refine (rtc_ind_r _ _ _ _); [done|]. intros R R' Hr Hs IH Hne.
  pose proof (proj1 (good_steps _ _ Hr HR1)) as HR.
  destruct (decide (policy_view (r_store R') b = policy_view (r_store R) b)) as [He|Hn].
  { destruct IH as [?|?]; [congruence|by left|right]. by eapply authored_step. }
  assert ((∃ i v q, r_admins R !! i = Some (v, Came) ∧ creator R v b q) ∨ under_way R b)
    as [(i & v & q & Hi & uuid & form & Hc & Hb & Hn' & _)|Hu].
  { destruct (change_author _ _ _ HR Hs Hn) as (o & Ha & [(p & -> & _)|[-> _]]); simpl in Ha.
    - destruct Ha as [(i & v & Hi & Hc)|(i & v & auth & pp & Hi & Hb & Ha & Hc & _)]; [left; by exists i, v, p|].
      right. exists i, v, (Seen auth pp), auth. split_and!; try done. right. by exists pp.
    - destruct Ha as (i & v & auth & Hi & Hb & Ha & Hc). right. exists i, v, (Known auth), auth.
      split_and!; try done. by left. }
  - right. apply (authored_step _ R); [done|done|].
    exists R, v. split_and!; [done|done|by eapply visitor|]. left. by exists uuid, form.
  - destruct Hu as (i & v & st & auth & Hi & Hh & Hb & Ha & Hc).
    destruct (holders R1 R i v st auth HR1 Hr Hi Hh) as [(st1 & H1 & H2)|(Rm & p & H1 & H2 & Hp & Hres)].
    + left. by exists i, v, st1, auth.
    + right. apply (authored_step _ R); [done|done|]. exists Rm, v.
      split_and!; [done|done|by eapply visitor|]. right. rewrite Hb, Ha in *. split; [done|]. by exists p.
Qed.

(** ** Where a policy comes from *)

(** The policy [q] of [b] was there at [R0], or was made by a creation, or is the patch of a policy
    the bucket had at some instant since. *)
Definition origin (R0 R : realm) (b : BucketId) (q : BucketPolicy) : Prop :=
  policy_view (r_store R0) b = Some q
  ∨ ∃ Rm v, rtc (astep rk) R0 Rm ∧ rtc (astep rk) Rm R ∧ v ∈ (r_admins R).*1
      ∧ (creator Rm v b q
         ∨ ∃ p patch, patch_of (a_call v) = Some patch ∧ policy_view (r_store Rm) b = Some p
             ∧ PolicyRace.patched_policy rk p patch = Some q).

(** The first task of a policy [PATCH] read what the bucket had at some instant. *)
Lemma seen_read R0 R i v auth pp :
  good R0 → r_admins R0 = [] → rtc (astep rk) R0 R → r_admins R !! i = Some (v, Seen auth pp) →
  ∃ Rm, rtc (astep rk) R0 Rm ∧ rtc (astep rk) Rm R
    ∧ policy_view (r_store Rm) (bucket_id auth) = Some pp.1 ∧ patch_of (a_call v) = Some pp.2.
Proof.
  intros HR0 Hnil Hr. revert R Hr i v. refine (rtc_ind_r _ _ _ _); [intros i v; by rewrite Hnil|].
  intros R R' Hr Hs IH i v Hi. pose proof (proj1 (good_steps _ _ Hr HR0)) as HR.
  assert (r_admins R !! i = Some (v, Seen auth pp) → ∃ Rm, rtc (astep rk) R0 Rm ∧ rtc (astep rk) Rm R'
    ∧ policy_view (r_store Rm) (bucket_id auth) = Some pp.1 ∧ patch_of (a_call v) = Some pp.2) as Hold.
  { intros (Rm & H1 & H2 & Hp)%IH. exists Rm. split; [done|]. split; [by eapply rtc_r|done]. }
  destruct (admin_step _ _ HR Hs) as [(w' & Hw & ->)|[(v' & Hv & ->)|
    (o & s' & i' & v' & st0 & st' & Hi' & Hok & _ & Ho & _ & HR' & _ & Hseen)]]; simpl in *.
  - eauto.
  - apply lookup_app_Some in Hi as [Hi|[_ Hi]]; [eauto|].
    by apply list_lookup_singleton_Some in Hi as [_ [= ]].
  - subst R'. simpl in Hi. apply list_lookup_insert_Some in Hi as [(-> & [= -> ->] & _)|[_ Hi]]; [|eauto].
    destruct (Hseen auth pp eq_refl). exists R. split; [done|]. split; [by apply rtc_once|done].
Qed.

Lemma origin_step R0 R R' b q : good R → astep rk R R' → origin R0 R b q → origin R0 R' b q.
Proof.
  intros HR Hs [?|(Rm & v & H1 & H2 & Hv & Hrest)]; [by left|right]. exists Rm, v. split; [done|].
  split; [by eapply rtc_r|]. split; [by eapply admins_kept|done].
Qed.

Lemma origins R0 R b q :
  good R0 → r_admins R0 = [] → rtc (astep rk) R0 R → policy_view (r_store R) b = Some q → origin R0 R b q.
Proof.
  intros HR0 Hnil Hr. revert R Hr q. refine (rtc_ind_r _ _ _ _); [by left|].
  intros R R' Hr Hs IH q Hq. pose proof (proj1 (good_steps _ _ Hr HR0)) as HR.
  destruct (decide (policy_view (r_store R') b = policy_view (r_store R) b)) as [He|Hn].
  { eapply origin_step; [done|done|]. apply IH. congruence. }
  destruct (change_author _ _ _ HR Hs Hn) as (o & Ha & [(p & -> & Hp)|[-> Hp]]); [|congruence].
  assert (p = q) as -> by congruence. apply (origin_step _ R); [done|done|]. right.
  destruct Ha as [(i & v & Hi & Hc)|(i & v & auth & pp & Hi & Hb & _ & _ & Hpt)].
  - exists R, v. split_and!; [done|done|by eapply visitor|by left].
  - destruct (seen_read R0 R i v auth pp HR0 Hnil Hr Hi) as (Rm & H1 & H2 & Hp1 & Hp2).
    exists Rm, v. split_and!; [done|done|by eapply visitor|]. right. rewrite Hb in Hp1. by exists pp.1, pp.2.
Qed.

End Touches.

End AdminSessions.

Import AdminSessions.

Section Theorems.
Context {T : TimeOps} {P : PostcardOps} {J : PolicyJsonOps} {F : FjallOps} {H : HasherOps}
        {L : LayoutOps}.
Context {JS : JsonOps} {JV : JsonValueOps} {W : WireOps} {C : CryptoOps} {K : TokenOps}.
Context {TL : TimeLaws T} {PL : PostcardLaws P} {JL : PolicyJsonLaws J} {FL : FjallLaws F}
        {LL : LayoutLaws L} {CL : CryptoLaws C}.

(** C3: Every change of a policy has an author. Key requests, the sweeper and the administration
    requests (creation, policy [PATCH], deletion, policy view, token) run interleaved, task by
    task, over a backend that may fail, from a store whose policies are well formed. The run is
    one of the open system of [sessions_authorized]: its storage requests were each authorized
    since they were not yet there. Every policy in the store stays well formed and consistent, and
    was there at the start, or is the one a creation computes from its form, or a patch of a policy
    its bucket had at an earlier instant. And when the policy of a bucket differs between two
    instants, then a request of an administrator of that bucket was under way at the first, or
    since then somebody created the bucket when it did not exist, or the policy the bucket had
    resolved the credential of a [PATCH] or [DELETE] to the administrator. *)
Theorem policies_authored (rk : SigningKey) (s0 : Store.FjallStore) (R1 R2 : realm) :
  let R0 := mkRealm (mkWorld s0 [] []) [] in
  stored s0 → rtc (astep rk) R0 R1 → rtc (astep rk) R1 R2 →
  (rtc (sstep rk) (r_world R0) (r_world R1) ∧ rtc (sstep rk) (r_world R1) (r_world R2)
   ∧ all_justified rk (r_world R1) (r_world R2))
  ∧ (∀ b q, policy_view (r_store R2) b = Some q → stored_ok b q ∧ origin rk R0 R2 b q)
  ∧ ∀ b, policy_view (r_store R2) b ≠ policy_view (r_store R1) b →
      under_way R1 b ∨ authored rk R1 R2 b.
Proof.
  intros R0 Hs H1 H2. assert (good R0) as HR0 by (by split_and!).
  destruct (good_steps rk _ _ H1 HR0) as [HR1 Hw1]. destruct (good_steps rk _ _ H2 HR1) as [HR2 Hw2].
  assert (rtc (astep rk) R0 R2) as H02 by (by etrans).
  split_and!; [done|done| | |].
  - apply all_justified_steps; [|done]. destruct HR1 as (Hst & Hk & _). split; [|done].
    intros b p Hp. by destruct (Hst b p Hp) as (_ & _ & ?).
  - intros b q Hq. split; [by apply HR2|]. by apply origins.
  - intros b. by apply changes_authored.
Qed.

End Theorems.

(** ** Witness *)

(** A bucket is created; one administrator starts to change its default TTL, another deletes it,
    and the change completes, so that the bucket is back; an anonymous write passes in between. *)
Definition owner_form : Buckets.CreateBucketForm :=
  Buckets.mkCreateForm (bs "a@b.c") (Some (bs "secret")) None None None None.

Definition owner_parts : Parts :=
  mkParts (bs "/" ++ Bucket.as_str demo_bucket) None (mkHeaders (Some (bs "Bearer secret")) None None).

Definition by_owner (c : admin_call) : admin := mkAdmin owner_parts (at_nanos 0) c.

Definition realm_before : list event :=
  [ECome (by_owner (CreateBucket (Bucket.as_str demo_bucket) owner_form)); EAdmin 0;
   ECome (by_owner (UpdatePolicy (bs "{}") (Some ttl_patch))); ETraffic (EArrive writer)]%nat.

Definition realm_after : list event :=
  [EAdmin 1; EAdmin 1; ETraffic (EVisit 0); ETraffic (EThread 0);
   ECome (by_owner DeleteBucket); EAdmin 2; EAdmin 2; EAdmin 1]%nat.

Definition realm_played (es : list event) (R : realm) : realm := default R (play demo_rk es R).

Lemma realm_played_asteps es R :
  Concurrency.is_some (play demo_rk es R) = true → rtc (astep demo_rk) R (realm_played es R).
Proof.
  unfold realm_played. destruct (play demo_rk es R) as [R'|] eqn:E; [|done]. intros _. by eapply play_asteps.
Qed.

Definition over_statuses (R : realm) : list (option N) :=
  (λ x, match x.2 with
        | Over (Ret (Ok r)) | Over (Ret (Err r)) => Some (status r)
        | _ => None
        end) <$> r_admins R.

Lemma policies_authored_witness :
  let R1 := realm_played realm_before (mkRealm (mkWorld demo0 [] []) []) in
  let R2 := realm_played realm_after R1 in
  over_statuses R2 = [Some 200%N; Some 204%N; Some 204%N]
  ∧ policy_view (r_store R2) demo_bucket ≠ policy_view (r_store R1) demo_bucket
  ∧ ∀ b, policy_view (r_store R2) b ≠ policy_view (r_store R1) b →
      under_way R1 b ∨ authored demo_rk R1 R2 b.
Proof.
  intros R1 R2. split; [vm_refl|]. split; [apply (bool_decide_eq_true_1 _); vm_refl|].
  apply (policies_authored demo_rk demo0 R1 R2).
  - by intros b p.
  - apply realm_played_asteps. vm_refl.
  - apply realm_played_asteps. vm_refl.
Defined.
