(* ===== verification/Reference.v ===== *)
(** * The reference service

    The server over two finite maps: policies by bucket and entries by bucket and key, with no
    encoding, no index, no locks and no failures. It runs the same handlers, because they are
    written against the repository traits. [represents] relates a Fjall store to such a pair of
    maps; [refines] relates computations that answer alike and stay related. *)

From Stdlib Require Import Strings.Byte.
From S2P Require Import Prelude RustStd TimeLib Domain Counter Ports Codec FjallLib Locks Store StoreSpec StoreList StoreRepo StoreProps KeyService Auth HttpBase Effects.
Import Http.

#[global] Instance BucketId_countable : Countable BucketId :=
  inj_countable' Bucket.as_str mkBucketId ltac:(by intros []).
#[global] Instance Key_countable : Countable Key := inj_countable' as_bytes mkKey ltac:(by intros []).

Module Reference.

Section Reference.
Context {T : TimeOps} {L : LayoutOps}.

Record Ref : Type := mkRef {
  policies : gmap BucketId BucketPolicy;
  entries : gmap (BucketId * Key) StoredEntry;
}.

Definition set_policies (f : gmap BucketId BucketPolicy → gmap BucketId BucketPolicy) (r : Ref) : Ref :=
  mkRef (f (policies r)) (entries r).
Definition set_entries (f : gmap (BucketId * Key) StoredEntry → gmap (BucketId * Key) StoredEntry)
    (r : Ref) : Ref := mkRef (policies r) (f (entries r)).

Definition entry_of (r : Ref) (b : BucketId) (k : Key) : option StoredEntry := entries r !! (b, k).

(** ** Listings *)

Definition listedb (r : Ref) (b : BucketId) (opts : ListOpts) (k : Key) : bool :=
  bool_decide (Key.key_ok k) && bool_decide (default [] (prefix opts) `prefix_of` as_bytes k)
  && match entry_of r b k with
     | Some en => negb (expired_before (expires_before opts) en)
     | None => false
     end.

(** The keys of a bucket, as a map from their bytes. *)
Definition bucket_keys (r : Ref) (b : BucketId) (opts : ListOpts) : gmap bytes bytes :=
  list_to_map ((λ bk, (as_bytes bk.2, [])) <$>
    filter (λ bk, bk.1 = b ∧ listedb r b opts bk.2 = true) (map_to_list (entries r)).*1).

Definition keys_in_order (r : Ref) (b : BucketId) (opts : ListOpts) : list Key :=
  mkKey <$> (scan_list (bucket_keys r b opts) []).*1.

(** The capacity panic of a reverse listing is part of the behaviour. *)
Definition too_wide (opts : ListOpts) : bool :=
  negb (limit opts =? 0)%N && reverse opts
  && Usize.with_capacity_panics size_of_ListEntry (Usize.saturating_add (skip opts) (limit opts)).

(** ** The repositories *)

#[global] Instance ref_buckets : BucketRepository Ref := {
  ping_metadata := comp_ret tt;
  get_policy b := λ r, (Ret (Ok (policies r !! b)), r);
  create_bucket b p := λ r, (Ret (Ok tt), set_policies <[b := p]> r);
  delete_bucket b := λ r, (Ret (Ok tt), set_policies (delete b) r);
}.

Definition apply_op (b : BucketId) (m : gmap (BucketId * Key) StoredEntry) (op : TxnOp)
    : gmap (BucketId * Key) StoredEntry :=
  match op with
  | TxnSet k v e => <[(b, k) := written v e]> m
  | TxnDelete k => delete (b, k) m
  end.

#[global] Instance ref_keys : KeyRepository Ref := {
  repo_get b k := λ r, (Ret (Ok (entry_of r b k)), r);
  repo_set b k v e := λ r, (Ret (Ok tt), set_entries <[(b, k) := written v e]> r);
  repo_delete b k := λ r,
    (Ret (Ok (bool_decide (is_Some (entry_of r b k)))), set_entries (delete (b, k)) r);
  repo_list b opts := λ r,
    (if too_wide opts then Panic
     else Ret (Ok (page opts (list_row (entry_of r b) opts <$> keys_in_order r b opts))), r);
  repo_increment now b k op e := λ r,
    match incremented now (entry_of r b k) op with
    | Ok v => (Ret (Ok v), set_entries <[(b, k) := written v e]> r)
    | Err de => (Ret (Err (DomainErr de)), r)
    end;
  repo_apply_batch b ops := λ r,
    (Ret (Ok tt), set_entries (λ m, foldl (apply_op b) m ops) r);
}.

(** ** Facts *)

Lemma listedb_spec r b opts k : listedb r b opts k = true ↔ listed (entry_of r b) opts k.
Proof.
  unfold listedb, listed. rewrite !andb_true_iff, !bool_decide_eq_true.
  destruct (entry_of r b k) as [en|]; [|naive_solver].
  rewrite negb_true_iff. naive_solver.
Qed.

Lemma bucket_keys_lookup r b opts x :
  is_Some (bucket_keys r b opts !! x) ↔ listed (entry_of r b) opts (mkKey x).
Proof.
  unfold bucket_keys. rewrite <- not_eq_None_Some, <- not_elem_of_list_to_map, <- list_fmap_compose.
  rewrite <- listedb_spec. split.
  - intros Hin. apply dec_stable in Hin. apply list_elem_of_fmap in Hin as ([b' [k]] & -> & Hin).
    apply list_elem_of_filter in Hin as [[Hb Hl] _]. simpl in *. by subst.
  - intros Hl Hn. apply Hn, list_elem_of_fmap. exists (b, mkKey x). split; [done|].
    apply list_elem_of_filter. split; [done|]. unfold listedb in Hl. apply andb_prop in Hl as [_ Hl].
    unfold entry_of in Hl. destruct (entries r !! (b, mkKey x)) as [en|] eqn:Hen; [|done].
    apply list_elem_of_fmap. exists ((b, mkKey x), en). split; [done|]. by apply elem_of_map_to_list.
Qed.

Lemma keys_in_order_ok r b opts :
  StronglySorted key_lt (keys_in_order r b opts)
  ∧ ∀ k, k ∈ keys_in_order r b opts ↔ listed (entry_of r b) opts k.
Proof.
  destruct (scan_list_ok (bucket_keys r b opts) []) as [Hs He]. unfold keys_in_order. split.
  - revert Hs. generalize (scan_list (bucket_keys r b opts) []).*1. clear He. intros l.
    induction 1 as [|x l Hs IH Hf]; [constructor|]. rewrite fmap_cons. constructor; [done|].
    apply Forall_fmap. eapply list.Forall_impl; [exact Hf|]. done.
  - intros [x]. rewrite <- bucket_keys_lookup. split.
    + intros Hk. apply list_elem_of_fmap in Hk as (y & [= ->] & Hk).
      apply list_elem_of_fmap in Hk as ([y' v] & -> & Hk). apply He in Hk as [Hk _]. by exists v.
    + intros [v Hv]. apply list_elem_of_fmap. exists x. split; [done|].
      apply list_elem_of_fmap. exists (x, v). split; [done|]. apply He.
      split; [done|apply prefix_nil].
Qed.

(** An ordered list of keys is determined by its elements. *)
Lemma sorted_keys_unique (l m : list Key) :
  StronglySorted key_lt l → StronglySorted key_lt m → (∀ k, k ∈ l ↔ k ∈ m) → l = m.
Proof.
  intros Hl Hm Heq. set (f := λ k : Key, (as_bytes k, @nil byte)).
  assert (∀ n, StronglySorted key_lt n → StronglySorted bytes_lt (f <$> n).*1) as Hf.
  { clear. induction 1 as [|k n Hs IH Hk]; simpl; [constructor|]. constructor; [done|].
    rewrite <- list_fmap_compose. by apply Forall_fmap. }
  assert (∀ k k', f k = f k' → k = k') as Hinj by (intros [] [] [=]; simpl in *; by subst).
  assert (f <$> l = f <$> m) as He.
  { apply sorted_same_elements; [by apply Hf..|]. intros kv. rewrite !list_elem_of_fmap. naive_solver. }
  clear Hl Hm Heq Hf. revert m He.
  induction l as [|k l IH]; intros [|k' m] He; try done.
  rewrite !fmap_cons in He. injection He as Hk He. f_equal; [|by apply IH].
  destruct k, k'. simpl in *. by subst.
Qed.

End Reference.

End Reference.
