(* ===== verification/Refine.v ===== *)
(** * The server refines the reference service

    Over a healthy backend every operation of the adapter answers as the reference repository
    does and keeps the two states related; the handlers, being the same code over both, then
    answer alike, and so does the whole server on every sequence of requests. *)

From Stdlib Require Import Strings.Byte.
From S2P Require Import Prelude RustStd TimeLib Domain Counter Ports Codec FjallLib Locks Store StoreSpec StoreList StoreRepo StoreProps KeyService KeyProps Auth HttpBase HttpRoutes HttpBuckets HttpProps Effects Router Routing ServerProps Reference.
Import Http Reference.

Section Refine.
Context {T : TimeOps} {P : PostcardOps} {J : PolicyJsonOps} {F : FjallOps} {H : HasherOps}
        {L : LayoutOps}.
Context {TL : TimeLaws T} {PL : PostcardLaws P} {JL : PolicyJsonLaws J} {FL : FjallLaws F}
        {LL : LayoutLaws L}.

(** ** The relation *)

(** [s] is healthy, sane and stores exactly the policies and entries of [a]. *)
Record represents (s : Store.FjallStore) (a : Ref) : Prop := {
  rp_good : store_good s;
  rp_sane : sane s;
  rp_readable x l : cont s Meta !! x = Some l → is_ok (decode_policy l) = true;
  rp_ping : Store.fail_ping_metadata s = false;
  rp_policies b : policy_view s b = policies a !! b;
  rp_entries b k : Layout.bucket_ok b → view s b k = entry_of a b k;
}.

(** Running both from related states gives one answer and related states. *)
Definition refines {A E} (m : comp Store.FjallStore A E) (m' : comp Ref A E) (Q : A → Prop) : Prop :=
  ∀ s a, represents s a →
    (m' a).1 = (m s).1 ∧ represents (m s).2 (m' a).2 ∧ ∀ x, (m s).1 = Ret (Ok x) → Q x.

Lemma refines_lift {A E} (r : result A E) (Q : A → Prop) :
  (∀ x, r = Ok x → Q x) → refines (comp_lift r) (comp_lift r) Q.
Proof. intros HQ s a Hr. split; [done|]. split; [done|]. intros x [= Hx]. by apply HQ. Qed.

Lemma refines_ret {A E} (x : A) (Q : A → Prop) :
  Q x → refines (comp_ret (E := E) x) (comp_ret x) Q.
Proof. intros HQ s a Hr. split; [done|]. split; [done|]. by intros y [= <-]. Qed.

Lemma refines_err {A E} (e : E) (Q : A → Prop) : refines (comp_err e) (comp_err e) Q.
Proof. intros s a Hr. done. Qed.

Lemma refines_bind {A B E} (m : comp Store.FjallStore A E) m' f f' (Q : A → Prop) (Q' : B → Prop) :
  refines m m' Q → (∀ x, Q x → refines (f x) (f' x) Q') →
  refines (comp_bind m f) (comp_bind m' f') Q'.
Proof.
  intros Hm Hf s a Hr. destruct (Hm s a Hr) as (H1 & H2 & H3). unfold comp_bind.
  destruct (m s) as [r s1], (m' a) as [r' a1]. simpl in *. subst r'.
  destruct r as [[x|e]|]; [|done|done]. apply Hf; [by apply H3|done].
Qed.

(** [?] on a pure result. *)
Lemma refines_pure {A B E} (r : result A E) (f : A → comp Store.FjallStore B E) f' (Q : B → Prop) :
  (∀ x, r = Ok x → refines (f x) (f' x) Q) →
  refines (comp_bind (comp_lift r) f) (comp_bind (comp_lift r) f') Q.
Proof. intros Hf. eapply refines_bind; [by apply (refines_lift r (λ x, r = Ok x))|done]. Qed.

Lemma refines_spawn {A} (m : comp Store.FjallStore A UseCaseError) m' (Q : A → Prop) :
  refines m m' Q → refines (spawn_usecase m) (spawn_usecase m') Q.
Proof.
  intros Hm s a Hr. destruct (Hm s a Hr) as (H1 & H2 & H3). unfold spawn_usecase.
  destruct (m s) as [r s1], (m' a) as [r' a1]. simpl in *. subst r'.
  destruct r as [[x|e]|]; simpl; (split; [done|]); (split; [done|]); [|done|done].
  intros y [= <-]. by apply H3.
Qed.

(** ** Writes and the relation *)

(** In a good state a postcondition leaves an answer or an error of the operation itself. *)
Lemma post_cases {A} s (good : Prop) W (D : UseCaseError → Prop) (r : exec (result A UseCaseError)) s' :
  good → post s good W D r s' →
  framed s s' ∧ ((∃ x ws, r = Ret (Ok x) ∧ W x ws ∧ applied s s' ws)
                 ∨ ∃ e, r = Ret (Err e) ∧ D e ∧ applied s s' []).
Proof.
  intros Hg [Hf Hr]. split; [done|]. destruct r as [[x|e]|]; [| |done].
  - left. destruct Hr as (ws & HW & Ha). by exists x, ws.
  - right. destruct Hr as [[HD Ha]|(_ & Hn & _)]; [by exists e|by destruct Hn].
Qed.

Lemma represents_applied PB DB s s' a a' ws :
  represents s a → framed s s' → applied s s' ws → writes_ok PB DB (cont s) ws →
  (∀ x l, apply_writes (cont s) ws Meta !! x = Some l → is_ok (decode_policy l) = true) →
  (∀ b, policy_map (apply_writes (cont s) ws) b = policies a' !! b) →
  (∀ b k, Layout.bucket_ok b → view_map (apply_writes (cont s) ws) b k = entry_of a' b k) →
  represents s' a'.
Proof.
  intros [(Hh & Hl & Hi) Hs Hrd Hp _ _] (Hlk & Hfp & Hhe) Ha Hw Hm Hpol Hv.
  destruct (applied_safe PB DB s s' ws Ha Hw Hs) as (Hs' & _ & _ & Hinv). split.
  - split; [by apply Hhe|]. split; [by rewrite Hlk|by apply Hinv].
  - done.
  - intros x l Hx. apply (Hm x). by rewrite <- Ha.
  - by rewrite Hfp.
  - intros b. unfold policy_view. by rewrite (policy_map_ext _ _ b Ha).
  - intros b k Hb. unfold view. rewrite (view_map_ext _ _ b k Ha). by apply Hv.
Qed.

Lemma represents_same s s' a : represents s a → framed s s' → applied s s' [] → represents s' a.
Proof.
  intros Hr Hf Ha. eapply (represents_applied nowhere no_key s s' a a []); try done.
  - apply writes_none.
  - apply Hr.
  - apply Hr.
  - apply Hr.
Qed.

(** Writes to entries leave the metadata alone. *)
Lemma represents_data DB s s' a f ws :
  represents s a → framed s s' → applied s s' ws → writes_ok nowhere DB (cont s) ws →
  apply_writes (cont s) ws Meta = cont s Meta →
  (∀ b k, Layout.bucket_ok b → view_map (apply_writes (cont s) ws) b k = f (entries a) !! (b, k)) →
  represents s' (set_entries f a).
Proof.
  intros Hr Hf Ha Hw Hm Hv. eapply represents_applied; [done..| | |done].
  - rewrite Hm. apply Hr.
  - intros b. unfold policy_map. rewrite Hm. apply Hr.
Qed.

(** ** The operations of the adapter *)

Lemma refines_get_policy b :
  refines (Store.get_policy b) (get_policy b) (λ o, ∀ p, o = Some p → stored_ok b p).
Proof.
  intros s a Hr. simpl. pose proof (spec_get_policy s b) as Hs. unfold wp in Hs.
  destruct (post_cases _ _ _ _ _ _ (conj (proj1 (rp_good s a Hr))
    (λ l Hl, rp_readable s a Hr (Bucket.as_str b) l Hl)) Hs)
    as [Hf [(x & ws & Hx & [-> ->] & Ha)|(e & _ & [] & _)]].
  rewrite Hx, (rp_policies s a Hr). split; [done|]. split; [by apply represents_same with s|].
  intros o [= <-] p Hp. apply (proj2 (rp_sane s a Hr)). by rewrite (rp_policies s a Hr).
Qed.

Lemma refines_create_bucket b p :
  stored_ok b p → refines (Store.create_bucket b p) (create_bucket b p) (λ _, True).
Proof.
  intros Hok s a Hr. simpl. pose proof (spec_create_bucket s b p (proj1 (proj2 Hok))) as Hs. unfold wp in Hs.
  destruct (post_cases _ _ _ _ _ _ (proj1 (rp_good s a Hr)) Hs)
    as [Hf [([] & ws & Hx & (l & Hl & ->) & Ha)|(e & _ & [] & _)]].
  rewrite Hx. split; [done|]. split; [|done].
  assert (∀ b', policy_map (apply_writes (cont s) [BatchInsert Meta (Bucket.as_str b) l]) b'
    = <[b := p]> (policies a) !! b') as Hpol.
  { intros b'. rewrite (policy_insert _ b p l) by (done || apply Hok).
    case_decide; [subst; by rewrite lookup_insert_eq|]. rewrite lookup_insert_ne by done. apply Hr. }
  eapply (represents_applied (λ b', b' = b) no_key); [done..| | |exact Hpol|].
  - split; [done|]. split; [by left|]. intros b'. rewrite (policy_insert _ b p l) by (done || apply Hok).
    case_decide; [subst; right; split; [done|by intros ? [= <-]]|by left].
  - intros x l'. simpl. unfold apply_write. simpl.
    destruct (decide (x = Bucket.as_str b)) as [->|Hx'].
    + rewrite lookup_insert_eq. intros [= <-].
      destruct (PolicyCodec.decode_encode_policy p) as (l2 & Hl2 & Hd); [apply Hok|].
      assert (l2 = l) as -> by congruence. by rewrite Hd.
    + rewrite lookup_insert_ne by done. apply Hr.
  - apply Hr.
Qed.

Lemma refines_delete_bucket b :
  refines (Store.delete_bucket b) (delete_bucket b) (λ _, True).
Proof.
  intros s a Hr. simpl. pose proof (spec_delete_bucket s b) as Hs. unfold wp in Hs.
  destruct (post_cases _ _ _ _ _ _ (proj1 (rp_good s a Hr)) Hs)
    as [Hf [([] & ws & Hx & -> & Ha)|(e & _ & [] & _)]].
  rewrite Hx. split; [done|]. split; [|done].
  eapply (represents_applied (λ b', b' = b) no_key); [done..| | | |].
  - split; [done|]. split; [by left|]. intros b'. rewrite policy_remove. case_decide; [subst; by right|by left].
  - intros x l'. simpl. unfold apply_write. simpl.
    destruct (decide (x = Bucket.as_str b)) as [->|Hx']; [by rewrite lookup_delete_eq|].
    rewrite lookup_delete_ne by done. apply Hr.
  - intros b'. rewrite policy_remove. simpl. case_decide; [subst; by rewrite lookup_delete_eq|].
    rewrite lookup_delete_ne by done. apply Hr.
  - apply Hr.
Qed.

Lemma refines_get b k : Layout.bucket_ok b → refines (Store.get b k) (repo_get b k) (λ _, True).
Proof.
  intros Hb s a Hr. simpl. pose proof (spec_get s b k) as Hs. unfold wp in Hs.
  destruct (post_cases _ _ _ _ _ _ (rp_good s a Hr) Hs)
    as [Hf [(x & ws & Hx & [-> ->] & Ha)|(e & _ & [] & _)]].
  rewrite Hx, (rp_entries s a Hr) by done. split; [done|]. split; [by apply represents_same with s|done].
Qed.

Lemma entry_represents s s' a b k v e l :
  represents s a → framed s s' → Layout.bucket_ok b → Value.value_ok v →
  encode_entry (E := fjall_error) v e = Ok l →
  applied s s' (entry_writes (Layout.data_storage_key b k) l e) →
  represents s' (set_entries <[(b, k) := written v e]> a).
Proof.
  intros Hr Hf Hb Hv Hl Ha. eapply (represents_data (λ _ _, True)); [done..| | |].
  - by eapply entry_writes_ok.
  - by destruct e.
  - intros b' k' Hb'. rewrite (view_entry_writes _ b k v e l) by done.
    case_decide as Hd; [by rewrite Hd, lookup_insert_eq|]. rewrite lookup_insert_ne by congruence.
    by apply (rp_entries s a Hr).
Qed.

Lemma refines_set b k v e :
  Layout.bucket_ok b → Value.value_ok v → refines (Store.set b k v e) (repo_set b k v e) (λ _, True).
Proof.
  intros Hb Hv s a Hr. simpl. pose proof (spec_set s b k v e Hv) as Hs. unfold wp in Hs.
  destruct (post_cases _ _ _ _ _ _ (rp_good s a Hr) Hs)
    as [Hf [([] & ws & Hx & (l & Hl & ->) & Ha)|(e' & _ & [] & _)]].
  rewrite Hx. split; [done|]. split; [by eapply entry_represents|done].
Qed.

Lemma refines_increment now b k op e :
  Layout.bucket_ok b →
  refines (Store.increment now b k op e) (repo_increment now b k op e) (λ _, True).
Proof.
  intros Hb s a Hr. simpl. pose proof (spec_increment s now b k op e) as Hs. unfold wp in Hs.
  rewrite (rp_entries s a Hr) in Hs by done.
  destruct (post_cases _ _ _ _ _ _ (rp_good s a Hr) Hs)
    as [Hf [(v & ws & Hx & (Hv & l & Hl & ->) & Ha)|(err & Hx & (de & -> & Hd) & Ha)]]; rewrite Hx.
  - rewrite Hv. split; [done|]. split; [|done]. eapply entry_represents; eauto using incremented_ok.
  - rewrite Hd. split; [done|]. split; [by apply represents_same with s|done].
Qed.

Lemma refines_delete b k :
  Layout.bucket_ok b → refines (Store.delete b k) (repo_delete b k) (λ _, True).
Proof.
  intros Hb s a Hr. simpl. destruct (Store.delete b k s) as [r s'] eqn:Er. simpl.
  pose proof (wp_elim _ _ _ _ _ (spec_delete s b k) Er) as Hs.
  apply delete_outcome in Er as (_ & _ & Ho); [|done].
  destruct (post_cases _ _ _ _ _ _ (rp_good s a Hr) Hs)
    as [Hf [(x & ws & -> & [Hx ->] & Ha)|(e' & _ & [] & _)]].
  destruct Ho as [_ Hex]. specialize (Hex (proj2 (proj2 (rp_good s a Hr)))).
  rewrite Hex, (rp_entries s a Hr) by done. split; [done|]. split; [|done].
  assert (∀ b' k', Layout.bucket_ok b' →
    view_map (apply_writes (cont s) (if x then [BatchRemove Data (Layout.data_storage_key b k)] else [])) b' k'
    = delete (b, k) (entries a) !! (b', k')) as Hv.
  { intros b' k' Hb'. destruct x.
    - rewrite view_remove by done. case_decide as Hd; [by rewrite Hd, lookup_delete_eq|].
      rewrite lookup_delete_ne by congruence. by apply (rp_entries s a Hr).
    - symmetry in Hex. apply bool_decide_eq_false in Hex. rewrite (rp_entries s a Hr) in Hex by done.
      rewrite delete_id; [by apply (rp_entries s a Hr)|].
      unfold entry_of in Hex. destruct (entries a !! (b, k)); [|done]. exfalso. apply Hex. by eexists. }
  eapply (represents_data (λ _ _, True)); [done..| | |exact Hv].
  - destruct x; [by apply remove_writes_ok|apply writes_none].
  - by destruct x.
Qed.

Lemma meta_batch items m : apply_writes m (items ≫= Store.item_writes) Meta = m Meta.
Proof.
  revert m. induction items as [|it items IH]; intros m; [done|].
  rewrite bind_cons, apply_writes_app, IH. by destruct it as [k l [i|]|k].
Qed.

(** Folding the steps over the map is folding their effects at each key. *)
Lemma apply_ops_lookup b ops m b' k :
  foldl (apply_op b) m ops !! (b', k)
  = if decide (b' = b) then txn_result k (m !! (b', k)) ops else m !! (b', k).
Proof.
  revert m. induction ops as [|op ops IH]; intros m; simpl; [by case_decide|].
  rewrite IH. case_decide as Hb; [subst b'|].
  - unfold txn_result. simpl. f_equal. destruct op as [k' v e|k']; simpl; case_decide; subst.
    + by rewrite lookup_insert_eq.
    + by rewrite lookup_insert_ne by congruence.
    + by rewrite lookup_delete_eq.
    + by rewrite lookup_delete_ne by congruence.
  - destruct op as [k' v e|k']; simpl; [by rewrite lookup_insert_ne by congruence|].
    by rewrite lookup_delete_ne by congruence.
Qed.

Lemma refines_apply_batch b ops :
  Layout.bucket_ok b → Forall txn_ok ops →
  refines (Store.apply_batch b ops) (repo_apply_batch b ops) (λ _, True).
Proof.
  intros Hb Hok s a Hr. simpl. pose proof (spec_apply_batch s b ops Hok) as Hs. unfold wp in Hs.
  destruct (post_cases _ _ _ _ _ _ (rp_good s a Hr) Hs)
    as [Hf [([] & ws & Hx & (items & Hi & ->) & Ha)|(e' & _ & [] & _)]].
  rewrite Hx. split; [done|]. split; [|done].
  eapply (represents_data (λ _ _, True)); [done..| | |].
  - by eapply batch_writes_ok.
  - apply meta_batch.
  - intros b' k' Hb'. rewrite (view_batch b ops items), apply_ops_lookup by done.
    change (view_map (cont s)) with (view s). by rewrite (rp_entries s a Hr).
Qed.

(** ** Listings *)

Lemma list_panics s b opts : too_wide opts = true → Store.list b opts s = (Panic, s).
Proof.
  unfold too_wide. intros Hw. apply andb_prop in Hw as [Hw Hc]. apply andb_prop in Hw as [Hl Hr].
  apply negb_true_iff in Hl.
  assert ((Usize.saturating_add (skip opts) (limit opts) =? 0)%N = false) as Hz.
  { apply N.eqb_neq. apply N.eqb_neq in Hl. unfold Usize.saturating_add, Usize.usize_max. lia. }
  unfold Store.list, Store.recorded, Store.list_inner. cbv zeta. by rewrite Hl, Hr, Hz, Hc.
Qed.

Lemma list_answers s b opts :
  store_good s → too_wide opts = false → ∃ l s', Store.list b opts s = (Ret (Ok l), s').
Proof.
  intros Hg Hw. destruct (Store.list b opts s) as [r s'] eqn:Er.
  pose proof (wp_elim _ _ _ _ _ (list_spec s b opts) Er) as (_ & _ & Hp).
  destruct r as [[l|e]|]; [by eauto|by destruct Hp|]. exfalso. destruct Hp as [Hr Hc].
  pose proof (window_fits opts) as Hf. cbv zeta in Hf. unfold too_wide in Hw. rewrite Hr in Hw.
  destruct (N.eqb_spec (limit opts) 0) as [Hz|Hz].
  { unfold Store.list, Store.recorded, Store.list_inner in Er. apply N.eqb_eq in Hz. by rewrite Hz in Er. }
  simpl in Hw. rewrite Hw in Hf. unfold Usize.with_capacity_panics in Hw.
  apply N.ltb_ge in Hw. nia.
Qed.

Lemma refines_list b opts :
  Layout.bucket_ok b → refines (Store.list b opts) (repo_list b opts) (λ _, True).
Proof.
  intros Hb s a Hr. simpl. destruct (too_wide opts) eqn:Hw; [by rewrite list_panics|].
  destruct (list_answers s b opts (rp_good s a Hr) Hw) as (l & s' & Hl). rewrite Hl. simpl.
  destruct (wp_elim _ _ _ _ _ (list_spec s b opts) Hl) as (Hf & Ha & Hks).
  destruct (Hks (proj1 (rp_sane s a Hr))) as (ks & Hs & Hin & ->).
  split; [|split; [by apply represents_same with s|done]].
  destruct (keys_in_order_ok a b opts) as [Hs' Hin'].
  assert (∀ k, listed (view s b) opts k ↔ listed (entry_of a b) opts k) as Hsame.
  { intros k. unfold listed. by rewrite (rp_entries s a Hr). }
  rewrite (sorted_keys_unique _ ks Hs' Hs) by (intros k; by rewrite Hin', Hin, Hsame).
  do 3 f_equal. apply list_fmap_ext. intros i k _. unfold list_row. by rewrite (rp_entries s a Hr).
Qed.

Lemma refines_ping : refines Store.ping_metadata (comp_ret tt) (λ _, True).
Proof.
  intros s a Hr. unfold Store.ping_metadata. rewrite (rp_ping s a Hr).
  assert (wp (let! _ := Store.on_db (ks_get Meta (bs "__ping__")) in comp_ret tt) s
    (post s (store_good s) (λ _ ws, ws = []) (λ _, False))) as Hp.
  { eapply wp_step with (R := λ _, True); [by eapply wp_read; [apply get_law|intros [? _]|]|].
    intros o s1 _ _ _. apply wp_ret. split; [done|]. by exists []. }
  apply (wp_recorded s _ (bs "ping_metadata")) in Hp. unfold wp in Hp.
  destruct (post_cases _ _ _ _ _ _ (rp_good s a Hr) Hp)
    as [Hf [([] & ws & Hx & -> & Ha)|(e' & _ & [] & _)]].
  rewrite Hx. split; [done|]. split; [by apply represents_same with s|done].
Qed.

(** ** The handlers *)

Context {JS : JsonOps} {JV : JsonValueOps} {W : WireOps} {C : CryptoOps} {K : TokenOps} {AX : AxumOps}.
Context {CL : CryptoLaws C} {AL : AxumLaws AX}.

Abbreviation alike m Q := (refines m m Q).
Abbreviation answers h := (refines h h (λ _ : Response, True)).

Definition known (a : BucketAuth) : Prop := Layout.bucket_ok (bucket_id a).

Lemma refines_from_request_parts now rk parts :
  refines (from_request_parts now rk parts) (from_request_parts now rk parts) known.
Proof.
  apply refines_pure. intros b _.
  eapply refines_bind; [apply refines_spawn, refines_get_policy|]. intros found Hok.
  apply refines_pure. intros p Hp. apply refines_pure. intros who _. apply refines_ret.
  destruct found as [q|]; [|done]. by destruct (Hok q eq_refl).
Qed.

(** A use case that ends a handler. *)
Lemma refines_finish {A} (m : comp Store.FjallStore A UseCaseError) m' (f : A → result Response Response) :
  refines m m' (λ _, True) →
  refines (comp_bind (spawn_usecase m) (λ x, comp_lift (f x)))
    (comp_bind (spawn_usecase m') (λ x, comp_lift (f x))) (λ _, True).
Proof. intros Hm. eapply refines_bind; [by apply refines_spawn|]. intros x _. by apply refines_lift. Qed.

Lemma refines_service_get now b k :
  Layout.bucket_ok b → refines (KeyService.get now b k) (KeyService.get now b k) (λ _, True).
Proof.
  intros Hb. eapply refines_bind; [by apply refines_get|]. intros o _. apply refines_pure. intros en _.
  destruct (expires_at en) as [exp|]; [destruct (odt_leb exp now)|];
    first [by apply refines_ret|apply refines_err].
Qed.

Lemma refines_get_key now a raw : known a → answers (Keys.get_key now a raw).
Proof.
  intros Ha. apply refines_pure. intros k _. apply refines_pure. intros [] _.
  by apply (refines_finish _ _ (λ en, Keys.stored_value_response (value en))), refines_service_get.
Qed.

Lemma refines_head_key now a raw : known a → answers (Keys.head_key now a raw).
Proof.
  intros Ha. apply refines_pure. intros k _. apply refines_pure. intros [] _.
  by apply (refines_finish _ _ (λ en, Ok _)), refines_service_get.
Qed.

Lemma refines_put_key now a raw ttl hs body : known a → answers (Keys.put_key now a raw ttl hs body).
Proof.
  intros Ha. apply refines_pure. intros k _. apply refines_pure. intros [] _.
  apply (refines_finish _ _ Keys.stored_value_response). apply refines_pure. intros v Hv.
  apply refines_pure. intros e _. apply KeyService.infer_stored_value_ok in Hv as (Hv & _).
  eapply refines_bind; [by apply refines_set|]. intros _ _. by apply refines_ret.
Qed.

Lemma refines_patch_key now now' a raw ttl body : known a → answers (Keys.patch_key now now' a raw ttl body).
Proof.
  intros Ha. apply refines_pure. intros k _. apply refines_pure. intros [] _.
  apply refines_pure. intros o _. apply (refines_finish _ _ Keys.stored_value_response).
  apply refines_pure. intros e _. by apply refines_increment.
Qed.

Lemma refines_delete_key a raw : known a → answers (Keys.delete_key a raw).
Proof.
  intros Ha. apply refines_pure. intros k _. apply refines_pure. intros [] _.
  apply (refines_finish _ _ (λ _, Ok _)). eapply refines_bind; [by apply refines_delete|].
  intros [] _; [by apply refines_ret|apply refines_err].
Qed.

Lemma refines_execute_txn clk a parsed : known a → answers (Txn.execute_txn clk a parsed).
Proof.
  intros Ha. apply refines_pure. intros items _. case_bool_decide as Hne; [apply refines_err|]. clear Hne.
  apply refines_pure. intros ops Hops. apply (refines_finish _ _ (λ _, Ok _)).
  apply refines_apply_batch; [done|]. revert clk ops Hops.
  induction items as [|item items IH]; intros clk ops; cbn [Txn.txn_ops]; [by intros [= <-]|].
  intros Hr. res_inv Hr. res_inv Hr. injection Hr as <-. constructor; [by apply txn_op_ok in E as [_ ?]|by eapply IH].
Qed.

Lemma refines_list_bucket now a params hs : known a → answers (Buckets.list_bucket now a params hs).
Proof.
  intros Ha. apply refines_pure. intros [] _. apply refines_pure. intros fmt _.
  destruct (Buckets.prefix_for_repo a params) as [pre|].
  - eapply refines_bind; [by apply refines_spawn, refines_list|]. intros l _. apply refines_pure.
    intros body _. by apply refines_ret.
  - apply refines_pure. intros body _. by apply refines_ret.
Qed.

Lemma refines_get_bucket_policy a : answers (Buckets.get_bucket_policy a).
Proof.
  apply refines_pure. intros [] _. eapply refines_bind; [apply refines_spawn, refines_get_policy|].
  intros o _. apply refines_pure. intros p _. by apply refines_ret.
Qed.

Lemma refines_create_token now a form : answers (TokensRoute.create_token now a form).
Proof.
  apply refines_pure. intros [] _. eapply refines_bind; [apply refines_spawn, refines_get_policy|].
  intros o _. apply refines_pure. intros p _. apply refines_pure. intros key _.
  destruct (_ <=? 0); [apply refines_err|]. case_bool_decide; [apply refines_err|].
  apply refines_pure. intros e _. apply refines_pure. intros perms _. apply refines_pure. intros t _.
  by apply refines_ret.
Qed.

Lemma refines_delete_bucket_handler a : answers (Buckets.delete_bucket a).
Proof.
  apply refines_pure. intros [] _. apply (refines_finish _ _ (λ _, Ok _)), refines_delete_bucket.
Qed.

Lemma refines_update_policy rk a body : answers (Buckets.update_policy rk a body (parse_patch body)).
Proof.
  apply refines_pure. intros [] _. apply refines_pure. intros patch Hpatch.
  eapply refines_bind; [apply refines_spawn, refines_get_policy|]. intros found Hok.
  apply refines_pure. intros p Hp. apply refines_pure. intros [p' audit] Hx.
  apply (refines_finish _ _ (λ _, Ok _)), refines_create_bucket.
  eapply patched_stored; [|exact Hx|].
  - apply Hok. by destruct found; simplify_eq/=.
  - intros t Ht. case_bool_decide; [by simplify_eq/=|].
    destruct (parse_patch body) as [q|] eqn:Eq; simplify_eq/=. by eapply patch_u64.
Qed.

Lemma refines_create_bucket_handler app env form :
  uuid_ok env → (∀ t, Buckets.f_default_ttl form = Some t → (t <= Usize.usize_max)%N) →
  answers (Buckets.create_bucket (Server.root_key app) (Server.uuid env) form).
Proof.
  intros [Hne Hid] Hu. unfold Buckets.create_bucket. destruct (negb _); [apply refines_err|].
  apply refines_pure. intros p Hp. unfold Bucket.new. rewrite bool_decide_eq_false_2 by done.
  apply (refines_finish _ _ (λ _, Ok _)), refines_create_bucket. by eapply new_policy_stored.
Qed.

(** ** The server *)

Import Router Server.

Lemma refines_with_auth app env req f f' :
  (∀ a, known a → refines (f a) (f' a) (λ _ : Response, True)) →
  refines (with_auth app env req f) (with_auth app env req f') (λ _, True).
Proof. intros Hf. by eapply refines_bind; [apply refines_from_request_parts|]. Qed.

Lemma refines_with_key caps f f' :
  (∀ raw, refines (f raw) (f' raw) (λ _ : Response, True)) →
  refines (with_key caps f) (with_key caps f') (λ _, True).
Proof.
  intros Hf. apply refines_pure. intros [|b [|raw []]] _; first [apply Hf|apply refines_err].
Qed.

Lemma refines_readiness v :
  answers (λ s, let '(resp, s') := Health.readiness_check v s in (Ret (Ok (E := Response) resp), s')).
Proof.
  intros s a Hr. destruct (refines_ping s a Hr) as (H1 & H2 & _).
  unfold Health.readiness_check. simpl in *.
  destruct (Store.ping_metadata s) as [r s']. simpl in *. subst r. done.
Qed.

Lemma refines_head_bucket a : answers (Buckets.head_bucket a).
Proof. apply refines_pure. intros [] _. by apply refines_ret. Qed.

#[local] Hint Resolve refines_create_bucket_handler create_form_u64 refines_create_token
  refines_get_key refines_head_key refines_put_key refines_patch_key refines_delete_key
  refines_list_bucket refines_delete_bucket_handler refines_get_bucket_policy refines_head_bucket
  refines_execute_txn refines_update_policy refines_readiness : keydock.

(** The extractors first, then the handler. *)
Ltac through_extractors :=
  first [ solve [eauto with keydock]
        | apply refines_pure; intros ? ?; through_extractors ].

Lemma refines_handler app env req h caps :
  uuid_ok env → answers (run_handler app env req h caps).
Proof.
  intros Hu. destruct h; simpl; try (by apply refines_ret);
    try (apply refines_with_auth; intros a Ha); try (apply refines_with_key; intros raw);
    through_extractors.
Qed.

(** Server states that differ in their repository only, and there as [represents] says. *)
Definition serves_as (st : State (S := Store.FjallStore)) (rst : State (S := Ref)) : Prop :=
  represents (repo st) (repo rst) ∧ limits st = limits rst ∧ samples st = samples rst.

Lemma endpoint_alike app env req t s a :
  uuid_ok env → represents s a →
  (endpoint app env req t a).1 = (endpoint app env req t s).1
  ∧ represents (endpoint app env req t s).2 (endpoint app env req t a).2.
Proof.
  intros Hu Hr. destruct t as [route served h caps|route|]; simpl; [|done|done].
  destruct (refines_handler app env req h caps Hu s a Hr) as (H1 & H2 & _).
  destruct (run_handler app env req h caps s) as [r s'].
  destruct (run_handler app env req h caps a) as [r' a']. simpl in *. by subst r'.
Qed.

Lemma handle_alike opts app env req st rst :
  uuid_ok env → serves_as st rst →
  (handle opts app env req rst).1 = (handle opts app env req st).1
  ∧ serves_as (handle opts app env req st).2 (handle opts app env req rst).2.
Proof.
  intros Hu (Hr & Hl & Hs). unfold handle, track_http_metrics.
  destruct (cors_preflight req) as [resp|]; [done|]. set (t := dispatch _ _ _). unfold governed.
  destruct (endpoint_alike app env req t _ _ Hu Hr) as [H1 H2].
  destruct (endpoint app env req t (repo st)) as [r s'].
  destruct (endpoint app env req t (repo rst)) as [r' a']. simpl in *. subst r'. rewrite <- Hl.
  destruct (target_route t) as [rt|]; [destruct (limited rt)|];
    [destruct (govern req (limits st)) as [[resp|] g]|..]; try destruct r; simpl;
    (split; [done|]); (split; [done|]); (split; [done|]); simpl; by rewrite ?Hs.
Qed.

(** C4: The server refines a map. Over a healthy backend the whole server (router, middleware,
    extractors, authentication, guards, use cases, codecs, index and store) answers every
    sequence of requests exactly as the same handlers over two finite maps do, response for
    response and HTTP sample for HTTP sample, and ends in a store that holds exactly the policies and
    entries of those maps; encodings, locks and the expiry index cannot be observed. *)
Theorem server_refines_reference (opts : RouterOptions) (app : AppState)
    (reqs : list (Env * Request)) (st : State (S := Store.FjallStore)) (rst : State (S := Ref)) :
  serves_as st rst → Forall (λ er, uuid_ok er.1) reqs →
  (handle_all opts app reqs st).1 = (handle_all opts app reqs rst).1
  ∧ serves_as (handle_all opts app reqs st).2 (handle_all opts app reqs rst).2.
Proof.
  intros Hr Hall. revert st rst Hr.
  induction Hall as [|[env req] reqs Hu Hall IH]; intros st rst Hr; [done|]. simpl.
  destruct (handle_alike opts app env req st rst Hu Hr) as [H1 H2].
  destruct (handle opts app env req st) as [r st1], (handle opts app env req rst) as [r' rst1].
  simpl in *. subst r'. destruct (IH st1 rst1 H2) as [H3 H4].
  destruct (handle_all opts app reqs st1) as [rs st2], (handle_all opts app reqs rst1) as [rs' rst2].
  simpl in *. by subst rs'.
Qed.

End Refine.

(** ** Witness *)

#[local] Instance refine_axum : AxumOps := toy_axum toy_wire.
#[local] Instance refine_axum_laws : AxumLaws refine_axum := toy_axum_laws toy_wire.

Lemma demo0_represents : represents demo0 (mkRef ∅ ∅).
Proof. split; first [apply demo0_good|apply demo0_sane|done]. Qed.

Lemma served_represents : represents served_store (mkRef {[demo_bucket := http_policy]} ∅).
Proof.
  assert (stored_ok demo_bucket http_policy) as Hok.
  { split; [apply demo_bucket_ok|]. split; by apply (bool_decide_unpack _). }
  exact (proj1 (proj2 (refines_create_bucket demo_bucket http_policy Hok demo0 _ demo0_represents))).
Qed.

Definition ref_server : Server.State (S := Ref) :=
  Server.mkServer (mkRef {[demo_bucket := http_policy]} ∅) (5%nat : @limiter _ refine_axum) [].

Lemma server_refines_reference_witness :
  let reqs := [(demo_request_env, demo_http Router.PUT (bs "/api/v1/b1/k") (bs "42"));
               (demo_request_env, demo_http Router.GET (bs "/api/v1/b1/k") [])] in
  (Server.handle_all Router.default_options demo_app reqs demo_server).1
  = (Server.handle_all Router.default_options demo_app reqs ref_server).1.
Proof.
  intros reqs.
  destruct (server_refines_reference Router.default_options demo_app reqs demo_server ref_server) as [H _].
  - split; [apply served_represents|]. split; reflexivity.
  - repeat constructor; apply demo_uuid_ok.
  - exact H.
Defined.
