(* ===== verification/Process.v ===== *)
(** * The process

    [apps/keydock/src/main.rs]: the entry point, the start of the server from a command line, and
    the life of the process from there to its exit.

    The start is a sequence of calls that may each fail; the calls outside the repository (the
    runtime, the logger, the metrics recorder, the database, the sockets) are [ProcessOps]. The
    running process is a step relation over the server's state, the sweeper, the scrape listener
    and the two cancellation tokens. *)

From Stdlib Require Import Strings.Byte.
From S2P Require Import Prelude RustStd TimeLib Domain Counter Ports Codec FjallLib Locks Store StoreSpec StoreList StoreRepo StoreProps Gc KeyService Auth HttpBase HttpRoutes HttpBuckets HttpProps Effects Router Routing ServerProps OsLib Config ConfigProps Cli InstanceInit.

(** ** What the start calls *)

Class ProcessOps {F : FjallOps} : Type := {
  (** The runtime, the global subscriber and recorder, the sockets, the disk of the database *)
  os : Type;
  os_error : Type;
  build_runtime : os → result unit os_error * os;
  (** [tracing_subscriber::fmt()..try_init()] *)
  try_init_tracing : bool → os → result unit os_error * os;
  install_recorder : os → result unit os_error * os;
  open_database : bytes → os → result Database fjall_error * os;
  bind : Net.SocketAddr → os → result unit os_error * os;
  (** [env!("CARGO_PKG_VERSION")] *)
  CARGO_PKG_VERSION : bytes;
}.

Module Process.
Import Router Server.

Section Process.
Context {T : TimeOps} {P : PostcardOps} {J : PolicyJsonOps} {F : FjallOps} {H : HasherOps}
        {L : LayoutOps} {JS : JsonOps} {JV : JsonValueOps} {W : WireOps} {C : CryptoOps}
        {K : TokenOps} {AX : AxumOps} {LX : LexoptOps} {FS : FsOps} {TO : TomlOps} {PO : ProcessOps}.

(** ** The start of the server *)

(** What the start has done so far. *)
Inductive action : Type :=
| Tracing (json : bool)
| Recorder
| DataDir (path : bytes)
| OpenStore (path : bytes)
| Limiter (per_hour : N)
| Listen (addr : Net.SocketAddr)
| MetricsListen (addr : Net.SocketAddr)
| SpawnGc (interval_secs : Z).

Record Machine : Type := mkMachine { files : fs; rest : os; trace : list action }.

(** The contexts of [serve]'s errors. *)
Inductive StartError : Type :=
| EConfiguration (s : fs) (e : Loader.ConfigError (O := Init.ops_at s))
| EInitTracing (e : os_error)
| EMetricsRecorder (e : os_error)
| ECreateDataDir (path : bytes) (e : fs_error)
| EOpenStore (path : bytes) (e : FjallError fjall_error)
| EBind (addr : Net.SocketAddr) (e : os_error)
| EBindMetrics (addr : Net.SocketAddr) (e : os_error).

Abbreviation start A := (comp Machine A StartError).

Definition note (a : action) (m : Machine) : Machine := mkMachine (files m) (rest m) (trace m ++ [a]).

(** A call; when it succeeds, it has happened. *)
Definition os_call {A} (a : action) (wrap : os_error → StartError)
    (f : os → result A os_error * os) : start A :=
  λ m, let '(r, o) := f (rest m) in
       let m' := mkMachine (files m) o (trace m) in
       match r with
       | Ok x => (Ret (Ok x), note a m')
       | Err e => (Ret (Err (wrap e)), m')
       end.

Definition load_merged_config (var : bytes → result bytes Loader.VarError) (args : Cli.ServeArgs) (s : fs)
    : result Config.Config (Loader.ConfigError (O := Init.ops_at s)) :=
  Loader.load_from_sources (O := Init.ops_at s) var
    (Loader.mkSources (Cli.config_path args) (Cli.listen args) (Cli.data_dir args)
       (negb (Cli.no_env args))).

Definition init_tracing (json : bool) : start unit :=
  os_call (Tracing json) EInitTracing (try_init_tracing json).

Definition make_data_dir (d : bytes) : start unit :=
  λ m, let '(r, s) := create_dir_all d (files m) in
       let m' := mkMachine s (rest m) (trace m) in
       match r with
       | Ok _ => (Ret (Ok tt), note (DataDir d) m')
       | Err e => (Ret (Err (ECreateDataDir d e)), m')
       end.

Definition open_store (d : bytes) : start Store.FjallStore :=
  λ m, let '(r, o) := open_database d (rest m) in
       let m' := mkMachine (files m) o (trace m) in
       match Store.open r with
       | Ok s => (Ret (Ok s), note (OpenStore d) m')
       | Err e => (Ret (Err (EOpenStore d e)), m')
       end.

(** What runs once the start is over. *)
Record Started : Type := mkStarted {
  store : Store.FjallStore;
  app : AppState;
  options : RouterOptions;
  addr : Net.SocketAddr;
  metrics_addr : option Net.SocketAddr;
  gc_interval_secs : Z;
}.

Definition rate_limit_of (cfg : Config.Config) : RateLimitSettings :=
  mkRateLimit (Config.enabled (Config.rate_limit cfg))
    (Z.to_N (Config.requests_per_hour (Config.rate_limit cfg))).

Definition options_of (cfg : Config.Config) : RouterOptions :=
  mkOptions (bool_decide (Config.metrics_listen (Config.http cfg) = None)) (rate_limit_of cfg).

(** [serve] up to the call of [axum::serve]. *)
Definition serve (var : bytes → result bytes Loader.VarError) (args : Cli.ServeArgs) : start Started :=
  let! config :=
    (λ m, (Ret (map_err (EConfiguration (files m)) (load_merged_config var args (files m))), m)) in
  let data_dir := Config.data_dir (Config.paths config) in
  let! _ := init_tracing (Config.log_json config) in
  let! _ := os_call Recorder EMetricsRecorder install_recorder in
  let! _ := make_data_dir data_dir in
  let! store := open_store data_dir in
  let app := mkState CARGO_PKG_VERSION (mkSigningKey (Config.expose_bytes (Config.root_key config))) in
  let rate_limit := rate_limit_of config in
  let! _ := (λ m, (Ret (Ok tt), match init_rate_limiter rate_limit with
                                | Some n => note (Limiter n) m
                                | None => m
                                end)) in
  let addr := Config.listen (Config.http config) in
  let! _ := os_call (Listen addr) (EBind addr) (bind addr) in
  let! _ := match Config.metrics_listen (Config.http config) with
            | Some a => os_call (MetricsListen a) (EBindMetrics a) (bind a)
            | None => comp_ret tt
            end in
  let gc_interval_secs := Config.interval_secs (Config.gc config) in
  let! _ := (λ m, (Ret (Ok tt), note (SpawnGc gc_interval_secs) m)) in
  comp_ret (mkStarted store app (options_of config) addr (Config.metrics_listen (Config.http config))
              gc_interval_secs).

(** ** [main] *)

Inductive outcome : Type :=
| Exited (status : Z)
| Serving (run : Started).

Definition init_instance (u1 u2 dir : bytes) (force : bool) (m : Machine) : outcome * Machine :=
  let '(r, s) := Init.write_init_config u1 u2 dir force (files m) in
  (match r with Ret (Ok _) => Exited 0 | Ret (Err _) => Exited 2 | Panic => Exited 101 end,
   mkMachine s (rest m) (trace m)).

(** [fuel] bounds the loops over the arguments; [u1] and [u2] are the fresh UUIDs of [init]. *)
Definition main (fuel : nat) (argv : list bytes) (var : bytes → result bytes Loader.VarError)
    (u1 u2 : bytes) (m : Machine) : option (outcome * Machine) :=
  parsed ← Cli.parse fuel argv;
  Some match parsed with
       | Cli.Exit _ => (Exited 0, m)
       | Cli.Failed _ => (Exited 2, m)
       | Cli.Parsed (Cli.Serve args) =>
         let '(rt, o) := build_runtime (rest m) in
         let m' := mkMachine (files m) o (trace m) in
         match rt with
         | Err _ => (Exited 1, m')
         | Ok _ =>
           match serve var args m' with
           | (Ret (Ok run), m'') => (Serving run, m'')
           | (Ret (Err _), m'') => (Exited 1, m'')
           | (Panic, m'') => (Exited 101, m'')
           end
         end
       | Cli.Parsed (Cli.Init args) => init_instance u1 u2 (Cli.dir args) (Cli.force args) m
       end.

(** ** The running process *)

Record Running : Type := mkRunning {
  server : Server.State (S := Store.FjallStore);
  (** requests accepted and not yet answered *)
  inflight : nat;
  (** [axum::serve] has not returned *)
  serving : bool;
  (** tasks that have not finished *)
  metrics_task : bool;
  gc_task : bool;
  shutdown_cancel : bool;
  gc_cancel : bool;
  exited : bool;
}.

Definition launched (run : Started) (g : limiter) : Running :=
  mkRunning (mkServer (store run) g []) 0 true (bool_decide (is_Some (metrics_addr run))) true
    false false false.

(** [shutdown_signal]: the outcomes of waiting for CTRL+C and for SIGTERM, [None] while pending. The
    select ends with the first that completes, also when listening failed. *)
Definition shutdown_signal (ctrl_c terminate : option (result unit os_error)) : bool :=
  match ctrl_c, terminate with None, None => false | _, _ => true end.

(** One step of the process. The graceful shutdown stops accepting, waits for the accepted
    requests and cancels both tokens; the sweeper looks at its token before it sleeps or sweeps
    (the select is biased); [main] waits for the metrics task and returns. *)
Inductive step (run : Started) : Running → Running → Prop :=
| Accept srv n mt gt :
    step run (mkRunning srv n true mt gt false false false)
             (mkRunning srv (S n) true mt gt false false false)
| Answer env req srv srv' r n mt gt c1 c2 :
    uuid_ok env → handle (options run) (app run) env req srv = (r, srv') →
    step run (mkRunning srv (S n) true mt gt c1 c2 false) (mkRunning srv' n true mt gt c1 c2 false)
| Sweep now srv n mt sv c1 :
    step run (mkRunning srv n sv mt true c1 false false)
             (mkRunning (mkServer (Gc.sweep_keyspace now (repo srv)) (limits srv) (samples srv)) n sv mt
                true c1 false false)
| Signal ctrl_c terminate srv n mt gt :
    shutdown_signal ctrl_c terminate = true →
    step run (mkRunning srv n true mt gt false false false) (mkRunning srv n true mt gt true true false)
| GcStops srv n sv mt c1 :
    step run (mkRunning srv n sv mt true c1 true false) (mkRunning srv n sv mt false c1 true false)
| MetricsStops srv n sv gt c2 :
    step run (mkRunning srv n sv true gt true c2 false) (mkRunning srv n sv false gt true c2 false)
| ServeReturns srv mt gt c2 :
    step run (mkRunning srv 0 true mt gt true c2 false) (mkRunning srv 0 false mt gt true c2 false)
| MainReturns srv n gt c1 c2 :
    step run (mkRunning srv n false false gt c1 c2 false) (mkRunning srv n false false gt c1 c2 true).

End Process.

End Process.
