(* ===== verification/ProcessProps.v ===== *)
(** * Properties of the process

    The order of the start and its failures, the invariant of the running process, its end after
    a shutdown signal, and how the configuration reaches the server. *)

From Stdlib Require Import Strings.Byte.
From stdpp Require Import relations.
From S2P Require Import Prelude RustStd TimeLib Domain Counter Ports Codec FjallLib Locks Store StoreSpec StoreList StoreRepo StoreProps Gc KeyService KeyProps Auth HttpBase HttpRoutes HttpBuckets HttpProps Effects Router Routing ServerProps OsLib Config ConfigProps Cli InstanceInit Process.
Import Router Server Process.

Section Start.
Context {T : TimeOps} {P : PostcardOps} {J : PolicyJsonOps} {F : FjallOps} {H : HasherOps}
        {L : LayoutOps} {FS : FsOps} {TO : TomlOps} {PO : ProcessOps}.

(** ** The start *)

(** Everything the start does, in order. *)
Definition plan (cfg : Config.Config) : list action :=
  let d := Config.data_dir (Config.paths cfg) in
  [Tracing (Config.log_json cfg); Recorder; DataDir d; OpenStore d]
  ++ match init_rate_limiter (rate_limit_of cfg) with Some n => [Limiter n] | None => [] end
  ++ [Listen (Config.listen (Config.http cfg))]
  ++ match Config.metrics_listen (Config.http cfg) with Some a => [MetricsListen a] | None => [] end
  ++ [SpawnGc (Config.interval_secs (Config.gc cfg))].

(** The action an error stands for. *)
Definition failed_action (e : StartError) (a : action) : Prop :=
  match e, a with
  | EInitTracing _, Tracing _ => True
  | EMetricsRecorder _, Recorder => True
  | ECreateDataDir d _, DataDir d' | EOpenStore d _, OpenStore d' => d = d'
  | EBind x _, Listen x' | EBindMetrics x _, MetricsListen x' => x = x'
  | _, _ => False
  end.

(** [done] has happened since [m0], and [todo] is left. *)
Definition begun (m0 : Machine) (dn : list action) (m : Machine) : Prop :=
  trace m = trace m0 ++ dn.

Definition start_post {A} (m0 : Machine) (dn todo : list action) (Q : A → Prop)
    (r : exec (result A StartError)) (m' : Machine) : Prop :=
  match r with
  | Ret (Ok a) => begun m0 (dn ++ todo) m' ∧ Q a
  | Ret (Err e) => ∃ new a later, todo = new ++ a :: later ∧ begun m0 (dn ++ new) m' ∧ failed_action e a
  | Panic => False
  end.

Lemma start_bind {A B} m0 dn todo todo' (Q : A → Prop) (Q' : B → Prop)
    (f : comp Machine A StartError) (k : A → comp Machine B StartError) m :
  wp f m (start_post m0 dn todo Q) →
  (∀ a m1, Q a → begun m0 (dn ++ todo) m1 → wp (k a) m1 (start_post m0 (dn ++ todo) todo' Q')) →
  wp (comp_bind f k) m (start_post m0 dn (todo ++ todo') Q').
Proof.
  intros Hf Hk. apply wp_bind. eapply wp_mono; [exact Hf|]. intros [[a|e]|] m1; simpl; [| |done].
  - intros [Hb HQ]. eapply wp_mono; [by apply Hk|]. intros [[b|e]|] m2; simpl; [| |done].
    + by rewrite app_assoc.
    + intros (new & x & later & -> & Hb2 & Hx). exists (todo ++ new), x, later.
      by rewrite !app_assoc, <- (app_assoc dn) in *.
  - intros (new & x & later & -> & Hb & Hx). exists new, x, (later ++ todo').
    by rewrite <- app_assoc.
Qed.

Lemma start_os_call {A} m0 dn a wrap (f : os → result A os_error * os) m :
  begun m0 dn m → (∀ e, failed_action (wrap e) a) →
  wp (os_call a wrap f) m (start_post m0 dn [a] (λ _, True)).
Proof.
  intros Hb Hw. unfold wp, os_call. destruct (f (rest m)) as [[x|e] o]; simpl.
  - split; [|done]. unfold begun, note in *. simpl. by rewrite Hb, app_assoc.
  - exists [], a, []. rewrite app_nil_r. split; [done|]. split; [exact Hb|apply Hw].
Qed.

Lemma start_data_dir m0 dn d m :
  begun m0 dn m → wp (make_data_dir d) m (start_post m0 dn [DataDir d] (λ _, True)).
Proof.
  intros Hb. unfold wp, make_data_dir. destruct (create_dir_all d (files m)) as [[x|e] s]; simpl.
  - split; [|done]. unfold begun, note in *. simpl. by rewrite Hb, app_assoc.
  - exists [], (DataDir d), []. rewrite app_nil_r. done.
Qed.

Lemma start_open m0 dn d m :
  begun m0 dn m →
  wp (open_store d) m (start_post m0 dn [OpenStore d] (λ s, ∃ db, Store.open (Ok db) = Ok s)).
Proof.
  intros Hb. unfold wp, open_store. destruct (open_database d (rest m)) as [[x|e] o]; simpl.
  - split; [|by exists x]. unfold begun, note in *. simpl. by rewrite Hb, app_assoc.
  - exists [], (OpenStore d), []. rewrite app_nil_r. done.
Qed.

Lemma start_note m0 dn a m :
  begun m0 dn m →
  wp (λ m, (Ret (Ok (E := StartError) tt), note a m)) m (start_post m0 dn [a] (λ _, True)).
Proof. intros Hb. split; [|done]. unfold begun, note in *. simpl. by rewrite Hb, app_assoc. Qed.

Lemma start_skip {A} m0 dn (x : A) (Q : A → Prop) m :
  begun m0 dn m → Q x → wp (comp_ret x) m (start_post m0 dn [] Q).
Proof. intros Hb HQ. split; [|done]. by rewrite app_nil_r. Qed.

(** What the running server was given. *)
Definition configured (cfg : Config.Config) (run : Started) : Prop :=
  addr run = Config.listen (Config.http cfg)
  ∧ metrics_addr run = Config.metrics_listen (Config.http cfg)
  ∧ options run = options_of cfg
  ∧ Server.root_key (app run) = mkSigningKey (Config.expose_bytes (Config.root_key cfg))
  ∧ gc_interval_secs run = Config.interval_secs (Config.gc cfg).

(** The start after the configuration is loaded. *)
Lemma serve_spec var args m cfg :
  load_merged_config var args (files m) = Ok cfg →
  wp (serve var args) m (start_post m [] (plan cfg) (configured cfg)).
Proof.
  intros Hcfg. unfold serve. apply wp_bind. unfold wp at 1. simpl. rewrite Hcfg. simpl.
  assert (begun m [] m) as Hb by (unfold begun; by rewrite app_nil_r).
  unfold plan. cbn zeta.
  apply (start_bind m [] [Tracing _] _ (λ _, True)); [by apply start_os_call|]. intros [] m1 _ H1.
  apply (start_bind m _ [Recorder] _ (λ _, True)); [by apply start_os_call|]. intros [] m2 _ H2.
  apply (start_bind m _ [DataDir _] _ (λ _, True)); [by apply start_data_dir|]. intros [] m3 _ H3.
  eapply (start_bind m _ [OpenStore _]); [by apply start_open|]. intros store m4 _ H4.
  apply (start_bind m _ (match init_rate_limiter (rate_limit_of cfg) with Some n => [Limiter n] | None => [] end)
    _ (λ _, True)).
  { destruct (init_rate_limiter _) as [n|]; [by apply start_note|by apply start_skip]. }
  intros [] m5 _ H5.
  apply (start_bind m _ [Listen _] _ (λ _, True)); [by apply start_os_call|]. intros [] m6 _ H6.
  apply (start_bind m _ (match Config.metrics_listen (Config.http cfg) with
                         | Some a => [MetricsListen a] | None => [] end) _ (λ _, True)).
  { destruct (Config.metrics_listen _) as [a|]; [by apply start_os_call|by apply start_skip]. }
  intros [] m7 _ H7.
  apply (start_bind m _ [SpawnGc _] [] (λ _, True)); [by apply start_note|]. intros [] m8 _ H8.
  by apply start_skip.
Qed.

(** C25: The start is ordered and fails fast. When the configuration does not load, nothing is done at
    all. Otherwise the start does a prefix of its plan: logger, metrics recorder, data directory,
    store, limiter, listener, scrape listener, sweeper, in this order, each only after all before
    it succeeded; it ends with an error that names the very next action, or it completes the plan
    and the server runs with the addresses, root key, limits and sweep interval of that
    configuration. In particular nothing listens before the store is open. *)
Theorem startup_ordered (var : bytes → result bytes Loader.VarError) (args : Cli.ServeArgs)
    (m m' : Machine) (r : exec (result Started StartError)) :
  serve var args m = (r, m') →
  match load_merged_config var args (files m) with
  | Err e => r = Ret (Err (EConfiguration (files m) e)) ∧ m' = m
  | Ok cfg =>
    match r with
    | Ret (Ok run) => trace m' = trace m ++ plan cfg ∧ configured cfg run
    | Ret (Err e) =>
      ∃ new a later, plan cfg = new ++ a :: later ∧ trace m' = trace m ++ new ∧ failed_action e a
    | Panic => False
    end
  end.
Proof.
  intros Hr. destruct (load_merged_config var args (files m)) as [cfg|e] eqn:Hc.
  - by apply (wp_elim _ _ _ _ _ (serve_spec var args m cfg Hc)) in Hr.
  - unfold serve, comp_bind in Hr. rewrite Hc in Hr. by injection Hr as <- <-.
Qed.


Context {LX : LexoptOps} {LL : LexoptLaws LX}.



End Start.

(** ** The running process *)

Section Running.
Context {T : TimeOps} {P : PostcardOps} {J : PolicyJsonOps} {F : FjallOps} {H : HasherOps}
        {L : LayoutOps} {JS : JsonOps} {JV : JsonValueOps} {W : WireOps} {C : CryptoOps}
        {K : TokenOps} {AX : AxumOps} {PO : ProcessOps}.
Context {TL : TimeLaws T} {PL : PostcardLaws P} {JL : PolicyJsonLaws J} {FL : FjallLaws F}
        {LL : LayoutLaws L} {CL : CryptoLaws C} {AL : AxumLaws AX}.

(** A sweep, whatever fails in it, keeps the invariant and the policies. *)
Lemma sweep_sane now s :
  sane s → sane (Gc.sweep_keyspace now s)
           ∧ ∀ b, policy_view (Gc.sweep_keyspace now s) b = policy_view s b.
Proof.
  intros [Hwf Hp]. destruct (Gc.sweep_outcome now s) as (_ & (Hm & Hd & _) & _).
  assert (∀ b, policy_view (Gc.sweep_keyspace now s) b = policy_view s b) as Hpol.
  { intros b. unfold policy_view, policy_map. by rewrite Hm. }
  split; [|done]. split.
  - intros sk l Hl. destruct (Hd sk) as [Hx|[Hx _]]; [|congruence]. apply Hwf. by rewrite <- Hx.
  - intros b p. rewrite Hpol. apply Hp.
Qed.

Lemma step_sane run p q :
  step run p q → sane (repo (server p)) → sane (repo (server q)).
Proof.
  intros Hst Hs. destruct Hst; simpl in *; try done; [|by apply sweep_sane].
  by eapply handle_safe.
Qed.

(** C23: The state stays well formed for as long as the process runs. In every state the process can
    reach from a well-formed store, through any interleaving of requests, sweeps, shutdown steps
    and backend failures, every record decodes, and every readable policy belongs to a
    well-formed bucket id, fits its encoding and has the anonymous permissions its keys imply. *)
Theorem process_keeps_invariant (run : Started) (g : limiter) (p : Running) :
  sane (store run) → rtc (step run) (launched run g) p → sane (repo (server p)).
Proof.
  intros Hs Hr. remember (launched run g) as p0 eqn:Hp0.
  assert (sane (repo (server p0))) as Hs0 by by subst.
  clear Hp0 Hs. induction Hr as [p|p p1 p2 H1 _ IH]; [done|]. apply IH. by eapply step_sane.
Qed.

(** ** Shutdown *)

Definition consistent (p : Running) : Prop :=
  shutdown_cancel p = gc_cancel p
  ∧ (serving p = false → shutdown_cancel p = true ∧ inflight p = 0%nat)
  ∧ (exited p = true → serving p = false).

Lemma step_consistent run p q : step run p q → consistent p → consistent q.
Proof. intros [] (Hc & Hs & He); simpl in *; unfold consistent; simpl; naive_solver. Qed.

Lemma reachable_consistent run g p : rtc (step run) (launched run g) p → consistent p.
Proof.
  intros Hr. remember (launched run g) as p0 eqn:Hp0.
  assert (consistent p0) as Hc by by subst.
  clear Hp0. induction Hr as [p|p p1 p2 H1 _ IH]; [done|]. apply IH. by eapply step_consistent.
Qed.

(** What is left to do. *)
Definition remaining (p : Running) : nat :=
  inflight p + Nat.b2n (serving p) + Nat.b2n (metrics_task p) + Nat.b2n (gc_task p)
  + Nat.b2n (negb (exited p)).

Lemma step_shutdown run p q :
  step run p q → consistent p → shutdown_cancel p = true →
  shutdown_cancel q = true ∧ (S (remaining q) <= remaining p)%nat.
Proof.
  intros [] (Hc & _ & _) Hsd; simpl in *; try discriminate; try congruence; unfold remaining; simpl;
    (split; [done|]); lia.
Qed.

Lemma steps_shutdown run n p q :
  nsteps (step run) n p q → consistent p → shutdown_cancel p = true →
  consistent q ∧ shutdown_cancel q = true ∧ (n + remaining q <= remaining p)%nat.
Proof.
  induction 1 as [p|n p p1 p2 H1 _ IH]; intros Hc Hsd; [done|].
  destruct (step_shutdown _ _ _ H1 Hc Hsd) as [Hsd1 Hle].
  destruct (IH (step_consistent _ _ _ H1 Hc) Hsd1) as (Hc2 & Hsd2 & Hle2).
  split; [done|]. split; [done|]. lia.
Qed.

(** A process that shuts down and has not exited can go on. *)
Lemma shutdown_progress run p env (req : Request) :
  consistent p → shutdown_cancel p = true → exited p = false → uuid_ok env → ∃ q, step run p q.
Proof.
  intros (Hc & Hs & _) Hsd He Hu. destruct p as [srv n sv mt gt c1 c2 ex]; simpl in *. subst.
  destruct mt; [eexists; apply MetricsStops|]. destruct sv; [|eexists; apply MainReturns].
  destruct n as [|n]; [eexists; apply ServeReturns|].
  destruct (handle (options run) (app run) env req srv) as [r srv'] eqn:Eh.
  eexists. by eapply Answer.
Qed.

(** C24: A shutdown signal ends the process. Once the signal has been handled, no new request is
    accepted and no new sweep begins; every way the process can go on stops after at most one
    step per request still in flight plus four (server, scrape listener, sweeper, exit), it is
    never stuck before it has exited, and when it exits every accepted request was answered. *)
Theorem shutdown_terminates (run : Started) (g : limiter) (p : Running) :
  rtc (step run) (launched run g) p → shutdown_cancel p = true →
  (∀ n q, nsteps (step run) n p q → (n <= inflight p + 4)%nat)
  ∧ (∀ q env (req : Request), rtc (step run) p q → uuid_ok env → exited q = false → ∃ q', step run q q')
  ∧ (∀ q, rtc (step run) p q → exited q = true → inflight q = 0%nat).
Proof.
  intros Hr Hsd. apply reachable_consistent in Hr as Hc. split; [|split].
  - intros n q Hn. apply steps_shutdown in Hn as (_ & _ & Hle); [|done..].
    unfold remaining in *. destruct (serving p), (metrics_task p), (gc_task p), (exited p); simpl in *; lia.
  - intros q env req Hq Hu He. apply rtc_nsteps in Hq as [n Hn].
    apply steps_shutdown in Hn as (Hcq & Hsq & _); [|done..]. by eapply shutdown_progress.
  - intros q Hq He. apply rtc_nsteps in Hq as [n Hn].
    apply steps_shutdown in Hn as ((_ & H1 & H2) & _ & _); [|done..]. by apply H1, H2.
Qed.

(** ** Where the metrics are *)

(** The metrics are exposed in exactly one place. With a separate metrics listener configured the
    main listener answers 404 on [/metrics] and the scrape listener answers with the metrics;
    without one the main listener does, with any method other than [GET] and [HEAD] refused. *)
Theorem metrics_in_one_place (cfg : Config.Config) (m : Method) :
  let t := dispatch (build_router (options_of cfg)) m (bs "/metrics") in
  match Config.metrics_listen (Config.http cfg) with
  | Some _ => t = ToNothing
  | None => t = serve_route (mkRoute (bs "/metrics") [(GET, Metrics)] false) m []
  end
  ∧ handle_scrape (mkRequest m (bs "/metrics") None (Http.mkHeaders None None None) [])
    = finish_head m
        match m with
        | GET | HEAD =>
          Http.mkResponse 200 (Http.Raw (bs "text/plain; version=0.0.4; charset=utf-8") render_metrics)
        | _ => Http.method_not_allowed
        end.
Proof.
  simpl. split.
  - rewrite build_router_table.
    pose proof (spec_route_match (options_of cfg) (bs "/metrics")) as Hs.
    unfold options_of in *. destruct (Config.metrics_listen (Config.http cfg)).
    + by apply dispatch_none.
    + destruct Hs as [Hin Hm]. apply dispatch_found; [apply server_table_disjoint|exact Hin|exact Hm].
  - unfold handle_scrape. cbn [method path].
    rewrite (dispatch_found metrics_routes (mkRoute (bs "/metrics") [(GET, Metrics)] false) m
      (bs "/metrics") []); [|done|by apply list_elem_of_singleton|vm_refl].
    by destruct m.
Qed.

End Running.

(** ** Witnesses *)

(** A machine whose calls answer by a schedule of failures, with a fresh database. *)
#[local] Instance toy_process : ProcessOps := {
  os := list bool;
  os_error := unit;
  build_runtime o := (Ok tt, o);
  try_init_tracing _ o := match o with true :: o' => (Err tt, o') | _ => (Ok tt, drop 1 o) end;
  install_recorder o := match o with true :: o' => (Err tt, o') | _ => (Ok tt, drop 1 o) end;
  open_database _ o := match o with
                       | true :: o' => (Err (bs "locked"), o')
                       | _ => (Ok (mkFaultDb (λ _, ∅) []), drop 1 o)
                       end;
  bind _ o := match o with true :: o' => (Err tt, o') | _ => (Ok tt, drop 1 o) end;
  CARGO_PKG_VERSION := bs "0.1.0";
}.

Definition demo_machine (o : list bool) : Machine := mkMachine (demo_fs []) o [].

Definition demo_vars (name : bytes) : result bytes Loader.VarError :=
  if decide (name = Loader.ENV_ROOT_KEY) then Ok (bs "k3y") else Err Loader.NotPresent.

Lemma startup_ordered_witness :
  trace (serve demo_vars Cli.default_serve (demo_machine [false; false; false; true])).2
  = [Tracing false; Recorder; DataDir (bs "./data"); OpenStore (bs "./data")].
Proof.
  pose proof (startup_ordered demo_vars Cli.default_serve (demo_machine [false; false; false; true])
    (serve demo_vars Cli.default_serve (demo_machine [false; false; false; true])).2
    (Ret (Err (EBind Config.default_listen tt)))) as Hs.
  assert (load_merged_config demo_vars Cli.default_serve (files (demo_machine [false; false; false; true]))
    = Ok (toy_config (bs "./data") (bs "k3y"))) as Hc by vm_refl.
  rewrite Hc in Hs. destruct Hs as (new & a & later & Hp & Ht & Ha).
  - apply pair_fst. vm_refl.
  - rewrite Ht. change (trace (demo_machine [false; false; false; true])) with (@nil action). simpl.
    vm_compute in Hp.
    repeat (destruct new as [|? new]; simplify_eq/=; try done).
Defined.


#[local] Instance process_axum : AxumOps := toy_axum toy_wire.
#[local] Instance process_axum_laws : AxumLaws process_axum := toy_axum_laws toy_wire.

Definition demo_run : Started :=
  mkStarted served_store (mkState (bs "0.1.0") demo_rk) default_options Config.default_listen None 60.

Definition demo_process (draining : bool) : Running :=
  mkRunning (mkServer served_store (5%nat : @limiter _ process_axum) []) 1 true false true draining draining
    false.

Lemma demo_accepted : rtc (step demo_run) (launched demo_run (5%nat : @limiter _ process_axum)) (demo_process false).
Proof. apply rtc_once. apply Accept. Qed.

Lemma process_keeps_invariant_witness : sane (repo (server (demo_process true))).
Proof.
  apply (process_keeps_invariant demo_run (5%nat : @limiter _ process_axum)).
  - apply served_sane.
  - eapply rtc_r; [exact demo_accepted|]. by apply (Signal _ (Some (Ok tt)) None).
Defined.

Lemma shutdown_terminates_witness :
  ∃ q, step demo_run (demo_process true) q
       ∧ ∀ n q', nsteps (step demo_run) n (demo_process true) q' → (n <= 5)%nat.
Proof.
  destruct (shutdown_terminates demo_run (5%nat : @limiter _ process_axum) (demo_process true))
    as (H1 & H2 & _).
  - eapply rtc_r; [exact demo_accepted|]. by apply (Signal _ (Some (Ok tt)) None).
  - reflexivity.
  - destruct (H2 (demo_process true) demo_request_env (demo_http GET (bs "/health") []) (rtc_refl _ _)
      demo_uuid_ok eq_refl) as [q Hq].
    exists q. split; [exact Hq|exact H1].
Defined.

Lemma metrics_in_one_place_witness :
  handle_scrape (mkRequest POST (bs "/metrics") None (Http.mkHeaders None None None) [])
  = Http.method_not_allowed.
Proof. apply (metrics_in_one_place (toy_config [] []) POST). Defined.
