(* ===== verification/Statuses.v ===== *)
(** * The statuses of the handlers

    Which status codes a handler can answer with, over any repository whose operations fail only
    the way [ports.rs] lets the Fjall adapter fail: with a storage error, or, for an increment,
    with the counter's domain error. The contract is a class, and the adapter is an instance. *)

From Stdlib Require Import Strings.Byte.
From S2P Require Import Prelude RustStd TimeLib Domain Counter Ports Codec FjallLib Locks Store StoreRepo KeyService Auth HttpBase HttpRoutes HttpBuckets Router.
Import Http Router Server.

(** ** Outcomes *)

(** Every answer of [m] satisfies [Q] and every error [R]. *)
Definition outcomes {S A E} (m : comp S A E) (Q : A → Prop) (R : E → Prop) : Prop :=
  ∀ s, match (m s).1 with Ret (Ok a) => Q a | Ret (Err e) => R e | Panic => True end.

Definition any {A} : A → Prop := λ _, True.

Lemma outcomes_lift {S A E} (r : result A E) (Q : A → Prop) (R : E → Prop) :
  match r with Ok a => Q a | Err e => R e end → outcomes (S := S) (comp_lift r) Q R.
Proof. intros Hr s. by destruct r. Qed.

Lemma outcomes_ret {S A E} (a : A) (Q : A → Prop) (R : E → Prop) :
  Q a → outcomes (S := S) (comp_ret a) Q R.
Proof. by intros Ha s. Qed.

Lemma outcomes_err {S A E} (e : E) (Q : A → Prop) (R : E → Prop) :
  R e → outcomes (S := S) (comp_err e) Q R.
Proof. by intros He s. Qed.

Lemma outcomes_bind {S A B E} (m : comp S A E) (f : A → comp S B E) (Q : A → Prop) (Q' : B → Prop)
    (R : E → Prop) :
  outcomes m Q R → (∀ a, Q a → outcomes (f a) Q' R) → outcomes (comp_bind m f) Q' R.
Proof.
  intros Hm Hf s. specialize (Hm s). unfold comp_bind.
  destruct (m s) as [[[a|e]|] s1]; simpl in *; [by apply Hf|done|done].
Qed.

Lemma outcomes_mono {S A E} (m : comp S A E) (Q Q' : A → Prop) (R R' : E → Prop) :
  outcomes m Q R → (∀ a, Q a → Q' a) → (∀ e, R e → R' e) → outcomes m Q' R'.
Proof. intros Hm HQ HR s. specialize (Hm s). destruct (m s) as [[[a|e]|] s1]; simpl in *; auto. Qed.

(** Sequences of [?]; a step that is a hint is discharged by it. *)
Create HintDb outcomes.

Ltac outs :=
  cbv zeta;
  repeat match goal with
  | |- outcomes (comp_bind _ _) _ _ =>
    eapply outcomes_bind; [solve [eauto with outcomes nocore]|intros ? _; cbv beta]
  | |- outcomes (comp_ret _) _ _ => by apply outcomes_ret
  | |- outcomes (match ?x with _ => _ end) _ _ => destruct x
  | |- outcomes _ _ _ => solve [eauto with outcomes nocore]
  end.

(** ** The error contract of the repositories *)

Definition storage_err (e : UseCaseError) : Prop := ∃ m, e = Storage m.
Definition storage_or_domain (e : UseCaseError) : Prop := storage_err e ∨ ∃ d, e = DomainErr d.

Class RepoErrors {T : TimeOps} (S : Type) {BR : BucketRepository S} {KR : KeyRepository S} : Prop := {
  err_get_policy b : outcomes (get_policy b) any storage_err;
  err_create_bucket b p : outcomes (Ports.create_bucket b p) any storage_err;
  err_delete_bucket b : outcomes (Ports.delete_bucket b) any storage_err;
  err_get b k : outcomes (repo_get b k) any storage_err;
  err_set b k v e : outcomes (repo_set b k v e) any storage_err;
  err_delete b k : outcomes (repo_delete b k) any storage_err;
  err_list b opts : outcomes (repo_list b opts) any storage_err;
  err_increment now b k o e : outcomes (repo_increment now b k o e) any storage_or_domain;
  err_apply_batch b ops : outcomes (repo_apply_batch b ops) any storage_err;
}.

Section Adapter.
Context {T : TimeOps} {P : PostcardOps} {J : PolicyJsonOps} {F : FjallOps} {H : HasherOps}
        {L : LayoutOps}.

Abbreviation op A := (comp Store.FjallStore A UseCaseError).

Lemma out_qm {A} (r : result A (FjallError fjall_error)) : outcomes (Store.qm r) any storage_err.
Proof. intros s. unfold Store.qm. destruct r; simpl; [done|by eexists]. Qed.

Lemma out_qm_policy {A} (r : result A bytes) : outcomes (Store.qm_policy r) any storage_err.
Proof. intros s. unfold Store.qm_policy. destruct r; simpl; [done|by eexists]. Qed.

Lemma out_on_db {A} (f : Database → result A fjall_error * Database) :
  outcomes (Store.on_db f) any storage_err.
Proof. intros s. unfold Store.on_db. destruct (f (Store.db s)) as [r d]. apply out_qm. Qed.

Lemma out_locks ks :
  outcomes (λ s, Store.qm (Locks.lock_stripes_for_keys (Store.write_locks s) ks) s) any storage_err.
Proof. intros s. apply out_qm. Qed.

Lemma out_scan p : outcomes (Store.scan_data p) any storage_err.
Proof. intros s. unfold Store.scan_data. by destruct (ks_prefix _ _ _). Qed.

Lemma out_domain {A} (r : result A DomainError) :
  outcomes (S := Store.FjallStore) (comp_lift (from_domain r)) any storage_or_domain.
Proof. apply outcomes_lift. destruct r; simpl; [done|right; by eexists]. Qed.

Lemma out_either {A} (m : op A) : outcomes m any storage_err → outcomes m any storage_or_domain.
Proof. intros Hm. eapply outcomes_mono; [exact Hm|done|by left]. Qed.

Hint Resolve out_qm out_qm_policy out_on_db out_locks out_scan out_domain out_either : outcomes.

Lemma out_guard k : outcomes (Store.guard k) any storage_err.
Proof.
  assert (∀ lk, outcomes (S := Store.FjallStore)
    (let! _ := Store.qm (Locks.lock_for lk k) in comp_ret tt) any storage_err) as Hg by (intros lk; outs).
  intros s. apply Hg.
Qed.

Lemma out_write_entry k l e : outcomes (Store.write_entry k l e) any storage_err.
Proof. unfold Store.write_entry. outs. Qed.

Lemma out_recorded {A} name (m : op A) R : outcomes m any R → outcomes (Store.recorded name m) any R.
Proof.
  intros Hm s. specialize (Hm s). unfold Store.recorded. by destruct (m s) as [[[a|e]|] s1].
Qed.

Lemma out_reverse b opts w gs d : outcomes (Store.reverse_loop b opts w gs d) any storage_err.
Proof. revert d. induction gs as [|g gs IH]; intros d; cbn [Store.reverse_loop]; outs; apply IH. Qed.

Lemma out_forward b opts gs sk tk d : outcomes (Store.forward_loop b opts gs sk tk d) any storage_err.
Proof.
  revert sk tk d. induction gs as [|g gs IH]; intros sk tk d; cbn [Store.forward_loop]; outs; apply IH.
Qed.

Hint Resolve out_guard out_write_entry out_reverse out_forward : outcomes.

#[global] Instance store_errors : RepoErrors Store.FjallStore.
Proof.
  split; simpl; intros.
  - unfold Store.get_policy. outs.
  - unfold Store.create_bucket. outs.
  - unfold Store.delete_bucket. outs.
  - apply out_recorded. outs.
  - apply out_recorded. outs.
  - apply out_recorded. eapply outcomes_bind; [apply out_guard|]. intros [] _.
    eapply outcomes_bind; [apply out_on_db|]. intros ex _.
    eapply outcomes_bind with (Q := any); [|intros [] _]; outs.
  - apply out_recorded. unfold Store.list_inner. outs. done.
  - apply out_recorded. do 2 (eapply outcomes_bind; [eauto with outcomes|intros ? _]).
    eapply outcomes_bind with (Q := any); [|intros ? _]; outs.
  - apply out_recorded. outs.
Qed.

End Adapter.

(** ** Statuses *)

(** The body [json_error] builds: an [ErrorBody] whose code is the status. *)
Definition is_error_body (r : Response) : bool :=
  match body r with ErrorBody code _ => (code =? status r)%N | _ => false end.

Definition success_in (l : list N) (r : Response) : Prop := status r ∈ l ∧ (status r <? 400)%N = true.
Definition error_in (l : list N) (r : Response) : Prop := status r ∈ l ∧ is_error_body r = true.

Definition replies {S} (l : list N) (m : comp S Response Response) : Prop :=
  outcomes m (success_in l) (error_in l).

(** The error responses of a pure step. *)
Definition fails {A} (l : list N) (r : result A Response) : Prop := ∀ e, r = Err e → error_in l e.

#[global] Instance error_in_dec l r : Decision (error_in l r).
Proof. unfold error_in. apply _. Defined.
#[global] Instance success_in_dec l r : Decision (success_in l r).
Proof. unfold success_in. apply _. Defined.

Lemma subset_of (l l' : list N) n : forallb (λ n, bool_decide (n ∈ l')) l = true → n ∈ l → n ∈ l'.
Proof. rewrite forallb_forall. intros Hl Hn. by eapply bool_decide_eq_true_1, Hl, list_elem_of_In. Qed.

(** A literal response in a literal list. *)
Ltac listed_status := apply (bool_decide_eq_true_1 _); vm_refl.

Lemma fails_mono {A} (l l' : list N) (r : result A Response) :
  forallb (λ n, bool_decide (n ∈ l')) l = true → fails l r → fails l' r.
Proof.
  intros Hl Hr e He. destruct (Hr e He). split; [by eapply subset_of|done].
Qed.

Lemma fails_ok {A} l (a : A) : fails l (Ok a).
Proof. done. Qed.

Lemma fails_err {A} l (e : Response) : error_in l e → fails (A := A) l (Err e).
Proof. by intros He ? [= <-]. Qed.

Lemma fails_ok_or {A} l e (o : option A) : error_in l e → fails l (ok_or e o).
Proof. intros He. destruct o; [apply fails_ok|by apply fails_err]. Qed.

Lemma fails_map_err {A E} l (f : E → Response) (r : result A E) :
  (∀ e, error_in l (f e)) → fails l (map_err f r).
Proof. intros Hf. destruct r; [apply fails_ok|by apply fails_err]. Qed.

Lemma fails_bind {A B} l (r : result A Response) (f : A → result B Response) :
  fails l r → (∀ a, fails l (f a)) → fails l (result_bind r f).
Proof. intros Hr Hf. destruct r as [a|e]; simpl; [apply Hf|]. intros ? [= <-]. by apply Hr. Qed.

Create HintDb statuses.
#[export] Hint Resolve fails_ok : statuses.
#[export] Hint Extern 1 (fails _ (Err _)) => apply fails_err; listed_status : statuses.
#[export] Hint Extern 1 (fails _ (ok_or _ _)) => apply fails_ok_or; listed_status : statuses.
#[export] Hint Extern 2 (fails _ (map_err (λ _, _) _)) =>
  apply fails_map_err; intros; listed_status : statuses.

(** Case analysis and sequences of [?] in pure code. *)
Ltac fails_tac :=
  cbv zeta;
  repeat match goal with
  | |- fails _ (result_bind _ _) =>
    apply fails_bind; [|intros ?; cbv beta zeta]
  | |- fails _ (match ?x with _ => _ end) => destruct x
  | |- fails _ _ => solve [eauto with statuses nocore]
  end.

Lemma fails_require_admin a : fails [403%N] (require_admin a).
Proof. unfold require_admin. fails_tac. Qed.
Lemma fails_require_enumerate a : fails [401; 403]%N (require_enumerate a).
Proof. unfold require_enumerate. fails_tac. Qed.
Lemma fails_require_read a k : fails [401; 403]%N (require_read_on a k).
Proof. unfold require_read_on. fails_tac. Qed.
Lemma fails_require_write a k : fails [401; 403]%N (require_write_on a k).
Proof. unfold require_write_on. fails_tac. Qed.
Lemma fails_require_delete a k : fails [401; 403]%N (require_delete_on a k).
Proof. unfold require_delete_on. fails_tac. Qed.

Lemma fails_list_format {W : WireOps} params hs : fails [406%N] (Buckets.resolve_list_format params hs).
Proof. unfold Buckets.resolve_list_format. fails_tac. Qed.

(** The exact sets above weaken to any larger literal set. *)
Create HintDb exact_statuses.
#[export] Hint Resolve fails_require_admin fails_require_enumerate fails_require_read
  fails_require_write fails_require_delete fails_list_format : exact_statuses.
#[export] Hint Extern 3 (fails _ _) =>
  (eapply fails_mono; [|solve [eauto 2 with exact_statuses nocore]]); vm_refl : statuses.

Section Pure.
Context {T : TimeOps} {JS : JsonOps} {JV : JsonValueOps} {W : WireOps} {C : CryptoOps} {K : TokenOps}.

Lemma fails_parse_key raw : fails [400%N] (parse_percent_encoded_key raw).
Proof. unfold parse_percent_encoded_key. fails_tac. Qed.

(** The use cases fail outside the repository with domain errors only. *)
Lemma fails_from_domain {A} (r : result A DomainError) :
  fails [400%N] (map_err map_use_case_repo_err (from_domain r)).
Proof. destruct r; simpl; fails_tac. Qed.

Lemma fails_infer body ct :
  fails [400%N] (map_err map_use_case_repo_err (KeyService.infer_stored_value body ct)).
Proof. apply fails_from_domain. Qed.

Lemma resolve_ttl_err now o d e : KeyService.resolve_ttl now o d = Err e → ∃ de, e = DomainErr de.
Proof.
  unfold KeyService.resolve_ttl. destruct (match o with Some _ => _ | None => _ end) as [[|p]|]; [done| |done].
  destruct (Int64.i64_try_from _); simpl; [|intros [= <-]; by eexists].
  destruct (checked_add_seconds _ _); simpl; [done|intros [= <-]; by eexists].
Qed.

Lemma fails_resolve_ttl now o d :
  fails [400%N] (map_err map_use_case_repo_err (KeyService.resolve_ttl now o d)).
Proof.
  intros e. destruct (KeyService.resolve_ttl now o d) eqn:E; simpl; [done|]. intros [= <-].
  apply resolve_ttl_err in E as [de ->]. listed_status.
Qed.

Hint Resolve fails_parse_key fails_infer fails_resolve_ttl : exact_statuses.

Lemma fails_txn_op now a item : fails [400; 401; 403]%N (Txn.txn_op now a item).
Proof. unfold Txn.txn_op, Txn.json_value_to_body. fails_tac. Qed.

Lemma fails_txn_ops clk a items : fails [400; 401; 403]%N (Txn.txn_ops clk a items).
Proof.
  revert clk. induction items as [|i items IH]; intros clk; cbn [Txn.txn_ops]; [apply fails_ok|].
  apply fails_bind; [apply fails_txn_op|]. intros o. apply fails_bind; [apply IH|]. intros os. apply fails_ok.
Qed.

Lemma fails_permissions raw : fails [400%N] (TokensRoute.parse_permissions raw).
Proof.
  unfold TokensRoute.parse_permissions. apply fails_bind; [|intros p; fails_tac].
  generalize Permission.NONE. induction (split ","%byte raw) as [|x l IH]; intros p; simpl; [apply fails_ok|].
  apply fails_bind; [unfold TokensRoute.add_permission; fails_tac|apply IH].
Qed.

Lemma fails_json_row row : fails [500%N] (Buckets.json_row row).
Proof. unfold Buckets.json_row, Buckets.stored_value_to_json, Buckets.utf8_or_fail. fails_tac. Qed.

Lemma fails_json_rows rows : fails [500%N] (Buckets.json_rows rows).
Proof.
  induction rows as [|r rows IH]; cbn [Buckets.json_rows]; [apply fails_ok|].
  apply fails_bind; [apply fails_json_row|intros x]. apply fails_bind; [apply IH|intros y; apply fails_ok].
Qed.

Lemma fails_render_text iv first rows out : fails [500%N] (Buckets.render_text_rows iv first rows out).
Proof.
  revert first out. induction rows as [|r rows IH]; intros first out; cbn [Buckets.render_text_rows];
    [apply fails_ok|].
  apply fails_bind; [unfold Buckets.render_text_row; fails_tac|]. intros line. apply IH.
Qed.

Lemma fails_render_jsonl rows iv : fails [500%N] (Buckets.render_list_jsonl rows iv).
Proof.
  induction rows as [|r rows IH]; cbn [Buckets.render_list_jsonl]; [apply fails_ok|].
  apply fails_bind; [destruct iv; [apply fails_json_row|apply fails_ok]|intros line].
  apply fails_bind; [fails_tac|intros chunk]. apply fails_bind; [apply IH|intros; apply fails_ok].
Qed.

Lemma fails_render fmt rows iv : fails [500%N] (Buckets.render_list_body fmt rows iv).
Proof.
  destruct fmt; cbn [Buckets.render_list_body]; [apply fails_render_text| |apply fails_render_jsonl].
  unfold Buckets.render_list_json. apply fails_bind; [|intros v; fails_tac].
  destruct iv; [|apply fails_ok]. apply fails_bind; [apply fails_json_rows|intros; apply fails_ok].
Qed.

Lemma fails_new_policy rk form : fails [500%N] (Buckets.new_policy rk form).
Proof. unfold Buckets.new_policy, Buckets.hash_opt, Buckets.hash_api_key_or_fail. fails_tac. Qed.

Lemma fails_patch p patch rk : fails [400; 500]%N (Buckets.apply_policy_patch p patch rk).
Proof.
  unfold Buckets.apply_policy_patch, Buckets.patch_secret, Buckets.patch_hash, Buckets.patch_signing,
    Buckets.apply_nullable_hash, Buckets.hash_api_key_or_fail.
  fails_tac.
Qed.

End Pure.

#[export] Hint Resolve fails_parse_key fails_infer fails_resolve_ttl fails_txn_ops fails_permissions
  fails_render fails_new_policy fails_patch : exact_statuses.

(** ** Use cases *)

(** The statuses the errors of a use case become. *)
Definition use_fails {S A} (l : list N) (m : comp S A UseCaseError) : Prop :=
  outcomes m any (λ e, error_in l (map_use_case_repo_err e)).

Lemma use_fails_storage {S A} (l : list N) (m : comp S A UseCaseError) :
  500%N ∈ l → outcomes m any storage_err → use_fails l m.
Proof. intros Hl Hm. eapply outcomes_mono; [exact Hm|done|]. by intros e [x ->]. Qed.

Section UseCases.
Context {T : TimeOps} {JS : JsonOps} {S : Type} {BR : BucketRepository S} {KR : KeyRepository S}
        {RE : RepoErrors S}.

Lemma storage_fails {A} (m : comp S A UseCaseError) : outcomes m any storage_err → use_fails [500%N] m.
Proof. apply use_fails_storage. listed_status. Qed.

Lemma use_get_policy b : use_fails [500%N] (get_policy (S := S) b).
Proof. apply storage_fails, err_get_policy. Qed.
Lemma use_create_bucket b p : use_fails [500%N] (Ports.create_bucket (S := S) b p).
Proof. apply storage_fails, err_create_bucket. Qed.
Lemma use_delete_bucket b : use_fails [500%N] (Ports.delete_bucket (S := S) b).
Proof. apply storage_fails, err_delete_bucket. Qed.
Lemma use_list now b input : use_fails (S := S) [500%N] (KeyService.list now b input).
Proof. apply storage_fails, err_list. Qed.
Lemma use_execute b ops : use_fails (S := S) [500%N] (KeyService.execute b ops).
Proof. apply storage_fails, err_apply_batch. Qed.

Lemma use_get now b k : use_fails (S := S) [404; 500]%N (KeyService.get now b k).
Proof.
  unfold use_fails, KeyService.get. eapply outcomes_bind with (Q := any).
  { apply use_fails_storage; [listed_status|apply err_get]. }
  intros o _. eapply outcomes_bind with (Q := any).
  { apply outcomes_lift. destruct o; simpl; [done|listed_status]. }
  intros en _. destruct (expires_at en) as [exp|]; [destruct (odt_leb exp now)|];
    first [by apply outcomes_ret|apply outcomes_err; listed_status].
Qed.

Lemma use_delete b k : use_fails (S := S) [404; 500]%N (KeyService.delete b k).
Proof.
  unfold use_fails, KeyService.delete. eapply outcomes_bind with (Q := any).
  { apply use_fails_storage; [listed_status|apply err_delete]. }
  intros [] _; [by apply outcomes_ret|apply outcomes_err; listed_status].
Qed.

Lemma use_ttl {A} l now o d (f : _ → comp S A UseCaseError) :
  400%N ∈ l → (∀ e, use_fails l (f e)) →
  use_fails l (let! e := comp_lift (KeyService.resolve_ttl now o d) in f e).
Proof.
  intros Hl Hf. eapply outcomes_bind with (Q := any); [|intros e _; apply Hf].
  apply outcomes_lift. destruct (KeyService.resolve_ttl now o d) eqn:E; [done|].
  by apply resolve_ttl_err in E as [de ->].
Qed.

Lemma use_set now b k body ct o d :
  use_fails (S := S) [400; 500]%N (KeyService.set now b k body ct o d).
Proof.
  unfold KeyService.set. eapply outcomes_bind with (Q := any).
  { apply outcomes_lift. unfold KeyService.infer_stored_value.
    destruct (Value.new _ _); simpl; [done|listed_status]. }
  intros v _. apply use_ttl; [listed_status|]. intros e.
  eapply outcomes_bind with (Q := any); [|intros ? _; by apply outcomes_ret].
  apply use_fails_storage; [listed_status|apply err_set].
Qed.

Lemma use_increment now now' b k op o d :
  use_fails (S := S) [400; 500]%N (KeyService.increment now now' b k op o d).
Proof.
  apply use_ttl; [listed_status|]. intros e. eapply outcomes_mono; [apply err_increment|done|].
  intros err [[m ->]|[de ->]]; listed_status.
Qed.

End UseCases.

(** ** Handlers *)

Lemma replies_pure {S A} l (r : result A Response) (f : A → comp S Response Response) :
  fails l r → (∀ a, replies l (f a)) → replies l (comp_bind (comp_lift r) f).
Proof.
  intros Hr Hf. eapply outcomes_bind with (Q := any); [|intros a _; apply Hf].
  apply outcomes_lift. destruct r; [done|by apply Hr].
Qed.

Lemma replies_use {S A} l0 l (m : comp S A UseCaseError) (f : A → comp S Response Response) :
  use_fails l0 m → forallb (λ n, bool_decide (n ∈ l)) (500%N :: l0) = true →
  (∀ a, replies l (f a)) → replies l (comp_bind (spawn_usecase m) f).
Proof.
  intros Hm Hl Hf. eapply outcomes_bind with (Q := any); [|intros a _; apply Hf].
  intros s. specialize (Hm s). unfold spawn_usecase. destruct (m s) as [[[a|e]|] s1]; simpl in *.
  - done.
  - destruct Hm. split; [|done]. apply (subset_of (500%N :: l0)); [exact Hl|by right].
  - split; [|done]. apply (subset_of (500%N :: l0)); [exact Hl|by left].
Qed.

Lemma replies_lift {S} l (r : result Response Response) :
  match r with Ok a => success_in l a | Err e => error_in l e end → replies (S := S) l (comp_lift r).
Proof. intros Hr. by apply outcomes_lift; destruct r. Qed.

Create HintDb use_cases.
#[export] Hint Resolve use_get_policy use_create_bucket use_delete_bucket use_list use_execute use_get
  use_delete use_set use_increment : use_cases.

(** One handler: guards, use cases, answers. *)
Ltac replies_tac :=
  cbv zeta;
  repeat match goal with
  | |- replies _ (comp_bind (comp_lift _) _) =>
    apply replies_pure; [fails_tac|intros ?; cbv beta zeta]
  | |- replies _ (comp_bind (spawn_usecase _) _) =>
    eapply replies_use; [solve [eauto 2 with use_cases nocore]|vm_refl|intros ?; cbv beta zeta]
  | |- replies _ (comp_ret _) => apply outcomes_ret; listed_status
  | |- replies _ (comp_err _) => apply outcomes_err; listed_status
  | |- replies _ (comp_lift (Keys.stored_value_response _)) => apply replies_lift; listed_status
  | |- replies _ (match ?x with _ => _ end) => destruct x
  end.

Section Handlers.
Context {T : TimeOps} {JS : JsonOps} {JV : JsonValueOps} {W : WireOps} {C : CryptoOps} {K : TokenOps}.
Context {S : Type} {BR : BucketRepository S} {KR : KeyRepository S} {RE : RepoErrors S}.

Abbreviation handler := (comp S Response Response).

Lemma replies_get_key now a raw :
  replies (S := S) [200; 400; 401; 403; 404; 500]%N (Keys.get_key now a raw).
Proof. unfold Keys.get_key. replies_tac. Qed.
Lemma replies_head_key now a raw :
  replies (S := S) [200; 400; 401; 403; 404; 500]%N (Keys.head_key now a raw).
Proof. unfold Keys.head_key. replies_tac. Qed.
Lemma replies_put_key now a raw ttl hs body :
  replies (S := S) [200; 400; 401; 403; 500]%N (Keys.put_key now a raw ttl hs body).
Proof. unfold Keys.put_key. replies_tac. Qed.
Lemma replies_delete_key a raw :
  replies (S := S) [204; 400; 401; 403; 404; 500]%N (Keys.delete_key a raw).
Proof. unfold Keys.delete_key. replies_tac. Qed.
Lemma replies_patch_key now now' a raw ttl body :
  replies (S := S) [200; 400; 401; 403; 500]%N (Keys.patch_key now now' a raw ttl body).
Proof. unfold Keys.patch_key. replies_tac. Qed.
Lemma replies_execute_txn clk a parsed :
  replies (S := S) [204; 400; 401; 403; 500]%N (Txn.execute_txn clk a parsed).
Proof. unfold Txn.execute_txn. replies_tac. Qed.
Lemma replies_create_token now a form :
  replies (S := S) [200; 400; 403; 404; 500; 503]%N (TokensRoute.create_token now a form).
Proof. unfold TokensRoute.create_token. replies_tac. Qed.
Lemma replies_create_bucket rk id form :
  replies (S := S) [200; 400; 500]%N (Buckets.create_bucket rk id form).
Proof. unfold Buckets.create_bucket. replies_tac. done. Qed.
Lemma replies_list_bucket now a params hs :
  replies (S := S) [200; 401; 403; 406; 500]%N (Buckets.list_bucket now a params hs).
Proof. unfold Buckets.list_bucket. replies_tac. Qed.
Lemma replies_update_policy rk a body parsed :
  replies (S := S) [204; 400; 403; 404; 500]%N (Buckets.update_policy rk a body parsed).
Proof. unfold Buckets.update_policy. replies_tac. Qed.
Lemma replies_delete_bucket a : replies (S := S) [204; 403; 500]%N (Buckets.delete_bucket a).
Proof. unfold Buckets.delete_bucket. replies_tac. Qed.
Lemma replies_get_bucket_policy a :
  replies (S := S) [200; 403; 404; 500]%N (Buckets.get_bucket_policy a).
Proof. unfold Buckets.get_bucket_policy. replies_tac. Qed.
Lemma replies_head_bucket a : replies (S := S) [200; 403]%N (Buckets.head_bucket a).
Proof. unfold Buckets.head_bucket. replies_tac. Qed.

End Handlers.
