(* ===== verification/ApiDoc.v ===== *)
(** * The API documentation

    The [#[utoipa::path]] attributes of the handlers ([routes/]) and the [OpenApi] document that
    collects them ([openapi.rs]): for each operation its methods, path, parameters, request body,
    documented responses and tag. Descriptions are prose and left out. The theorems compare the
    document with the router and with the statuses the handlers really answer. *)

From Stdlib Require Import Strings.Byte.
From S2P Require Import Prelude RustStd TimeLib Domain Counter Ports Codec FjallLib Locks Store StoreRepo KeyService Auth HttpBase HttpRoutes HttpBuckets HttpListing HttpProps Router Routing Effects ServerProps Statuses.
Import Http Router Server.

Module ApiDoc.

(** ** Operations *)

(** The schemas the document registers or an operation refers to. *)
Inductive Schema : Type :=
| HealthResponse | ErrorBody | ErrorDetail | TtlQuery | TxnRequest | TxnItem | TxnSet | TxnDelete
| CreateBucketForm | UpdatePolicyJson | BucketPolicyPublic | AnonymousAccessView | ListBucketParams
| CreateTokenForm | AccessTokenResponse
(** a body that is just text *)
| PlainText.

#[global] Instance Schema_eq_dec : EqDecision Schema.
Proof. solve_decision. Defined.

Record Operation : Type := mkOperation {
  op_methods : list Method;
  op_path : bytes;
  path_params : list bytes;
  query_params : option Schema;
  request_body : option Schema;
  responses : list (N * option Schema);
  tag : option bytes;
}.

(** Error responses carry an [ErrorBody]. *)
Definition with_errors (codes : list N) : list (N * option Schema) :=
  (λ c, (c, Some ErrorBody)) <$> codes.

Definition bucket_param : list bytes := [bs "bucket"].
Definition key_params : list bytes := [bs "bucket"; bs "key"].
Definition key_path : bytes := bs "/{bucket}/{key}".

Definition health_check_doc : Operation :=
  mkOperation [GET] (bs "/health") [] None None [(200%N, Some HealthResponse)] None.

Definition readiness_check_doc : Operation :=
  mkOperation [GET] (bs "/ready") [] None None
    [(200%N, Some HealthResponse); (503%N, Some HealthResponse)] None.

Definition create_bucket_doc : Operation :=
  mkOperation [POST] (bs "/") [] None (Some CreateBucketForm)
    ((200%N, None) :: with_errors [400; 500]%N) (Some (bs "buckets")).

Definition list_bucket_doc : Operation :=
  mkOperation [GET] (bs "/{bucket}/") bucket_param (Some ListBucketParams) None
    ((200%N, None) :: with_errors [400; 401; 403; 404; 406; 500]%N) (Some (bs "buckets")).

Definition update_policy_doc : Operation :=
  mkOperation [PATCH] (bs "/{bucket}") bucket_param None (Some UpdatePolicyJson)
    ((204%N, None) :: with_errors [400; 403; 404; 500]%N) (Some (bs "buckets")).

Definition delete_bucket_doc : Operation :=
  mkOperation [DELETE] (bs "/{bucket}") bucket_param None None
    ((204%N, None) :: with_errors [403; 404; 500]%N) (Some (bs "buckets")).

Definition get_bucket_policy_doc : Operation :=
  mkOperation [GET] (bs "/{bucket}") bucket_param None None
    ((200%N, Some BucketPolicyPublic) :: with_errors [401; 403; 404; 500]%N) (Some (bs "buckets")).

Definition head_bucket_doc : Operation :=
  mkOperation [HEAD] (bs "/{bucket}") bucket_param None None
    ((200%N, None) :: with_errors [401; 403; 404; 500]%N) (Some (bs "buckets")).

Definition delete_bucket_slash_openapi : Operation :=
  mkOperation [DELETE] (bs "/{bucket}/") bucket_param None None
    ((204%N, None) :: with_errors [403; 404; 500]%N) (Some (bs "buckets")).

Definition create_token_doc : Operation :=
  mkOperation [POST] (bs "/{bucket}/tokens/") bucket_param None (Some CreateTokenForm)
    ((200%N, Some AccessTokenResponse) :: with_errors [400; 403; 404; 503; 500]%N) (Some (bs "tokens")).

Definition get_key_doc : Operation :=
  mkOperation [GET] key_path key_params None None
    ((200%N, None) :: with_errors [400; 401; 403; 404; 500]%N) (Some (bs "keys")).

Definition head_key_doc : Operation :=
  mkOperation [HEAD] key_path key_params None None
    ((200%N, None) :: with_errors [400; 401; 403; 404; 500]%N) (Some (bs "keys")).

Definition put_key_openapi : Operation :=
  mkOperation [PUT; POST] key_path key_params (Some TtlQuery) None
    ((200%N, None) :: with_errors [400; 401; 403; 500]%N) (Some (bs "keys")).

Definition delete_key_doc : Operation :=
  mkOperation [DELETE] key_path key_params None None
    ((204%N, None) :: with_errors [400; 401; 403; 404; 500]%N) (Some (bs "keys")).

Definition patch_key_doc : Operation :=
  mkOperation [PATCH] key_path key_params (Some TtlQuery) (Some PlainText)
    ((200%N, None) :: with_errors [400; 401; 403; 500]%N) (Some (bs "keys")).

Definition execute_txn_doc : Operation :=
  mkOperation [POST] (bs "/{bucket}") bucket_param None (Some TxnRequest)
    ((204%N, None) :: with_errors [400; 401; 403; 500]%N) (Some (bs "transactions")).

(** [paths(..)] of the document, in order; the two stubs without a body stand for the handlers
    registered under the same path. *)
Definition operations : list (handler_id * Operation) :=
  [(HealthCheck, health_check_doc); (ReadinessCheck, readiness_check_doc);
   (CreateBucket, create_bucket_doc); (ListBucket, list_bucket_doc);
   (GetBucketPolicy, get_bucket_policy_doc); (HeadBucket, head_bucket_doc);
   (UpdatePolicy, update_policy_doc); (DeleteBucket, delete_bucket_doc);
   (DeleteBucket, delete_bucket_slash_openapi); (CreateToken, create_token_doc);
   (GetKey, get_key_doc); (HeadKey, head_key_doc); (PutKey, put_key_openapi);
   (DeleteKey, delete_key_doc); (PatchKey, patch_key_doc); (ExecuteTxn, execute_txn_doc)].

(** [components(schemas(..))]. *)
Definition component_schemas : list Schema :=
  [HealthResponse; ErrorBody; ErrorDetail; TtlQuery; TxnRequest; TxnItem; TxnSet; TxnDelete;
   CreateBucketForm; UpdatePolicyJson; BucketPolicyPublic; AnonymousAccessView; ListBucketParams;
   CreateTokenForm; AccessTokenResponse].

(** The schemas the fields of a schema refer to. *)
Definition field_schemas (s : Schema) : list Schema :=
  match s with
  | ErrorBody => [ErrorDetail]
  | TxnRequest => [TxnItem]
  | TxnItem => [TxnSet; TxnDelete]
  | BucketPolicyPublic => [AnonymousAccessView]
  | _ => []
  end.

Definition schemas_of (o : Operation) : list Schema :=
  option_list (query_params o) ++ option_list (request_body o) ++ (responses o ≫= λ r, option_list r.2).

(** The names of the parameters of a path. *)
Definition param_names (path : bytes) : list bytes :=
  (λ seg, take (length seg - 2) (drop 1 seg)) <$> filter (λ seg, is_param seg = true) (split "/"%byte path).

(** The statuses documented for a handler, under any of its paths. *)
Definition documented (h : handler_id) : list N :=
  operations ≫= λ ho, if decide (ho.1 = h) then (responses ho.2).*1 else [].

(** The statuses a handler answers with and the document does not mention. *)
Definition undocumented (h : handler_id) : list N :=
  match h with
  | PutKey | PatchKey | ExecuteTxn => [404; 413]
  | DeleteBucket => [401]
  | UpdatePolicy => [401; 413]
  | CreateToken => [401; 413; 415; 422]
  | CreateBucket => [413; 415; 422]
  | Metrics => [200]
  | _ => []
  end%N.

End ApiDoc.
Import ApiDoc.

(** ** The framework's rejections *)

(** A request an extractor of a handler's signature rejected; axum answers it, in plain text. *)
Inductive rejection {JV : JsonValueOps} {AX : AxumOps} : list N → Response → Prop :=
| rejected_path caps e : extract_path caps = Err e → rejection [400; 500]%N e
| rejected_ttl q e : extract_ttl q = Err e → rejection [400%N] e
| rejected_list_params q e : extract_list_params q = Err e → rejection [400%N] e
| rejected_create_form h b e : extract_create_form h b = Err e → rejection [400; 413; 415; 422]%N e
| rejected_token_form h b e : extract_token_form h b = Err e → rejection [400; 413; 415; 422]%N e
| rejected_bytes b e : extract_bytes b = Err e → rejection [400; 413]%N e.

(** The statuses axum's extractors reject a request with. *)
Class RejectionLaws {JV : JsonValueOps} (AX : AxumOps) : Prop := {
  rejection_status l e : rejection l e → status e ∈ l;
}.

(** ** Which bucket a routed request addresses *)

(** The handlers that start with the [BucketAuth] extractor. *)
Definition takes_bucket (h : handler_id) : bool :=
  match h with HealthCheck | ReadinessCheck | Metrics | CreateBucket => false | _ => true end.

Lemma trim_slashes_head b r : "/"%byte ∉ b → b ≠ [] → trim_slashes (b ++ r) = b ++ r.
Proof.
  destruct b as [|x b]; [done|]. rewrite not_elem_of_cons. intros [Hx _] _. simpl. by case_decide.
Qed.

Lemma bucket_of_segment b rest r :
  split "/"%byte r = b :: rest → b ≠ [] →
  bucket_id_from_path ("/"%byte :: r) = Ok (mkBucketId b).
Proof.
  intros Hr Hb. unfold bucket_id_from_path, first_path_segment. cbn [trim_slashes].
  rewrite decide_True by done.
  assert ("/"%byte ∉ b) as Hn by (apply (split_no_sep _ r); rewrite Hr; set_solver).
  assert (trim_slashes r = r) as ->.
  { destruct (split_head _ _ _ _ Hr) as [r' ->]. by apply trim_slashes_head. }
  rewrite Hr, filter_cons, decide_True by done. simpl. unfold Bucket.new. by rewrite bool_decide_eq_false_2.
Qed.

(** The segments of a path below the API prefix. *)
Lemma api_path_rest p e b rest :
  split "/"%byte p = e :: bs "api" :: bs "v1" :: b :: rest → e = [] →
  ∃ r, strip_prefix API_PREFIX p = Some ("/"%byte :: r) ∧ split "/"%byte r = b :: rest.
Proof.
  intros Hp ->. destruct (split_cons_inv _ _ _ _ _ Hp) as (r1 & -> & H1).
  destruct (split_cons_inv _ _ _ _ _ H1) as (r2 & -> & H2).
  destruct (split_cons_inv _ _ _ _ _ H2) as (r3 & -> & H3). exists r3. split; [|done].
  by apply strip_prefix_Some.
Qed.

Section Documented.
Context {T : TimeOps} {JS : JsonOps} {JV : JsonValueOps} {W : WireOps} {C : CryptoOps} {K : TokenOps}
        {AX : AxumOps} {AL : AxumLaws AX} {RL : RejectionLaws AX}.

Lemma select_In ms m m' h : select ms m = Some (m', h) → (m', h) ∈ ms.
Proof.
  unfold select. destruct (assoc_method ms m) eqn:E; [intros [= <- <-]; by apply assoc_method_In|].
  case_bool_decide; [|done]. destruct (assoc_method ms GET) eqn:E'; [|done].
  intros [= <- <-]. by apply assoc_method_In.
Qed.

(** A routed request names a bucket wherever its handler asks for one. *)
Lemma routed_bucket opts m p r m' h caps :
  dispatch (build_router opts) m p = ToHandler r m' h caps → takes_bucket h = true →
  ∃ b, bucket_id_from_path (default p (strip_prefix API_PREFIX p)) = Ok b.
Proof.
  rewrite build_router_table. pose proof (spec_route_match opts p) as Hs.
  destruct (spec_route opts (split "/"%byte p)) as [[r0 caps0]|] eqn:Er; [|by rewrite dispatch_none].
  destruct Hs as [Hr0 Hm0]. rewrite (dispatch_found _ r0 m p caps0) by (done || apply server_table_disjoint).
  unfold serve_route. destruct (select (methods r0) m) as [[m0 h0]|] eqn:Es; [|done].
  intros [= <- <- <- <-] Hb. apply select_In in Es. clear Hr0 Hm0.
  destruct (split "/"%byte p) as [|e [|a [|v [|b rest]]]] eqn:Ep; cbn [spec_route api_route] in Er;
    try done.
  - repeat case_bool_decide; simpl in Er; try destruct (expose_metrics opts); simplify_eq/=;
      apply list_elem_of_singleton in Es; by simplify_eq.
  - case_bool_decide; simplify_eq/=. apply list_elem_of_singleton in Es. by simplify_eq.
  - case_bool_decide as Hp; [|done]. destruct Hp as (He & -> & ->).
    assert (b = [] → takes_bucket h0 = false) as Hnil.
    { intros ->. destruct rest as [|k [|z []]]; simplify_eq/=.
      - apply list_elem_of_singleton in Es. by simplify_eq. }
    destruct (api_path_rest p e b rest Ep He) as (r1 & Hs & Hr1). rewrite Hs. simpl.
    eexists. eapply bucket_of_segment; [done|]. intros ->. by rewrite Hnil in Hb.
Qed.

Context {S : Type} {BR : BucketRepository S} {KR : KeyRepository S} {RE : RepoErrors S}.

(** The answers of a handler with its extractors. *)
Definition answers (l : list N) (m : comp S Response Response) : Prop :=
  outcomes m (success_in l)
    (λ e, status e ∈ l ∧ (is_error_body e = true ∨ ∃ codes, rejection codes e)).

Lemma answers_replies l l' (m : comp S Response Response) :
  forallb (λ n, bool_decide (n ∈ l')) l = true → replies l m → answers l' m.
Proof.
  intros Hl Hm. eapply outcomes_mono; [exact Hm|..].
  - intros r [Hr ?]. split; [by eapply subset_of|done].
  - intros r [Hr ?]. split; [by eapply subset_of|by left].
Qed.

(** The extractor of the bucket and the caller. *)
Lemma auth_errors now rk parts b :
  bucket_id_from_path (uri_path parts) = Ok b →
  outcomes (S := S) (from_request_parts now rk parts) any (error_in [401; 404; 500]%N).
Proof.
  intros Hb. unfold from_request_parts. rewrite Hb. cbn [map_err].
  eapply outcomes_bind with (Q := any); [by apply outcomes_lift|]. intros id _.
  eapply outcomes_bind with (Q := any).
  { intros s. pose proof (use_get_policy id s) as Hp. unfold spawn_usecase.
    destruct (get_policy id s) as [[[o|e]|] s1]; simpl in *; [done| |listed_status].
    destruct Hp as [Hp ?]. split; [|done]. by eapply subset_of; [|exact Hp]. }
  intros found _. eapply outcomes_bind with (Q := any).
  { apply outcomes_lift. destruct found; simpl; [done|listed_status]. }
  intros p _. eapply outcomes_bind with (Q := any); [|intros who _; by apply outcomes_ret].
  apply outcomes_lift. destruct (Auth.resolve _ _ _ _ _); simpl; [done|listed_status].
Qed.

Lemma answers_auth l now rk parts b (f : BucketAuth → comp S Response Response) :
  bucket_id_from_path (uri_path parts) = Ok b →
  forallb (λ n, bool_decide (n ∈ l)) [401; 404; 500]%N = true →
  (∀ a, answers l (f a)) → answers l (comp_bind (from_request_parts now rk parts) f).
Proof.
  intros Hb Hl Hf. eapply outcomes_bind with (Q := any); [|intros a _; apply Hf].
  eapply outcomes_mono; [by eapply auth_errors|done|].
  intros e [He ?]. split; [by eapply subset_of|by left].
Qed.

(** An extractor of the framework. *)
Lemma answers_extract {A} l codes (r : result A Response) (f : A → comp S Response Response) :
  (∀ e, r = Err e → rejection codes e) → forallb (λ n, bool_decide (n ∈ l)) codes = true →
  (∀ a, answers l (f a)) → answers l (comp_bind (comp_lift r) f).
Proof.
  intros Hr Hl Hf. eapply outcomes_bind with (Q := any); [|intros a _; apply Hf].
  apply outcomes_lift. destruct r as [a|e]; [done|]. specialize (Hr e eq_refl).
  split; [|right; by eexists]. eapply subset_of; [exact Hl|]. by apply rejection_status.
Qed.

Lemma answers_with_key l caps (f : bytes → comp S Response Response) :
  forallb (λ n, bool_decide (n ∈ l)) [400; 500]%N = true →
  (∀ raw, answers l (f raw)) → answers l (with_key caps f).
Proof.
  intros Hl Hf. eapply answers_extract; [intros e; apply rejected_path|done|].
  assert (500%N ∈ l) as H5 by (by eapply subset_of; [|right; left]).
  intros [|b [|raw []]]; try (apply outcomes_err; split; [done|by left]). apply Hf.
Qed.

Create HintDb handlers.
Create HintDb rejections.
Hint Resolve replies_get_key replies_head_key replies_put_key replies_delete_key replies_patch_key
  replies_execute_txn replies_create_token replies_create_bucket replies_list_bucket
  replies_update_policy replies_delete_bucket replies_get_bucket_policy replies_head_bucket : handlers.
Hint Constructors rejection : rejections.

Ltac routed Hb :=
  repeat match goal with
  | |- answers _ (with_auth _ _ _ _) => eapply answers_auth; [exact Hb|vm_refl|intros ?]
  | |- answers _ (with_key _ _) => apply answers_with_key; [vm_refl|intros ?]
  | |- answers _ (comp_bind (comp_lift _) _) =>
    eapply answers_extract; [eauto with rejections|vm_refl|intros ?]
  | |- answers _ (comp_ret _) => apply outcomes_ret; listed_status
  | |- answers _ _ => (eapply answers_replies; [|solve [eauto 2 with handlers nocore]]); vm_refl
  end.

Lemma handler_answers app env req h caps :
  h ≠ ReadinessCheck →
  (takes_bucket h = true → ∃ b, bucket_id_from_path (uri_path (parts_of req)) = Ok b) →
  answers (documented h ++ undocumented h) (run_handler app env req h caps).
Proof.
  intros Hn Hb. destruct h; cbn [takes_bucket run_handler] in *; try done;
    try (destruct (Hb eq_refl) as [b Hb']; routed Hb'); routed Hb.
Qed.

Lemma readiness_answers v (s : S) :
  status (Health.readiness_check v s).1 ∈ documented ReadinessCheck.
Proof.
  unfold Health.readiness_check. destruct (ping_metadata s) as [[[[]|e]|] s1]; listed_status.
Qed.

(** The answer of the server to a routed request, from that of the handler. *)
Lemma handle_routed opts app env req (st st' : State (S := S)) resp r m h caps :
  dispatch (build_router opts) (method req) (path req) = ToHandler r m h caps →
  cors_preflight req = None → handle opts app env req st = (Ret resp, st') →
  (∃ g, limited r = true ∧ govern req (limits st) = (Some resp, g))
  ∨ ∃ r0 s', run_handler app env req h caps (repo st) = (r0, s')
             ∧ ∃ resp0, into_response r0 = Ret resp0 ∧ resp = finish_head (method req) resp0.
Proof.
  intros Hd Hc Hh. unfold handle in Hh. rewrite Hc, Hd in Hh.
  unfold track_http_metrics, governed, endpoint in Hh. cbn [target_route] in Hh.
  destruct (run_handler app env req h caps (repo st)) as [r0 s1].
  destruct (limited r) eqn:Hl; [destruct (govern req (limits st)) as [[x|] g] eqn:Hg|];
    destruct (into_response r0) as [y|] eqn:Hy; simpl in Hh; simplify_eq;
    first [left; by eexists|right; eexists _, _; split; [done|]; by eexists].
Qed.

(** C21: The documented responses, up to a table of omissions. Over any repository that fails the
    way the adapter does, the answer to a request routed to a handler is either the rate limiter's
    refusal or carries a status of the handler's [responses(..)] attribute or of the table
    [undocumented]: 404 (unknown bucket) for the writes of keys and transactions, 401 for the
    administration of a bucket, and the framework's 413, 415 and 422 where a body is read. In
    particular reads and deletions of keys, listings and the policy views answer only as
    documented. An error answer, the readiness probe's apart, has the documented [ErrorBody] with
    the status as its code, except when an extractor rejected the request; the body of an answer
    to [HEAD] is dropped. *)
Theorem responses_documented (opts : RouterOptions) (app : AppState) (env : Env) (req : Request)
    (st st' : State (S := S)) (resp : Response) (r : Route) (m : Method) (h : handler_id)
    (caps : list bytes) :
  dispatch (build_router opts) (method req) (path req) = ToHandler r m h caps →
  cors_preflight req = None →
  handle opts app env req st = (Ret resp, st') →
  (∃ g, limited r = true ∧ govern req (limits st) = (Some resp, g))
  ∨ status resp ∈ documented h ++ undocumented h
    ∧ ((400 <= status resp)%N → h ≠ ReadinessCheck → method req ≠ HEAD →
        is_error_body resp = true ∨ ∃ codes, rejection codes resp).
Proof.
  intros Hd Hc Hh. destruct (handle_routed _ _ _ _ _ _ _ _ _ _ _ Hd Hc Hh) as [?|Hr]; [by left|right].
  destruct Hr as (r0 & s' & Hrun & resp0 & H0 & ->).
  assert (status (finish_head (method req) resp0) = status resp0) as ->
    by (unfold finish_head; by case_bool_decide).
  destruct (decide (h = ReadinessCheck)) as [->|Hn].
  - split; [|done]. simpl in Hrun. pose proof (readiness_answers (version app) (repo st)) as Hs.
    destruct (Health.readiness_check _ _) as [x s1]. by simplify_eq/=.
  - pose proof (handler_answers app env req h caps Hn (routed_bucket opts _ _ _ _ _ _ Hd) (repo st)) as Ha.
    rewrite Hrun in Ha. unfold finish_head.
    destruct r0 as [[a|a]|]; simplify_eq/=; destruct Ha as [H1 H2]; (split; [done|]); intros Hge _ Hm.
    + apply N.ltb_lt in H2. lia.
    + by rewrite bool_decide_eq_false_2.
Qed.

End Documented.

(** The document is consistent: every operation is listed under the path and the methods the router
    serves it at, declares exactly the parameters of its path, and refers only to schemas the
    document registers; and every registered schema is reachable from an operation. *)
Theorem document_consistent (opts : RouterOptions) :
  api_doc = (λ ho, (op_path ho.2, ho.1)) <$> operations
  ∧ (∀ h o, (h, o) ∈ operations →
       path_params o = param_names (op_path o)
       ∧ (∀ s, s ∈ schemas_of o → s ∈ component_schemas ∨ s = PlainText)
       ∧ ∀ r, r ∈ server_table opts → pattern r = openapi_path (op_path o) →
           ∀ m, (m, h) ∈ methods r ↔ m ∈ op_methods o)
  ∧ ∀ s, s ∈ component_schemas →
      ∃ h o, (h, o) ∈ operations ∧ (s ∈ schemas_of o ∨ ∃ t u, t ∈ schemas_of o ∧
        (s ∈ field_schemas t ∨ (u ∈ field_schemas t ∧ s ∈ field_schemas u))).
Proof.
  split; [vm_refl|]. split.
  - assert (Forall (λ ho, path_params ho.2 = param_names (op_path ho.2)
      ∧ Forall (λ s, s ∈ component_schemas ∨ s = PlainText) (schemas_of ho.2)
      ∧ Forall (λ r, pattern r = openapi_path (op_path ho.2) →
          Forall (λ mh, mh.2 = ho.1 → mh.1 ∈ op_methods ho.2) (methods r)
          ∧ Forall (λ m, (m, ho.1) ∈ methods r) (op_methods ho.2)) (server_table opts)) operations) as Hall.
    { destruct opts as [[] [[] n]]; apply (bool_decide_eq_true_1 _); vm_refl. }
    intros h o Ho. rewrite list.Forall_forall in Hall. destruct (Hall _ Ho) as (Hp & Hs & Hr).
    split; [done|]. rewrite list.Forall_forall in Hs. split; [apply Hs|]. intros r Hin Hpat m.
    destruct (proj1 (list.Forall_forall _ _) Hr r Hin Hpat) as [H1 H2].
    rewrite list.Forall_forall in H1. rewrite list.Forall_forall in H2.
    split; [intros Hm; by apply (H1 (m, h))|apply H2].
  - assert (Forall (λ s, Exists (λ ho, s ∈ schemas_of ho.2 ∨ Exists (λ t, s ∈ field_schemas t
      ∨ Exists (λ u, s ∈ field_schemas u) (field_schemas t)) (schemas_of ho.2)) operations)
      component_schemas) as Hall by (apply (bool_decide_eq_true_1 _); vm_refl).
    intros s Hs. rewrite list.Forall_forall in Hall.
    destruct (proj1 (list.Exists_exists _ _) (Hall s Hs)) as ([h o] & Ho & Hx). exists h, o.
    split; [done|]. destruct Hx as [Hx|Hx]; [by left|right].
    apply list.Exists_exists in Hx as (t & Ht & [Hx|Hx]); [exists t, s; auto|].
    apply list.Exists_exists in Hx as (u & Hu & Hx). exists t, u. auto.
Qed.

(** ** Witnesses *)

#[local] Instance demo_axum : AxumOps := toy_axum toy_wire.
#[local] Instance demo_axum_laws : AxumLaws demo_axum := toy_axum_laws toy_wire.

Lemma toy_rejections : RejectionLaws demo_axum.
Proof.
  split. intros l e []; simpl in *; repeat case_match; simplify_eq; listed_status.
Qed.

(** A request with a bearer credential. *)
Definition bearing (token : bytes) (r : Request) : Request :=
  mkRequest (method r) (path r) (query r) (mkHeaders (Some (bs "Bearer " ++ token)) None None) (req_body r).

(** Requests answered with a status their operation does not document. *)
Definition surprising : list (handler_id * N * Request) :=
  [(PutKey, 404%N, demo_http PUT (bs "/api/v1/nope/k") (bs "1"));
   (PatchKey, 404%N, demo_http PATCH (bs "/api/v1/nope/k") (bs "+1"));
   (ExecuteTxn, 404%N, demo_http POST (bs "/api/v1/nope") (bs "{}"));
   (UpdatePolicy, 401%N, bearing (bs "wrong") (demo_http PATCH (bs "/api/v1/b1") (bs "{}")));
   (DeleteBucket, 401%N, bearing (bs "wrong") (demo_http DELETE (bs "/api/v1/b1") []));
   (CreateToken, 401%N, bearing (bs "wrong") (demo_http POST (bs "/api/v1/b1/tokens/") []))].

Definition routed_to (req : Request) : option handler_id :=
  match dispatch (build_router default_options) (method req) (path req) with
  | ToHandler _ _ h _ => Some h
  | _ => None
  end.

Definition answered (req : Request) : option N :=
  match (handle default_options demo_app demo_request_env req demo_server).1 with
  | Ret resp => Some (status resp)
  | Panic => None
  end.

(** The omissions of the document are real: a write to a bucket that does not exist is answered 404,
    and the administration of a bucket with a wrong credential 401, neither of which the operation
    documents. *)
Theorem omissions_occur :
  Forall (λ x, routed_to x.2 = Some x.1.1 ∧ answered x.2 = Some x.1.2 ∧ (x.1.2 ∉ documented x.1.1))
    surprising.
Proof. apply (bool_decide_eq_true_1 _). vm_refl. Qed.

Lemma responses_documented_witness :
  let out := handle default_options demo_app demo_request_env
               (demo_http PUT (bs "/api/v1/nope/k") (bs "1")) demo_server in
  status (match out.1 with Ret resp => resp | Panic => internal_error end) ∈ [200; 400; 401; 403; 500; 404; 413]%N.
Proof.
  intros out.
  destruct (responses_documented (RL := toy_rejections) (RE := store_errors) default_options demo_app
    demo_request_env (demo_http PUT (bs "/api/v1/nope/k") (bs "1")) demo_server out.2 not_found
    (mkRoute (bs "/api/v1/{bucket}/{key}") key_methods false) PUT PutKey [bs "nope"; bs "k"])
    as [(g & Hl & _)|[Hs _]].
  - vm_refl.
  - reflexivity.
  - vm_refl.
  - discriminate Hl.
  - exact Hs.
Defined.
