(* ===== verification/Steps.v ===== *)
(** * What every request preserves

    A handler touches the repositories only through their traits. So any preorder on their state
    that the operations of the traits follow, every request follows too: the class [RepoSteps]
    states it of the operations, [handler_moves] and [handle_moves] carry it to the server. *)

From Stdlib Require Import Strings.Byte.
From stdpp Require Import relations.
From S2P Require Import Prelude RustStd TimeLib Domain Counter Ports Codec KeyService Auth HttpBase HttpRoutes HttpBuckets Router.
Import Http Router Server.

(** Every run of [m], whatever its outcome, goes from a state to an [R]-later one. *)
Definition moves {S A E} (R : relation S) (m : comp S A E) : Prop := ∀ s, R s (m s).2.

Class RepoSteps {T : TimeOps} {S : Type} {BR : BucketRepository S} {KR : KeyRepository S}
    (R : relation S) : Prop := {
  steps_preorder :: PreOrder R;
  mv_ping : moves R ping_metadata;
  mv_get_policy b : moves R (get_policy b);
  mv_create_bucket b p : moves R (Ports.create_bucket b p);
  mv_delete_bucket b : moves R (Ports.delete_bucket b);
  mv_get b k : moves R (repo_get b k);
  mv_set b k v e : moves R (repo_set b k v e);
  mv_delete b k : moves R (repo_delete b k);
  mv_list b opts : moves R (repo_list b opts);
  mv_increment now b k o e : moves R (repo_increment now b k o e);
  mv_apply_batch b ops : moves R (repo_apply_batch b ops);
}.

Section Rules.
Context {S : Type} (R : relation S) `{!PreOrder R}.

Lemma moves_lift {A E} (r : result A E) : moves R (comp_lift r).
Proof. intros s. simpl. reflexivity. Qed.

Lemma moves_ret {A E} (a : A) : moves R (comp_ret (E := E) a).
Proof. intros s. simpl. reflexivity. Qed.

Lemma moves_err {A E} (e : E) : moves R (comp_err (A := A) e).
Proof. intros s. simpl. reflexivity. Qed.

Lemma moves_panic {A E} : moves R (λ s, (Panic (A := result A E), s)).
Proof. intros s. simpl. reflexivity. Qed.

Lemma moves_bind {A B E} (m : comp S A E) (f : A → comp S B E) :
  moves R m → (∀ a, moves R (f a)) → moves R (comp_bind m f).
Proof.
  intros Hm Hf s. specialize (Hm s). unfold comp_bind.
  destruct (m s) as [[[a|e]|] s1]; simpl in *; [|done|done]. etrans; [exact Hm|apply Hf].
Qed.

Lemma moves_spawn {A} (m : comp S A UseCaseError) : moves R m → moves R (spawn_usecase m).
Proof. intros Hm s. specialize (Hm s). unfold spawn_usecase. by destruct (m s) as [[[a|e]|] s1]. Qed.

End Rules.

Create HintDb moves.
#[export] Hint Resolve moves_lift moves_ret moves_err moves_panic moves_spawn mv_ping mv_get_policy
  mv_create_bucket mv_delete_bucket mv_get mv_set mv_delete mv_list mv_increment mv_apply_batch
  : moves.

Ltac moves_tac :=
  cbv zeta;
  repeat match goal with
  | |- moves _ (comp_bind _ _) => apply moves_bind; [apply _| |intros ?; cbv beta zeta]
  | |- moves _ (match ?x with _ => _ end) => destruct x
  | |- moves _ _ => solve [eauto 4 with moves typeclass_instances nocore]
  end.

Section Requests.
Context {T : TimeOps} {JS : JsonOps} {JV : JsonValueOps} {W : WireOps} {C : CryptoOps} {K : TokenOps}
        {AX : AxumOps}.
Context {S : Type} {BR : BucketRepository S} {KR : KeyRepository S} (R : relation S)
        {RS : RepoSteps R}.

Lemma moves_get now b k : moves R (KeyService.get now b k).
Proof. unfold KeyService.get. moves_tac. Qed.
Lemma moves_set now b k body ct o d : moves R (KeyService.set now b k body ct o d).
Proof. unfold KeyService.set. moves_tac. Qed.
Lemma moves_increment now now' b k op o d : moves R (KeyService.increment now now' b k op o d).
Proof. unfold KeyService.increment. moves_tac. Qed.
Lemma moves_delete b k : moves R (KeyService.delete b k).
Proof. unfold KeyService.delete. moves_tac. Qed.
Lemma moves_list now b input : moves R (KeyService.list now b input).
Proof. unfold KeyService.list. moves_tac. Qed.
Lemma moves_execute b ops : moves R (KeyService.execute b ops).
Proof. unfold KeyService.execute. moves_tac. Qed.

Hint Resolve moves_get moves_set moves_increment moves_delete moves_list moves_execute : moves.

Lemma moves_with_auth app env req (f : BucketAuth → comp S Response Response) :
  (∀ a, moves R (f a)) → moves R (with_auth app env req f).
Proof. intros Hf. unfold with_auth, from_request_parts. moves_tac. Qed.

Lemma moves_with_key caps (f : bytes → comp S Response Response) :
  (∀ raw, moves R (f raw)) → moves R (with_key caps f).
Proof. intros Hf. unfold with_key. moves_tac. Qed.

Lemma readiness_moves v :
  moves R (λ s, let '(resp, s') := Health.readiness_check v s in (Ret (Ok (E := Response) resp), s')).
Proof.
  intros s. unfold Health.readiness_check. pose proof (mv_ping s) as Hp.
  by destruct (ping_metadata s) as [[[[]|e]|] s1].
Qed.

Lemma handler_moves app env req h caps : moves R (run_handler app env req h caps).
Proof.
  destruct h; cbn [run_handler]; repeat first
    [apply readiness_moves|apply moves_with_auth; intros ?|apply moves_with_key; intros ?].
  all: unfold Keys.get_key, Keys.head_key, Keys.put_key, Keys.delete_key, Keys.patch_key,
    Txn.execute_txn, TokensRoute.create_token, Buckets.create_bucket, Buckets.list_bucket,
    Buckets.update_policy, Buckets.delete_bucket, Buckets.get_bucket_policy, Buckets.head_bucket; moves_tac.
Qed.

(** A request, through all layers. *)
Lemma handle_moves opts app env req st :
  R (repo st) (repo (handle opts app env req st).2).
Proof.
  assert (∀ t, R (repo st) (endpoint app env req t (repo st)).2) as He.
  { intros [r m h caps|r|]; simpl; [|reflexivity..].
    pose proof (handler_moves app env req h caps (repo st)) as Hm.
    by destruct (run_handler app env req h caps (repo st)). }
  unfold handle. destruct (cors_preflight req); [simpl; reflexivity|].
  set (t := dispatch _ _ _). specialize (He t).
  assert (R (repo st) (repo (governed app env req t st).2)) as Hg.
  { unfold governed. destruct (match target_route t with Some _ => _ | None => _ end) as [[[resp|] g]|];
      [simpl; reflexivity|destruct (endpoint app env req t (repo st)); done..]. }
  unfold track_http_metrics. by destruct (governed app env req t st) as [[resp|] st'].
Qed.

End Requests.
