(* ===== verification/MetricCatalogue.v ===== *)
(** * [keydock-http/src/metrics.rs]: the metric catalogue

    The descriptions registered with the recorder, and the samples the program emits: by the
    request middleware ([middleware/metrics.rs]), by the adapter ([store.rs], [error.rs]) and by
    the sweeper ([gc.rs]). The theorem ties the two over the life of the process. *)

From Stdlib Require Import Strings.Byte.
From stdpp Require Import relations.
From S2P Require Import Prelude RustStd TimeLib Domain Counter Ports Codec FjallLib Locks Store StoreSpec StoreRepo StoreProps Gc KeyService KeyProps Auth HttpBase HttpRoutes HttpBuckets HttpProps Effects Router Routing ServerProps OsLib Config ConfigProps Cli InstanceInit Process Steps.
Import Router Server.

Module Catalogue.

(** ** Descriptions *)

Inductive MetricKind : Type := CounterKind | HistogramKind.
Inductive MetricUnit : Type := Count | Seconds.

#[global] Instance MetricKind_eq_dec : EqDecision MetricKind.
Proof. solve_decision. Defined.

Record Description : Type := mkDescription {
  d_kind : MetricKind;
  d_name : bytes;
  d_unit : MetricUnit;
  d_help : bytes;
}.

(** The calls of [describe_counter!] and [describe_histogram!], in order. *)
Definition describe_all : list Description :=
  [mkDescription CounterKind (bs "http_requests_total") Count
     (bs "Total HTTP requests handled, labeled by matched route, method and status code.");
   mkDescription HistogramKind (bs "http_request_duration_seconds") Seconds
     (bs "HTTP request duration in seconds, labeled by matched route and method.");
   mkDescription CounterKind (bs "storage_ops_total") Count
     (bs "Total storage operations executed against the persistence layer, labeled by op and result (ok|err).");
   mkDescription CounterKind (bs "storage_errors_total") Count
     (bs "Total storage errors surfaced to use cases, labeled by kind (backend|adapter|codec_policy|codec_entry).");
   mkDescription CounterKind (bs "gc_keys_expired_total") Count
     (bs "Total expired keys removed by the background GC sweeper.")].

(** ** Samples *)

Record Sample : Type := mkSample {
  s_kind : MetricKind;
  s_name : bytes;
  s_labels : list (bytes * bytes);
}.

Definition http_sample (m : http_metric) : Sample :=
  match m with
  | http_requests_total route method status =>
    mkSample CounterKind (bs "http_requests_total")
      [(bs "route", route); (bs "method", method); (bs "status", Int64.to_string (Z.of_N status))]
  | http_request_duration_seconds route method =>
    mkSample HistogramKind (bs "http_request_duration_seconds")
      [(bs "route", route); (bs "method", method)]
  end.

Definition store_sample (m : metric) : Sample :=
  match m with
  | storage_ops_total op result =>
    mkSample CounterKind (bs "storage_ops_total") [(bs "op", op); (bs "result", result)]
  | storage_errors_total kind => mkSample CounterKind (bs "storage_errors_total") [(bs "kind", kind)]
  | gc_keys_expired_total _ => mkSample CounterKind (bs "gc_keys_expired_total") []
  end.

(** ** What a help text promises *)

(** The values a help text enumerates for a label: [label (v1|v2|..)]. *)
Definition enumerated (help : bytes) : option (bytes * list bytes) :=
  x ← split_once "("%byte help;
  y ← split_once ")"%byte x.2;
  label ← list.last (split " "%byte (Utf8.trim x.1));
  Some (label, split "|"%byte y.1).

(** A sample of a described metric, of the described kind, with a described value for the label
    whose values the help text enumerates. *)
Definition catalogued (s : Sample) : Prop :=
  Exists (λ d, d_name d = s_name s ∧ d_kind d = s_kind s
    ∧ match enumerated (d_help d) with
      | Some (label, values) => Exists (λ lv, lv.1 = label ∧ lv.2 ∈ values) (s_labels s)
      | None => True
      end) describe_all.

#[global] Instance catalogued_dec s : Decision (catalogued s).
Proof.
  apply list.Exists_dec. intros d. repeat apply and_dec; try apply _.
  destruct (enumerated (d_help d)) as [[label values]|]; apply _.
Defined.

End Catalogue.
Import Catalogue.

(** ** The adapter *)

Section Samples.
Context {T : TimeOps} {P : PostcardOps} {J : PolicyJsonOps} {F : FjallOps} {H : HasherOps}
        {L : LayoutOps}.

(** The samples recorded between two states of the store are in the catalogue. *)
Definition extends (s s' : Store.FjallStore) : Prop :=
  ∃ new, Store.metrics s' = Store.metrics s ++ new ∧ Forall (λ m, catalogued (store_sample m)) new.

#[global] Instance extends_preorder : PreOrder extends.
Proof.
  split.
  - intros s. exists []. by rewrite app_nil_r.
  - intros s1 s2 s3 (n1 & H1 & F1) (n2 & H2 & F2). exists (n1 ++ n2). rewrite H2, H1, app_assoc.
    split; [done|]. by apply Forall_app.
Qed.

Lemma extends_db d s : extends s (Store.set_db d s).
Proof. exists []. by rewrite app_nil_r. Qed.

Lemma extends_record m s : catalogued (store_sample m) → extends s (Store.record m s).
Proof. intros Hm. exists [m]. split; [done|]. by constructor. Qed.

(** A label from a finite set: decided by evaluation. *)
Ltac in_catalogue := apply (bool_decide_eq_true_1 _); vm_refl.

Lemma catalogued_op name label :
  label ∈ [bs "ok"; bs "err"] → catalogued (store_sample (storage_ops_total name label)).
Proof.
  intros Hl. right. right. left. split; [done|]. split; [done|].
  set (e := enumerated _). assert (e = Some (bs "result", [bs "ok"; bs "err"])) as -> by vm_refl.
  right. left. done.
Qed.

Lemma catalogued_gc n : catalogued (store_sample (gc_keys_expired_total n)).
Proof. do 4 right. left. split; [done|]. split; [done|]. set (e := enumerated _). assert (e = None) as -> by vm_refl. done. Qed.

Abbreviation op A := (comp Store.FjallStore A UseCaseError).

Lemma ext_qm {A} (r : result A (FjallError fjall_error)) : moves extends (Store.qm r).
Proof.
  intros s. unfold Store.qm. destruct r as [a|e]; simpl; [reflexivity|]. apply extends_record.
  destruct e; in_catalogue.
Qed.

Lemma ext_qm_policy {A} (r : result A bytes) : moves extends (Store.qm_policy r).
Proof.
  intros s. unfold Store.qm_policy. destruct r as [a|e]; simpl; [reflexivity|]. apply extends_record.
  in_catalogue.
Qed.

Lemma ext_on_db {A} (f : Database → result A fjall_error * Database) : moves extends (Store.on_db f).
Proof.
  intros s. unfold Store.on_db. destruct (f (Store.db s)) as [r d].
  etrans; [apply (extends_db d)|apply ext_qm].
Qed.

Lemma ext_recorded {A} name (m : op A) : moves extends m → moves extends (Store.recorded name m).
Proof.
  intros Hm s. specialize (Hm s). unfold Store.recorded. destruct (m s) as [[r|] s1]; simpl in *; [|done].
  etrans; [exact Hm|]. apply extends_record, catalogued_op. destruct r; simpl; set_solver.
Qed.

Lemma ext_locks ks :
  moves extends (λ s, Store.qm (Locks.lock_stripes_for_keys (Store.write_locks s) ks) s).
Proof. intros s. apply ext_qm. Qed.

Lemma ext_scan p : moves extends (Store.scan_data p).
Proof. intros s. unfold Store.scan_data. destruct (ks_prefix _ _ _). apply extends_db. Qed.

Hint Resolve ext_qm ext_qm_policy ext_on_db ext_locks ext_scan : moves.

Lemma ext_guard k : moves extends (Store.guard k).
Proof.
  assert (∀ lk, moves (S := Store.FjallStore) extends
    (let! _ := Store.qm (Locks.lock_for lk k) in comp_ret tt)) as Hg by (intros lk; moves_tac).
  intros s. apply Hg.
Qed.

Lemma ext_write_entry k l e : moves extends (Store.write_entry k l e).
Proof. unfold Store.write_entry. moves_tac. Qed.

Lemma ext_reverse b opts w gs d : moves extends (Store.reverse_loop b opts w gs d).
Proof. revert d. induction gs as [|g gs IH]; intros d; cbn [Store.reverse_loop]; moves_tac; apply IH. Qed.

Lemma ext_forward b opts gs sk tk d : moves extends (Store.forward_loop b opts gs sk tk d).
Proof.
  revert sk tk d. induction gs as [|g gs IH]; intros sk tk d; cbn [Store.forward_loop]; moves_tac; apply IH.
Qed.

Hint Resolve ext_guard ext_write_entry ext_reverse ext_forward : moves.

Lemma ext_ping : moves extends Store.ping_metadata.
Proof.
  intros s. unfold Store.ping_metadata. destruct (Store.fail_ping_metadata s).
  - apply extends_record, catalogued_op. set_solver.
  - apply ext_recorded. moves_tac.
Qed.

#[global] Instance store_samples : RepoSteps extends.
Proof.
  split; [apply _|..]; simpl; intros; try apply ext_recorded.
  - apply ext_ping.
  - unfold Store.get_policy. moves_tac.
  - unfold Store.create_bucket. moves_tac.
  - unfold Store.delete_bucket. moves_tac.
  - moves_tac.
  - moves_tac.
  - moves_tac.
  - unfold Store.list_inner. moves_tac.
  - moves_tac.
  - moves_tac.
Qed.

(** ** The sweeper *)

Lemma gc_call {A} (f : Database → result A fjall_error * Database) s :
  Store.metrics (Gc.call f s).2 = Store.metrics s.
Proof. unfold Gc.call. by destruct (f (Store.db s)). Qed.

Lemma sweep_entry_metrics now ek ts sk s :
  Store.metrics (Gc.sweep_entry now ek ts sk s).2 = Store.metrics s.
Proof.
  unfold Gc.sweep_entry, Gc.remove_if_due. destruct (Locks.lock_for _ _); [|done].
  pose proof (gc_call (ks_remove Expiry ek) s) as H1.
  destruct (Gc.call (ks_remove Expiry ek) s) as [[[]|] s1]; [|done].
  pose proof (gc_call (ks_get Data sk) s1) as H2.
  destruct (Gc.call (ks_get Data sk) s1) as [[[v|]|] s2]; simpl in *; [|congruence..].
  pose proof (gc_call (ks_remove Data sk) s2) as H3.
  destruct (decode_entry_expires_unix v) as [[t|]|]; simpl; [|congruence..].
  destruct (now <? t); simpl; [congruence|]. destruct (negb _); simpl; [congruence|].
  destruct (Gc.call (ks_remove Data sk) s2) as [[[]|] s3]; simpl in *; congruence.
Qed.

Lemma sweep_loop_metrics now gs n s : Store.metrics (Gc.sweep_loop now gs n s).2 = Store.metrics s.
Proof.
  revert n s. induction gs as [|[[ek x]|e] gs IH]; intros n s; cbn [Gc.sweep_loop]; [done| |apply IH].
  destruct (ExpiryIndex.parse_expiry_index_key ek) as [[ts sk]|]; [|apply IH].
  destruct (now <? ts); [done|]. pose proof (sweep_entry_metrics now ek ts sk s) as He.
  destruct (Gc.sweep_entry now ek ts sk s) as [removed s1]. simpl in He. by rewrite IH.
Qed.

Lemma sweep_extends now s : extends s (Gc.sweep_keyspace now s).
Proof.
  unfold Gc.sweep_keyspace. destruct (ks_iter Expiry (Store.db s)) as [gs d].
  pose proof (sweep_loop_metrics (unix_timestamp now) gs 0 (Store.set_db d s)) as Hm.
  destruct (Gc.sweep_loop _ _ _ _) as [n s1]. simpl in Hm.
  assert (extends s s1) as Hs by (exists []; by rewrite app_nil_r).
  destruct (0 <? n)%N; [|done]. etrans; [exact Hs|]. apply extends_record, catalogued_gc.
Qed.

End Samples.

(** ** The process *)

Section Process.
Import Process.
Context {T : TimeOps} {P : PostcardOps} {J : PolicyJsonOps} {F : FjallOps} {H : HasherOps}
        {L : LayoutOps} {JS : JsonOps} {JV : JsonValueOps} {W : WireOps} {C : CryptoOps}
        {K : TokenOps} {AX : AxumOps} {PO : ProcessOps}.

Lemma catalogued_http m : catalogued (http_sample m).
Proof.
  destruct m as [route method st|route method]; [left|right; left]; (split; [done|]); (split; [done|]);
    set (e := enumerated _); by assert (e = None) as -> by vm_refl.
Qed.

(** All samples recorded so far, and the sense in which they grow. *)
Definition recorded_samples (p : Running) : list Sample :=
  (store_sample <$> Store.metrics (repo (server p))) ++ (http_sample <$> samples (server p)).

Lemma step_extends run p q : step run p q → extends (repo (server p)) (repo (server q)).
Proof.
  intros Hst. destruct Hst as [|env req srv srv' r n mt gt c1 c2 Hu Hh|now srv n mt sv c1| | | | |]; simpl;
    try reflexivity; [|apply sweep_extends].
  pose proof (handle_moves extends (options run) (app run) env req srv) as Hm. by rewrite Hh in Hm.
Qed.

(** C22: Every sample is described. In every state the process reaches from a freshly opened store,
    whatever requests it answered and sweeps it ran and whichever of their backend calls failed,
    each sample recorded by the middleware, the adapter or the sweeper belongs to a metric that
    [describe_all] registers, with the registered kind; and where the help text enumerates the
    values of a label, [result (ok|err)] and [kind (backend|adapter|codec_policy|codec_entry)],
    the sample carries one of those. Conversely no metric is described twice. *)
Theorem samples_described (run : Started) (g : limiter) (d : Database) (p : Running) :
  Store.open (Ok d) = Ok (store run) → rtc (step run) (launched run g) p →
  Forall catalogued (recorded_samples p) ∧ NoDup (d_name <$> describe_all).
Proof.
  intros Ho Hr. split; [|apply (bool_decide_eq_true_1 _); vm_refl].
  assert (extends (store run) (repo (server p))) as (new & Hm & Hnew).
  { remember (launched run g) as p0 eqn:Hp0.
    assert (repo (server p0) = store run) as <- by by subst. clear Hp0.
    induction Hr as [p|p p1 p2 H1 _ IH]; [reflexivity|]. etrans; [by eapply step_extends|exact IH]. }
  injection Ho as Ho. rewrite <- Ho in Hm. unfold recorded_samples. rewrite Hm. simpl. apply Forall_app. split.
  - by apply Forall_fmap.
  - apply Forall_fmap, list.Forall_forall. intros m _. apply catalogued_http.
Qed.

End Process.

(** ** Witness *)

#[local] Instance sample_axum : AxumOps := toy_axum toy_wire.

#[local] Instance idle_process : ProcessOps := {
  os := unit;
  os_error := unit;
  build_runtime o := (Ok tt, o);
  try_init_tracing _ o := (Ok tt, o);
  install_recorder o := (Ok tt, o);
  open_database _ o := (Ok empty_db, o);
  bind _ o := (Ok tt, o);
  CARGO_PKG_VERSION := bs "0.1.0";
}.

Definition fresh_run : Process.Started :=
  Process.mkStarted (Store.mkStore empty_db Locks.new false []) (mkState (bs "0.1.0") demo_rk)
    default_options Config.default_listen None 60.

(** A readiness probe. *)
Definition fresh_out := handle default_options (mkState (bs "0.1.0") demo_rk) demo_request_env
  (demo_http GET (bs "/ready") []) (mkServer (Process.store fresh_run) (5%nat : @limiter _ sample_axum) []).

Definition probed : Process.Running :=
  Process.mkRunning fresh_out.2 0 true false true false false false.

Lemma samples_described_witness :
  Forall catalogued (recorded_samples probed) ∧ length (recorded_samples probed) = 3%nat.
Proof.
  split; [|vm_refl].
  apply (samples_described fresh_run (5%nat : @limiter _ sample_axum) empty_db probed).
  - reflexivity.
  - eapply rtc_l; [apply Process.Accept|]. apply rtc_once.
    eapply (Process.Answer fresh_run demo_request_env (demo_http GET (bs "/ready") [])).
    + apply demo_uuid_ok.
    + apply surjective_pairing.
Defined.
