(* ===== verification/TestKit.v ===== *)
(** * [keydock-testkit]: fixtures of the integration tests

    The crate the integration tests drive the server with: the assembly of an application over a
    temporary store ([lib.rs]), request builders with their presets ([buckets.rs], [tokens.rs]),
    and the fault injections (a failing probe, a corrupted entry, an expired token).

    What a builder sends is a [Router.Request], answered by the server model; [serde_urlencoded],
    [serde_json] and [base64] on the client side are [KitOps], the temporary directory, the
    recorder and the database [KitOs]. The forwarded-address header the kit adds for the rate
    limiter is not part of the request model, whose limiter sees the request itself. *)

From Stdlib Require Import Strings.Byte.
From S2P Require Import Prelude RustStd TimeLib Domain Counter Ports Codec FjallLib Locks Store StoreRepo KeyService Auth HttpBase HttpRoutes HttpBuckets Router.
Import Http Router Server.

(** The encoders of the client. *)
Class KitOps {JV : JsonValueOps} : Type := {
  (** [serde_urlencoded::to_string] on the serialized fields *)
  form_to_string : list (bytes * bytes) → bytes;
  (** [serde_json::Value::Null], and [serde_json::to_vec] on the serialized fields *)
  json_null : json_value;
  fields_to_vec : list (bytes * json_value) → bytes;
  (** [base64::STANDARD.encode] *)
  b64std_encode : bytes → bytes;
}.

(** What the assembly of an application calls. *)
Class KitOs {F : FjallOps} {JV : JsonValueOps} {AX : AxumOps} : Type := {
  world : Type;
  io_err : Type;
  build_error : Type;
  PrometheusHandle : Type;
  tempdir : world → result bytes io_err * world;
  install_prometheus : world → result PrometheusHandle build_error * world;
  open_db : bytes → world → result Database fjall_error * world;
  (** the process-wide limiter, given an hourly budget *)
  new_limiter : option N → limiter;
}.

Module TestKit.

(** ** [buckets.rs] *)

Record BucketSetup : Type := mkSetup {
  email : bytes;
  secret_key : option bytes;
  read_key : option bytes;
  write_key : option bytes;
  signing_key : option bytes;
  default_ttl : option N;
}.

Definition default_setup : BucketSetup := mkSetup (bs "o@example.com") None None None None None.

Definition public : BucketSetup := default_setup.

Definition admin (secret : bytes) : BucketSetup :=
  mkSetup (email default_setup) (Some secret) None None None None.

Definition read_only (read : bytes) : BucketSetup :=
  mkSetup (email default_setup) None (Some read) None None None.

Definition write_only (write : bytes) : BucketSetup :=
  mkSetup (email default_setup) None None (Some write) None None.

Definition restricted (read write : bytes) : BucketSetup :=
  mkSetup (email default_setup) None (Some read) (Some write) None None.

Definition signed (secret signing : bytes) : BucketSetup :=
  mkSetup (email default_setup) (Some secret) None None (Some signing) None.

Definition signing_only (signing : bytes) : BucketSetup :=
  mkSetup (email default_setup) None None None (Some signing) None.

(** A field that is skipped when it is [None]. *)
Definition field {A} (name : bytes) (o : option A) (show : A → bytes) : list (bytes * bytes) :=
  match o with Some x => [(name, show x)] | None => [] end.

Definition setup_fields (s : BucketSetup) : list (bytes * bytes) :=
  (bs "email", email s)
  :: field (bs "secret_key") (secret_key s) id ++ field (bs "read_key") (read_key s) id
  ++ field (bs "write_key") (write_key s) id ++ field (bs "signing_key") (signing_key s) id
  ++ field (bs "default_ttl") (default_ttl s) (λ n, Int64.to_string (Z.of_N n)).

Definition FORM : bytes := bs "application/x-www-form-urlencoded".

(** ** [tokens.rs] *)

Record TokenSetup : Type := mkTokenSetup { t_prefix : bytes; t_permissions : bytes; t_ttl : Z }.

Definition token_read (prefix : bytes) (ttl : Z) : TokenSetup := mkTokenSetup prefix (bs "read") ttl.

Definition token_fields (t : TokenSetup) : list (bytes * bytes) :=
  [(bs "prefix", t_prefix t); (bs "permissions", t_permissions t); (bs "ttl", Int64.to_string (t_ttl t))].

Section Kit.
Context {T : TimeOps} {P : PostcardOps} {J : PolicyJsonOps} {F : FjallOps} {H : HasherOps}
        {L : LayoutOps} {JS : JsonOps} {JV : JsonValueOps} {W : WireOps} {C : CryptoOps}
        {K : TokenOps} {AX : AxumOps} {KO : KitOps} {OS : KitOs}.

Record PolicyPatch : Type := mkPolicyPatch {
  pp_secret_key : option json_value;
  pp_read_key : option json_value;
  pp_write_key : option json_value;
  pp_signing_key : option json_value;
  pp_default_ttl : option json_value;
}.

Definition rotate_signing_key (key : bytes) : PolicyPatch :=
  mkPolicyPatch None None None (Some (json_string key)) None.

Definition clear_signing_key : PolicyPatch := mkPolicyPatch None None None (Some json_null) None.

Definition clear_read_key : PolicyPatch := mkPolicyPatch None (Some json_null) None None None.

Definition clear_write_key : PolicyPatch := mkPolicyPatch None None (Some json_null) None None.

Definition patch_fields (p : PolicyPatch) : list (bytes * json_value) :=
  let field name (o : option json_value) := match o with Some v => [(bs name, v)] | None => [] end in
  field "secret_key" (pp_secret_key p) ++ field "read_key" (pp_read_key p)
  ++ field "write_key" (pp_write_key p) ++ field "signing_key" (pp_signing_key p)
  ++ field "default_ttl" (pp_default_ttl p).

(** ** Requests *)

Definition create_bucket_request (setup : BucketSetup) : Request :=
  mkRequest POST (bs "/api/v1") None (mkHeaders None None (Some FORM)) (form_to_string (setup_fields setup)).

Definition create_token_request (bucket_id bearer : bytes) (setup : TokenSetup) : Request :=
  mkRequest POST (bs "/api/v1/" ++ bucket_id ++ bs "/tokens/") None
    (mkHeaders (Some (bs "Bearer " ++ bearer)) None (Some FORM)) (form_to_string (token_fields setup)).

Definition patch_policy_request (bucket_id bearer : bytes) (patch : PolicyPatch) : Request :=
  mkRequest PATCH (bs "/api/v1/" ++ bucket_id) None
    (mkHeaders (Some (bs "Bearer " ++ bearer)) None (Some (bs "application/json")))
    (fields_to_vec (patch_fields patch)).

(** ** [lib.rs] *)

Definition basic_auth_header (credential : bytes) : bytes :=
  let pair := credential ++ bs ":ignored" in
  let encoded := b64std_encode pair in
  bs "Basic " ++ encoded.

Definition api_error_body_json (code : N) (message : bytes) : Body := ErrorBody code message.

(** The recorder is a process-wide singleton. *)
Record Host : Type := mkHost { PROMETHEUS : option PrometheusHandle; host : world }.

Inductive TestKitError : Type :=
| Io (e : io_err)
| Fjall (e : FjallError fjall_error)
| Metrics (e : build_error).

Definition prometheus_handle (h : Host) : result PrometheusHandle TestKitError * Host :=
  match PROMETHEUS h with
  | Some handle => (Ok handle, h)
  | None =>
    let '(r, w) := install_prometheus (host h) in
    match r with
    | Err e => (Err (Metrics e), mkHost (PROMETHEUS h) w)
    | Ok handle => (Ok handle, mkHost (Some handle) w)
    end
  end.

(** The store is shared by the context and the server. *)
Record TestContext : Type := mkContext {
  dir : bytes;
  options : RouterOptions;
  server : State (S := Store.FjallStore);
}.

Definition kit_state : AppState :=
  mkState (bs "0.1.0-alpha") (mkSigningKey (bs "test-root-key-32-bytes-minimum!!")).

Definition build_test_app (opts : RouterOptions) (g : limiter) (h : Host)
  : result TestContext TestKitError * Host :=
  let '(r, w) := tempdir (host h) in
  let h := mkHost (PROMETHEUS h) w in
  match r with
  | Err e => (Err (Io e), h)
  | Ok dir =>
    let '(d, w) := open_db dir (host h) in
    let h := mkHost (PROMETHEUS h) w in
    match Store.open d with
    | Err e => (Err (Fjall e), h)
    | Ok store =>
      let '(p, h) := prometheus_handle h in
      match p with
      | Err e => (Err e, h)
      | Ok _ => (Ok (mkContext dir opts (mkServer store g [])), h)
      end
    end
  end.

(** A failed assembly panics. *)
Definition new (h : Host) : exec TestContext * Host :=
  let '(r, h) := build_test_app default_options (new_limiter None) h in
  (match r with Ok c => Ret c | Err _ => Panic end, h).

Definition with_router_options (opts : RouterOptions) (h : Host) : exec TestContext * Host :=
  let g := new_limiter (if enabled (rate_limit opts) then init_rate_limiter (rate_limit opts) else None) in
  let '(r, h) := build_test_app opts g h in
  (match r with Ok c => Ret c | Err _ => Panic end, h).

Definition with_server (s : State) (c : TestContext) : TestContext := mkContext (dir c) (options c) s.

(** The test server answers one request. *)
Definition send (env : Env) (req : Request) (c : TestContext) : exec Response * TestContext :=
  let '(r, s) := handle (options c) kit_state env req (server c) in (r, with_server s c).

(** [response.text()]. *)
Definition text (r : Response) : bytes := match body r with Raw _ l => l | _ => [] end.

(** [assert_status_ok] panics on any other status than 200. *)
Definition create_bucket (env : Env) (setup : BucketSetup) (c : TestContext) : exec bytes * TestContext :=
  let '(r, c) := send env (create_bucket_request setup) c in
  (match r with
   | Ret resp => if (status resp =? 200)%N then Ret (text resp) else Panic
   | Panic => Panic
   end, c).

Definition create_token (env : Env) (bucket_id bearer : bytes) (setup : TokenSetup)
    : TestContext → exec Response * TestContext := send env (create_token_request bucket_id bearer setup).

Definition patch_policy (env : Env) (bucket_id bearer : bytes) (patch : PolicyPatch)
    : TestContext → exec Response * TestContext := send env (patch_policy_request bucket_id bearer patch).

Definition render_metrics (env : Env) (c : TestContext) : exec bytes * TestContext :=
  let '(r, c) := send env (mkRequest GET (bs "/metrics") None (mkHeaders None None None) []) c in
  (match r with Ret resp => Ret (text resp) | Panic => Panic end, c).

Definition on_store (s : Store.FjallStore) (c : TestContext) : TestContext :=
  with_server (mkServer s (limits (server c)) (samples (server c))) c.

Definition testkit_set_fail_ping_metadata (fail : bool) (c : TestContext) : TestContext :=
  on_store (Store.testkit_set_fail_ping_metadata fail (repo (server c))) c.

Definition CORRUPTED : bytes := ["255"; "255"; "255"; "255"]%byte.

Definition corrupt_entry (b : BucketId) (k : Key) (c : TestContext) : exec unit * TestContext :=
  let '(r, s) := Store.testkit_write_raw b k CORRUPTED (repo (server c)) in
  (match r with Ok _ => Ret tt | Err _ => Panic end, on_store s c).

(** [now - Duration::seconds(..)] panics outside the supported range. *)
Definition mint_expired_read_token (now : OffsetDateTime) (bucket_id signing_secret : bytes) : exec bytes :=
  match Bucket.new bucket_id, checked_add_seconds now (- 3600), checked_add_seconds now (- 1) with
  | Ok bucket, Some iat, Some exp =>
    let claims := mkClaims T 1 bucket 0 [] Permission.READ_ONLY iat exp in
    match Tokens.mint claims (mkSigningKey signing_secret) with Ok t => Ret t | Err _ => Panic end
  | _, _, _ => Panic
  end.

End Kit.

End TestKit.
