(* ===== verification/TestKitProps.v ===== *)
(** * Properties of the test kit

    That the kit's builders mean to the server what their names promise: the presets create the
    buckets they describe, the headers carry the credentials they encode, rotation revokes, and
    each injected fault shows where a test looks for it. *)

From Stdlib Require Import Strings.Byte.
From S2P Require Import Prelude RustStd TimeLib Domain Counter Ports Codec FjallLib Locks Store StoreSpec StoreList StoreRepo StoreProps KeyService KeyProps Auth HttpBase Serde HttpRoutes HttpBuckets Bodies HttpProps HttpListing Effects Router Routing ServerProps Statuses ApiDoc TestKit.
Import Http Router Server.

(** The size up to which the framework reads a body ([axum::extract::DefaultBodyLimit]). *)
Definition DEFAULT_BODY_LIMIT : N := 2097152.

(** What client and server agree on: each side's encoder is read back by the other's decoder. *)
Class KitLaws {JV : JsonValueOps} {W : WireOps} {AX : AxumOps} (KO : KitOps) : Prop := {
  b64std_roundtrip l : b64std_decode (b64std_encode l) = Some l;
  (** The base64 alphabet is visible ASCII without blanks. *)
  b64std_trim l : Utf8.trim (b64std_encode l) = b64std_encode l;
  basic_to_str l : header_to_str (bs "Basic " ++ b64std_encode l) = Some (bs "Basic " ++ b64std_encode l);
  create_form_read hs s :
    h_content_type hs = Some TestKit.FORM →
    Forall (λ f, Utf8.from_utf8 f.2 = true) (TestKit.setup_fields s) →
    (len (form_to_string (TestKit.setup_fields s)) <= DEFAULT_BODY_LIMIT)%N →
    (∀ t, TestKit.default_ttl s = Some t → (t <= Usize.usize_max)%N) →
    extract_create_form hs (form_to_string (TestKit.setup_fields s))
    = Ok (Buckets.mkCreateForm (TestKit.email s) (TestKit.secret_key s) (TestKit.read_key s)
            (TestKit.write_key s) (TestKit.signing_key s) (TestKit.default_ttl s));
  (** A field of a JSON object that is a string, or [null]. *)
  signing_patch_read key :
    Utf8.from_utf8 key = true →
    parse_patch (fields_to_vec (TestKit.patch_fields (TestKit.rotate_signing_key key)))
    = Some (Buckets.mkPatch None None None (Some (Some key)) None);
  fields_nonempty l : fields_to_vec l ≠ [];
  (** A body that is read is the body that was sent. *)
  bytes_exact l l' : extract_bytes l = Ok l' → l' = l;
}.

(** ** The answers of the kit's server *)

Section Kit.
Context {T : TimeOps} {P : PostcardOps} {J : PolicyJsonOps} {F : FjallOps} {H : HasherOps}
        {L : LayoutOps} {JS : JsonOps} {JV : JsonValueOps} {W : WireOps} {C : CryptoOps}
        {K : TokenOps} {AX : AxumOps} {KO : KitOps} {OS : KitOs}.
Context {TL : TimeLaws T} {PL : PostcardLaws P} {JL : PolicyJsonLaws J} {FL : FjallLaws F}
        {LL : LayoutLaws L} {CL : CryptoLaws C} {KL : TokenLaws K} {AL : AxumLaws AX}
        {RL : RejectionLaws AX} {QL : KitLaws KO}.

(** A request to a server without a rate limit is answered by its handler. *)
Lemma send_handler env req c r m h caps :
  TestKit.options c = default_options → cors_preflight req = None →
  dispatch (build_router default_options) (method req) (path req) = ToHandler r m h caps →
  limited r = false →
  ∃ c', TestKit.send env req c
    = (match into_response (run_handler TestKit.kit_state env req h caps (repo (TestKit.server c))).1 with
       | Ret resp => Ret (finish_head (method req) resp)
       | Panic => Panic
       end, c')
    ∧ repo (TestKit.server c') = (run_handler TestKit.kit_state env req h caps (repo (TestKit.server c))).2
    ∧ TestKit.options c' = default_options.
Proof.
  intros Ho Hc Hd Hl. unfold TestKit.send, handle. rewrite Ho, Hc, Hd.
  unfold track_http_metrics, governed, endpoint. cbn [target_route]. rewrite Hl.
  destruct (run_handler _ _ _ _ _ _) as [r0 s1]. simpl.
  destruct (into_response r0) as [resp|]; simpl; eexists; (split; [done|]); by rewrite <- Ho.
Qed.

Lemma routed_by opts r req m h caps :
  r ∈ server_table opts → matches (pattern r) (path req) = Some caps →
  select (methods r) (method req) = Some (m, h) →
  dispatch (build_router opts) (method req) (path req) = ToHandler r m h caps.
Proof.
  intros Hr Hm Hs. rewrite build_router_table.
  rewrite (dispatch_found _ r _ _ caps (server_table_disjoint opts) Hr Hm). unfold serve_route. by rewrite Hs.
Qed.

(** Requests that are not preflights. *)
Lemma not_preflight req : method req ≠ OPTIONS → cors_preflight req = None.
Proof.
  intros Hm. destruct (cors_preflight req) as [resp|] eqn:E; [|done]. by apply cors_options in E.
Qed.

(** Basic credentials reach the server. The header the kit builds for a credential is read back
    as exactly that credential, whatever the query string says, provided the credential is text
    and has no colon (which would end the user name). *)
Theorem basic_auth_extracted (credential : bytes) (accept content_type query : option bytes) :
  credential ≠ [] → ":"%byte ∉ credential →
  Utf8.from_utf8 (credential ++ bs ":ignored") = true →
  extract (mkHeaders (Some (TestKit.basic_auth_header credential)) accept content_type) query
  = Some (Basic credential).
Proof.
  intros Hne Hc Hu. unfold extract, TestKit.basic_auth_header. cbn [h_authorization].
  cbn zeta. cbn [mbind option_bind]. rewrite basic_to_str. cbn [mbind option_bind].
  unfold extract_from_header.
  assert (strip_prefix (bs "Bearer ") (bs "Basic " ++ b64std_encode (credential ++ bs ":ignored")) = None)
    as -> by done.
  rewrite strip_prefix_app. simpl. rewrite b64std_trim, b64std_roundtrip. simpl. rewrite Hu.
  unfold basic_username_credential.
  rewrite (proj2 (split_once_Some ":"%byte (credential ++ bs ":ignored") credential (bs "ignored"))) by done.
  by rewrite bool_decide_eq_false_2.
Qed.

(** ** Creating buckets *)

(** A key that a form gives. *)
Definition given (o : option bytes) : bool := is_some (Buckets.none_if_empty o).

(** The roles of the keys of a policy, before the tokens. *)
Lemma static_roles rk p b now cred :
  (Auth.is_hash rk cred (secret_key_hash p) → Auth.resolve (Some cred) p b rk now = Ok Auth.Admin)
  ∧ (¬ Auth.is_hash rk cred (secret_key_hash p) → Auth.is_hash rk cred (write_key_hash p) →
       Auth.resolve (Some cred) p b rk now = Ok (Auth.Scoped Permission.WRITE_ONLY []))
  ∧ (¬ Auth.is_hash rk cred (secret_key_hash p) → ¬ Auth.is_hash rk cred (write_key_hash p) →
       Auth.is_hash rk cred (read_key_hash p) →
       Auth.resolve (Some cred) p b rk now = Ok (Auth.Scoped Permission.READ_ENUMERATE [])).
Proof.
  rewrite <- !Auth.verify_credential_iff. unfold Auth.resolve.
  destruct (match secret_key_hash p with Some h => _ | None => false end); [naive_solver|].
  destruct (match write_key_hash p with Some h => _ | None => false end); [naive_solver|].
  destruct (match read_key_hash p with Some h => _ | None => false end); naive_solver.
Qed.

Lemma new_policy_access rk form p :
  Buckets.new_policy rk form = Ok p →
  anonymous_access p = Permission.anonymous_from_keys (given (Buckets.f_secret_key form))
                         (given (Buckets.f_read_key form)) (given (Buckets.f_write_key form)).
Proof.
  unfold Buckets.new_policy. intros Hp. apply result_bind_ok in Hp as (h1 & _ & Hp).
  apply result_bind_ok in Hp as (h2 & _ & Hp). by apply result_bind_ok in Hp as (h3 & _ & [= <-]).
Qed.

(** The creation handler on a healthy store. *)
Lemma create_bucket_total rk id form s :
  id ≠ [] → healthy (Store.db s) → Buckets.is_minimally_valid_email (Buckets.f_email form) = true →
  (∀ t, Buckets.f_default_ttl form = Some t → (t <= Usize.usize_max)%N) →
  ∃ p s', Buckets.new_policy rk form = Ok p
    ∧ Buckets.create_bucket rk id form s = (Ret (Ok (mkResponse 200 (Raw Buckets.text_plain id))), s')
    ∧ ∀ b, policy_view s' b = if decide (b = mkBucketId id) then Some p else policy_view s b.
Proof.
  intros Hid Hh He Hu. destruct (new_policy_ok rk form) as (p & Hp & _ & Hg & Ht & _). exists p.
  assert (PolicyCodec.policy_wf p) as Hwf.
  { split; [by rewrite Hg|]. rewrite Ht.
    destruct (Buckets.f_default_ttl form) as [t|] eqn:Ef; simpl; [by apply Hu|done]. }
  unfold Buckets.create_bucket. rewrite He. simpl. rewrite Hp. unfold comp_bind at 1. simpl.
  unfold Bucket.new. rewrite bool_decide_eq_false_2 by done.
  pose proof (spec_create_bucket s (mkBucketId id) p Hwf) as Hs. unfold wp in Hs.
  destruct (Store.create_bucket (mkBucketId id) p s) as [r s'] eqn:Er. simpl in Hs. exists s'.
  split; [done|]. destruct Hs as [_ Hs]. destruct r as [[[]|e]|]; [| |done].
  - split; [unfold comp_bind, spawn_usecase; simpl; by rewrite Er|].
    destruct Hs as (ws & (l & Hl & ->) & Ha). intros b. unfold policy_view.
    rewrite (policy_map_ext _ _ b Ha). by apply (policy_insert _ (mkBucketId id) p l).
  - destruct Hs as [[[] _]|(_ & Hn & _)]. done.
Qed.

(** Setups create what they say. On a healthy store the kit's creation of a bucket, for any
    setup whose form is within the body limit, returns the fresh id, the bucket has the anonymous permissions implied by which of its
    three static keys were given, carries the signing key, and its keys resolve to their roles: the secret key to admin, the write key to write-only and the read
    key to read-and-enumerate, unless it is also the hash of a stronger key. No other bucket
    changes. *)
Theorem setups_create (env : Env) (setup : TestKit.BucketSetup) (c : TestKit.TestContext) :
  TestKit.options c = default_options → uuid_ok env →
  healthy (Store.db (repo (TestKit.server c))) →
  Buckets.is_minimally_valid_email (TestKit.email setup) = true →
  (∀ t, TestKit.default_ttl setup = Some t → (t <= Usize.usize_max)%N) →
  Forall (λ f, Utf8.from_utf8 f.2 = true) (TestKit.setup_fields setup) →
  (len (form_to_string (TestKit.setup_fields setup)) <= DEFAULT_BODY_LIMIT)%N →
  let b := mkBucketId (uuid env) in
  let rk := root_key TestKit.kit_state in
  ∃ c' p, TestKit.create_bucket env setup c = (Ret (uuid env), c')
    ∧ policy_view (repo (TestKit.server c')) b = Some p
    ∧ (∀ b', b' ≠ b → policy_view (repo (TestKit.server c')) b' = policy_view (repo (TestKit.server c)) b')
    ∧ anonymous_access p = Permission.anonymous_from_keys (given (TestKit.secret_key setup))
                             (given (TestKit.read_key setup)) (given (TestKit.write_key setup))
    ∧ signing_key p = mkSigningKey <$> Buckets.none_if_empty (TestKit.signing_key setup)
    ∧ ∀ key now, key ≠ [] →
        (TestKit.secret_key setup = Some key → Auth.resolve (Some key) p b rk now = Ok Auth.Admin)
        ∧ (TestKit.write_key setup = Some key → ¬ Auth.is_hash rk key (secret_key_hash p) →
             Auth.resolve (Some key) p b rk now = Ok (Auth.Scoped Permission.WRITE_ONLY []))
        ∧ (TestKit.read_key setup = Some key → ¬ Auth.is_hash rk key (secret_key_hash p) →
             ¬ Auth.is_hash rk key (write_key_hash p) →
             Auth.resolve (Some key) p b rk now = Ok (Auth.Scoped Permission.READ_ENUMERATE [])).
Proof.
  intros Ho [Hid _] Hh He Hu Htext Hsize. simpl.
  set (form := Buckets.mkCreateForm (TestKit.email setup) (TestKit.secret_key setup) (TestKit.read_key setup)
    (TestKit.write_key setup) (TestKit.signing_key setup) (TestKit.default_ttl setup)).
  destruct (create_bucket_total (root_key TestKit.kit_state) (uuid env) form (repo (TestKit.server c)) Hid Hh He Hu)
    as (p & s' & Hp & Hrun & Hview).
  destruct (send_handler env (TestKit.create_bucket_request setup) c
    (mkRoute (bs "/api/v1") [(POST, CreateBucket)] false) POST CreateBucket [] Ho) as (c' & Hs & Hr & _).
  - by apply not_preflight.
  - apply routed_by; [set_solver|vm_refl|done].
  - done.
  - assert (run_handler TestKit.kit_state env (TestKit.create_bucket_request setup) CreateBucket []
      (repo (TestKit.server c)) = (Ret (Ok (mkResponse 200 (Raw Buckets.text_plain (uuid env)))), s')) as Hx.
    { cbn [run_handler]. unfold comp_bind at 1. simpl. by rewrite create_form_read. }
    rewrite Hx in Hs, Hr. simpl in Hs, Hr. exists c', p. unfold TestKit.create_bucket. rewrite Hs, Hr. simpl.
    split; [done|]. split; [rewrite Hview; by rewrite decide_True|].
    split; [intros b' Hb'; rewrite Hview; by rewrite decide_False|].
    destruct (new_policy_ok (root_key TestKit.kit_state) form) as (q & Hq & _ & _ & _ & Hsig & Hsec & Hrd & Hwr).
    rewrite Hp in Hq. injection Hq as <-. split; [|split; [exact Hsig|]].
    + exact (new_policy_access _ _ _ Hp).
    + intros key now Hk. assert (∀ o, o = Some key → Buckets.none_if_empty o = Some key) as Hn.
      { intros o ->. simpl. by rewrite bool_decide_eq_false_2. }
      destruct (static_roles (root_key TestKit.kit_state) p (mkBucketId (uuid env)) now key) as (S1 & S2 & S3).
      split_and!; intros Hset; [apply S1|intros ?; apply S2|intros ? ?; apply S3]; auto.
Qed.

(** ** Tokens *)

Lemma seconds_before now t s : checked_add_seconds now (- s) = Some t → 0 <= s → odt_leb t now = true.
Proof.
  intros Ht Hs. apply checked_add_nanos in Ht. unfold odt_leb. apply Z.leb_le. rewrite Ht.
  unfold NANOS. lia.
Qed.

(** The kit's expired tokens are refused for being expired. A token it mints at some instant for
    a bucket verifies, from that instant on and under any policy with that signing key, to exactly
    [Expired]; so the credential resolves to nobody unless it happens to be a static key. *)
Theorem expired_token_refused (now now' : OffsetDateTime) (id secret t : bytes) (policy : BucketPolicy)
    (rk : SigningKey) :
  TestKit.mint_expired_read_token now id secret = Ret t → odt_leb now now' = true →
  signing_key policy = Some (mkSigningKey secret) →
  Tokens.verify t policy (mkBucketId id) now' = Err Expired
  ∧ (¬ Auth.is_hash rk t (secret_key_hash policy) → ¬ Auth.is_hash rk t (write_key_hash policy) →
     ¬ Auth.is_hash rk t (read_key_hash policy) →
     Auth.resolve (Some t) policy (mkBucketId id) rk now' = Err InvalidCredential).
Proof.
  intros Hm Hle Hk. unfold TestKit.mint_expired_read_token, Bucket.new in Hm.
  case_bool_decide; [done|]. destruct (checked_add_seconds now (-3600)) as [iat|]; [|done].
  destruct (checked_add_seconds now (-1)) as [e|] eqn:Ee; [|done].
  destruct (Tokens.mint _ _) as [t'|] eqn:Em; [|done]. injection Hm as ->.
  assert (Tokens.verify t policy (mkBucketId id) now' = Err Expired) as Hv.
  { rewrite (Tokens.verify_minted _ _ _ _ _ _ _ Em Hk).
    apply Tokens.mint_parts in Em as (json & mac & -> & -> & _). rewrite bool_decide_eq_true_2 by done.
    unfold Tokens.claims_check. simpl. apply (seconds_before now e 1) in Ee; [|done].
    unfold odt_leb in *. by rewrite (proj2 (Z.leb_le _ _)) by lia. }
  split; [done|]. rewrite <- !Auth.verify_credential_iff. unfold Auth.resolve. rewrite Hv.
  by intros ->%not_true_iff_false ->%not_true_iff_false ->%not_true_iff_false.
Qed.

(** The patch handler, when it answers 204. *)
Lemma update_policy_ok rk a body parsed s resp s' :
  sane s → Buckets.update_policy rk a body parsed s = (Ret (Ok resp), s') → body ≠ [] →
  (∀ q t, parsed = Some q → Buckets.p_default_ttl q = Some (Some t) → (t <= Usize.usize_max)%N) →
  ∃ patch p p' audit, parsed = Some patch ∧ policy_view s (bucket_id a) = Some p
    ∧ Buckets.apply_policy_patch p patch rk = Ok (p', audit)
    ∧ policy_view s' (bucket_id a)
      = Some (Buckets.with_anonymous_access p' (Buckets.recompute_anonymous_access p')).
Proof.
  intros Hs Hr Hb Hu. unfold Buckets.update_policy in Hr.
  apply comp_bind_inv_ok in Hr as (u & s0 & Hx & Hr). injection Hx as _ <-.
  apply comp_bind_inv_ok in Hr as (patch & s0 & Hx & Hr). injection Hx as Hpatch <-.
  rewrite bool_decide_eq_false_2 in Hpatch by done.
  destruct parsed as [patch'|]; [|done]. injection Hpatch as ->.
  apply comp_bind_inv_ok in Hr as (found & s1 & Hx & Hr). apply spawn_usecase_ok in Hx.
  destruct (wp_elim _ _ _ _ _ (spec_get_policy s (bucket_id a)) Hx) as [_ (ws & [-> ->] & Ha)].
  apply comp_bind_inv_ok in Hr as (p & s2 & Hx2 & Hr). injection Hx2 as Hp <-.
  destruct (policy_view s (bucket_id a)) as [p0|] eqn:Ep; [|done]. injection Hp as ->.
  apply comp_bind_inv_ok in Hr as ([p' audit] & s2 & Hx2 & Hr). injection Hx2 as Hpp <-.
  apply comp_bind_inv_ok in Hr as ([] & s2 & Hx2 & Hr). apply spawn_usecase_ok in Hx2. injection Hr as _ <-.
  exists patch, p, p', audit. split_and!; [done|done|done|].
  assert (stored_ok (bucket_id a) (Buckets.with_anonymous_access p' (Buckets.recompute_anonymous_access p')))
    as (_ & Hwf & _).
  { eapply patched_stored; [by apply Hs|done|]. intros t. by apply Hu. }
  destruct (wp_elim _ _ _ _ _ (spec_create_bucket s1 (bucket_id a) _ Hwf) Hx2) as [_ (ws & (l & Hl & ->) & Ha2)].
  unfold policy_view. rewrite (policy_map_ext _ _ _ Ha2), (policy_insert _ _ _ l) by done.
  by rewrite decide_True.
Qed.

Lemma bucket_path_matches id :
  id ≠ [] → "/"%byte ∉ id → matches (bs "/api/v1/{bucket}") (bs "/api/v1/" ++ id) = Some [id].
Proof.
  intros Hne Hs. unfold matches.
  assert (split "/"%byte (bs "/api/v1/" ++ id) = [[]; bs "api"; bs "v1"; id]) as ->
    by (simpl; by rewrite (split_none _ id Hs)).
  assert (split "/"%byte (bs "/api/v1/{bucket}") = [[]; bs "api"; bs "v1"; bs "{bucket}"]) as -> by vm_refl.
  simpl. by rewrite bool_decide_eq_false_2.
Qed.

Lemma bucket_path_id id :
  id ≠ [] → "/"%byte ∉ id →
  bucket_id_from_path (default (bs "/api/v1/" ++ id) (strip_prefix API_PREFIX (bs "/api/v1/" ++ id)))
  = Ok (mkBucketId id).
Proof.
  intros Hne Hs. assert (strip_prefix API_PREFIX (bs "/api/v1/" ++ id) = Some ("/"%byte :: id)) as ->
    by by apply strip_prefix_Some.
  simpl. apply (bucket_of_segment id []); [by rewrite split_none|done].
Qed.

(** A handler behind the extractor, when it answers. *)
Lemma with_auth_ok env req s (f : BucketAuth → comp Store.FjallStore Response Response) resp s' :
  sane s → with_auth TestKit.kit_state env req f s = (Ret (Ok resp), s') →
  ∃ a s1, bucket_id_from_path (uri_path (parts_of req)) = Ok (bucket_id a) ∧ sane s1
    ∧ (∀ b, policy_view s1 b = policy_view s b) ∧ f a s1 = (Ret (Ok resp), s').
Proof.
  intros Hs Hr. apply comp_bind_inv_ok in Hr as (a & s1 & Ha & Hr).
  pose proof (wp_elim _ _ _ _ _
    (safe_from_request_parts TestKit.kit_state env req (policy_view s) s Hs (λ _, eq_refl)) Ha)
    as (Hs1 & (Hp & _) & _ & Hq).
  destruct (Hq a eq_refl) as (p & (Hb & _) & _). exists a, s1. split_and!; [done|done| |done].
  intros b. by destruct (Hp b) as [|[]].
Qed.

(** The patch handler and its extractors do not report an error as a success. *)
Lemma patch_errors env id bearer patch :
  id ≠ [] → "/"%byte ∉ id →
  outcomes (S := Store.FjallStore)
    (run_handler TestKit.kit_state env (TestKit.patch_policy_request id bearer patch) UpdatePolicy [id])
    any (λ e, e ≠ mkResponse 204 NoBody).
Proof.
  intros Hne Hs. cbn [run_handler]. eapply outcomes_bind with (Q := any).
  { eapply outcomes_mono; [eapply auth_errors; by apply bucket_path_id|done|]. by intros e [_ He] ->. }
  intros a _. eapply outcomes_bind with (Q := any).
  { apply outcomes_lift. destruct (extract_bytes _) as [body|e] eqn:Eb; [done|]. intros ->.
    apply rejected_bytes, rejection_status in Eb. simpl in Eb. set_solver. }
  intros body _. eapply outcomes_mono; [apply replies_update_policy|done|]. by intros e [_ He] ->.
Qed.

(** The answer of the kit's rotation. *)
Lemma rotation_ok env id bearer key c c' :
  TestKit.options c = default_options → sane (repo (TestKit.server c)) → id ≠ [] → "/"%byte ∉ id →
  Utf8.from_utf8 key = true →
  TestKit.patch_policy env id bearer (TestKit.rotate_signing_key key) c = (Ret (mkResponse 204 NoBody), c') →
  ∃ p p' audit, policy_view (repo (TestKit.server c)) (mkBucketId id) = Some p
    ∧ Buckets.apply_policy_patch p (Buckets.mkPatch None None None (Some (Some key)) None)
        (root_key TestKit.kit_state) = Ok (p', audit)
    ∧ policy_view (repo (TestKit.server c')) (mkBucketId id)
      = Some (Buckets.with_anonymous_access p' (Buckets.recompute_anonymous_access p')).
Proof.
  intros Ho Hs Hne Hsl Hu Hr.
  set (req := TestKit.patch_policy_request id bearer (TestKit.rotate_signing_key key)).
  destruct (send_handler env req c (mkRoute (bs "/api/v1/{bucket}") bucket_methods false) PATCH UpdatePolicy [id] Ho)
    as (c1 & Hsend & Hrepo & _);
    [by apply not_preflight|apply routed_by; [set_solver|by apply bucket_path_matches|done]|done|].
  unfold TestKit.patch_policy in Hr. fold req in Hr. rewrite Hsend in Hr. clear Hsend.
  pose proof (patch_errors env id bearer (TestKit.rotate_signing_key key) Hne Hsl (repo (TestKit.server c))) as He.
  fold req in He.
  destruct (run_handler TestKit.kit_state env req UpdatePolicy [id] (repo (TestKit.server c))) as [r0 s2] eqn:Hrun.
  simpl in Hrepo, He. injection Hr as Hresp <-. rewrite Hrepo.
  assert (∀ x, finish_head (method req) x = x) as Hfin by (intros x; unfold finish_head; by rewrite bool_decide_eq_false_2).
  destruct r0 as [[x|x]|]; simpl in Hresp; rewrite ?Hfin in Hresp; simplify_eq.
  apply (with_auth_ok env req _ _ _ _ Hs) in Hrun as (a & s1 & Hb & Hs1 & Hview & Hrun).
  pose proof (eq_trans (eq_sym Hb) (bucket_path_id id Hne Hsl)) as Hid. injection Hid as Hid.
  apply comp_bind_inv_ok in Hrun as (body & s3 & Hx & Hrun). injection Hx as Hbody <-.
  apply bytes_exact in Hbody as ->. cbn [req TestKit.patch_policy_request req_body] in Hrun.
  rewrite (signing_patch_read key Hu) in Hrun.
  destruct (update_policy_ok _ _ _ _ _ _ _ Hs1 Hrun) as (patch & p & p' & audit & [= <-] & Hp & Hpp & Hp');
    [apply fields_nonempty|by intros q t [= <-]|].
  exists p, p', audit. by rewrite <- Hview, <- Hid.
Qed.

(** C17: Rotating the signing key revokes. Whenever a [PATCH] of a bucket's policy that sets another
    signing key (a text) is answered with success, as the test kit sends it to a server with the
    default router options, the stored policy has the new key and the next generation, and every
    token minted under the old generation, with whatever key, is refused under that policy at
    every instant. This holds until the generation has reached its last 64-bit value, after which
    it wraps. *)
Theorem rotation_revokes_tokens (env : Env) (id bearer key : bytes) (c c' : TestKit.TestContext)
    (p : BucketPolicy) :
  TestKit.options c = default_options → sane (repo (TestKit.server c)) →
  id ≠ [] → "/"%byte ∉ id → Utf8.from_utf8 key = true →
  policy_view (repo (TestKit.server c)) (mkBucketId id) = Some p →
  signing_key p ≠ Some (mkSigningKey key) → (signing_key_generation p + 1 < 2 ^ 64)%N →
  TestKit.patch_policy env id bearer (TestKit.rotate_signing_key key) c = (Ret (mkResponse 204 NoBody), c') →
  ∃ p', policy_view (repo (TestKit.server c')) (mkBucketId id) = Some p'
    ∧ signing_key p' = Some (mkSigningKey key)
    ∧ signing_key_generation p' = (signing_key_generation p + 1)%N
    ∧ ∀ claims old t now, Tokens.mint claims old = Ok t →
        bucket_generation claims = signing_key_generation p →
        is_ok (Tokens.verify t p' (mkBucketId id) now) = false.
Proof.
  intros Ho Hs Hne Hsl Hu Hp Hk Hg Hr.
  destruct (rotation_ok env id bearer key c c' Ho Hs Hne Hsl Hu Hr) as (q & p' & audit & Hq & Hpp & Hview).
  rewrite Hp in Hq. injection Hq as <-.
  assert (signing_key p' = Some (mkSigningKey key)
    ∧ signing_key_generation p' = (signing_key_generation p + 1)%N) as [Hkey Hgen].
  { unfold Buckets.apply_policy_patch in Hpp. cbn -[Buckets.patch_signing] in Hpp.
    apply result_bind_ok in Hpp as ([[[k' g'] ch] cl] & Hsig & [= <- _]). simpl.
    apply patch_signing_ok in Hsig as (-> & -> & _ & ->). rewrite bool_decide_eq_true_2 by done.
    split; [done|]. by rewrite N.mod_small. }
  eexists. split; [exact Hview|]. simpl. split; [done|]. split; [done|].
  intros claims old t now Hm Hc. erewrite Tokens.verify_minted; [|exact Hm|exact Hkey].
  destruct (claims_to_vec claims); [|done]. case_bool_decide; [|done].
  unfold Tokens.claims_check. destruct (odt_leb _ _); [done|]. case_bool_decide; [done|]. simpl.
  rewrite Hc, Hgen. by rewrite (proj2 (N.eqb_neq _ _)) by lia.
Qed.

(** ** Faults *)

(** A corrupted entry is reported. After the kit has overwritten an entry with bytes the codec
    refuses, every read of that key over HTTP by a caller allowed to read it is answered 500; and
    when the backend call itself works, the read is counted as a failed [get] after an error of
    kind [codec_entry]. *)
Theorem corrupted_entry_reported (b : BucketId) (k : Key) (c c' : TestKit.TestContext) (msg : bytes) :
  Entry.from_bytes TestKit.CORRUPTED = Err msg →
  TestKit.corrupt_entry b k c = (Ret tt, c') →
  (∀ now a raw, bucket_id a = b → parse_percent_encoded_key raw = Ok k → require_read_on a k = Ok tt →
     (Keys.get_key now a raw (repo (TestKit.server c'))).1 = Ret (Err internal_error))
  ∧ (healthy (Store.db (repo (TestKit.server c'))) →
     Store.metrics (Store.get b k (repo (TestKit.server c'))).2
     = Store.metrics (repo (TestKit.server c'))
       ++ [storage_errors_total (bs "codec_entry"); storage_ops_total (bs "get") (bs "err")]).
Proof.
  intros Hd Hc. set (s := repo (TestKit.server c')).
  assert (cont s Data !! Layout.data_storage_key b k = Some TestKit.CORRUPTED) as Hrec.
  { unfold TestKit.corrupt_entry, Store.testkit_write_raw in Hc.
    destruct (ks_insert Data _ _ _) as [[[]|e] d] eqn:Ei; simplify_eq/=.
    destruct (insert_law _ _ _ _ _ _ Ei) as [Hi _]. unfold s, cont. simpl. rewrite Hi. simpl.
    by rewrite lookup_insert_eq. }
  assert (∃ e s1, Store.get b k s = (Ret (Err (Storage e)), s1)
    ∧ (healthy (Store.db s) → Store.metrics s1 = Store.metrics s
         ++ [storage_errors_total (bs "codec_entry"); storage_ops_total (bs "get") (bs "err")]))
    as (e & s1 & Hget & Hm).
  { unfold Store.get, Store.recorded, comp_bind, Store.on_db.
    destruct (ks_get Data (Layout.data_storage_key b k) (Store.db s)) as [r d] eqn:Eg.
    destruct (get_law _ _ _ _ _ Eg) as (_ & Hr & _). destruct r as [o|x].
    - subst o. unfold cont in Hrec. rewrite Hrec. simpl. unfold decode_entry. rewrite Hd. simpl.
      eexists _, _. split; [done|]. intros _. simpl. by rewrite <- app_assoc.
    - simpl. eexists _, _. split; [done|]. intros Hh. done. }
  split; [|by rewrite Hget].
  intros now a raw Ha Hraw Hread. unfold Keys.get_key, comp_bind, comp_lift, spawn_usecase. rewrite Hraw, Hread, Ha.
  unfold KeyService.get, comp_bind. simpl. by rewrite Hget.
Qed.

(** The injected probe failure shows at the readiness endpoint and nowhere else. With the fault
    on, [GET /ready] is answered 503 with the degraded body; with it off and a healthy database,
    200; either way the contents of the store are untouched. *)
Theorem probe_failure_reported (env : Env) (fail : bool) (c : TestKit.TestContext) :
  TestKit.options c = default_options → healthy (Store.db (repo (TestKit.server c))) →
  let req := mkRequest GET (bs "/ready") None (mkHeaders None None None) [] in
  let v := bs "0.1.0-alpha" in
  ∃ c', TestKit.send env req (TestKit.testkit_set_fail_ping_metadata fail c)
    = (Ret (if fail then mkResponse 503 (HealthBody (mkHealth (bs "degraded") (bs "error") v))
            else mkResponse 200 (HealthBody (mkHealth (bs "ok") (bs "ok") v))), c')
    ∧ ∀ ks, cont (repo (TestKit.server c')) ks = cont (repo (TestKit.server c)) ks.
Proof.
  intros Ho Hh. simpl. set (c0 := TestKit.testkit_set_fail_ping_metadata fail c).
  destruct (send_handler env (mkRequest GET (bs "/ready") None (mkHeaders None None None) []) c0
    (mkRoute (bs "/ready") [(GET, ReadinessCheck)] false) GET ReadinessCheck []) as (c' & Hs & Hr & _);
    [done|by apply not_preflight|apply routed_by; [set_solver|vm_refl|done]|done|].
  exists c'. rewrite Hs, Hr. clear Hs Hr. cbn [run_handler]. unfold Health.readiness_check.
  cbn [ping_metadata store_buckets]. unfold Store.ping_metadata. subst c0. simpl.
  destruct fail; simpl; [done|].
  unfold Store.recorded, comp_bind, Store.on_db. simpl.
  destruct (ks_get Meta (bs "__ping__") _) as [r d] eqn:Eg.
  destruct (get_law _ _ _ _ _ Eg) as (Hc & Hres & _). destruct r as [o|e]; [|done]. simpl. done.
Qed.

(** The recorder is installed at most once. Once a call of [prometheus_handle] has returned a
    handle, every later call returns that handle and leaves the process as it is; a failed
    installation stores nothing, so the next call tries again. *)
Theorem recorder_installed_once (h : TestKit.Host) :
  let '(r, h') := TestKit.prometheus_handle h in
  match r with
  | Ok handle => TestKit.prometheus_handle h' = (Ok handle, h')
  | Err _ => TestKit.PROMETHEUS h = None ∧ TestKit.PROMETHEUS h' = None
  end.
Proof.
  unfold TestKit.prometheus_handle. destruct (TestKit.PROMETHEUS h) eqn:E; [by rewrite E|].
  by destruct (install_prometheus (TestKit.host h)) as [[x|e] w].
Qed.

End Kit.

(** ** An instance of the client and the framework *)

Definition lookup_field {A} (name : bytes) (fields : list (bytes * A)) : option A :=
  (λ x, x.2.2) <$> list_find (λ x, x.1 = name) fields.

Definition toy_create_form (_ : Headers) (body : bytes) : result Buckets.CreateBucketForm Response :=
  match count_read (A := list (bytes * bytes)) body with
  | Some fields =>
    let ttl := (λ l, Z.to_N (Dec.digits_val l)) <$> lookup_field (bs "default_ttl") fields in
    if bool_decide (default 0%N ttl <= Usize.usize_max)%N
    then Ok (Buckets.mkCreateForm (default [] (lookup_field (bs "email") fields))
               (lookup_field (bs "secret_key") fields) (lookup_field (bs "read_key") fields)
               (lookup_field (bs "write_key") fields) (lookup_field (bs "signing_key") fields) ttl)
    else Err bad_request
  | None => Err bad_request
  end.

Definition toy_token_form (_ : Headers) (body : bytes) : result TokensRoute.CreateTokenForm Response :=
  match count_read (A := list (bytes * bytes)) body with
  | Some fields =>
    Ok (TokensRoute.mkTokenForm (default [] (lookup_field (bs "prefix") fields))
          (default [] (lookup_field (bs "permissions") fields))
          (default 0 (lookup_field (bs "ttl") fields ≫= Int64.parse)))
  | None => Err bad_request
  end.

(** A member that is a string or [null]. *)
Definition toy_member (x : bytes * bytes) : bytes * json :=
  (x.1, match json_shape_of (x.2 : json_value (JsonValueOps := toy_json)) with JsonString s => JStr s | _ => JNull end).

Definition toy_tree (body : bytes) : option json :=
  match body with
  | "{"%byte :: body' =>
    (λ fields, JObj (toy_member <$> fields)) <$> count_read (A := list (bytes * bytes)) body'
  | _ => None
  end.

#[local] Instance kit_axum : AxumOps := axum_with toy_wire toy_create_form toy_token_form toy_tree.

Lemma kit_axum_laws : AxumLaws kit_axum.
Proof.
  apply axum_with_laws. intros h b f t. unfold toy_create_form. destruct (count_read b) as [fields|]; [|done].
  case_bool_decide as Hb; [|done]. intros [= <-] Ht. cbn [Buckets.f_default_ttl] in Ht. by rewrite Ht in Hb.
Qed.

#[local] Instance toy_kit : KitOps := {
  form_to_string fields := count_write fields;
  json_null := bs "n";
  fields_to_vec fields := "{"%byte :: count_write (fields : list (bytes * bytes));
  b64std_encode := hex_encode;
}.

Lemma hex_graphic l : Utf8.graphic (hex_encode l).
Proof.
  induction l as [|b l IH]; [constructor|].
  change (hex_encode (b :: l))
    with (hex_digit (byte_Z b / 16) :: hex_digit (byte_Z b mod 16) :: hex_encode l).
  pose proof (byte_Z_range b). assert (∀ n, 0 <= n < 16 →
    byte_Z (hex_digit n) < 128 ∧ Utf8.is_whitespace (byte_Z (hex_digit n)) = false) as Hd.
  { intros n Hn. rewrite hex_digit_Z by lia. split; [lia|]. unfold Utf8.is_whitespace. lia. }
  constructor; [apply Hd; lia|]. constructor; [apply Hd; lia|done].
Qed.

Lemma digits_of_N n : Z.to_N (Dec.digits_val (Int64.to_string (Z.of_N n))) = n.
Proof.
  unfold Int64.to_string. rewrite (proj2 (Z.ltb_ge _ _)) by lia. rewrite Dec.show_val by lia. apply N2Z.id.
Qed.

Lemma setup_lookup s :
  lookup_field (bs "email") (TestKit.setup_fields s) = Some (TestKit.email s)
  ∧ lookup_field (bs "secret_key") (TestKit.setup_fields s) = TestKit.secret_key s
  ∧ lookup_field (bs "read_key") (TestKit.setup_fields s) = TestKit.read_key s
  ∧ lookup_field (bs "write_key") (TestKit.setup_fields s) = TestKit.write_key s
  ∧ lookup_field (bs "signing_key") (TestKit.setup_fields s) = TestKit.signing_key s
  ∧ lookup_field (bs "default_ttl") (TestKit.setup_fields s)
    = (λ n, Int64.to_string (Z.of_N n)) <$> TestKit.default_ttl s.
Proof. destruct s as [em [sk|] [rk|] [wk|] [gk|] [t|]]; split_and!; reflexivity. Qed.

Lemma toy_kit_laws : KitLaws toy_kit.
Proof.
  split.
  - apply hex_decode_encode.
  - intros l. apply Utf8.trim_graphic, hex_graphic.
  - done.
  - intros hs s _ _ _ Hu. cbn [extract_create_form kit_axum axum_with form_to_string toy_kit].
    unfold toy_create_form. rewrite count_read_write.
    destruct (setup_lookup s) as (-> & -> & -> & -> & -> & ->).
    destruct (TestKit.default_ttl s) as [t|]; cbn -[Int64.to_string Dec.digits_val Usize.usize_max];
      rewrite ?digits_of_N; (rewrite bool_decide_eq_true_2; [done|first [by apply Hu|done]]).
  - intros key _. unfold parse_patch. cbn [json_tree kit_axum axum_with fields_to_vec toy_kit]. unfold toy_tree.
    rewrite count_read_write. cbn. unfold Bodies.UpdatePolicyJson_deserialize, Serde.defaulted. by Serde.lookups.
  - done.
  - by intros l l' [= ->].
Qed.

Lemma kit_rejections : RejectionLaws kit_axum.
Proof.
  split. intros l e He. destruct He as [caps e He|q e He|q e He|h b e He|h b e He|b e He]; simpl in He.
  - destruct (forallb _ caps); simplify_eq/=. set_solver.
  - destruct q; simplify_eq/=. set_solver.
  - destruct q; simplify_eq/=. set_solver.
  - unfold toy_create_form in He. repeat case_match; simplify_eq/=; set_solver.
  - unfold toy_token_form in He. repeat case_match; simplify_eq/=; set_solver.
  - done.
Qed.

(** ** Witnesses *)

#[local] Existing Instance kit_axum_laws.
#[local] Existing Instance toy_kit_laws.
#[local] Existing Instance kit_rejections.

Definition kit_context (s : Store.FjallStore) : TestKit.TestContext :=
  TestKit.mkContext (bs "/tmp/kit") default_options (mkServer s (5%nat : @limiter _ kit_axum) []).

Lemma basic_auth_extracted_witness :
  extract (mkHeaders (Some (TestKit.basic_auth_header (bs "s3cret"))) None None) (Some (bs "key=other"))
  = Some (Basic (bs "s3cret")).
Proof.
  apply basic_auth_extracted.
  - discriminate.
  - apply (bool_decide_eq_true_1 _). vm_refl.
  - vm_refl.
Defined.

Lemma demo0_healthy : healthy (Store.db demo0).
Proof. apply demo0_good. Qed.

Lemma setups_create_witness :
  ∃ c' p, TestKit.create_bucket demo_request_env (TestKit.read_only (bs "rkey")) (kit_context demo0)
          = (Ret (bs "b2"), c')
    ∧ policy_view (repo (TestKit.server c')) (mkBucketId (bs "b2")) = Some p
    ∧ Permission.read (anonymous_access p) = false.
Proof.
  destruct (setups_create demo_request_env (TestKit.read_only (bs "rkey")) (kit_context demo0))
    as (c' & p & H1 & H2 & _ & H3 & _).
  - reflexivity.
  - apply demo_uuid_ok.
  - apply demo0_healthy.
  - vm_refl.
  - discriminate.
  - repeat constructor.
  - apply (bool_decide_unpack _). by vm_compute.
  - exists c', p. split; [exact H1|]. split; [exact H2|]. rewrite H3. vm_refl.
Defined.

Definition expired_demo : bytes :=
  match TestKit.mint_expired_read_token (at_nanos 5000000000000) (bs "b1") (bs "sk") with
  | Ret t => t
  | Panic => []
  end.

Lemma expired_token_refused_witness :
  Tokens.verify expired_demo token_policy (mkBucketId (bs "b1")) (at_nanos 6000000000000) = Err Expired.
Proof.
  apply (expired_token_refused (at_nanos 5000000000000) (at_nanos 6000000000000) (bs "b1") (bs "sk")
    expired_demo token_policy demo_rk).
  - vm_refl.
  - vm_refl.
  - reflexivity.
Defined.

(** A bucket made by the kit, with an admin key and a signing key. *)
Definition signed_context : TestKit.TestContext :=
  (TestKit.create_bucket demo_request_env (TestKit.signed (bs "adm") (bs "sk")) (kit_context demo0)).2.

Lemma signed_sane : sane (repo (TestKit.server signed_context)).
Proof.
  unfold signed_context, TestKit.create_bucket, TestKit.send.
  destruct (handle _ _ _ _ _) as [r s] eqn:Eh. simpl. eapply handle_safe; [| |exact Eh].
  - apply demo0_sane.
  - apply demo_uuid_ok.
Qed.

Definition rotated_context : TestKit.TestContext :=
  (TestKit.patch_policy demo_request_env (bs "b2") (bs "adm") (TestKit.rotate_signing_key (bs "sk2"))
     signed_context).2.

Lemma rotation_revokes_tokens_witness :
  ∃ p', policy_view (repo (TestKit.server rotated_context)) (mkBucketId (bs "b2")) = Some p'
        ∧ signing_key p' = Some (mkSigningKey (bs "sk2")).
Proof.
  destruct (policy_view (repo (TestKit.server signed_context)) (mkBucketId (bs "b2"))) as [p|] eqn:Ep.
  - assert (match policy_view (repo (TestKit.server signed_context)) (mkBucketId (bs "b2")) with
            | Some p => bool_decide (signing_key p = Some (mkSigningKey (bs "sk")))
                        && (signing_key_generation p =? 0)%N
            | None => false
            end = true) as Hv by vm_refl.
    rewrite Ep in Hv. apply andb_prop in Hv as [Hk%bool_decide_eq_true_1 Hg%N.eqb_eq].
    destruct (rotation_revokes_tokens demo_request_env (bs "b2") (bs "adm") (bs "sk2") signed_context
      rotated_context p) as (p' & H1 & H2 & _).
    + reflexivity.
    + apply signed_sane.
    + discriminate.
    + apply (bool_decide_eq_true_1 _). vm_refl.
    + vm_refl.
    + exact Ep.
    + rewrite Hk. discriminate.
    + rewrite Hg. reflexivity.
    + unfold rotated_context. apply pair_fst. vm_refl.
    + exists p'. split; [exact H1|exact H2].
  - assert (is_some (policy_view (repo (TestKit.server signed_context)) (mkBucketId (bs "b2"))) = true) as Hv
      by vm_refl.
    rewrite Ep in Hv. discriminate Hv.
Defined.

Definition corrupted_context : TestKit.TestContext :=
  (TestKit.corrupt_entry demo_bucket demo_key (kit_context served_store)).2.

Lemma corrupted_entry_reported_witness :
  (Keys.get_key (at_nanos 0) (demo_auth Auth.Admin) (as_bytes demo_key)
     (repo (TestKit.server corrupted_context))).1 = Ret (Err internal_error).
Proof.
  destruct (corrupted_entry_reported demo_bucket demo_key (kit_context served_store) corrupted_context
    (bs "Bad encoding")) as [H _].
  - vm_refl.
  - apply pair_fst. vm_refl.
  - apply H.
    + reflexivity.
    + vm_refl.
    + vm_refl.
Defined.

Lemma probe_failure_reported_witness :
  ∃ resp c', TestKit.send demo_request_env (demo_http GET (bs "/ready") [])
    (TestKit.testkit_set_fail_ping_metadata true (kit_context demo0)) = (Ret resp, c')
    ∧ status resp = 503%N.
Proof.
  destruct (probe_failure_reported demo_request_env true (kit_context demo0)) as (c' & H & _).
  - reflexivity.
  - apply demo0_healthy.
  - eexists _, c'. split; [exact H|reflexivity].
Defined.

(** ** A scenario

    The life of a token, driven through the kit: an admin issues a read token for a prefix and
    writes two keys; the token reads the key under its prefix, is refused the other key and any
    write, and is refused altogether after the signing key was rotated. *)

Definition asking (m : Method) (key bearer body : bytes) : Request :=
  mkRequest m (bs "/api/v1/b2/" ++ key) None (mkHeaders (Some (bs "Bearer " ++ bearer)) None None) body.

Definition status_of (r : exec Response) : N := match r with Ret resp => status resp | Panic => 0%N end.

Definition token_scenario : list N :=
  let e := demo_request_env in
  let '(issued, c) := TestKit.create_token e (bs "b2") (bs "adm") (TestKit.token_read (bs "logs") 60) signed_context in
  let token := match issued with Ret resp => match body resp with TokenBody t => t | _ => [] end | Panic => [] end in
  let '(w1, c) := TestKit.send e (asking PUT (bs "logs1") (bs "adm") (bs "42")) c in
  let '(w2, c) := TestKit.send e (asking PUT (bs "other") (bs "adm") (bs "43")) c in
  let '(r1, c) := TestKit.send e (asking GET (bs "logs1") token []) c in
  let '(r2, c) := TestKit.send e (asking GET (bs "other") token []) c in
  let '(r3, c) := TestKit.send e (asking PUT (bs "logs1") token (bs "44")) c in
  let '(p, c) := TestKit.patch_policy e (bs "b2") (bs "adm") (TestKit.rotate_signing_key (bs "sk2")) c in
  let '(r4, c) := TestKit.send e (asking GET (bs "logs1") token []) c in
  status_of <$> [issued; w1; w2; r1; r2; r3; p; r4].

Example token_life : token_scenario = [200; 200; 200; 200; 403; 403; 204; 401]%N.
Proof. vm_refl. Qed.
