(* ===== verification/UnitTests.v ===== *)
(** * The unit tests of the repository, run on the model

    Each [#[test]] of the domain, use-case and extractor modules as a definition over the model,
    with the tests' own fixtures and mock repositories; a failed [expect] or [assert_eq!] is
    [false]. The cryptographic and serialization crates are the computing instances of [Auth]; the
    one fact the tests need of the JSON parser, which texts of the test table are values, is an
    instance here. [unit_tests_pass] runs them. *)

From Stdlib Require Import Strings.Byte.
From S2P Require Import Prelude RustStd TimeLib Domain Counter Ports Codec KeyService Auth HttpBase.

(** [assert_eq!] and friends. *)
Definition same {A} `{EqDecision A} (a b : A) : bool := bool_decide (a = b).
Definition expect {A E} (r : result A E) (f : A → bool) : bool := match r with Ok a => f a | Err _ => false end.
Definition expect_err {A E} (r : result A E) (f : E → bool) : bool := match r with Ok _ => false | Err e => f e end.

Abbreviation suite := (list (bytes * bool)).

(** ** [keydock-domain/src/permission.rs] *)

Module PermissionTests.
Import Permission.

Definition admin_has_all_flags : bool := same ADMIN (new true true true true).
Definition read_only_has_only_read : bool := same READ_ONLY (new true false false false).
Definition none_has_no_flags : bool := same NONE (new false false false false).
Definition union_combines_flags : bool :=
  same (union (new true false false false) (new false true false true)) (new true true false true).

Definition anonymous_from_keys_matrix : bool :=
  forallb (λ c : bool * bool * bool * Permission,
             same (anonymous_from_keys c.1.1.1 c.1.1.2 c.1.2) c.2)
    [(false, false, false, new true true true true);
     (true, false, false, new true true true false);
     (false, true, false, new false true false false);
     (false, false, true, new true false true false);
     (true, true, false, new false true false false);
     (true, false, true, new true false true false);
     (false, true, true, new false false false false);
     (true, true, true, new false false false false)].

Definition tests : suite :=
  [(bs "admin_has_all_flags", admin_has_all_flags);
   (bs "read_only_has_only_read", read_only_has_only_read);
   (bs "none_has_no_flags", none_has_no_flags); (bs "union_combines_flags", union_combines_flags);
   (bs "anonymous_from_keys_matrix", anonymous_from_keys_matrix)].

End PermissionTests.

(** ** [keydock-domain/src/counter.rs] *)

Module CounterTests.
Import Counter.

(** A float literal of the tests. *)
Definition float (l : bytes) : Float64.f64 := default (Float64.of_decimal false 0 0) (Float64.parse l).

Definition is_counter_error (e : DomainError) : bool :=
  match e with InvalidCounterOp _ => true | _ => false end.

Definition parse_ok : bool :=
  forallb (λ c : bytes * CounterOp, expect (parse c.1) (λ o, same o c.2))
    [(bs "+1", OpInt 1); (bs "-3", OpInt (-3)); (bs "+1.5", OpFloat (float (bs "1.5")));
     (bs "  +2  ", OpInt 2)].

Definition parse_err : bool :=
  forallb (λ body, negb (is_ok (parse body))) [bs "5"; []; bs "+"; bs "+NaN"; bs "+Inf"].

Definition apply_int_plus_int_checked : bool :=
  expect (apply (OpInt 3) (ValInt 10)) (λ v, same v (ValInt 13)).
Definition apply_int_overflow_err : bool :=
  expect_err (apply (OpInt 1) (ValInt (2 ^ 63 - 1))) is_counter_error.
Definition apply_promotes_int_to_float : bool :=
  expect (apply (OpFloat (float (bs "1.5"))) (ValInt 10)) (λ v, same v (ValFloat (float (bs "11.5")))).
Definition apply_float_plus_int : bool :=
  expect (apply (OpInt 1) (ValFloat (float (bs "1.5")))) (λ v, same v (ValFloat (float (bs "2.5")))).
Definition from_stored_rejects_utf8_string : bool :=
  expect (Value.new (bs "hello") Value.Utf8) (λ sv, expect_err (from_stored sv) is_counter_error).
Definition from_stored_accepts_int64 : bool :=
  expect (Value.new (bs "42") Value.Int64) (λ sv, expect (from_stored sv) (λ v, same v (ValInt 42))).
Definition roundtrip_into_stored : bool :=
  expect (into_stored (ValInt (-7))) (λ sv, expect (from_stored sv) (λ v, same v (ValInt (-7)))).

Definition tests : suite :=
  [(bs "parse_ok", parse_ok); (bs "parse_err", parse_err);
   (bs "apply_int_plus_int_checked", apply_int_plus_int_checked);
   (bs "apply_int_overflow_err", apply_int_overflow_err);
   (bs "apply_promotes_int_to_float", apply_promotes_int_to_float);
   (bs "apply_float_plus_int", apply_float_plus_int);
   (bs "from_stored_rejects_utf8_string", from_stored_rejects_utf8_string);
   (bs "from_stored_accepts_int64", from_stored_accepts_int64);
   (bs "roundtrip_into_stored", roundtrip_into_stored)].

End CounterTests.

(** ** [keydock-usecase/src/keys.rs] and [txn.rs] *)

Module KeyServiceTests.

(** [serde_json] on the texts of [infer_value_kind_cases]. *)
Definition json_object : bytes := ["{"; "034"; "a"; "034"; ":"; "1"; "}"]%byte.
#[local] Instance table_json : JsonOps :=
  { json_is_value t := bool_decide (t = json_object ∨ t = bs "true") }.

(** [MockRepo]: it remembers the expiry of the last write. *)
Definition MockRepo : Type := option (option (@OffsetDateTime nano_time)).

Definition unimplemented {S A} : comp S A UseCaseError := comp_err NotImplemented.

#[local] Instance mock_repo : KeyRepository MockRepo := {
  repo_get _ _ := comp_ret None;
  repo_set _ _ _ expires_at := λ _, (Ret (Ok tt), Some expires_at);
  repo_delete _ _ := comp_ret false;
  repo_list _ _ := comp_ret [];
  repo_increment _ _ _ _ _ := unimplemented;
  repo_apply_batch _ _ := unimplemented;
}.

(** [RepoWithEntry]: it returns one entry. *)
Definition RepoWithEntry : Type := option (StoredEntry (T := nano_time)).

Definition repo_with_entry : KeyRepository RepoWithEntry := {|
  repo_get _ _ := λ s, (Ret (Ok s), s);
  repo_set _ _ _ _ := comp_ret tt;
  repo_delete _ _ := comp_ret false;
  repo_list _ _ := comp_ret [];
  repo_increment _ _ _ _ _ := unimplemented;
  repo_apply_batch _ _ := unimplemented;
|}.

(** [OkBatchRepo] of [txn.rs]. *)
Definition ok_batch_repo : KeyRepository unit := {|
  repo_get _ _ := comp_ret None;
  repo_set _ _ _ _ := comp_ret tt;
  repo_delete _ _ := comp_ret false;
  repo_list _ _ := comp_ret [];
  repo_increment _ _ _ _ _ := unimplemented;
  repo_apply_batch _ _ := comp_ret tt;
|}.

Definition bucket : BucketId := mkBucketId (bs "b").
Definition key : Key := mkKey (bs "k").

(** [OffsetDateTime::from_unix_timestamp(1_700_000_000)], with an offset in seconds. *)
Definition at_seconds (secs : Z) : @OffsetDateTime nano_time := at_nanos (secs * NANOS).
Definition now : @OffsetDateTime nano_time := at_seconds 1700000000.
Definition later (secs : Z) : @OffsetDateTime nano_time := at_seconds (1700000000 + secs).

Definition returns {S A} (m : exec (result A UseCaseError) * S) (f : A → S → bool) : bool :=
  match m with (Ret (Ok a), s) => f a s | _ => false end.
Definition fails {S A} (m : exec (result A UseCaseError) * S) (f : UseCaseError → bool) : bool :=
  match m with (Ret (Err e), _) => f e | _ => false end.

Definition infer_value_kind_cases : bool :=
  let plain := Some (bs "text/plain; charset=utf-8") in
  let raw : bytes := ["255"; "254"]%byte in
  forallb (λ c : bytes * option bytes * ValueKind, same (KeyService.infer_value_kind c.1.1 c.1.2) c.2)
    [(bs "hello", None, Value.Utf8); (bs "42", None, Value.Int64); (bs "3.14", None, Value.Float64);
     (json_object, None, Value.Json); (bs "x", Some (bs "application/json"), Value.Json);
     (bs "not-json", Some (bs "application/json; charset=utf-8"), Value.Json);
     (bs "42", plain, Value.Utf8); (bs "3.14", plain, Value.Utf8); (json_object, plain, Value.Utf8);
     (raw, plain, Value.Raw); (bs "true", None, Value.Json); (bs "inf", None, Value.Utf8);
     ([], None, Value.Utf8); (raw, None, Value.Raw)].

Definition set_empty_body_is_utf8 : bool :=
  returns (KeyService.set now bucket key [] None None None (None : MockRepo))
    (λ v s, same (kind v) Value.Utf8 && same (payload v) []
            && match s with Some None => true | _ => false end).

Definition set_ttl_override_over_default : bool :=
  returns (KeyService.set now bucket key (bs "1") None (Some 60%N) (Some 3600%N) (None : MockRepo))
    (λ v s, same (kind v) Value.Int64 && match s with Some (Some _) => true | _ => false end).

Definition set_rejects_ttl_seconds_out_of_i64_range : bool :=
  fails (KeyService.set now bucket key (bs "1") None (Some (2 ^ 64 - 1)%N) None (None : MockRepo))
    (λ e, match e with DomainErr (InvalidTtl _) => true | _ => false end).

Definition sample_entry (expires_at : option (@OffsetDateTime nano_time)) : StoredEntry (T := nano_time) :=
  mkEntry (mkStored (bs "x") Value.Utf8) expires_at.

Definition get_from (entry : StoredEntry (T := nano_time)) :=
  KeyService.get (KR := repo_with_entry) now bucket key (Some entry).

Definition get_expired_entry_returns_not_found : bool :=
  fails (get_from (sample_entry (Some (later (-1)))))
    (λ e, match e with NotFound => true | _ => false end).

Definition same_entry (e e' : StoredEntry (T := nano_time)) : bool :=
  same (value e) (value e') && same (nanos <$> expires_at e) (nanos <$> expires_at e').

Definition get_future_expiry_returns_entry : bool :=
  let entry := sample_entry (Some (later 60)) in returns (get_from entry) (λ got _, same_entry got entry).

Definition get_no_expiry_returns_entry : bool :=
  let entry := sample_entry None in returns (get_from entry) (λ got _, same_entry got entry).

(** [txn.rs] *)
Definition execute_delegates_to_apply_batch : bool :=
  returns (KeyService.execute (KR := ok_batch_repo)
             (mkBucketId (bs "aaaaaaaa-bbbb-cccc-dddd-eeeeeeeeeeee"))
             [TxnSet key (mkStored (bs "v") Value.Utf8) None] tt)
    (λ _ _, true).

Definition tests : suite :=
  [(bs "infer_value_kind_cases", infer_value_kind_cases);
   (bs "set_empty_body_is_utf8", set_empty_body_is_utf8);
   (bs "set_ttl_override_over_default", set_ttl_override_over_default);
   (bs "set_rejects_ttl_seconds_out_of_i64_range", set_rejects_ttl_seconds_out_of_i64_range);
   (bs "get_expired_entry_returns_not_found", get_expired_entry_returns_not_found);
   (bs "get_future_expiry_returns_entry", get_future_expiry_returns_entry);
   (bs "get_no_expiry_returns_entry", get_no_expiry_returns_entry);
   (bs "execute_delegates_to_apply_batch", execute_delegates_to_apply_batch)].

End KeyServiceTests.

(** ** [keydock-usecase/src/auth.rs] *)

Module AuthTests.
Import Auth.

Definition root_key : SigningKey := mkSigningKey (bs "root-key-test-32-bytes-min!!").
Definition hash (s : bytes) : option bytes := result_ok (hash_credential s root_key).

Definition policy_with_hashes (secret write read : option bytes) : BucketPolicy := {|
  default_ttl_secs := None;
  anonymous_access := Permission.NONE;
  secret_key_hash := secret ≫= hash;
  write_key_hash := write ≫= hash;
  read_key_hash := read ≫= hash;
  signing_key := None;
  signing_key_generation := 0;
|}.

Definition bucket : BucketId := mkBucketId (bs "b").
Definition now : @OffsetDateTime nano_time := at_nanos 0.

Definition hash_verify_roundtrip : bool :=
  expect (hash_credential (bs "my-secret") root_key) (λ h,
    same (verify_credential (bs "my-secret") h root_key) true
    && same (verify_credential (bs "wrong") h root_key) false).

Definition resolve_admin : bool :=
  expect (resolve (Some (bs "adm")) (policy_with_hashes (Some (bs "adm")) None None) bucket root_key now)
    (λ id, same id Admin).

Definition scoped_as (p : Permission) (id : ResolvedIdentity) : bool :=
  match id with Scoped permissions key_prefix => same permissions p && same (length key_prefix) 0%nat | _ => false end.

Definition resolve_write_scoped : bool :=
  expect (resolve (Some (bs "w")) (policy_with_hashes None (Some (bs "w")) None) bucket root_key now)
    (scoped_as Permission.WRITE_ONLY).

Definition resolve_read_key_grants_read_and_enumerate : bool :=
  expect (resolve (Some (bs "r")) (policy_with_hashes None None (Some (bs "r"))) bucket root_key now)
    (scoped_as Permission.READ_ENUMERATE).

Definition resolve_anonymous : bool :=
  expect (resolve None (policy_with_hashes None None None) bucket root_key now) (λ id, same id Anonymous).

Definition resolve_invalid_returns_err : bool :=
  expect_err (resolve (Some (bs "nope")) (policy_with_hashes (Some (bs "adm")) None None) bucket root_key now)
    (λ e, match e with InvalidCredential => true | _ => false end).

Definition tests : suite :=
  [(bs "hash_verify_roundtrip", hash_verify_roundtrip); (bs "resolve_admin", resolve_admin);
   (bs "resolve_write_scoped", resolve_write_scoped);
   (bs "resolve_read_key_grants_read_and_enumerate", resolve_read_key_grants_read_and_enumerate);
   (bs "resolve_anonymous", resolve_anonymous);
   (bs "resolve_invalid_returns_err", resolve_invalid_returns_err)].

End AuthTests.

(** ** [keydock-usecase/src/tokens.rs] *)

Module TokenTests.
Import Tokens KeyServiceTests.

Definition test_signing_key : SigningKey := mkSigningKey (bs "test-signing-key-bytes!!").

Definition sample_claims (bucket : BucketId) (generation : N) : TemporaryTokenClaims (T := nano_time) :=
  mkClaims nano_time 1 bucket generation (bs "user:") Permission.READ_ONLY (at_seconds 1700000000)
    (at_seconds 2000000000).

Definition policy_with_key (generation : N) : BucketPolicy :=
  mkPolicy None Permission.NONE None None None (Some test_signing_key) generation.

Inductive VerifyRejectionCase : Type :=
| TamperedSignature | Expired | WrongBucket | GenerationMismatch | NoSigningKey.

Definition expected (c : VerifyRejectionCase) : TokenError :=
  match c with
  | TamperedSignature => InvalidSignature
  | Expired => Ports.Expired
  | WrongBucket => BucketMismatch
  | GenerationMismatch => Ports.GenerationMismatch
  | NoSigningKey => Ports.NoSigningKey
  end.

Definition b1 : BucketId := mkBucketId (bs "b1").
Definition now_ok : @OffsetDateTime nano_time := at_seconds 1800000000.

(** The error of [verify], if it fails; [None] when a step before it does. *)
Definition rejected (raw : bytes) (policy : BucketPolicy) (b : BucketId) (now : @OffsetDateTime nano_time)
    : option TokenError :=
  match verify raw policy b now with Ok _ => None | Err e => Some e end.

Definition run_case (c : VerifyRejectionCase) : option TokenError :=
  match c with
  | NoSigningKey => rejected (bs "x.y") (mkPolicy None Permission.NONE None None None None 0) b1 now_ok
  | _ =>
    raw ← result_ok (mint (sample_claims b1 0) test_signing_key);
    let policy := policy_with_key 0 in
    match c with
    | TamperedSignature =>
      parts ← split_once "."%byte raw;
      rejected (parts.1 ++ "."%byte :: b64url_encode (replicate 32 "000"%byte)) policy b1 now_ok
    | Expired => rejected raw policy b1 (at_seconds 2100000000)
    | WrongBucket => rejected raw policy (mkBucketId (bs "b2")) now_ok
    | _ => rejected raw (policy_with_key 1) b1 now_ok
    end
  end.

Definition mint_verify_roundtrip : bool :=
  let claims := sample_claims b1 0 in
  expect (mint claims test_signing_key) (λ raw,
    expect (verify raw (policy_with_key 0) b1 now_ok) (λ out,
      same (Token.bucket out) (Token.bucket claims)
      && same (bucket_generation out) (bucket_generation claims)
      && same (allowed_prefix out) (allowed_prefix claims)
      && same (permissions out) (permissions claims))).

Definition verify_rejects_invalid_tokens : bool :=
  forallb (λ c, same (run_case c) (Some (expected c)))
    [TamperedSignature; Expired; WrongBucket; GenerationMismatch; NoSigningKey].

Definition tests : suite :=
  [(bs "mint_verify_roundtrip", mint_verify_roundtrip);
   (bs "verify_rejects_invalid_tokens", verify_rejects_invalid_tokens)].

End TokenTests.

(** ** [keydock-http/src/extract.rs] *)

Module ExtractTests.
Import Http.

Definition sample_key (name : bytes) : Key := mkKey name.

Definition auth (id : Auth.ResolvedIdentity) (presence : PolicyKeysPresence) (anonymous : Permission)
    : BucketAuth := mkAuth id (mkBucketId (bs "b")) presence anonymous None.

(** [PolicyKeysPresence { has_read_key, has_write_key, has_secret_key }] *)
Definition none_present : PolicyKeysPresence := mkPresence false false false.
Definition read_present : PolicyKeysPresence := mkPresence true false false.
Definition write_present : PolicyKeysPresence := mkPresence false true false.

Definition has_status (code : N) (r : result unit Response) : bool :=
  expect_err r (λ resp, same (status resp) code).

Definition reader (prefix : bytes) : BucketAuth :=
  auth (Auth.Scoped Permission.READ_ONLY prefix) read_present Permission.NONE.

Definition require_read_admin_ok : bool :=
  is_ok (require_read_on (auth Auth.Admin (mkPresence true false true) Permission.NONE) (sample_key (bs "k"))).
Definition require_read_scoped_empty_prefix_ok : bool :=
  is_ok (require_read_on (reader []) (sample_key (bs "any"))).
Definition require_read_scoped_prefix_match_ok : bool :=
  is_ok (require_read_on (reader (bs "user:42:")) (sample_key (bs "user:42:name"))).
Definition require_read_scoped_prefix_mismatch_forbidden : bool :=
  has_status 403 (require_read_on (reader (bs "user:42:")) (sample_key (bs "admin:config"))).
Definition require_read_anonymous_public_ok : bool :=
  is_ok (require_read_on (auth Auth.Anonymous none_present Permission.NONE) (sample_key (bs "k"))).
Definition require_read_anonymous_restricted_unauthorized : bool :=
  has_status 401 (require_read_on (auth Auth.Anonymous read_present Permission.NONE) (sample_key (bs "k"))).
Definition require_enumerate_anonymous_no_read_key_ok : bool :=
  is_ok (require_enumerate (auth Auth.Anonymous none_present Permission.NONE)).
Definition require_enumerate_anonymous_has_read_key_unauthorized : bool :=
  has_status 401 (require_enumerate (auth Auth.Anonymous read_present Permission.NONE)).
Definition require_write_anonymous_has_write_key_unauthorized : bool :=
  has_status 401 (require_write_on (auth Auth.Anonymous write_present Permission.NONE) (sample_key (bs "k"))).
Definition require_write_anonymous_public_ok : bool :=
  is_ok (require_write_on
    (auth Auth.Anonymous none_present (Permission.anonymous_from_keys false false false)) (sample_key (bs "k"))).
Definition require_delete_anonymous_any_key_present_unauthorized : bool :=
  has_status 401 (require_delete_on
    (auth Auth.Anonymous read_present (Permission.anonymous_from_keys false true false)) (sample_key (bs "k"))).
Definition require_delete_anonymous_no_keys_ok : bool :=
  is_ok (require_delete_on
    (auth Auth.Anonymous none_present (Permission.anonymous_from_keys false false false)) (sample_key (bs "k"))).

Definition tests : suite :=
  [(bs "require_read_admin_ok", require_read_admin_ok);
   (bs "require_read_scoped_empty_prefix_ok", require_read_scoped_empty_prefix_ok);
   (bs "require_read_scoped_prefix_match_ok", require_read_scoped_prefix_match_ok);
   (bs "require_read_scoped_prefix_mismatch_forbidden", require_read_scoped_prefix_mismatch_forbidden);
   (bs "require_read_anonymous_public_ok", require_read_anonymous_public_ok);
   (bs "require_read_anonymous_restricted_unauthorized", require_read_anonymous_restricted_unauthorized);
   (bs "require_enumerate_anonymous_no_read_key_ok", require_enumerate_anonymous_no_read_key_ok);
   (bs "require_enumerate_anonymous_has_read_key_unauthorized",
    require_enumerate_anonymous_has_read_key_unauthorized);
   (bs "require_write_anonymous_has_write_key_unauthorized",
    require_write_anonymous_has_write_key_unauthorized);
   (bs "require_write_anonymous_public_ok", require_write_anonymous_public_ok);
   (bs "require_delete_anonymous_any_key_present_unauthorized",
    require_delete_anonymous_any_key_present_unauthorized);
   (bs "require_delete_anonymous_no_keys_ok", require_delete_anonymous_no_keys_ok)].

End ExtractTests.

(** Every test passes on the model. *)
Example unit_tests_pass :
  filter (λ t, t.2 = false)
    (PermissionTests.tests ++ CounterTests.tests ++ KeyServiceTests.tests ++ AuthTests.tests
     ++ TokenTests.tests ++ ExtractTests.tests) = [].
Proof. vm_refl. Qed.
