(* ===== verification/HttpTests.v ===== *)
(** * The tests of the HTTP modules, run on the model

    Each test of [auth.rs], [error.rs], [routes/health.rs] and [routes/txn.rs] of [keydock-http] as
    a definition over the model. Percent encoding is decoded by the computing instance of
    [Routing]; the base64 alphabet of the tests is an arbitrary injective encoding; documents are
    trees, with the compact text [serde_json] prints. [http_tests_pass] runs them. *)

From Stdlib Require Import Strings.Byte.
From S2P Require Import Prelude RustStd TimeLib Domain Counter Ports Codec Auth KeyService HttpBase Serde HttpRoutes HttpBuckets Bodies Router Routing UnitTests.
Import Http Bodies.

(** ** [auth.rs] *)

Module HttpAuthTests.

#[local] Instance test_wire : WireOps := pct_wire.

(** [BASE64_STD.encode] *)
Definition encode (l : bytes) : bytes := hex_encode l.

Definition headers_with_auth (value : bytes) : Headers := mkHeaders (Some value) None None.
Definition no_headers : Headers := mkHeaders None None None.

Definition extracts (h : Headers) (query : option bytes) (expected : bytes) : bool :=
  match extract h query with Some c => same (as_str c) expected | None => false end.

Definition extract_bearer : bool :=
  let h := headers_with_auth (bs "Bearer secret-token") in
  extracts h (Some (bs "access_token=ignored")) (bs "secret-token").

Definition extract_bearer_priority_over_query : bool :=
  let h := headers_with_auth (bs "Bearer from-header") in
  extracts h (Some (bs "access_token=from-query")) (bs "from-header").

Definition extract_basic_username : bool :=
  let encoded := encode (bs "alice:secret") in
  let h := headers_with_auth (bs "Basic " ++ encoded) in
  extracts h None (bs "alice").

Definition basic_auth_password_ignored : bool :=
  let encoded := encode (bs "alice:wrong-password") in
  let h := headers_with_auth (bs "Basic " ++ encoded) in
  extracts h None (bs "alice").

Definition basic_auth_no_colon_uses_full_string : bool :=
  let encoded := encode (bs "alice") in
  let h := headers_with_auth (bs "Basic " ++ encoded) in
  extracts h None (bs "alice").

Definition basic_auth_invalid_base64_falls_through_to_query : bool :=
  let h := headers_with_auth (bs "Basic !!!invalid!!!") in
  extracts h (Some (bs "access_token=query-token")) (bs "query-token").

Definition extract_query_cases : bool :=
  forallb (λ c : bytes * bytes, extracts no_headers (Some c.1) c.2)
    [(bs "access_token=qp-token", bs "qp-token");
     (bs "key=key-alias", bs "key-alias");
     (bs "key=first&access_token=second", bs "second");
     (bs "access_token=hello%20world", bs "hello world")].

Definition extract_missing_returns_none : bool :=
  negb (is_some (extract no_headers None)) && negb (is_some (extract no_headers (Some (bs "other=1")))).

Definition tests : suite :=
  [(bs "extract_bearer", extract_bearer);
   (bs "extract_bearer_priority_over_query", extract_bearer_priority_over_query);
   (bs "extract_basic_username", extract_basic_username);
   (bs "basic_auth_password_ignored", basic_auth_password_ignored);
   (bs "basic_auth_no_colon_uses_full_string", basic_auth_no_colon_uses_full_string);
   (bs "basic_auth_invalid_base64_falls_through_to_query", basic_auth_invalid_base64_falls_through_to_query);
   (bs "extract_query_cases", extract_query_cases);
   (bs "extract_missing_returns_none", extract_missing_returns_none)].

End HttpAuthTests.

(** Equality of documents. *)
Fixpoint json_eqb (a b : json) : bool :=
  match a, b with
  | JNull, JNull => true
  | JBool x, JBool y => Bool.eqb x y
  | JInt x, JInt y => x =? y
  | JFloat x, JFloat y => bool_decide (x = y)
  | JStr x, JStr y => bool_decide (x = y)
  | JArr l, JArr l' =>
    (fix go l l' :=
       match l, l' with
       | [], [] => true
       | x :: l, y :: l' => json_eqb x y && go l l'
       | _, _ => false
       end) l l'
  | JObj m, JObj m' =>
    (fix go m m' :=
       match m, m' with
       | [], [] => true
       | (k, x) :: m, (k', y) :: m' => bool_decide (k = k') && json_eqb x y && go m m'
       | _, _ => false
       end) m m'
  | _, _ => false
  end.

(** ** [error.rs] *)

Module ErrorTests.

Inductive JsonErrorCase : Type := Unauthorized | Forbidden | NotFound.

Definition response (c : JsonErrorCase) : Response * N :=
  match c with
  | Unauthorized => (unauthorized, 401%N)
  | Forbidden => (forbidden, 403%N)
  | NotFound => (not_found, 404%N)
  end.

Definition message (c : JsonErrorCase) : bytes :=
  match c with
  | Unauthorized => bs "unauthorized"
  | Forbidden => bs "forbidden"
  | NotFound => bs "not_found"
  end.

Definition error_helpers_status_and_body_shape : bool :=
  forallb (λ c,
    let (resp, expected) := response c in
    same (status resp) expected
    && match body_document (body resp) with
       | Some v =>
         json_eqb v (JObj [(bs "error", JObj [(bs "code", JInt (Z.of_N expected)); (bs "message", JStr (message c))])])
       | None => false
       end)
    [Unauthorized; Forbidden; NotFound].

Definition tests : suite := [(bs "error_helpers_status_and_body_shape", error_helpers_status_and_body_shape)].

End ErrorTests.

(** ** [routes/health.rs] *)

Module HealthTests.

Definition always_failing_buckets : BucketRepository unit := {|
  ping_metadata := comp_err (Storage (bs "ping failed"));
  get_policy _ := comp_ret None;
  create_bucket _ _ := comp_ret tt;
  delete_bucket _ := comp_ret tt;
|}.

(** Readiness does not touch the keys. *)
Definition noop_keys : KeyRepository (T := nano_time) unit := {|
  repo_get _ _ := comp_ret None;
  repo_set _ _ _ _ := comp_ret tt;
  repo_delete _ _ := comp_ret false;
  repo_list _ _ := comp_ret [];
  repo_increment _ _ _ _ _ := comp_err NotImplemented;
  repo_apply_batch _ _ := comp_ret tt;
|}.

Definition readiness_returns_503_when_storage_ping_fails : bool :=
  let resp := (Health.readiness_check (BR := always_failing_buckets) (bs "0.1.0-test") tt).1 in
  same (status resp) 503%N
  && match body_document (body resp) with
     | Some json =>
       json_eqb json (JObj [(bs "status", JStr (bs "degraded")); (bs "storage", JStr (bs "error"));
                            (bs "version", JStr (bs "0.1.0-test"))])
     | None => false
     end.

Definition tests : suite :=
  [(bs "readiness_returns_503_when_storage_ping_fails", readiness_returns_503_when_storage_ping_fails)].

End HealthTests.

(** ** [routes/txn.rs] *)

Module TxnTests.

(** The compact text of a document of the tests: no string in them needs an escape. *)
Definition quoted (s : bytes) : bytes := "034"%byte :: s ++ ["034"%byte].

Fixpoint separated (l : list bytes) : bytes :=
  match l with
  | [] => []
  | [x] => x
  | x :: l' => x ++ bs "," ++ separated l'
  end.

Fixpoint compact (j : json) : bytes :=
  match j with
  | JNull => bs "null"
  | JBool b => if b : bool then bs "true" else bs "false"
  | JInt z => Int64.to_string z
  | JFloat f => Float64.to_string f
  | JStr s => quoted s
  | JArr l => bs "[" ++ separated (compact <$> l) ++ bs "]"
  | JObj m => bs "{" ++ separated ((λ x, quoted x.1 ++ bs ":" ++ compact x.2) <$> m) ++ bs "}"
  end.

(** [serde_json::Value] as its tree; the tests parse no text. *)
#[local] Instance tree_json : JsonValueOps := {|
  json_value := json;
  json_shape_of v := match v with JNull => JsonNull | JStr s => JsonString s | _ => JsonOther end;
  json_from_slice _ := None;
  json_to_vec v := Some (compact v);
  json_i64 := JInt;
  json_from_f64 f := if Float64.is_finite f then Some (JFloat f) else None;
  json_string := JStr;
  json_u8 b := JInt (byte_Z b);
  json_array := JArr;
  json_of_tree j := j;
|}.

(** [serde_json::from_value] *)
Definition from_value (j : json) : option (list Txn.TxnItem) := TxnRequest_deserialize j.

(** [json!({"txn": [..]})] *)
Definition txn (items : list json) : json := JObj [(bs "txn", JArr items)].

Definition is_set (item : option Txn.TxnItem) (k : bytes) (v : json) (ttl : option N) : bool :=
  match item with
  | Some (Txn.ItemSet set value ttl') => same set k && json_eqb value v && same ttl' ttl
  | _ => false
  end.

Definition parses_set_variant_with_string_value : bool :=
  match from_value (txn [JObj [(bs "set", JStr (bs "k")); (bs "value", JStr (bs "v"))]]) with
  | Some req => same (length req) 1%nat && is_set (req !! 0%nat) (bs "k") (JStr (bs "v")) None
  | None => false
  end.

Definition parses_set_variant_with_json_object_value : bool :=
  match from_value (txn [JObj [(bs "set", JStr (bs "k")); (bs "value", JObj [(bs "a", JInt 1)]);
                               (bs "ttl", JInt 60)]]) with
  | Some req => is_set (req !! 0%nat) (bs "k") (JObj [(bs "a", JInt 1)]) (Some 60%N)
  | None => false
  end.

Definition parses_delete_variant : bool :=
  match from_value (txn [JObj [(bs "delete", JStr (bs "k"))]]) with
  | Some req => match req !! 0%nat with Some (Txn.ItemDelete d) => same d (bs "k") | _ => false end
  | None => false
  end.

Definition rejects_invalid_shapes : bool :=
  forallb (λ payload, negb (is_some (from_value payload)))
    [txn [JObj [(bs "cmd", JStr (bs "set")); (bs "key", JStr (bs "k")); (bs "value", JStr (bs "v"))]];
     txn [JObj [(bs "set", JStr (bs "a")); (bs "delete", JStr (bs "b")); (bs "value", JStr (bs "v"))]];
     txn [JObj [(bs "set", JStr (bs "k"))]];
     txn [JObj [(bs "set", JStr (bs "k")); (bs "value", JStr (bs "v")); (bs "extra", JBool true)]]].

(** The UTF-8 bytes of [olá]. *)
Definition ola : bytes := bs "ol" ++ ["195"; "161"]%byte.

Definition json_value_to_body_string_keeps_bytes_and_no_content_type : bool :=
  match Txn.json_value_to_body (JStr ola) with Ok (body, ct) => same body ola && same ct None | Err _ => false end.

Definition json_value_to_body_non_string_uses_json_content_type : bool :=
  forallb (λ c : json * bytes,
      match Txn.json_value_to_body c.1 with
      | Ok (body, ct) => same body c.2 && same ct (Some Txn.JSON_CONTENT_TYPE)
      | Err _ => false
      end)
    [(JInt 42, bs "42"); (JFloat (CounterTests.float (bs "1.5")), bs "1.5"); (JBool true, bs "true");
     (JArr [JInt 1; JInt 2; JInt 3], bs "[1,2,3]")].

Definition json_value_to_body_rejects_null : bool :=
  match Txn.json_value_to_body JNull with Ok _ => false | Err e => same (status e) 400%N end.

(** Beyond the tests of the module: an operation, and a request, as an array of its values. *)
Definition accepts_positional_operations : bool :=
  match from_value (JArr [JArr [JArr [JStr (bs "k"); JStr (bs "v")]; JArr [JStr (bs "d")]]]) with
  | Some [s; Txn.ItemDelete d] => is_set (Some s) (bs "k") (JStr (bs "v")) None && same d (bs "d")
  | _ => false
  end.

Definition tests : suite :=
  [(bs "parses_set_variant_with_string_value", parses_set_variant_with_string_value);
   (bs "parses_set_variant_with_json_object_value", parses_set_variant_with_json_object_value);
   (bs "parses_delete_variant", parses_delete_variant);
   (bs "rejects_invalid_shapes", rejects_invalid_shapes);
   (bs "json_value_to_body_string_keeps_bytes_and_no_content_type",
    json_value_to_body_string_keeps_bytes_and_no_content_type);
   (bs "json_value_to_body_non_string_uses_json_content_type",
    json_value_to_body_non_string_uses_json_content_type);
   (bs "json_value_to_body_rejects_null", json_value_to_body_rejects_null);
   (bs "accepts_positional_operations", accepts_positional_operations)].

End TxnTests.

(** Every test passes on the model. *)
Example http_tests_pass :
  filter (λ t, t.2 = false) (HttpAuthTests.tests ++ ErrorTests.tests ++ HealthTests.tests ++ TxnTests.tests) = [].
Proof. vm_refl. Qed.
