(* ===== verification/StoreTests.v ===== *)
(** * The tests of the storage adapter, run on the model

    Each test of [keydock-fjall/src/store_test.rs] and of [gc.rs] as a program over a freshly opened
    store, on the computing instances of the backend and the codecs. A failed [expect] or
    [assert_eq!] ends the program. [store_tests_pass] runs them. *)

From Stdlib Require Import Strings.Byte.
From S2P Require Import Prelude RustStd TimeLib Domain Counter Ports Codec FjallLib Locks Store StoreSpec StoreList StoreRepo Gc Auth UnitTests.

Module StoreTests.

Abbreviation store := Store.FjallStore.
Abbreviation program := (comp store unit UseCaseError).

Definition assert (b : bool) : program := if b then comp_ret tt else comp_err NotFound.

(** [expect] on an option, and [expect_err]. *)
Definition expect_some {A} (o : option A) : comp store A UseCaseError :=
  match o with Some a => comp_ret a | None => comp_err NotFound end.
Definition expect_ok {A E} (r : result A E) : comp store A UseCaseError :=
  match r with Ok a => comp_ret a | Err _ => comp_err NotFound end.
Definition expect_failure {A} (m : comp store A UseCaseError) : comp store UseCaseError UseCaseError :=
  λ s, match m s with
       | (Ret (Err e), s') => (Ret (Ok e), s')
       | (Ret (Ok _), s') => (Ret (Err NotFound), s')
       | (Panic, s') => (Panic, s')
       end.

(** [FjallStore::open] on a new directory; does the test run to its end? *)
Definition passes (test : program) : bool :=
  match Store.open (Ok empty_db) with
  | Ok store => match test store with (Ret (Ok tt), _) => true | _ => false end
  | Err _ => false
  end.

Definition bucket_named (l : bytes) : comp store BucketId UseCaseError := expect_ok (Bucket.new l).
Definition some_bucket : comp store BucketId UseCaseError :=
  bucket_named (bs "aaaaaaaa-bbbb-cccc-dddd-eeeeeeeeeeee").
Definition a_key (l : bytes) : comp store Key UseCaseError := expect_ok (Key.from_bytes l).
Definition a_value (l : bytes) (kind : ValueKind) : comp store StoredValue UseCaseError :=
  expect_ok (Value.new l kind).

Definition at_seconds (secs : Z) : @OffsetDateTime nano_time := at_nanos (secs * NANOS).

(** [OffsetDateTime::from_unix_timestamp(1_700_000_000)], with an offset in seconds. *)
Definition later (secs : Z) : @OffsetDateTime nano_time := at_seconds (1700000000 + secs).
Definition now : @OffsetDateTime nano_time := later 0.

(** [OffsetDateTime::now_utc()] where a test reads the clock. *)
Definition now_utc : @OffsetDateTime nano_time := at_nanos (1800000000 * NANOS + 123456789).

Definition list_opts_no_prefix (now : @OffsetDateTime nano_time) : ListOpts :=
  mkListOpts None 10000 0 false false (Some now).

Definition keys_of (rows : list ListEntry) : list bytes := (λ r, as_bytes (le_key r)) <$> rows.

Definition is_some {A} (o : option A) : bool := match o with Some _ => true | None => false end.

#[local] Instance instant_eq_dec : EqDecision (@OffsetDateTime nano_time).
Proof.
  intros [n Hn] [m Hm]. destruct (decide (n = m)) as [->|Hne]; [left|right; congruence].
  f_equal. apply proof_irrel.
Defined.
#[local] Instance entry_eq_dec : EqDecision (@StoredEntry nano_time).
Proof. solve_decision. Defined.
#[local] Instance row_eq_dec : EqDecision ListEntry.
Proof. solve_decision. Defined.

(** [for name in names { store.set(name, v, None) }]. *)
Fixpoint set_all (bucket : BucketId) (v : StoredValue) (names : list bytes) : program :=
  match names with
  | [] => comp_ret tt
  | name :: names' =>
    let! k := a_key name in
    let! _ := Store.set bucket k v None in
    set_all bucket v names'
  end.

(** ** [store_test.rs] *)

Definition create_bucket_roundtrips_policy : program :=
  let! bucket := bucket_named (bs "my-bucket") in
  let rk := mkSigningKey (bs "root-key-test-32-bytes-min!!") in
  let! secret_hash := expect_ok (Auth.hash_credential (bs "secret") rk) in
  let! _ := assert (negb (same secret_hash (bs "secret"))) in
  let policy := {|
    default_ttl_secs := Some 3600%N;
    anonymous_access := Permission.READ_ONLY;
    secret_key_hash := Some secret_hash;
    read_key_hash := None;
    write_key_hash := None;
    signing_key := Some (mkSigningKey (bs "sign-key"));
    signing_key_generation := 2;
  |} in
  let! _ := Store.create_bucket bucket policy in
  let! found := Store.get_policy bucket in
  let! loaded := expect_some found in
  let! _ := assert (same (default_ttl_secs loaded) (default_ttl_secs policy)) in
  let! _ := assert (same (anonymous_access loaded) (anonymous_access policy)) in
  let! _ := assert (same (secret_key_hash loaded) (secret_key_hash policy)) in
  let! _ := assert (same (signing_key_generation loaded) (signing_key_generation policy)) in
  assert (same (expose_secret <$> signing_key loaded) (expose_secret <$> signing_key policy)).

Definition kv_roundtrip_set_get_delete_isolated_by_bucket : program :=
  let! b1 := bucket_named (bs "aaaaaaaa-bbbb-cccc-dddd-eeeeeeeeeeee") in
  let! b2 := bucket_named (bs "ffffffff-gggg-hhhh-iiii-jjjjjjjjjjjj") in
  let! k := a_key (bs "same-key") in
  let! v := a_value (bs "hello") Value.Utf8 in
  let exp := Some now_utc in
  let! _ := Store.set b1 k v exp in
  let! _ := Store.set b2 k v None in
  let! found := Store.get b1 k in
  let! e1 := expect_some found in
  let! _ := assert (same (value e1) v) in
  let! _ := assert (same (is_some (expires_at e1)) true) in
  let! existed := Store.delete b1 k in
  let! _ := assert (same existed true) in
  let! found := Store.get b1 k in
  let! _ := assert (same found None) in
  let! existed := Store.delete b1 k in
  let! _ := assert (same existed false) in
  let! found := Store.get b2 k in
  let! e2 := expect_some found in
  let! _ := assert (same (value e2) v) in
  assert (same (expires_at e2) None).

Definition list_empty_bucket_returns_empty : program :=
  let! bucket := some_bucket in
  let opts := list_opts_no_prefix now in
  let! rows := Store.list bucket opts in
  assert (same rows []).

Definition list_returns_keys_in_lexicographic_order : program :=
  let! bucket := some_bucket in
  let! v := a_value (bs "v") Value.Utf8 in
  let! _ := set_all bucket v [bs "c"; bs "a"; bs "b"] in
  let! rows := Store.list bucket (list_opts_no_prefix now) in
  assert (same (keys_of rows) [bs "a"; bs "b"; bs "c"]).

Definition list_prefix_filters_user_keys : program :=
  let! bucket := some_bucket in
  let! v := a_value (bs "v") Value.Utf8 in
  let! _ := set_all bucket v [bs "foo:1"; bs "foo:2"; bs "bar:1"] in
  let opts := mkListOpts (Some (bs "foo:")) 10000 0 false false (Some now) in
  let! rows := Store.list bucket opts in
  assert (same (keys_of rows) [bs "foo:1"; bs "foo:2"]).

Definition list_reverse_inverts_order : program :=
  let! bucket := some_bucket in
  let! v := a_value (bs "v") Value.Utf8 in
  let! _ := set_all bucket v [bs "a"; bs "b"; bs "c"] in
  let opts := mkListOpts None 10000 0 true false (Some now) in
  let! rows := Store.list bucket opts in
  assert (same (keys_of rows) [bs "c"; bs "b"; bs "a"]).

Definition list_skip_and_limit_paginate : program :=
  let! bucket := some_bucket in
  let! v := a_value (bs "v") Value.Utf8 in
  let! _ := set_all bucket v [bs "k0"; bs "k1"; bs "k2"; bs "k3"] in
  let opts := mkListOpts None 2 1 false false (Some now) in
  let! rows := Store.list bucket opts in
  assert (same (keys_of rows) [bs "k1"; bs "k2"]).

Definition list_excludes_expired_entries_when_expires_before_set : program :=
  let! bucket := some_bucket in
  let! v := a_value (bs "v") Value.Utf8 in
  let! k_live := a_key (bs "live") in
  let! k_dead := a_key (bs "dead") in
  let! _ := Store.set bucket k_live v (Some (later 10)) in
  let! _ := Store.set bucket k_dead v (Some (later (-1))) in
  let opts := mkListOpts None 10000 0 false false (Some now) in
  let! rows := Store.list bucket opts in
  let! _ := assert (same (length rows) 1%nat) in
  let! row := expect_some (rows !! 0%nat) in
  let! _ := assert (same (as_bytes (le_key row)) (bs "live")) in
  let! found := Store.get bucket k_dead in
  let! dead_stored := expect_some found in
  assert (same (expires_at dead_stored) (Some (later (-1)))).

(** [sweep_once] reads the clock itself. *)
Definition sweep_once (sweeper : Gc.GcSweeper) : program :=
  λ s, (Ret (Ok tt), Gc.sweep_once sweeper now_utc s).

Definition gc_sweep_removes_expired_keys_from_storage : program :=
  let! bucket := some_bucket in
  let! v := a_value (bs "v") Value.Utf8 in
  let! k_expired := a_key (bs "gone") in
  let! k_ok := a_key (bs "stay") in
  let! _ := Store.set bucket k_expired v (Some (at_nanos (1799999940 * NANOS + 123456789))) in
  let! _ := Store.set bucket k_ok v (Some (at_nanos (1800003600 * NANOS + 123456789))) in
  let! found := Store.get bucket k_expired in
  let! _ := assert (same (is_some found) true) in
  let! sweeper := (λ s, (Ret (Ok (Gc.build_gc_sweeper s 3600)), s)) in
  let! _ := sweep_once sweeper in
  let! found := Store.get bucket k_expired in
  let! _ := assert (same found None) in
  let! found := Store.get bucket k_ok in
  assert (same (is_some found) true).

(** [increment] reads the clock itself. *)
Definition increment (b : BucketId) (k : Key) (o : Counter.CounterOp) (expires_at : option OffsetDateTime)
  : comp store StoredValue UseCaseError := Store.increment now_utc b k o expires_at.

Definition increment_creates_int_from_missing : program :=
  let! bucket := some_bucket in
  let! k := a_key (bs "n") in
  let! v := increment bucket k (Counter.OpInt 5) None in
  let! _ := assert (same (kind v) Value.Int64) in
  assert (same (payload v) (bs "5")).

Definition increment_creates_negative_from_missing : program :=
  let! bucket := some_bucket in
  let! k := a_key (bs "neg") in
  let! v := increment bucket k (Counter.OpInt (-3)) None in
  assert (same (payload v) (bs "-3")).

Definition increment_adds_to_existing_int : program :=
  let! bucket := some_bucket in
  let! k := a_key (bs "x") in
  let! base := a_value (bs "10") Value.Int64 in
  let! _ := Store.set bucket k base None in
  let! v := increment bucket k (Counter.OpInt 3) None in
  assert (same (payload v) (bs "13")).

Definition increment_promotes_int_to_float : program :=
  let! bucket := some_bucket in
  let! k := a_key (bs "promo") in
  let! base := a_value (bs "10") Value.Int64 in
  let! _ := Store.set bucket k base None in
  let! v := increment bucket k (Counter.OpFloat (CounterTests.float (bs "1.5"))) None in
  let! _ := assert (same (kind v) Value.Float64) in
  assert (same (payload v) (bs "11.5")).

Definition increment_float_stays_float : program :=
  let! bucket := some_bucket in
  let! k := a_key (bs "f") in
  let! base := a_value (bs "1.5") Value.Float64 in
  let! _ := Store.set bucket k base None in
  let! v := increment bucket k (Counter.OpInt 1) None in
  let! _ := assert (same (kind v) Value.Float64) in
  assert (same (payload v) (bs "2.5")).

Definition is_domain (e : UseCaseError) : bool := match e with DomainErr _ => true | _ => false end.

Definition increment_rejects_non_numeric_value : program :=
  let! bucket := some_bucket in
  let! k := a_key (bs "txt") in
  let! base := a_value (bs "hello") Value.Utf8 in
  let! _ := Store.set bucket k base None in
  let! err := expect_failure (increment bucket k (Counter.OpInt 1) None) in
  assert (same (is_domain err) true).

Definition increment_rejects_overflow : program :=
  let! bucket := some_bucket in
  let! k := a_key (bs "ov") in
  let! base := a_value (Int64.to_string (2 ^ 63 - 1)) Value.Int64 in
  let! _ := Store.set bucket k base None in
  let! err := expect_failure (increment bucket k (Counter.OpInt 1) None) in
  assert (same (is_domain err) true).

Definition increment_expired_key_treated_as_missing : program :=
  let! bucket := some_bucket in
  let! k := a_key (bs "exp") in
  let! base := a_value (bs "99") Value.Int64 in
  let! _ := Store.set bucket k base (Some (later (-1))) in
  let! v := increment bucket k (Counter.OpInt 1) None in
  assert (same (payload v) (bs "1")).

Definition apply_batch_empty_is_noop : program :=
  let! bucket := some_bucket in
  Store.apply_batch bucket [].

Definition apply_batch_set_and_delete : program :=
  let! bucket := some_bucket in
  let! k1 := a_key (bs "k1") in
  let! k2 := a_key (bs "k2") in
  let! v0 := a_value (bs "old") Value.Utf8 in
  let! _ := Store.set bucket k2 v0 None in
  let! v1 := a_value (bs "a") Value.Utf8 in
  let ops := [TxnSet k1 v1 None; TxnDelete k2] in
  let! _ := Store.apply_batch bucket ops in
  let! found := Store.get bucket k1 in
  let! e1 := expect_some found in
  let! _ := assert (same (payload (value e1)) (bs "a")) in
  let! found := Store.get bucket k2 in
  assert (same found None).

Definition apply_batch_set_with_ttl : program :=
  let! bucket := some_bucket in
  let! k := a_key (bs "ttl") in
  let! v := a_value (bs "x") Value.Utf8 in
  let ops := [TxnSet k v (Some (later 10))] in
  let! _ := Store.apply_batch bucket ops in
  let opts := mkListOpts None 10000 0 false false (Some now) in
  let! rows := Store.list bucket opts in
  let! _ := assert (same (length rows) 1%nat) in
  let! row := expect_some (rows !! 0%nat) in
  assert (same (as_bytes (le_key row)) (bs "ttl")).

(** ** [gc.rs] *)

(** The instants of the index keys of an iteration, and whether they ascend. *)
Fixpoint nondecreasing (prev : option Z) (rows : Datatypes.list (result (bytes * bytes) bytes)) : bool :=
  match rows with
  | [] => true
  | Ok (uk, _) :: rows' =>
    match ExpiryIndex.parse_expiry_index_key uk with
    | Some (ts, _) =>
      match prev with Some p => p <=? ts | None => true end && nondecreasing (Some ts) rows'
    | None => false
    end
  | Err _ :: _ => false
  end.

Fixpoint insert_all (timestamps : Datatypes.list Z) : program :=
  match timestamps with
  | [] => comp_ret tt
  | ts :: timestamps' =>
    let storage_key := bs "k" ++ Int64.to_string ts in
    let idx := ExpiryIndex.expiry_index_key ts storage_key in
    let! _ := Store.on_db (ks_insert Expiry idx []) in
    insert_all timestamps'
  end.

Definition expiry_keyspace_iterates_in_ascending_key_order : program :=
  let! _ := insert_all [100; 10; 50] in
  let! rows := (λ s, (Ret (Ok (ks_iter Expiry (Store.db s)).1), s)) in
  assert (nondecreasing None rows).

Definition tests : Datatypes.list (bytes * program) :=
  [(bs "create_bucket_roundtrips_policy", create_bucket_roundtrips_policy);
   (bs "kv_roundtrip_set_get_delete_isolated_by_bucket", kv_roundtrip_set_get_delete_isolated_by_bucket);
   (bs "list_empty_bucket_returns_empty", list_empty_bucket_returns_empty);
   (bs "list_returns_keys_in_lexicographic_order", list_returns_keys_in_lexicographic_order);
   (bs "list_prefix_filters_user_keys", list_prefix_filters_user_keys);
   (bs "list_reverse_inverts_order", list_reverse_inverts_order);
   (bs "list_skip_and_limit_paginate", list_skip_and_limit_paginate);
   (bs "list_excludes_expired_entries_when_expires_before_set",
    list_excludes_expired_entries_when_expires_before_set);
   (bs "gc_sweep_removes_expired_keys_from_storage", gc_sweep_removes_expired_keys_from_storage);
   (bs "increment_creates_int_from_missing", increment_creates_int_from_missing);
   (bs "increment_creates_negative_from_missing", increment_creates_negative_from_missing);
   (bs "increment_adds_to_existing_int", increment_adds_to_existing_int);
   (bs "increment_promotes_int_to_float", increment_promotes_int_to_float);
   (bs "increment_float_stays_float", increment_float_stays_float);
   (bs "increment_rejects_non_numeric_value", increment_rejects_non_numeric_value);
   (bs "increment_rejects_overflow", increment_rejects_overflow);
   (bs "increment_expired_key_treated_as_missing", increment_expired_key_treated_as_missing);
   (bs "apply_batch_empty_is_noop", apply_batch_empty_is_noop);
   (bs "apply_batch_set_and_delete", apply_batch_set_and_delete);
   (bs "apply_batch_set_with_ttl", apply_batch_set_with_ttl);
   (bs "expiry_keyspace_iterates_in_ascending_key_order", expiry_keyspace_iterates_in_ascending_key_order)].

End StoreTests.

(** Every test passes on the model. *)
Example store_tests_pass :
  ((λ t, t.1) <$> filter (λ t, StoreTests.passes t.2 = false) StoreTests.tests) = [].
Proof. vm_refl. Qed.
