(* ===== verification/ConfigTests.v ===== *)
(** * The tests of the configuration, run on the model

    Each test of [keydock-config/src/config/mod.rs] over a file system and an environment that
    compute. The TOML crate is a small line reader that covers the documents of the tests (tables,
    strings, inline tables with one entry, numbers, booleans). [config_tests_pass] runs them. *)

From Stdlib Require Import Strings.Byte.
From S2P Require Import Prelude RustStd OsLib Config Help InstanceInit UnitTests.
Import Config Loader.

Module ConfigTests.

(** ** A reader for the documents of the tests *)

Definition quote : byte := "034"%byte.

(** A document written with single quotes. *)
Definition toml (text : bytes) : bytes := (λ b, if decide (b = "'"%byte) then quote else b) <$> text.

(** The text between the first and the last byte. *)
Definition inner (l : bytes) : bytes := take (length l - 2) (drop 1 l).

(** [key = value], trimmed. *)
Definition assignment (line : bytes) : option (bytes * bytes) :=
  (λ kv, (Utf8.trim kv.1, Utf8.trim kv.2)) <$> split_once "="%byte line.

Definition value_of (raw : bytes) : toml_value :=
  match head raw with
  | Some c =>
    if decide (c = quote) then String (inner raw)
    else if decide (c = "{"%byte) then
      match assignment (inner raw) with
      | Some (key, v) => Table [(key, String (inner v))]
      | None => Table []
      end
    else Other (bs "integer")
  | None => Other (bs "integer")
  end.

(** The assignments of a document, the table of each before its key. *)
Fixpoint assignments (table : bytes) (lines : list bytes) : list (bytes * bytes) :=
  match lines with
  | [] => []
  | line :: lines' =>
    if starts_with line (bs "[") then assignments (inner line ++ bs ".") lines'
    else match assignment line with
         | Some (key, raw) => (table ++ key, raw) :: assignments table lines'
         | None => assignments table lines'
         end
  end.

Definition field (doc : list (bytes * bytes)) (name : bytes) : option bytes :=
  snd <$> head (filter (λ kv, kv.1 = name) doc).

Definition a_number (raw : option bytes) (d : Z) : Z := default d (raw ≫= Int64.parse).
Definition a_bool (raw : option bytes) : bool := bool_decide (raw = Some (bs "true")).

Definition read_document (text : bytes) : result TomlDoc unit :=
  let doc := assignments [] (split "010"%byte text) in
  Ok (mkDoc
    (mkHttp (default default_listen (field doc (bs "http.listen") ≫= λ raw, Net.from_str (inner raw))) None)
    (mkPaths (match field doc (bs "paths.data_dir") with Some raw => inner raw | None => bs "./data" end))
    (a_bool (field doc (bs "log_json")))
    (value_of <$> field doc (bs "root_key"))
    (mkGc (a_number (field doc (bs "gc.interval_secs")) default_gc_interval_secs))
    (mkRate (a_bool (field doc (bs "rate_limit.enabled")))
       (a_number (field doc (bs "rate_limit.requests_per_hour")) default_requests_per_hour))).

Definition quoted (s : bytes) : bytes := quote :: s ++ [quote].

(** The fields that are not the defaults. *)
Definition print_document (c : Config) : result bytes unit :=
  Ok (bs "root_key = " ++ quoted (expose_bytes (root_key c)) ++ ["010"%byte]
      ++ bs "[paths]" ++ ["010"%byte] ++ bs "data_dir = " ++ quoted (data_dir (paths c))).

#[local] Instance test_toml : TomlOps := {
  toml_de_error := unit;
  toml_de_custom _ := tt;
  toml_parse := read_document;
  toml_ser_error := unit;
  toml_to_string_pretty := print_document;
}.

(** ** Fixtures *)

Abbreviation fs_state := ToyFs.state.

Definition tempdir : fs_state := ToyFs.mkFs ∅ {[bs "/tmp"]} [].
Definition dir : bytes := bs "/tmp".

Definition write_file (path contents : bytes) (s : fs_state) : fs_state :=
  ToyFs.with_files (<[path := (contents, 0x180%N)]> (ToyFs.files s)) s.

Definition config_path : bytes := Path.join dir Init.CONFIG_FILENAME.
Definition write_config (contents : bytes) (s : fs_state) : fs_state := write_file config_path contents s.

Section Env.
Context {O : ConfigOps}.

Definition MapEnv (vars : list (bytes * bytes)) : EnvSource :=
  λ name, Ok (snd <$> head (filter (λ kv, kv.1 = name) vars)).

(** A process without [KEYDOCK_*] variables. *)
Definition no_vars : bytes → result bytes VarError := λ _, Err NotPresent.

End Env.

Definition load_from_file (s : fs_state) (path : bytes) : result Config (ConfigError (O := Init.ops_at s)) :=
  Loader.load_from_file (O := Init.ops_at s) no_vars path.

Definition load_from_sources (s : fs_state) (sources : ConfigSources) (vars : list (bytes * bytes))
  : result Config (ConfigError (O := Init.ops_at s)) :=
  Loader.load_from_sources_with_env (O := Init.ops_at s) sources (MapEnv (O := Init.ops_at s) vars).

Definition root_key_is (expected : bytes) (c : Config) : bool := same (expose_bytes (root_key c)) expected.

(** ** Initialisation *)

Definition u1 : bytes := bs "11111111-1111-4111-8111-111111111111".
Definition u2 : bytes := bs "22222222-2222-4222-8222-222222222222".
Definition instance_dir : bytes := Path.join dir (bs "instance").

Definition write_init_config (force : bool) : comp fs_state bytes Init.InitError :=
  Init.write_init_config u1 u2 instance_dir force.

Definition write_init_config_creates_round_trip : bool :=
  match write_init_config false tempdir with
  | (Ret (Ok path), s) =>
    same path (Path.join instance_dir Init.CONFIG_FILENAME)
    && expect (load_from_file s path) (λ loaded,
         same (listen (http loaded)) default_listen
         && same (metrics_listen (http loaded)) None
         && same (log_json loaded) false
         && expect (canonicalize (Path.join instance_dir (bs "data")) s) (λ p, same (data_dir (paths loaded)) p)
         && same (interval_secs (gc loaded)) 60
         && same (enabled (rate_limit loaded)) false
         && same (requests_per_hour (rate_limit loaded)) 1000)
  | _ => false
  end.

Definition write_init_config_fails_when_exists_without_force : bool :=
  match write_init_config false tempdir with
  | (Ret (Ok _), s) =>
    match write_init_config false s with
    | (Ret (Err (Init.AlreadyExists _)), _) => true
    | _ => false
    end
  | _ => false
  end.

Definition write_init_config_force_overwrites : bool :=
  forallb (λ first_force : bool,
      match write_init_config first_force tempdir with
      | (Ret (Ok _), s) =>
        match write_init_config true s with
        | (Ret (Ok path), s') =>
          expect (load_from_file s' path) (λ loaded, negb (same (expose_bytes (root_key loaded)) []))
        | _ => false
        end
      | _ => false
      end) [true; false].

(** ** Loading a file *)

Definition load_from_file_accepts_root_key_inline_forms : bool :=
  forallb (λ text,
      let s := write_config (toml text) tempdir in
      expect (load_from_file s config_path) (root_key_is (bs "inline-secret")))
    [bs "root_key = 'inline-secret'"; bs "root_key = { value = 'inline-secret' }"].

Definition load_from_file_accepts_root_key_env_source : bool :=
  let s := write_config (toml (bs "
root_key = { env = 'CUSTOM_ROOT_KEY' }
")) tempdir in
  expect (Loader.load_from_file_with_env (O := Init.ops_at s) config_path
            (MapEnv (O := Init.ops_at s) [(bs "CUSTOM_ROOT_KEY", bs "env-secret")]))
    (root_key_is (bs "env-secret")).

Definition load_from_file_accepts_root_key_file_source_relative_to_config_dir : bool :=
  let s := write_file (Path.join dir (bs "root.secret")) (bs "file-secret" ++ ["010"%byte]) tempdir in
  let s := write_config (toml (bs "
root_key = { file = 'root.secret' }
")) s in
  expect (load_from_file s config_path) (root_key_is (bs "file-secret")).

(** ** Layers *)

Definition load_from_sources_applies_env_before_cli : bool :=
  let s := write_config (toml (bs "
root_key = 'file-secret'
log_json = false

[http]
listen = '127.0.0.1:1111'

[paths]
data_dir = './from-file'

[gc]
interval_secs = 10

[rate_limit]
enabled = false
requests_per_hour = 10
")) tempdir in
  let env := [(ENV_HTTP_LISTEN, bs "127.0.0.1:2222"); (ENV_PATHS_DATA_DIR, bs "./from-env");
              (ENV_LOG_JSON, bs "true"); (ENV_ROOT_KEY, bs "env-secret");
              (ENV_GC_INTERVAL_SECS, bs "20"); (ENV_RATE_LIMIT_ENABLED, bs "1");
              (ENV_RATE_LIMIT_REQUESTS_PER_HOUR, bs "30")] in
  match Net.from_str (bs "127.0.0.1:3333") with
  | Some cli_listen =>
    let sources := mkSources (Some config_path) (Some cli_listen) (Some (bs "./from-cli")) true in
    expect (load_from_sources s sources env) (λ loaded,
      same (listen (http loaded)) cli_listen
      && same (data_dir (paths loaded)) (bs "./from-cli")
      && same (log_json loaded) true
      && root_key_is (bs "env-secret") loaded
      && same (interval_secs (gc loaded)) 20
      && same (enabled (rate_limit loaded)) true
      && same (requests_per_hour (rate_limit loaded)) 30)
  | None => false
  end.

(** ** Refusals *)

Definition load_from_file_rejects_empty_root_key : bool :=
  forallb (λ contents,
      let s := write_config (toml contents) tempdir in
      expect_err (load_from_file s config_path) (λ e, match e with EmptyRootKey => true | _ => false end))
    [bs "root_key = ''"; bs "root_key = '   '"].

Definition load_from_file_rejects_insecure_root_key_placeholder : bool :=
  let s := write_config
    (toml (bs "root_key = 'REPLACE_WITH_SECRET_FROM_keydock_init_OR_LONG_RANDOM_VALUE'")) tempdir in
  expect_err (load_from_file s config_path)
    (λ e, match e with InsecureRootKeyPlaceholder => true | _ => false end).

Definition load_from_sources_requires_root_key : bool :=
  let sources := mkSources None None None true in
  expect_err (load_from_sources tempdir sources []) (λ e, match e with MissingRootKey => true | _ => false end).

(** The standard library's [Debug], as far as this configuration has it. *)
#[local] Instance test_debug : Redact.StdDebug := {
  Redact.debug_str s := quoted s;
  Redact.debug_path p := quoted p;
  Redact.debug_addr a := if decide (a = default_listen) then bs "127.0.0.1:8080" else [];
}.

Definition config_debug_redacts_root_key : bool :=
  let config := mkConfig default_http default_paths false (mkSecret (bs "super-secret")) default_gc
                  default_rate_limit in
  let debug := Redact.debug_config config in
  same (contains debug (bs "super-secret")) false && same (contains debug (bs "[REDACTED]")) true.

Definition load_from_file_rejects_unknown_root_key_table_source : bool :=
  let s := write_config (toml (bs "root_key = { unknown = 'x' }")) tempdir in
  expect_err (load_from_file s config_path) (λ e, match e with Parse _ _ => true | _ => false end).

Definition load_from_sources_no_env_ignores_keydock_overrides : bool :=
  let s := write_config (toml (bs "
root_key = 'file-secret'

[http]
listen = '127.0.0.1:1111'

[paths]
data_dir = './from-file'
")) tempdir in
  let env := [(ENV_HTTP_LISTEN, bs "127.0.0.1:2222"); (ENV_ROOT_KEY, bs "env-secret")] in
  let sources := mkSources (Some config_path) None None false in
  expect (load_from_sources s sources env) (λ loaded,
    same (Some (listen (http loaded))) (Net.from_str (bs "127.0.0.1:1111"))
    && root_key_is (bs "file-secret") loaded).

Definition load_from_sources_no_env_toml_indirection_still_resolves : bool :=
  let s := write_config (toml (bs "root_key = { env = 'CUSTOM_KEY' }")) tempdir in
  let env := [(bs "CUSTOM_KEY", bs "resolved-secret"); (ENV_ROOT_KEY, bs "should-be-ignored")] in
  let sources := mkSources (Some config_path) None None false in
  expect (load_from_sources s sources env) (root_key_is (bs "resolved-secret")).

Definition tests : suite :=
  [(bs "write_init_config_creates_round_trip", write_init_config_creates_round_trip);
   (bs "write_init_config_fails_when_exists_without_force",
    write_init_config_fails_when_exists_without_force);
   (bs "write_init_config_force_overwrites", write_init_config_force_overwrites);
   (bs "load_from_file_accepts_root_key_inline_forms", load_from_file_accepts_root_key_inline_forms);
   (bs "load_from_file_accepts_root_key_env_source", load_from_file_accepts_root_key_env_source);
   (bs "load_from_file_accepts_root_key_file_source_relative_to_config_dir",
    load_from_file_accepts_root_key_file_source_relative_to_config_dir);
   (bs "load_from_sources_applies_env_before_cli", load_from_sources_applies_env_before_cli);
   (bs "load_from_file_rejects_empty_root_key", load_from_file_rejects_empty_root_key);
   (bs "load_from_file_rejects_insecure_root_key_placeholder",
    load_from_file_rejects_insecure_root_key_placeholder);
   (bs "load_from_sources_requires_root_key", load_from_sources_requires_root_key);
   (bs "config_debug_redacts_root_key", config_debug_redacts_root_key);
   (bs "load_from_file_rejects_unknown_root_key_table_source",
    load_from_file_rejects_unknown_root_key_table_source);
   (bs "load_from_sources_no_env_ignores_keydock_overrides",
    load_from_sources_no_env_ignores_keydock_overrides);
   (bs "load_from_sources_no_env_toml_indirection_still_resolves",
    load_from_sources_no_env_toml_indirection_still_resolves)].

End ConfigTests.

(** Every test passes on the model. *)
Example config_tests_pass : filter (λ t, t.2 = false) ConfigTests.tests = [].
Proof. vm_refl. Qed.
